(* ===== verification/_CoqProject ===== *)
-Q . S2P
Prelude.v
Defaults.v
GoStd.v
GoNet.v
GoText.v
GoFloat.v
Json.v
Record.v
Partition.v
Lease.v
Succession.v
Leadership.v
Handle.v
KafkaTransport.v
Kafka.v
Value.v
Cells.v
Frames.v
Codecs.v
Ipc.v
Ops.v
OpsFacts.v
Barrier.v
Names.v
Aligner.v
Store.v
Topology.v
Joins.v
JsonBridge.v
Nested.v
Avro.v
AvroEnds.v
AvroTrip.v
AvroJson.v
AvroCodec.v
Proto.v
ProtoPrint.v
ProtoParse.v
ProtoBridge.v
ProtoTrip.v
ProtoCodec.v
Built.v
Driver.v
Runner.v
Rollback.v
Delivery.v
Group.v
WireFormat.v
Client.v
Cache.v
Serde.v
JsonSchema.v
Compat.v
Stub.v
EndToEnd.v
StubServer.v
Highlight.v
Docsite.v
DocsitePages.v
