(* ===== verification/Prelude.v ===== *)
(** * krabka-streams-go: a verified model

    The repository is a Go library in four packages and some helpers. [coordination] elects a leader
    per role over a Kafka topic. [columnar] runs processing graphs on Arrow batches, with stateful operators, rebalances,
    barriers and transactions. [schema] talks to a schema registry, caches what it learns, and frames
    messages. [columnarschema] connects the last two: it turns Avro and Protobuf rows into Arrow batches.
    [krabkatest] holds a registry stub and a driver for tests, and [tools/docsite] renders the reference pages. This development translates their
    core into Rocq, function by function and under the names of the source, and proves what each part promises to the next.

    ** Parts

    Foundations. This file holds results, the state-and-error monad [io], bytes, machine integers ([wrapS], [wrapU] with their
    ranges [inS], [inU]), and readers of bytes with the class [Codec] for a pair of an encoder and a decoder.
    [GoStd], [GoNet], [GoText], [GoFloat] and [Json] are the parts of Go's standard library that the sources call.
    [Defaults] (krabkastreams.go) is the client configuration that the package recommends.

    coordination/. [Record] (record.go) is the format of the topic. [Partition] (partition.go) is
    the partition of a role. [Lease] (lease.go) is lease arithmetic in int64 and the manual clock.
    [Succession] (succession.go) folds the records of a partition into the state of a role, and decides
    what a member does next. [Leadership] (leadership.go, transport.go) acquires a leadership over a [Transport] and a
    [Clock], and [Handle] (leadership.go) is the live leadership, whose calls and whose renewal loop interleave.
    [KafkaTransport] (kafka_transport.go) is the shipped transport, over a Kafka client library. [Names] is what the enums of
    coordination/ and columnar/ print.

    columnar/, from the cell up. [Kafka] (records.go) is records, topic partitions and sized fields. [Value] (ops.go,
    support.go) is Go values, exact conversions and the tagged encoding of keys. [Cells] (support.go, values.go) reads and writes
    a cell of every Arrow type. [Frames] (support.go) is batches: reserved columns, headers, selections, copies, joined rows.
    [Codecs] (rowcodec.go, blob.go, gzip.go) turns records into batches and back, [Ipc] (ipc.go) a batch into a stream of Arrow IPC, and [JsonBridge] (jsonbridge.go) rows of
    any Go type through JSON. [Ops] (ops.go) is
    filters, derived columns and windowed grouping, with its theorems in [OpsFacts]. [Joins] (join.go) is the
    windowed join. [Topology] (topology.go) builds and validates a graph, [Built] (built.go) runs it for one partition at a
    time. [Barrier] (barrier.go, barriercut.go) reads published cuts, [Aligner] (barrieralign.go) aligns a group with
    one. [Store] (statestore.go) is the state store, the error policy and the metrics. [Runner] (runner.go, barrieralign.go)
    polls, processes, sends and commits; [Rollback], [Delivery] and [Group] hold its theorems.

    columnarschema/. [Nested] (metadata.go) is column types as the bridges read them back, with names, nullability and metadata. [Avro]
    (avroschema.go, avrobridge.go) is the columns of an Avro schema and both conversions; [AvroEnds] shows that
    they end, [AvroTrip] and [AvroJson] that rows come back, and [AvroCodec] (avrocodec.go) is the codec. [Proto] is the descriptors and
    messages of the Protobuf library as a class of operations with laws, [ProtoBridge] (protoschema.go,
    protobridge.go, protocodec.go) the columns of a message type, both conversions and the codec, with their theorems in
    [ProtoTrip] and [ProtoCodec].

    schema/. [WireFormat] (wireformat.go) frames messages. [Client] (client.go, errors.go) calls the registry. [Cache]
    (cache.go, schema.go) keeps schemas and fetches them in the background. [Serde] (serde.go, avro.go, protobuf.go,
    jsonschema.go) puts the serdes together, [JsonSchema] (jsonschema.go) compiles and validates, [Compat] (compat.go) compares two
    versions of a schema, and [ProtoPrint] (protoprint.go) prints a descriptor as the text that is registered. [ProtoParse] is a reader of
    that text, which the sources do not have: what the text means is what it finds.

    krabkatest/. [Stub] (registrystub.go) is the registry stub, to which it connects the client, and [StubServer] (registrystub.go) the server
    around it. [Driver] (testdriver.go) queues what a topology produces. [EndToEnd] puts serde, cache, client and stub together.

    tools/docsite/. [Highlight] (highlight.go) is source text as HTML, [Docsite] (main.go) loads packages and writes their pages, and
    [DocsitePages] holds the theorems about them.

    ** How the code maps

    A Go struct is a record, an enum or an [any] that the code switches on is an inductive type, and an error is a
    constructor that holds what its message prints. A fallible function returns [result]. A method that changes its receiver,
    or calls a client, is an [io] over that state: a function from the state to a result and the next state, so that a
    failed call keeps what it changed so far, as in Go. A map is a [gmap] or, where its order shows, a
    list. A nil slice is [None] where the code tells it from an empty one. An integer is a [Z] with the wrap-around of its width
    written out; a float is its 64 bits. A Go panic is an error constructor of its own.

    What runs outside of the repository is an argument: the Kafka clients, the HTTP client, the file system, the clocks, Arrow IPC and
    gzip, the Avro, Protobuf and JSON Schema libraries, and the parser, the printer and go/doc of the Go tools. Where a theorem needs something of them, a class states it
    ([Cluster], [Adapter], [TickingClock], [Quiet], [KafkaBroker], [LogReader], [Ledger], [StoreLaws], [Seeks], [ProcessorLaws],
    [RowBridgeLaws], [BlobLaws], [ArrowIPC] with [IPCLaws], [JSONSchemaLib], [Validation] (what a document of a JSON Schema is), [RowJSON], [ProtoLaws], [ScannerLaws], [GoDocLaws]), and a witness instantiates the theorem with concrete functions.

    Goroutines are interleavings of atomic steps: of the actions of a leadership handle in [Handle], where an action is
    a section under the mutex or one call, and of the methods of the cache and the ends of its fetches in [Cache].

    ** Loops and fuel

    Recursion that the data bounds is structural. Where it is not, a definition takes fuel, and there is a bound that is enough:
    [chunk_search], [encode_chunks] and [envelope_end] take the number of rows ([blob_chunks] is about the whole encoder, with no
    fuel left to choose); [append_varint] takes ten bytes and [digits_aux] the size of the number; [read_value] takes the length
    of the input, which is at least the depth of a value; [checkJSONReader] takes the height of the schema, and [checkJSONReader_fuel] shows
    that more changes nothing; [resolveReferences] takes one more than the number of references that can be reached
    ([references_resolved]). A translation of a schema and a conversion of a row take fuel where they follow the name of a type: the
    number of types, or the depth of the column, is enough ([conversions_end], [proto_schema_total]). The scanner of the highlighter takes twice the
    length of the source ([highlight_reads_back]). Four loops of the source do not end by themselves: the acquisition of a leadership
    ([AcquireLeadership_finishes] bounds its rounds on a quiet cluster), the renewal loop, the polling of a cut reader
    ([refresh_drains]), and the polling of a partition ([lease_marker_spins] is a partition on which it never ends). Running out of fuel is an outcome of its own there, never a
    success: [Running] is what is left of a renewal loop that goes on.

    ** What the theorems show

    Coordination: a later leader fences an earlier one, the acquisition finishes, the life cycle of a
    handle holds under every interleaving, the Kafka transport keeps the promises of its interface and reads every committed record, the renewal loop gives up once the lease that it cannot renew is past its deadline, the state of a
    role is exactly "the newest record of every key wins", compaction does not change it, the decisions of a member
    follow the timeline of the lease, and the format of the topic is exact in both directions.

    Columnar data: what is written to a column is the value, as a cell that its type can hold, a cell copies exactly where it should, both
    codecs and both snapshots round-trip, the blob codec packs maximal chunks, grouping and joining equal a reference over the whole
    history, and the aggregates are the count, the sum and the extremes.

    Schema bridges: every schema has its columns and every conversion ends, and a row that is written to a batch comes back: Avro rows
    up to the names of union branches and the precision of a column, messages field by field; each theorem names the rows for which it does
    not, with the lemma that shows it. The JSON text of a recursive Avro record
    reads back as it was.

    Columnar engine: a failed round rolls every processor back and aborts its transaction, offsets move only after delivery, a barrier
    fires exactly at its cut, a rewind restores exactly the cut, a revoked partition moves with its state, the error policy
    decides as documented, partitions do not see each other, and a snapshot survives a crash while it is saved.

    Schemas: one fetch per ID, prewarming in any schedule, reference resolution that ends on cyclic schemas, bounded retries, serdes
    that round-trip and answer pending first, validation on both sides of a frame, compatibility checks that are sound (JSON Schema, for readers that use
    the keywords it covers) or exact (Protobuf, against the wire types of the encoding), a printed descriptor that reads back as the declarations it was made
    of, whatever texts it holds, in proto2 and proto3 and outside of the corners that the printer gets wrong, and a stub that serves the
    client. A message that one process writes through all of these reaches another ([message_delivered]).

    Reference pages: highlighted source reads back as the source and lets no foreign tag in, every file is loaded into the package of its
    directory, a page is complete and its index leads to its elements, and a rendered site holds every page that it links to.

    Lemmas that end a section named after a surprise, such as [failed_round_skips_records], [assignment_undoes_restore],
    [union_copy_fails], [bool_keys_fail] or [nan_minimum_panics], are runs of the model in which the code does something that its
    comments do not say.

    ** Not modelled

    Parsing of Avro schemas, Protobuf JSON and the parser of .proto texts belong to libraries; [ProtoParse] reads what the printer
    writes, and takes the value of a message option, which the library prints, as one text between braces. Reference counts of Arrow
    memory, goroutine scheduling beyond the interleavings above, and what the operating system does for the listener of the stub are left out. So
    are the parsing of flags, the style sheet and the logo of the reference pages, and accessors that return a field. coordination/doc.go holds comments only. *)

From Stdlib Require Export Strings.String Strings.Byte ZArith Lia.
From stdpp Require Export base tactics decidable countable numbers option list sorting gmap fin_maps.

#[global] Open Scope Z_scope.

Declare Scope go_scope.
Delimit Scope go_scope with go.

(** ** Errors as values *)

(** A Go call that returns [(value, error)]: the value is meaningful only when the error is nil. *)
Inductive result (E A : Type) : Type :=
| Ok (a : A)
| Err (e : E).
Arguments Ok {E A} a.
Arguments Err {E A} e.

Definition rbind {E A B} (m : result E A) (k : A → result E B) : result E B :=
  match m with Ok a => k a | Err e => Err e end.

Definition rmap_err {E F A} (f : E → F) (m : result E A) : result F A :=
  match m with Ok a => Ok a | Err e => Err (f e) end.

Definition is_ok {E A} (m : result E A) : bool :=
  match m with Ok _ => true | Err _ => false end.

Notation "'let*' x ':=' m 'in' k" := (rbind m (fun x => k))
  (at level 10, x pattern, m at level 100, k at level 200) : go_scope.
Notation "'check!' c 'else' e 'in' k" := (if c then k else Err e)
  (at level 10, c at level 100, e at level 100, k at level 200) : go_scope.
#[global] Open Scope go_scope.

#[global] Instance result_eq_dec {E A} `{EqDecision E, EqDecision A} : EqDecision (result E A).
Proof. solve_decision. Defined.

Lemma rbind_Ok {E A B} (m : result E A) (k : A → result E B) b :
  rbind m k = Ok b ↔ ∃ a, m = Ok a ∧ k a = Ok b.
Proof.
  split; [destruct m; cbn; [eauto|done]|]. by intros (a & -> & H).
Qed.

Lemma rbind_Err {E A B} (m : result E A) (k : A → result E B) e :
  rbind m k = Err e ↔ m = Err e ∨ ∃ a, m = Ok a ∧ k a = Err e.
Proof.
  split; [destruct m; cbn; [eauto|left; congruence]|]. by intros [->|(a & -> & H)].
Qed.

Lemma rbind_assoc {E A B C} (m : result E A) (k : A → result E B) (h : B → result E C) :
  rbind (rbind m k) h = rbind m (λ a, rbind (k a) h).
Proof. by destruct m. Qed.

(** ** Effects *)

(** A call that reads and changes the world [W] it runs in (a cluster, a clock, a client), and that
    returns a value or an error. A failed call leaves its world behind too. *)
Definition io (W E A : Type) : Type := W → result E A * W.

Definition io_ret {W E A} (a : A) : io W E A := λ w, (Ok a, w).
Definition io_fail {W E A} (e : E) : io W E A := λ w, (Err e, w).
Definition io_lift {W E A} (r : result E A) : io W E A := λ w, (r, w).
Definition io_read {W E A} (f : W → A * W) : io W E A := λ w, let '(a, w) := f w in (Ok a, w).
Definition io_map_err {W E F A} (f : E → F) (m : io W E A) : io W F A :=
  λ w, let '(r, w) := m w in (rmap_err f r, w).
Definition io_bind {W E A B} (m : io W E A) (k : A → io W E B) : io W E B :=
  λ w, match m w with (Ok a, w) => k a w | (Err e, w) => (Err e, w) end.

(** [if err := m(); err != nil { ... }] with a handler for the error. *)
Definition io_try {W E F A B} (m : io W E A) (k : result E A → io W F B) : io W F B :=
  λ w, let '(r, w) := m w in k r w.

Notation "'do*' x ':=' m 'in' k" := (io_bind m (fun x => k))
  (at level 10, x pattern, m at level 100, k at level 200) : go_scope.

Lemma io_bind_Ok {W E A B} (m : io W E A) (k : A → io W E B) w b w' :
  io_bind m k w = (Ok b, w') ↔ ∃ a w1, m w = (Ok a, w1) ∧ k a w1 = (Ok b, w').
Proof.
  unfold io_bind. split.
  - destruct (m w) as [[a|e] w1]; [eauto|done].
  - by intros (a & w1 & -> & H).
Qed.

Lemma io_map_err_Ok {W E F A} (f : E → F) (m : io W E A) w a w' :
  io_map_err f m w = (Ok a, w') ↔ m w = (Ok a, w').
Proof. unfold io_map_err. destruct (m w) as [[]]; naive_solver. Qed.

Lemma io_lift_Ok {W E A} (r : result E A) (w : W) a w' :
  io_lift r w = (Ok a, w') ↔ r = Ok a ∧ w' = w.
Proof. unfold io_lift. naive_solver. Qed.

Lemma io_read_Ok {W E A} (f : W → A * W) (w : W) a w' :
  @io_read W E A f w = (Ok a, w') ↔ f w = (a, w').
Proof. unfold io_read. destruct (f w). naive_solver. Qed.

(** Run one step of a sequence of effects. *)
Lemma io_bind_run {W E A B} (m : io W E A) (k : A → io W E B) w a w' :
  m w = (Ok a, w') → io_bind m k w = k a w'.
Proof. unfold io_bind. by intros ->. Qed.

Lemma io_map_err_run {W E F A} (f : E → F) (m : io W E A) w a w' :
  m w = (Ok a, w') → io_map_err f m w = (Ok a, w').
Proof. unfold io_map_err. by intros ->. Qed.

Lemma io_read_run {W E A} (f : W → A * W) (w : W) a w' : f w = (a, w') → @io_read W E A f w = (Ok a, w').
Proof. unfold io_read. by intros ->. Qed.

Ltac io_run H :=
  rewrite (io_bind_run _ _ _ _ _ (io_map_err_run _ _ _ _ _ H)) ||
  rewrite (io_bind_run _ _ _ _ _ (io_read_run _ _ _ _ H)) || rewrite (io_bind_run _ _ _ _ _ H).

(** Invert a successful run of effects. *)
Ltac io_inv :=
  repeat match goal with
  | H : io_bind _ _ _ = (Ok _, _) |- _ => apply io_bind_Ok in H as (? & ? & ? & ?)
  | H : io_map_err _ _ _ = (Ok _, _) |- _ => apply io_map_err_Ok in H
  | H : io_lift _ _ = (Ok _, _) |- _ => apply io_lift_Ok in H as [? ->]
  | H : io_read _ _ = (Ok _, _) |- _ => apply (proj1 (io_read_Ok _ _ _ _)) in H
  | H : io_ret _ _ = (Ok _, _) |- _ => unfold io_ret in H; simplify_eq
  | H : io_fail _ _ = (Ok _, _) |- _ => discriminate H
  end.

(** ** Bytes *)

Abbreviation bytes := (list byte).

(** The value of a byte as an unsigned integer. *)
Definition b2z (b : byte) : Z := Z.of_N (Byte.to_N b).

(** Go's [byte(z)]: the low eight bits. *)
Definition z2b (z : Z) : byte :=
  match Byte.of_N (Z.to_N (z mod 256)) with Some b => b | None => x00 end.

#[global] Instance byte_eq_dec : EqDecision byte.
Proof. intros x y. destruct (Byte.byte_eq_dec x y); [left|right]; done. Defined.

#[global] Instance byte_countable : Countable byte.
Proof.
  refine (inj_countable' (λ b, Byte.to_N b) (λ n, default x00 (Byte.of_N n)) _).
  intros b. by rewrite Byte.of_to_N.
Defined.

Lemma b2z_range b : 0 ≤ b2z b < 256.
Proof.
  unfold b2z. pose proof (Byte.to_N_bounded b) as H. lia.
Qed.

Lemma z2b_b2z b : z2b (b2z b) = b.
Proof.
  unfold z2b. rewrite Z.mod_small by apply b2z_range.
  unfold b2z. rewrite N2Z.id, Byte.of_to_N. done.
Qed.

Lemma b2z_z2b z : b2z (z2b z) = z mod 256.
Proof.
  unfold z2b, b2z. pose proof (Z.mod_pos_bound z 256 ltac:(lia)) as Hb.
  destruct (Byte.of_N (Z.to_N (z mod 256))) as [b|] eqn:E.
  - apply Byte.to_of_N in E. rewrite E. lia.
  - apply Byte.of_N_None_iff in E. lia.
Qed.

Lemma b2z_inj b c : b2z b = b2z c → b = c.
Proof. intros H. rewrite <- (z2b_b2z b), <- (z2b_b2z c). by f_equal. Qed.

#[global] Instance b2z_Inj : Inj (=) (=) b2z.
Proof. exact b2z_inj. Qed.

(** A Go string constant: its bytes. *)
Definition str (s : String.string) : bytes := String.list_byte_of_string s.

Definition ascii_byte (s : String.string) : byte :=
  match String.list_byte_of_string s with b :: _ => b | [] => x00 end.

Arguments str s%_string.
Arguments ascii_byte s%_string.

(** [len(x)] of a byte slice or a string. *)
Definition zlen {A} (l : list A) : Z := Z.of_nat (length l).

Lemma zlen_nonneg {A} (l : list A) : 0 ≤ zlen l.
Proof. unfold zlen. lia. Qed.

Lemma zlen_app {A} (l k : list A) : zlen (l ++ k) = zlen l + zlen k.
Proof. unfold zlen. rewrite length_app. lia. Qed.

Lemma zlen_cons {A} (a : A) l : zlen (a :: l) = 1 + zlen l.
Proof. unfold zlen. cbn [length]. lia. Qed.

Lemma zlen_nil {A} : zlen (@nil A) = 0.
Proof. done. Qed.

(** ** Machine integers *)

(** A [w]-bit two's complement integer, and a [w]-bit unsigned integer, both as a [Z] with the
    wrap-around written out. *)
Definition wrapS (w z : Z) : Z := (z + 2 ^ (w - 1)) mod 2 ^ w - 2 ^ (w - 1).
Definition wrapU (w z : Z) : Z := z mod 2 ^ w.

Definition inS (w z : Z) : Prop := - 2 ^ (w - 1) ≤ z < 2 ^ (w - 1).
Definition inU (w z : Z) : Prop := 0 ≤ z < 2 ^ w.

Abbreviation MaxInt64 := 9223372036854775807.
Abbreviation MinInt64 := (-9223372036854775808).

Abbreviation int16 z := (wrapS 16 z).
Abbreviation int32 z := (wrapS 32 z).
Abbreviation int64 z := (wrapS 64 z).
Abbreviation uint32 z := (wrapU 32 z).
Abbreviation uint64 z := (wrapU 64 z).

#[global] Instance inS_dec w z : Decision (inS w z).
Proof. unfold inS. apply _. Defined.
#[global] Instance inU_dec w z : Decision (inU w z).
Proof. unfold inU. apply _. Defined.

Lemma pow2_split w : 0 < w → 2 ^ w = 2 * 2 ^ (w - 1).
Proof.
  intros H. replace w with (Z.succ (w - 1)) at 1 by lia. rewrite Z.pow_succ_r by lia. lia.
Qed.

Lemma wrapS_range w z : 0 < w → inS w (wrapS w z).
Proof.
  intros H. unfold inS, wrapS. pose proof (pow2_split w H) as Hp.
  pose proof (Z.pow_pos_nonneg 2 w ltac:(lia) ltac:(lia)) as Hpos.
  pose proof (Z.mod_pos_bound (z + 2 ^ (w - 1)) (2 ^ w) ltac:(lia)). lia.
Qed.

Lemma wrapS_id w z : 0 < w → inS w z → wrapS w z = z.
Proof.
  intros H Hz. unfold inS, wrapS in *. pose proof (pow2_split w H) as Hp.
  rewrite Z.mod_small by lia. lia.
Qed.

Lemma wrapU_range w z : 0 ≤ w → inU w (wrapU w z).
Proof.
  intros H. unfold inU, wrapU. apply Z.mod_pos_bound.
  apply Z.pow_pos_nonneg; lia.
Qed.

Lemma wrapU_id w z : inU w z → wrapU w z = z.
Proof. intros Hz. by apply Z.mod_small. Qed.

(** [int16(uint16(z))]: reading an unsigned value back as a signed one of the same width. *)
Lemma wrapS_wrapU w z : 0 < w → wrapS w (wrapU w z) = wrapS w z.
Proof.
  intros H. unfold wrapS, wrapU. by rewrite Zplus_mod_idemp_l.
Qed.

Lemma wrapU_wrapS w z : 0 < w → wrapU w (wrapS w z) = wrapU w z.
Proof.
  intros H. unfold wrapS, wrapU.
  rewrite Zminus_mod_idemp_l. f_equal. lia.
Qed.

Lemma wrapU_inj_inS w x y : 0 < w → inS w x → inS w y → wrapU w x = wrapU w y → x = y.
Proof.
  intros Hw Hx Hy H. rewrite <- (wrapS_id w x), <- (wrapS_id w y) by done.
  rewrite <- (wrapS_wrapU w x), <- (wrapS_wrapU w y) by done. by f_equal.
Qed.

(** Arithmetic with the concrete widths: unfold the ranges, evaluate the powers, and call [lia]. *)
Ltac width_consts :=
  change (2 ^ (64 - 1)) with 9223372036854775808 in *;
  change (2 ^ 64) with 18446744073709551616 in *;
  change (2 ^ (32 - 1)) with 2147483648 in *;
  change (2 ^ 32) with 4294967296 in *;
  change (2 ^ (16 - 1)) with 32768 in *;
  change (2 ^ 16) with 65536 in *;
  change (2 ^ (8 - 1)) with 128 in *;
  change (2 ^ 8) with 256 in *.

Ltac wrap_lia :=
  unfold inS, inU, wrapS, wrapU in *; width_consts;
  Z.to_euclidean_division_equations; lia.

(** A closed decidable fact, by evaluation. *)
Ltac by_decide := apply (bool_decide_unpack _); vm_compute; exact I.

(** ** Big-endian integers *)

(** [binary.BigEndian]: [n] bytes, most significant first. *)
Fixpoint be_encode (n : nat) (z : Z) : bytes :=
  match n with
  | O => []
  | S n => z2b (z / 256 ^ Z.of_nat n) :: be_encode n z
  end.

Definition be_decode (bs : bytes) : Z := fold_left (λ acc b, acc * 256 + b2z b) bs 0.

Lemma length_be_encode n z : length (be_encode n z) = n.
Proof. induction n; cbn; auto. Qed.

Lemma be_decode_acc bs acc :
  fold_left (λ acc b, acc * 256 + b2z b) bs acc = acc * 256 ^ zlen bs + be_decode bs.
Proof.
  unfold be_decode. revert acc. induction bs as [|b bs IH]; intros acc.
  - cbn [fold_left]. rewrite zlen_nil, Z.pow_0_r. ring.
  - rewrite zlen_cons. cbn [fold_left]. rewrite (IH (acc * 256 + b2z b)), (IH (0 * 256 + b2z b)).
    rewrite Z.pow_add_r by (pose proof (zlen_nonneg bs); lia). ring.
Qed.

Lemma be_decode_cons b bs : be_decode (b :: bs) = b2z b * 256 ^ zlen bs + be_decode bs.
Proof. unfold be_decode at 1. cbn [fold_left]. rewrite be_decode_acc. lia. Qed.

Lemma be_decode_encode n z : be_decode (be_encode n z) = z mod 256 ^ Z.of_nat n.
Proof.
  induction n as [|n IH]; [by rewrite Z.mod_1_r|].
  cbn [be_encode]. rewrite be_decode_cons, IH, b2z_z2b. unfold zlen. rewrite length_be_encode.
  rewrite Nat2Z.inj_succ, Z.pow_succ_r by lia.
  pose proof (Z.pow_pos_nonneg 256 (Z.of_nat n) ltac:(lia) ltac:(lia)) as Hp.
  set (P := 256 ^ Z.of_nat n) in *. rewrite (Z.mul_comm 256 P).
  rewrite Z.rem_mul_r by lia. lia.
Qed.

Lemma be_decode_range bs : 0 ≤ be_decode bs < 256 ^ zlen bs.
Proof.
  induction bs as [|b bs IH]; [done|].
  rewrite be_decode_cons, zlen_cons. rewrite Z.pow_add_r by (pose proof (zlen_nonneg bs); lia).
  pose proof (b2z_range b). nia.
Qed.

Lemma be_encode_mod n m z : (m ≤ n)%nat → be_encode m (z mod 256 ^ Z.of_nat n) = be_encode m z.
Proof.
  induction m as [|m IH]; intros Hm; [done|]. cbn [be_encode]. rewrite IH by lia. f_equal.
  apply b2z_inj. rewrite !b2z_z2b.
  replace (256 ^ Z.of_nat n) with (256 ^ Z.of_nat m * (256 * 256 ^ (Z.of_nat n - Z.of_nat m - 1))).
  2:{ rewrite <- (Z.pow_succ_r 256) by lia. rewrite <- Z.pow_add_r by lia. f_equal. lia. }
  pose proof (Z.pow_pos_nonneg 256 (Z.of_nat m) ltac:(lia) ltac:(lia)) as Hp.
  pose proof (Z.pow_pos_nonneg 256 (Z.of_nat n - Z.of_nat m - 1) ltac:(lia) ltac:(lia)) as Hq.
  set (P := 256 ^ Z.of_nat m) in *. set (Q := 256 ^ (Z.of_nat n - Z.of_nat m - 1)) in *.
  rewrite Z.rem_mul_r by lia. rewrite (Z.mul_comm P), Z.div_add by lia.
  rewrite (Z.div_small (z mod P)) by (apply Z.mod_pos_bound; lia).
  rewrite Z.add_0_l, Z.rem_mul_r by lia.
  rewrite (Z.mul_comm 256), Z.mod_add by lia. by rewrite Z.mod_mod by lia.
Qed.

Lemma be_encode_decode bs : be_encode (length bs) (be_decode bs) = bs.
Proof.
  induction bs as [|b bs IH]; [done|]. cbn [length be_encode]. rewrite be_decode_cons.
  pose proof (Z.pow_pos_nonneg 256 (zlen bs) ltac:(lia) (zlen_nonneg _)) as Hp.
  pose proof (be_decode_range bs) as Hr. f_equal.
  - change (Z.of_nat (length bs)) with (zlen bs).
    rewrite Z.add_comm, Z.div_add by lia. rewrite Z.div_small by lia.
    apply z2b_b2z.
  - rewrite <- (be_encode_mod (length bs)) by lia. change (Z.of_nat (length bs)) with (zlen bs).
    rewrite Z.add_comm, Z.mod_add by lia. rewrite Z.mod_small by lia. done.
Qed.

(** ** Readers *)

(** A reader over a byte slice: it returns the value and the bytes that are left, or an error. The
    Go readers keep the slice in a struct field; here it is passed along. *)
Definition reader (E A : Type) : Type := bytes → result E (A * bytes).

Definition rret {E A} (a : A) : reader E A := λ bs, Ok (a, bs).
Definition rfail {E A} (e : E) : reader E A := λ _, Err e.
Definition rseq {E A B} (m : reader E A) (k : A → reader E B) : reader E B :=
  λ bs, match m bs with Ok (a, rest) => k a rest | Err e => Err e end.

Notation "'read*' x ':=' m 'in' k" := (rseq m (fun x => k))
  (at level 10, x pattern, m at level 100, k at level 200) : go_scope.

(** [if len(r.data) < n { return truncated }; result := r.data[:n]; r.data = r.data[n:]] *)
Definition take_bytes {E} (e : E) (n : nat) : reader E bytes :=
  λ bs, if decide (n ≤ length bs)%nat then Ok (take n bs, drop n bs) else Err e.

Definition read_uint {E} (e : E) (n : nat) : reader E Z :=
  read* bs := take_bytes e n in rret (be_decode bs).

Definition read_int {E} (e : E) (n : nat) : reader E Z :=
  read* u := read_uint e n in rret (wrapS (8 * Z.of_nat n) u).

(** [for range count { ... append(result, item) }] over a reader. *)
Fixpoint read_list {E A} (n : nat) (item : reader E A) : reader E (list A) :=
  match n with
  | O => rret []
  | S n => read* a := item in read* l := read_list n item in rret (a :: l)
  end.

(** The contract between an encoder and the reader that reads it back: [codec_dec] says that every
    encoded value of the domain reads back and leaves the rest alone, and [codec_enc] says that the
    reader accepts nothing else. *)
Class Codec {E A : Type} (enc : A → bytes) (dec : reader E A) (P : A → Prop) : Prop := {
  codec_dec : ∀ a rest, P a → dec (enc a ++ rest) = Ok (a, rest);
  codec_enc : ∀ bs a rest, dec bs = Ok (a, rest) → bs = enc a ++ rest ∧ P a
}.

Lemma rseq_Ok {E A B} (m : reader E A) (k : A → reader E B) bs b rest :
  rseq m k bs = Ok (b, rest) ↔ ∃ a mid, m bs = Ok (a, mid) ∧ k a mid = Ok (b, rest).
Proof.
  unfold rseq. split.
  - destruct (m bs) as [[a mid]|e]; [eauto|done].
  - by intros (a & mid & -> & H).
Qed.

Lemma take_bytes_app {E} (e : E) bs rest : take_bytes e (length bs) (bs ++ rest) = Ok (bs, rest).
Proof.
  unfold take_bytes. rewrite decide_True by (rewrite length_app; lia).
  rewrite take_app_length, drop_app_length. done.
Qed.

Lemma take_bytes_app' {E} (e : E) n bs rest :
  n = length bs → take_bytes e n (bs ++ rest) = Ok (bs, rest).
Proof. intros ->. apply take_bytes_app. Qed.

Lemma take_bytes_Ok {E} (e : E) n bs a rest :
  take_bytes e n bs = Ok (a, rest) → bs = a ++ rest ∧ length a = n.
Proof.
  unfold take_bytes. case_decide; intros; simplify_eq. rewrite take_drop, length_take. split; [done|lia].
Qed.

Lemma pow_256_bits n : 256 ^ Z.of_nat n = 2 ^ (8 * Z.of_nat n).
Proof. rewrite Z.pow_mul_r by lia. done. Qed.

#[export] Instance uint_codec {E} (e : E) n :
  Codec (be_encode n) (read_uint e n) (inU (8 * Z.of_nat n)).
Proof.
  split.
  - intros a rest Ha. unfold read_uint, rseq, rret.
    rewrite take_bytes_app' by (by rewrite length_be_encode).
    rewrite be_decode_encode, pow_256_bits. by rewrite Z.mod_small.
  - intros bs a rest. unfold read_uint, rret. rewrite rseq_Ok. intros (b & mid & Hb & Heq).
    simplify_eq. apply take_bytes_Ok in Hb as [-> <-].
    rewrite be_encode_decode. split; [done|]. unfold inU. rewrite <- pow_256_bits.
    apply be_decode_range.
Qed.

#[export] Instance int_codec {E} (e : E) n :
  Codec (be_encode (S n)) (read_int e (S n)) (inS (8 * Z.of_nat (S n))).
Proof.
  split.
  - intros a rest Ha. unfold read_int, read_uint, rseq, rret.
    rewrite take_bytes_app' by (by rewrite length_be_encode).
    rewrite be_decode_encode, pow_256_bits.
    change (?a mod 2 ^ ?w) with (wrapU w a). rewrite wrapS_wrapU by lia.
    by rewrite wrapS_id by (done || lia).
  - intros bs a rest. unfold read_int, rret. rewrite rseq_Ok. intros (b & mid & Hb & Heq).
    apply (codec_enc (enc := be_encode (S n))) in Hb as [-> Hb]. simplify_eq.
    split; [|apply wrapS_range; lia]. f_equal.
    rewrite <- (be_encode_mod (S n) (S n) (wrapS _ _)) by done. rewrite pow_256_bits.
    change (?a mod 2 ^ ?w) with (wrapU w a). rewrite wrapU_wrapS by lia.
    by rewrite wrapU_id.
Qed.

(** A list of values of one codec, read with a known count. *)
Lemma read_list_dec {E A} (enc : A → bytes) (dec : reader E A) P `{!Codec enc dec P} l rest :
  Forall P l → read_list (length l) dec (concat (map enc l) ++ rest) = Ok (l, rest).
Proof.
  induction 1 as [|a l Ha Hl IH]; [done|]. cbn. unfold rseq, rret. rewrite <- (assoc_L (++)).
  rewrite (codec_dec (dec := dec)) by done. by rewrite IH.
Qed.

Lemma read_list_enc {E A} (enc : A → bytes) (dec : reader E A) P `{!Codec enc dec P} n bs l rest :
  read_list n dec bs = Ok (l, rest) → bs = concat (map enc l) ++ rest ∧ Forall P l ∧ length l = n.
Proof.
  revert bs l. induction n as [|n IH]; cbn [read_list]; intros bs l.
  - unfold rret. intros; simplify_eq. done.
  - rewrite rseq_Ok. intros (a & mid & Ha & Hk). apply rseq_Ok in Hk as (l' & mid' & Hl & Hk).
    unfold rret in Hk. simplify_eq. apply (codec_enc (dec := dec)) in Ha as [-> Ha].
    apply IH in Hl as (-> & Hl & <-). cbn. rewrite <- (assoc_L (++)). auto.
Qed.

(** Running a reader over the encoding of its value. *)
Lemma rseq_dec {E A B} (enc : A → bytes) (dec : reader E A) P `{!Codec enc dec P}
    (k : A → reader E B) a rest :
  P a → rseq dec k (enc a ++ rest) = k a rest.
Proof. intros H. unfold rseq. by rewrite (codec_dec (dec := dec)). Qed.

(** Invert a successful run: split sequences, discard failing branches, keep the tests. *)
Ltac reader_inv :=
  repeat match goal with
  | H : rbind _ _ = Ok _ |- _ => apply rbind_Ok in H as (? & ? & ?)
  | H : rseq _ _ _ = Ok _ |- _ => apply rseq_Ok in H as (? & ? & ? & ?)
  | H : rret _ _ = Ok _ |- _ => unfold rret in H; simplify_eq
  | H : rfail _ _ = Ok _ |- _ => discriminate H
  | H : Err _ = Ok _ |- _ => discriminate H
  | H : Ok _ = Err _ |- _ => discriminate H
  | H : Ok _ = Ok _ |- _ => injection H as H; simplify_eq
  | H : rmap_err _ ?m = Ok _ |- _ => destruct m eqn:?; cbn [rmap_err] in H
  | H : (let '(_, _) := ?p in _) = Ok _ |- _ => destruct p
  | H : (if decide ?P then _ else _) = Ok _ |- _ => destruct (decide P)
  | H : (if decide ?P then _ else _) _ = Ok _ |- _ => destruct (decide P)
  | H : (if ?b then _ else _) = Ok _ |- _ => destruct b eqn:?
  | H : (if ?b then _ else _) _ = Ok _ |- _ => destruct b eqn:?
  end.

(** ** Lists *)

Lemma elem_of_concat_map {A B} (f : A → list B) l b : b ∈ concat (map f l) ↔ ∃ a, a ∈ l ∧ b ∈ f a.
Proof.
  induction l as [|a l IH]; cbn; [split; [by intros ?%elem_of_nil|by intros (? & ?%elem_of_nil & _)]|].
  rewrite elem_of_app, IH. setoid_rewrite elem_of_cons. split.
  - intros [?|(x & ? & ?)]; eauto.
  - intros (x & [->|?] & ?); eauto.
Qed.

Lemma StronglySorted_filter {A} (R : A → A → Prop) (P : A → Prop) `{∀ x, Decision (P x)} (l : list A) :
  StronglySorted R l → StronglySorted R (filter P l).
Proof.
  induction 1 as [|a l Hs IH Hall]; [constructor|]. rewrite filter_cons. case_decide; [|done].
  constructor; [done|]. apply Forall_forall. intros x [_ Hx]%list_elem_of_filter.
  rewrite Forall_forall in Hall. auto.
Qed.

Lemma filter_all {A} (P : A → Prop) `{∀ x, Decision (P x)} (l : list A) :
  (∀ x, x ∈ l → P x) → filter P l = l.
Proof.
  induction l as [|a l IH]; intros HP; [done|]. rewrite filter_cons_True by (apply HP, list_elem_of_here).
  f_equal. apply IH. intros x Hx. by apply HP, list_elem_of_further.
Qed.

Lemma NoDup_map_inj {A B} (f : A → B) (l : list A) x y :
  NoDup (map f l) → x ∈ l → y ∈ l → f x = f y → x = y.
Proof.
  induction l as [|a l IH]; [by intros _ ?%not_elem_of_nil|].
  intros [Ha Hd]%NoDup_cons Hx Hy Hf.
  apply elem_of_cons in Hx as [->|Hx], Hy as [->|Hy]; auto; destruct Ha.
  - rewrite Hf. by apply list_elem_of_fmap_2.
  - rewrite <- Hf. by apply list_elem_of_fmap_2.
Qed.

Lemma list_argmax {A} (f : A → Z) (l : list A) :
  l ≠ [] → ∃ x, x ∈ l ∧ ∀ y, y ∈ l → f y ≤ f x.
Proof.
  induction l as [|a l IH]; [done|]. intros _. destruct l as [|b l].
  { exists a. split; [by apply list_elem_of_singleton|]. intros y ->%list_elem_of_singleton. done. }
  destruct IH as (x & Hx & Hm); [done|]. destruct (Z.le_gt_cases (f a) (f x)).
  - exists x. split; [by apply list_elem_of_further|]. intros y [->|Hy]%elem_of_cons; auto.
  - exists a. split; [by apply list_elem_of_here|]. intros y [->|Hy]%elem_of_cons; [lia|].
    specialize (Hm y Hy). lia.
Qed.

Lemma NoDup_map_filter {A B} (f : A → B) (P : A → Prop) `{∀ x, Decision (P x)} (l : list A) :
  NoDup (map f l) → NoDup (map f (filter P l)).
Proof.
  induction l as [|a l IH]; [done|]. intros [Ha Hl]%NoDup_cons. rewrite filter_cons. case_decide; [|auto].
  apply NoDup_cons. split; [|auto]. intros (x & Hx & [_ Hin]%list_elem_of_filter)%list_elem_of_fmap.
  apply Ha. rewrite Hx. by apply list_elem_of_fmap_2.
Qed.

(** A list sorted by a key that never repeats is strictly sorted. *)
Lemma StronglySorted_strict {A} (f : A → Z) (l : list A) :
  StronglySorted (λ x y, f x ≤ f y) l → NoDup (map f l) → StronglySorted (λ x y, f x < f y) l.
Proof.
  induction 1 as [|a l Hs IH Hall]; [constructor|]. intros [Ha Hl]%NoDup_cons. constructor; [auto|].
  apply Forall_forall. intros y Hy. rewrite Forall_forall in Hall. specialize (Hall y Hy).
  destruct (decide (f a = f y)) as [Heq|]; [|lia]. destruct Ha. rewrite Heq. by apply list_elem_of_fmap_2.
Qed.
