(* ===== verification/Defaults.v ===== *)
(** * Client settings, from krabkastreams.go

    The defaults of a streams group over a map of client settings. *)

From S2P Require Import Prelude.

Definition GroupProtocolConfig : bytes := str "group.protocol".
Definition StreamsGroupProtocol : bytes := str "streams".

Section Defaults.
(** Settings of any type, into which a text goes. *)
Context {A : Type} (of_text : bytes → A).

(** A nil map is [None]; the result is a map of its own. *)
Definition WithDefaults (settings : option (gmap bytes A)) : gmap bytes A :=
  let result := default ∅ settings in
  match result !! GroupProtocolConfig with
  | Some _ => result
  | None => <[GroupProtocolConfig := of_text StreamsGroupProtocol]> result
  end.

(** Explicit settings keep their values, the protocol is always set, to streams unless it was given, nothing else is added, and a second
    call changes nothing. *)
Theorem WithDefaults_exact settings :
  (∀ name, WithDefaults settings !! name =
     match default ∅ settings !! name with
     | Some value => Some value
     | None => if decide (name = GroupProtocolConfig) then Some (of_text StreamsGroupProtocol) else None
     end) ∧
  WithDefaults (Some (WithDefaults settings)) = WithDefaults settings.
Proof.
  unfold WithDefaults. cbn [default from_option id]. generalize (default ∅ settings). intros m. split.
  - intros name. destruct (m !! GroupProtocolConfig) as [v|] eqn:Hm.
    + destruct (m !! name) eqn:Hn; [done|]. case_decide as Hd; [|done]. subst. by rewrite Hm in Hn.
    + destruct (decide (name = GroupProtocolConfig)) as [->|Hne]; [by rewrite lookup_insert_eq, Hm|].
      rewrite lookup_insert_ne by done. by destruct (m !! name).
  - destruct (m !! GroupProtocolConfig) eqn:Hm; [by rewrite Hm|]. by rewrite lookup_insert_eq.
Qed.

End Defaults.
