(* ===== verification/GoStd.v ===== *)
(** * The parts of Go's standard library that the sources call

    [unicode/utf8.ValidString], [strconv.ParseInt] and [strconv.FormatInt] in base ten,
    [strings.Cut], [strings.Contains] of one byte, [cmp.Compare] on integers, and the lexicographic
    order that [strings.Compare], [bytes.Compare] and [slices.Sorted] use on strings. *)

From S2P Require Import Prelude.

(** ** UTF-8 *)

Definition in_range (b : byte) (lo hi : Z) : bool := (lo <=? b2z b) && (b2z b <=? hi).

Definition is_cont (b : byte) : bool := in_range b 128 191.

(** The accepted range of the second byte of a three-byte sequence: it excludes the overlong forms
    after 0xE0 and the surrogates after 0xED. *)
Definition second3 (b0 b1 : byte) : bool :=
  if b2z b0 =? 224 then in_range b1 160 191
  else if b2z b0 =? 237 then in_range b1 128 159
  else is_cont b1.

(** The same for a four-byte sequence: no overlong form after 0xF0, nothing past U+10FFFF. *)
Definition second4 (b0 b1 : byte) : bool :=
  if b2z b0 =? 240 then in_range b1 144 191
  else if b2z b0 =? 244 then in_range b1 128 143
  else is_cont b1.

Fixpoint utf8_valid (bs : bytes) : bool :=
  match bs with
  | [] => true
  | b0 :: r0 =>
      if b2z b0 <? 128 then utf8_valid r0
      else match r0 with
      | [] => false
      | b1 :: r1 =>
          if in_range b0 194 223 then is_cont b1 && utf8_valid r1
          else match r1 with
          | [] => false
          | b2 :: r2 =>
              if in_range b0 224 239 then second3 b0 b1 && is_cont b2 && utf8_valid r2
              else match r2 with
              | [] => false
              | b3 :: r3 =>
                  in_range b0 240 244 && second4 b0 b1 && is_cont b2 && is_cont b3 && utf8_valid r3
              end
          end
      end
  end.

Example utf8_ascii : utf8_valid (str "orders") = true.
Proof. reflexivity. Qed.

(** A lone continuation byte, an overlong NUL, and a surrogate are all invalid. *)
Example utf8_bad : map utf8_valid [[x80]; [xc0; x80]; [xed; xa0; x80]] = [false; false; false].
Proof. reflexivity. Qed.


(** ** Decimal integers *)

Definition digit (d : Z) : byte := z2b (48 + d).

Definition digit_value (b : byte) : option Z :=
  if in_range b 48 57 then Some (b2z b - 48) else None.

(** The decimal digits of [n], most significant first, in front of [acc]. *)
Fixpoint digits_aux (fuel : nat) (n : Z) (acc : bytes) : bytes :=
  match fuel with
  | O => acc
  | S fuel =>
      let acc := digit (n mod 10) :: acc in
      if n / 10 =? 0 then acc else digits_aux fuel (n / 10) acc
  end.

(** The fuel is one more than the bit length, so it is more than the digit count. *)
Definition digits (n : Z) : bytes := digits_aux (S (Z.to_nat (Z.log2 n))) n [].

(** [strconv.FormatInt(n, 10)]. *)
Definition FormatInt (n : Z) : bytes :=
  if n <? 0 then ascii_byte "-" :: digits (- n) else digits n.

Fixpoint parse_digits (bs : bytes) (acc : Z) : option Z :=
  match bs with
  | [] => Some acc
  | b :: bs => match digit_value b with Some d => parse_digits bs (acc * 10 + d) | None => None end
  end.

(** [strconv.ParseInt(s, 10, bits)]: an optional sign, at least one digit, and a value in range. *)
Definition ParseInt (s : bytes) (bits : Z) : option Z :=
  let '(neg, ds) :=
    match s with
    | b :: rest =>
        if decide (b = ascii_byte "+") then (false, rest)
        else if decide (b = ascii_byte "-") then (true, rest) else (false, s)
    | [] => (false, s)
    end in
  match ds with
  | [] => None
  | _ => match parse_digits ds 0 with
         | Some v => let n := if neg : bool then - v else v in
                     if decide (inS bits n) then Some n else None
         | None => None
         end
  end.

Lemma digit_value_digit d : 0 ≤ d < 10 → digit_value (digit d) = Some d.
Proof.
  intros H. unfold digit_value, digit, in_range. rewrite b2z_z2b, Z.mod_small by lia.
  replace (48 <=? 48 + d) with true by lia. replace (48 + d <=? 57) with true by lia. cbn.
  f_equal. lia.
Qed.

Lemma digits_aux_app fuel n acc acc' :
  digits_aux fuel n (acc ++ acc') = digits_aux fuel n acc ++ acc'.
Proof.
  revert n acc. induction fuel as [|fuel IH]; intros n acc; cbn; [done|].
  case_match; [done|]. by rewrite <- IH.
Qed.

Lemma parse_digits_app bs bs' acc :
  parse_digits (bs ++ bs') acc =
    match parse_digits bs acc with Some acc => parse_digits bs' acc | None => None end.
Proof. revert acc. induction bs as [|b bs IH]; intros acc; cbn; [done|]. by case_match. Qed.

Lemma parse_digits_aux fuel n acc :
  0 ≤ n < 2 ^ Z.of_nat fuel → (0 < fuel)%nat →
  parse_digits (digits_aux fuel n []) acc =
    Some (acc * 10 ^ zlen (digits_aux fuel n []) + n).
Proof.
  revert n acc. induction fuel as [|fuel IH]; intros n acc Hn Hf; [lia|]. cbn [digits_aux].
  pose proof (Z.mod_pos_bound n 10 ltac:(lia)) as Hm.
  destruct (Z.eqb_spec (n / 10) 0) as [E|E].
  - cbn [parse_digits]. rewrite digit_value_digit by done. f_equal.
    change (zlen _) with 1. rewrite Z.pow_1_r. rewrite (Z.mod_eq n 10) in * by lia. lia.
  - rewrite (digits_aux_app fuel _ [] [_] : digits_aux _ _ [_] = _).
    assert (0 < fuel)%nat.
    { destruct fuel; [|lia]. change (2 ^ Z.of_nat 1) with 2 in Hn.
      rewrite Z.div_small in E by lia. done. }
    rewrite parse_digits_app, IH; [|split|done].
    + cbn [parse_digits]. rewrite digit_value_digit by done. f_equal.
      rewrite zlen_app. change (zlen [_]) with 1.
      rewrite Z.pow_add_r by (try apply zlen_nonneg; lia). rewrite Z.pow_1_r.
      rewrite (Z.mod_eq n 10) by lia. ring.
    + apply Z.div_pos; lia.
    + rewrite Nat2Z.inj_succ, Z.pow_succ_r in Hn by lia.
      apply Z.div_lt_upper_bound; lia.
Qed.

Lemma parse_digits_digits n acc :
  0 ≤ n → parse_digits (digits n) acc = Some (acc * 10 ^ zlen (digits n) + n).
Proof.
  intros Hn. apply parse_digits_aux; [|lia]. split; [done|].
  rewrite Nat2Z.inj_succ, Z2Nat.id by apply Z.log2_nonneg.
  destruct (decide (n = 0)) as [->|]; [done|]. apply Z.log2_spec. lia.
Qed.

(** Every digit is a decimal digit, so a formatted number holds no sign and no colon. *)
Lemma digits_aux_Forall fuel n acc :
  Forall (λ b, in_range b 48 57 = true) acc →
  Forall (λ b, in_range b 48 57 = true) (digits_aux fuel n acc).
Proof.
  revert n acc. induction fuel as [|fuel IH]; intros n acc H; cbn; [done|].
  assert (in_range (digit (n mod 10)) 48 57 = true) as Hd.
  { pose proof (Z.mod_pos_bound n 10 ltac:(lia)). unfold in_range, digit.
    rewrite b2z_z2b, Z.mod_small by lia. apply andb_true_intro. split; lia. }
  case_match; auto.
Qed.

Lemma digits_Forall n : Forall (λ b, in_range b 48 57 = true) (digits n).
Proof. by apply digits_aux_Forall. Qed.

Lemma digits_nonempty n : digits n ≠ [].
Proof.
  unfold digits. cbn [digits_aux]. case_match; [done|].
  rewrite (digits_aux_app _ _ [] [_] : digits_aux _ _ [_] = _). by intros [? ?]%app_nil.
Qed.

Lemma ParseInt_FormatInt bits n : 0 ≤ n → inS bits n → ParseInt (FormatInt n) bits = Some n.
Proof.
  intros Hn Hr. unfold FormatInt. replace (n <? 0) with false by lia.
  pose proof (digits_nonempty n) as Hne. pose proof (digits_Forall n) as Hd.
  pose proof (parse_digits_digits n 0 Hn) as Hp. unfold ParseInt.
  destruct (digits n) as [|b ds] eqn:E; [done|].
  apply Forall_cons in Hd as [Hb _].
  rewrite decide_False by (by intros ->). rewrite decide_False by (by intros ->).
  rewrite Hp, Z.mul_0_l, Z.add_0_l. by rewrite decide_True.
Qed.

Lemma ParseInt_FormatInt_signed bits n : inS bits n → ParseInt (FormatInt n) bits = Some n.
Proof.
  intros Hr. destruct (Z.ltb_spec n 0) as [Hn|Hn]; [|by apply ParseInt_FormatInt].
  unfold FormatInt. replace (n <? 0) with true by lia. unfold ParseInt. rewrite decide_False by done. rewrite decide_True by done.
  pose proof (digits_nonempty (- n)). pose proof (parse_digits_digits (- n) 0 ltac:(lia)) as Hp.
  destruct (digits (- n)) as [|b ds]; [done|]. rewrite Hp, Z.mul_0_l, Z.add_0_l, Z.opp_involutive. by rewrite decide_True.
Qed.

(** [strconv.ParseUint(s, 10, bits)]. *)
Definition ParseUint (s : bytes) (bits : Z) : option Z :=
  match s with
  | [] => None
  | _ => match parse_digits s 0 with Some n => if decide (inU bits n) then Some n else None | None => None end
  end.

Lemma ParseUint_FormatInt bits n : inU bits n → ParseUint (FormatInt n) bits = Some n.
Proof.
  intros Hr. assert (0 ≤ n) as Hn by (unfold inU in Hr; lia). unfold FormatInt. replace (n <? 0) with false by lia. unfold ParseUint.
  pose proof (digits_nonempty n). rewrite (parse_digits_digits n 0 Hn), Z.mul_0_l, Z.add_0_l.
  destruct (digits n); [done|]. by rewrite decide_True.
Qed.

(** ** Strings *)

(** [strings.Cut(s, sep)] for a one-byte separator. *)
Fixpoint Cut (s : bytes) (sep : byte) : bytes * bytes * bool :=
  match s with
  | [] => ([], [], false)
  | b :: rest =>
      if decide (b = sep) then ([], rest, true)
      else let '(before, after, found) := Cut rest sep in
           if found : bool then (b :: before, after, true) else (s, [], false)
  end.

(** [strings.Contains(s, sep)] for a one-byte separator. *)
Definition Contains (s : bytes) (sep : byte) : bool := bool_decide (sep ∈ s).

Lemma Cut_app before sep after :
  sep ∉ before → Cut (before ++ sep :: after) sep = (before, after, true).
Proof.
  induction before as [|b before IH]; intros H; cbn.
  - by rewrite decide_True.
  - apply not_elem_of_cons in H as [H1 H2]. rewrite decide_False by congruence. by rewrite IH.
Qed.

(** ** Orders *)

(** [cmp.Compare] on two integers. *)
Definition cmp_Compare (x y : Z) : Z := if x <? y then -1 else if y <? x then 1 else 0.

Lemma cmp_Compare_sgn x y : cmp_Compare x y = Z.sgn (x - y).
Proof.
  unfold cmp_Compare. destruct (Z.ltb_spec x y); [rewrite Z.sgn_neg; lia|].
  destruct (Z.ltb_spec y x); [rewrite Z.sgn_pos; lia|]. replace (x - y) with 0 by lia. done.
Qed.

(** [strings.Compare] and [bytes.Compare]: byte-wise lexicographic, a prefix first. *)
Fixpoint bytes_Compare (x y : bytes) : Z :=
  match x, y with
  | [], [] => 0
  | [], _ :: _ => -1
  | _ :: _, [] => 1
  | a :: x, b :: y =>
      let order := cmp_Compare (b2z a) (b2z b) in
      if order =? 0 then bytes_Compare x y else order
  end.

(** The order of the keys in [slices.Sorted(maps.Keys(m))] for string keys. *)
Definition bytes_le (x y : bytes) : Prop := bytes_Compare x y ≤ 0.

(** ** Durations *)

(** [time.Duration]: an int64 count of nanoseconds. *)
Definition Duration := Z.
Definition Millisecond : Duration := 1000000.
Definition Second : Duration := 1000000000.

(** [extent.Milliseconds()]: truncated towards zero. *)
Definition Milliseconds (extent : Duration) : Z := Z.quot extent Millisecond.

Lemma Milliseconds_bounds extent :
  0 ≤ extent ≤ MaxInt64 → 0 ≤ Milliseconds extent ≤ 9223372036854 ∧ Milliseconds extent = extent / 1000000.
Proof.
  intros H. unfold Milliseconds, Millisecond. rewrite Z.quot_div_nonneg by lia.
  Z.to_euclidean_division_equations. lia.
Qed.
