(* ===== verification/GoNet.v ===== *)
(** * The parts of [net/url], [encoding/base64] and [strings] that the schema package calls

    [url.PathEscape] and [url.PathUnescape], [base64.StdEncoding.EncodeToString], and the prefix and
    suffix functions of [strings]. *)

From S2P Require Import Prelude GoStd.

(** ** Prefixes and suffixes *)

Fixpoint HasPrefix (s prefix : bytes) {struct prefix} : bool :=
  match prefix, s with
  | [], _ => true
  | p :: prefix, b :: s => bool_decide (p = b) && HasPrefix s prefix
  | _ :: _, [] => false
  end.

Definition HasSuffix (s suffix : bytes) : bool := HasPrefix (rev s) (rev suffix).

Definition TrimPrefix (s prefix : bytes) : bytes := if HasPrefix s prefix then drop (length prefix) s else s.

Definition TrimSuffix (s suffix : bytes) : bytes :=
  if HasSuffix s suffix then take (length s - length suffix) s else s.

(** [strings.TrimRight(s, cutset)] for a cutset of one byte. *)
Fixpoint trim_left (s : bytes) (cut : byte) : bytes :=
  match s with b :: rest => if decide (b = cut) then trim_left rest cut else s | [] => [] end.

Definition TrimRight (s : bytes) (cut : byte) : bytes := rev (trim_left (rev s) cut).

Lemma HasPrefix_spec s prefix : HasPrefix s prefix = true ↔ ∃ rest, s = prefix ++ rest.
Proof.
  revert s. induction prefix as [|p prefix IH]; intros s; cbn; [split; eauto|].
  destruct s as [|b s]; [split; [done|]; by intros []|]. rewrite andb_true_iff, bool_decide_eq_true, IH.
  split; [intros [-> [rest ->]]; by eexists|]. intros [rest [= -> ->]]. eauto.
Qed.

Lemma HasPrefix_app prefix rest : HasPrefix (prefix ++ rest) prefix = true.
Proof. apply HasPrefix_spec. eauto. Qed.

Lemma HasSuffix_spec s suffix : HasSuffix s suffix = true ↔ ∃ rest, s = rest ++ suffix.
Proof.
  unfold HasSuffix. rewrite HasPrefix_spec. split; intros [rest H].
  - exists (rev rest). rewrite <- (rev_involutive s), H, rev_app_distr, rev_involutive. done.
  - exists (rev rest). by rewrite H, rev_app_distr.
Qed.

Lemma HasSuffix_app rest suffix : HasSuffix (rest ++ suffix) suffix = true.
Proof. apply HasSuffix_spec. eauto. Qed.

Lemma TrimPrefix_app prefix rest : TrimPrefix (prefix ++ rest) prefix = rest.
Proof. unfold TrimPrefix. by rewrite HasPrefix_app, drop_app_length. Qed.

Lemma TrimSuffix_app rest suffix : TrimSuffix (rest ++ suffix) suffix = rest.
Proof.
  unfold TrimSuffix. rewrite HasSuffix_app, length_app.
  replace (length rest + length suffix - length suffix)%nat with (length rest) by lia. apply take_app_length.
Qed.

Lemma trim_left_spec s cut : ∃ n, s = replicate n cut ++ trim_left s cut ∧ head (trim_left s cut) ≠ Some cut.
Proof.
  induction s as [|b s (n & Hs & Hh)]; cbn; [by exists 0%nat|]. case_decide as Hb.
  - exists (S n). split; [|done]. cbn. subst. by f_equal.
  - exists 0%nat. split; [done|]. cbn. congruence.
Qed.

(** ** Path segments *)

Definition is_unreserved (b : byte) : bool :=
  in_range b 97 122 || in_range b 65 90 || in_range b 48 57 || bool_decide (b ∈ str "-_.~").

(** [shouldEscape(c, encodePathSegment)]. *)
Definition shouldEscape (b : byte) : bool := negb (is_unreserved b || bool_decide (b ∈ str "$&+=:@")).

(** [upperhex[d]]. *)
Definition hex_digit (d : Z) : byte := if d <? 10 then z2b (48 + d) else z2b (55 + d).

Definition escape_byte (b : byte) : bytes :=
  if shouldEscape b then [ascii_byte "%"; hex_digit (b2z b / 16); hex_digit (b2z b mod 16)] else [b].

Definition PathEscape (s : bytes) : bytes := concat (map escape_byte s).

(** [ishex] and [unhex]. *)
Definition unhex (b : byte) : option Z :=
  if in_range b 48 57 then Some (b2z b - 48)
  else if in_range b 97 102 then Some (b2z b - 87)
  else if in_range b 65 70 then Some (b2z b - 55) else None.

Fixpoint PathUnescape (s : bytes) : option bytes :=
  match s with
  | [] => Some []
  | b :: rest =>
      if decide (b = ascii_byte "%") then
        match rest with
        | h :: l :: rest =>
            match unhex h, unhex l, PathUnescape rest with
            | Some h, Some l, Some s => Some (z2b (16 * h + l) :: s)
            | _, _, _ => None
            end
        | _ => None
        end
      else match PathUnescape rest with Some s => Some (b :: s) | None => None end
  end.

Lemma unhex_digit d : 0 ≤ d < 16 → unhex (hex_digit d) = Some d.
Proof.
  intros H. assert (d ∈ seqZ 0 16) as Hd by (apply elem_of_seqZ; lia). clear H. revert d Hd. apply Forall_forall.
  by_decide.
Qed.

Lemma PathUnescape_escape b rest :
  PathUnescape (escape_byte b ++ rest) = match PathUnescape rest with Some s => Some (b :: s) | None => None end.
Proof.
  unfold escape_byte. pose proof (b2z_range b) as Hb. destruct (shouldEscape b) eqn:Hs; cbn [app PathUnescape].
  - rewrite decide_True by done. rewrite !unhex_digit by (Z.to_euclidean_division_equations; lia).
    replace (16 * (b2z b / 16) + b2z b mod 16) with (b2z b) by (Z.to_euclidean_division_equations; lia).
    by rewrite z2b_b2z.
  - rewrite decide_False by (by intros ->). done.
Qed.

(** Escaping is undone by unescaping, so no two segments escape alike. *)
Lemma PathUnescape_PathEscape s : PathUnescape (PathEscape s) = Some s.
Proof.
  unfold PathEscape. induction s as [|b s IH]; [done|]. cbn [map concat]. by rewrite PathUnescape_escape, IH.
Qed.

#[global] Instance PathEscape_Inj : Inj (=) (=) PathEscape.
Proof. intros x y H. pose proof (PathUnescape_PathEscape x) as Hx. rewrite H, PathUnescape_PathEscape in Hx. congruence. Qed.

(** A segment holds no slash, question mark or hash: its bytes are unreserved, a percent sign or a digit. *)
Definition segment_byte (b : byte) : bool := negb (shouldEscape b) || bool_decide (b = ascii_byte "%").

Lemma PathEscape_bytes s : Forall (λ b, segment_byte b = true) (PathEscape s).
Proof.
  unfold PathEscape. apply Forall_concat, Forall_map, Forall_true. intros b. unfold escape_byte.
  destruct (shouldEscape b) eqn:Hb.
  - assert (∀ d, 0 ≤ d < 16 → segment_byte (hex_digit d) = true) as Hd.
    { intros d Hd. assert (d ∈ seqZ 0 16) as Hin by (apply elem_of_seqZ; lia). clear Hd. revert d Hin.
      apply Forall_forall. by_decide. }
    pose proof (b2z_range b). repeat constructor; try apply Hd; Z.to_euclidean_division_equations; lia.
  - repeat constructor. unfold segment_byte. by rewrite Hb.
Qed.

Lemma segment_no_slash s : ascii_byte "/" ∉ PathEscape s.
Proof. intros H. pose proof (PathEscape_bytes s) as Hf. rewrite Forall_forall in Hf. by specialize (Hf _ H). Qed.

Lemma segment_no_question s : ascii_byte "?" ∉ PathEscape s.
Proof. intros H. pose proof (PathEscape_bytes s) as Hf. rewrite Forall_forall in Hf. by specialize (Hf _ H). Qed.

(** ** Base64 *)

Definition base64_alphabet : bytes := str "ABCDEFGHIJKLMNOPQRSTUVWXYZabcdefghijklmnopqrstuvwxyz0123456789+/".
Definition base64_digit (d : Z) : byte := nth (Z.to_nat (d mod 64)) base64_alphabet x00.

Fixpoint base64_StdEncoding (src : bytes) : bytes :=
  match src with
  | [] => []
  | [a] => [base64_digit (b2z a / 4); base64_digit (b2z a * 16); ascii_byte "="; ascii_byte "="]
  | [a; b] =>
      [base64_digit (b2z a / 4); base64_digit (b2z a * 16 + b2z b / 16); base64_digit (b2z b * 4); ascii_byte "="]
  | a :: b :: c :: src =>
      base64_digit (b2z a / 4) :: base64_digit (b2z a * 16 + b2z b / 16) ::
      base64_digit (b2z b * 4 + b2z c / 64) :: base64_digit (b2z c) :: base64_StdEncoding src
  end.

Example base64_padding : base64_StdEncoding (str "user:pw") = str "dXNlcjpwdw==".
Proof. reflexivity. Qed.

(** ** Splitting a path at its slashes *)

(** The prefix before the first separator, and the rest, are determined by their concatenation. *)
Lemma app_sep_inj (sep : byte) (x y r s : bytes) :
  sep ∉ x → sep ∉ y → x ++ sep :: r = y ++ sep :: s → x = y ∧ r = s.
Proof.
  intros Hx Hy H. pose proof (Cut_app x sep r Hx) as Hc. rewrite H, Cut_app in Hc by done. by simplify_eq.
Qed.

(** A string without the separator is no string with it. *)
Lemma app_sep_discr (sep : byte) (x y s : bytes) : sep ∉ x → x ≠ y ++ sep :: s.
Proof. intros Hx ->. apply Hx. set_solver. Qed.

(** ** Decimal numbers are told apart *)

Lemma FormatInt_bytes n : Forall (λ b, in_range b 48 57 = true ∨ b = ascii_byte "-") (FormatInt n).
Proof.
  assert (∀ m, Forall (λ b, in_range b 48 57 = true ∨ b = ascii_byte "-") (digits m)) as Hd.
  { intros m. eapply Forall_impl; [apply digits_Forall|]. intros b Hb. by left. }
  unfold FormatInt. destruct (n <? 0); [|apply Hd]. constructor; [by right|apply Hd].
Qed.

#[global] Instance FormatInt_Inj : Inj (=) (=) FormatInt.
Proof.
  assert (∀ x y, 0 ≤ x → 0 ≤ y → digits x = digits y → x = y) as Hd.
  { intros x y Hx Hy H. pose proof (parse_digits_digits x 0 Hx) as Hp. rewrite H, parse_digits_digits in Hp by done.
    injection Hp as Hp. lia. }
  assert (∀ x y, digits x ≠ ascii_byte "-" :: digits y) as Hs.
  { intros x y H. pose proof (digits_Forall x) as Hf. rewrite H in Hf. apply Forall_cons in Hf as [Hf _]. done. }
  intros x y. unfold FormatInt. destruct (Z.ltb_spec x 0), (Z.ltb_spec y 0); intros Heq.
  - injection Heq as Heq. apply Hd in Heq; lia.
  - by destruct (Hs y (- x)).
  - by destruct (Hs x (- y)).
  - apply Hd in Heq; lia.
Qed.

(** ** Decoding base64 *)

Fixpoint index_of (b : byte) (l : bytes) : option Z :=
  match l with [] => None | x :: l => if decide (x = b) then Some 0 else (λ i, i + 1) <$> index_of b l end.

Definition base64_value (b : byte) : option Z := index_of b base64_alphabet.
Definition pad : byte := ascii_byte "=".

Fixpoint base64_groups (s : bytes) : option bytes :=
  match s with
  | [] => Some []
  | a :: b :: c :: d :: s =>
      va ← base64_value a; vb ← base64_value b;
      let b1 := z2b (va * 4 + vb / 16) in
      if decide (c = pad) then (if decide (d = pad ∧ s = []) then Some [b1] else None)
      else vc ← base64_value c;
           let b2 := z2b (vb * 16 + vc / 4) in
           if decide (d = pad) then (if decide (s = []) then Some [b1; b2] else None)
           else vd ← base64_value d; rest ← base64_groups s; Some (b1 :: b2 :: z2b (vc * 64 + vd) :: rest)
  | _ => None
  end.

(** [DecodeString] of the standard encoding, which skips line breaks. *)
Definition base64_DecodeString (s : bytes) : option bytes := base64_groups (filter (λ b, b ≠ x0a ∧ b ≠ x0d) s).

Lemma base64_digit_spec d :
  base64_value (base64_digit d) = Some (d mod 64) ∧ base64_digit d ≠ pad ∧ base64_digit d ≠ x0a ∧ base64_digit d ≠ x0d.
Proof.
  unfold base64_digit. assert (0 ≤ d mod 64 < 64) as Hd by (apply Z.mod_pos_bound; lia).
  assert (Forall (λ i, base64_value (nth i base64_alphabet x00) = Some (Z.of_nat i) ∧ nth i base64_alphabet x00 ≠ pad ∧
    nth i base64_alphabet x00 ≠ x0a ∧ nth i base64_alphabet x00 ≠ x0d) (seq 0 64)) as Hall by by_decide.
  rewrite Forall_forall in Hall. specialize (Hall (Z.to_nat (d mod 64))). rewrite Z2Nat.id in Hall by lia. apply Hall, elem_of_seq. lia.
Qed.

Lemma base64_lines src : filter (λ b, b ≠ x0a ∧ b ≠ x0d) (base64_StdEncoding src) = base64_StdEncoding src.
Proof.
  assert (Forall (λ b, b ≠ x0a ∧ b ≠ x0d) (base64_StdEncoding src)) as H.
  { revert src. fix IH 1. intros [|a [|b [|c src]]]; cbn [base64_StdEncoding]; repeat constructor; try (apply base64_digit_spec); try done. }
  apply filter_all. intros b Hb. by apply (proj1 (Forall_forall _ _) H).
Qed.

Lemma six_bits a b c :
  z2b ((b2z a / 4) mod 64 * 4 + (b2z a * 16 + b2z b / 16) mod 64 / 16) = a ∧
  z2b ((b2z a / 4) mod 64 * 4 + (b2z a * 16) mod 64 / 16) = a ∧
  z2b ((b2z a * 16 + b2z b / 16) mod 64 * 16 + (b2z b * 4 + b2z c / 64) mod 64 / 4) = b ∧
  z2b ((b2z a * 16 + b2z b / 16) mod 64 * 16 + (b2z b * 4) mod 64 / 4) = b ∧
  z2b ((b2z b * 4 + b2z c / 64) mod 64 * 64 + b2z c mod 64) = c.
Proof.
  pose proof (b2z_range a). pose proof (b2z_range b). pose proof (b2z_range c).
  assert (∀ x y, x mod 256 = b2z y → z2b x = y) as Hb.
  { intros x y Hx. apply b2z_inj. by rewrite b2z_z2b. }
  split_and!; apply Hb; Z.to_euclidean_division_equations; lia.
Qed.

Lemma base64_roundtrip src : base64_DecodeString (base64_StdEncoding src) = Some src.
Proof.
  unfold base64_DecodeString. rewrite base64_lines. revert src. fix IH 1. intros [|a [|b [|c src]]]; cbn [base64_StdEncoding base64_groups]; [done|..].
  - rewrite !(proj1 (base64_digit_spec _)). cbn [mbind option_bind]. change (ascii_byte "=") with pad.
    rewrite !decide_True by done. by rewrite (proj1 (proj2 (six_bits a a a))).
  - rewrite !(proj1 (base64_digit_spec _)). cbn [mbind option_bind]. change (ascii_byte "=") with pad.
    rewrite decide_False by apply base64_digit_spec. rewrite !decide_True by done. destruct (six_bits a b b) as (-> & _ & _ & -> & _). done.
  - rewrite !(proj1 (base64_digit_spec _)). cbn [mbind option_bind].
    rewrite !decide_False by apply base64_digit_spec. rewrite IH. cbn [mbind option_bind]. destruct (six_bits a b c) as (-> & _ & -> & _ & ->). done.
Qed.
