(* ===== verification/GoText.v ===== *)
(** * The text functions of Go's library that printers call

    [strings.TrimSpace], [Fields], [Split], [Join], [Trim] and [TrimLeft], [html.EscapeString], and [path.Clean] with
    [filepath.Dir] on a system whose separator is the slash. *)

From S2P Require Import Prelude GoStd GoNet.

(** ** Spaces *)

(** The spaces of [unicode.IsSpace] as UTF-8. *)
Definition spaces : list bytes :=
  [[x09]; [x0a]; [x0b]; [x0c]; [x0d]; [x20]; [xc2; x85]; [xc2; xa0]; [xe1; x9a; x80]; [xe2; x80; xa8]; [xe2; x80; xa9]; [xe2; x80; xaf];
   [xe2; x81; x9f]; [xe3; x80; x80]] ++ map (λ b, [xe2; x80; b]) [x80; x81; x82; x83; x84; x85; x86; x87; x88; x89; x8a].

(** The first of the marks that the text starts with. *)
Definition mark_at (marks : list bytes) (s : bytes) : option bytes := List.find (λ m, HasPrefix s m) marks.

Fixpoint trim_marks (fuel : nat) (marks : list bytes) (s : bytes) : bytes :=
  match fuel with
  | O => s
  | S fuel => match mark_at marks s with Some m => trim_marks fuel marks (drop (length m) s) | None => s end
  end.

(** [strings.TrimLeft]: each step drops a byte or more. *)
Definition TrimLeft (s : bytes) (marks : list bytes) : bytes := trim_marks (length s) marks s.

(** [strings.Trim]. *)
Definition Trim (s : bytes) (marks : list bytes) : bytes := rev (TrimLeft (rev (TrimLeft s marks)) (map (@rev byte) marks)).

Definition TrimSpace (s : bytes) : bytes := Trim s spaces.

(** [strings.Fields]: [skip] counts the bytes of a space that are left, [field] is the reverse of the field so far. *)
Fixpoint fields_from (skip : nat) (field s : bytes) : list bytes :=
  let done := match field with [] => [] | _ => [rev field] end in
  match s, skip with
  | [], _ => done
  | _ :: rest, S skip => fields_from skip field rest
  | b :: rest, O =>
      match mark_at spaces s with
      | Some m => done ++ fields_from (length m - 1) [] rest
      | None => fields_from 0 (b :: field) rest
      end
  end.
Definition Fields (s : bytes) : list bytes := fields_from 0 [] s.

Example Fields_spaces : Fields (str "  x  y/z ") = [str "x"; str "y/z"].
Proof. reflexivity. Qed.

(** ** Splitting and joining *)

(** [strings.Split] at a byte. *)
Fixpoint Split (s : bytes) (sep : byte) : list bytes :=
  match s with
  | [] => [[]]
  | b :: rest =>
      if decide (b = sep) then [] :: Split rest sep
      else match Split rest sep with part :: parts => (b :: part) :: parts | [] => [[b]] end
  end.

(** [strings.Join]. *)
Fixpoint strings_Join (elements : list bytes) (separator : bytes) : bytes :=
  match elements with
  | [] => []
  | [element] => element
  | element :: elements => element ++ separator ++ strings_Join elements separator
  end.

(** [strings.ReplaceAll] of a byte. *)
Definition ReplaceAll (s : bytes) (old new : byte) : bytes := map (λ b, if decide (b = old) then new else b) s.

Lemma Split_nonempty s sep : Split s sep ≠ [].
Proof. destruct s as [|b s]; [done|]. cbn [Split]. case_decide; [done|]. by destruct (Split s sep). Qed.

Lemma strings_Join_cons element elements separator :
  elements ≠ [] → strings_Join (element :: elements) separator = element ++ separator ++ strings_Join elements separator.
Proof. by destruct elements. Qed.

Lemma Join_Split s sep : strings_Join (Split s sep) [sep] = s.
Proof.
  induction s as [|b s IH]; [done|]. cbn [Split]. case_decide as Hb.
  - rewrite strings_Join_cons by apply Split_nonempty. rewrite IH. by subst.
  - destruct (Split s sep) as [|part parts] eqn:E; [by destruct (Split_nonempty s sep)|].
    destruct parts; cbn [strings_Join] in *; by rewrite <- IH.
Qed.

Lemma Split_parts s sep : Forall (λ part, sep ∉ part) (Split s sep).
Proof.
  induction s as [|b s IH]; cbn [Split]; [constructor; [set_solver|done]|].
  case_decide as Hb; [constructor; [set_solver|done]|].
  destruct (Split s sep) as [|part parts]; [constructor; [set_solver|done]|].
  inversion_clear IH. constructor; [set_solver|done].
Qed.

Lemma Split_part part sep : sep ∉ part → Split part sep = [part].
Proof.
  induction part as [|b part IH]; intros Hp; [done|]. apply not_elem_of_cons in Hp as [Hb Hp]. cbn [Split].
  rewrite decide_False by done. by rewrite IH.
Qed.

Lemma Split_app part sep rest : sep ∉ part → Split (part ++ sep :: rest) sep = part :: Split rest sep.
Proof.
  induction part as [|b part IH]; intros Hp; cbn [app Split]; [by rewrite decide_True|].
  apply not_elem_of_cons in Hp as [Hb Hp]. rewrite decide_False by done. by rewrite IH.
Qed.

Lemma Split_app_general s sep rest : Split (s ++ sep :: rest) sep = Split s sep ++ Split rest sep.
Proof.
  induction s as [|b s IH]; cbn [app Split]; [by rewrite decide_True|]. rewrite IH. case_decide; [done|].
  destruct (Split s sep) as [|part parts] eqn:E; [by destruct (Split_nonempty s sep)|done].
Qed.

Lemma strings_Join_snoc elements last sep :
  strings_Join (elements ++ [last]) sep = concat (map (λ e, e ++ sep) elements) ++ last.
Proof.
  induction elements as [|e elements IH]; [done|]. cbn [app map concat].
  rewrite strings_Join_cons, IH by (by destruct elements). by rewrite !(assoc_L (++)).
Qed.

Lemma Split_Join parts sep : parts ≠ [] → Forall (λ part, sep ∉ part) parts → Split (strings_Join parts [sep]) sep = parts.
Proof.
  intros Hne Hall. induction Hall as [|part parts Hp Hall IH]; [done|]. destruct parts as [|next parts]; [by apply Split_part|].
  rewrite strings_Join_cons by done. cbn [app]. rewrite Split_app by done. by rewrite IH.
Qed.

(** ** HTML *)

Definition escape_html_byte (b : byte) : bytes :=
  match b with
  | x26 => str "&amp;" | x27 => str "&#39;" | x3c => str "&lt;" | x3e => str "&gt;" | x22 => str "&#34;"
  | _ => [b]
  end.

(** [html.EscapeString]. *)
Definition EscapeString (s : bytes) : bytes := concat (map escape_html_byte s).

(** A reader of what [EscapeString] writes; [skip] counts the bytes of an entity that are left. *)
Definition entities : list (bytes * byte) :=
  [(str "&amp;", x26); (str "&#39;", x27); (str "&lt;", x3c); (str "&gt;", x3e); (str "&#34;", x22)].

Fixpoint unescape_from (skip : nat) (s : bytes) : bytes :=
  match s, skip with
  | [], _ => []
  | _ :: rest, S skip => unescape_from skip rest
  | b :: rest, O =>
      match List.find (λ e, HasPrefix s e.1) entities with
      | Some e => e.2 :: unescape_from (length e.1 - 1) rest
      | None => b :: unescape_from 0 rest
      end
  end.
Definition UnescapeString (s : bytes) : bytes := unescape_from 0 s.

Lemma EscapeString_app s t : EscapeString (s ++ t) = EscapeString s ++ EscapeString t.
Proof. unfold EscapeString. by rewrite map_app, concat_app. Qed.

Lemma UnescapeString_EscapeString s : UnescapeString (EscapeString s) = s.
Proof.
  unfold UnescapeString, EscapeString. induction s as [|b s IH]; [done|]. cbn [map concat]. rewrite <- IH at 2. by destruct b.
Qed.

#[global] Instance EscapeString_Inj : Inj (=) (=) EscapeString.
Proof. intros x y H. by rewrite <- (UnescapeString_EscapeString x), H, UnescapeString_EscapeString. Qed.

(** The characters with which a text could end an attribute or start a tag. *)
Definition breaks_out : list byte := [x22; x27; x3c; x3e].

Lemma escape_html_byte_safe b : Forall (λ c, c ∉ breaks_out) (escape_html_byte b).
Proof. apply (bool_decide_unpack _). by destruct b. Qed.

Lemma EscapeString_safe s : Forall (λ c, c ∉ breaks_out) (EscapeString s).
Proof. unfold EscapeString. induction s as [|b s IH]; [done|]. apply Forall_app. split; [apply escape_html_byte_safe|done]. Qed.

(** ** Paths *)

Definition slash : byte := ascii_byte "/".
Definition dot : bytes := str ".".
Definition dot_dot : bytes := str "..".

(** The elements of a cleaned path, the last one first. *)
Definition clean_step (rooted : bool) (stack : list bytes) (element : bytes) : list bytes :=
  if bool_decide (element = [] ∨ element = dot) then stack
  else if bool_decide (element = dot_dot) then
    match stack with
    | top :: below => if bool_decide (top = dot_dot) then element :: stack else below
    | [] => if rooted then [] else [element]
    end
  else element :: stack.

(** [path.Clean]. *)
Definition path_Clean (path : bytes) : bytes :=
  let rooted := HasPrefix path [slash] in
  let elements := rev (fold_left (clean_step rooted) (Split path slash) []) in
  match (if rooted then [slash] else []) ++ strings_Join elements [slash] with [] => dot | cleaned => cleaned end.

(** [filepath.Dir]: the path up to its last slash, cleaned. *)
Fixpoint up_to_slash (reversed : bytes) : bytes :=
  match reversed with
  | [] => []
  | b :: rest => if decide (b = slash) then rev reversed else up_to_slash rest
  end.
Definition filepath_Dir (path : bytes) : bytes := path_Clean (up_to_slash (rev path)).

(** The name of a file within its directory. *)
Definition file_name (name : bytes) : Prop := slash ∉ name ∧ name ≠ [] ∧ name ≠ dot ∧ name ≠ dot_dot.

(** A name that is joined to a directory comes after a text that the directory determines. *)
Lemma Clean_join out : out ≠ [] → ∃ prefix, ∀ name, file_name name → path_Clean (out ++ [slash] ++ name) = prefix ++ name.
Proof.
  intros Hout. set (rooted := HasPrefix out [slash]).
  exists ((if rooted then [slash] else []) ++ concat (map (λ e, e ++ [slash]) (rev (fold_left (clean_step rooted) (Split out slash) [])))).
  intros name (Hslash & Hne & Hdot & Hdots). unfold path_Clean.
  assert (HasPrefix (out ++ [slash] ++ name) [slash] = rooted) as -> by (by destruct out).
  cbn [app]. rewrite Split_app_general, (Split_part name), fold_left_app by done. cbn [fold_left]. unfold clean_step at 1.
  rewrite !bool_decide_false by tauto. cbn [rev]. rewrite strings_Join_snoc, (assoc_L (++)).
  destruct (_ ++ name) as [|b cleaned] eqn:E; [|done]. by apply app_eq_nil in E as [_ ->].
Qed.

Example Clean_paths :
  map path_Clean [str ""; str "a//b/./c/../d"; str "/../a/"; str "../../a"; str "./x.go"]
  = [str "."; str "a/b/d"; str "/a"; str "../../a"; str "x.go"].
Proof. reflexivity. Qed.

Example Dir_paths : map filepath_Dir [str "x.go"; str "a/b/x.go"; str "/x.go"; str "./a/x.go"] = [str "."; str "a/b"; str "/"; str "a"].
Proof. reflexivity. Qed.
