(* ===== verification/GoFloat.v ===== *)
(** * Floating-point numbers of Go

    A float64 is its 64 bits, and a float32 is the float64 that it widens to. Arithmetic is the IEEE 754
    arithmetic of the Standard Library's [SpecFloat], rounding to nearest even. Every operation that yields a
    NaN yields the one of [math.NaN]. *)

From Stdlib Require Import QArith.QArith Floats.SpecFloat.
From S2P Require Import Prelude GoStd.

#[local] Open Scope Z_scope.

Definition sign_bit (negative : bool) : Z := if negative then 2 ^ 63 else 0.

(** [math.Float64frombits], as the value that the bits stand for. *)
Definition SF_of_bits (bits : Z) : spec_float :=
  let negative := Z.testbit bits 63 in
  let exponent := Z.land (Z.shiftr bits 52) 2047 in
  let fraction := Z.land bits (2 ^ 52 - 1) in
  if exponent =? 2047 then if fraction =? 0 then S754_infinity negative else S754_nan
  else if exponent =? 0 then if fraction =? 0 then S754_zero negative else S754_finite negative (Z.to_pos fraction) (-1074)
  else S754_finite negative (Z.to_pos (2 ^ 52 + fraction)) (exponent - 1075).

(** [math.Float64bits]. A finite number comes with its canonical mantissa. *)
Definition bits_of_SF (x : spec_float) : Z :=
  match x with
  | S754_zero s => sign_bit s
  | S754_infinity s => sign_bit s + Z.shiftl 2047 52
  | S754_nan => 0x7FF8000000000001
  | S754_finite s m e =>
      uint64 (if Zpos m <? 2 ^ 52 then sign_bit s + Zpos m
              else sign_bit s + Z.shiftl (e + 1075) 52 + (Zpos m - 2 ^ 52))
  end.

Definition float_add (x y : Z) : Z := bits_of_SF (SFadd 53 1024 (SF_of_bits x) (SF_of_bits y)).

(** The float64 nearest to a rational, as [big.Rat.Float64] and the conversion of an integer give it. *)
Definition float_of_Q (q : Q) : Z :=
  match Qnum q with
  | 0 => 0
  | Zpos n => bits_of_SF (SFdiv 53 1024 (S754_finite false n 0) (S754_finite false (Qden q) 0))
  | Zneg n => bits_of_SF (SFdiv 53 1024 (S754_finite true n 0) (S754_finite false (Qden q) 0))
  end.

(** [float32(x)], widened again. *)
Definition round32 (bits : Z) : Z :=
  match SF_of_bits bits with
  | S754_finite s m e =>
      match binary_round 24 128 s m e with
      | S754_finite s m e => float_of_Q ((if s then Zneg m else Zpos m) * (if 0 <=? e then 2 ^ e else 1)
                                           # (if 0 <=? e then 1 else Z.to_pos (2 ^ (- e))))
      | x => bits_of_SF x
      end
  | x => bits_of_SF x
  end.

Lemma float_of_Q_half : float_of_Q (1 # 2) = Z.shiftl 1022 52 ∧ float_of_Q (-3 # 1) = 2 ^ 63 + Z.shiftl 1024 52 + 2 ^ 51.
Proof. split; vm_compute; reflexivity. Qed.

(** 0.1 + 0.2 is 0.30000000000000004, and 0.1 is no float32. *)
Lemma float_add_tenths :
  float_add (float_of_Q (1 # 10)) (float_of_Q (2 # 10)) = float_of_Q (3 # 10) + 1 ∧
  round32 (float_of_Q (1 # 10)) ≠ float_of_Q (1 # 10) ∧ round32 (round32 (float_of_Q (1 # 10))) = round32 (float_of_Q (1 # 10)).
Proof. split; [vm_compute; reflexivity|]. split; [by_decide|vm_compute; reflexivity]. Qed.

Lemma bits_of_SF_range x : inU 64 (bits_of_SF x).
Proof.
  destruct x as [[]|[]| |s m e]; cbn [bits_of_SF]; [vm_compute; by split..|]. apply (wrapU_range 64). lia.
Qed.

(** A bit pattern is a value and back, but for the other NaNs. *)
Lemma bits_of_SF_of_bits bits :
  inU 64 bits → SF_of_bits bits ≠ S754_nan → bits_of_SF (SF_of_bits bits) = bits.
Proof.
  intros H. unfold SF_of_bits. rewrite Z.shiftr_div_pow2 by lia.
  change 2047 with (Z.ones 11). rewrite !Z.land_ones by lia. change (2 ^ 52 - 1) with (Z.ones 52).
  rewrite Z.land_ones by lia. change (Z.ones 11) with 2047.
  assert (sign_bit (Z.testbit bits 63) = bits / 2 ^ 63 * 2 ^ 63) as Hs.
  { unfold inU in H. rewrite Z.testbit_eqb by lia. change (2 ^ 64) with 18446744073709551616 in H.
    change (2 ^ 63) with 9223372036854775808. unfold sign_bit. change (2 ^ 63) with 9223372036854775808.
    destruct (Z.eqb_spec (bits / 9223372036854775808 mod 2) 1); Z.to_euclidean_division_equations; lia. }
  unfold inU in H. change (2 ^ 64) with 18446744073709551616 in H.
  change (2 ^ 63) with 9223372036854775808 in Hs. change (2 ^ 52) with 4503599627370496. change (2 ^ 11) with 2048.
  pose proof (Z.mod_pos_bound bits 4503599627370496 ltac:(lia)) as Hf.
  pose proof (Z.mod_pos_bound (bits / 4503599627370496) 2048 ltac:(lia)) as He.
  assert (bits = bits / 9223372036854775808 * 9223372036854775808 + (bits / 4503599627370496 mod 2048) * 4503599627370496
            + bits mod 4503599627370496) as Hb by (clear; Z.to_euclidean_division_equations; lia).
  set (f := bits mod 4503599627370496) in *. set (x := bits / 4503599627370496 mod 2048) in *.
  destruct (Z.eqb_spec x 2047) as [Hx|Hx].
  - destruct (Z.eqb_spec f 0) as [Hf0|Hf0]; [|done]. intros _. cbn [bits_of_SF]. rewrite Hs.
    change (Z.shiftl 2047 52) with (2047 * 4503599627370496). lia.
  - destruct (Z.eqb_spec x 0) as [Hx0|Hx0]; [destruct (Z.eqb_spec f 0) as [Hf0|Hf0]|]; intros _; cbn [bits_of_SF].
    + rewrite Hs. lia.
    + change (2 ^ 52) with 4503599627370496. rewrite Z2Pos.id by lia.
      replace (f <? 4503599627370496) with true by lia. rewrite Hs. rewrite (wrapU_id 64); unfold inU; lia.
    + change (2 ^ 52) with 4503599627370496. rewrite Z2Pos.id by lia.
      replace (4503599627370496 + f <? 4503599627370496) with false by lia. rewrite Hs, Z.shiftl_mul_pow2 by lia.
      change (2 ^ 52) with 4503599627370496. rewrite (wrapU_id 64); unfold inU; lia.
Qed.
