(* ===== verification/Json.v ===== *)
(** * JSON documents as [encoding/json] decodes them

    The syntax tree of a document, and the part of [json.Unmarshal] that [schema/client.go],
    [schema/compat.go] and [krabkatest/registrystub.go] rely on: decoding into an int, a string, a map
    of raw messages, a slice and a tagged struct. A string is its decoded bytes, a number its literal, an
    object the members in document order with duplicates kept. The lexer itself is not modelled. *)

From S2P Require Import Prelude GoStd.

Inductive json :=
| JNull
| JBool (b : bool)
| JNumber (literal : bytes)
| JString (text : bytes)
| JArray (items : list json)
| JObject (members : list (bytes * json)).

(** Induction through arrays and objects. *)
Section json_ind.
Variable P : json → Prop.
Hypothesis (Hnull : P JNull) (Hbool : ∀ b, P (JBool b)) (Hnumber : ∀ l, P (JNumber l)) (Hstring : ∀ s, P (JString s)).
Hypothesis Harray : ∀ items, Forall P items → P (JArray items).
Hypothesis Hobject : ∀ members, Forall (λ m, P m.2) members → P (JObject members).

Fixpoint json_nested_ind (j : json) : P j :=
  match j with
  | JNull => Hnull
  | JBool b => Hbool b
  | JNumber l => Hnumber l
  | JString s => Hstring s
  | JArray items =>
      Harray items ((fix go l : Forall P l :=
        match l with [] => Forall_nil_2 _ | x :: l => Forall_cons_2 _ _ _ (json_nested_ind x) (go l) end) items)
  | JObject members =>
      Hobject members ((fix go l : Forall (λ m, P m.2) l :=
        match l with [] => Forall_nil_2 _ | x :: l => Forall_cons_2 _ _ _ (json_nested_ind x.2) (go l) end) members)
  end.
End json_ind.

(** The trees of stdpp carry the decidable equality and the enumeration. *)
Fixpoint json_tree (j : json) : gen_tree (bool + bytes + bytes + bytes) :=
  match j with
  | JNull => GenNode 0 []
  | JBool b => GenLeaf (inl (inl (inl b)))
  | JNumber l => GenLeaf (inl (inl (inr l)))
  | JString s => GenLeaf (inl (inr s))
  | JArray items => GenNode 1 (map json_tree items)
  | JObject members => GenNode 2 (map (λ m, GenNode 3 [GenLeaf (inr m.1); json_tree m.2]) members)
  end.

Fixpoint tree_json (t : gen_tree (bool + bytes + bytes + bytes)) : json :=
  match t with
  | GenLeaf (inl (inl (inl b))) => JBool b
  | GenLeaf (inl (inl (inr l))) => JNumber l
  | GenLeaf (inl (inr s)) => JString s
  | GenNode 1 items => JArray (map tree_json items)
  | GenNode 2 members =>
      JObject (map (λ t, match t with GenNode 3 [GenLeaf (inr k); v] => (k, tree_json v) | _ => ([], JNull) end) members)
  | _ => JNull
  end.

Lemma tree_json_tree j : tree_json (json_tree j) = j.
Proof.
  induction j as [|b|l|s|items IH|members IH] using json_nested_ind; cbn; try done; f_equal; rewrite map_map.
  - induction IH as [|x l Hx Hl IHl]; cbn; [done|]. by f_equal.
  - induction IH as [|[k x] l Hx Hl IHl]; cbn; [done|]. cbn in Hx. by rewrite Hx; f_equal.
Qed.

#[global] Instance json_eq_dec : EqDecision json.
Proof. refine (inj_eq_dec json_tree). intros x y H. by rewrite <- (tree_json_tree x), H, tree_json_tree. Defined.
#[global] Instance json_countable : Countable json.
Proof. exact (inj_countable' json_tree tree_json tree_json_tree). Defined.

(** A [json.RawMessage]: nil, or the text of one valid document. *)
Abbreviation RawMessage := (option json).

(** [json.Unmarshal(message, &v)] into an int that holds [current]; [None] is an error. A JSON null is
    accepted and leaves the variable alone. *)
Definition into_int (message : RawMessage) (current : Z) : option Z :=
  match message with
  | Some JNull => Some current
  | Some (JNumber literal) => ParseInt literal 64
  | _ => None
  end.

(** The same for a string. *)
Definition into_text (message : RawMessage) (current : bytes) : option bytes :=
  match message with
  | Some JNull => Some current
  | Some (JString text) => Some text
  | _ => None
  end.

(** Into a nil slice of raw messages. *)
Definition into_items (message : RawMessage) : option (list json) :=
  match message with
  | Some JNull => Some []
  | Some (JArray items) => Some items
  | _ => None
  end.

(** Into a nil [map[string]json.RawMessage], as its members; a key that repeats keeps its last value. *)
Definition into_fields (message : RawMessage) : option (list (bytes * json)) :=
  match message with
  | Some JNull => Some []
  | Some (JObject members) => Some members
  | _ => None
  end.

Fixpoint member (members : list (bytes * json)) (name : bytes) : option json :=
  match members with
  | [] => None
  | (key, value) :: members =>
      match member members name with
      | Some value => Some value
      | None => if decide (key = name) then Some value else None
      end
  end.

(** [foldName]: a struct field's name matches a key up to case. Two letters outside of ASCII fold into it:
    U+017F to S and U+212A to K; every other one folds to a letter outside of ASCII. *)
Fixpoint fold_name (name : bytes) : bytes :=
  match name with
  | [] => []
  | b :: rest =>
      match b, rest with
      | xc5, xbf :: rest => ascii_byte "S" :: fold_name rest
      | xe2, x84 :: xaa :: rest => ascii_byte "K" :: fold_name rest
      | _, _ => (if in_range b 97 122 then z2b (b2z b - 32) else b) :: fold_name rest
      end
  end.

Definition same_name (key name : bytes) : bool := bool_decide (fold_name key = fold_name name).

(** A struct decodes member by member, in document order. A member of the wrong type is an error that
    does not stop the others: [into_struct] returns the struct so far, and whether one failed. *)
Definition into_struct {S} (field : bytes → json → S → option S) (message : RawMessage) (zero : S) : S * bool :=
  match message with
  | Some JNull => (zero, true)
  | Some (JObject members) =>
      fold_left (λ acc m, match field m.1 m.2 acc.1 with Some s => (s, acc.2) | None => (acc.1, false) end)
        members (zero, true)
  | _ => (zero, false)
  end.

Lemma member_None members name : name ∉ map fst members → member members name = None.
Proof.
  induction members as [|[k v] l IH]; cbn; [done|]. intros [Hk Hl]%not_elem_of_cons. rewrite IH by done.
  by rewrite decide_False.
Qed.

(** [json.Marshal] of a string: a byte that begins no UTF-8 sequence becomes U+FFFD. *)
Fixpoint coerce_utf8 (bs : bytes) : bytes :=
  match bs with
  | [] => []
  | b0 :: r0 =>
      if b2z b0 <? 128 then b0 :: coerce_utf8 r0
      else
        let bad := xef :: xbf :: xbd :: coerce_utf8 r0 in
        match r0 with
        | [] => bad
        | b1 :: r1 =>
            if in_range b0 194 223 then if is_cont b1 then b0 :: b1 :: coerce_utf8 r1 else bad
            else match r1 with
            | [] => bad
            | b2 :: r2 =>
                if in_range b0 224 239 then if second3 b0 b1 && is_cont b2 then b0 :: b1 :: b2 :: coerce_utf8 r2 else bad
                else match r2 with
                | [] => bad
                | b3 :: r3 =>
                    if in_range b0 240 244 && second4 b0 b1 && is_cont b2 && is_cont b3
                    then b0 :: b1 :: b2 :: b3 :: coerce_utf8 r3 else bad
                end
            end
        end
  end.

Lemma coerce_utf8_valid bs : utf8_valid bs = true → coerce_utf8 bs = bs.
Proof.
  revert bs. fix IH 1. intros [|b0 r0]; [done|]. cbn [utf8_valid coerce_utf8].
  destruct (b2z b0 <? 128); [intros H; by rewrite IH|].
  destruct r0 as [|b1 r1]; [done|]. cbv beta iota zeta.
  destruct (in_range b0 194 223); [intros [-> H]%andb_true_iff; cbv beta iota; by rewrite IH|].
  destruct r1 as [|b2 r2]; [done|]. cbv beta iota.
  destruct (in_range b0 224 239).
  { destruct (second3 b0 b1 && is_cont b2); [|done]. cbn [andb]. intros H. by rewrite IH. }
  destruct r2 as [|b3 r3]; [done|]. cbv beta iota.
  destruct (in_range b0 240 244 && second4 b0 b1 && is_cont b2 && is_cont b3); [|done]. cbn [andb]. intros H. by rewrite IH.
Qed.
