(* ===== verification/Record.v ===== *)
(** * Names, fencing tokens and records of the coordination topic

    [coordination/record.go]: the validated names, [FencingToken] and its order, and the key, the
    registration value and the lease value of [StateTopic] with their encoders and decoders. The
    stateful [stateReader] of the source is a [reader] here: the slice it keeps is passed along. *)

From S2P Require Import Prelude GoStd.

(** ** Constants *)

Definition StateTopic : bytes := str "__coordination_state".
Definition MaxRoleLen : Z := 249.
Definition MaxMemberIDLen : Z := 249.
Definition recordVersion : Z := 0.

(** The record part that a decoder failed on. *)
Inductive record_part := keyPart | registrationValuePart | leaseValuePart.

(** The two names that [checkName] reports about. *)
Inductive name_field := roleField | memberField.

(** [RecordKind] is an int16 with two named values. *)
Definition RecordKind := Z.
Definition KindRegistration : RecordKind := 0.
Definition KindLease : RecordKind := 1.

(** ** Names *)

Record Role := MkRole { role_name : bytes }.
Record MemberID := MkMemberID { member_name : bytes }.

#[global] Instance Role_eq_dec : EqDecision Role.
Proof. solve_decision. Defined.
#[global] Instance MemberID_eq_dec : EqDecision MemberID.
Proof. solve_decision. Defined.
#[global] Instance MemberID_countable : Countable MemberID.
Proof. refine (inj_countable' member_name MkMemberID _). by intros []. Defined.

(** The zero [MemberID] names no member. *)
Definition no_member : MemberID := MkMemberID [].

Inductive name_error :=
| NameEmpty (field : name_field)
| NameTooLong (field : name_field) (len bound : Z).

Definition checkName (name : bytes) (field : name_field) (bound : Z) : result name_error unit :=
  check! bool_decide (name ≠ []) else NameEmpty field in
  check! bool_decide (zlen name ≤ bound) else NameTooLong field (zlen name) bound in
  Ok tt.

Definition NewRole (name : bytes) : result name_error Role :=
  let* _ := checkName name roleField MaxRoleLen in Ok (MkRole name).

Definition NewMemberID (name : bytes) : result name_error MemberID :=
  let* _ := checkName name memberField MaxMemberIDLen in Ok (MkMemberID name).

(** ** Fencing tokens *)

Record FencingToken := MkToken { producerID : Z; producerEpoch : Z }.

#[global] Instance FencingToken_eq_dec : EqDecision FencingToken.
Proof. solve_decision. Defined.

Definition NoEpoch : FencingToken := MkToken (-1) (-1).

(** A negative value in either position. *)
Record token_error := NegativeToken { bad_id : Z; bad_epoch : Z }.

Definition NewFencingToken (id epoch : Z) : result token_error FencingToken :=
  if (id <? 0) || (epoch <? 0) then Err (NegativeToken id epoch) else Ok (MkToken id epoch).

Inductive parse_token_error :=
| MalformedToken (text : bytes)
| RejectedToken (e : token_error).

Definition colon : byte := ascii_byte ":".

Definition ParseFencingToken (text : bytes) : result parse_token_error FencingToken :=
  let '(id_text, epoch_text, found) := Cut text colon in
  check! (found && negb (Contains epoch_text colon)) else MalformedToken text in
  match ParseInt id_text 64 with
  | None => Err (MalformedToken text)
  | Some id =>
      match ParseInt epoch_text 16 with
      | None => Err (MalformedToken text)
      | Some epoch => rmap_err RejectedToken (NewFencingToken id (int16 epoch))
      end
  end.

Definition Compare (t other : FencingToken) : Z :=
  let order := cmp_Compare (producerID t) (producerID other) in
  if decide (order ≠ 0) then order
  else cmp_Compare (producerEpoch t) (producerEpoch other).

Definition Supersedes (t other : FencingToken) : bool := 0 <? Compare t other.

Definition FencingToken_String (t : FencingToken) : bytes :=
  FormatInt (producerID t) ++ [colon] ++ FormatInt (producerEpoch t).

(** ** Keys and values *)

Record Key := MkKey { key_Kind : RecordKind; key_Role : Role; key_Member : MemberID }.

#[global] Instance Key_eq_dec : EqDecision Key.
Proof. solve_decision. Defined.

Definition RegistrationKey (role : Role) (member : MemberID) : Key :=
  MkKey KindRegistration role member.

Definition LeaseKey (role : Role) : Key := MkKey KindLease role no_member.

Record Registration := MkRegistration { reg_Member : MemberID; reg_RegisteredAt : Z }.

Record Lease := MkLease {
  lease_Member : MemberID;
  lease_Token : FencingToken;
  lease_GrantedAt : Z;
  lease_Deadline : Z
}.

#[global] Instance Registration_eq_dec : EqDecision Registration.
Proof. solve_decision. Defined.
#[global] Instance Lease_eq_dec : EqDecision Lease.
Proof. solve_decision. Defined.

(** [FormatError]: the part, and the fault that the message describes. *)
Inductive format_fault :=
| Truncated
| Trailing
| UnsupportedVersion (version : Z)
| UnknownKind (code : Z)
| NegativeLength (length : Z)
| NotUTF8
| LeaseKeyMember (name : bytes)
| BadName (e : name_error)
| BadToken (e : token_error).

Record FormatError := MkFormatError { fe_Part : record_part; fe_fault : format_fault }.

Definition IsTombstone (value : bytes) : bool := bool_decide (zlen value = 0).

(** ** Encoders *)

Definition appendInt16 (buffer : bytes) (value : Z) : bytes := buffer ++ be_encode 2 value.

Definition appendInt64 (buffer : bytes) (value : Z) : bytes := buffer ++ be_encode 8 value.

(** The length is cast to an int16, whatever it is. *)
Definition appendString (buffer value : bytes) : bytes :=
  appendInt16 buffer (int16 (zlen value)) ++ value.

Definition EncodeKey (key : Key) : bytes :=
  let member :=
    if decide (key_Kind key = KindRegistration) then member_name (key_Member key) else [] in
  let buffer := [] in
  let buffer := appendInt16 buffer recordVersion in
  let buffer := appendInt16 buffer (key_Kind key) in
  let buffer := appendString buffer (role_name (key_Role key)) in
  appendString buffer member.

Definition EncodeRegistration (registration : Registration) : bytes :=
  let buffer := appendInt16 [] recordVersion in
  let buffer := appendString buffer (member_name (reg_Member registration)) in
  appendInt64 buffer (reg_RegisteredAt registration).

Definition EncodeLease (lease : Lease) : bytes :=
  let buffer := appendInt16 [] recordVersion in
  let buffer := appendString buffer (member_name (lease_Member lease)) in
  let buffer := appendInt64 buffer (producerID (lease_Token lease)) in
  let buffer := appendInt16 buffer (producerEpoch (lease_Token lease)) in
  let buffer := appendInt64 buffer (lease_GrantedAt lease) in
  appendInt64 buffer (lease_Deadline lease).

(** ** The reader *)

Section stateReader.
Context (part : record_part).

Definition stateReader_errorf (fault : format_fault) : FormatError := MkFormatError part fault.

Definition stateReader_truncated : FormatError := stateReader_errorf Truncated.

Definition stateReader_empty (data : bytes) : bool := bool_decide (zlen data = 0).

Definition stateReader_int16 : reader FormatError Z := read_int stateReader_truncated 2.

Definition stateReader_int64 : reader FormatError Z := read_int stateReader_truncated 8.

Definition stateReader_string : reader FormatError bytes :=
  read* length := stateReader_int16 in
  if length <? 0 then rfail (stateReader_errorf (NegativeLength length)) else
  read* result := take_bytes stateReader_truncated (Z.to_nat length) in
  if utf8_valid result then rret result else rfail (stateReader_errorf NotUTF8).

Definition stateReader_version : reader FormatError unit :=
  read* version := stateReader_int16 in
  if decide (version ≠ recordVersion)
  then rfail (stateReader_errorf (UnsupportedVersion version)) else rret tt.

(** [r.wrap(err)] of a rejected name, and of a rejected token. *)
Definition wrap_name {A} (m : result name_error A) : result FormatError A :=
  rmap_err (λ e, stateReader_errorf (BadName e)) m.
Definition wrap_token {A} (m : result token_error A) : result FormatError A :=
  rmap_err (λ e, stateReader_errorf (BadToken e)) m.
End stateReader.

(** ** Decoders *)

Definition DecodeKey (data : bytes) : result FormatError Key :=
  let part := keyPart in
  let* (kind, roleName, memberName, rest) :=
    (read* _ := stateReader_version part in
     read* code := stateReader_int16 part in
     if decide (code ≠ KindRegistration ∧ code ≠ KindLease)
     then rfail (stateReader_errorf part (UnknownKind code)) else
     read* roleName := stateReader_string part in
     read* memberName := stateReader_string part in
     rret (code, roleName, memberName)) data in
  check! stateReader_empty rest else stateReader_errorf part Trailing in
  let* role := wrap_name part (NewRole roleName) in
  if decide (kind = KindLease) then
    check! bool_decide (memberName = []) else stateReader_errorf part (LeaseKeyMember memberName) in
    Ok (LeaseKey role)
  else
    let* member := wrap_name part (NewMemberID memberName) in
    Ok (RegistrationKey role member).

Definition DecodeRegistration (data : bytes) : result FormatError Registration :=
  let part := registrationValuePart in
  let* (memberName, registeredAt, rest) :=
    (read* _ := stateReader_version part in
     read* memberName := stateReader_string part in
     read* registeredAt := stateReader_int64 part in
     rret (memberName, registeredAt)) data in
  check! stateReader_empty rest else stateReader_errorf part Trailing in
  let* member := wrap_name part (NewMemberID memberName) in
  Ok (MkRegistration member registeredAt).

Definition DecodeLease (data : bytes) : result FormatError Lease :=
  let part := leaseValuePart in
  let* (memberName, id, epoch, grantedAt, deadline, rest) :=
    (read* _ := stateReader_version part in
     read* memberName := stateReader_string part in
     read* id := stateReader_int64 part in
     read* epoch := stateReader_int16 part in
     read* grantedAt := stateReader_int64 part in
     read* deadline := stateReader_int64 part in
     rret (memberName, id, epoch, grantedAt, deadline)) data in
  check! stateReader_empty rest else stateReader_errorf part Trailing in
  let* member := wrap_name part (NewMemberID memberName) in
  let* token := wrap_token part (NewFencingToken id epoch) in
  Ok (MkLease member token grantedAt deadline).

(** ** Well-formed names, keys and values *)

(** What the constructors accept. *)
Definition name_ok (bound : Z) (name : bytes) : Prop := name ≠ [] ∧ zlen name ≤ bound.

(** What the wire format accepts of a string: valid UTF-8 with an int16 length. *)
Definition text_ok (s : bytes) : Prop := utf8_valid s = true ∧ zlen s < 2 ^ 15.

Definition role_wf (r : Role) : Prop :=
  name_ok MaxRoleLen (role_name r) ∧ utf8_valid (role_name r) = true.
Definition member_wf (m : MemberID) : Prop :=
  name_ok MaxMemberIDLen (member_name m) ∧ utf8_valid (member_name m) = true.

(** The keys of the topic: a registration key names a member and a lease key does not. *)
Definition key_wf (k : Key) : Prop :=
  role_wf (key_Role k) ∧
  (key_Kind k = KindRegistration ∧ member_wf (key_Member k) ∨
   key_Kind k = KindLease ∧ key_Member k = no_member).

(** A token that a coordinator can mint. *)
Definition token_wf (t : FencingToken) : Prop :=
  0 ≤ producerID t ∧ 0 ≤ producerEpoch t ∧ inS 64 (producerID t) ∧ inS 16 (producerEpoch t).

Definition registration_wf (r : Registration) : Prop :=
  member_wf (reg_Member r) ∧ inS 64 (reg_RegisteredAt r).

Definition lease_wf (l : Lease) : Prop :=
  member_wf (lease_Member l) ∧ token_wf (lease_Token l) ∧
  inS 64 (lease_GrantedAt l) ∧ inS 64 (lease_Deadline l).

#[global] Instance name_ok_dec bound name : Decision (name_ok bound name).
Proof. unfold name_ok. apply _. Defined.
#[global] Instance role_wf_dec r : Decision (role_wf r).
Proof. unfold role_wf. apply _. Defined.
#[global] Instance member_wf_dec m : Decision (member_wf m).
Proof. unfold member_wf. apply _. Defined.
#[global] Instance key_wf_dec k : Decision (key_wf k).
Proof. unfold key_wf. apply _. Defined.
#[global] Instance token_wf_dec t : Decision (token_wf t).
Proof. unfold token_wf. apply _. Defined.
#[global] Instance registration_wf_dec r : Decision (registration_wf r).
Proof. unfold registration_wf. apply _. Defined.
#[global] Instance lease_wf_dec l : Decision (lease_wf l).
Proof. unfold lease_wf. apply _. Defined.

Lemma role_text r : role_wf r → text_ok (role_name r).
Proof. intros [[_ H] Hu]. split; [done|]. unfold MaxRoleLen in H. lia. Qed.
Lemma member_text m : member_wf m → text_ok (member_name m).
Proof. intros [[_ H] Hu]. split; [done|]. unfold MaxMemberIDLen in H. lia. Qed.

Lemma text_ok_nil : text_ok [].
Proof. by split. Qed.

Create HintDb record.
#[export] Hint Resolve role_text member_text text_ok_nil : record.

Lemma checkName_Ok name field bound u : checkName name field bound = Ok u ↔ name_ok bound name.
Proof.
  unfold checkName, name_ok. destruct u. repeat case_bool_decide; naive_solver.
Qed.

Lemma NewRole_Ok name r : NewRole name = Ok r ↔ r = MkRole name ∧ name_ok MaxRoleLen name.
Proof.
  unfold NewRole. rewrite rbind_Ok. setoid_rewrite checkName_Ok. naive_solver.
Qed.

Lemma NewMemberID_Ok name m :
  NewMemberID name = Ok m ↔ m = MkMemberID name ∧ name_ok MaxMemberIDLen name.
Proof.
  unfold NewMemberID. rewrite rbind_Ok. setoid_rewrite checkName_Ok. naive_solver.
Qed.

Lemma NewFencingToken_Ok id epoch t :
  NewFencingToken id epoch = Ok t ↔ t = MkToken id epoch ∧ 0 ≤ id ∧ 0 ≤ epoch.
Proof.
  unfold NewFencingToken.
  destruct (Z.ltb_spec id 0), (Z.ltb_spec epoch 0); cbn; split;
    try (intros [= <-]; auto); try (intros (-> & ? & ?); auto); try lia; done.
Qed.

(** ** The record encoding *)

(** One string of the layout, as one codec. *)
Definition string_bytes (s : bytes) : bytes := be_encode 2 (zlen s) ++ s.

Lemma appendString_short buffer s : zlen s < 2 ^ 15 → appendString buffer s = buffer ++ string_bytes s.
Proof.
  intros H. unfold appendString, appendInt16, string_bytes. rewrite wrapS_id.
  - by rewrite <- (assoc_L (++)).
  - lia.
  - pose proof (zlen_nonneg s). unfold inS. lia.
Qed.

Lemma appendString_text buffer s : text_ok s → appendString buffer s = buffer ++ string_bytes s.
Proof.
  intros [_ H]. by apply appendString_short.
Qed.

#[export] Instance stateReader_string_codec part :
  Codec string_bytes (stateReader_string part) text_ok.
Proof.
  split.
  - intros s rest [Hu Hl]. unfold stateReader_string, stateReader_int16, string_bytes.
    pose proof (zlen_nonneg s). rewrite <- (assoc_L (++)).
    rewrite (rseq_dec (be_encode 2) (read_int _ 2) (inS 16)) by (unfold inS; lia).
    replace (zlen s <? 0) with false by lia. unfold rseq, zlen. rewrite Nat2Z.id, take_bytes_app.
    by rewrite Hu.
  - intros bs s rest H. unfold stateReader_string in H. reader_inv.
    apply (codec_enc (dec := read_int (stateReader_truncated part) 2)) in H as [-> Hn].
    apply take_bytes_Ok in H0 as [-> Hlen]. unfold string_bytes, text_ok, inS, zlen in *.
    change (8 * Z.of_nat 2 - 1) with 15 in Hn.
    rewrite Hlen, Z2Nat.id by lia. rewrite <- (assoc_L (++)). repeat split; [done|lia].
Qed.

#[export] Instance stateReader_int16_codec part :
  Codec (be_encode 2) (stateReader_int16 part) (inS 16).
Proof. apply int_codec. Qed.

#[export] Instance stateReader_int64_codec part :
  Codec (be_encode 8) (stateReader_int64 part) (inS 64).
Proof. apply int_codec. Qed.

Definition version_bytes (_ : unit) : bytes := be_encode 2 recordVersion.

#[export] Instance stateReader_version_codec part :
  Codec version_bytes (stateReader_version part) (λ _, True).
Proof.
  split.
  - intros [] rest _. unfold stateReader_version, version_bytes.
    by rewrite (rseq_dec (be_encode 2) _ (inS 16)).
  - intros bs [] rest H. unfold stateReader_version in H. reader_inv.
    apply (codec_enc (dec := stateReader_int16 part)) in H as [-> _].
    apply dec_stable in n. by subst.
Qed.

Lemma stateReader_empty_true data : stateReader_empty data = true ↔ data = [].
Proof.
  unfold stateReader_empty. rewrite bool_decide_eq_true. unfold zlen. destruct data; cbn; split; done || lia.
Qed.

(** Turn the reads of a successful run into equations on the input. *)
Ltac decode_inv part :=
  repeat match goal with
  | H : stateReader_version _ _ = Ok _ |- _ =>
      apply (codec_enc (dec := stateReader_version part)) in H as [-> _]
  | H : stateReader_int16 _ _ = Ok _ |- _ =>
      apply (codec_enc (dec := stateReader_int16 part)) in H as [-> ?]
  | H : stateReader_int64 _ _ = Ok _ |- _ =>
      apply (codec_enc (dec := stateReader_int64 part)) in H as [-> ?]
  | H : stateReader_string _ _ = Ok _ |- _ =>
      apply (codec_enc (dec := stateReader_string part)) in H as [-> [? ?]]
  | H : stateReader_empty _ = true |- _ => apply stateReader_empty_true in H as ->
  | H : NewRole _ = Ok _ |- _ => apply NewRole_Ok in H as [-> ?]
  | H : NewMemberID _ = Ok _ |- _ => apply NewMemberID_Ok in H as [-> ?]
  | H : NewFencingToken _ _ = Ok _ |- _ => apply NewFencingToken_Ok in H as (-> & ? & ?)
  | H : bool_decide _ = true |- _ => apply bool_decide_eq_true in H
  end.

(** Run a decoder over the fields of a well-formed value. *)
Ltac decode_run part :=
  repeat first
    [ rewrite (rseq_dec version_bytes (stateReader_version part) (λ _, True) _ tt) by done
    | rewrite (rseq_dec (be_encode 2) (stateReader_int16 part) (inS 16)) by done
    | rewrite (rseq_dec (be_encode 8) (stateReader_int64 part) (inS 64)) by done
    | rewrite (rseq_dec string_bytes (stateReader_string part) text_ok) by auto with record ].

Lemma EncodeKey_fields k :
  key_wf k →
  EncodeKey k = version_bytes tt ++ be_encode 2 (key_Kind k) ++ string_bytes (role_name (key_Role k))
                ++ string_bytes (member_name (key_Member k)) ++ [].
Proof.
  intros [Hr Hk]. unfold EncodeKey, appendInt16.
  destruct Hk as [[Hk Hm]|[Hk Hm]]; rewrite Hk;
    [rewrite decide_True by done | rewrite decide_False by done; rewrite Hm];
    rewrite !appendString_text by auto with record;
    by rewrite ?app_nil_r, <- ?(assoc_L (++)).
Qed.

Lemma NewRole_wf r : role_wf r → NewRole (role_name r) = Ok r.
Proof. intros [H _]. apply NewRole_Ok. by destruct r. Qed.

Lemma NewMemberID_wf m : member_wf m → NewMemberID (member_name m) = Ok m.
Proof. intros [H _]. apply NewMemberID_Ok. by destruct m. Qed.

Lemma NewFencingToken_wf t : token_wf t → NewFencingToken (producerID t) (producerEpoch t) = Ok t.
Proof. intros (? & ? & _). apply NewFencingToken_Ok. by destruct t. Qed.

Lemma DecodeKey_EncodeKey k : key_wf k → DecodeKey (EncodeKey k) = Ok k.
Proof.
  intros H. rewrite EncodeKey_fields by done. destruct k as [kind r m], H as [Hr Hk].
  unfold DecodeKey. cbn [key_Kind key_Role key_Member] in *.
  destruct Hk as [[-> Hm]|[-> ->]]; decode_run keyPart.
  - rewrite decide_False by naive_solver. decode_run keyPart. cbn.
    rewrite NewRole_wf by done. cbn. by rewrite NewMemberID_wf.
  - rewrite decide_False by naive_solver. decode_run keyPart. cbn. by rewrite NewRole_wf.
Qed.

Lemma DecodeKey_inv data k : DecodeKey data = Ok k → key_wf k ∧ data = EncodeKey k.
Proof.
  intros H. unfold DecodeKey in H. reader_inv; unfold wrap_name in *; reader_inv; decode_inv keyPart.
  - apply and_wlog_r; [split; [done|]; by right|]. intros.
    rewrite EncodeKey_fields by done. by destruct x; subst.
  - assert (z = KindRegistration) as -> by (destruct (decide (z = KindRegistration)); naive_solver).
    apply and_wlog_r; [split; [done|]; by left|]. intros.
    rewrite EncodeKey_fields by done. by destruct x.
Qed.

Lemma registration_fields r :
  registration_wf r →
  EncodeRegistration r = version_bytes tt ++ string_bytes (member_name (reg_Member r))
                         ++ be_encode 8 (reg_RegisteredAt r) ++ [].
Proof.
  intros [Hm _]. unfold EncodeRegistration, appendInt16, appendInt64.
  rewrite appendString_text by auto with record. by rewrite ?app_nil_r, <- ?(assoc_L (++)).
Qed.

Lemma DecodeRegistration_Encode r :
  registration_wf r → DecodeRegistration (EncodeRegistration r) = Ok r.
Proof.
  intros H. rewrite registration_fields by done. destruct r as [m at_], H as [Hm Hat].
  unfold DecodeRegistration. cbn [reg_Member reg_RegisteredAt] in *.
  decode_run registrationValuePart. cbn. by rewrite NewMemberID_wf.
Qed.

Lemma DecodeRegistration_inv data r :
  DecodeRegistration data = Ok r → registration_wf r ∧ data = EncodeRegistration r.
Proof.
  intros H. unfold DecodeRegistration in H.
  reader_inv; unfold wrap_name in *; reader_inv; decode_inv registrationValuePart.
  apply and_wlog_r; [done|]. intros. rewrite registration_fields by done. by destruct x.
Qed.

Lemma lease_fields l :
  lease_wf l →
  EncodeLease l = version_bytes tt ++ string_bytes (member_name (lease_Member l))
                  ++ be_encode 8 (producerID (lease_Token l))
                  ++ be_encode 2 (producerEpoch (lease_Token l))
                  ++ be_encode 8 (lease_GrantedAt l) ++ be_encode 8 (lease_Deadline l) ++ [].
Proof.
  intros [Hm _]. unfold EncodeLease, appendInt16, appendInt64.
  rewrite appendString_text by auto with record. by rewrite ?app_nil_r, <- ?(assoc_L (++)).
Qed.

Lemma DecodeLease_Encode l : lease_wf l → DecodeLease (EncodeLease l) = Ok l.
Proof.
  intros H. rewrite lease_fields by done. destruct l as [m t g d], H as (Hm & Ht & Hg & Hd).
  pose proof Ht as (_ & _ & Hi & He).
  unfold DecodeLease. cbn [lease_Member lease_Token lease_GrantedAt lease_Deadline] in *.
  decode_run leaseValuePart. cbn. rewrite NewMemberID_wf by done. cbn.
  by rewrite NewFencingToken_wf.
Qed.

Lemma DecodeLease_inv data l : DecodeLease data = Ok l → lease_wf l ∧ data = EncodeLease l.
Proof.
  intros H. unfold DecodeLease in H.
  reader_inv; unfold wrap_name, wrap_token in *; reader_inv; decode_inv leaseValuePart.
  apply and_wlog_r; [done|]. intros. rewrite lease_fields by done. by destruct x.
Qed.

(** ** What the record layer promises *)

(** C37: the wire format is exact. A decoder accepts precisely the encodings of well-formed values, so
    encoding then decoding gives the value back, no other byte string decodes, and two different keys
    (registrations, leases) never share an encoding. *)
Theorem wire_format_exact data :
  (∀ k, DecodeKey data = Ok k ↔ key_wf k ∧ data = EncodeKey k) ∧
  (∀ r, DecodeRegistration data = Ok r ↔ registration_wf r ∧ data = EncodeRegistration r) ∧
  (∀ l, DecodeLease data = Ok l ↔ lease_wf l ∧ data = EncodeLease l).
Proof.
  split_and!; intros x; (split; [auto using DecodeKey_inv, DecodeRegistration_inv, DecodeLease_inv|]);
    intros [H ->]; auto using DecodeKey_EncodeKey, DecodeRegistration_Encode, DecodeLease_Encode.
Qed.

Lemma Supersedes_lex t o :
  Supersedes t o = true ↔
  producerID o < producerID t ∨ producerID o = producerID t ∧ producerEpoch o < producerEpoch t.
Proof.
  unfold Supersedes, Compare. rewrite Z.ltb_lt.
  pose proof (cmp_Compare_sgn (producerID t) (producerID o)) as H1.
  pose proof (cmp_Compare_sgn (producerEpoch t) (producerEpoch o)) as H2.
  case_decide; lia.
Qed.

Lemma Supersedes_trans t o u : Supersedes t o = true → Supersedes o u = true → Supersedes t u = true.
Proof. rewrite !Supersedes_lex. lia. Qed.
Lemma Supersedes_irrefl t : Supersedes t t ≠ true.
Proof. rewrite Supersedes_lex. lia. Qed.

(** [Supersedes] is a strict total order on tokens, the lexicographic order of the producer id and
    the epoch; [Compare] is zero exactly on equal tokens; and every token that a coordinator can mint
    supersedes [NoEpoch]. *)
Theorem token_order t o u :
  (Supersedes t o = true ↔
     producerID o < producerID t ∨ producerID o = producerID t ∧ producerEpoch o < producerEpoch t) ∧
  (Supersedes t o = true ∨ t = o ∨ Supersedes o t = true) ∧
  ¬ (Supersedes t o = true ∧ Supersedes o t = true) ∧
  (Supersedes t o && Supersedes o u = true → Supersedes t u = true) ∧
  (Compare t o = 0 ↔ t = o) ∧
  (token_wf t → Supersedes t NoEpoch = true).
Proof.
  rewrite andb_true_iff, !Supersedes_lex. destruct t as [i e], o as [i' e'], u as [i'' e'']. cbn.
  split_and!; try lia; try done.
  - destruct (Z.lt_trichotomy i' i) as [|[->|]], (Z.lt_trichotomy e' e) as [|[->|]]; auto; lia.
  - unfold Compare. cbn. pose proof (cmp_Compare_sgn i i'). pose proof (cmp_Compare_sgn e e').
    case_decide; (split; [intros Hc|intros [= -> ->]]); try lia; f_equal; lia.
  - unfold token_wf. cbn. lia.
Qed.

Lemma token_order_witness :
  Supersedes (MkToken 4 2) (MkToken 4 1) && Supersedes (MkToken 4 1) (MkToken 3 9) = true ∧
  Supersedes (MkToken 4 2) (MkToken 3 9) = true ∧ Supersedes (MkToken 0 0) NoEpoch = true.
Proof.
  split; [reflexivity|]. split.
  - destruct (token_order (MkToken 4 2) (MkToken 4 1) (MkToken 3 9)) as (_ & _ & _ & H & _).
    apply H. reflexivity.
  - destruct (token_order (MkToken 0 0) NoEpoch NoEpoch) as (_ & _ & _ & _ & _ & H). apply H. by_decide.
Defined.

Lemma colon_not_digit b : in_range b 48 57 = true → b ≠ colon.
Proof. by intros H ->. Qed.

Lemma FormatInt_no_colon n : 0 ≤ n → colon ∉ FormatInt n.
Proof.
  intros Hn. unfold FormatInt. replace (n <? 0) with false by lia. intros Hin.
  pose proof (digits_Forall n) as Hd. rewrite Forall_forall in Hd.
  by apply (colon_not_digit colon (Hd _ Hin)).
Qed.

Lemma ParseInt_range s bits n : ParseInt s bits = Some n → inS bits n.
Proof. unfold ParseInt. intros H. repeat case_match; simplify_eq; done. Qed.

(** The text form of a token round trips, and [ParseFencingToken] accepts only mintable tokens,
    written as two parts around a single colon: a negative part, a part out of its width and a second
    separator are all rejected. *)
Theorem token_text_roundtrip :
  (∀ t, token_wf t → ParseFencingToken (FencingToken_String t) = Ok t) ∧
  (∀ text t, ParseFencingToken text = Ok t → token_wf t ∧
     ∃ id epoch, Cut text colon = (id, epoch, true) ∧ Contains epoch colon = false).
Proof.
  split.
  - intros t H. pose proof H as (Hi & He & Hri & Hre). unfold ParseFencingToken, FencingToken_String.
    cbn [app]. rewrite Cut_app by (by apply FormatInt_no_colon). unfold Contains.
    rewrite bool_decide_eq_false_2 by (by apply FormatInt_no_colon). cbn [andb negb].
    rewrite !ParseInt_FormatInt by done. rewrite wrapS_id by done. by rewrite NewFencingToken_wf.
  - intros text t. unfold ParseFencingToken. destruct (Cut text colon) as [[id epoch] []]; [|done].
    destruct (Contains epoch colon) eqn:E; [done|]. cbn [andb negb].
    destruct (ParseInt id 64) as [i|] eqn:Hi; [|done]. destruct (ParseInt epoch 16) as [e|] eqn:He; [|done].
    intros H. reader_inv. apply ParseInt_range in Hi, He. rewrite wrapS_id in Heqr by done.
    apply NewFencingToken_Ok in Heqr as (-> & ? & ?). unfold token_wf. cbn. split; [done|].
    by exists id, epoch.
Qed.

(** A string that is not UTF-8 is written out, and its reader stops on it. *)
Lemma string_not_utf8 part s rest :
  zlen s < 2 ^ 15 → utf8_valid s = false →
  stateReader_string part (string_bytes s ++ rest) = Err (MkFormatError part NotUTF8).
Proof.
  intros Hl Hu. pose proof (zlen_nonneg s). unfold stateReader_string, string_bytes.
  rewrite <- (assoc_L (++)), (rseq_dec (be_encode 2) (stateReader_int16 part) (inS 16))
    by (unfold inS; lia).
  replace (zlen s <? 0) with false by lia. unfold rseq, zlen. rewrite Nat2Z.id, take_bytes_app.
  by rewrite Hu.
Qed.

(** A name that the constructors accept and that is not UTF-8 encodes to a key no decoder accepts. *)
Lemma DecodeKey_foreign k :
  key_Kind k = KindRegistration → name_ok MaxRoleLen (role_name (key_Role k)) →
  name_ok MaxMemberIDLen (member_name (key_Member k)) →
  utf8_valid (role_name (key_Role k)) && utf8_valid (member_name (key_Member k)) = false →
  DecodeKey (EncodeKey k) = Err (MkFormatError keyPart NotUTF8).
Proof.
  intros Hk [_ Hr] [_ Hm] Hu. unfold EncodeKey. rewrite decide_True by done. rewrite Hk.
  unfold MaxRoleLen, MaxMemberIDLen in *.
  rewrite !appendString_short by lia. unfold appendInt16. rewrite <- !(assoc_L (++)), app_nil_l.
  unfold DecodeKey. change (be_encode 2 recordVersion) with (version_bytes tt).
  decode_run keyPart. rewrite decide_False by naive_solver.
  destruct (utf8_valid (role_name (key_Role k))) eqn:Hru.
  - rewrite (rseq_dec string_bytes (stateReader_string keyPart) text_ok) by (split; [done|lia]).
    unfold rseq. rewrite <- (app_nil_r (string_bytes _)), string_not_utf8; [done|lia|done].
  - unfold rseq. rewrite string_not_utf8; [done|lia|done].
Qed.
