(* ===== verification/Partition.v ===== *)
(** * The partition of a role

    [coordination/partition.go]: [murmur2], Kafka's key hash, in 32-bit unsigned arithmetic, and
    [RolePartition], which masks the sign bit and takes the remainder. *)

From S2P Require Import Prelude GoStd Record.

Definition DefaultPartitions : Z := 16.

(** ** 32-bit unsigned operations *)

Definition mul32 (x y : Z) : Z := uint32 (x * y).
Definition shl32 (x n : Z) : Z := uint32 (Z.shiftl x n).

(** [binary.LittleEndian.Uint32(data)]: the first four bytes. *)
Definition le_uint32 (data : bytes) : Z := be_decode (reverse (take 4 data)).

Definition seed : Z := 0x9747b28c.
Definition multiplier : Z := 0x5bd1e995.
Definition rotation : Z := 24.

(** One round of the block loop. *)
Definition murmur2_block (data : bytes) (hash : Z) (block : nat) : Z :=
  let chunk := le_uint32 (drop (block * 4) data) in
  let chunk := mul32 chunk multiplier in
  let chunk := Z.lxor chunk (Z.shiftr chunk rotation) in
  let chunk := mul32 chunk multiplier in
  let hash := mul32 hash multiplier in
  Z.lxor hash chunk.

(** The [switch len(tail)]. *)
Definition murmur2_tail (tail : bytes) (hash : Z) : Z :=
  match tail with
  | [b0; b1; b2] =>
      let hash := Z.lxor hash (shl32 (b2z b2) 16) in
      let hash := Z.lxor hash (shl32 (b2z b1) 8) in
      let hash := Z.lxor hash (b2z b0) in
      mul32 hash multiplier
  | [b0; b1] =>
      let hash := Z.lxor hash (shl32 (b2z b1) 8) in
      let hash := Z.lxor hash (b2z b0) in
      mul32 hash multiplier
  | [b0] =>
      let hash := Z.lxor hash (b2z b0) in
      mul32 hash multiplier
  | _ => hash
  end.

Definition murmur2 (data : bytes) : Z :=
  let hash := Z.lxor seed (uint32 (zlen data)) in
  let blocks := (length data / 4)%nat in
  let hash := fold_left (murmur2_block data) (seq 0 blocks) hash in
  let tail := drop (blocks * 4) data in
  let hash := murmur2_tail tail hash in
  let hash := Z.lxor hash (Z.shiftr hash 13) in
  let hash := mul32 hash multiplier in
  let hash := Z.lxor hash (Z.shiftr hash 15) in
  int32 hash.

Inductive partition_error := NoPartitions (partitions : Z).

Definition RolePartition (role : Role) (partitions : Z) : result partition_error Z :=
  check! bool_decide (¬ partitions < 1) else NoPartitions partitions in
  Ok (Z.rem (Z.land (murmur2 (role_name role)) 0x7fffffff) partitions).

(** ** Test vectors of Kafka's own [UtilsTest.testMurmur2] *)

Example murmur2_vectors :
  map (λ s, murmur2 (str s))
    ["21"; "foobar"; "a-little-bit-long-string"; "a-little-bit-longer-string"; "abc"]%string =
  [-973932308; -790332482; -985981536; -1486304829; 479470107].
Proof. vm_compute. reflexivity. Qed.

(** ** The reference definition: four bytes at a time, by structural recursion *)

Definition murmur2_mix (hash chunk : Z) : Z :=
  let chunk := mul32 chunk multiplier in
  let chunk := mul32 (Z.lxor chunk (Z.shiftr chunk rotation)) multiplier in
  Z.lxor (mul32 hash multiplier) chunk.

Fixpoint murmur2_body (data : bytes) (hash : Z) : Z :=
  match data with
  | b0 :: b1 :: b2 :: b3 :: rest =>
      murmur2_body rest
        (murmur2_mix hash (b2z b0 + 256 * (b2z b1 + 256 * (b2z b2 + 256 * b2z b3))))
  | tail => murmur2_tail tail hash
  end.

Definition murmur2_ref (data : bytes) : Z :=
  let hash := murmur2_body data (Z.lxor seed (uint32 (zlen data))) in
  let hash := mul32 (Z.lxor hash (Z.shiftr hash 13)) multiplier in
  int32 (Z.lxor hash (Z.shiftr hash 15)).

Lemma le_uint32_cons b0 b1 b2 b3 rest :
  le_uint32 (b0 :: b1 :: b2 :: b3 :: rest) =
    b2z b0 + 256 * (b2z b1 + 256 * (b2z b2 + 256 * b2z b3)).
Proof.
  unfold le_uint32, be_decode. change (take 4 _) with [b0; b1; b2; b3]. cbn. ring.
Qed.

Lemma murmur2_block_shift b0 b1 b2 b3 rest hash block :
  murmur2_block (b0 :: b1 :: b2 :: b3 :: rest) hash (S block) = murmur2_block rest hash block.
Proof. unfold murmur2_block. by rewrite Nat.mul_succ_l, Nat.add_comm. Qed.

Lemma murmur2_blocks_shift b0 b1 b2 b3 rest n i hash :
  fold_left (murmur2_block (b0 :: b1 :: b2 :: b3 :: rest)) (seq (S i) n) hash =
  fold_left (murmur2_block rest) (seq i n) hash.
Proof.
  revert i hash. induction n as [|n IH]; intros i hash; [done|]. cbn [seq fold_left].
  by rewrite murmur2_block_shift, IH.
Qed.

Lemma list_ind4 {A} (P : list A → Prop) :
  (∀ l, (length l < 4)%nat → P l) →
  (∀ a b c d l, P l → P (a :: b :: c :: d :: l)) → ∀ l, P l.
Proof.
  intros H0 H4 l. remember (length l) as n eqn:E. revert l E.
  induction n as [n IH] using lt_wf_ind; intros l ->.
  destruct l as [|a [|b [|c [|d l]]]]; try (apply H0; cbn; lia).
  apply H4, (IH (length l)); cbn; lia.
Qed.

Lemma murmur2_body_spec data hash :
  murmur2_tail (drop (length data / 4 * 4) data)
    (fold_left (murmur2_block data) (seq 0 (length data / 4)) hash) = murmur2_body data hash.
Proof.
  revert hash. induction data as [data Hl|b0 b1 b2 b3 rest IH] using list_ind4; intros hash.
  - rewrite Nat.div_small by done. rewrite drop_0. cbn [seq fold_left].
    by destruct data as [|? [|? [|? [|]]]]; cbn in Hl; try lia.
  - cbn [length murmur2_body].
    replace (S (S (S (S (length rest)))) / 4)%nat with (S (length rest / 4)).
    2:{ change (S (S (S (S (length rest))))) with (4 + length rest)%nat.
        replace (4 + length rest)%nat with (length rest + 1 * 4)%nat by lia.
        rewrite Nat.div_add by lia. lia. }
    cbn [seq fold_left]. rewrite murmur2_blocks_shift, <- IH.
    unfold murmur2_block at 2. cbn [Nat.mul drop]. rewrite le_uint32_cons. done.
Qed.

(** The block loop of [murmur2], which indexes into the slice, computes the same hash as the
    reference definition that consumes the input four bytes at a time. *)
Theorem murmur2_reference data : murmur2 data = murmur2_ref data.
Proof. unfold murmur2, murmur2_ref. by rewrite murmur2_body_spec. Qed.

Lemma land_mask31 h : Z.land h 0x7fffffff = h mod 2 ^ 31.
Proof. rewrite <- Z.land_ones by lia. done. Qed.

(** [RolePartition] fails exactly for a partition count below one, and otherwise returns a
    partition number of the topic: the hash with its sign bit cleared, modulo the count. *)
Theorem RolePartition_spec role partitions :
  match RolePartition role partitions with
  | Ok p => 1 ≤ partitions ∧ 0 ≤ p < partitions ∧
            p = (murmur2 (role_name role) mod 2 ^ 31) mod partitions
  | Err e => partitions < 1 ∧ e = NoPartitions partitions
  end.
Proof.
  unfold RolePartition. case_bool_decide as H; [|split; [lia|done]].
  rewrite land_mask31. pose proof (Z.mod_pos_bound (murmur2 (role_name role)) (2 ^ 31) ltac:(lia)).
  rewrite Z.rem_mod_nonneg by lia.
  pose proof (Z.mod_pos_bound (murmur2 (role_name role) mod 2 ^ 31) partitions ltac:(lia)). lia.
Qed.

Lemma murmur2_range data : inS 32 (murmur2 data).
Proof. by apply wrapS_range. Qed.

(** The mask and the absolute value agree on exactly one negative hash, so "the two differ for every
    negative hash" holds but for that value. *)
Lemma mask_is_abs h : inS 32 h → h < 0 → (Z.land h 0x7fffffff = Z.abs h ↔ h = - 2 ^ 30).
Proof.
  intros Hr Hn. rewrite land_mask31. unfold inS in Hr.
  change (2 ^ (32 - 1)) with 2147483648 in Hr. change (2 ^ 31) with 2147483648.
  change (2 ^ 30) with 1073741824. Z.to_euclidean_division_equations. lia.
Qed.
