(* ===== verification/Lease.v ===== *)
(** * Lease policy, lease clock and the manual clock

    [coordination/lease.go]. A [time.Duration] is an int64 count of nanoseconds and an instant is an
    int64 count of milliseconds; both are a [Z] here and every operation that can wrap in Go wraps
    here. *)

From S2P Require Import Prelude GoStd Record.

(** ** Durations *)

Definition DefaultLeaseDuration : Duration := 30 * Second.
Definition DefaultRenewInterval : Duration := 10 * Second.
Definition DefaultChallengeStagger : Duration := 5 * Second.
Definition recommendedRenewFraction : Z := 3.

(** ** The policy *)

Record LeaseConfig := MkLeaseConfig {
  duration : Duration;
  renewInterval : Duration;
  challengeStagger : Duration
}.

#[global] Instance LeaseConfig_eq_dec : EqDecision LeaseConfig.
Proof. solve_decision. Defined.

Definition DefaultLeaseConfig : LeaseConfig :=
  MkLeaseConfig DefaultLeaseDuration DefaultRenewInterval DefaultChallengeStagger.

Inductive lease_extent := LeaseDurationExtent | RenewIntervalExtent | ChallengeStaggerExtent.

Inductive lease_config_error :=
| NotPositive (field : lease_extent) (value : Duration)
| RenewNotShorter (renew duration : Duration).

Definition NewLeaseConfig (duration renewInterval challengeStagger : Duration)
    : result lease_config_error LeaseConfig :=
  let extents := [(LeaseDurationExtent, duration); (RenewIntervalExtent, renewInterval);
                  (ChallengeStaggerExtent, challengeStagger)] in
  match List.find (λ extent, extent.2 <=? 0) extents with
  | Some (field, value) => Err (NotPositive field value)
  | None =>
      if duration <=? renewInterval then Err (RenewNotShorter renewInterval duration)
      else Ok (MkLeaseConfig duration renewInterval challengeStagger)
  end.

Definition RenewsWithMargin (c : LeaseConfig) : bool :=
  int64 (renewInterval c * recommendedRenewFraction) <=? duration c.

Definition ChallengeDelay (c : LeaseConfig) (rank : Z) : Duration :=
  if rank <=? 0 then 0
  else if (0 <? challengeStagger c) && (Z.quot MaxInt64 (challengeStagger c) <? rank) then MaxInt64
  else int64 (rank * challengeStagger c).

(** The largest instant; every addition saturates at it. *)
Definition maxMillis : Z := MaxInt64.

Definition addMillis (instant : Z) (extent : Duration) : Z :=
  let millis := Milliseconds extent in
  if (0 <? millis) && (int64 (maxMillis - millis) <? instant) then maxMillis
  else int64 (instant + millis).

Definition Grant (c : LeaseConfig) (member : MemberID) (token : FencingToken) (nowMillis : Z) : Lease :=
  MkLease member token nowMillis (addMillis nowMillis (duration c)).

(** ** The lease clock *)

Record LeaseTiming := MkLeaseTiming { timing_lease : Lease; timing_config : LeaseConfig }.

Definition NewLeaseTiming (lease : Lease) (config : LeaseConfig) : LeaseTiming :=
  MkLeaseTiming lease config.

Definition Timing (c : LeaseConfig) (lease : Lease) : LeaseTiming := MkLeaseTiming lease c.

Definition ExpiresAt (t : LeaseTiming) : Z := lease_Deadline (timing_lease t).

Definition LiveAt (t : LeaseTiming) (nowMillis : Z) : bool :=
  nowMillis <? lease_Deadline (timing_lease t).

Definition RemainingAt (t : LeaseTiming) (nowMillis : Z) : Duration :=
  let left := int64 (lease_Deadline (timing_lease t) - nowMillis) in
  if left <=? 0 then 0 else int64 (left * Millisecond).

Definition RenewAt (t : LeaseTiming) : Z :=
  let renewAt := addMillis (lease_GrantedAt (timing_lease t)) (renewInterval (timing_config t)) in
  Z.min renewAt (lease_Deadline (timing_lease t)).

Definition RenewDueAt (t : LeaseTiming) (nowMillis : Z) : bool := RenewAt t <=? nowMillis.

Definition ChallengeAt (t : LeaseTiming) (rank : Z) : Z :=
  addMillis (lease_Deadline (timing_lease t)) (ChallengeDelay (timing_config t) rank).

(** ** The manual clock *)

(** A wait and the channel it signals. A channel is a number; [fired] holds the values that were sent,
    so a channel received exactly when it occurs there. *)
Record manualWait := MkManualWait { wait_deadline : Z; wait_ready : nat }.

Record ManualClock := MkManualClock {
  clock_nowMillis : Z;
  clock_waits : list manualWait;
  clock_fired : list (nat * Z);
  clock_next : nat
}.

Definition NewManualClock (nowMillis : Z) : ManualClock := MkManualClock nowMillis [] [] 0.

Definition ManualClock_NowMillis (c : ManualClock) : Z := clock_nowMillis c.

Definition ManualClock_After (c : ManualClock) (extent : Duration) : ManualClock * nat :=
  let ready := clock_next c in
  let deadline := addMillis (clock_nowMillis c) extent in
  if deadline <=? clock_nowMillis c then
    (MkManualClock (clock_nowMillis c) (clock_waits c)
       (clock_fired c ++ [(ready, clock_nowMillis c)]) (S ready), ready)
  else
    (MkManualClock (clock_nowMillis c) (clock_waits c ++ [MkManualWait deadline ready])
       (clock_fired c) (S ready), ready).

Definition ManualClock_Set (c : ManualClock) (nowMillis : Z) : ManualClock :=
  let due := filter (λ w, wait_deadline w ≤ nowMillis) (clock_waits c) in
  let kept := filter (λ w, ¬ wait_deadline w ≤ nowMillis) (clock_waits c) in
  MkManualClock nowMillis kept
    (clock_fired c ++ map (λ w, (wait_ready w, nowMillis)) due) (clock_next c).

Definition ManualClock_Advance (c : ManualClock) (step : Duration) : ManualClock :=
  ManualClock_Set c (addMillis (clock_nowMillis c) step).

(** ** Extents, instants and policies the package produces *)

Definition instant_ok (i : Z) : Prop := inS 64 i.

Definition config_wf (c : LeaseConfig) : Prop :=
  0 < duration c ≤ MaxInt64 ∧ 0 < renewInterval c < duration c ∧ 0 < challengeStagger c ≤ MaxInt64.

#[global] Instance config_wf_dec c : Decision (config_wf c).
Proof. unfold config_wf. apply _. Defined.

(** The saturating addition of an extent that is not negative. *)
Lemma addMillis_spec instant extent :
  inS 64 instant → 0 ≤ extent ≤ MaxInt64 →
  addMillis instant extent = Z.min maxMillis (instant + extent / 1000000) ∧
  inS 64 (addMillis instant extent).
Proof.
  intros Hi He. destruct (Milliseconds_bounds extent He) as [Hm <-].
  unfold addMillis, maxMillis. generalize dependent (Milliseconds extent). intros m Hm.
  unfold inS in *. change (2 ^ (64 - 1)) with 9223372036854775808 in *.
  rewrite (wrapS_id 64 (MaxInt64 - m)) by (try done; unfold inS; width_consts; lia).
  destruct (Z.ltb_spec 0 m), (Z.ltb_spec (MaxInt64 - m) instant); cbn [andb];
    try (rewrite wrapS_id by (try done; unfold inS; width_consts; lia)); lia.
Qed.

Lemma addMillis_0 instant : inS 64 instant → addMillis instant 0 = instant.
Proof.
  intros Hi. destruct (addMillis_spec instant 0 Hi ltac:(lia)) as [-> _].
  unfold inS, maxMillis in *. width_consts. change (0 / 1000000) with 0. lia.
Qed.

Lemma addMillis_le instant extent :
  inS 64 instant → 0 ≤ extent ≤ MaxInt64 → instant ≤ addMillis instant extent.
Proof.
  intros Hi He. destruct (addMillis_spec instant extent Hi He) as [-> _].
  unfold inS, maxMillis in *. width_consts.
  pose proof (Z.div_pos extent 1000000 ltac:(lia) ltac:(lia)). lia.
Qed.

Lemma addMillis_mono instant e1 e2 :
  inS 64 instant → 0 ≤ e1 → e1 ≤ e2 → e2 ≤ MaxInt64 → addMillis instant e1 ≤ addMillis instant e2.
Proof.
  intros Hi H1 H2 H3. destruct (addMillis_spec instant e1 Hi) as [-> _]; [lia|].
  destruct (addMillis_spec instant e2 Hi) as [-> _]; [lia|].
  pose proof (Z.div_le_mono e1 e2 1000000 ltac:(lia) H2). lia.
Qed.

Lemma ChallengeDelay_min c rank :
  config_wf c → ChallengeDelay c rank = Z.min MaxInt64 (Z.max 0 rank * challengeStagger c).
Proof.
  intros (_ & _ & Hs). unfold ChallengeDelay. destruct (Z.leb_spec rank 0); [lia|].
  replace (0 <? challengeStagger c) with true by lia. cbn [andb].
  rewrite Z.quot_div_nonneg by lia.
  pose proof (Z.mul_div_le MaxInt64 (challengeStagger c) ltac:(lia)) as Hd.
  pose proof (Z.mul_succ_div_gt MaxInt64 (challengeStagger c) ltac:(lia)) as Hg.
  set (q := MaxInt64 / challengeStagger c) in *. clearbody q.
  destruct (Z.ltb_spec q rank).
  - rewrite Z.min_l; [done|]. nia.
  - rewrite wrapS_id; [|done|unfold inS; width_consts; nia]. rewrite Z.min_r; nia.
Qed.

Lemma ChallengeDelay_range c rank : config_wf c → 0 ≤ ChallengeDelay c rank ≤ MaxInt64.
Proof.
  intros H. rewrite ChallengeDelay_min by done. destruct H as (_ & _ & Hs). nia.
Qed.

Create HintDb lease.
#[export] Hint Resolve ChallengeDelay_range addMillis_le : lease.

(** ** Properties of the policy and of the clock *)

(** [NewLeaseConfig] accepts exactly the three positive extents whose renew interval is shorter
    than the lease duration, and it keeps them unchanged. *)
Theorem NewLeaseConfig_spec d r s c :
  inS 64 d → inS 64 r → inS 64 s →
  NewLeaseConfig d r s = Ok c ↔ c = MkLeaseConfig d r s ∧ config_wf c.
Proof.
  intros Hd Hr Hs. unfold NewLeaseConfig, config_wf. unfold inS in *. width_consts. cbn.
  destruct (Z.leb_spec d 0), (Z.leb_spec r 0), (Z.leb_spec s 0), (Z.leb_spec d r);
    (split; [try done; intros [= <-]; cbn; (split; [done|lia]) | intros [-> Hw]; cbn in Hw; try lia; done]).
Qed.

Lemma NewLeaseConfig_spec_witness : config_wf DefaultLeaseConfig.
Proof.
  apply (NewLeaseConfig_spec (30 * Second) (10 * Second) (5 * Second)); vm_compute; done.
Defined.

(** The delay of a challenger is its rank times the stagger and saturates at the largest int64
    instead of wrapping; rank 0, and a negative rank, waits no extra time. *)
Theorem ChallengeDelay_spec c rank :
  config_wf c →
  ChallengeDelay c rank = Z.min MaxInt64 (Z.max 0 rank * challengeStagger c) ∧
  inS 64 (ChallengeDelay c rank).
Proof.
  intros H. split; [by apply ChallengeDelay_min|].
  pose proof (ChallengeDelay_range c rank H). unfold inS. width_consts. lia.
Qed.

Lemma ChallengeDelay_spec_witness :
  ChallengeDelay DefaultLeaseConfig 3 = 15 * Second ∧
  ChallengeDelay DefaultLeaseConfig (2 ^ 62) = MaxInt64.
Proof.
  split; [destruct (ChallengeDelay_spec DefaultLeaseConfig 3) as [-> _]
         |destruct (ChallengeDelay_spec DefaultLeaseConfig (2 ^ 62)) as [-> _]];
    vm_compute; done || (repeat split; done).
Defined.

(** The clock of a granted lease. The deadline is the grant instant plus the duration,
    saturated. The renewal instant lies between the grant and the deadline. The lease is live exactly
    until the rank 0 challenger challenges, so the two tests leave no gap and no overlap. A later
    rank never challenges earlier. *)
Theorem granted_lease_clock c member token now :
  config_wf c → inS 64 now →
  let lease := Grant c member token now in
  let t := Timing c lease in
  lease_Deadline lease = Z.min maxMillis (now + duration c / 1000000) ∧
  (now ≤ RenewAt t ≤ ExpiresAt t) ∧
  (∀ instant, LiveAt t instant = negb (ChallengeAt t 0 <=? instant)) ∧
  (∀ rank rank', rank ≤ rank' → ExpiresAt t ≤ ChallengeAt t rank ≤ ChallengeAt t rank').
Proof.
  intros Hc Hnow lease t. pose proof Hc as (Hd & Hr & Hs).
  destruct (addMillis_spec now (duration c) Hnow ltac:(lia)) as [Hdl Hdr].
  split_and!; [done|..].
  - unfold RenewAt, ExpiresAt. cbn. pose proof (addMillis_le now (renewInterval c) Hnow ltac:(lia)).
    pose proof (addMillis_le now (duration c) Hnow ltac:(lia)). lia.
  - unfold RenewAt, ExpiresAt. cbn. lia.
  - intros instant. unfold LiveAt, ChallengeAt. cbn -[addMillis].
    destruct (addMillis_spec (addMillis now (duration c)) 0 Hdr ltac:(lia)) as [-> _].
    unfold maxMillis. change (0 / 1000000) with 0. unfold inS in Hdr. width_consts. lia.
  - unfold ExpiresAt, ChallengeAt. intros rank rank' Hle.
    split; [apply addMillis_le; auto with lease|].
    apply addMillis_mono; [done|..]; try by apply ChallengeDelay_range.
    cbn. rewrite !ChallengeDelay_min by done. nia.
Qed.

Lemma granted_lease_clock_witness :
  RenewAt (Timing DefaultLeaseConfig (Grant DefaultLeaseConfig no_member NoEpoch 1000)) ≤ 31000.
Proof.
  destruct (granted_lease_clock DefaultLeaseConfig no_member NoEpoch 1000)
    as (Hd & [_ Hr] & _); [vm_compute; repeat split; done..|].
  exact Hr.
Defined.

(** The strict claim "a holder that follows [RenewAt] always writes before it loses the lease" needs a
    millisecond between the two extents: with sub-millisecond extents the renewal falls due at the
    deadline itself, when the lease is no longer live. *)
Lemma RenewAt_at_deadline :
  ∃ c now, NewLeaseConfig (duration c) (renewInterval c) (challengeStagger c) = Ok c ∧
    let t := Timing c (Grant c no_member NoEpoch now) in LiveAt t (RenewAt t) = false.
Proof. exists (MkLeaseConfig 1900000 1500000 1), 1000. vm_compute. done. Qed.

(** The margin test multiplies the renew interval in int64 arithmetic. For an interval above a
    third of the int64 range the product wraps, and the test can report a margin that is not there;
    below that bound it is exactly "three renewals fit in the lease". *)
Theorem RenewsWithMargin_wraps :
  (∀ c, config_wf c → renewInterval c ≤ MaxInt64 / 3 →
    RenewsWithMargin c = bool_decide (3 * renewInterval c ≤ duration c)) ∧
  (∃ c, NewLeaseConfig (duration c) (renewInterval c) (challengeStagger c) = Ok c ∧
    RenewsWithMargin c = true ∧ ¬ 3 * renewInterval c ≤ duration c).
Proof.
  split.
  - intros c (Hd & Hr & Hs) Hb. unfold RenewsWithMargin, recommendedRenewFraction.
    rewrite wrapS_id by (try done; unfold inS; width_consts; Z.to_euclidean_division_equations; lia).
    rewrite Z.mul_comm. case_bool_decide; lia.
  - exists (MkLeaseConfig MaxInt64 4611686018427387904 1). vm_compute. split_and!; done || (intros H; by apply H).
Qed.

Lemma RenewsWithMargin_wraps_witness : RenewsWithMargin DefaultLeaseConfig = true.
Proof.
  rewrite (proj1 RenewsWithMargin_wraps DefaultLeaseConfig); vm_compute; repeat split; done.
Defined.

(** The remaining extent is the distance to the deadline, and zero from the deadline on, as long
    as that distance is an int64 count of nanoseconds; past that bound the conversion wraps, and a
    deadline saturated at the end of the line reports a negative extent. *)
Theorem RemainingAt_spec t now :
  inS 64 (ExpiresAt t) → inS 64 now → (ExpiresAt t - now) * 1000000 ≤ MaxInt64 →
  MinInt64 ≤ ExpiresAt t - now →
  RemainingAt t now = Z.max 0 (ExpiresAt t - now) * 1000000.
Proof.
  unfold RemainingAt, ExpiresAt, Millisecond. intros Hd Hn Hm Hl.
  rewrite (wrapS_id 64 (_ - _)) by (try done; unfold inS; width_consts; lia).
  destruct (Z.leb_spec (lease_Deadline (timing_lease t) - now) 0); [lia|].
  rewrite wrapS_id by (try done; unfold inS; width_consts; lia). lia.
Qed.

Lemma RemainingAt_spec_witness :
  RemainingAt (Timing DefaultLeaseConfig (Grant DefaultLeaseConfig no_member NoEpoch 1000)) 21000
    = 10 * Second.
Proof. rewrite RemainingAt_spec; vm_compute; done || (split; done). Defined.

Lemma RemainingAt_wraps :
  ∃ t now, inS 64 (ExpiresAt t) ∧ inS 64 now ∧ now < ExpiresAt t ∧ RemainingAt t now < 0.
Proof.
  exists (MkLeaseTiming (MkLease no_member NoEpoch 0 MaxInt64) DefaultLeaseConfig), 0.
  vm_compute. repeat split; done.
Qed.

(** ** The manual clock as a step relation *)

Inductive clock_step : ManualClock → ManualClock → Prop :=
| step_After c extent : clock_step c (ManualClock_After c extent).1
| step_Set c nowMillis : clock_step c (ManualClock_Set c nowMillis)
| step_Advance c step : clock_step c (ManualClock_Advance c step).

(** Every channel handed out is pending or has fired, once; a pending wait is not due. *)
Definition clock_inv (c : ManualClock) : Prop :=
  map wait_ready (clock_waits c) ++ (clock_fired c).*1 ≡ₚ seq 0 (clock_next c) ∧
  Forall (λ w, clock_nowMillis c < wait_deadline w) (clock_waits c).

Lemma clock_inv_Set c now : clock_inv c → clock_inv (ManualClock_Set c now).
Proof.
  intros [Hp Hd]. unfold clock_inv, ManualClock_Set. cbn. split.
  - rewrite <- Hp, fmap_app. change ((map ?f ?l).*1) with (fst <$> (f <$> l)).
    rewrite <- list_fmap_compose. rewrite (assoc_L (++)), (comm (++) _ (clock_fired c).*1).
    rewrite (comm (++) _ (clock_fired c).*1), <- (assoc_L (++)). f_equiv.
    change (map wait_ready ?l) with (wait_ready <$> l).
    change (fst ∘ _) with wait_ready. rewrite (comm (++)), <- fmap_app.
    by rewrite filter_app_complement.
  - apply Forall_forall. intros w [Hw _]%list_elem_of_filter. lia.
Qed.

Lemma clock_inv_After c extent : clock_inv c → clock_inv (ManualClock_After c extent).1.
Proof.
  intros [Hp Hd]. unfold clock_inv, ManualClock_After.
  destruct (Z.leb_spec (addMillis (clock_nowMillis c) extent) (clock_nowMillis c)); cbn -[seq].
  - split; [|done]. rewrite seq_S, fmap_app, (assoc_L (++)), Hp. done.
  - split.
    + rewrite seq_S, <- Hp, map_app. cbn. rewrite <- !(assoc_L (++)). f_equiv. by rewrite (comm (++)).
    + apply Forall_app. split; [done|]. by repeat constructor.
Qed.

(** In every clock a test can reach from a fresh one, each channel that [After] handed out is
    either pending or has received, exactly once, and no pending wait is due. *)
Theorem ManualClock_reachable start c :
  rtc clock_step (NewManualClock start) c →
  map wait_ready (clock_waits c) ++ (clock_fired c).*1 ≡ₚ seq 0 (clock_next c) ∧
  Forall (λ w, clock_nowMillis c < wait_deadline w) (clock_waits c).
Proof.
  assert (∀ a b, rtc clock_step a b → clock_inv a → clock_inv b) as H.
  { induction 1 as [|a b d Hs _ IH]; [done|]. intros Ha. apply IH.
    destruct Hs; auto using clock_inv_Set, clock_inv_After. by apply clock_inv_Set. }
  intros Hr. apply (H _ _ Hr). by split.
Qed.

Lemma ManualClock_reachable_witness :
  let c := ManualClock_Set (ManualClock_After (NewManualClock 100) (5 * Millisecond)).1 90 in
  Forall (λ w, clock_nowMillis c < wait_deadline w) (clock_waits c).
Proof.
  apply (ManualClock_reachable 100).
  eapply rtc_l; [apply step_After|]. eapply rtc_l; [apply step_Set|]. apply rtc_refl.
Defined.
