(* ===== verification/Succession.v ===== *)
(** * Roster, rank and challenge decision of a role

    [coordination/succession.go]: the fold of the coordination partition into a [RoleState], the
    succession rank, and [Evaluate]. The member map of the builder is a [gmap]; Go's map iteration in
    [Build] is followed by a sort on the offset, here [merge_sort], whose result is the same for every
    iteration order when the offsets of a partition are distinct (see [roster_unique]). *)

From S2P Require Import Prelude GoStd Record Lease.

(** ** The role state *)

Record RosterEntry := MkRosterEntry {
  entry_Member : MemberID;
  entry_Offset : Z;
  entry_RegisteredAt : Z
}.

Record RoleState := MkRoleState { Roster : list RosterEntry; state_Lease : option Lease }.

#[global] Instance RosterEntry_eq_dec : EqDecision RosterEntry.
Proof. solve_decision. Defined.
#[global] Instance RoleState_eq_dec : EqDecision RoleState.
Proof. solve_decision. Defined.

Definition Holder (s : RoleState) : option MemberID := lease_Member <$> state_Lease s.

Definition Entry (s : RoleState) (member : MemberID) : option RosterEntry :=
  List.find (λ entry, bool_decide (entry_Member entry = member)) (Roster s).

(** The loop of [RankOf]: it counts the entries in front of the member and skips the holder. *)
Fixpoint rank_loop (roster : list RosterEntry) (holder : option MemberID) (member : MemberID)
    (rank : Z) : option Z :=
  match roster with
  | [] => None
  | entry :: roster =>
      if bool_decide (holder = Some (entry_Member entry)) then rank_loop roster holder member rank
      else if bool_decide (entry_Member entry = member) then Some rank
      else rank_loop roster holder member (rank + 1)
  end.

Definition RankOf (s : RoleState) (member : MemberID) : option Z :=
  match Entry s member with
  | None => None
  | Some _ =>
      if bool_decide (Holder s = Some member) then Some 0
      else rank_loop (Roster s) (Holder s) member 0
  end.

(** ** The fold *)

Record StateRecord := MkStateRecord { rec_Offset : Z; rec_Key : bytes; rec_Value : bytes }.

Record memberSlot := MkMemberSlot {
  slot_offset : Z;
  slot_registeredAt : Z;
  slot_registered : bool
}.

Record leaseSlot := MkLeaseSlot { lslot_offset : Z; lslot_lease : option Lease }.

Record RoleStateBuilder := MkBuilder {
  builder_role : Role;
  builder_members : gmap MemberID memberSlot;
  builder_lease : option leaseSlot
}.

Definition NewRoleStateBuilder (role : Role) : RoleStateBuilder := MkBuilder role ∅ None.

(** What [Apply] reports: the part that did not decode, and the offset of the record. *)
Inductive apply_error :=
| KeyFault (offset : Z) (e : FormatError)
| RegistrationFault (offset : Z) (e : FormatError)
| LeaseFault (offset : Z) (e : FormatError).

Definition putMember (b : RoleStateBuilder) (offset : Z) (member : MemberID) (slot : memberSlot)
    : RoleStateBuilder :=
  match builder_members b !! member with
  | Some held =>
      if offset <=? slot_offset held then b
      else MkBuilder (builder_role b) (<[member := slot]> (builder_members b)) (builder_lease b)
  | None => MkBuilder (builder_role b) (<[member := slot]> (builder_members b)) (builder_lease b)
  end.

Definition putLease (b : RoleStateBuilder) (offset : Z) (lease : option Lease) : RoleStateBuilder :=
  match builder_lease b with
  | Some held =>
      if offset <=? lslot_offset held then b
      else MkBuilder (builder_role b) (builder_members b) (Some (MkLeaseSlot offset lease))
  | None => MkBuilder (builder_role b) (builder_members b) (Some (MkLeaseSlot offset lease))
  end.

Definition Apply (b : RoleStateBuilder) (record : StateRecord) : result apply_error RoleStateBuilder :=
  let* key := rmap_err (KeyFault (rec_Offset record)) (DecodeKey (rec_Key record)) in
  if decide (key_Role key ≠ builder_role b) then Ok b else
  let tombstone := IsTombstone (rec_Value record) in
  if decide (key_Kind key = KindRegistration) then
    if tombstone : bool then
      Ok (putMember b (rec_Offset record) (key_Member key) (MkMemberSlot (rec_Offset record) 0 false))
    else
      let* registration :=
        rmap_err (RegistrationFault (rec_Offset record)) (DecodeRegistration (rec_Value record)) in
      Ok (putMember b (rec_Offset record) (key_Member key)
            (MkMemberSlot (rec_Offset record) (reg_RegisteredAt registration) true))
  else if decide (key_Kind key = KindLease) then
    if tombstone : bool then Ok (putLease b (rec_Offset record) None)
    else
      let* lease := rmap_err (LeaseFault (rec_Offset record)) (DecodeLease (rec_Value record)) in
      Ok (putLease b (rec_Offset record) (Some lease))
  else Ok b.

(** [cmp.Compare(left.Offset, right.Offset)] as the order of the sort. *)
Definition offset_le (left right : RosterEntry) : Prop := entry_Offset left ≤ entry_Offset right.

#[global] Instance offset_le_dec : RelDecision offset_le.
Proof. intros x y. unfold offset_le. apply _. Defined.

Definition roster_entry (p : MemberID * memberSlot) : option RosterEntry :=
  if slot_registered p.2
  then Some (MkRosterEntry p.1 (slot_offset p.2) (slot_registeredAt p.2)) else None.

Definition Build (b : RoleStateBuilder) : RoleState :=
  let roster := omap roster_entry (map_to_list (builder_members b)) in
  MkRoleState (merge_sort offset_le roster) (builder_lease b ≫= lslot_lease).

Fixpoint Apply_all (b : RoleStateBuilder) (records : list StateRecord)
    : result apply_error RoleStateBuilder :=
  match records with
  | [] => Ok b
  | record :: records => let* b := Apply b record in Apply_all b records
  end.

Definition BuildRoleState (role : Role) (records : list StateRecord) : result apply_error RoleState :=
  let* b := Apply_all (NewRoleStateBuilder role) records in Ok (Build b).

(** ** The decision *)

Inductive Action := ActionNotRegistered | ActionHold | ActionChallenge | ActionWait.

#[global] Instance Action_eq_dec : EqDecision Action.
Proof. solve_decision. Defined.

Record RoleDecision := MkDecision { dec_Action : Action; dec_WaitUntil : Z }.

(** The tail of [Evaluate] once the challenge instant is known. *)
Definition decide_at (nowMillis challengeAt : Z) : RoleDecision :=
  if challengeAt <=? nowMillis then MkDecision ActionChallenge 0
  else MkDecision ActionWait challengeAt.

Definition Evaluate (state : RoleState) (member : MemberID) (nowMillis : Z) (config : LeaseConfig)
    : RoleDecision :=
  match Entry state member, RankOf state member with
  | Some entry, Some rank =>
      match state_Lease state with
      | Some lease =>
          let timing := Timing config lease in
          if bool_decide (lease_Member lease = member) && LiveAt timing nowMillis
          then MkDecision ActionHold 0
          else decide_at nowMillis (ChallengeAt timing rank)
      | None =>
          decide_at nowMillis (addMillis (entry_RegisteredAt entry) (ChallengeDelay config rank))
      end
  | _, _ => MkDecision ActionNotRegistered 0
  end.

(** ** The fold as a sequence of puts *)

(** One effective record of a role: a member slot or a lease slot, with the key it is filed under.
    The lease has one key, [None]. *)
Inductive event :=
| PutMember (member : MemberID) (slot : memberSlot)
| PutLease (slot : leaseSlot).

Definition ev_key (e : event) : option MemberID :=
  match e with PutMember m _ => Some m | PutLease _ => None end.

Definition ev_offset (e : event) : Z :=
  match e with PutMember _ s => slot_offset s | PutLease s => lslot_offset s end.

(** The event of a record, or [None] for a record of another role. *)
Definition record_event (role : Role) (record : StateRecord) : result apply_error (option event) :=
  let* key := rmap_err (KeyFault (rec_Offset record)) (DecodeKey (rec_Key record)) in
  if decide (key_Role key ≠ role) then Ok None else
  let off := rec_Offset record in
  if decide (key_Kind key = KindRegistration) then
    if IsTombstone (rec_Value record) then Ok (Some (PutMember (key_Member key) (MkMemberSlot off 0 false)))
    else
      let* r := rmap_err (RegistrationFault off) (DecodeRegistration (rec_Value record)) in
      Ok (Some (PutMember (key_Member key) (MkMemberSlot off (reg_RegisteredAt r) true)))
  else if IsTombstone (rec_Value record) then Ok (Some (PutLease (MkLeaseSlot off None)))
  else
    let* l := rmap_err (LeaseFault off) (DecodeLease (rec_Value record)) in
    Ok (Some (PutLease (MkLeaseSlot off (Some l)))).

Definition apply_event (b : RoleStateBuilder) (e : event) : RoleStateBuilder :=
  match e with
  | PutMember m s => putMember b (slot_offset s) m s
  | PutLease s => putLease b (lslot_offset s) (lslot_lease s)
  end.

Definition apply_opt (b : RoleStateBuilder) (e : option event) : RoleStateBuilder :=
  match e with Some e => apply_event b e | None => b end.

(** What the builder holds under a key. *)
Definition held (b : RoleStateBuilder) (k : option MemberID) : option event :=
  match k with
  | Some m => PutMember m <$> builder_members b !! m
  | None => PutLease <$> builder_lease b
  end.

Lemma apply_event_role b e : builder_role (apply_event b e) = builder_role b.
Proof. destruct e; cbn; unfold putMember, putLease; repeat case_match; done. Qed.

Lemma Apply_event b record :
  Apply b record =
    (let* e := record_event (builder_role b) record in Ok (apply_opt b e)).
Proof.
  unfold Apply, record_event. destruct (DecodeKey (rec_Key record)) as [key|] eqn:E; cbn; [|done].
  apply DecodeKey_inv in E as [[_ Hk] _]. case_decide; [done|].
  destruct Hk as [[Hk _]|[Hk _]]; rewrite Hk; cbn;
    (destruct (IsTombstone _); [done|]);
    [destruct (DecodeRegistration _)|destruct (DecodeLease _)]; done.
Qed.

(** Holding the newest event of every key. *)
Lemma held_apply_event b e k :
  held (apply_event b e) k =
    if decide (k = ev_key e) then
      match held b k with
      | Some e' => if ev_offset e <=? ev_offset e' then Some e' else Some e
      | None => Some e
      end
    else held b k.
Proof.
  destruct e as [m s|s]; cbn [apply_event ev_key ev_offset]; unfold putMember, putLease.
  - case_decide as Hk; subst; cbn [held].
    + destruct (builder_members b !! m) as [s'|] eqn:E; cbn.
      * case_match; cbn; [by rewrite E|by rewrite lookup_insert_eq].
      * by rewrite lookup_insert_eq.
    + destruct k as [m'|]; cbn; [|repeat case_match; done].
      repeat case_match; cbn; rewrite ?lookup_insert_ne by congruence; done.
  - case_decide as Hk; subst; cbn [held].
    + destruct (builder_lease b) as [s'|] eqn:E; cbn; destruct s; [|done].
      case_match; cbn; [by rewrite E|done].
    + destruct k as [m'|]; cbn; [|done]. repeat case_match; done.
Qed.

(** The events of a run, in order. *)
Fixpoint record_events (role : Role) (records : list StateRecord)
    : result apply_error (list event) :=
  match records with
  | [] => Ok []
  | record :: records =>
      let* e := record_event role record in
      let* es := record_events role records in
      Ok (option_list e ++ es)
  end.

Lemma Apply_all_events b records :
  Apply_all b records =
    (let* es := record_events (builder_role b) records in Ok (fold_left apply_event es b)).
Proof.
  revert b. induction records as [|r records IH]; intros b; [done|]. cbn [Apply_all record_events].
  rewrite Apply_event. destruct (record_event (builder_role b) r) as [[e|]|]; cbn; [|..|done];
    rewrite IH; rewrite ?apply_event_role; by destruct (record_events _ _).
Qed.

Lemma record_event_offset role r e : record_event role r = Ok (Some e) → ev_offset e = rec_Offset r.
Proof.
  unfold record_event. intros H. reader_inv; done.
Qed.

Definition newest_event (es : list event) (e : event) : Prop :=
  e ∈ es ∧ ∀ e', e' ∈ es → ev_key e' = ev_key e → ev_offset e' ≤ ev_offset e.

Lemma held_fold_inv es b k :
  (∀ k, held b k = None) →
  match held (fold_left apply_event es b) k with
  | Some e => newest_event es e ∧ ev_key e = k
  | None => ∀ e, e ∈ es → ev_key e ≠ k
  end.
Proof.
  intros Hb. induction es as [|e0 es IH] using rev_ind.
  { cbn. rewrite Hb. intros e []%not_elem_of_nil. }
  rewrite fold_left_app. cbn [fold_left]. rewrite held_apply_event. unfold newest_event in *.
  case_decide as Hk.
  - destruct (held (fold_left apply_event es b) k) as [e1|].
    + destruct IH as [[H1 H2] H3].
      destruct (Z.leb_spec (ev_offset e0) (ev_offset e1)); (split; [split|congruence]);
        try (apply elem_of_app; set_solver); intros e' [He'|He']%elem_of_app Hkey.
      * by apply H2.
      * apply list_elem_of_singleton in He' as ->. lia.
      * assert (ev_offset e' ≤ ev_offset e1) by (apply H2; congruence). lia.
      * apply list_elem_of_singleton in He' as ->. lia.
    + split; [split|done]; [apply elem_of_app; set_solver|].
      intros e' [He'|He']%elem_of_app Hkey; [by destruct (IH e' He'); congruence|].
      apply list_elem_of_singleton in He' as ->. lia.
  - destruct (held (fold_left apply_event es b) k) as [e1|].
    + destruct IH as [[H1 H2] H3]. split; [split|done]; [apply elem_of_app; by left|].
      intros e' [He'|He']%elem_of_app Hkey; [by apply H2|].
      apply list_elem_of_singleton in He' as ->. congruence.
    + intros e' [He'|He']%elem_of_app; [by apply IH|].
      apply list_elem_of_singleton in He' as ->. congruence.
Qed.

Lemma held_fold es b k e :
  NoDup (map ev_offset es) → (∀ k, held b k = None) →
  held (fold_left apply_event es b) k = Some e ↔ newest_event es e ∧ ev_key e = k.
Proof.
  intros Hd Hb. pose proof (held_fold_inv es b k Hb) as H.
  destruct (held (fold_left apply_event es b) k) as [e1|].
  - destruct H as [[H1 H2] H3]. split; [intros [= <-]; done|].
    intros [[H4 H5] H6]. f_equal. apply (NoDup_map_inj ev_offset es); auto.
    apply Z.le_antisymm; [apply H5|apply H2]; auto; congruence.
  - split; [done|]. intros [[H4 H5] H6]. by destruct (H e).
Qed.

(** ** From events back to records *)

(** The newest record of its key, which is what log compaction keeps. *)
Definition newest (records : list StateRecord) (r : StateRecord) : Prop :=
  r ∈ records ∧ ∀ r', r' ∈ records → rec_Key r' = rec_Key r → rec_Offset r' ≤ rec_Offset r.

(** The offsets of one partition are distinct. *)
Definition offsets_distinct (records : list StateRecord) : Prop := NoDup (map rec_Offset records).

Definition event_state_key (role : Role) (k : option MemberID) : Key :=
  match k with Some m => RegistrationKey role m | None => LeaseKey role end.

Lemma record_event_key role r e :
  record_event role r = Ok (Some e) → DecodeKey (rec_Key r) = Ok (event_state_key role (ev_key e)).
Proof.
  unfold record_event. intros H. destruct (DecodeKey (rec_Key r)) as [key|] eqn:E; cbn in H; [|done].
  pose proof E as [[_ Hk] _]%DecodeKey_inv. f_equal. case_decide as Hrole; [done|].
  destruct key as [kind kr km]. cbn in *. subst kr.
  destruct Hk as [[-> _]|[-> ->]]; cbn in H; reader_inv; done.
Qed.

Lemma record_events_Ok role records es :
  record_events role records = Ok es →
  (∀ r, r ∈ records → ∃ o, record_event role r = Ok o ∧ ∀ e, o = Some e → e ∈ es) ∧
  (∀ e, e ∈ es → ∃ r, r ∈ records ∧ record_event role r = Ok (Some e)).
Proof.
  revert es. induction records as [|r records IH]; cbn [record_events]; intros es H; reader_inv.
  { split; [by intros ? ?%not_elem_of_nil|by intros ? ?%not_elem_of_nil]. }
  destruct (IH _ H0) as [IH1 IH2]. split.
  - intros r' [->|Hr']%elem_of_cons.
    + eexists. split; [done|]. intros e ->. cbn. set_solver.
    + destruct (IH1 r' Hr') as (o & Ho & Hin). exists o. split; [done|].
      intros e He. apply elem_of_app. auto.
  - intros e [He|He]%elem_of_app.
    + exists r. split; [set_solver|]. destruct x as [e'|]; cbn in He; [|set_solver].
      apply list_elem_of_singleton in He as ->. done.
    + destruct (IH2 e He) as (r' & ? & ?). exists r'. set_solver.
Qed.

Lemma record_events_offsets role records es :
  record_events role records = Ok es → map ev_offset es `sublist_of` map rec_Offset records.
Proof.
  revert es. induction records as [|r records IH]; cbn [record_events]; intros es H; reader_inv; [done|].
  destruct x as [e|]; cbn.
  - rewrite (record_event_offset _ _ _ H). by apply sublist_skip, IH.
  - by apply sublist_cons, IH.
Qed.

Lemma record_events_is_ok role records :
  (∀ r, r ∈ records → ∃ o, record_event role r = Ok o) → ∃ es, record_events role records = Ok es.
Proof.
  induction records as [|r records IH]; intros H; [by exists []|].
  destruct (H r) as [o Ho]; [set_solver|]. destruct IH as [es Hes]; [set_solver|].
  cbn. rewrite Ho. cbn. rewrite Hes. cbn. eauto.
Qed.

Lemma newest_exists records r :
  r ∈ records → ∃ r', newest records r' ∧ rec_Key r' = rec_Key r.
Proof.
  intros Hr. destruct (list_argmax rec_Offset (filter (λ r', rec_Key r' = rec_Key r) records))
    as (x & [Hk Hx]%list_elem_of_filter & Hm).
  { apply (elem_of_not_nil r). by apply list_elem_of_filter. }
  exists x. split; [split; [done|]|done]. intros r' Hr' Hk'. apply Hm, list_elem_of_filter.
  split; [congruence|done].
Qed.

(** The newest event of a key comes from the newest record of that key. *)
Lemma newest_event_record role records es e :
  offsets_distinct records → record_events role records = Ok es →
  newest_event es e ↔ ∃ r, newest records r ∧ record_event role r = Ok (Some e).
Proof.
  intros Hd Hes. destruct (record_events_Ok _ _ _ Hes) as [H1 H2].
  assert (∀ r1 r2 e1 e2, record_event role r1 = Ok (Some e1) → record_event role r2 = Ok (Some e2) →
    rec_Key r1 = rec_Key r2 ↔ ev_key e1 = ev_key e2) as Hkey.
  { intros r1 r2 e1 e2 Hr1 Hr2. pose proof (record_event_key _ _ _ Hr1) as K1.
    pose proof (record_event_key _ _ _ Hr2) as K2. split; intros Hk.
    - rewrite Hk, K2 in K1. injection K1 as K1. by destruct (ev_key e1), (ev_key e2); simplify_eq/=.
    - apply DecodeKey_inv in K1 as [_ ->], K2 as [_ ->]. by rewrite Hk. }
  split.
  - intros [He Hmax]. destruct (H2 e He) as (r & Hr & Hre). exists r. split; [split; [done|]|done].
    intros r' Hr' Hk. destruct (H1 r' Hr') as (o & Ho & Hin).
    assert (∃ e', o = Some e') as [e' ->].
    { destruct o as [e'|]; [by eauto|]. pose proof (record_event_key _ _ _ Hre) as K.
      rewrite <- Hk in K. unfold record_event in Ho. rewrite K in Ho. cbn in Ho.
      rewrite decide_False in Ho by (destruct (ev_key e); naive_solver). reader_inv. }
    rewrite <- (record_event_offset _ _ _ Ho), <- (record_event_offset _ _ _ Hre).
    apply Hmax; [by apply Hin|]. by apply (Hkey r' r).
  - intros (r & [Hr Hmax] & Hre). destruct (H1 r Hr) as (o & Ho & Hin).
    assert (o = Some e) as -> by congruence. split; [by apply Hin|]. intros e' He' Hk.
    destruct (H2 e' He') as (r' & Hr' & Hre').
    rewrite (record_event_offset _ _ _ Hre), (record_event_offset _ _ _ Hre').
    apply Hmax; [done|]. by apply (Hkey r' r e' e).
Qed.

Lemma held_ext b b' :
  builder_role b = builder_role b' → (∀ k, held b k = held b' k) → b = b'.
Proof.
  destruct b as [r ms l], b' as [r' ms' l']. cbn. intros -> H. f_equal.
  - apply map_eq. intros m. specialize (H (Some m)). cbn in H.
    destruct (ms !! m), (ms' !! m); simplify_eq/=; done.
  - specialize (H None). cbn in H. by destruct l as [[]|], l' as [[]|]; simplify_eq/=.
Qed.

Lemma fold_role es b : builder_role (fold_left apply_event es b) = builder_role b.
Proof.
  revert b. induction es as [|e es IH]; intros b; [done|]. cbn. by rewrite IH, apply_event_role.
Qed.

Lemma held_new role k : held (NewRoleStateBuilder role) k = None.
Proof. destruct k; [cbn; by rewrite lookup_empty|done]. Qed.

(** The builder after a run, key by key. *)
Lemma Apply_all_held role records b k e :
  offsets_distinct records → Apply_all (NewRoleStateBuilder role) records = Ok b →
  held b k = Some e ↔ (∃ r, newest records r ∧ record_event role r = Ok (Some e)) ∧ ev_key e = k.
Proof.
  intros Hd H. rewrite Apply_all_events in H. reader_inv. cbn in H.
  rewrite held_fold; [by rewrite newest_event_record|..|apply held_new].
  eapply sublist_NoDup; [done|by eapply record_events_offsets].
Qed.

Lemma BuildRoleState_Ok role records s :
  BuildRoleState role records = Ok s ↔
  ∃ b, Apply_all (NewRoleStateBuilder role) records = Ok b ∧ s = Build b.
Proof. unfold BuildRoleState. rewrite rbind_Ok. naive_solver. Qed.

(** ** The fold depends on the newest record of every key only *)

(** [records'] is [records] in another order, or compacted: it holds nothing else, and it keeps the
    newest record of every key. *)
Definition compacted (records records' : list StateRecord) : Prop :=
  records' ⊆ records ∧ offsets_distinct records' ∧ ∀ r, newest records r → r ∈ records'.

Lemma newest_compacted records records' r :
  offsets_distinct records → compacted records records' → newest records r ↔ newest records' r.
Proof.
  intros Hd (Hsub & _ & Hnew). split.
  - intros H. split; [by apply Hnew|]. intros r' Hr'. apply H. by apply Hsub.
  - intros [Hr Hmax]. split; [by apply Hsub|].
    destruct (newest_exists records r) as (r' & Hr' & Hk); [by apply Hsub|].
    assert (rec_Offset r' ≤ rec_Offset r) as Hle by (apply Hmax; auto).
    assert (rec_Offset r ≤ rec_Offset r') as Hge by (apply Hr'; auto).
    assert (r' = r) as -> by (apply (NoDup_map_inj rec_Offset records); [done|apply Hr'|auto|lia]).
    apply Hr'.
Qed.

Lemma Apply_all_compacted role records records' b :
  offsets_distinct records → compacted records records' →
  Apply_all (NewRoleStateBuilder role) records = Ok b →
  Apply_all (NewRoleStateBuilder role) records' = Ok b.
Proof.
  intros Hd Hc H. pose proof Hc as (Hsub & Hd' & _).
  assert (∃ b', Apply_all (NewRoleStateBuilder role) records' = Ok b') as [b' Hb'].
  { rewrite Apply_all_events in H. reader_inv. apply record_events_Ok in H as [H _].
    destruct (record_events_is_ok role records') as [es Hes].
    { intros r Hr. destruct (H r) as (o & ? & _); eauto. }
    rewrite Apply_all_events. cbn. rewrite Hes. by eexists. }
  rewrite Hb'. f_equal. apply held_ext.
  - rewrite Apply_all_events in H, Hb'. reader_inv. by rewrite !fold_role.
  - intros k. apply option_eq. intros e.
    rewrite (Apply_all_held role records' b'), (Apply_all_held role records b) by done.
    by setoid_rewrite (newest_compacted records records' _ Hd Hc).
Qed.

(** C36: the fold gives the same role state for any order of the records, and for any compaction of
    the log that keeps the newest record of every key. *)
Theorem BuildRoleState_compaction role records records' s :
  offsets_distinct records → compacted records records' →
  BuildRoleState role records = Ok s → BuildRoleState role records' = Ok s.
Proof.
  intros Hd Hc (b & Hb & ->)%BuildRoleState_Ok. apply BuildRoleState_Ok. exists b.
  split; [|done]. by eapply Apply_all_compacted.
Qed.

(** ** The roster *)

#[global] Instance offset_le_total : Total offset_le.
Proof. intros x y. unfold offset_le. lia. Qed.
#[global] Instance offset_le_trans : Transitive offset_le.
Proof. intros x y z. unfold offset_le. lia. Qed.

Lemma roster_elem b e :
  e ∈ Roster (Build b) ↔
  builder_members b !! entry_Member e = Some (MkMemberSlot (entry_Offset e) (entry_RegisteredAt e) true).
Proof.
  unfold Build. cbn. rewrite merge_sort_Permutation, list_elem_of_omap. split.
  - intros ([m [o a r]] & Hin%elem_of_map_to_list & He). unfold roster_entry in He.
    destruct r; simplify_eq/=. done.
  - intros H. eexists. split; [by apply elem_of_map_to_list|]. by destruct e.
Qed.

Lemma roster_NoDup b : NoDup (map entry_Member (Roster (Build b))).
Proof.
  unfold Build. cbn. change (map ?f ?l) with (f <$> l). rewrite merge_sort_Permutation.
  pose proof (NoDup_fst_map_to_list (builder_members b)) as H. revert H.
  induction (map_to_list (builder_members b)) as [|[m sl] l IH]; cbn; [constructor|].
  intros [Hm Hl]%NoDup_cons. unfold roster_entry at 1. cbn.
  destruct (slot_registered sl); cbn; [|auto]. apply NoDup_cons. split; [|auto].
  intros (e & -> & ([m' sl'] & Hin & He)%list_elem_of_omap)%list_elem_of_fmap. apply Hm.
  unfold roster_entry in He. case_match; simplify_eq/=. by apply (list_elem_of_fmap_2 fst _ (m', sl')).
Qed.

Lemma roster_sorted b : StronglySorted offset_le (Roster (Build b)).
Proof. apply (StronglySorted_merge_sort offset_le). Qed.

(** The event of a live registration. *)
Lemma registration_event role r m off at_ :
  record_event role r = Ok (Some (PutMember m (MkMemberSlot off at_ true))) ↔
  off = rec_Offset r ∧ DecodeKey (rec_Key r) = Ok (RegistrationKey role m) ∧
  IsTombstone (rec_Value r) = false ∧
  ∃ reg, DecodeRegistration (rec_Value r) = Ok reg ∧ at_ = reg_RegisteredAt reg.
Proof.
  split.
  - intros H. pose proof (record_event_key _ _ _ H) as K. cbn in K. unfold record_event in H.
    rewrite K in H. cbn in H. rewrite decide_False in H by naive_solver.
    reader_inv. eauto 10.
  - intros (-> & K & T & reg & Hreg & ->). unfold record_event. rewrite K. cbn.
    rewrite decide_False by naive_solver. by rewrite T, Hreg.
Qed.

Lemma lease_event role r off l :
  record_event role r = Ok (Some (PutLease (MkLeaseSlot off (Some l)))) ↔
  off = rec_Offset r ∧ DecodeKey (rec_Key r) = Ok (LeaseKey role) ∧
  IsTombstone (rec_Value r) = false ∧ DecodeLease (rec_Value r) = Ok l.
Proof.
  split.
  - intros H. pose proof (record_event_key _ _ _ H) as K. cbn in K. unfold record_event in H.
    rewrite K in H. cbn in H. rewrite decide_False in H by naive_solver.
    reader_inv. auto.
  - intros (-> & K & T & Hl). unfold record_event. rewrite K. cbn.
    rewrite decide_False by naive_solver. by rewrite T, Hl.
Qed.

(** A live registration of a member, and a live lease of the role, in a log. *)
Definition registers (role : Role) (records : list StateRecord) (e : RosterEntry) : Prop :=
  ∃ r reg, newest records r ∧ DecodeKey (rec_Key r) = Ok (RegistrationKey role (entry_Member e)) ∧
    IsTombstone (rec_Value r) = false ∧ DecodeRegistration (rec_Value r) = Ok reg ∧
    entry_Offset e = rec_Offset r ∧ entry_RegisteredAt e = reg_RegisteredAt reg.

Definition leases (role : Role) (records : list StateRecord) (l : Lease) : Prop :=
  ∃ r, newest records r ∧ DecodeKey (rec_Key r) = Ok (LeaseKey role) ∧
    IsTombstone (rec_Value r) = false ∧ DecodeLease (rec_Value r) = Ok l.

Lemma roster_registers role records b e :
  offsets_distinct records → Apply_all (NewRoleStateBuilder role) records = Ok b →
  e ∈ Roster (Build b) ↔ registers role records e.
Proof.
  intros Hd H. rewrite roster_elem.
  pose proof (Apply_all_held role records b (Some (entry_Member e))
    (PutMember (entry_Member e) (MkMemberSlot (entry_Offset e) (entry_RegisteredAt e) true)) Hd H) as K.
  cbn [held] in K. transitivity
    (PutMember (entry_Member e) <$> builder_members b !! entry_Member e =
     Some (PutMember (entry_Member e) (MkMemberSlot (entry_Offset e) (entry_RegisteredAt e) true))).
  { destruct (builder_members b !! entry_Member e); cbn; naive_solver. }
  rewrite K. unfold registers. setoid_rewrite registration_event. naive_solver.
Qed.

Lemma state_leases role records b l :
  offsets_distinct records → Apply_all (NewRoleStateBuilder role) records = Ok b →
  state_Lease (Build b) = Some l ↔ leases role records l.
Proof.
  intros Hd H. unfold Build. cbn. unfold leases. split.
  - destruct (builder_lease b) as [[off [l'|]]|] eqn:E; cbn; [|done|done]. intros [= <-].
    destruct (proj1 (Apply_all_held role records b None (PutLease (MkLeaseSlot off (Some l'))) Hd H))
      as [(r & Hr & Hre) _]; [cbn; by rewrite E|].
    apply lease_event in Hre. naive_solver.
  - intros (r & Hr & K & T & Hl).
    assert (held b None = Some (PutLease (MkLeaseSlot (rec_Offset r) (Some l)))) as Hh.
    { apply (Apply_all_held role records); [done..|]. split; [|done]. exists r. split; [done|].
      by apply lease_event. }
    cbn in Hh. destruct (builder_lease b) as [sl|]; simplify_eq/=. done.
Qed.

(** The offsets of a roster are distinct, so its order is strict and it is the only sorted list of
    its entries. *)
Lemma roster_offsets role records b e e' :
  offsets_distinct records → Apply_all (NewRoleStateBuilder role) records = Ok b →
  e ∈ Roster (Build b) → e' ∈ Roster (Build b) → entry_Offset e = entry_Offset e' → e = e'.
Proof.
  intros Hd H He He' Ho. apply (roster_registers role records) in He, He'; [|done..].
  destruct He as (r & reg & [Hr _] & K & _ & Hreg & Ho1 & Ha).
  destruct He' as (r' & reg' & [Hr' _] & K' & _ & Hreg' & Ho2 & Ha').
  assert (r = r') as <- by (apply (NoDup_map_inj rec_Offset records); auto; congruence).
  destruct e, e'. cbn in *. rewrite K in K'. injection K' as K'. congruence.
Qed.

Lemma roster_unique role records b l :
  offsets_distinct records → Apply_all (NewRoleStateBuilder role) records = Ok b →
  StronglySorted offset_le l → NoDup l → (∀ e, e ∈ l ↔ e ∈ Roster (Build b)) → Roster (Build b) = l.
Proof.
  intros Hd H Hs Hn He. apply (StronglySorted_unique_strong offset_le).
  - intros x y Hx Hy%He H1 H2. eapply roster_offsets; [done..|]. unfold offset_le in *. lia.
  - apply roster_sorted.
  - done.
  - apply NoDup_Permutation; [|done|by intros; rewrite He].
    eapply NoDup_fmap_1, roster_NoDup.
Qed.

(** C13: the role state is exactly the specification "the newest record of every key wins". A member
    is in the roster when the newest record of its registration key is a registration, with the
    offset of that record; the lease is the one in the newest record of the lease key; the roster is
    in strict offset order and names every member once. *)
Theorem BuildRoleState_refines role records s :
  offsets_distinct records → BuildRoleState role records = Ok s →
  (∀ e, e ∈ Roster s ↔ registers role records e) ∧
  (∀ l, state_Lease s = Some l ↔ leases role records l) ∧
  StronglySorted (λ x y, entry_Offset x < entry_Offset y) (Roster s) ∧
  NoDup (map entry_Member (Roster s)).
Proof.
  intros Hd (b & Hb & ->)%BuildRoleState_Ok. split_and!.
  - intros e. by apply roster_registers.
  - intros l. by apply state_leases.
  - pose proof (roster_sorted b) as Hs. pose proof (roster_NoDup b) as Hn.
    pose proof (λ e e', roster_offsets role records b e e' Hd Hb) as Ho.
    induction Hs as [|e l Hs IH Hall]; constructor.
    + cbn in Hn. apply NoDup_cons in Hn as [_ Hn]. apply IH; [done|]. intros; apply Ho; set_solver.
    + cbn in Hn. apply NoDup_cons in Hn as [Hn _].
      apply Forall_forall. intros e' He'. rewrite Forall_forall in Hall.
      specialize (Hall e' He'). unfold offset_le in Hall.
      destruct (decide (entry_Offset e = entry_Offset e')) as [Heq|]; [|lia].
      apply Ho in Heq; [|set_solver..]. subst e'. destruct Hn. by apply list_elem_of_fmap_2.
  - apply roster_NoDup.
Qed.

(** ** Ranks *)

(** The members that can challenge, in roster order: the roster without the holder. *)
Definition candidates (s : RoleState) : list MemberID :=
  filter (λ m, Holder s ≠ Some m) (map entry_Member (Roster s)).

Lemma rank_loop_spec roster h m k r :
  NoDup (map entry_Member roster) → h ≠ Some m →
  rank_loop roster h m k = Some r ↔
  k ≤ r ∧ filter (λ m, h ≠ Some m) (map entry_Member roster) !! Z.to_nat (r - k) = Some m.
Proof.
  intros Hn Hh. revert k. induction roster as [|e roster IH]; intros k; cbn.
  { split; [done|]. intros [_ ?]. by rewrite lookup_nil in *. }
  cbn in Hn. apply NoDup_cons in Hn as [He Hn]. specialize (IH Hn).
  case_bool_decide as H1; [rewrite decide_False by auto; apply IH|].
  rewrite decide_True by done. case_bool_decide as H2.
  - subst m. split; [intros [= ->]; split; [lia|]; by rewrite Z.sub_diag|].
    intros [Hk Hl]. f_equal. destruct (decide (r = k)) as [|Hne]; [done|].
    replace (Z.to_nat (r - k)) with (S (Z.to_nat (r - k - 1))) in Hl by lia. cbn in Hl.
    apply list_elem_of_lookup_2, list_elem_of_filter in Hl as [_ Hl]. done.
  - rewrite IH. destruct (decide (r = k)) as [->|Hne].
    + rewrite Z.sub_diag. cbn. split; [lia|]. intros [_ [= Heq]]. done.
    + destruct (Z.le_gt_cases k r); [|split; lia].
      replace (Z.to_nat (r - k)) with (S (Z.to_nat (r - (k + 1)))) by lia. cbn.
      split; intros [? ?]; (split; [lia|done]).
Qed.

Lemma Entry_elem s m : is_Some (Entry s m) ↔ m ∈ map entry_Member (Roster s).
Proof.
  unfold Entry. rewrite list_elem_of_fmap. split.
  - intros [e He]. apply find_some in He as [Hin He]. apply bool_decide_eq_true in He.
    exists e. by rewrite list_elem_of_In.
  - intros (e & -> & He). destruct (List.find _ _) eqn:E; [eauto|].
    apply list_elem_of_In, (find_none _ _ E) in He. by rewrite bool_decide_eq_false in He.
Qed.

(** The rank of a challenger is its position in the roster without the holder, so distinct
    challengers have distinct ranks and the ranks are exactly 0, 1, ..., n-1; a registered holder
    keeps rank 0, and a member outside the roster has no rank. *)
Theorem RankOf_spec s m :
  NoDup (map entry_Member (Roster s)) →
  (Holder s ≠ Some m → ∀ k, RankOf s m = Some k ↔ 0 ≤ k ∧ candidates s !! Z.to_nat k = Some m) ∧
  (Holder s = Some m → RankOf s m = if decide (m ∈ map entry_Member (Roster s)) then Some 0 else None).
Proof.
  intros Hn. unfold RankOf, candidates. pose proof (Entry_elem s m) as He. split; intros Hh.
  - intros k. rewrite bool_decide_eq_false_2 by done.
    rewrite <- (Z.sub_0_r k) at 3. rewrite <- rank_loop_spec by done.
    destruct (Entry s m) eqn:E; [done|]. split; [done|]. intros Hr.
    apply rank_loop_spec in Hr as [_ Hr]; [|done..].
    apply list_elem_of_lookup_2, list_elem_of_filter in Hr as [_ Hr]. apply He in Hr. by destruct Hr.
  - rewrite bool_decide_eq_true_2 by done. case_decide as Hin.
    + apply He in Hin as [e ->]. done.
    + destruct (Entry s m); [|done]. destruct Hin. apply He. eauto.
Qed.

Lemma RankOf_registered s m :
  NoDup (map entry_Member (Roster s)) → m ∈ map entry_Member (Roster s) →
  ∃ e k, Entry s m = Some e ∧ RankOf s m = Some k ∧ 0 ≤ k < zlen (Roster s) ∧
    (Holder s = Some m → k = 0).
Proof.
  intros Hn Hm. pose proof Hm as [e He]%Entry_elem. exists e. unfold RankOf. rewrite He.
  assert (0 < zlen (Roster s)) by (unfold zlen; destruct (Roster s); [by apply not_elem_of_nil in Hm|cbn; lia]).
  case_bool_decide as Hh; [exists 0; split_and!; done|].
  assert (m ∈ candidates s) as [i Hi]%list_elem_of_lookup by (by apply list_elem_of_filter).
  exists (Z.of_nat i). split_and!; [done|..|done].
  - apply rank_loop_spec; [done..|]. split; [lia|]. by rewrite Z.sub_0_r, Nat2Z.id.
  - lia.
  - apply lookup_lt_Some in Hi. unfold candidates in Hi.
    pose proof (length_filter (λ m, Holder s ≠ Some m) (map entry_Member (Roster s))) as Hle.
    rewrite length_map in Hle. unfold zlen. lia.
Qed.

(** ** Evaluation over time *)

(** The instants of a role state are int64 values, as its decoders give them. *)
Definition state_wf (s : RoleState) : Prop :=
  NoDup (map entry_Member (Roster s)) ∧
  Forall (λ e, inS 64 (entry_RegisteredAt e)) (Roster s) ∧
  (∀ l, state_Lease s = Some l → inS 64 (lease_Deadline l)).

Lemma Entry_Forall s m e P : Forall P (Roster s) → Entry s m = Some e → P e.
Proof.
  intros HP [He _]%find_some. rewrite Forall_forall in HP. apply HP. by apply list_elem_of_In.
Qed.

(** The member holds a live lease. *)
Definition holds (s : RoleState) (m : MemberID) (now : Z) : bool :=
  match state_Lease s with
  | Some l => bool_decide (lease_Member l = m) && (now <? lease_Deadline l)
  | None => false
  end.

Lemma holds_true s m now :
  holds s m now = true ↔ ∃ l, state_Lease s = Some l ∧ lease_Member l = m ∧ now < lease_Deadline l.
Proof.
  unfold holds. destruct (state_Lease s) as [l|]; [|split; [done|by intros (? & ? & _)]].
  rewrite andb_true_iff, bool_decide_eq_true, Z.ltb_lt. naive_solver.
Qed.

(** The challenge instant of a registered member; the instant does not depend on the clock. *)
Lemma Evaluate_instant s m c :
  state_wf s → config_wf c → m ∈ map entry_Member (Roster s) →
  ∃ at_, inS 64 at_ ∧
    (∃ e k, e ∈ Roster s ∧ 0 ≤ k < zlen (Roster s) ∧
       at_ = addMillis (match state_Lease s with Some l => lease_Deadline l | None => entry_RegisteredAt e end)
               (ChallengeDelay c k)) ∧
    (∀ l, state_Lease s = Some l → lease_Deadline l ≤ at_ ∧
       (lease_Member l = m → at_ = lease_Deadline l)) ∧
    ∀ now, Evaluate s m now c =
      if holds s m now then MkDecision ActionHold 0 else decide_at now at_.
Proof.
  intros (Hn & Hr & Hl) Hc Hm.
  destruct (RankOf_registered s m Hn Hm) as (e & k & He & Hk & Hk0 & Hh).
  pose proof (ChallengeDelay_range c k Hc) as Hd. unfold Evaluate. rewrite He, Hk.
  assert (e ∈ Roster s) as Hin by (apply find_some in He as [? _]; by apply list_elem_of_In).
  destruct (state_Lease s) as [l|] eqn:E.
  - specialize (Hl l eq_refl).
    destruct (addMillis_spec (lease_Deadline l) (ChallengeDelay c k) Hl Hd) as [_ Hi].
    exists (addMillis (lease_Deadline l) (ChallengeDelay c k)). split_and!; [done|by exists e, k|..].
    + intros l' [= <-]. split; [by apply addMillis_le|]. intros Hm'.
      rewrite Hh by (unfold Holder; rewrite E; cbn; by rewrite Hm').
      change (ChallengeDelay c 0) with 0. by apply addMillis_0.
    + intros now. unfold LiveAt, ChallengeAt, holds. by rewrite E.
  - pose proof (Entry_Forall s m e _ Hr He) as Hi. cbn in Hi.
    destruct (addMillis_spec (entry_RegisteredAt e) (ChallengeDelay c k) Hi Hd) as [_ Ha].
    eexists. split_and!; [exact Ha|by exists e, k|done|]. intros now. unfold holds. by rewrite E.
Qed.

Lemma decide_at_Challenge now at_ : at_ ≤ now → decide_at now at_ = MkDecision ActionChallenge 0.
Proof. intros H. unfold decide_at. by replace (at_ <=? now) with true by lia. Qed.
Lemma decide_at_Wait now at_ : now < at_ → decide_at now at_ = MkDecision ActionWait at_.
Proof. intros H. unfold decide_at. by replace (at_ <=? now) with false by lia. Qed.

Lemma Evaluate_not_registered s m now c :
  m ∉ map entry_Member (Roster s) → Evaluate s m now c = MkDecision ActionNotRegistered 0.
Proof.
  intros Hm. unfold Evaluate. destruct (Entry s m) eqn:E; [|done].
  destruct Hm. apply Entry_elem. eauto.
Qed.

(** The decision over time, for an unchanged role state. A waiting member is told the earliest
    instant at which its answer changes: it waits until then and challenges from then on. A holder
    holds exactly until its deadline and challenges from the deadline on. A challenge is never taken
    back, and a member outside the roster stays unregistered. *)
Theorem Evaluate_timeline s m c now :
  state_wf s → config_wf c →
  match Evaluate s m now c with
  | MkDecision ActionWait w =>
      now < w ∧ (∀ t, now ≤ t < w → Evaluate s m t c = MkDecision ActionWait w) ∧
      (∀ t, w ≤ t → dec_Action (Evaluate s m t c) = ActionChallenge)
  | MkDecision ActionHold _ =>
      ∃ l, state_Lease s = Some l ∧ lease_Member l = m ∧
        ∀ t, dec_Action (Evaluate s m t c) =
          if decide (t < lease_Deadline l) then ActionHold else ActionChallenge
  | MkDecision ActionChallenge _ => ∀ t, now ≤ t → dec_Action (Evaluate s m t c) = ActionChallenge
  | MkDecision ActionNotRegistered _ => ∀ t, dec_Action (Evaluate s m t c) = ActionNotRegistered
  end.
Proof.
  intros Hs Hc. destruct (decide (m ∈ map entry_Member (Roster s))) as [Hm|Hm].
  2:{ rewrite Evaluate_not_registered by done. intros t. by rewrite Evaluate_not_registered. }
  destruct (Evaluate_instant s m c Hs Hc Hm) as (at_ & Hi & _ & Hl & He). rewrite He.
  destruct (holds s m now) eqn:H1.
  - apply holds_true in H1 as (l & Hsl & Hlm & Hlt). exists l. split_and!; [done..|]. intros t. rewrite He.
    destruct (Hl l Hsl) as [_ Hat]. specialize (Hat Hlm). subst at_. case_decide.
    + by rewrite (proj2 (holds_true s m t)) by eauto.
    + destruct (holds s m t) eqn:Ht; [|by rewrite decide_at_Challenge by lia].
      apply holds_true in Ht as (l' & ? & ? & ?). simplify_eq. lia.
  - assert (∀ t, now ≤ t → Evaluate s m t c = decide_at t at_) as Hlater.
    { intros t Ht. rewrite He. destruct (holds s m t) eqn:H2; [|done].
      apply holds_true in H2 as (l & ? & ? & ?). apply not_true_iff_false in H1. destruct H1.
      apply holds_true. exists l. split_and!; [done..|lia]. }
    destruct (Z.le_gt_cases at_ now).
    + rewrite decide_at_Challenge by done. intros t Ht. rewrite Hlater by done.
      by rewrite decide_at_Challenge by lia.
    + rewrite decide_at_Wait by lia. split_and!; [lia|..].
      * intros t Ht. rewrite Hlater by lia. apply decide_at_Wait. lia.
      * intros t Ht. rewrite Hlater by lia. by rewrite decide_at_Challenge.
Qed.

Lemma Evaluate_hold s m now c :
  dec_Action (Evaluate s m now c) = ActionHold →
  ∃ l, state_Lease s = Some l ∧ lease_Member l = m ∧ now < lease_Deadline l.
Proof.
  rewrite <- holds_true. unfold Evaluate, decide_at, holds, LiveAt. cbn.
  destruct (Entry s m), (RankOf s m), (state_Lease s); cbn; try done; try (by case_match).
  destruct (bool_decide _ && _); [done|by case_match].
Qed.

(** At every instant at most one member of a role holds, and only the member that a live lease
    names; while a lease exists, a challenger of a lower rank never waits longer. *)
Theorem Evaluate_exclusive s c now m1 m2 :
  state_wf s → config_wf c →
  (dec_Action (Evaluate s m1 now c) = ActionHold → dec_Action (Evaluate s m2 now c) = ActionHold → m1 = m2) ∧
  (∀ l k1 k2, state_Lease s = Some l → RankOf s m1 = Some k1 → RankOf s m2 = Some k2 → k1 ≤ k2 →
    dec_Action (Evaluate s m2 now c) = ActionChallenge →
    dec_Action (Evaluate s m1 now c) = ActionChallenge ∨ dec_Action (Evaluate s m1 now c) = ActionHold).
Proof.
  intros Hs Hc. split.
  - intros (l1 & ? & ? & _)%Evaluate_hold (l2 & ? & ? & _)%Evaluate_hold. congruence.
  - intros l k1 k2 Hl H1 H2 Hk. pose proof Hs as (_ & _ & Hd). specialize (Hd l Hl).
    unfold Evaluate. rewrite H1, H2, Hl. unfold RankOf in H1, H2.
    destruct (Entry s m1); [|done]. destruct (Entry s m2); [|done].
    destruct (bool_decide (lease_Member l = m2) && _); [done|]. unfold decide_at, ChallengeAt. cbn.
    destruct (Z.leb_spec (addMillis (lease_Deadline l) (ChallengeDelay c k2)) now); [|done]. intros _.
    destruct (bool_decide (lease_Member l = m1) && _); [by right|]. left. rewrite (proj2 (Z.leb_le _ _)); [done|].
    pose proof (addMillis_mono (lease_Deadline l) (ChallengeDelay c k1) (ChallengeDelay c k2) Hd).
    pose proof (ChallengeDelay_range c k1 Hc). pose proof (ChallengeDelay_range c k2 Hc).
    assert (ChallengeDelay c k1 ≤ ChallengeDelay c k2)
      by (rewrite !ChallengeDelay_min by done; destruct Hc as (_ & _ & ?); nia). lia.
Qed.

(** ** Rejoining *)

Lemma Apply_all_app b l1 l2 :
  Apply_all b (l1 ++ l2) = (let* b' := Apply_all b l1 in Apply_all b' l2).
Proof.
  revert b. induction l1 as [|r l1 IH]; intros b; [done|]. cbn.
  destruct (Apply b r); cbn; [apply IH|done].
Qed.

(** A registration of [m] at the end of the log replaces whatever the builder held for [m]. *)
Lemma putMember_newest role records b m slot :
  offsets_distinct records → Apply_all (NewRoleStateBuilder role) records = Ok b →
  (∀ r, r ∈ records → rec_Offset r < slot_offset slot) →
  putMember b (slot_offset slot) m slot =
    MkBuilder (builder_role b) (<[m := slot]> (builder_members b)) (builder_lease b).
Proof.
  intros Hd Hb Hlt. unfold putMember. destruct (builder_members b !! m) as [old|] eqn:E; [|done].
  destruct (proj1 (Apply_all_held role records b (Some m) (PutMember m old) Hd Hb))
    as [(r & [Hr _] & Hre) _]; [cbn; by rewrite E|].
  apply record_event_offset in Hre. cbn in Hre. specialize (Hlt r Hr).
  by replace (slot_offset slot <=? slot_offset old) with false by lia.
Qed.

Lemma BuildRoleState_register role records s r m reg :
  offsets_distinct records → (∀ r', r' ∈ records → rec_Offset r' < rec_Offset r) →
  DecodeKey (rec_Key r) = Ok (RegistrationKey role m) → IsTombstone (rec_Value r) = false →
  DecodeRegistration (rec_Value r) = Ok reg →
  BuildRoleState role records = Ok s →
  BuildRoleState role (records ++ [r]) =
    Ok (MkRoleState (filter (λ e, entry_Member e ≠ m) (Roster s) ++
                     [MkRosterEntry m (rec_Offset r) (reg_RegisteredAt reg)])
                    (state_Lease s)).
Proof.
  intros Hd Hlt K T Hreg (b & Hb & ->)%BuildRoleState_Ok. apply BuildRoleState_Ok.
  set (slot := MkMemberSlot (rec_Offset r) (reg_RegisteredAt reg) true).
  set (b' := MkBuilder (builder_role b) (<[m := slot]> (builder_members b)) (builder_lease b)).
  assert (builder_role b = role) as Hrole.
  { rewrite Apply_all_events in Hb. reader_inv. by rewrite fold_role. }
  assert (Apply_all (NewRoleStateBuilder role) (records ++ [r]) = Ok b') as Hb'.
  { rewrite Apply_all_app, Hb. cbn. unfold Apply. rewrite K, Hrole. cbn.
    rewrite decide_False by naive_solver. rewrite T, Hreg. cbn.
    rewrite decide_True by done. cbn. f_equal.
    by apply (putMember_newest role records b m slot). }
  assert (offsets_distinct (records ++ [r])) as Hd'.
  { unfold offsets_distinct. rewrite map_app. apply NoDup_app. split_and!; [done| |apply NoDup_singleton].
    intros o (r' & -> & Hr')%list_elem_of_fmap Ho%list_elem_of_singleton. specialize (Hlt r' Hr'). lia. }
  exists b'. split; [done|]. change (state_Lease (Build b)) with (state_Lease (Build b')).
  transitivity (MkRoleState (Roster (Build b')) (state_Lease (Build b'))); [|done]. f_equal. symmetry.
  pose proof (λ e, roster_registers role records b e Hd Hb) as Helem.
  apply (roster_unique _ _ _ _ Hd' Hb').
  - apply StronglySorted_app. split_and!; [|apply StronglySorted_filter, roster_sorted|].
    + intros e e' [_ He]%list_elem_of_filter ->%list_elem_of_singleton.
      apply Helem in He as (r' & _ & [Hr' _] & _ & _ & _ & Ho & _). unfold offset_le. rewrite Ho. cbn.
      specialize (Hlt r' Hr'). lia.
    + repeat constructor.
  - apply NoDup_app. split_and!; [|by intros e [He _]%list_elem_of_filter ->%list_elem_of_singleton
                                  |apply NoDup_singleton].
    eapply NoDup_filter, NoDup_fmap_1, roster_NoDup.
  - intros e. rewrite elem_of_app, list_elem_of_filter, list_elem_of_singleton, !roster_elem. cbn.
    destruct e as [em eo ea]. cbn. destruct (decide (em = m)) as [->|Hne].
    + rewrite lookup_insert_eq. unfold slot. split; [intros [[? _]|[= -> ->]]; done|].
      intros [= -> ->]. by right.
    + rewrite lookup_insert_ne by done. split; [intros [[_ ?]|[= -> _ _]]; done|]. by left.
Qed.

Lemma BuildRoleState_wf role records s :
  offsets_distinct records → BuildRoleState role records = Ok s → state_wf s.
Proof.
  intros Hd (b & Hb & ->)%BuildRoleState_Ok. split_and!.
  - apply roster_NoDup.
  - apply Forall_forall. intros e He.
    apply (roster_registers role records) in He as (r & reg & _ & _ & _ & Hreg & _ & Ha); [|done..].
    apply DecodeRegistration_inv in Hreg as [[_ H] _]. by rewrite Ha.
  - intros l Hl. apply (state_leases role records) in Hl as (r & _ & _ & _ & Hl); [|done..].
    apply DecodeLease_inv in Hl as [(_ & _ & _ & H) _]. done.
Qed.

(** A member that registers again lands at the tail of the roster, behind every other member, and
    the lease does not move. A member that was gone, and a member that was present under a lower
    offset, end up in the same place. *)
Theorem rejoin_takes_last_place role records s r m reg :
  offsets_distinct records → (∀ r', r' ∈ records → rec_Offset r' < rec_Offset r) →
  DecodeKey (rec_Key r) = Ok (RegistrationKey role m) → IsTombstone (rec_Value r) = false →
  DecodeRegistration (rec_Value r) = Ok reg →
  BuildRoleState role records = Ok s →
  BuildRoleState role (records ++ [r]) =
    Ok (MkRoleState (filter (λ e, entry_Member e ≠ m) (Roster s) ++
                     [MkRosterEntry m (rec_Offset r) (reg_RegisteredAt reg)])
                    (state_Lease s)).
Proof. apply BuildRoleState_register. Qed.

(** One registration under a name that [NewRole] or [NewMemberID] accepts, and that is not valid
    UTF-8, makes the fold fail for every role of the partition, because [Apply] decodes a key before it
    compares the role. *)
Theorem foreign_name_poisons role records r other m :
  r ∈ records → rec_Key r = EncodeKey (RegistrationKey other m) →
  NewRole (role_name other) = Ok other → NewMemberID (member_name m) = Ok m →
  utf8_valid (role_name other) && utf8_valid (member_name m) = false →
  ∃ e, BuildRoleState role records = Err e.
Proof.
  intros Hr Hk [_ Ho]%NewRole_Ok [_ Hm]%NewMemberID_Ok Hu.
  destruct (BuildRoleState role records) as [s|e] eqn:E; [|by eexists].
  apply BuildRoleState_Ok in E as (b & Hb & _). rewrite Apply_all_events in Hb. reader_inv. cbn in H.
  apply record_events_Ok in H as [H _]. destruct (H r Hr) as (o & Hre & _). unfold record_event in Hre.
  rewrite Hk, DecodeKey_foreign in Hre by done. done.
Qed.

(** ** A concrete partition *)

Definition demo_role : Role := MkRole (str "controller").
Definition demo_a : MemberID := MkMemberID (str "a").
Definition demo_b : MemberID := MkMemberID (str "b").

Definition demo_registration (off : Z) (m : MemberID) (at_ : Z) : StateRecord :=
  MkStateRecord off (EncodeKey (RegistrationKey demo_role m)) (EncodeRegistration (MkRegistration m at_)).

Definition demo_lease_value : Lease := MkLease demo_a (MkToken 7 1) 1000 31000.
Definition demo_lease : StateRecord :=
  MkStateRecord 2 (EncodeKey (LeaseKey demo_role)) (EncodeLease demo_lease_value).

(** [b] registers, then [a], then [a] takes the lease, then [b] registers again. *)
Definition demo_log : list StateRecord :=
  [demo_registration 0 demo_b 10; demo_registration 1 demo_a 20; demo_lease; demo_registration 3 demo_b 30].

(** The same log after compaction, served in another order. *)
Definition demo_compacted : list StateRecord :=
  [demo_registration 3 demo_b 30; demo_lease; demo_registration 1 demo_a 20].

Definition demo_state : RoleState :=
  MkRoleState [MkRosterEntry demo_a 1 20; MkRosterEntry demo_b 3 30] (Some demo_lease_value).

Lemma demo_compacted_ok : compacted demo_log demo_compacted.
Proof.
  split_and!.
  - unfold demo_log, demo_compacted. set_solver.
  - by_decide.
  - intros r [Hr Hmax]. assert (r ≠ demo_registration 0 demo_b 10) as Hne.
    { intros ->. specialize (Hmax (demo_registration 3 demo_b 30)). cbn in Hmax.
      specialize (Hmax ltac:(unfold demo_log; set_solver) eq_refl). lia. }
    unfold demo_log, demo_compacted in *. set_solver.
Qed.

Lemma demo_state_wf : state_wf demo_state.
Proof.
  split_and!; [by_decide|by_decide|]. intros l [= <-]. by_decide.
Qed.

Lemma BuildRoleState_compaction_witness : BuildRoleState demo_role demo_compacted = Ok demo_state.
Proof.
  apply (BuildRoleState_compaction demo_role demo_log demo_compacted demo_state).
  - by_decide.
  - exact demo_compacted_ok.
  - vm_compute. reflexivity.
Defined.

Lemma BuildRoleState_refines_witness :
  BuildRoleState demo_role demo_log = Ok demo_state ∧ registers demo_role demo_log (MkRosterEntry demo_b 3 30) ∧
  ¬ registers demo_role demo_log (MkRosterEntry demo_b 0 10).
Proof.
  assert (BuildRoleState demo_role demo_log = Ok demo_state) as H by (vm_compute; reflexivity).
  split; [exact H|]. destruct (BuildRoleState_refines demo_role demo_log demo_state) as (He & _).
  - by_decide.
  - exact H.
  - split; [apply He; by_decide|]. intros Hf. apply He in Hf. revert Hf. by_decide.
Defined.

Lemma RankOf_spec_witness :
  RankOf demo_state demo_b = Some 0 ∧ RankOf demo_state demo_a = Some 0 ∧
  candidates demo_state !! Z.to_nat 0 = Some demo_b.
Proof.
  split_and!.
  - vm_compute. reflexivity.
  - destruct (RankOf_spec demo_state demo_a) as [_ H]; [by_decide|]. apply H. reflexivity.
  - destruct (RankOf_spec demo_state demo_b) as [H _]; [by_decide|].
    destruct (proj1 (H ltac:(discriminate) 0)) as [_ Hc]; [vm_compute; reflexivity|]. exact Hc.
Defined.

Lemma Evaluate_timeline_witness :
  Evaluate demo_state demo_b 100 DefaultLeaseConfig = MkDecision ActionWait 31000 ∧
  dec_Action (Evaluate demo_state demo_b 40000 DefaultLeaseConfig) = ActionChallenge.
Proof.
  assert (Evaluate demo_state demo_b 100 DefaultLeaseConfig = MkDecision ActionWait 31000) as E
    by (vm_compute; reflexivity).
  split; [exact E|]. pose proof (Evaluate_timeline demo_state demo_b DefaultLeaseConfig 100 demo_state_wf) as H.
  rewrite E in H. apply H; [by_decide|]. discriminate.
Defined.

Lemma Evaluate_exclusive_witness :
  dec_Action (Evaluate demo_state demo_a 100 DefaultLeaseConfig) = ActionHold ∧
  (dec_Action (Evaluate demo_state demo_b 100 DefaultLeaseConfig) = ActionHold → demo_a = demo_b).
Proof.
  split; [vm_compute; reflexivity|].
  destruct (Evaluate_exclusive demo_state DefaultLeaseConfig 100 demo_a demo_b demo_state_wf) as [H _];
    [by_decide|]. apply H. vm_compute. reflexivity.
Defined.

Lemma rejoin_takes_last_place_witness :
  BuildRoleState demo_role (demo_log ++ [demo_registration 9 demo_a 90]) =
    Ok (MkRoleState [MkRosterEntry demo_b 3 30; MkRosterEntry demo_a 9 90] (Some demo_lease_value)).
Proof.
  apply (rejoin_takes_last_place demo_role demo_log demo_state (demo_registration 9 demo_a 90) demo_a
           (MkRegistration demo_a 90)).
  - by_decide.
  - intros r Hr. unfold demo_log in Hr. rewrite !elem_of_cons in Hr.
    destruct Hr as [->|[->|[->|[->|Hr]]]]; [reflexivity..|]. by apply not_elem_of_nil in Hr.
  - vm_compute. reflexivity.
  - reflexivity.
  - vm_compute. reflexivity.
  - vm_compute. reflexivity.
Defined.

Lemma foreign_name_poisons_witness :
  let bad := MkMemberID [xff] in
  ∃ e, BuildRoleState demo_role
         [demo_lease; MkStateRecord 5 (EncodeKey (RegistrationKey (MkRole (str "other")) bad)) []] = Err e.
Proof.
  intros bad.
  apply (foreign_name_poisons demo_role _
    (MkStateRecord 5 (EncodeKey (RegistrationKey (MkRole (str "other")) bad)) []) (MkRole (str "other")) bad);
    [apply list_elem_of_further, list_elem_of_here|vm_compute; reflexivity..].
Defined.
