(* ===== verification/Leadership.v ===== *)
(** * Acquiring a leadership

    [coordination/transport.go] and the settings, the reads and the acquisition loop of
    [coordination/leadership.go]. The cluster is the world [W] of the calls: the four interfaces of
    [Transport] are a record of operations over it, and a clock is another. The package pins no client,
    so both are parameters; [Cluster] states what the comments of [transport.go] promise about them. The
    handle that [AcquireLeadership] returns is in [Handle.v]. *)

From S2P Require Import Prelude GoStd Record Partition Lease Succession.

(** ** The interfaces *)

Record TopicPartition := MkTopicPartition { tp_Topic : bytes; tp_Partition : Z }.

#[global] Instance TopicPartition_eq_dec : EqDecision TopicPartition.
Proof. solve_decision. Defined.

(** The two errors of a [context.Context]. *)
Inductive ctx_error := Canceled | DeadlineExceeded.

(** [E] is the error type of the adapter, and [transport_fenced] is [errors.Is(err, ErrFenced)] on it. *)
Record Transport (W E : Type) := MkTransport {
  AcquireEpoch : Role → io W E FencingToken;
  DescribeEpoch : Role → io W E (FencingToken * bool);
  ReadPartition : TopicPartition → io W E (list StateRecord);
  Append : TopicPartition → bytes → bytes → io W E unit;
  WriteLease : TopicPartition → FencingToken → bytes → bytes → io W E unit;
  transport_fenced : E → bool
}.
Arguments AcquireEpoch {W E}.
Arguments DescribeEpoch {W E}.
Arguments ReadPartition {W E}.
Arguments Append {W E}.
Arguments WriteLease {W E}.
Arguments transport_fenced {W E}.

(** A clock and the context of the call. [select_After] is the [select] of [wait]: it returns when the
    clock signals, or with the context error when the caller cancels first. *)
Record Clock (W : Type) := MkClock {
  NowMillis : W → Z * W;
  ctx_Err : W → option ctx_error * W;
  select_After : Duration → W → option ctx_error * W
}.
Arguments NowMillis {W}.
Arguments ctx_Err {W}.
Arguments select_After {W}.

(** ** Settings *)

Definition DefaultPollInterval : Duration := Second.

Record settings (W : Type) := MkSettings {
  set_topic : bytes;
  set_partitions : Z;
  set_lease : LeaseConfig;
  set_clock : Clock W;
  set_pollInterval : Duration
}.
Arguments MkSettings {W}.
Arguments set_topic {W}.
Arguments set_partitions {W}.
Arguments set_lease {W}.
Arguments set_clock {W}.
Arguments set_pollInterval {W}.

Inductive option_error :=
| EmptyTopic
| TooFewPartitions (partitions : Z)
| ZeroLeaseConfig
| LeaseConfigFault (e : lease_config_error)
| NilClock
| BadPollInterval (interval : Duration).

(** The reasons that end a leadership, and what the calls of this file report. *)
Inductive Error (E : Type) :=
| NilReader
| NilCoordinator
| NilTransport
| NoRole
| NoMember
| OptionFault (e : option_error)
| PartitionFault (e : partition_error)
| ContextError (e : ctx_error)
| ReadFault (role : Role) (e : E)
| StateFault (role : Role) (e : apply_error)
| DescribeFault (role : Role) (e : E)
| RegisterFault (member : MemberID) (role : Role) (e : E)
| MintFault (role : Role) (e : E)
| LeaseWriteFault (role : Role) (e : E)
| RenewFault (role : Role) (e : E)
| ClearFault (role : Role) (e : E)
| Fenced (role : Role)
| NotHeld (role : Role)
| Expired (role : Role) (deadline : Z) (e : Error E).
Arguments NilReader {E}.
Arguments NilCoordinator {E}.
Arguments NilTransport {E}.
Arguments NoRole {E}.
Arguments NoMember {E}.
Arguments OptionFault {E}.
Arguments PartitionFault {E}.
Arguments ContextError {E}.
Arguments ReadFault {E}.
Arguments StateFault {E}.
Arguments DescribeFault {E}.
Arguments RegisterFault {E}.
Arguments MintFault {E}.
Arguments LeaseWriteFault {E}.
Arguments RenewFault {E}.
Arguments ClearFault {E}.
Arguments Fenced {E}.
Arguments NotHeld {E}.
Arguments Expired {E}.

(** [errors.Is(err, ErrFenced)] and [errors.Is(err, ErrNotHeld)]: every wrapper of the package uses
    [%w], so the test reaches the error inside. *)
Fixpoint is_fenced {E} (fenced : E → bool) (e : Error E) : bool :=
  match e with
  | ReadFault _ e | DescribeFault _ e | RegisterFault _ _ e | MintFault _ e | LeaseWriteFault _ e
  | RenewFault _ e | ClearFault _ e => fenced e
  | Fenced _ => true
  | Expired _ _ e => is_fenced fenced e
  | _ => false
  end.

Fixpoint is_not_held {E} (e : Error E) : bool :=
  match e with NotHeld _ => true | Expired _ _ e => is_not_held e | _ => false end.

Section Settings.
Context {W : Type} (SystemClock : Clock W).

(** An option is a function on the settings. *)
Definition Option : Type := settings W → result option_error (settings W).

Definition default_settings : settings W :=
  MkSettings StateTopic DefaultPartitions DefaultLeaseConfig SystemClock DefaultPollInterval.

Fixpoint apply_options (options : list Option) (applied : settings W)
    : result option_error (settings W) :=
  match options with
  | [] => Ok applied
  | option :: options => let* applied := option applied in apply_options options applied
  end.

Definition newSettings (options : list Option) : result option_error (settings W) :=
  apply_options options default_settings.

Definition partitionOf (s : settings W) (role : Role) : result partition_error TopicPartition :=
  let* partition := RolePartition role (set_partitions s) in
  Ok (MkTopicPartition (set_topic s) partition).

Definition WithTopic (topic : bytes) : Option := λ s,
  check! bool_decide (topic ≠ []) else EmptyTopic in
  Ok (MkSettings topic (set_partitions s) (set_lease s) (set_clock s) (set_pollInterval s)).

Definition WithPartitions (partitions : Z) : Option := λ s,
  check! bool_decide (¬ partitions < 1) else TooFewPartitions partitions in
  Ok (MkSettings (set_topic s) partitions (set_lease s) (set_clock s) (set_pollInterval s)).

Definition set_config (s : settings W) (config : LeaseConfig) : settings W :=
  MkSettings (set_topic s) (set_partitions s) config (set_clock s) (set_pollInterval s).

Definition WithLeaseConfig (config : LeaseConfig) : Option := λ s,
  check! bool_decide (¬ duration config ≤ 0) else ZeroLeaseConfig in Ok (set_config s config).

Definition WithLeaseDuration (extent : Duration) : Option := λ s,
  let* config := rmap_err LeaseConfigFault
    (NewLeaseConfig extent (renewInterval (set_lease s)) (challengeStagger (set_lease s))) in
  Ok (set_config s config).

Definition WithRenewInterval (interval : Duration) : Option := λ s,
  let* config := rmap_err LeaseConfigFault
    (NewLeaseConfig (duration (set_lease s)) interval (challengeStagger (set_lease s))) in
  Ok (set_config s config).

Definition WithChallengeStagger (stagger : Duration) : Option := λ s,
  let* config := rmap_err LeaseConfigFault
    (NewLeaseConfig (duration (set_lease s)) (renewInterval (set_lease s)) stagger) in
  Ok (set_config s config).

Definition WithClock (clock : option (Clock W)) : Option := λ s,
  match clock with
  | None => Err NilClock
  | Some clock => Ok (MkSettings (set_topic s) (set_partitions s) (set_lease s) clock (set_pollInterval s))
  end.

Definition WithPollInterval (interval : Duration) : Option := λ s,
  check! bool_decide (¬ interval ≤ 0) else BadPollInterval interval in
  Ok (MkSettings (set_topic s) (set_partitions s) (set_lease s) (set_clock s) interval).
End Settings.
Arguments Option : clear implicits.

(** ** Waiting *)

Definition millisUntil (instant nowMillis : Z) : Duration :=
  if instant <=? nowMillis then 0 else int64 (int64 (instant - nowMillis) * Millisecond).

Definition wait {W E} (clock : Clock W) (extent : Duration) : io W (Error E) unit :=
  λ w, let '(cancelled, w) := ctx_Err clock w in
  match cancelled with
  | Some e => (Err (ContextError e), w)
  | None =>
      if extent <=? 0 then (Ok tt, w)
      else let '(cancelled, w) := select_After clock extent w in
           match cancelled with Some e => (Err (ContextError e), w) | None => (Ok tt, w) end
  end.

(** ** Reads *)

Section Reads.
Context {W E : Type} (SystemClock : Clock W).

Definition RoleTopicPartition (role : Role) (options : list (Option W)) : result (Error E) TopicPartition :=
  let* applied := rmap_err OptionFault (newSettings SystemClock options) in
  rmap_err PartitionFault (partitionOf applied role).

Definition readRoleState (reader : Transport W E) (partition : TopicPartition) (role : Role)
    : io W (Error E) RoleState :=
  do* records := io_map_err (ReadFault role) (ReadPartition reader partition) in
  io_lift (rmap_err (StateFault role) (BuildRoleState role records)).

Definition DescribeRoleState (reader : option (Transport W E)) (role : Role) (options : list (Option W))
    : io W (Error E) RoleState :=
  match reader with
  | None => io_fail NilReader
  | Some reader =>
      do* applied := io_lift (rmap_err OptionFault (newSettings SystemClock options)) in
      do* partition := io_lift (rmap_err PartitionFault (partitionOf applied role)) in
      readRoleState reader partition role
  end.

Record LeadershipStatus := MkStatus { status_Role : Role; status_Token : FencingToken; status_Held : bool }.

Definition Authoritative (s : LeadershipStatus) (token : FencingToken) : bool :=
  status_Held s && bool_decide (status_Token s = token).

Definition DescribeLeadership (coordinator : option (Transport W E)) (role : Role)
    : io W (Error E) LeadershipStatus :=
  match coordinator with
  | None => io_fail NilCoordinator
  | Some coordinator =>
      do* (token, held) := io_map_err (DescribeFault role) (DescribeEpoch coordinator role) in
      if held : bool then io_ret (MkStatus role token true)
      else io_ret (MkStatus role NoEpoch false)
  end.
End Reads.

(** ** Acquisition *)

(** The fields of a [Leadership] that no call changes, and the lease it starts with. *)
Record Leadership (W E : Type) := MkLeadership {
  lead_role : Role;
  lead_member : MemberID;
  lead_token : FencingToken;
  lead_partition : TopicPartition;
  lead_writer : Transport W E;
  lead_config : LeaseConfig;
  lead_clock : Clock W;
  lead_retry : Duration;
  lead_first : Lease
}.
Arguments MkLeadership {W E}.
Arguments lead_role {W E}.
Arguments lead_member {W E}.
Arguments lead_token {W E}.
Arguments lead_partition {W E}.
Arguments lead_writer {W E}.
Arguments lead_config {W E}.
Arguments lead_clock {W E}.
Arguments lead_retry {W E}.
Arguments lead_first {W E}.

Section Acquire.
Context {W E : Type} (SystemClock : Clock W).

Definition newLeadership (transport : Transport W E) (applied : settings W) (partition : TopicPartition)
    (role : Role) (member : MemberID) (token : FencingToken) (lease : Lease) : Leadership W E :=
  MkLeadership role member token partition transport (set_lease applied) (set_clock applied)
    (set_pollInterval applied) lease.

Definition challenge (transport : Transport W E) (applied : settings W) (partition : TopicPartition)
    (role : Role) (member : MemberID) : io W (Error E) (Leadership W E) :=
  do* token := io_map_err (MintFault role) (AcquireEpoch transport role) in
  do* now := io_read (NowMillis (set_clock applied)) in
  let lease := Grant (set_lease applied) member token now in
  do* _ := io_map_err (LeaseWriteFault role)
             (WriteLease transport partition token (EncodeKey (LeaseKey role)) (EncodeLease lease)) in
  io_ret (newLeadership transport applied partition role member token lease).

(** The loop. It has no bound of its own, so it takes fuel; [None] is a run that is still going. *)
Fixpoint acquire_loop (fuel : nat) (transport : Transport W E) (applied : settings W)
    (partition : TopicPartition) (role : Role) (member : MemberID) (registered : bool)
    : io W (Error E) (option (Leadership W E)) :=
  match fuel with
  | O => io_ret None
  | S fuel =>
      do* cancelled := io_read (ctx_Err (set_clock applied)) in
      match cancelled with
      | Some e => io_fail (ContextError e)
      | None =>
          do* state := readRoleState transport partition role in
          do* now := io_read (NowMillis (set_clock applied)) in
          let decision := Evaluate state member now (set_lease applied) in
          match dec_Action decision with
          | ActionNotRegistered =>
              if registered then
                do* _ := wait (set_clock applied) (set_pollInterval applied) in
                acquire_loop fuel transport applied partition role member registered
              else
                let key := EncodeKey (RegistrationKey role member) in
                do* at_ := io_read (NowMillis (set_clock applied)) in
                let value := EncodeRegistration (MkRegistration member at_) in
                do* _ := io_map_err (RegisterFault member role)
                           (Append transport partition key value) in
                acquire_loop fuel transport applied partition role member true
          | ActionWait =>
              do* now := io_read (NowMillis (set_clock applied)) in
              let delay := Z.min (millisUntil (dec_WaitUntil decision) now) (set_pollInterval applied) in
              do* _ := wait (set_clock applied) delay in
              acquire_loop fuel transport applied partition role member registered
          | ActionHold | ActionChallenge =>
              io_try (challenge transport applied partition role member) (λ outcome,
                match outcome with
                | Ok leadership => io_ret (Some leadership)
                | Err e =>
                    if is_fenced (transport_fenced transport) e
                    then acquire_loop fuel transport applied partition role member registered
                    else io_fail e
                end)
          end
      end
  end.

Definition AcquireLeadership (fuel : nat) (transport : option (Transport W E)) (role : Role)
    (member : MemberID) (options : list (Option W)) : io W (Error E) (option (Leadership W E)) :=
  match transport with
  | None => io_fail NilTransport
  | Some transport =>
      if decide (role_name role = []) then io_fail NoRole else
      if decide (member_name member = []) then io_fail NoMember else
      do* applied := io_lift (rmap_err OptionFault (newSettings SystemClock options)) in
      do* partition := io_lift (rmap_err PartitionFault (partitionOf applied role)) in
      acquire_loop fuel transport applied partition role member false
  end.
End Acquire.

(** ** Settings that the options reach *)

Definition settings_wf {W} (s : settings W) : Prop :=
  set_topic s ≠ [] ∧ 1 ≤ set_partitions s ∧ config_wf (set_lease s) ∧ 0 < set_pollInterval s.

(** The options of the package, with arguments of their Go types. The fields of a [LeaseConfig] are not
    exported, so a caller holds the zero value or a config that a constructor built. *)
Inductive exported_option {W} : Option W → Prop :=
| opt_topic topic : exported_option (WithTopic topic)
| opt_partitions partitions : exported_option (WithPartitions partitions)
| opt_config config : config_wf config ∨ config = MkLeaseConfig 0 0 0 → exported_option (WithLeaseConfig config)
| opt_duration extent : inS 64 extent → exported_option (WithLeaseDuration extent)
| opt_renew interval : inS 64 interval → exported_option (WithRenewInterval interval)
| opt_stagger stagger : inS 64 stagger → exported_option (WithChallengeStagger stagger)
| opt_clock clock : exported_option (WithClock clock)
| opt_poll interval : exported_option (WithPollInterval interval).

Lemma NewLeaseConfig_wf d r s c :
  inS 64 d → inS 64 s → NewLeaseConfig d r s = Ok c → config_wf c.
Proof.
  intros Hd Hs. unfold NewLeaseConfig. cbn.
  destruct (Z.leb_spec d 0); [done|]. destruct (Z.leb_spec r 0); [done|].
  destruct (Z.leb_spec s 0); [done|]. destruct (Z.leb_spec d r); [done|]. intros [= <-].
  unfold config_wf, inS in *. cbn. width_consts. lia.
Qed.

Lemma set_config_wf {W} (s s' : settings W) d r st :
  settings_wf s → inS 64 d → inS 64 st →
  (let* config := rmap_err LeaseConfigFault (NewLeaseConfig d r st) in Ok (set_config s config)) = Ok s' →
  settings_wf s'.
Proof.
  intros (Ht & Hp & _ & Hi) Hd Hs H. destruct (NewLeaseConfig d r st) eqn:E; [|done].
  injection H as <-. apply NewLeaseConfig_wf in E; [|done..]. done.
Qed.

Lemma exported_option_wf {W} (option : Option W) s s' :
  exported_option option → settings_wf s → option s = Ok s' → settings_wf s'.
Proof.
  intros Ho Hs H. pose proof Hs as (Ht & Hp & Hl & Hi).
  assert (inS 64 (duration (set_lease s)) ∧ inS 64 (challengeStagger (set_lease s))) as [Hd Hg]
    by (destruct Hl as (? & ? & ?); unfold inS; width_consts; lia).
  destruct Ho as [| |config Hc|extent|interval|stagger|clock|];
    [..|destruct clock; [by injection H as <-|done]|];
    try (eapply (set_config_wf s s'); [..|exact H]; done);
    unfold WithTopic, WithPartitions, WithLeaseConfig, WithPollInterval in H;
    case_bool_decide; try done; injection H as <-; split_and!; cbn; try done; try lia.
  by destruct Hc as [Hc | ->].
Qed.

Lemma newSettings_settings_wf {W} (SystemClock : Clock W) options applied :
  Forall exported_option options → newSettings SystemClock options = Ok applied → settings_wf applied.
Proof.
  intros Ho H. unfold newSettings in H. assert (settings_wf (default_settings SystemClock)) as Hd by by_decide.
  revert Hd H. generalize (default_settings SystemClock). induction Ho as [|o options Ho _ IH].
  - intros s Hs [= <-]. done.
  - intros s Hs H. cbn in H. apply rbind_Ok in H as (s1 & H1 & H). eauto using exported_option_wf.
Qed.

(** Whatever options a caller passes, in whatever order, the settings of a call that goes on name a
    topic, count at least one partition, poll at a positive interval and carry a lease policy that
    [NewLeaseConfig] accepts; and the partition of every role then exists and is one of the topic. *)
Theorem newSettings_wf {W} (SystemClock : Clock W) options applied :
  Forall exported_option options → newSettings SystemClock options = Ok applied →
  settings_wf applied ∧
  ∀ role, ∃ p, partitionOf applied role = Ok (MkTopicPartition (set_topic applied) p) ∧
    0 ≤ p < set_partitions applied.
Proof.
  intros Ho H. pose proof (newSettings_settings_wf _ _ _ Ho H) as Hw.
  split; [done|]. intros role. destruct Hw as (_ & Hp & _).
  unfold partitionOf, RolePartition. rewrite bool_decide_eq_true_2 by lia. cbn. eexists. split; [done|].
  apply Z.rem_bound_pos; [|lia]. apply Z.land_nonneg. lia.
Qed.

(** The extents are checked one option at a time against the policy so far, so their order matters. *)
Example option_order {W} (SystemClock : Clock W) :
  is_ok (newSettings SystemClock [WithLeaseDuration (5 * Second); WithRenewInterval Second]) = false ∧
  is_ok (newSettings SystemClock [WithRenewInterval Second; WithLeaseDuration (5 * Second)]) = true.
Proof. split; vm_compute; reflexivity. Qed.

(** A clock that stands still, for closed examples. *)
Definition still_clock : Clock unit :=
  MkClock unit (λ w, (0, w)) (λ w, (None, w)) (λ _ w, (None, w)).

Lemma newSettings_wf_witness :
  ∃ applied, newSettings still_clock [WithPartitions 4; WithRenewInterval Second] = Ok applied ∧
    settings_wf applied.
Proof.
  eexists. split; [reflexivity|].
  apply (newSettings_wf still_clock [WithPartitions 4; WithRenewInterval Second]); [|reflexivity].
  repeat constructor; by_decide.
Defined.

(** ** What the cluster promises *)

(** The transaction coordinator as the comments of [transport.go] describe it: each role has at most
    one current epoch, and it only grows. [evolves] relates two moments of the cluster, with whatever
    other members did in between. *)
Class Cluster (W : Type) := {
  epoch_of : W → Role → option FencingToken;
  evolves : relation W;
  #[global] evolves_pre :: PreOrder evolves;
  epoch_grows w w' role t : evolves w w' → epoch_of w role = Some t →
    ∃ t', epoch_of w' role = Some t' ∧ (t' = t ∨ Supersedes t' t = true)
}.

(** An adapter keeps the promises of [Coordinator] and [LeaseWriter]: an acquisition mints an epoch that
    supersedes the current one, at some moment of the call, and a write succeeds only at a moment at
    which its token is still the epoch of the role it was minted for. *)
Class Adapter {W E} `{Cluster W} (T : Transport W E) := {
  read_evolves p w r w' : ReadPartition T p w = (r, w') → evolves w w';
  append_evolves p k v w r w' : Append T p k v w = (r, w') → evolves w w';
  write_evolves p t k v w r w' : WriteLease T p t k v w = (r, w') → evolves w w';
  mint_evolves role w r w' : AcquireEpoch T role w = (r, w') → evolves w w';
  mint_supersedes role w t w' : AcquireEpoch T role w = (Ok t, w') →
    ∃ w1 w2, evolves w w1 ∧ evolves w1 w2 ∧ evolves w2 w' ∧ epoch_of w2 role = Some t ∧
      ∀ t0, epoch_of w1 role = Some t0 → Supersedes t t0 = true;
  write_current p t k v w w' role w0 : WriteLease T p t k v w = (Ok tt, w') →
    evolves w0 w → epoch_of w0 role = Some t →
    ∃ w1, evolves w w1 ∧ evolves w1 w' ∧ epoch_of w1 role = Some t
}.

Class TickingClock {W} `{Cluster W} (C : Clock W) := {
  now_evolves w n w' : NowMillis C w = (n, w') → evolves w w';
  ctx_evolves w r w' : ctx_Err C w = (r, w') → evolves w w';
  after_evolves d w r w' : select_After C d w = (r, w') → evolves w w'
}.

(** Chain the moments of a run. *)
Ltac chain := solve [repeat (first [eassumption | etrans; [eassumption|]])].

Lemma io_bind_evolves {W E A B} `{Cluster W} (m : io W E A) (k : A → io W E B) w r w' :
  (∀ r w1, m w = (r, w1) → evolves w w1) →
  (∀ a w1 r w2, k a w1 = (r, w2) → evolves w1 w2) →
  io_bind m k w = (r, w') → evolves w w'.
Proof.
  intros Hm Hk. unfold io_bind. destruct (m w) as [[a|e] w1] eqn:Hw.
  - intros Hr. etrans; [by eapply Hm|by eapply Hk].
  - intros [= _ <-]. by eapply Hm.
Qed.

Section Fencing.
Context {W E : Type} `{Cluster W}.

Lemma read_io_evolves {A} (f : W → A * W) w r w' :
  (∀ a w', f w = (a, w') → evolves w w') → @io_read W (Error E) A f w = (r, w') → evolves w w'.
Proof. intros Hf. unfold io_read. destruct (f w) eqn:?. intros [= _ <-]. by eapply Hf. Qed.

Lemma map_err_evolves {F A} (f : F → Error E) (m : io W F A) w r w' :
  (∀ r w', m w = (r, w') → evolves w w') → io_map_err f m w = (r, w') → evolves w w'.
Proof. intros Hm. unfold io_map_err. destruct (m w) eqn:?. intros [= _ <-]. by eapply Hm. Qed.

Context (T : Transport W E) {HT : Adapter T} (applied : settings W)
  {HC : TickingClock (set_clock applied)} (partition : TopicPartition) (role : Role) (member : MemberID).

Lemma wait_evolves d w r w' : @wait W E (set_clock applied) d w = (r, w') → evolves w w'.
Proof.
  unfold wait. destruct (ctx_Err (set_clock applied) w) as [c w1] eqn:H1. apply ctx_evolves in H1.
  destruct c; [by intros [= _ <-]|]. case_match; [by intros [= _ <-]|].
  destruct (select_After (set_clock applied) d w1) as [c w2] eqn:H2. apply after_evolves in H2.
  destruct c; intros [= _ <-]; by etrans.
Qed.

Lemma readRoleState_evolves w r w' : readRoleState T partition role w = (r, w') → evolves w w'.
Proof.
  unfold readRoleState. apply io_bind_evolves.
  - intros r1 w1. apply map_err_evolves. apply read_evolves.
  - unfold io_lift. by intros ???? [= _ <-].
Qed.

Lemma challenge_evolves w r w' : challenge T applied partition role member w = (r, w') → evolves w w'.
Proof.
  unfold challenge. apply io_bind_evolves; [intros ??; apply map_err_evolves, mint_evolves|].
  intros t w1 r1 w2. apply io_bind_evolves; [intros ??; apply read_io_evolves, now_evolves|].
  intros n w3 r3 w4. apply io_bind_evolves; [intros ??; apply map_err_evolves, write_evolves|].
  unfold io_ret. by intros ???? [= _ <-].
Qed.

(** The epoch of a challenge that succeeds was minted, and was still current, within the call. *)
Lemma challenge_mints w h w' :
  challenge T applied partition role member w = (Ok h, w') →
  lead_role h = role ∧ lead_member h = member ∧ lead_writer h = T ∧ lead_partition h = partition ∧
  ∃ w1 w2, evolves w w1 ∧ evolves w1 w2 ∧ evolves w2 w' ∧ epoch_of w2 role = Some (lead_token h) ∧
    ∀ t0, epoch_of w1 role = Some t0 → Supersedes (lead_token h) t0 = true.
Proof.
  unfold challenge. intros Hr. io_inv. apply now_evolves in H1. apply write_evolves in H2.
  apply mint_supersedes in H0 as (w1 & w2 & ? & ? & ? & ? & ?). cbn. split_and!; try done.
  exists w1, w2. split_and!; try done. chain.
Qed.

(** A run that wins does so by one challenge, at the end, and its turn had come: the state it read
    just before names the member as a challenger (or as the holder, from an earlier incarnation). *)
Lemma acquire_loop_challenges fuel registered w h w' :
  acquire_loop fuel T applied partition role member registered w = (Ok (Some h), w') →
  ∃ w0 w1 state now w2, evolves w w0 ∧ readRoleState T partition role w0 = (Ok state, w1) ∧
    NowMillis (set_clock applied) w1 = (now, w2) ∧
    dec_Action (Evaluate state member now (set_lease applied)) ∈ [ActionHold; ActionChallenge] ∧
    challenge T applied partition role member w2 = (Ok h, w').
Proof.
  revert registered w. induction fuel as [|fuel IH]; intros registered w; [done|].
  cbn [acquire_loop]. intros Hr. io_inv. apply ctx_evolves in H0. destruct x; [done|]. io_inv.
  pose proof (readRoleState_evolves _ _ _ H1) as Hs. pose proof (now_evolves _ _ _ H2) as Hn.
  assert (∀ registered w1, evolves x3 w1 →
    acquire_loop fuel T applied partition role member registered w1 = (Ok (Some h), w') →
    ∃ w0 w1 state now w2, evolves w w0 ∧ readRoleState T partition role w0 = (Ok state, w1) ∧
      NowMillis (set_clock applied) w1 = (now, w2) ∧
      dec_Action (Evaluate state member now (set_lease applied)) ∈ [ActionHold; ActionChallenge] ∧
      challenge T applied partition role member w2 = (Ok h, w')) as Hgo.
  { intros registered' w1 Hw1 Hr'. apply IH in Hr' as (w0 & w2 & st & n & w3 & ? & ?).
    exists w0, w2, st, n, w3. split; [|done]. chain. }
  assert (dec_Action (Evaluate x member x2 (set_lease applied)) ∈ [ActionHold; ActionChallenge] →
    io_try (challenge T applied partition role member) (λ outcome,
      match outcome with
      | Ok leadership => io_ret (Some leadership)
      | Err e => if is_fenced (transport_fenced T) e
                 then acquire_loop fuel T applied partition role member registered else io_fail e
      end) x3 = (Ok (Some h), w') →
    ∃ w0 w1 state now w2, evolves w w0 ∧ readRoleState T partition role w0 = (Ok state, w1) ∧
      NowMillis (set_clock applied) w1 = (now, w2) ∧
      dec_Action (Evaluate state member now (set_lease applied)) ∈ [ActionHold; ActionChallenge] ∧
      challenge T applied partition role member w2 = (Ok h, w')) as Hch.
  { unfold io_try. intros Ha Hr. destruct (challenge _ _ _ _ _ x3) as [[h'|e] w2] eqn:Hc.
    - io_inv. by exists x0, x1, x, x2, x3.
    - case_match; [|done]. apply challenge_evolves in Hc. eauto. }
  destruct (dec_Action _) eqn:Ha.
  - destruct registered; io_inv.
    + apply wait_evolves in H3. eauto.
    + apply now_evolves in H3. apply append_evolves in H4. eapply Hgo; [by etrans|done].
  - apply Hch; [set_solver|done].
  - apply Hch; [set_solver|done].
  - io_inv. apply now_evolves in H3. apply wait_evolves in H4. eapply Hgo; [by etrans|done].
Qed.
End Fencing.

Lemma AcquireLeadership_Ok {W E} (S : Clock W) fuel (T : Transport W E) role member options w h w' :
  AcquireLeadership S fuel (Some T) role member options w = (Ok (Some h), w') →
  ∃ applied partition, newSettings S options = Ok applied ∧ partitionOf applied role = Ok partition ∧
    acquire_loop fuel T applied partition role member false w = (Ok (Some h), w').
Proof.
  unfold AcquireLeadership. do 2 (case_decide; [done|]). intros Hr. io_inv.
  destruct (newSettings S options) as [applied|]; simplify_eq/=.
  destruct (partitionOf x role) as [partition|] eqn:Hp; simplify_eq/=. eauto.
Qed.

(** The token of an acquisition was minted, and current, within the call. *)
Lemma AcquireLeadership_mints {W E} `{Cluster W} (S : Clock W) fuel (T : Transport W E) `{!Adapter T}
    role member options w h w' :
  (∀ applied, newSettings S options = Ok applied → TickingClock (set_clock applied)) →
  AcquireLeadership S fuel (Some T) role member options w = (Ok (Some h), w') →
  ∃ w1 w2, evolves w w1 ∧ evolves w1 w2 ∧ evolves w2 w' ∧ epoch_of w2 role = Some (lead_token h) ∧
    ∀ t0, epoch_of w1 role = Some t0 → Supersedes (lead_token h) t0 = true.
Proof.
  intros HC (applied & partition & Hs & _ & Hl)%AcquireLeadership_Ok. specialize (HC _ Hs).
  apply acquire_loop_challenges in Hl as (u0 & u1 & st & n & u2 & Hu0 & Hr & Hn & _ & Hch); [|done..].
  apply readRoleState_evolves in Hr; [|done]. apply now_evolves in Hn.
  apply challenge_mints in Hch as (_ & _ & _ & _ & v1 & v2 & ? & ? & ? & ? & ?); [|done..].
  exists v1, v2. split_and!; try done. chain.
Qed.

(** A token that was superseded is never current again. *)
Lemma superseded_not_current {W} `{Cluster W} w w' role t t' :
  evolves w w' → epoch_of w role = Some t' → Supersedes t' t = true → epoch_of w' role ≠ Some t.
Proof.
  intros He Ht Hs Ht'. destruct (epoch_grows _ _ _ _ He Ht) as (t'' & H'' & Hor). simplify_eq.
  destruct Hor as [->|Hor]; [by eapply Supersedes_irrefl|].
  by eapply Supersedes_irrefl, Supersedes_trans.
Qed.

(** C1: one leader at a time. When a second acquisition of a role, by any member over any adapter of
    the same cluster, completes after a first, its token supersedes the first token; and from then on
    every lease write under the first token is refused, so a deposed leader can neither renew nor clear
    the lease. The promise is the broker's epoch alone: no clock takes part. *)
Theorem later_leader_fences {W E1 E2} `{Cluster W} (S : Clock W) (T1 : Transport W E1) (T2 : Transport W E2)
    `{!Adapter T1, !Adapter T2} role m1 m2 options1 options2 fuel1 fuel2 h1 h2 w0 w1 w2 w3 w4 :
  (∀ applied, newSettings S options1 = Ok applied ∨ newSettings S options2 = Ok applied →
     TickingClock (set_clock applied)) →
  AcquireLeadership S fuel1 (Some T1) role m1 options1 w0 = (Ok (Some h1), w1) → evolves w1 w2 →
  AcquireLeadership S fuel2 (Some T2) role m2 options2 w2 = (Ok (Some h2), w3) → evolves w3 w4 →
  Supersedes (lead_token h2) (lead_token h1) = true ∧
  ∀ p k v w5, WriteLease T1 p (lead_token h1) k v w4 ≠ (Ok tt, w5).
Proof.
  intros HC H1 H12 H2 H34.
  apply AcquireLeadership_mints in H1 as (a1 & a2 & ? & ? & ? & Ha & _); [|auto..].
  apply AcquireLeadership_mints in H2 as (b1 & b2 & ? & ? & ? & Hb & Hsup); [|auto..].
  assert (evolves a2 b1) as Hab by chain.
  assert (Supersedes (lead_token h2) (lead_token h1) = true) as Hs.
  { destruct (epoch_grows _ _ _ _ Hab Ha) as (t & Ht & [->|Hor]); [by apply Hsup|].
    by eapply Supersedes_trans; [apply Hsup|]. }
  split; [done|]. intros p k v w5 Hw.
  assert (evolves a2 w4) as Ha4 by chain.
  destruct (write_current _ _ _ _ _ _ _ _ Hw Ha4 Ha) as (c & Hc & _ & Hcur). revert Hcur.
  apply (superseded_not_current b2 c role _ (lead_token h2)); [|done..].
  chain.
Qed.

(** ** The acquisition finishes on a quiet cluster *)

(** No other member acts, no call fails, the caller does not cancel, and the clock advances by the extent
    of every wait, as a [ManualClock] driven by [Advance] does. *)
Class Quiet {W E} (T : Transport W E) (C : Clock W) := {
  q_log : W → TopicPartition → list StateRecord;
  q_now : W → Z;
  q_minted : W → FencingToken → Prop;
  q_ctx w : ctx_Err C w = (None, w);
  q_clock w : NowMillis C w = (q_now w, w);
  q_after d w : 0 < d → ∃ w', select_After C d w = (None, w') ∧ (∀ p, q_log w' p = q_log w p) ∧
    q_now w' = addMillis (q_now w) d;
  q_read p w : ReadPartition T p w = (Ok (q_log w p), w);
  q_append p k v w : ∃ off w', Append T p k v w = (Ok tt, w') ∧ q_now w' = q_now w ∧
    q_log w' p = q_log w p ++ [MkStateRecord off k v] ∧ ∀ r, r ∈ q_log w p → rec_Offset r < off;
  q_mint role w : ∃ t w', AcquireEpoch T role w = (Ok t, w') ∧ q_now w' = q_now w ∧
    (∀ p, q_log w' p = q_log w p) ∧ q_minted w' t;
  q_write p t k v w : q_minted w t → ∃ off w', WriteLease T p t k v w = (Ok tt, w') ∧
    q_log w' p = q_log w p ++ [MkStateRecord off k v]
}.

(** The longest wait that an int64 count of nanoseconds holds, in milliseconds. *)
Definition max_wait : Z := MaxInt64 / Millisecond.

Lemma millisUntil_spec instant now :
  inS 64 instant → inS 64 now → instant - now ≤ max_wait →
  millisUntil instant now = Z.max 0 (instant - now) * Millisecond.
Proof.
  unfold millisUntil, max_wait, Millisecond. intros Hi Hn Hm. change (MaxInt64 / 1000000) with 9223372036854 in Hm.
  destruct (Z.leb_spec instant now); [lia|].
  rewrite (wrapS_id 64 (instant - now)) by (unfold inS in *; width_consts; lia).
  rewrite wrapS_id by (unfold inS in *; width_consts; lia). lia.
Qed.

(** Past that bound the conversion wraps: a wait for the end of the time line is reported as a negative
    extent, [wait] returns at once, and the loop that called it spins. *)
Lemma millisUntil_wraps : ∃ instant now, inS 64 instant ∧ inS 64 now ∧ now < instant ∧ millisUntil instant now < 0.
Proof. exists MaxInt64, 0. vm_compute. repeat split; done. Qed.

Section Liveness.
Context {W E : Type} (T : Transport W E) (applied : settings W) {Q : Quiet T (set_clock applied)}
  (partition : TopicPartition) (role : Role) (member : MemberID).
Context (Happlied : settings_wf applied) (Hpoll : Millisecond ≤ set_pollInterval applied ≤ MaxInt64).

Lemma quiet_read w s :
  BuildRoleState role (q_log w partition) = Ok s → readRoleState T partition role w = (Ok s, w).
Proof.
  intros Hs. unfold readRoleState, io_bind, io_map_err, io_lift. rewrite q_read. cbn. by rewrite Hs.
Qed.

(** The log ends with the lease of the leadership, under the token it was minted. *)
Definition acquired (w' : W) (h : Leadership W E) (log : list StateRecord) : Prop :=
  lead_role h = role ∧ lead_member h = member ∧ lead_first h =
    Grant (set_lease applied) member (lead_token h) (lease_GrantedAt (lead_first h)) ∧
  ∃ off, q_log w' partition =
    log ++ [MkStateRecord off (EncodeKey (LeaseKey role)) (EncodeLease (lead_first h))].

Lemma quiet_challenge w :
  ∃ h w', challenge T applied partition role member w = (Ok h, w') ∧ acquired w' h (q_log w partition).
Proof.
  destruct (q_mint role w) as (t & w1 & Hm & Hn & Hl & Ht).
  set (lease := Grant (set_lease applied) member t (q_now w1)).
  destruct (q_write partition t (EncodeKey (LeaseKey role)) (EncodeLease lease) w1 Ht)
    as (off & w2 & Hw & Hl2).
  exists (newLeadership T applied partition role member t lease), w2. split.
  - unfold challenge. io_run Hm. io_run (q_clock w1). fold lease. by io_run Hw.
  - split_and!; [done..|]. exists off. by rewrite Hl2, Hl.
Qed.

(** One round of the loop at a state that does not change: a challenge, or a wait. *)
Lemma quiet_round fuel registered w s at_ :
  BuildRoleState role (q_log w partition) = Ok s →
  (∀ now, Evaluate s member now (set_lease applied) =
     if holds s member now then MkDecision ActionHold 0 else decide_at now at_) →
  inS 64 at_ → inS 64 (q_now w) → at_ - q_now w ≤ max_wait →
  (∃ h w', acquire_loop (S fuel) T applied partition role member registered w = (Ok (Some h), w') ∧
     acquired w' h (q_log w partition)) ∨
  (∃ w', acquire_loop (S fuel) T applied partition role member registered w =
           acquire_loop fuel T applied partition role member registered w' ∧
     q_log w' partition = q_log w partition ∧ inS 64 (q_now w') ∧ q_now w < q_now w' ≤ at_).
Proof.
  intros Hs He Hat Hn Hm. cbn [acquire_loop]. io_run (q_ctx (T := T) w). io_run (quiet_read w s Hs).
  io_run (q_clock (T := T) w). rewrite He. destruct (quiet_challenge w) as (h & w' & Hch & Hacq).
  destruct (holds s member (q_now w)).
  { left. exists h, w'. cbn [dec_Action]. unfold io_try. by rewrite Hch. }
  destruct (Z.le_gt_cases at_ (q_now w)).
  { left. exists h, w'. rewrite decide_at_Challenge by done. cbn [dec_Action]. unfold io_try. by rewrite Hch. }
  right. rewrite decide_at_Wait by done. cbn [dec_Action dec_WaitUntil].
  io_run (q_clock (T := T) w). rewrite millisUntil_spec by done.
  set (d := Z.min _ _). unfold max_wait, Millisecond in *. change (MaxInt64 / 1000000) with 9223372036854 in Hm.
  assert (1000000 ≤ d ≤ MaxInt64 ∧ d ≤ (at_ - q_now w) * 1000000) as [Hd Hdm] by (subst d; lia).
  destruct (q_after (T := T) d w) as (w1 & Ha & Hl & Hw1); [lia|]. exists w1.
  assert (wait (E := E) (set_clock applied) d w = (Ok tt, w1)) as Hwait.
  { unfold wait. rewrite (q_ctx (T := T)). replace (d <=? 0) with false by lia. by rewrite Ha. }
  io_run Hwait. split_and!; [done|by rewrite Hl|..].
  - rewrite Hw1. apply addMillis_spec; [done|lia].
  - rewrite Hw1. destruct (addMillis_spec (q_now w) d) as [-> _]; [done|lia|]. unfold maxMillis, inS in *.
    width_consts. Z.to_euclidean_division_equations. lia.
  - rewrite Hw1. destruct (addMillis_spec (q_now w) d) as [-> _]; [done|lia|]. unfold maxMillis, inS in *.
    width_consts. Z.to_euclidean_division_equations. lia.
Qed.

(** A registered member wins after at most one round per millisecond until its turn. *)
Lemma quiet_registered n fuel registered w s at_ :
  BuildRoleState role (q_log w partition) = Ok s →
  (∀ now, Evaluate s member now (set_lease applied) =
     if holds s member now then MkDecision ActionHold 0 else decide_at now at_) →
  inS 64 at_ → inS 64 (q_now w) → at_ - q_now w ≤ Z.min max_wait (Z.of_nat n) → (n < fuel)%nat →
  ∃ h w', acquire_loop fuel T applied partition role member registered w = (Ok (Some h), w') ∧
    acquired w' h (q_log w partition).
Proof.
  intros Hs He Hat. revert fuel w Hs. induction n as [|n IH]; intros fuel w Hs Hn Hm Hf.
  - destruct fuel as [|fuel]; [lia|].
    destruct (quiet_round fuel registered w s at_ Hs He Hat Hn) as [|(w' & _ & _ & _ & ?)]; [lia|done|lia].
  - destruct fuel as [|fuel]; [lia|].
    destruct (quiet_round fuel registered w s at_ Hs He Hat Hn) as [|(w' & -> & Hl & Hn' & ?)]; [lia|done|].
    rewrite <- Hl in *. apply IH; [done|done|lia|lia].
Qed.
(** The instants of the state are within 139 years of the clock, and the last rank waits less than 146
    years: past those bounds [millisUntil] wraps. *)
Definition state_near (s : RoleState) (members now : Z) : Prop :=
  (∀ l, state_Lease s = Some l → lease_Deadline l ≤ now + 2 ^ 42) ∧
  Forall (λ e, entry_RegisteredAt e ≤ now + 2 ^ 42) (Roster s) ∧
  zlen (Roster s) ≤ members ∧ members * challengeStagger (set_lease applied) ≤ 2 ^ 62.

Lemma instant_near s members now :
  state_wf s → state_near s members now → member ∈ map entry_Member (Roster s) →
  ∃ at_, inS 64 at_ ∧ at_ - now ≤ max_wait ∧
    ∀ now, Evaluate s member now (set_lease applied) =
      if holds s member now then MkDecision ActionHold 0 else decide_at now at_.
Proof.
  clear Hpoll. intros Hs (Hl & He & Hz & Hg) Hm. destruct Happlied as (_ & _ & Hc & _).
  destruct (Evaluate_instant s member (set_lease applied) Hs Hc Hm)
    as (at_ & Hi & (e & k & Hin & Hk & Hat) & _ & Hev). exists at_. split_and!; [done| |done].
  destruct Hs as (_ & Hr & Hd). rewrite Forall_forall in Hr, He. specialize (Hr e Hin). specialize (He e Hin).
  assert (0 ≤ ChallengeDelay (set_lease applied) k ≤ 2 ^ 62) as Hdelay.
  { rewrite ChallengeDelay_min by done. destruct Hc as (_ & _ & ?). nia. }
  set (base := match state_Lease s with Some l => _ | None => _ end) in Hat.
  assert (inS 64 base ∧ base ≤ now + 2 ^ 42) as [Hb1 Hb2].
  { subst base. destruct (state_Lease s) as [l|]; [|done]. split; [by apply Hd|by apply Hl]. }
  clearbody base. change (2 ^ 62) with 4611686018427387904 in *. change (2 ^ 42) with 4398046511104 in *.
  subst at_. destruct (addMillis_spec base (ChallengeDelay (set_lease applied) k)) as [-> _]; [done|lia|].
  change max_wait with 9223372036854. Z.to_euclidean_division_equations. lia.
Qed.

(** One round of a member that is not in the roster yet: it registers, behind every other member. *)
Lemma quiet_register w s :
  role_wf role → member_wf member → inS 64 (q_now w) → offsets_distinct (q_log w partition) →
  BuildRoleState role (q_log w partition) = Ok s → member ∉ map entry_Member (Roster s) →
  ∃ off w', (∀ fuel, acquire_loop (S fuel) T applied partition role member false w =
      acquire_loop fuel T applied partition role member true w') ∧ q_now w' = q_now w ∧
    offsets_distinct (q_log w' partition) ∧
    (q_log w' partition = q_log w partition ++
      [MkStateRecord off (EncodeKey (RegistrationKey role member))
         (EncodeRegistration (MkRegistration member (q_now w)))]) ∧
    BuildRoleState role (q_log w' partition) =
      Ok (MkRoleState (Roster s ++ [MkRosterEntry member off (q_now w)]) (state_Lease s)).
Proof.
  clear Happlied Hpoll. intros Hr Hm Hn Hd Hs Hnot. set (k := EncodeKey (RegistrationKey role member)).
  set (v := EncodeRegistration (MkRegistration member (q_now w))).
  destruct (q_append partition k v w) as (off & w' & Ha & Hnow & Hl & Hlt).
  exists off, w'. split_and!; [|done|..|done|].
  - intros fuel. cbn [acquire_loop]. io_run (q_ctx (T := T) w). io_run (quiet_read w s Hs).
    io_run (q_clock (T := T) w). rewrite Evaluate_not_registered by done. cbn [dec_Action]. io_run (q_clock (T := T) w).
    fold k v. by io_run Ha.
  - rewrite Hl. unfold offsets_distinct. rewrite map_app. apply NoDup_app. split_and!; [done| |apply NoDup_singleton].
    intros o (r' & -> & Hr')%list_elem_of_fmap Ho%list_elem_of_singleton. specialize (Hlt r' Hr'). cbn in Ho. lia.
  - rewrite Hl. rewrite (BuildRoleState_register role _ s (MkStateRecord off k v) member
      (MkRegistration member (q_now w))); try done.
    + cbn. f_equal. f_equal. f_equal. apply filter_all.
      intros e He Heq. apply Hnot. rewrite <- Heq. by apply list_elem_of_fmap_2.
    + by apply DecodeKey_EncodeKey; split; [|left].
    + by apply DecodeRegistration_Encode.
Qed.
End Liveness.

(** C9: on a quiet cluster the acquisition finishes. A member that competes for a role registers if it
    must, waits for its turn and wins, whatever roster and lease it finds, provided that their instants
    are near the clock: no deadline and no registration is more than 2^42 ms (139 years) ahead of it, the
    stagger of the whole roster is at most 2^62 ms, and the poll interval is at least a millisecond.
    (Beyond that the wait wraps around and the loop spins: [millisUntil_wraps].) The run takes a bounded
    number of rounds, and it leaves the lease of the new leadership at the end of the log. *)
Theorem AcquireLeadership_finishes {W E} (S : Clock W) (T : Transport W E) options applied partition
    role member `{Q : !Quiet T (set_clock applied)} w s :
  newSettings S options = Ok applied → partitionOf applied role = Ok partition →
  Forall exported_option options → Millisecond ≤ set_pollInterval applied ≤ MaxInt64 →
  role_wf role → member_wf member → inS 64 (q_now w) → offsets_distinct (q_log w partition) →
  BuildRoleState role (q_log w partition) = Ok s →
  state_near applied s (zlen (Roster s) + 1) (q_now w) →
  ∃ rounds, ∀ fuel, (rounds ≤ fuel)%nat → ∃ h w' log,
    AcquireLeadership S fuel (Some T) role member options w = (Ok (Some h), w') ∧
    acquired T applied partition role member w' h log ∧
    (log = q_log w partition ∨ ∃ off, log = q_log w partition ++
       [MkStateRecord off (EncodeKey (RegistrationKey role member))
          (EncodeRegistration (MkRegistration member (q_now w)))]).
Proof.
  intros Hset Hpart Hopt Hpoll Hrole Hmember Hn Hd Hs Hnear.
  pose proof (newSettings_settings_wf _ _ _ Hopt Hset) as Hw.
  assert (∀ fuel, AcquireLeadership S fuel (Some T) role member options w =
    acquire_loop fuel T applied partition role member false w) as Hrun.
  { intros fuel. unfold AcquireLeadership. destruct Hrole as [[? _] _], Hmember as [[? _] _].
    rewrite !decide_False by done. rewrite Hset.
    rewrite (io_bind_run _ _ w applied w) by done. rewrite Hpart. by rewrite (io_bind_run _ _ w partition w). }
  setoid_rewrite Hrun. destruct (decide (member ∈ map entry_Member (Roster s))) as [Hin|Hin].
  - destruct (instant_near applied member Hw s _ _ (BuildRoleState_wf _ _ _ Hd Hs) Hnear Hin)
      as (at_ & Hat & Hm & He).
    exists (Datatypes.S (Z.to_nat (at_ - q_now w))). intros fuel Hf.
    destruct (quiet_registered T applied partition role member Hpoll (Z.to_nat (at_ - q_now w)) fuel false
      w s at_) as (h & w' & Hr & Ha); try done; try lia. eauto 10.
  - destruct (quiet_register T applied partition role member w s) as (off & w' & Hstep & Hn' & Hd' & Hl & Hs');
      try done.
    set (s' := MkRoleState (Roster s ++ [MkRosterEntry member off (q_now w)]) (state_Lease s)) in Hs'.
    assert (state_near applied s' (zlen (Roster s) + 1) (q_now w')) as Hnear'.
    { rewrite Hn'. destruct Hnear as (H1 & H2 & _ & H3). split_and!; [done|..].
      - apply Forall_app. split; [done|]. repeat constructor. cbn. lia.
      - cbn. rewrite zlen_app. by rewrite zlen_cons, zlen_nil.
      - done. }
    assert (member ∈ map entry_Member (Roster s')) as Hin'.
    { cbn. rewrite map_app. apply elem_of_app. right. apply list_elem_of_here. }
    destruct (instant_near applied member Hw s' _ _ (BuildRoleState_wf _ _ _ Hd' Hs') Hnear' Hin')
      as (at_ & Hat & Hm & He).
    exists (Datatypes.S (Datatypes.S (Z.to_nat (at_ - q_now w')))). intros fuel Hf.
    destruct fuel as [|fuel]; [lia|]. rewrite Hstep.
    destruct (quiet_registered T applied partition role member Hpoll (Z.to_nat (at_ - q_now w')) fuel true
      w' s' at_) as (h & w2 & Hr & Ha); try done; try lia; [by rewrite Hn'|]. eauto 10.
Qed.

(** ** A cluster in memory *)

(** One partition, one role at a time, and a clock that moves by the extent of every wait. *)
Record demo_world := MkDemo { dw_log : list StateRecord; dw_epoch : Z; dw_now : Z }.

Definition next_offset (log : list StateRecord) : Z :=
  foldr (λ r next, Z.max (rec_Offset r + 1) next) 0 log.

Lemma next_offset_lt log r : r ∈ log → rec_Offset r < next_offset log.
Proof.
  induction log as [|r' log IH]; [by intros ?%not_elem_of_nil|]. cbn.
  intros [->|Hr]%elem_of_cons; [lia|]. specialize (IH Hr). unfold next_offset in IH. lia.
Qed.

Definition demo_append (k v : bytes) (w : demo_world) : demo_world :=
  MkDemo (dw_log w ++ [MkStateRecord (next_offset (dw_log w)) k v]) (dw_epoch w) (dw_now w).

Definition demo_current (w : demo_world) : option FencingToken :=
  if dw_epoch w <=? 0 then None else Some (MkToken (dw_epoch w) 0).

Definition demo_transport : Transport demo_world bool := {|
  AcquireEpoch _ := λ w,
    let next := Z.max 0 (dw_epoch w) + 1 in (Ok (MkToken next 0), MkDemo (dw_log w) next (dw_now w));
  DescribeEpoch _ := λ w, (Ok (default NoEpoch (demo_current w), bool_decide (is_Some (demo_current w))), w);
  ReadPartition _ := λ w, (Ok (dw_log w), w);
  Append _ k v := λ w, (Ok tt, demo_append k v w);
  WriteLease _ t k v := λ w,
    if decide (demo_current w = Some t) then (Ok tt, demo_append k v w) else (Err true, w);
  transport_fenced e := e
|}.

Definition demo_clock : Clock demo_world := {|
  NowMillis w := (dw_now w, w);
  ctx_Err w := (None, w);
  select_After d w := (None, MkDemo (dw_log w) (dw_epoch w) (addMillis (dw_now w) d))
|}.

#[global] Instance demo_quiet : Quiet demo_transport demo_clock.
Proof.
  refine {| q_log w _ := dw_log w; q_now := dw_now; q_minted w t := demo_current w = Some t |}.
  - done.
  - done.
  - intros d w _. by eexists.
  - done.
  - intros p k v w. do 2 eexists. split; [done|]. split; [done|]. split; [done|]. apply next_offset_lt.
  - intros role w. do 2 eexists. split; [done|]. unfold demo_current. cbn.
    rewrite (proj2 (Z.leb_gt _ _)) by lia. done.
  - intros p t k v w Ht. do 2 eexists. cbn. by rewrite decide_True.
Defined.

#[global] Instance demo_cluster : Cluster demo_world.
Proof.
  refine {| epoch_of w _ := demo_current w; evolves w w' := dw_epoch w ≤ dw_epoch w' |}.
  - split; [intros ?; lia|intros ???; lia].
  - intros w w' _ t. unfold demo_current. destruct (Z.leb_spec (dw_epoch w) 0); [done|]. intros He [= <-].
    rewrite (proj2 (Z.leb_gt _ _)) by lia. eexists. split; [done|]. rewrite Supersedes_lex. cbn.
    destruct (decide (dw_epoch w' = dw_epoch w)) as [->|]; [by left|right; lia].
Defined.

#[global] Instance demo_adapter : Adapter demo_transport.
Proof.
  split; cbn.
  - by intros ???? [= _ <-].
  - by intros ?????? [= _ <-].
  - intros ???????. case_decide; by intros [= _ <-].
  - intros ???? [= _ <-]. cbn. lia.
  - intros role w t w' [= <- <-]. exists w, (MkDemo (dw_log w) (Z.max 0 (dw_epoch w) + 1) (dw_now w)).
    split_and!; [done| | |..].
    3:{ unfold demo_current. cbn. rewrite (proj2 (Z.leb_gt _ _)) by lia. done. }
    + cbn. lia.
    + done.
    + unfold demo_current. destruct (Z.leb_spec (dw_epoch w) 0); [done|]. intros t0 [= <-].
      rewrite Supersedes_lex. cbn. lia.
  - intros p t k v w w' role w0. case_decide; [|done]. intros [= <-] _ _. by exists w.
Qed.

#[global] Instance demo_ticking : TickingClock demo_clock.
Proof. split; cbn; intros; simplify_eq; cbn; lia. Qed.

Definition demo_partition : TopicPartition := MkTopicPartition StateTopic 6.
Definition demo_applied : settings demo_world := default_settings demo_clock.
Definition demo_start : demo_world := MkDemo demo_log 7 100.

Lemma AcquireLeadership_finishes_witness :
  ∃ rounds, ∀ fuel, (rounds ≤ fuel)%nat → ∃ h w',
    AcquireLeadership demo_clock fuel (Some demo_transport) demo_role demo_b [] demo_start = (Ok (Some h), w').
Proof.
  destruct (AcquireLeadership_finishes demo_clock demo_transport [] demo_applied
    (MkTopicPartition StateTopic (Z.rem (Z.land (murmur2 (str "controller")) 0x7fffffff) 16))
    demo_role demo_b demo_start demo_state) as [rounds H].
  - reflexivity.
  - vm_compute. reflexivity.
  - constructor.
  - split; discriminate.
  - by_decide.
  - by_decide.
  - by_decide.
  - by_decide.
  - vm_compute. reflexivity.
  - split_and!; [intros l [= <-]; vm_compute; discriminate|by_decide|by_decide|by_decide].
  - exists rounds. intros fuel Hf. destruct (H fuel Hf) as (h & w' & _ & Hr & _). by exists h, w'.
Defined.

(** A run of the acquisition in memory, and whether it won. *)
Definition demo_run (member : MemberID) : io demo_world (Error bool) (option (Leadership demo_world bool)) :=
  AcquireLeadership demo_clock 50 (Some demo_transport) demo_role member [].

Definition won (r : result (Error bool) (option (Leadership demo_world bool)) * demo_world) : bool :=
  match r with (Ok (Some _), _) => true | _ => false end.

#[local] Strategy expand [demo_run].

Lemma won_inv m w : won (demo_run m w) = true → ∃ h w', demo_run m w = (Ok (Some h), w').
Proof. destruct (demo_run m w) as [[[h|]|] w']; [eauto|done|done]. Qed.

Lemma later_leader_fences_witness :
  ∃ h1 w1 h2 w2, demo_run demo_a demo_start = (Ok (Some h1), w1) ∧ demo_run demo_b w1 = (Ok (Some h2), w2) ∧
    Supersedes (lead_token h2) (lead_token h1) = true ∧
    ∀ p k v w5, WriteLease demo_transport p (lead_token h1) k v w2 ≠ (Ok tt, w5).
Proof.
  assert (won (demo_run demo_b (demo_run demo_a demo_start).2) = true) as H2 by (vm_compute; reflexivity).
  destruct (won_inv demo_a demo_start) as (h1 & w1 & E1); [vm_compute; reflexivity|].
  rewrite E1 in H2. apply won_inv in H2 as (h2 & w2 & E2). exists h1, w1, h2, w2.
  cbn [snd] in E2. split; [exact E1|]. split; [exact E2|]. unfold demo_run in E1, E2.
  apply (later_leader_fences demo_clock demo_transport demo_transport demo_role demo_a demo_b [] [] 50 50
    h1 h2 demo_start w1 w1 w2 w2); [|exact E1|reflexivity|exact E2|reflexivity].
  intros applied [[= <-]|[= <-]]; apply demo_ticking.
Defined.
