(* ===== verification/Handle.v ===== *)
(** * The live leadership

    The handle of [coordination/leadership.go]: [Renew], [Resign], [end] and [renewLoop], which run
    concurrently over one [Leadership]. Each is a program over the atomic actions of the source (a
    section under the mutex, [closed.Do], a cancel, one call of the writer or of the clock), and the
    programs have two meanings here: [run] executes one of them alone, and [hstep] interleaves any
    number of them over the shared handle. A program that ran out of the rounds it was unrolled to is
    [Running]: [run] has no result for it, and it takes no further step. *)

From S2P Require Import Prelude GoStd Record Lease Succession Leadership.

(** The fields that change. [h_done] counts the executions of [close(l.done)]; [h_once] is the state of
    [closed], the [sync.Once]. *)
Record handle (E : Type) := MkHandle {
  h_lease : Lease;
  h_err : option (Error E);
  h_once : bool;
  h_done : nat;
  h_cancelled : bool
}.
Arguments MkHandle {E}.
Arguments h_lease {E}.
Arguments h_err {E}.
Arguments h_once {E}.
Arguments h_done {E}.
Arguments h_cancelled {E}.

(** The handle that [newLeadership] builds. *)
Definition new_handle {E} (lease : Lease) : handle E := MkHandle lease None false 0 false.

(** ** Programs *)

Section Programs.
Context {E : Type}.

Inductive prog :=
| Running
| Ret (r : result (Error E) unit)
| ReadErr (k : option (Error E) → prog)
| ReadLease (k : Lease → prog)
| SetErr (reason : Error E) (k : prog)
| CloseOnce (k : prog)
| Cancel (k : prog)
| StoreLease (lease : Lease) (k : prog)
| Now (k : Z → prog)
| ReadCtx (k : option ctx_error → prog)
| Select (extent : Duration) (k : option ctx_error → prog)
| Write (value : option Lease) (k : result E unit → prog).

Context {W : Type} (l : Leadership W E).

(** [if l.err == nil { l.err = reason }], then [closed.Do(close)], then [cancel]. *)
Definition end_ (reason : Error E) (k : prog) : prog := SetErr reason (CloseOnce (Cancel k)).

Definition Renew (k : result (Error E) unit → prog) : prog :=
  ReadErr (λ err,
    match err with
    | Some e => k (Err e)
    | None =>
        Now (λ now,
          let lease := Grant (lead_config l) (lead_member l) (lead_token l) now in
          Write (Some lease) (λ r,
            match r with
            | Err e =>
                let failed := k (Err (RenewFault (lead_role l) e)) in
                if transport_fenced (lead_writer l) e then end_ (Fenced (lead_role l)) failed else failed
            | Ok _ => StoreLease lease (k (Ok tt))
            end))
    end).

Definition Resign : prog :=
  ReadErr (λ err,
    end_ (NotHeld (lead_role l))
      (match err with
       | Some _ => Ret (Ok tt)
       | None =>
           Write None (λ r,
             match r with
             | Err e =>
                 if transport_fenced (lead_writer l) e then Ret (Ok tt)
                 else Ret (Err (ClearFault (lead_role l) e))
             | Ok _ => Ret (Ok tt)
             end)
       end)).

(** [wait] under the context of the loop. *)
Definition loop_wait (extent : Duration) (k : bool → prog) : prog :=
  ReadCtx (λ cancelled,
    match cancelled with
    | Some _ => k true
    | None =>
        if extent <=? 0 then k false
        else Select extent (λ cancelled, k (bool_decide (is_Some cancelled)))
    end).

(** The loop, unrolled [fuel] times. *)
Fixpoint renewLoop (fuel : nat) : prog :=
  match fuel with
  | O => Running
  | S fuel =>
      ReadLease (λ lease,
        let timing := Timing (lead_config l) lease in
        Now (λ now,
          loop_wait (millisUntil (RenewAt timing) now) (λ cancelled,
            if cancelled : bool then Ret (Ok tt) else
            Renew (λ r,
              match r with
              | Ok _ => renewLoop fuel
              | Err e =>
                  if is_fenced (transport_fenced (lead_writer l)) e || is_not_held e then Ret (Err e)
                  else
                    Now (λ now,
                      if ExpiresAt timing <=? now
                      then end_ (Expired (lead_role l) (ExpiresAt timing) e) (Ret (Err e))
                      else loop_wait (lead_retry l) (λ cancelled,
                             if cancelled : bool then Ret (Ok tt) else renewLoop fuel))
              end))))
  end.
End Programs.
Arguments prog : clear implicits.

(** ** Running one program alone *)

Section Run.
Context {W E : Type} (l : Leadership W E).

Definition set_err (h : handle E) (reason : Error E) : handle E :=
  match h_err h with
  | Some _ => h
  | None => MkHandle (h_lease h) (Some reason) (h_once h) (h_done h) (h_cancelled h)
  end.

Definition close_once (h : handle E) : handle E :=
  if h_once h then h
  else MkHandle (h_lease h) (h_err h) true (S (h_done h)) (h_cancelled h).

Definition cancel (h : handle E) : handle E :=
  MkHandle (h_lease h) (h_err h) (h_once h) (h_done h) true.

Definition store_lease (h : handle E) (lease : Lease) : handle E :=
  MkHandle lease (h_err h) (h_once h) (h_done h) (h_cancelled h).

(** The record that a write of the handle puts under the lease key: a lease, or a tombstone. *)
Definition write_lease (value : option Lease) : io W E unit :=
  WriteLease (lead_writer l) (lead_partition l) (lead_token l) (EncodeKey (LeaseKey (lead_role l)))
    (match value with Some lease => EncodeLease lease | None => [] end).

Fixpoint run (p : prog E) (h : handle E) (w : W) : option (result (Error E) unit) * handle E * W :=
  match p with
  | Running => (None, h, w)
  | Ret r => (Some r, h, w)
  | ReadErr k => run (k (h_err h)) h w
  | ReadLease k => run (k (h_lease h)) h w
  | SetErr reason k => run k (set_err h reason) w
  | CloseOnce k => run k (close_once h) w
  | Cancel k => run k (cancel h) w
  | StoreLease lease k => run k (store_lease h lease) w
  | Now k => let '(now, w) := NowMillis (lead_clock l) w in run (k now) h w
  | ReadCtx k => run (k (if h_cancelled h then Some Canceled else None)) h w
  | Select extent k => let '(c, w) := select_After (lead_clock l) extent w in run (k c) h w
  | Write value k => let '(r, w) := write_lease value w in run (k r) h w
  end.
End Run.

(** ** The interleaving *)

(** What the handle committed to the log, oldest first. A write that reports an error may have reached
    the log all the same ([step_Lost]). *)
Definition committed := list (option Lease).

Inductive hstep {E} : handle E → prog E → handle E → prog E → committed → Prop :=
| step_ReadErr h k : hstep h (ReadErr k) h (k (h_err h)) []
| step_ReadLease h k : hstep h (ReadLease k) h (k (h_lease h)) []
| step_SetErr h reason k : hstep h (SetErr reason k) (set_err h reason) k []
| step_CloseOnce h k : hstep h (CloseOnce k) (close_once h) k []
| step_Cancel h k : hstep h (Cancel k) (cancel h) k []
| step_StoreLease h lease k : hstep h (StoreLease lease k) (store_lease h lease) k []
| step_Now h k now : hstep h (Now k) h (k now) []
| step_ReadCtx h k : hstep h (ReadCtx k) h (k (if h_cancelled h then Some Canceled else None)) []
| step_Fires h extent k : hstep h (Select extent k) h (k None) []
| step_Cancelled h extent k : h_cancelled h = true → hstep h (Select extent k) h (k (Some Canceled)) []
| step_Commits h value k : hstep h (Write value k) h (k (Ok tt)) [value]
| step_Refused h value k e : hstep h (Write value k) h (k (Err e)) []
| step_Lost h value k e : hstep h (Write value k) h (k (Err e)) [value].

(** The handle, its goroutines, and its commits. *)
Record system (E : Type) := MkSystem { sys_handle : handle E; sys_threads : list (prog E); sys_log : committed }.
Arguments MkSystem {E}.
Arguments sys_handle {E}.
Arguments sys_threads {E}.
Arguments sys_log {E}.

Inductive sstep {W E} (l : Leadership W E) : system E → system E → Prop :=
| step_thread h h' ts i p p' log new :
    ts !! i = Some p → hstep h p h' p' new →
    sstep l (MkSystem h ts log) (MkSystem h' (<[i := p']> ts) (log ++ new))
| step_call_Renew h ts log : sstep l (MkSystem h ts log) (MkSystem h (ts ++ [Renew l Ret]) log)
| step_call_Resign h ts log : sstep l (MkSystem h ts log) (MkSystem h (ts ++ [Resign l]) log).

(** A leadership right after the acquisition: the background loop is its one goroutine. *)
Definition sys_start {W E} (l : Leadership W E) (rounds : nat) : system E :=
  MkSystem (new_handle (lead_first l)) [renewLoop l rounds] [Some (lead_first l)].

(** ** The life cycle *)

(** A program closes the channel only after the reason is recorded, cancels only after the close, and
    writes only leases of the leadership. [b] says that the reason is recorded, [c] that the channel is
    closed. *)
Inductive orderly {W E} (l : Leadership W E) : bool → bool → prog E → Prop :=
| ord_Running b c : orderly l b c Running
| ord_Ret b c r : orderly l b c (Ret r)
| ord_ReadErr b c k : (∀ e, orderly l b c (k e)) → orderly l b c (ReadErr k)
| ord_ReadLease b c k : (∀ e, orderly l b c (k e)) → orderly l b c (ReadLease k)
| ord_SetErr b c reason k : orderly l true c k → orderly l b c (SetErr reason k)
| ord_CloseOnce c k : orderly l true true k → orderly l true c (CloseOnce k)
| ord_Cancel b k : orderly l b true k → orderly l b true (Cancel k)
| ord_StoreLease b c lease k : orderly l b c k → orderly l b c (StoreLease lease k)
| ord_Now b c k : (∀ e, orderly l b c (k e)) → orderly l b c (Now k)
| ord_ReadCtx b c k : (∀ e, orderly l b c (k e)) → orderly l b c (ReadCtx k)
| ord_Select b c extent k : (∀ e, orderly l b c (k e)) → orderly l b c (Select extent k)
| ord_Write b c value k :
    (∀ lease, value = Some lease →
       lease = Grant (lead_config l) (lead_member l) (lead_token l) (lease_GrantedAt lease)) →
    (∀ r, orderly l b c (k r)) → orderly l b c (Write value k).

Section LifeCycle.
Context {W E : Type} (l : Leadership W E).

Lemma orderly_mono b c b' c' p :
  (b = true → b' = true) → (c = true → c' = true) → orderly l b c p → orderly l b' c' p.
Proof.
  intros Hb Hc H. revert b' c' Hb Hc. induction H; intros b' c' Hb Hc; try (constructor; eauto; fail).
  - rewrite (Hb eq_refl). constructor. eauto.
  - rewrite (Hc eq_refl). constructor. eauto.
Qed.

Lemma end_orderly b c reason k : orderly l true true k → orderly l b c (end_ reason k).
Proof. intros H. do 2 constructor. by constructor. Qed.

Lemma Renew_orderly b c k : (∀ r b c, orderly l b c (k r)) → orderly l b c (Renew l k).
Proof.
  intros Hk. constructor. intros [e|]; [done|]. constructor. intros now. constructor.
  - intros lease [= <-]. done.
  - intros [[]|e]; [by constructor|]. cbn. case_match; [by apply end_orderly|done].
Qed.

Lemma Resign_orderly b c : orderly l b c (Resign l).
Proof.
  constructor. intros err. apply end_orderly. destruct err; [constructor|]. constructor; [done|].
  intros [[]|e]; [constructor|]. case_match; constructor.
Qed.

Lemma loop_wait_orderly extent b c k : (∀ r, orderly l b c (k r)) → orderly l b c (loop_wait extent k).
Proof.
  intros Hk. constructor. intros [?|]; [done|]. case_match; [done|]. by constructor.
Qed.

Lemma renewLoop_orderly rounds b c : orderly l b c (renewLoop l rounds).
Proof.
  revert b c. induction rounds as [|n IH]; intros b c; [constructor|]. cbn. constructor. intros lease.
  constructor. intros now. apply loop_wait_orderly. intros []; [constructor|]. apply Renew_orderly.
  intros [[]|e] b' c'; [done|]. case_match; [constructor|]. constructor. intros now'.
  case_match; [apply end_orderly; constructor|]. apply loop_wait_orderly. intros []; [constructor|done].
Qed.

(** Every lease that reached the log names this member and its token, with the deadline of the policy. *)
Definition own_lease (lease : Lease) : Prop :=
  lease = Grant (lead_config l) (lead_member l) (lead_token l) (lease_GrantedAt lease).

Definition sys_inv (s : system E) : Prop :=
  let h := sys_handle s in
  h_done h = (if h_once h then 1%nat else 0%nat) ∧
  (h_once h = true → is_Some (h_err h)) ∧
  (h_cancelled h = true → h_once h = true) ∧
  Forall (orderly l (bool_decide (is_Some (h_err h))) (h_once h)) (sys_threads s) ∧
  (∀ lease, Some lease ∈ sys_log s → own_lease lease).

Lemma orderly_CloseOnce b c k : orderly l b c (CloseOnce k) → b = true ∧ orderly l true true k.
Proof. by inversion 1. Qed.
Lemma orderly_Cancel b c k : orderly l b c (Cancel k) → c = true ∧ orderly l b true k.
Proof. by inversion 1. Qed.

(** The flags of a handle only go up. *)
Definition handle_le (h h' : handle E) : Prop :=
  (is_Some (h_err h) → h_err h' = h_err h) ∧ (h_once h = true → h_once h' = true) ∧
  (h_cancelled h = true → h_cancelled h' = true).

Lemma hstep_le h p h' p' new : hstep h p h' p' new → handle_le h h'.
Proof.
  intros []; try done; unfold handle_le, set_err, close_once, cancel, store_lease; cbn;
    repeat case_match; cbn; split_and!; try done; by intros [? ?].
Qed.

Lemma hstep_inv h p h' p' new :
  hstep h p h' p' new →
  h_done h = (if h_once h then 1%nat else 0%nat) → (h_once h = true → is_Some (h_err h)) →
  (h_cancelled h = true → h_once h = true) →
  orderly l (bool_decide (is_Some (h_err h))) (h_once h) p →
  h_done h' = (if h_once h' then 1%nat else 0%nat) ∧ (h_once h' = true → is_Some (h_err h')) ∧
  (h_cancelled h' = true → h_once h' = true) ∧
  orderly l (bool_decide (is_Some (h_err h'))) (h_once h') p' ∧
  (∀ lease, Some lease ∈ new → own_lease lease).
Proof.
  intros Hs Hd Ho Hc Hp. destruct Hs;
    match type of Hp with
    | orderly _ _ _ (CloseOnce _) => apply orderly_CloseOnce in Hp as [Hb Hk]
    | orderly _ _ _ (Cancel _) => apply orderly_Cancel in Hp as [Hb Hk]
    | _ => inversion Hp; subst
    end;
    try (split_and!; try done; try (intros ? ?%list_elem_of_singleton; auto); by intros ? ?%not_elem_of_nil).
  - unfold set_err. destruct (h_err h) eqn:E0; cbn in *; rewrite ?E0; cbn; split_and!; try done;
      by intros ? ?%not_elem_of_nil.
  - pose proof Hb as Hb'. apply bool_decide_eq_true in Hb'. unfold close_once.
    destruct (h_once h) eqn:E0; cbn; rewrite ?E0, ?Hb; split_and!; try done; try lia;
      by intros ? ?%not_elem_of_nil.
  - unfold cancel. cbn. rewrite Hb in *. split_and!; try done; by intros ? ?%not_elem_of_nil.
  - split_and!; try done. intros lease Hin%list_elem_of_singleton. unfold own_lease. auto.
  - split_and!; try done. intros lease Hin%list_elem_of_singleton. unfold own_lease. auto.
Qed.

Lemma sys_inv_start rounds : own_lease (lead_first l) → sys_inv (sys_start l rounds).
Proof.
  intros Hl. split_and!; try done.
  - apply Forall_singleton, renewLoop_orderly.
  - by intros lease [= ->]%list_elem_of_singleton.
Qed.

Lemma sys_inv_step s s' : sstep l s s' → sys_inv s → sys_inv s'.
Proof.
  intros Hs (Hd & Ho & Hc & Hts & Hlog). destruct Hs as [h h' ts i p p' log new Hi Hp| |]; cbn in *.
  - pose proof (hstep_le _ _ _ _ _ Hp) as (He & Hon & _).
    pose proof (Forall_lookup_1 _ _ _ _ Hts Hi) as Hord.
    destruct (hstep_inv _ _ _ _ _ Hp Hd Ho Hc Hord) as (Hd' & Ho' & Hc' & Hp' & Hnew).
    split_and!; cbn; try done.
    + apply Forall_insert; [|done]. eapply Forall_impl; [done|]. intros q. apply orderly_mono; [|done].
      rewrite !bool_decide_eq_true. intros H. by rewrite He.
    + intros lease [?|?]%elem_of_app; auto.
  - split_and!; cbn; try done. apply Forall_app. split; [done|]. apply Forall_singleton.
    apply Renew_orderly. intros; constructor.
  - split_and!; cbn; try done. apply Forall_app. split; [done|].
    apply Forall_singleton, Resign_orderly.
Qed.

Lemma sys_inv_reachable rounds s :
  own_lease (lead_first l) → rtc (sstep l) (sys_start l rounds) s → sys_inv s.
Proof.
  intros Hl Hr. pose proof (sys_inv_start rounds Hl) as H. revert H.
  induction Hr; eauto using sys_inv_step.
Qed.

Lemma sstep_le s s' : sstep l s s' → handle_le (sys_handle s) (sys_handle s').
Proof. intros []; cbn; try done. by eapply hstep_le. Qed.

Lemma steps_le s s' : rtc (sstep l) s s' → handle_le (sys_handle s) (sys_handle s').
Proof.
  induction 1 as [|s1 s2 s3 H%sstep_le _ (He & Ho & Hc)]; [done|]. destruct H as (He' & Ho' & Hc').
  split_and!; auto. intros Hs. rewrite He; [auto|]. by rewrite He'.
Qed.
End LifeCycle.

(** C11: the life cycle of a leadership, for every interleaving of the background loop with any number
    of calls of [Renew] and [Resign]. The done channel is closed at most once (a second close would
    panic); from the close on [Err] reports a reason, and the reason never changes; the loop is only
    cancelled after the close; and every lease record that the handle commits names its member and its
    token, with the deadline of its policy. *)
Theorem leadership_lifecycle {W E} (l : Leadership W E) rounds s :
  own_lease l (lead_first l) → rtc (sstep l) (sys_start l rounds) s →
  (h_done (sys_handle s) ≤ 1)%nat ∧
  (h_done (sys_handle s) = 1%nat → is_Some (h_err (sys_handle s))) ∧
  (h_cancelled (sys_handle s) = true → h_done (sys_handle s) = 1%nat) ∧
  (∀ s' e, rtc (sstep l) s s' → h_err (sys_handle s) = Some e → h_err (sys_handle s') = Some e) ∧
  (∀ lease, Some lease ∈ sys_log s → own_lease l lease).
Proof.
  intros Hl Hr. destruct (sys_inv_reachable l rounds s Hl Hr) as (Hd & Ho & Hc & _ & Hlog).
  split_and!; [| | | |done].
  - rewrite Hd. case_match; lia.
  - rewrite Hd. destruct (h_once _); [auto|done].
  - intros H. by rewrite Hd, Hc.
  - intros s' e (He & _ & _)%steps_le Hs. by rewrite He.
Qed.

(** One step of one goroutine, on a concrete system. *)
Tactic Notation "thread_step" constr(i) uconstr(step) :=
  eapply rtc_l; [eapply (step_thread _ _ _ _ i); [reflexivity|apply step]|].

(** A resignation can be undone by a concurrent renewal. When a renewal passed its check before the
    resignation began, the broker still accepts its write, since the token did not change; the lease
    that it commits after the tombstone is live, so the standbys wait for its deadline although
    [Resign] returned without an error. *)
Theorem renewal_outlives_resignation {W E} (l : Leadership W E) rounds now :
  ∃ s lease, rtc (sstep l) (sys_start l rounds) s ∧ Ret (Ok tt) ∈ sys_threads s ∧
    h_err (sys_handle s) = Some (NotHeld (lead_role l)) ∧ h_done (sys_handle s) = 1%nat ∧
    sys_log s = [Some (lead_first l); None; Some lease] ∧
    lease = Grant (lead_config l) (lead_member l) (lead_token l) now.
Proof.
  unfold sys_start. eexists _, _. split.
  { eapply rtc_l; [apply step_call_Renew|]. eapply rtc_l; [apply step_call_Resign|].
    (* The renewal checks [Err], reads the clock, and is about to write. *)
    thread_step 1%nat step_ReadErr.
    thread_step 1%nat (step_Now _ _ now).
    (* The resignation runs to its end. *)
    thread_step 2%nat step_ReadErr.
    thread_step 2%nat step_SetErr.
    thread_step 2%nat step_CloseOnce.
    thread_step 2%nat step_Cancel.
    thread_step 2%nat step_Commits.
    (* The write of the renewal commits. *)
    thread_step 1%nat step_Commits.
    apply rtc_refl. }
  cbn. split_and!; try done. set_solver.
Qed.

(** ** One operation alone *)

(** What [end] leaves behind. *)
Definition ended {E} (h : handle E) (reason : Error E) : handle E := cancel (close_once (set_err h reason)).

Lemma run_end {W E} (l : Leadership W E) reason k h w : run l (end_ reason k) h w = run l k (ended h reason) w.
Proof. done. Qed.

(** After the end of a leadership its handle is silent: [Renew] reports the reason of the end,
    [Resign] and the loop return, and none of them writes a record or changes the reason. The one
    operation that ends a live leadership by itself is [Resign]: it records [ErrNotHeld], closes the
    channel and writes the tombstone once, and a refusal by the broker is no error then. A renewal that
    the broker fences ends the leadership with [ErrFenced]. *)
Theorem ended_leadership_silent {W E} (l : Leadership W E) h w :
  match h_err h with
  | Some e =>
      run l (Renew l Ret) h w = (Some (Err e), h, w) ∧
      run l (Resign l) h w = (Some (Ok tt), cancel (close_once h), w) ∧
      (h_cancelled h = true → ∀ rounds,
         run l (renewLoop l (S rounds)) h w = (Some (Ok tt), h, (NowMillis (lead_clock l) w).2))
  | None =>
      (∀ now w1 r w2, NowMillis (lead_clock l) w = (now, w1) →
         write_lease l (Some (Grant (lead_config l) (lead_member l) (lead_token l) now)) w1 = (r, w2) →
         run l (Renew l Ret) h w =
           match r with
           | Ok _ => (Some (Ok tt), store_lease h (Grant (lead_config l) (lead_member l) (lead_token l) now), w2)
           | Err e => (Some (Err (RenewFault (lead_role l) e)),
                       if transport_fenced (lead_writer l) e then ended h (Fenced (lead_role l)) else h, w2)
           end) ∧
      (∀ r w1, write_lease l None w = (r, w1) →
         run l (Resign l) h w =
           (Some match r with
                 | Ok _ => Ok tt
                 | Err e => if transport_fenced (lead_writer l) e then Ok tt else Err (ClearFault (lead_role l) e)
                 end, ended h (NotHeld (lead_role l)), w1))
  end.
Proof.
  destruct (h_err h) as [e|] eqn:He.
  - split_and!.
    + cbn. by rewrite He.
    + cbn. rewrite He. cbn. unfold set_err. by rewrite He.
    + intros Hc rounds. cbn. destruct (NowMillis (lead_clock l) w) as [now w1]. cbn.
      by rewrite Hc.
  - split.
    + intros now w1 r w2 Hn Hw. cbn. rewrite He. cbn. rewrite Hn, Hw. destruct r as [[]|e]; [done|].
      cbn. by destruct (transport_fenced (lead_writer l) e).
    + intros r w1 Hw. cbn. rewrite He. cbn. rewrite Hw. destruct r as [[]|e]; [done|].
      by destruct (transport_fenced (lead_writer l) e).
Qed.

(** ** A holder that cannot renew *)

Section Expiry.
Context {W E : Type} (l : Leadership W E) (now : W → Z) (D : Z).
Context (Hnow : ∀ w, NowMillis (lead_clock l) w = (now w, w))
  (Hselect : ∀ d w, 0 < d → ∃ w', select_After (lead_clock l) d w = (None, w') ∧ now w' = addMillis (now w) d)
  (Hwrite : ∀ lease w, ∃ e w', write_lease l (Some lease) w = (Err e, w') ∧
     transport_fenced (lead_writer l) e = false ∧ now w ≤ now w' ≤ now w + D ∧ (inS 64 (now w) → inS 64 (now w')))
  (Hretry : Millisecond ≤ lead_retry l ≤ MaxInt64).

(** [e] reports the failure of a write that left the world [w']. *)
Definition last_failure (e : Error E) (w' : W) : Prop :=
  ∃ e0 w0, write_lease l (Some (Grant (lead_config l) (lead_member l) (lead_token l) (now w0))) w0 = (Err e0, w') ∧
    e = RenewFault (lead_role l) e0.

Lemma loop_wait_runs extent k h w :
  h_cancelled h = false → extent ≤ MaxInt64 → inS 64 (now w) →
  ∃ w', run l (loop_wait extent k) h w = run l (k false) h w' ∧
    now w' = addMillis (now w) (Z.max 0 extent) ∧ inS 64 (now w').
Proof.
  intros Hc He Hn. unfold loop_wait. cbn [run]. rewrite Hc. destruct (Z.leb_spec extent 0) as [Hle|Hlt].
  - exists w. rewrite Z.max_l by lia. rewrite addMillis_0 by done. done.
  - destruct (Hselect extent w Hlt) as (w' & Hs & Hw'). exists w'. cbn [run]. rewrite Hs. split; [done|].
    rewrite Z.max_r by lia. split; [done|]. rewrite Hw'. apply addMillis_spec; [done|lia].
Qed.

Lemma renew_round rounds h w :
  h_err h = None → h_cancelled h = false → inS 64 (now w) → inS 64 (lease_Deadline (h_lease h)) →
  lease_Deadline (h_lease h) - now w ≤ max_wait →
  inS 64 (RenewAt (Timing (lead_config l) (h_lease h))) →
  ∃ e w', now w ≤ now w' ≤ Z.max (now w) (lease_Deadline (h_lease h)) + D ∧ inS 64 (now w') ∧ last_failure e w' ∧
    run l (renewLoop l (S rounds)) h w =
      if lease_Deadline (h_lease h) <=? now w'
      then (Some (Err e), ended h (Expired (lead_role l) (lease_Deadline (h_lease h)) e), w')
      else run l (loop_wait (lead_retry l) (λ cancelled, if cancelled : bool then Ret (Ok tt) else renewLoop l rounds)) h w'.
Proof.
  intros He Hc Hn Hd Hm Hr. cbn [renewLoop run]. rewrite Hnow.
  set (at_ := RenewAt _) in *. assert (at_ ≤ lease_Deadline (h_lease h)) as Hle by apply Z.le_min_r.
  rewrite millisUntil_spec by (done || lia).
  destruct (loop_wait_runs (Z.max 0 (at_ - now w) * Millisecond) (λ cancelled,
    if cancelled : bool then Ret (Ok tt) else
    Renew l (λ r, match r with
              | Ok _ => renewLoop l rounds
              | Err e =>
                  if is_fenced (transport_fenced (lead_writer l)) e || is_not_held e then Ret (Err e)
                  else Now (λ now,
                      if ExpiresAt (Timing (lead_config l) (h_lease h)) <=? now
                      then end_ (Expired (lead_role l) (ExpiresAt (Timing (lead_config l) (h_lease h))) e) (Ret (Err e))
                      else loop_wait (lead_retry l) (λ cancelled,
                             if cancelled : bool then Ret (Ok tt) else renewLoop l rounds))
              end)) h w Hc) as (w1 & -> & Hw1 & Hi1); [|done|].
  { change max_wait with 9223372036854 in Hm. unfold Millisecond in *. lia. }
  cbn [run Renew]. rewrite He. cbn [run]. rewrite Hnow.
  destruct (Hwrite (Grant (lead_config l) (lead_member l) (lead_token l) (now w1)) w1) as (e & w2 & Hrun & Hf & Hw2 & Hi2).
  rewrite Hrun, Hf. cbn [is_fenced is_not_held]. rewrite Hf. cbn [orb run]. rewrite Hnow.
  exists (RenewFault (lead_role l) e), w2. split; [|split; [by apply Hi2|split; [by exists e, w1|]]].
  - cut (now w ≤ now w1 ≤ Z.max (now w) (lease_Deadline (h_lease h))); [lia|]. rewrite Hw1. change max_wait with 9223372036854 in Hm. unfold Millisecond in *.
    destruct (addMillis_spec (now w) (Z.max 0 (Z.max 0 (at_ - now w) * 1000000))) as [-> _]; [done|lia|].
    unfold maxMillis, inS in *. width_consts. Z.to_euclidean_division_equations. lia.
  - change (ExpiresAt (Timing (lead_config l) (h_lease h))) with (lease_Deadline (h_lease h)).
    destruct (lease_Deadline (h_lease h) <=? now w2); reflexivity.
Qed.

Lemma renew_rounds n rounds h w :
  h_err h = None → h_cancelled h = false → inS 64 (now w) → inS 64 (lease_Deadline (h_lease h)) →
  lease_Deadline (h_lease h) - now w ≤ Z.min max_wait (Z.of_nat n) →
  inS 64 (RenewAt (Timing (lead_config l) (h_lease h))) → (n < rounds)%nat →
  ∃ e w', run l (renewLoop l rounds) h w =
      (Some (Err e), ended h (Expired (lead_role l) (lease_Deadline (h_lease h)) e), w') ∧ last_failure e w' ∧
    lease_Deadline (h_lease h) ≤ now w' ≤
      Z.max (now w) (lease_Deadline (h_lease h) + Milliseconds (lead_retry l)) + D.
Proof.
  intros He Hc Hn Hd Hm Hr. revert rounds w Hn Hm. induction n as [|n IH]; intros rounds w Hn Hm Hlt;
    (destruct rounds as [|rounds]; [lia|]);
    destruct (renew_round rounds h w) as (e & w1 & Hw1 & Hi1 & Hlast & Hrun); try done; try lia; rewrite Hrun;
    destruct (Milliseconds_bounds (lead_retry l)) as [Hms Hmeq]; try (unfold Millisecond in *; lia);
    (destruct (Z.leb_spec (lease_Deadline (h_lease h)) (now w1)); [exists e, w1; split_and!; [done|done|lia|lia]|]);
    [lia|].
  destruct (loop_wait_runs (lead_retry l) (λ cancelled : bool, if cancelled then Ret (Ok tt) else renewLoop l rounds)
    h w1 Hc) as (w2 & -> & Hw2 & Hi2); [lia|done|].
  assert (now w < now w2 ≤ lease_Deadline (h_lease h) + Milliseconds (lead_retry l)) as Hstep.
  { rewrite Hw2. destruct (addMillis_spec (now w1) (Z.max 0 (lead_retry l))) as [-> _];
      [unfold inS in *; lia|lia|]. rewrite Hmeq. unfold maxMillis, Millisecond, inS in *. width_consts.
    Z.to_euclidean_division_equations. lia. }
  destruct (IH rounds w2) as (e' & w' & Hr' & Hl' & Hb); [done|lia|lia|]. exists e', w'. split_and!; [done|done|lia|lia].
Qed.
End Expiry.

(** C38: a holder that cannot renew gives up by itself. Suppose that every renewal fails for a reason other
    than a fence, that no write takes more than [D] ms, that a wait takes its extent, and that the deadline
    of the last lease is at most [max_wait] (292 years) ahead. Then the loop ends, and with it the
    leadership, with the error of the last attempt (the write that left the final state): not before the
    deadline, and at most one retry interval and one write after it (or one write after the start, when the
    loop starts late). *)
Theorem renewLoop_expires {W E} (l : Leadership W E) (now : W → Z) D h w :
  (∀ w, NowMillis (lead_clock l) w = (now w, w)) →
  (∀ d w, 0 < d → ∃ w', select_After (lead_clock l) d w = (None, w') ∧ now w' = addMillis (now w) d) →
  (∀ lease w, ∃ e w', write_lease l (Some lease) w = (Err e, w') ∧
     transport_fenced (lead_writer l) e = false ∧ now w ≤ now w' ≤ now w + D ∧ (inS 64 (now w) → inS 64 (now w'))) →
  Millisecond ≤ lead_retry l ≤ MaxInt64 → config_wf (lead_config l) →
  h_err h = None → h_once h = false → h_cancelled h = false → inS 64 (now w) →
  inS 64 (lease_GrantedAt (h_lease h)) → inS 64 (lease_Deadline (h_lease h)) →
  lease_Deadline (h_lease h) - now w ≤ max_wait →
  ∃ rounds, ∀ fuel, (rounds ≤ fuel)%nat → ∃ e h' w',
    run l (renewLoop l fuel) h w = (Some (Err e), h', w') ∧ last_failure l now e w' ∧
    h_err h' = Some (Expired (lead_role l) (lease_Deadline (h_lease h)) e) ∧
    h_done h' = S (h_done h) ∧ h_cancelled h' = true ∧
    lease_Deadline (h_lease h) ≤ now w' ≤
      Z.max (now w) (lease_Deadline (h_lease h) + Milliseconds (lead_retry l)) + D.
Proof.
  intros Hnow Hsel Hw Hret Hcfg He Ho Hc Hn Hg Hd Hm.
  assert (inS 64 (RenewAt (Timing (lead_config l) (h_lease h)))) as Hr.
  { unfold RenewAt. cbn. destruct Hcfg as (? & ? & ?).
    destruct (addMillis_spec (lease_GrantedAt (h_lease h)) (renewInterval (lead_config l))) as [_ Ha];
      [done|lia|]. unfold inS in *. lia. }
  exists (S (Z.to_nat (lease_Deadline (h_lease h) - now w))). intros fuel Hf.
  destruct (renew_rounds l now D Hnow Hsel Hw Hret (Z.to_nat (lease_Deadline (h_lease h) - now w)) fuel h w)
    as (e & w' & Hrun & Hlast & Hb); try done; try lia.
  do 3 eexists. split; [done|]. split; [done|]. unfold ended, cancel, close_once, set_err. rewrite He. cbn. by rewrite Ho.
Qed.

(** ** Concrete leaderships *)

(** The adapter in memory, with a broker that answers no lease write. *)
Definition unreachable_transport : Transport demo_world bool := {|
  AcquireEpoch := AcquireEpoch demo_transport;
  DescribeEpoch := DescribeEpoch demo_transport;
  ReadPartition := ReadPartition demo_transport;
  Append := Append demo_transport;
  WriteLease _ _ _ _ := λ w, (Err false, w);
  transport_fenced e := e
|}.

Definition demo_leadership (transport : Transport demo_world bool) : Leadership demo_world bool :=
  MkLeadership demo_role demo_a (MkToken 7 0) demo_partition transport DefaultLeaseConfig demo_clock Second
    (Grant DefaultLeaseConfig demo_a (MkToken 7 0) 100).

Definition demo_handle : handle bool := new_handle (lead_first (demo_leadership demo_transport)).

Lemma leadership_lifecycle_witness :
  let l := demo_leadership demo_transport in
  ∃ s, rtc (sstep l) (sys_start l 3) s ∧ sys_log s = [Some (lead_first l); None] ∧
    (h_done (sys_handle s) ≤ 1)%nat.
Proof.
  intros l. eexists. split; [|split].
  { unfold sys_start. eapply rtc_l; [apply step_call_Resign|].
    thread_step 1%nat step_ReadErr. thread_step 1%nat step_SetErr. thread_step 1%nat step_CloseOnce.
    thread_step 1%nat step_Cancel. thread_step 1%nat step_Commits. apply rtc_refl. }
  { reflexivity. }
  eapply (leadership_lifecycle l 3); [reflexivity|].
  unfold sys_start. eapply rtc_l; [apply step_call_Resign|].
  thread_step 1%nat step_ReadErr. thread_step 1%nat step_SetErr. thread_step 1%nat step_CloseOnce.
  thread_step 1%nat step_Cancel. thread_step 1%nat step_Commits. apply rtc_refl.
Defined.

Lemma ended_leadership_silent_witness :
  let l := demo_leadership demo_transport in
  let h := ended demo_handle (NotHeld demo_role) in
  run l (Renew l Ret) h demo_start = (Some (Err (NotHeld demo_role)), h, demo_start) ∧
  (run l (Resign l) demo_handle demo_start).1.1 = Some (Ok tt).
Proof.
  intros l h. split.
  - apply (ended_leadership_silent l h demo_start).
  - destruct (ended_leadership_silent l demo_handle demo_start) as [_ H].
    rewrite (H (Ok tt) (write_lease l None demo_start).2); [reflexivity|vm_compute; reflexivity].
Defined.

Lemma renewLoop_expires_witness :
  ∃ rounds e h' w', run (demo_leadership unreachable_transport)
      (renewLoop (demo_leadership unreachable_transport) rounds) demo_handle demo_start = (Some (Err e), h', w') ∧
    h_err h' = Some (Expired demo_role 30100 e) ∧ 30100 ≤ dw_now w'.
Proof.
  destruct (renewLoop_expires (demo_leadership unreachable_transport) dw_now 0 demo_handle demo_start)
    as [rounds H]; try reflexivity; try by_decide.
  - intros d w _. eexists. split; reflexivity.
  - intros lease w. exists false, w. split_and!; [done|done|lia|lia|done].
  - destruct (H rounds (Nat.le_refl _)) as (e & h' & w' & Hr & _ & He & _ & _ & [Hb _]).
    exists rounds, e, h', w'. split; [exact Hr|]. split; [exact He|exact Hb].
Defined.
