(* ===== verification/KafkaTransport.v ===== *)
(** * The Kafka adapter of coordination/kafka_transport.go

    [KafkaTransport] over a Kafka client library: the producers it keeps per token, the transaction around a
    lease write, and the reader of a partition. The library is a record of operations over the world [X] of the
    cluster, with handles [C] and errors [X]. [KafkaBroker] states what Kafka documents about transactional producers, and
    with it the adapter keeps the promises of [Adapter]. *)

From S2P Require Import Prelude GoStd Record Lease Succession Leadership.

#[global] Instance FencingToken_countable : Countable FencingToken.
Proof. refine (inj_countable' (λ t, (producerID t, producerEpoch t)) (λ t, MkToken t.1 t.2) _). by intros []. Defined.

(** ** The client library *)

(** One partition of a fetch, and a fetch: [fetches.Err()] and what [EachPartition] and [EachRecord] visit. *)
Record fetched := MkFetched {
  ft_Partition : TopicPartition;
  ft_LogStartOffset : Z;
  ft_LastStableOffset : Z;
  ft_Records : list StateRecord
}.

Record fetches (E : Type) := MkFetches { fs_Err : option E; fs_Partitions : list fetched }.
Arguments MkFetches {E}.
Arguments fs_Err {E}.
Arguments fs_Partitions {E}.

(** One entry of a DescribeTransactions response. *)
Record txn_state := MkTxnState { ts_ErrorCode : Z; ts_ProducerID : Z; ts_ProducerEpoch : Z }.

Record kgo (X C E : Type) := MkKgo {
  NewPlainClient : list bytes → io X E C;
  NewProducer : list bytes → bytes → Duration → io X E C;
  NewReader : list bytes → TopicPartition → io X E C;
  ProducerID : C → io X E (Z * Z);
  DescribeTransactions : C → list bytes → io X E (list txn_state);
  PollFetches : C → X → fetches E * X;
  read_ctx : X → option ctx_error * X;
  ProduceSync : C → TopicPartition → bytes → bytes → io X E unit;
  BeginTransaction : C → io X E unit;
  EndTransaction : C → bool → io X E unit;
  CloseClient : C → X → X;
  ErrorForCode : Z → option E;
  is_not_found : E → bool;
  is_fence : E → bool
}.
Arguments NewPlainClient {X C E}.
Arguments NewProducer {X C E}.
Arguments NewReader {X C E}.
Arguments ProducerID {X C E}.
Arguments DescribeTransactions {X C E}.
Arguments PollFetches {X C E}.
Arguments read_ctx {X C E}.
Arguments ProduceSync {X C E}.
Arguments BeginTransaction {X C E}.
Arguments EndTransaction {X C E}.
Arguments CloseClient {X C E}.
Arguments ErrorForCode {X C E}.
Arguments is_not_found {X C E}.
Arguments is_fence {X C E}.

(** [ReadUnfinished] is a loop that ran out of fuel, [NilMapAssignment] a panic. *)
Inductive kafka_error (E : Type) :=
| NoBrokers
| CreateClient (e : E)
| CreateProducer (role : Role) (e : E)
| AcquireFault (role : Role) (e : E)
| TokenFault (e : token_error)
| NilMapAssignment
| DescribeEpochFault (role : Role) (e : E)
| DescribeStates (role : Role) (n : nat)
| CreateReader (e : E)
| ReadCancelled (partition : TopicPartition) (e : ctx_error)
| ReadFetch (partition : TopicPartition) (e : E)
| ReadUnfinished
| NotMinted (token : FencingToken)
| TransactionFault (e : E)
| ProduceFault (partition : TopicPartition) (e : E)
| ErrFenced (e : kafka_error E).
Arguments NoBrokers {E}.
Arguments CreateClient {E}.
Arguments CreateProducer {E}.
Arguments AcquireFault {E}.
Arguments TokenFault {E}.
Arguments NilMapAssignment {E}.
Arguments DescribeEpochFault {E}.
Arguments DescribeStates {E}.
Arguments CreateReader {E}.
Arguments ReadCancelled {E}.
Arguments ReadFetch {E}.
Arguments ReadUnfinished {E}.
Arguments NotMinted {E}.
Arguments TransactionFault {E}.
Arguments ProduceFault {E}.
Arguments ErrFenced {E}.

(** A closed transport has a nil map of producers. *)
Record KafkaTransport (C : Type) := MkKafkaTransport {
  kt_brokers : list bytes;
  kt_plain : C;
  kt_timeout : Duration;
  kt_roles : option (gmap FencingToken C)
}.
Arguments MkKafkaTransport {C}.
Arguments kt_brokers {C}.
Arguments kt_plain {C}.
Arguments kt_timeout {C}.
Arguments kt_roles {C}.

Section Transport.
Context {X C E : Type} (K : kgo X C E).

Abbreviation step A := (io (X * KafkaTransport C) (kafka_error E) A).

Definition NewKafkaTransport (lease : LeaseConfig) (brokers : list bytes) : io X (kafka_error E) (KafkaTransport C) :=
  match brokers with
  | [] => io_fail NoBrokers
  | _ =>
      do* plain := io_map_err CreateClient (NewPlainClient K brokers) in
      io_ret (MkKafkaTransport brokers plain (duration lease) (Some ∅))
  end.

Definition set_roles (roles : option (gmap FencingToken C)) (t : KafkaTransport C) : KafkaTransport C :=
  MkKafkaTransport (kt_brokers t) (kt_plain t) (kt_timeout t) roles.

Definition kafka_AcquireEpoch (role : Role) : step FencingToken := λ '(x, t),
  match NewProducer K (kt_brokers t) (role_name role) (kt_timeout t) x with
  | (Err e, x) => (Err (CreateProducer role e), (x, t))
  | (Ok producer, x) =>
      match ProducerID K producer x with
      | (Err e, x) => (Err (AcquireFault role e), (CloseClient K producer x, t))
      | (Ok (id, epoch), x) =>
          match NewFencingToken id epoch with
          | Err e => (Err (TokenFault e), (CloseClient K producer x, t))
          | Ok token =>
              match kt_roles t with
              | None => (Err NilMapAssignment, (x, t))
              | Some roles => (Ok token, (x, set_roles (Some (<[token := producer]> roles)) t))
              end
          end
      end
  end.

Definition kafka_DescribeEpoch (role : Role) : step (FencingToken * bool) := λ '(x, t),
  match DescribeTransactions K (kt_plain t) [role_name role] x with
  | (Err e, x) => (Err (DescribeEpochFault role e), (x, t))
  | (Ok [state], x) =>
      (match ErrorForCode K (ts_ErrorCode state) with
       | Some e => if is_not_found K e then Ok (NoEpoch, false) else Err (DescribeEpochFault role e)
       | None =>
           if (ts_ProducerID state <? 0) || (ts_ProducerEpoch state <? 0) then Ok (NoEpoch, false)
           else match NewFencingToken (ts_ProducerID state) (ts_ProducerEpoch state) with
                | Ok token => Ok (token, true)
                | Err e => Err (TokenFault e)
                end
       end, (x, t))
  | (Ok states, x) => (Err (DescribeStates role (length states)), (x, t))
  end.

(** One poll: the offset after it, and the last stable offset that it reports for the partition. *)
Definition poll_records {F} (f : fetches F) : list StateRecord := concat (map ft_Records (fs_Partitions f)).

Definition poll_partitions {F} (partition : TopicPartition) (f : fetches F) : list fetched :=
  filter (λ p, ft_Partition p = MkTopicPartition (tp_Topic partition) (int32 (tp_Partition partition))) (fs_Partitions f).

Definition poll_stable {F} (partition : TopicPartition) (f : fetches F) : Z :=
  foldl (λ _ p, ft_LastStableOffset p) (-1) (poll_partitions partition f).

Definition poll_offset {F} (partition : TopicPartition) (f : fetches F) (nextOffset : Z) : Z :=
  foldl (λ next r, Z.max next (rec_Offset r + 1)) 
    (foldl (λ next p, Z.max next (ft_LogStartOffset p)) nextOffset (poll_partitions partition f)) (poll_records f).

Fixpoint read_loop (fuel : nat) (reader : C) (partition : TopicPartition) (records : list StateRecord) (nextOffset : Z)
    : io X (kafka_error E) (list StateRecord) :=
  match fuel with
  | O => io_fail ReadUnfinished
  | S fuel => λ x,
      let '(f, x) := PollFetches K reader x in
      let '(cancelled, x) := read_ctx K x in
      match cancelled, fs_Err f with
      | Some e, _ => (Err (ReadCancelled partition e), x)
      | None, Some e => (Err (ReadFetch partition e), x)
      | None, None =>
          let records := records ++ poll_records f in
          let nextOffset := poll_offset partition f nextOffset in
          if (0 <=? poll_stable partition f) && (poll_stable partition f <=? nextOffset) then (Ok records, x)
          else read_loop fuel reader partition records nextOffset x
      end
  end.

Definition kafka_ReadPartition (fuel : nat) (partition : TopicPartition) : step (list StateRecord) := λ '(x, t),
  match NewReader K (kt_brokers t) (MkTopicPartition (tp_Topic partition) (int32 (tp_Partition partition))) x with
  | (Err e, x) => (Err (CreateReader e), (x, t))
  | (Ok reader, x) => let '(r, x) := read_loop fuel reader partition [] 0 x in (r, (CloseClient K reader x, t))
  end.

Definition produce (client : C) (partition : TopicPartition) (key value : bytes) : io X (kafka_error E) unit :=
  io_map_err (ProduceFault partition)
    (ProduceSync K client (MkTopicPartition (tp_Topic partition) (int32 (tp_Partition partition))) key value).

Definition kafka_Append (partition : TopicPartition) (key value : bytes) : step unit := λ '(x, t),
  let '(r, x) := produce (kt_plain t) partition key value x in (r, (x, t)).

Definition mapFence (e : kafka_error E) : kafka_error E :=
  match e with
  | TransactionFault cause | ProduceFault _ cause => if is_fence K cause then ErrFenced e else e
  | _ => e
  end.

(** The transaction of one lease record. A failed abort is ignored. *)
Definition transaction (client : C) (partition : TopicPartition) (key value : bytes) : io X (kafka_error E) unit :=
  io_map_err mapFence
    (do* _ := io_map_err TransactionFault (BeginTransaction K client) in
     io_try (produce client partition key value) (λ r,
       match r with
       | Err e => λ x, (Err e, (EndTransaction K client false x).2)
       | Ok _ => io_map_err TransactionFault (EndTransaction K client true)
       end)).

Definition kafka_WriteLease (partition : TopicPartition) (token : FencingToken) (key value : bytes) : step unit := λ '(x, t),
  match kt_roles t ≫= lookup token with
  | None => (Err (NotMinted token), (x, t))
  | Some client => let '(r, x) := transaction client partition key value x in (r, (x, t))
  end.

Definition kafka_Close : step unit := λ '(x, t),
  let x := foldr (CloseClient K) x (map snd (map_to_list (default ∅ (kt_roles t)))) in
  (Ok tt, (CloseClient K (kt_plain t) x, set_roles None t)).

Definition kafka_fenced (e : kafka_error E) : bool := match e with ErrFenced _ => true | _ => false end.
End Transport.

(** ** What Kafka documents

    [k_epoch] is the producer epoch that the transaction coordinator holds for a transactional ID, [k_id] the transactional ID of
    a client, and [k_minted] the producer ID and epoch that a client got. *)
Class KafkaBroker {X C E} (K : kgo X C E) := {
  k_epoch : X → bytes → option FencingToken;
  k_id : X → C → option bytes;
  k_minted : X → C → option (bytes * FencingToken);
  k_evolves : relation X;
  #[global] k_pre :: PreOrder k_evolves;
  (** Time only moves forward: an epoch grows, and a client keeps what it got. *)
  k_grows x x' id t : k_evolves x x' → k_epoch x id = Some t → ∃ t', k_epoch x' id = Some t' ∧ (t' = t ∨ Supersedes t' t = true);
  k_kept x x' c m : k_evolves x x' → k_minted x c = Some m → k_minted x' c = Some m;
  (** A producer ID belongs to one transactional ID. *)
  k_owner x x0 c id id0 t : k_minted x c = Some (id, t) → k_evolves x0 x → k_epoch x0 id0 = Some t → id0 = id;
  (** Every call is a step in time. *)
  k_plain_steps b x r x' : NewPlainClient K b x = (r, x') → k_evolves x x';
  k_producer_steps b id d x r x' : NewProducer K b id d x = (r, x') → k_evolves x x';
  k_reader_steps b p x r x' : NewReader K b p x = (r, x') → k_evolves x x';
  k_init_steps c x r x' : ProducerID K c x = (r, x') → k_evolves x x';
  k_describe_steps c ids x r x' : DescribeTransactions K c ids x = (r, x') → k_evolves x x';
  k_poll_steps c x f x' : PollFetches K c x = (f, x') → k_evolves x x';
  k_ctx_steps x r x' : read_ctx K x = (r, x') → k_evolves x x';
  k_produce_steps c p k v x r x' : ProduceSync K c p k v x = (r, x') → k_evolves x x';
  k_begin_steps c x r x' : BeginTransaction K c x = (r, x') → k_evolves x x';
  k_end_steps c b x r x' : EndTransaction K c b x = (r, x') → k_evolves x x';
  k_close_steps c x : k_evolves x (CloseClient K c x);
  (** InitProducerId: the coordinator bumps the epoch of the transactional ID and hands it to the client. *)
  k_created b id d x c x' : NewProducer K b id d x = (Ok c, x') → k_id x' c = Some id;
  k_init c id x n e x' : k_id x c = Some id → ProducerID K c x = (Ok (n, e), x') →
    k_minted x' c = Some (id, MkToken n e) ∧
    ∃ x1 x2, k_evolves x x1 ∧ k_evolves x1 x2 ∧ k_evolves x2 x' ∧ k_epoch x2 id = Some (MkToken n e) ∧
      ∀ t0, k_epoch x1 id = Some t0 → Supersedes (MkToken n e) t0 = true;
  (** EndTxn: a commit succeeds only while the epoch of the client is the current one. *)
  k_commit c id t x x' : k_minted x c = Some (id, t) → EndTransaction K c true x = (Ok tt, x') →
    ∃ x1, k_evolves x x1 ∧ k_evolves x1 x' ∧ k_epoch x1 id = Some t
}.

(** ** Transports of one cluster

    Each process [P] has a transport of its own. The transports that the package makes hold, under every token, a
    client that minted it: the world of the adapter is the worlds where that holds. *)

Section World.
Context {P X C E : Type} `{EqDecision P} (K : kgo X C E) `{!KafkaBroker K}.

Definition cluster_state : Type := X * (P → KafkaTransport C).

Definition transport_ok (x : X) (t : KafkaTransport C) : Prop :=
  ∀ token c, kt_roles t ≫= lookup token = Some c → ∃ id, k_minted x c = Some (id, token).

Definition cluster_ok (w : cluster_state) : Prop := ∀ p, transport_ok w.1 (w.2 p).

Definition world : Type := { w : cluster_state | cluster_ok w }.

Definition set_transport (p : P) (t : KafkaTransport C) (ts : P → KafkaTransport C) : P → KafkaTransport C :=
  λ q, if decide (q = p) then t else ts q.

(** A call that moves time forward and keeps its own transport in order. *)
Definition orderly {A} (m : io (X * KafkaTransport C) (kafka_error E) A) : Prop :=
  ∀ x t r x' t', m (x, t) = (r, (x', t')) → k_evolves x x' ∧ (transport_ok x t → transport_ok x' t').

Lemma transport_ok_later x x' t : k_evolves x x' → transport_ok x t → transport_ok x' t.
Proof. intros He Ht token c Hc. destruct (Ht token c Hc) as [id Hid]. exists id. by apply (k_kept x x'). Qed.

Lemma cluster_ok_step {A} (m : io (X * KafkaTransport C) (kafka_error E) A) p (w : world) :
  orderly m → let '(_, (x', t')) := m ((`w).1, (`w).2 p) in cluster_ok (x', set_transport p t' (`w).2).
Proof.
  intros Hm. destruct (m ((`w).1, (`w).2 p)) as [r [x' t']] eqn:Hr. destruct (Hm _ _ _ _ _ Hr) as [He Ht].
  intros q. cbn [fst snd]. unfold set_transport. destruct (decide (q = p)) as [->|]; [apply Ht, (proj2_sig w)|].
  eapply transport_ok_later; [exact He|apply (proj2_sig w)].
Qed.

(** The call of process [p], in the world of all. *)
Definition at_process {A} (p : P) (m : io (X * KafkaTransport C) (kafka_error E) A) (Hm : orderly m)
    : io world (kafka_error E) A := λ w,
  (match m ((`w).1, (`w).2 p) as o return (let '(_, (x', t')) := o in cluster_ok (x', set_transport p t' (`w).2)) → _ * world with
   | (r, (x', t')) => λ H, (r, exist cluster_ok (x', set_transport p t' (`w).2) H)
   end) (cluster_ok_step m p w Hm).

Lemma at_process_inv {A} p (m : io (X * KafkaTransport C) (kafka_error E) A) Hm w r w' :
  at_process p m Hm w = (r, w') → ∃ x' t', m ((`w).1, (`w).2 p) = (r, (x', t')) ∧ `w' = (x', set_transport p t' (`w).2).
Proof.
  unfold at_process. generalize (cluster_ok_step m p w Hm). destruct (m _) as [r0 [x' t']]. intros H [= -> <-]. by exists x', t'.
Qed.

#[global] Instance kafka_cluster : Cluster world.
Proof.
  refine {| epoch_of w role := k_epoch (`w).1 (role_name role); evolves w w' := k_evolves (`w).1 (`w').1 |}.
  - split; [intros w; reflexivity|intros w1 w2 w3 H1 H2; by etrans].
  - intros w w' role t He Ht. by eapply k_grows.
Defined.

Ltac steps := repeat match goal with
  | H : NewProducer K _ _ _ _ = _ |- _ => apply k_producer_steps in H
  | H : NewReader K _ _ _ = _ |- _ => apply k_reader_steps in H
  | H : ProducerID K _ _ = _ |- _ => apply k_init_steps in H
  | H : ProduceSync K _ _ _ _ _ = _ |- _ => apply k_produce_steps in H
  | H : BeginTransaction K _ _ = _ |- _ => apply k_begin_steps in H
  | H : EndTransaction K _ _ _ = _ |- _ => apply k_end_steps in H
  | H : DescribeTransactions K _ _ _ = _ |- _ => apply k_describe_steps in H
  | H : PollFetches K _ _ = _ |- _ => apply k_poll_steps in H
  | H : read_ctx K _ = _ |- _ => apply k_ctx_steps in H
  end.

Lemma acquire_orderly role : orderly (kafka_AcquireEpoch K role).
Proof.
  intros x t r x' t'. unfold kafka_AcquireEpoch. destruct (NewProducer K _ _ _ x) as [[producer|e] x1] eqn:Hn.
  2: { intros [= _ <- <-]. steps. split; [done|by apply transport_ok_later]. }
  destruct (ProducerID K producer x1) as [[[n epoch]|e] x2] eqn:Hi.
  2: { intros [= _ <- <-]. steps. assert (k_evolves x (CloseClient K producer x2)) by (etrans; [|apply k_close_steps]; by etrans).
       split; [done|by apply transport_ok_later]. }
  assert (k_evolves x x2) as He by (pose proof (k_producer_steps _ _ _ _ _ _ Hn); pose proof (k_init_steps _ _ _ _ Hi); by etrans).
  destruct (NewFencingToken n epoch) as [token|e] eqn:Ht.
  2: { intros [= _ <- <-]. assert (k_evolves x (CloseClient K producer x2)) by (etrans; [exact He|apply k_close_steps]).
       split; [done|by apply transport_ok_later]. }
  apply NewFencingToken_Ok in Ht as (-> & _). destruct (k_init _ _ _ _ _ _ (k_created _ _ _ _ _ _ Hn) Hi) as [Hm _].
  destruct (kt_roles t) as [roles|] eqn:Hroles; intros [= _ <- <-]; (split; [done|]); [|by apply transport_ok_later].
  intros Hok token c. cbn [set_roles kt_roles mbind option_bind]. intros [[<- <-]|[_ Hc]]%lookup_insert_Some; [by eexists|].
  destruct (Hok token c) as [id Hid]; [by rewrite Hroles|]. exists id. by eapply k_kept.
Qed.

Lemma transaction_steps c p key value x r x' : transaction K c p key value x = (r, x') → k_evolves x x'.
Proof.
  unfold transaction, io_map_err, io_bind, io_try, produce, io_map_err.
  destruct (BeginTransaction K c x) as [[[]|e] x1] eqn:Hb; [|intros [= _ <-]; by steps].
  cbn [rmap_err]. destruct (ProduceSync K c _ key value x1) as [[[]|e] x2] eqn:Hp; cbn [rmap_err].
  - destruct (EndTransaction K c true x2) as [re x3] eqn:He. intros [= _ <-]. steps. etrans; [done|]. by etrans.
  - destruct (EndTransaction K c false x2) as [re x3] eqn:He. intros [= _ <-]. cbn [snd]. steps. etrans; [done|]. by etrans.
Qed.

Lemma write_orderly p token key value : orderly (kafka_WriteLease K p token key value).
Proof.
  intros x t r x' t'. unfold kafka_WriteLease. destruct (_ ≫= _) as [c|]; [|by intros [= _ <- <-]].
  destruct (transaction K c p key value x) as [r1 x1] eqn:H. intros [= _ <- <-]. apply transaction_steps in H. split; [done|by apply transport_ok_later].
Qed.

Lemma append_orderly p key value : orderly (kafka_Append K p key value).
Proof.
  intros x t r x' t'. unfold kafka_Append, produce, io_map_err. destruct (ProduceSync K _ _ key value x) as [r1 x1] eqn:H.
  destruct r1; intros [= _ <- <-]; steps; (split; [done|by apply transport_ok_later]).
Qed.

Lemma read_loop_steps fuel c p records next x r x' : read_loop K fuel c p records next x = (r, x') → k_evolves x x'.
Proof.
  revert records next x. induction fuel as [|fuel IH]; intros records next x; cbn [read_loop]; [by intros [= _ <-]|].
  destruct (PollFetches K c x) as [f x1] eqn:Hp. destruct (read_ctx K x1) as [cancelled x2] eqn:Hc. steps.
  assert (k_evolves x x2) as He by (by etrans).
  destruct cancelled; [by intros [= _ <-]|]. destruct (fs_Err f); [by intros [= _ <-]|].
  destruct (_ && _); [by intros [= _ <-]|]. intros H%IH. by etrans.
Qed.

Lemma read_orderly fuel p : orderly (kafka_ReadPartition K fuel p).
Proof.
  intros x t r x' t'. unfold kafka_ReadPartition. destruct (NewReader K _ _ x) as [[reader|e] x1] eqn:Hn.
  2: { intros [= _ <- <-]. steps. split; [done|by apply transport_ok_later]. }
  destruct (read_loop K fuel reader p [] 0 x1) as [r1 x2] eqn:Hl. intros [= _ <- <-]. apply read_loop_steps in Hl. steps.
  assert (k_evolves x (CloseClient K reader x2)) by (etrans; [|apply k_close_steps]; by etrans).
  split; [done|by apply transport_ok_later].
Qed.

Lemma describe_orderly role : orderly (kafka_DescribeEpoch K role).
Proof.
  intros x t r x' t'. unfold kafka_DescribeEpoch. destruct (DescribeTransactions K _ _ x) as [[[|s [|s2 l]]|e] x1] eqn:H;
    intros [= _ <- <-]; steps; (split; [done|by apply transport_ok_later]).
Qed.

Definition kafka_transport (fuel : nat) (p : P) : Transport world (kafka_error E) := {|
  AcquireEpoch role := at_process p (kafka_AcquireEpoch K role) (acquire_orderly role);
  DescribeEpoch role := at_process p (kafka_DescribeEpoch K role) (describe_orderly role);
  ReadPartition partition := at_process p (kafka_ReadPartition K fuel partition) (read_orderly fuel partition);
  Append partition key value := at_process p (kafka_Append K partition key value) (append_orderly partition key value);
  WriteLease partition token key value :=
    at_process p (kafka_WriteLease K partition token key value) (write_orderly partition token key value);
  transport_fenced := kafka_fenced
|}.

Lemma at_process_evolves {A} p (m : io (X * KafkaTransport C) (kafka_error E) A) Hm w r w' :
  at_process p m Hm w = (r, w') → evolves w w'.
Proof. intros (x' & t' & Hr & Hw)%at_process_inv.
  assert (k_evolves (`w).1 (`w').1) as He; [rewrite Hw; by apply (Hm _ _ _ _ _ Hr)|exact He].
Qed.

(** The world at a later moment, before the transports change. *)
Lemma at_moment (w : world) x' : k_evolves (`w).1 x' → ∃ w' : world, (`w').1 = x'.
Proof.
  intros He. assert (cluster_ok (x', (`w).2)) as Hok by (intros q; eapply transport_ok_later; [exact He|apply (proj2_sig w)]).
  by exists (exist _ _ Hok).
Qed.

Lemma transaction_commits c p key value x x' :
  transaction K c p key value x = (Ok tt, x') →
  ∃ x1, k_evolves x x1 ∧ EndTransaction K c true x1 = (Ok tt, x').
Proof.
  unfold transaction, io_map_err, io_bind, io_try, produce, io_map_err.
  destruct (BeginTransaction K c x) as [[[]|e] x1] eqn:Hb; [|done].
  cbn [rmap_err]. destruct (ProduceSync K c _ key value x1) as [[[]|e] x2] eqn:Hp; cbn [rmap_err]; [|done].
  destruct (EndTransaction K c true x2) as [[[]|e] x3] eqn:He; [|done]. intros [= <-].
  exists x2. split; [clear He; steps; by etrans|exact He].
Qed.

Lemma acquire_mints role x t token x' t' :
  kafka_AcquireEpoch K role (x, t) = (Ok token, (x', t')) →
  ∃ x1 x2, k_evolves x x1 ∧ k_evolves x1 x2 ∧ k_evolves x2 x' ∧ k_epoch x2 (role_name role) = Some token ∧
    ∀ t0, k_epoch x1 (role_name role) = Some t0 → Supersedes token t0 = true.
Proof.
  unfold kafka_AcquireEpoch. destruct (NewProducer K _ _ _ x) as [[producer|e] x1] eqn:Hn; [|done].
  destruct (ProducerID K producer x1) as [[[n epoch]|e] x2] eqn:Hi; [|done].
  destruct (NewFencingToken n epoch) as [tok|e] eqn:Ht; [|done]. apply NewFencingToken_Ok in Ht as (-> & _).
  destruct (kt_roles t); [|done]. intros [= <- <- <-]. destruct (k_init _ _ _ _ _ _ (k_created _ _ _ _ _ _ Hn) Hi) as (_ & y1 & y2 & H1 & H2 & H3).
  exists y1, y2. steps. split; [by etrans|]. by destruct H3.
Qed.

End World.

(** ** Properties *)

(** C8: the Kafka transport keeps the promises of the coordination package. Over a Kafka cluster that mints and fences
    producer epochs as documented, with any number of processes that each hold a transport, every transport is an
    [Adapter]: an acquisition mints an epoch that supersedes the one before, and a lease write succeeds only at a moment
    at which its token is the current epoch of its role. So [later_leader_fences] holds of the shipped adapter. *)
Theorem kafka_adapter {P X C E} `{EqDecision P} (K : kgo X C E) `{!KafkaBroker K} fuel (p : P) : Adapter (kafka_transport K fuel p).
Proof.
  split; cbn [kafka_transport AcquireEpoch ReadPartition Append WriteLease]; try (intros; by eapply at_process_evolves).
  - intros role w t w' (x' & t' & Hr & Hw)%at_process_inv. destruct (acquire_mints _ _ _ _ _ _ _ Hr) as (x1 & x2 & H1 & H2 & H3 & H4 & H5).
    destruct (at_moment K w x1 H1) as [w1 Hw1]. destruct (at_moment K w x2) as [w2 Hw2]; [by etrans|].
    exists w1, w2. assert ((`w').1 = x') as Hw' by by rewrite Hw. subst x1 x2 x'. by split_and!.
  - intros partition t k v w w' role w0 (x' & t' & Hr & Hw)%at_process_inv He Ht. unfold kafka_WriteLease in Hr.
    destruct (kt_roles _ ≫= lookup t) as [c|] eqn:Hc; [|done]. destruct (proj2_sig w p t c Hc) as [id Hid].
    destruct (transaction K c partition k v (`w).1) as [r x1] eqn:Htr. injection Hr as -> -> <-.
    destruct (transaction_commits K _ _ _ _ _ _ Htr) as (x2 & H1 & H2).
    destruct (k_commit c id t x2 x') as (x3 & H3 & H4 & H5); [by eapply k_kept|done|].
    assert (role_name role = id) as <- by (eapply k_owner; [exact Hid|exact He|exact Ht]).
    destruct (at_moment K w x3) as [w1 Hw1]; [by etrans|]. exists w1. assert ((`w').1 = x') as Hw' by by rewrite Hw.
    subst x3 x'. split; [exact (transitivity H1 H3)|]. by split.
Qed.

(** ** Reading a partition *)

Definition below (n : Z) (records : list StateRecord) : list StateRecord := filter (λ r, rec_Offset r < n) records.

(** A read-committed consumer, on a partition that is neither compacted nor truncated while it reads. [r_data] is the committed records
    of a partition, [r_stable] its last stable offset, [r_start] its first offset, and [r_pos] the position of a reader. *)
Class LogReader {X C E} (K : kgo X C E) := {
  r_data : X → TopicPartition → list StateRecord;
  r_stable : X → TopicPartition → Z;
  r_start : TopicPartition → Z;
  r_pos : X → C → option (TopicPartition * Z);
  r_offsets x p r : r ∈ r_data x p → 0 ≤ rec_Offset r ∧ r_start p ≤ rec_Offset r;
  r_open b p x c x' : NewReader K b p x = (Ok c, x') → r_pos x' c = Some (p, 0) ∧ r_stable x p ≤ r_stable x' p;
  r_ctx c p n x r x' : r_pos x c = Some (p, n) → read_ctx K x = (r, x') →
    r_pos x' c = Some (p, n) ∧ below n (r_data x' p) = below n (r_data x p) ∧ r_stable x p ≤ r_stable x' p;
  (** A poll hands out the committed records from the position on. *)
  r_poll c p n x f x' : r_pos x c = Some (p, n) → PollFetches K c x = (f, x') → fs_Err f = None →
    ∃ n', r_pos x' c = Some (p, n') ∧ n ≤ n' ∧ below n' (r_data x' p) = below n (r_data x p) ++ poll_records f ∧
      r_stable x p ≤ r_stable x' p ∧
      Forall (λ q, ft_LogStartOffset q ≤ r_start p ∧ r_stable x p ≤ ft_LastStableOffset q) (fs_Partitions f);
  r_close c x p : r_data (CloseClient K c x) p = r_data x p
}.

Lemma below_none n l : Forall (λ r, n ≤ rec_Offset r) l → below n l = [].
Proof. unfold below. induction 1 as [|r l Hr _ IH]; [done|]. rewrite filter_cons_False; [done|lia]. Qed.

Lemma foldl_max_le {A} (f : A → Z) l n m : n ≤ m → Forall (λ a, f a ≤ m) l → foldl (λ n a, Z.max n (f a)) n l ≤ m.
Proof. intros Hn Hl. revert n Hn. induction Hl as [|a l Ha _ IH]; intros n Hn; [done|]. cbn. apply IH. lia. Qed.

Lemma poll_stable_ge {F} p (f : fetches F) m :
  Forall (λ q, m ≤ ft_LastStableOffset q) (fs_Partitions f) → poll_stable p f = -1 ∨ m ≤ poll_stable p f.
Proof.
  intros H. unfold poll_stable. assert (Forall (λ q, m ≤ ft_LastStableOffset q) (poll_partitions p f)) as Hf.
  { apply Forall_forall. intros q [_ Hq]%list_elem_of_filter. by apply (Forall_forall (λ q, m ≤ ft_LastStableOffset q) (fs_Partitions f)). }
  revert Hf. generalize (poll_partitions p f) as l. clear H. intros l. destruct l as [|q l] using rev_ind; [by left|].
  intros [_ [Hq _]%Forall_cons]%Forall_app. right. by rewrite foldl_app.
Qed.

Section Reader.
Context {X C E : Type} (K : kgo X C E) `{!LogReader K}.

Lemma poll_offset_le p (f : fetches E) next m :
  next ≤ m → Forall (λ q, ft_LogStartOffset q ≤ m) (fs_Partitions f) → Forall (λ r, rec_Offset r + 1 ≤ m) (poll_records f) →
  poll_offset p f next ≤ m.
Proof.
  intros Hn Hs Hr. apply (foldl_max_le (λ r, rec_Offset r + 1)); [|done]. apply foldl_max_le; [done|].
  apply Forall_forall. intros q [_ Hq]%list_elem_of_filter. by apply (Forall_forall (λ q, ft_LogStartOffset q ≤ m) (fs_Partitions f)).
Qed.

Lemma read_loop_complete stable q p c fuel records next n x out x' :
  r_pos x c = Some (p, n) → records = below n (r_data x p) → next ≤ Z.max n (r_start p) → stable ≤ r_stable x p →
  read_loop K fuel c q records next x = (Ok out, x') →
  ∃ n', out = below n' (r_data x' p) ∧ stable ≤ Z.max n' (r_start p).
Proof.
  revert records next n x. induction fuel as [|fuel IH]; intros records next n x Hp Hrec Hn Hs; cbn [read_loop]; [done|].
  destruct (PollFetches K c x) as [f x1] eqn:Hpoll. destruct (read_ctx K x1) as [cancelled x2] eqn:Hctx.
  destruct cancelled; [done|]. destruct (fs_Err f) as [e|] eqn:Herr; [done|].
  destruct (r_poll _ _ _ _ _ _ Hp Hpoll Herr) as (n1 & Hp1 & Hn1 & Hd1 & Hs1 & Hf). apply Forall_and in Hf as [Hstart Hstable].
  destruct (r_ctx _ _ _ _ _ _ Hp1 Hctx) as (Hp2 & Hd2 & Hs2).
  assert (records ++ poll_records f = below n1 (r_data x2 p)) as Hrec' by (rewrite Hd2, Hd1; by subst).
  assert (poll_offset q f next ≤ Z.max n1 (r_start p)) as Hoff.
  { apply poll_offset_le; [lia|eapply Forall_impl; [exact Hstart|cbn; lia]|]. apply Forall_forall. intros r Hr.
    assert (r ∈ below n1 (r_data x1 p)) as [Hlt _]%list_elem_of_filter by (rewrite Hd1; apply elem_of_app; by right). lia. }
  destruct (_ && _) eqn:Hdone; [|by apply IH with n1; [| | |lia]].
  intros [= <- <-]. exists n1. split; [done|]. apply andb_true_iff in Hdone as [H1 H2].
  destruct (poll_stable_ge q f (r_stable x p) Hstable); lia.
Qed.
End Reader.

(** C14: a read of a partition misses nothing. When [ReadPartition] returns records, they are the committed records
    of the partition up to some offset, each once and in offset order, and every record that was below the last stable offset when
    the read began is among them. *)
Theorem ReadPartition_complete {X C E} (K : kgo X C E) `{!LogReader K} fuel partition x t records x' t' :
  let p := MkTopicPartition (tp_Topic partition) (int32 (tp_Partition partition)) in
  kafka_ReadPartition K fuel partition (x, t) = (Ok records, (x', t')) →
  (∃ n, records = below n (r_data x' p)) ∧ (∀ r, r ∈ r_data x' p → rec_Offset r < r_stable x p → r ∈ records).
Proof.
  intros p. unfold kafka_ReadPartition. fold p. destruct (NewReader K _ p x) as [[c|e] x1] eqn:Hn; [|done].
  destruct (read_loop K fuel c partition [] 0 x1) as [r x2] eqn:Hl. intros [= -> <- <-].
  destruct (r_open _ _ _ _ _ Hn) as [Hp Hs].
  apply (read_loop_complete K (r_stable x p) partition p c fuel [] 0 0) in Hl as (n & -> & Hstable); [|done| |lia|done].
  - rewrite r_close. split; [by exists n|]. intros r Hr Hlt. apply list_elem_of_filter. split; [|done].
    pose proof (r_offsets _ _ _ Hr). lia.
  - symmetry. apply below_none, Forall_forall. intros r Hr. pose proof (r_offsets _ _ _ Hr). lia.
Qed.

(** The loop counts the offsets of records only, and the marker that commits a lease write has an offset of its own. So when the last entry below
    the last stable offset [stable] is such a marker, which is the case after every lease write, no number of polls ends the read. *)
Lemma read_waits_past_a_marker {X C E} (K : kgo X C E) c q stable fuel records next x :
  (∀ x, let f := (PollFetches K c x).1 in
     Forall (λ p, ft_LogStartOffset p < stable ∧ ft_LastStableOffset p = stable) (fs_Partitions f) ∧
     Forall (λ r, rec_Offset r + 1 < stable) (poll_records f)) →
  next < stable → is_ok (read_loop K fuel c q records next x).1 = false.
Proof.
  intros HK. revert records next x. induction fuel as [|fuel IH]; intros records next x Hn; cbn [read_loop]; [done|].
  pose proof (HK x) as [Hp Hr]. destruct (PollFetches K c x) as [f x1]. cbn [fst] in Hp, Hr. apply Forall_and in Hp as [Hstart Hstable].
  destruct (read_ctx K x1) as [cancelled x2]. destruct cancelled; [done|]. destruct (fs_Err f); [done|].
  assert (poll_offset q f next ≤ stable - 1).
  { apply poll_offset_le; [lia|eapply Forall_impl; [exact Hstart|cbn; lia]|eapply Forall_impl; [exact Hr|cbn; lia]]. }
  destruct (poll_stable_ge q f stable) as [Hs|Hs]; [eapply Forall_impl; [exact Hstable|cbn; lia]| |];
    (destruct (_ && _) eqn:Hdone; [apply andb_true_iff in Hdone; lia|apply IH; lia]).
Qed.

(** ** A small cluster

    One transactional ID, whose epoch is a counter, and one partition with a registration and a lease record. With the last
    stable offset 2 the partition ends with the lease record, and with 3 it ends with the marker of its transaction. *)

Inductive demo_client := Fresh | Minted (n : Z) | Reading (p : TopicPartition) (n : Z).
Record demo_broker := MkBroker { db_epoch : Z; db_clients : list demo_client }.

Definition kafka_log : list StateRecord := [MkStateRecord 0 (str "registration") (str "a"); MkStateRecord 1 (str "lease") (str "b")].

Definition add_client (c : demo_client) (x : demo_broker) : result bool nat * demo_broker :=
  (Ok (length (db_clients x)), MkBroker (db_epoch x) (db_clients x ++ [c])).

(** The only error is a fence. *)
Definition demo_kgo (stable : Z) : kgo demo_broker nat bool := {|
  NewPlainClient _ := add_client Fresh;
  NewProducer _ id _ := λ x, if decide (id = str "controller") then add_client Fresh x else (Err false, x);
  NewReader _ p := add_client (Reading p 0);
  ProducerID c := λ x,
    match db_clients x !! c with
    | Some Fresh => let n := Z.max 0 (db_epoch x) + 1 in (Ok (n, 0), MkBroker n (<[c := Minted n]> (db_clients x)))
    | _ => (Err false, x)
    end;
  DescribeTransactions _ _ := λ x, (Ok [MkTxnState 0 (db_epoch x) 0], x);
  PollFetches c := λ x,
    match db_clients x !! c with
    | Some (Reading p n) =>
        (MkFetches None [MkFetched p 0 stable (filter (λ r, n ≤ rec_Offset r) kafka_log)],
         MkBroker (db_epoch x) (<[c := Reading p (Z.max n 2)]> (db_clients x)))
    | _ => (MkFetches (Some false) [], x)
    end;
  read_ctx x := (None, x);
  ProduceSync _ _ _ _ := λ x, (Ok tt, x);
  BeginTransaction _ := λ x, (Ok tt, x);
  EndTransaction c _ := λ x,
    match db_clients x !! c with
    | Some (Minted n) => (if decide (n = db_epoch x ∧ 0 < n) then Ok tt else Err true, x)
    | _ => (Err false, x)
    end;
  CloseClient _ x := x;
  ErrorForCode _ := None;
  is_not_found _ := false;
  is_fence e := e
|}.

Definition broker_evolves (x x' : demo_broker) : Prop :=
  db_epoch x ≤ db_epoch x' ∧ ∀ c n, db_clients x !! c = Some (Minted n) → db_clients x' !! c = Some (Minted n).

Lemma add_client_evolves c x r x' : add_client c x = (r, x') → broker_evolves x x'.
Proof. intros [= _ <-]. split; [done|]. intros i n H. cbn. by apply lookup_app_l_Some. Qed.

Lemma set_client_evolves c old new e x :
  db_clients x !! c = Some old → (∀ n, old ≠ Minted n) → db_epoch x ≤ e → broker_evolves x (MkBroker e (<[c := new]> (db_clients x))).
Proof.
  intros Hc Hold He. split; [done|]. intros i n Hi. cbn. destruct (decide (i = c)) as [->|]; [|by rewrite list_lookup_insert_ne].
  rewrite Hc in Hi. injection Hi as ->. by destruct (Hold n).
Qed.

#[global] Instance demo_kafka_broker stable : KafkaBroker (demo_kgo stable).
Proof.
  refine {|
    k_epoch x id := if decide (id = str "controller" ∧ 0 < db_epoch x) then Some (MkToken (db_epoch x) 0) else None;
    k_id x c := if decide (c < length (db_clients x))%nat then Some (str "controller") else None;
    k_minted x c := match db_clients x !! c with Some (Minted n) => Some (str "controller", MkToken n 0) | _ => None end;
    k_evolves := broker_evolves
  |}.
  - split; [by split|]. intros x y z [H1 H2] [H3 H4]. split; [lia|auto].
  - intros x x' id t [He _]. case_decide as H; [|done]. intros [= <-]. destruct H as [-> H]. rewrite decide_True by (split; [done|lia]).
    eexists. split; [done|]. rewrite Supersedes_lex. cbn. destruct (decide (db_epoch x' = db_epoch x)) as [->|]; [by left|right; lia].
  - intros x x' c m [_ Hk]. destruct (db_clients x !! c) as [[]|] eqn:Hc; try done. by rewrite (Hk _ _ Hc).
  - intros x x0 c id id0 t. destruct (db_clients x !! c) as [[]|]; try done. intros [= <- <-] _. case_decide as H; [|done]. intros _. apply H.
  - intros b x r x'. apply add_client_evolves.
  - intros b id d x r x'. cbn. case_decide; [apply add_client_evolves|by intros [= _ <-]].
  - intros b p x r x'. apply add_client_evolves.
  - intros c x r x'. cbn. destruct (db_clients x !! c) as [[]|] eqn:Hc; intros [= _ <-]; try done. eapply set_client_evolves; [done|done|lia].
  - by intros c ids x r x' [= _ <-].
  - intros c x f x'. cbn. destruct (db_clients x !! c) as [[]|] eqn:Hc; intros [= _ <-]; try done. by eapply set_client_evolves.
  - by intros x r x' [= _ <-].
  - by intros c p k v x r x' [= _ <-].
  - by intros c x r x' [= _ <-].
  - intros c b x r x'. cbn. destruct (db_clients x !! c) as [[]|]; by intros [= _ <-].
  - done.
  - intros b id d x c x'. cbn. case_decide as Hid; [|done]. intros [= <- <-]. cbn. rewrite length_app, decide_True by (cbn; lia). by rewrite Hid.
  - intros c id x n e x'. case_decide as Hlt; [|done]. intros [= <-]. cbn. destruct (db_clients x !! c) as [[]|] eqn:Hc; try done.
    intros [= <- <- <-]. cbn. rewrite list_lookup_insert_eq by done. split; [done|]. exists x, (MkBroker (Z.max 0 (db_epoch x) + 1) (<[c := Minted (Z.max 0 (db_epoch x) + 1)]> (db_clients x))).
    split; [by split|]. split; [eapply set_client_evolves; [done|done|lia]|]. split; [by split|]. cbn. rewrite decide_True by (split; [done|lia]).
    split; [done|]. intros t0. case_decide; [|done]. intros [= <-]. rewrite Supersedes_lex. cbn. lia.
  - intros c id t x x'. cbn. destruct (db_clients x !! c) as [[]|]; try done. intros [= <- <-]. case_decide as Hn; [|done]. intros [= <-].
    exists x. split; [by split|]. split; [by split|]. destruct Hn as [-> Hn]. by rewrite decide_True.
Defined.

#[global] Instance demo_log_reader stable : 2 ≤ stable → LogReader (demo_kgo stable).
Proof.
  intros Hstable. refine {|
    r_data x p := kafka_log;
    r_stable x p := 2;
    r_start p := 0;
    r_pos x c := match db_clients x !! c with Some (Reading p n) => Some (p, n) | _ => None end
  |}.
  - intros x p r Hr. split; by apply (Forall_forall (λ r, 0 ≤ rec_Offset r) kafka_log); [by_decide|].
  - intros b p x c x' [= <- <-]. cbn. by rewrite list_lookup_middle.
  - by intros c p n x r x' Hp [= _ <-].
  - intros c p n x f x'. cbn. destruct (db_clients x !! c) as [[| |p' n']|] eqn:Hc; try done. intros [= -> ->] [= <- <-] _. exists (Z.max n 2).
    cbn [db_clients]. rewrite list_lookup_insert_eq by (by eapply lookup_lt_Some). split; [done|]. split; [lia|]. split; [|split; [done|]].
    + unfold poll_records. cbn [fs_Partitions map ft_Records concat]. rewrite app_nil_r. unfold below, kafka_log. cbn.
      destruct (decide (0 < n)), (decide (1 < n)), (decide (n ≤ 0)), (decide (n ≤ 1)); try lia;
        rewrite !(decide_True (P := _ < n `max` 2)) by lia; done.
    + constructor; [split; [done|exact Hstable]|constructor].
  - done.
Defined.

Definition demo_process : KafkaTransport nat := MkKafkaTransport [str "broker"] 0%nat 0 (Some ∅).

Lemma demo_world_ok stable : cluster_ok (P := bool) (demo_kgo stable) (MkBroker 0 [Fresh], λ _, demo_process).
Proof. intros p token c. cbn. by rewrite lookup_empty. Qed.

Definition demo_world (stable : Z) : world (P := bool) (demo_kgo stable) := exist _ _ (demo_world_ok stable).

(** Two processes: the second takes the role, and the write of the first is refused as fenced. *)
Lemma kafka_adapter_witness :
  Adapter (kafka_transport (demo_kgo 2) 5 true) ∧
  let run := do* first := AcquireEpoch (kafka_transport (demo_kgo 2) 5 true) (MkRole (str "controller")) in
             do* _ := WriteLease (kafka_transport (demo_kgo 2) 5 true) (MkTopicPartition (str "t") 0) first [] [] in
             do* second := AcquireEpoch (kafka_transport (demo_kgo 2) 5 false) (MkRole (str "controller")) in
             do* _ := WriteLease (kafka_transport (demo_kgo 2) 5 false) (MkTopicPartition (str "t") 0) second [] [] in
             WriteLease (kafka_transport (demo_kgo 2) 5 true) (MkTopicPartition (str "t") 0) first [] [] in
  (run (demo_world 2)).1 = Err (ErrFenced (TransactionFault true)).
Proof. split; [exact (kafka_adapter (demo_kgo 2) 5 true)|vm_compute; reflexivity]. Defined.

Lemma ReadPartition_complete_witness :
  ∃ x t, kafka_ReadPartition (demo_kgo 2) 5 (MkTopicPartition (str "t") 0) (MkBroker 0 [Fresh], demo_process) = (Ok kafka_log, (x, t)) ∧
    ∀ r, r ∈ kafka_log → rec_Offset r < 2 → r ∈ kafka_log.
Proof.
  do 2 eexists. split; [vm_compute; reflexivity|].
  apply (@ReadPartition_complete _ _ _ (demo_kgo 2) (demo_log_reader 2 ltac:(lia)) 5 (MkTopicPartition (str "t") 0)
    (MkBroker 0 [Fresh]) demo_process kafka_log _ _ ltac:(vm_compute; reflexivity)).
Defined.

(** A partition that ends with a lease: [ReadPartition] never returns, and no standby learns whose the lease is. *)
Lemma lease_marker_spins fuel : is_ok (kafka_ReadPartition (demo_kgo 3) fuel (MkTopicPartition (str "t") 0) (MkBroker 0 [], demo_process)).1 = false.
Proof.
  assert (is_ok (read_loop (demo_kgo 3) fuel 0%nat (MkTopicPartition (str "t") 0) [] 0 (MkBroker 0 [Reading (MkTopicPartition (str "t") 0) 0])).1 = false) as H.
  { apply (read_waits_past_a_marker _ _ _ 3); [|done]. intros y. cbn [demo_kgo PollFetches]. destruct (db_clients y !! 0%nat) as [[]|]; cbn [fst fs_Partitions].
    1,2,4: split; constructor.
    split; [repeat constructor|]. unfold poll_records. cbn [fs_Partitions map ft_Records concat]. rewrite app_nil_r.
    apply Forall_forall. intros r' [_ Hin]%list_elem_of_filter. revert r' Hin. apply Forall_forall. by_decide. }
  unfold kafka_ReadPartition. replace (NewReader (demo_kgo 3) _ _ _)
    with (@Ok bool nat 0%nat, MkBroker 0 [Reading (MkTopicPartition (str "t") 0) 0]) by reflexivity.
  by destruct (read_loop _ _ _ _ _ _ _) as [r x].
Qed.
