(* ===== verification/Kafka.v ===== *)
(** * Records and partitions of the columnar package

    The data of [columnar/records.go], [TopicPartition] with its order, and the snapshot byte layout
    ([appendSized] and the fixed-width part of [valueReader] in [columnar/ops.go]) that the state store
    and the stateful operators share. A nil byte slice is [None]. *)

From S2P Require Import Prelude GoStd.

Record RecordHeader := MkHeader { header_Key : bytes; header_Value : option bytes }.

Record ConsumedRecord := MkConsumed {
  con_Key : option bytes;
  con_Value : option bytes;
  con_Timestamp : Z;
  con_Partition : Z;
  con_Offset : Z;
  con_Headers : list RecordHeader
}.

Record ProduceRecord := MkProduce {
  pro_Key : option bytes;
  pro_Value : option bytes;
  pro_Timestamp : Z;
  pro_Headers : list RecordHeader
}.

Record ProducedToTopic := MkProduced { produced_Topic : bytes; produced_Record : ProduceRecord }.

#[global] Instance RecordHeader_eq_dec : EqDecision RecordHeader.
Proof. solve_decision. Defined.
#[global] Instance ConsumedRecord_eq_dec : EqDecision ConsumedRecord.
Proof. solve_decision. Defined.
#[global] Instance ProduceRecord_eq_dec : EqDecision ProduceRecord.
Proof. solve_decision. Defined.
#[global] Instance ProducedToTopic_eq_dec : EqDecision ProducedToTopic.
Proof. solve_decision. Defined.

(** [bytes.Clone] and [cloneHeaders] copy, so they are the identity on values. *)
Definition NewConsumedRecord (key value : option bytes) (timestamp partition offset : Z)
    (headers : list RecordHeader) : ConsumedRecord :=
  MkConsumed key (Some (default [] value)) timestamp partition offset headers.

Definition NewProduceRecord (key value : option bytes) (timestamp : Z) (headers : list RecordHeader)
    : ProduceRecord :=
  MkProduce key (Some (default [] value)) timestamp headers.

(** [bytes.Equal] does not tell a nil slice from an empty one. *)
Definition bytes_Equal (x y : option bytes) : bool := bool_decide (default [] x = default [] y).

Definition RecordHeader_Equal (h other : RecordHeader) : bool :=
  bool_decide (header_Key h = header_Key other) && bytes_Equal (header_Value h) (header_Value other).

Fixpoint EqualFunc {A} (eq : A → A → bool) (x y : list A) : bool :=
  match x, y with
  | [], [] => true
  | a :: x, b :: y => eq a b && EqualFunc eq x y
  | _, _ => false
  end.

Definition ProduceRecord_Equal (r other : ProduceRecord) : bool :=
  bytes_Equal (pro_Key r) (pro_Key other) && bytes_Equal (pro_Value r) (pro_Value other) &&
  bool_decide (pro_Timestamp r = pro_Timestamp other) &&
  EqualFunc RecordHeader_Equal (pro_Headers r) (pro_Headers other).

(** ** Partitions *)

Record TopicPartition := MkTP { tp_Topic : bytes; tp_Partition : Z }.

#[global] Instance TopicPartition_eq_dec : EqDecision TopicPartition.
Proof. solve_decision. Defined.
#[global] Instance TopicPartition_countable : Countable TopicPartition.
Proof.
  refine (inj_countable' (λ p, (tp_Topic p, tp_Partition p)) (λ p, MkTP p.1 p.2) _). by intros [].
Defined.

(** [cmp.Compare] on two strings. *)
Definition compareTopicPartitions (left right : TopicPartition) : Z :=
  let result := bytes_Compare (tp_Topic left) (tp_Topic right) in
  if decide (result ≠ 0) then result else cmp_Compare (tp_Partition left) (tp_Partition right).

Definition tp_le (left right : TopicPartition) : Prop := compareTopicPartitions left right ≤ 0.

#[global] Instance tp_le_dec : RelDecision tp_le.
Proof. intros x y. unfold tp_le. apply _. Defined.

Lemma bytes_Compare_eq x y : bytes_Compare x y = 0 ↔ x = y.
Proof.
  revert y. induction x as [|a x IH]; intros [|b y]; cbn; try done.
  rewrite cmp_Compare_sgn. destruct (Z.eqb_spec (Z.sgn (b2z a - b2z b)) 0) as [E|E].
  - assert (a = b) as -> by (apply b2z_inj; lia). rewrite IH. split; congruence.
  - split; [done|]. intros [= -> ->]. destruct E. lia.
Qed.

Lemma bytes_Compare_antisym x y : bytes_Compare y x = - bytes_Compare x y.
Proof.
  revert y. induction x as [|a x IH]; intros [|b y]; cbn; try done. rewrite !cmp_Compare_sgn, IH.
  destruct (Z.eqb_spec (Z.sgn (b2z a - b2z b)) 0), (Z.eqb_spec (Z.sgn (b2z b - b2z a)) 0); lia.
Qed.

Lemma bytes_Compare_trans x y z : bytes_Compare x y ≤ 0 → bytes_Compare y z ≤ 0 → bytes_Compare x z ≤ 0.
Proof.
  revert y z. induction x as [|a x IH]; intros [|b y] [|c z]; cbn; try done; try lia.
  rewrite !cmp_Compare_sgn. specialize (IH y z).
  destruct (Z.eqb_spec (Z.sgn (b2z a - b2z b)) 0), (Z.eqb_spec (Z.sgn (b2z b - b2z c)) 0),
    (Z.eqb_spec (Z.sgn (b2z a - b2z c)) 0); lia.
Qed.

#[global] Instance tp_le_total : Total tp_le.
Proof.
  intros x y. unfold tp_le, compareTopicPartitions.
  rewrite (bytes_Compare_antisym (tp_Topic x)), !cmp_Compare_sgn. repeat case_decide; lia.
Qed.

#[global] Instance tp_le_trans : Transitive tp_le.
Proof.
  intros x y z. unfold tp_le, compareTopicPartitions. rewrite !cmp_Compare_sgn.
  pose proof (bytes_Compare_trans (tp_Topic x) (tp_Topic y) (tp_Topic z)).
  pose proof (bytes_Compare_eq (tp_Topic x) (tp_Topic y)). pose proof (bytes_Compare_eq (tp_Topic y) (tp_Topic z)).
  pose proof (bytes_Compare_eq (tp_Topic x) (tp_Topic z)).
  pose proof (bytes_Compare_antisym (tp_Topic x) (tp_Topic z)).
  pose proof (bytes_Compare_trans (tp_Topic z) (tp_Topic x) (tp_Topic y)).
  pose proof (bytes_Compare_trans (tp_Topic y) (tp_Topic z) (tp_Topic x)).
  pose proof (bytes_Compare_antisym (tp_Topic x) (tp_Topic y)).
  pose proof (bytes_Compare_antisym (tp_Topic y) (tp_Topic z)).
  repeat case_decide; intros; try lia.
  all: try (assert (tp_Topic x = tp_Topic y) as E by (apply H0; lia); rewrite E in *; lia).
Qed.

#[global] Instance tp_le_antisym : AntiSymm (=) tp_le.
Proof.
  intros x y. unfold tp_le, compareTopicPartitions. rewrite !cmp_Compare_sgn.
  rewrite (bytes_Compare_antisym (tp_Topic x)). pose proof (bytes_Compare_eq (tp_Topic x) (tp_Topic y)) as He.
  repeat case_decide; intros; try lia. destruct x, y. cbn in *. f_equal; [apply He|]; lia.
Qed.

#[global] Instance bytes_le_dec : RelDecision bytes_le.
Proof. intros x y. unfold bytes_le. apply _. Defined.

#[global] Instance bytes_le_total : Total bytes_le.
Proof. intros x y. unfold bytes_le. rewrite (bytes_Compare_antisym x). lia. Qed.

#[global] Instance bytes_le_trans : Transitive bytes_le.
Proof. intros x y z. apply bytes_Compare_trans. Qed.

#[global] Instance bytes_le_antisym : AntiSymm (=) bytes_le.
Proof. intros x y. unfold bytes_le. rewrite (bytes_Compare_antisym x). intros. apply bytes_Compare_eq. lia. Qed.

(** [slices.Sorted(maps.Keys(m))] for string keys. *)
Definition sorted_keys {V} (m : gmap bytes V) : list bytes := merge_sort bytes_le (map fst (map_to_list m)).

Lemma elem_of_sorted_keys {V} (m : gmap bytes V) k : k ∈ sorted_keys m ↔ is_Some (m !! k).
Proof.
  unfold sorted_keys. rewrite merge_sort_Permutation. change (map fst) with (fmap (M:=list) (@fst bytes V)).
  rewrite list_elem_of_fmap. split.
  - intros ([k' v] & -> & H%elem_of_map_to_list). cbn. eauto.
  - intros [v Hv]. exists (k, v). split; [done|]. by apply elem_of_map_to_list.
Qed.

Lemma NoDup_sorted_keys {V} (m : gmap bytes V) : NoDup (sorted_keys m).
Proof. unfold sorted_keys. rewrite merge_sort_Permutation. apply NoDup_fst_map_to_list. Qed.

Lemma length_sorted_keys {V} (m : gmap bytes V) : length (sorted_keys m) = size m.
Proof.
  unfold sorted_keys. rewrite merge_sort_Permutation. rewrite length_map. apply length_map_to_list.
Qed.

(** The keys in order, with their values, are the entries of the map. *)
Lemma sorted_entries {V} (d : V) (m : gmap bytes V) :
  list_to_map (map (λ k, (k, default d (m !! k))) (sorted_keys m)) = m.
Proof.
  apply map_eq. intros k. destruct (m !! k) as [v|] eqn:Hk.
  - apply elem_of_list_to_map_1.
    + rewrite map_map, map_id. apply NoDup_sorted_keys.
    + change (map ?f) with (fmap (M:=list) f). apply list_elem_of_fmap. exists k. rewrite Hk. split; [done|].
      apply elem_of_sorted_keys. eauto.
  - apply not_elem_of_list_to_map_1. change (map ?f) with (fmap (M:=list) f). rewrite <- list_fmap_compose.
    intros (k' & Hk' & Hin)%list_elem_of_fmap. cbn in Hk'. subst. apply elem_of_sorted_keys in Hin as [v Hv]. congruence.
Qed.

(** Inserting entries one after another builds the map of the list when no key repeats. *)
Lemma insert_all_list_to_map {V} (l : list (bytes * V)) :
  NoDup (map fst l) → fold_left (λ m entry, <[entry.1 := entry.2]> m) l ∅ = (list_to_map l : gmap bytes V).
Proof.
  intros Hn. rewrite <- (fold_left_rev_right (λ (entry : bytes * V) (m : gmap bytes V), <[entry.1 := entry.2]> m)).
  change (fold_right _ _ _) with (list_to_map (rev l) : gmap bytes V). symmetry. apply list_to_map_proper; [done|].
  apply Permutation_rev.
Qed.

(** The order of [slices.Sorted] on partition numbers. *)
#[global] Instance Zle_total : Total Z.le.
Proof. intros x y. lia. Qed.

(** [slices.Sorted(maps.Keys(m))] for integer keys. *)
Definition sorted_ints (l : list Z) : list Z := merge_sort Z.le (remove_dups l).

(** ** Snapshot bytes *)

Inductive snapshot_error := TruncatedSnapshot.

Definition appendSized (buffer data : bytes) : bytes :=
  buffer ++ be_encode 4 (uint32 (zlen data)) ++ data.

Definition valueReader_uint32 : reader snapshot_error Z := read_uint TruncatedSnapshot 4.
Definition valueReader_uint64 : reader snapshot_error Z := read_uint TruncatedSnapshot 8.

(** The length test compares in uint32, as the source does. *)
Definition valueReader_sized : reader snapshot_error bytes :=
  read* length := valueReader_uint32 in
  λ data, if uint32 (zlen data) <? length then Err TruncatedSnapshot
          else Ok (take (Z.to_nat length) data, drop (Z.to_nat length) data).

(** One sized field of the layout. *)
Definition sized_bytes (data : bytes) : bytes := be_encode 4 (zlen data) ++ data.

Lemma appendSized_short buffer data : zlen data < 2 ^ 32 → appendSized buffer data = buffer ++ sized_bytes data.
Proof.
  intros H. unfold appendSized, sized_bytes. rewrite wrapU_id; [done|]. pose proof (zlen_nonneg data). unfold inU. lia.
Qed.

(** A field reads back as long as the bytes that are left count less than 2^32. *)
Lemma sized_dec data rest :
  zlen data + zlen rest < 2 ^ 32 → valueReader_sized (sized_bytes data ++ rest) = Ok (data, rest).
Proof.
  intros H. pose proof (zlen_nonneg data). pose proof (zlen_nonneg rest). unfold valueReader_sized, sized_bytes.
  rewrite <- (assoc_L (++)), (rseq_dec (be_encode 4) valueReader_uint32 (inU 32)) by (unfold inU; lia).
  rewrite wrapU_id by (unfold inU; rewrite zlen_app; lia). rewrite zlen_app.
  replace (zlen data + zlen rest <? zlen data) with false by lia. unfold zlen.
  by rewrite Nat2Z.id, take_app_length, drop_app_length.
Qed.

Lemma sized_enc bs data rest :
  valueReader_sized bs = Ok (data, rest) → bs = sized_bytes data ++ rest ∧ zlen data < 2 ^ 32.
Proof.
  unfold valueReader_sized. intros H. reader_inv.
  apply (codec_enc (dec := valueReader_uint32)) in H as [-> Hx].
  rename Heqb into H. apply Z.ltb_ge in H. unfold inU in Hx. change (8 * Z.of_nat 4) with 32 in Hx.
  assert (x ≤ zlen x0) as Hle by (unfold wrapU in H; pose proof (Z.mod_le (zlen x0) (2 ^ 32) (zlen_nonneg x0)); lia).
  unfold sized_bytes. assert (zlen (take (Z.to_nat x) x0) = x) as Hl by (unfold zlen in *; rewrite length_take; lia).
  rewrite Hl, <- (assoc_L (++)), take_drop. split; [done|lia].
Qed.

(** The length test wraps: with 2^32 bytes left, no field of a positive length reads. *)
Lemma sized_wraps n data :
  0 < n < 2 ^ 32 → zlen data = 2 ^ 32 → valueReader_sized (be_encode 4 n ++ data) = Err TruncatedSnapshot.
Proof.
  intros Hn Hl. unfold valueReader_sized.
  rewrite (rseq_dec (be_encode 4) valueReader_uint32 (inU 32)) by (unfold inU; lia).
  rewrite Hl. unfold wrapU. rewrite Z.mod_same by done. by replace (0 <? n) with true by lia.
Qed.

(** ** The client interfaces *)

(** [Consumer], over a client state [X] and with client errors [E]. [Poll] returns the fetched map as the
    list of its entries in the order that a Go iteration yields them. [Positions] is there when the
    adapter implements [PositionReader]. *)
Record Consumer (X E : Type) := MkConsumer {
  Assign : list TopicPartition → io X E unit;
  Seek : TopicPartition → Z → io X E unit;
  Poll : Z → io X E (list (TopicPartition * list ConsumedRecord));
  CommitOffsets : gmap TopicPartition Z → io X E unit;
  Subscribe : list bytes → io X E unit;
  Positions : option (list TopicPartition → io X E (gmap TopicPartition Z))
}.
Arguments Assign {X E}.
Arguments Seek {X E}.
Arguments Poll {X E}.
Arguments CommitOffsets {X E}.
Arguments Subscribe {X E}.
Arguments Positions {X E}.
