(* ===== verification/Value.v ===== *)
(** * Column values and their encoding, from columnar/ops.go and columnar/support.go

    The Go values that a column cell holds, the exact integer conversions, the order of values, and the tagged
    binary encoding of group keys and snapshots with its reader. A float is the 64 bits of its float64
    value; a float32 is held as the float64 it widens to. *)

From Stdlib Require Import QArith.QArith QArith.Qreduction.
From S2P Require Import Prelude GoStd GoFloat Kafka.

#[local] Open Scope Z_scope.

(** ** Values *)

Inductive int_kind := KInt | KInt8 | KInt16 | KInt32 | KInt64 | KUint | KUint8 | KUint16 | KUint32 | KUint64.

#[global] Instance int_kind_eq_dec : EqDecision int_kind.
Proof. solve_decision. Defined.

(** A rational is reduced, as [big.Rat] keeps it; a map is its entries in key order; a [time.Time] and a
    [time.Duration] are their nanoseconds; [VSlice] is a slice of another type than [[]any] and
    [[]byte]; [VArray] is an array of bytes. [VOther] stands for every other dynamic type. *)
Inductive value :=
| VNil
| VBool (b : bool)
| VString (s : bytes)
| VBytes (s : bytes)
| VInt (k : int_kind) (n : Z)
| VFloat32 (bits : Z)
| VFloat64 (bits : Z)
| VBigInt (n : Z)
| VRat (q : Q)
| VList (items : list value)
| VMap (entries : list (bytes * value))
| VTime (nanoseconds : Z)
| VDuration (nanoseconds : Z)
| VSlice (items : list value)
| VArray (s : bytes)
| VOther.

Section value_ind.
Variable P : value → Prop.
Hypothesis (Hnil : P VNil) (Hbool : ∀ b, P (VBool b)) (Hstring : ∀ s, P (VString s)) (Hbytes : ∀ s, P (VBytes s)).
Hypothesis (Hint : ∀ k n, P (VInt k n)) (Hf32 : ∀ b, P (VFloat32 b)) (Hf64 : ∀ b, P (VFloat64 b)).
Hypothesis (Hbig : ∀ n, P (VBigInt n)) (Hrat : ∀ q, P (VRat q)).
Hypothesis Hlist : ∀ items, Forall P items → P (VList items).
Hypothesis Hmap : ∀ entries, Forall (λ e, P e.2) entries → P (VMap entries).
Hypothesis (Htime : ∀ n, P (VTime n)) (Hduration : ∀ n, P (VDuration n)) (Hslice : ∀ items, Forall P items → P (VSlice items)) (Harray : ∀ s, P (VArray s)) (Hother : P VOther).

Fixpoint value_nested_ind (v : value) : P v :=
  match v with
  | VNil => Hnil | VBool b => Hbool b | VString s => Hstring s | VBytes s => Hbytes s | VInt k n => Hint k n
  | VFloat32 b => Hf32 b | VFloat64 b => Hf64 b | VBigInt n => Hbig n | VRat q => Hrat q 
  | VTime n => Htime n | VDuration n => Hduration n | VArray s => Harray s | VOther => Hother
  | VList items =>
      Hlist items ((fix go l : Forall P l :=
        match l with [] => Forall_nil_2 _ | x :: l => Forall_cons_2 _ _ _ (value_nested_ind x) (go l) end) items)
  | VSlice items =>
      Hslice items ((fix go l : Forall P l :=
        match l with [] => Forall_nil_2 _ | x :: l => Forall_cons_2 _ _ _ (value_nested_ind x) (go l) end) items)
  | VMap entries =>
      Hmap entries ((fix go l : Forall (λ e, P e.2) l :=
        match l with [] => Forall_nil_2 _ | x :: l => Forall_cons_2 _ _ _ (value_nested_ind x.2) (go l) end) entries)
  end.
End value_ind.

(** ** Numbers *)

Inductive value_error :=
| IntegerOverflow
| NotAnInteger
| CannotConvert
| CannotCompare
| CountOverflow
| UnknownFunction
| CannotEncode
| NilDereference
| TruncatedValue
| InvalidInteger
| InvalidRational
| UnknownTag (tag : byte)
| TooDeep.

#[global] Instance value_error_eq_dec : EqDecision value_error.
Proof. solve_decision. Defined.

(** [big.Int.SetString(s, 10)]: an optional sign and at least one digit. *)
Definition BigInt_SetString (s : bytes) : option Z :=
  let '(neg, ds) :=
    match s with
    | b :: rest =>
        if decide (b = ascii_byte "+") then (false, rest)
        else if decide (b = ascii_byte "-") then (true, rest) else (false, s)
    | [] => (false, s)
    end in
  match ds with
  | [] => None
  | _ => match parse_digits ds 0 with Some v => Some (if neg : bool then - v else v) | None => None end
  end.

(** [big.Rat.RatString]. *)
Definition RatString (q : Q) : bytes :=
  if decide (Qden q = 1%positive) then FormatInt (Qnum q)
  else FormatInt (Qnum q) ++ ascii_byte "/" :: FormatInt (Zpos (Qden q)).

(** The exact value of a finite float64; nothing for an infinity or a NaN. *)
Definition float_Q (bits : Z) : option Q :=
  let exponent := Z.land (Z.shiftr bits 52) 2047 in
  let fraction := Z.land bits (2 ^ 52 - 1) in
  let sign := if Z.testbit bits 63 then -1 else 1 in
  if exponent =? 2047 then None
  else
    let '(mantissa, power) := if exponent =? 0 then (fraction, -1074) else (2 ^ 52 + fraction, exponent - 1075) in
    Some (Qred (if 0 <=? power then inject_Z (sign * mantissa * 2 ^ power)
                else (sign * mantissa) # Z.to_pos (2 ^ (- power)))).

(** [value != math.Trunc(value) || value < math.MinInt64 || value >= math.MaxInt64], whose last bound is 2^63. *)
Definition exactFloatInt64 (bits : Z) : result value_error Z :=
  match float_Q bits with
  | Some q =>
      if decide (Qden q = 1%positive) then
        if decide (inS 64 (Qnum q)) then Ok (Qnum q) else Err NotAnInteger
      else Err NotAnInteger
  | None => Err NotAnInteger
  end.

Definition exactInt64 (v : value) : result value_error Z :=
  match v with
  | VInt (KUint | KUint64) n => if MaxInt64 <? n then Err IntegerOverflow else Ok n
  | VInt _ n => Ok n
  | VFloat32 bits | VFloat64 bits => exactFloatInt64 bits
  | VBigInt n => if decide (inS 64 n) then Ok n else Err IntegerOverflow
  | VRat q =>
      if decide (Qden q = 1%positive) then if decide (inS 64 (Qnum q)) then Ok (Qnum q) else Err NotAnInteger
      else Err NotAnInteger
  | VString s =>
      match BigInt_SetString s with
      | Some n => if decide (inS 64 n) then Ok n else Err IntegerOverflow
      | None => Err NotAnInteger
      end
  | _ => Err CannotConvert
  end.

Definition exactIntRange (v : value) (minimum maximum : Z) : result value_error Z :=
  let* number := exactInt64 v in
  if (number <? minimum) || (maximum <? number) then Err IntegerOverflow else Ok number.

(** [typed.BitLen()] of a number that is not negative. *)
Definition BitLen (n : Z) : Z := if n =? 0 then 0 else Z.log2 n + 1.

Definition exactUnsigned (v : value) (bits : Z) : result value_error Z :=
  let checked number :=
    if number <? 0 then Err IntegerOverflow
    else if (bits <? 64) && (2 ^ bits - 1 <? number) then Err IntegerOverflow else Ok number in
  match v with
  | VInt KUint64 n =>
      if bits =? 64 then Ok n
      else match exactInt64 v with Ok number => checked number | Err _ => checked (int64 n) end
  | VBigInt n => if (n <? 0) || (bits <? BitLen n) then Err IntegerOverflow else Ok n
  | _ => let* number := exactInt64 v in checked number
  end.

Definition exactBigInt (v : value) : result value_error Z :=
  match v with
  | VBigInt n => Ok n
  | VInt KUint64 n => Ok n
  | VBool b => Ok (if b then 1 else 0)
  | _ => exactInt64 v
  end.

(** [new(big.Rat).SetFloat64(x)] is nil for an infinity or a NaN; comparing with it dereferences nil. *)
Definition numericRat (v : value) : result value_error (option Q) :=
  match v with
  | VRat q => Ok (Some q)
  | VBigInt n => Ok (Some (inject_Z n))
  | VFloat32 bits | VFloat64 bits => Ok (float_Q bits)
  | VInt KUint64 n => Ok (Some (inject_Z n))
  | _ => let* number := exactInt64 v in Ok (Some (inject_Z number))
  end.

Definition comparison_sign (c : comparison) : Z := match c with Lt => -1 | Eq => 0 | Gt => 1 end.

Definition compareValues (left right : value) : result value_error Z :=
  match left, right with
  | VString x, VString y => Ok (bytes_Compare x y)
  | VBytes x, VBytes y => Ok (bytes_Compare x y)
  | VBool x, VBool y => Ok ((if x then 1 else 0) - (if y then 1 else 0))
  | _, _ =>
      match numericRat left, numericRat right with
      | Ok (Some x), Ok (Some y) => Ok (comparison_sign (Qcompare x y))
      | Ok _, Ok _ => Err NilDereference
      | _, _ => Err CannotCompare
      end
  end.

(** Go's division truncates; [value % divisor] has the sign of the value. *)
Definition floorDiv (value divisor : Z) : Z :=
  let quotient := Z.quot value divisor in
  if negb (Z.rem value divisor =? 0) && negb (bool_decide (value < 0 ↔ divisor < 0)) then quotient - 1 else quotient.

Definition saturatingSubtract (left right : Z) : Z :=
  let result := int64 (left - right) in
  if (0 <? right) && (left <? result) then MinInt64
  else if (right <? 0) && (result <? left) then MaxInt64 else result.

(** ** The tagged encoding *)

Definition tag (s : String.string) : byte := ascii_byte s.

(** [number, _ := exactInt64(typed)]: an overflow is ignored, and encodes zero. *)
Definition encoded_int (v : value) : Z := match exactInt64 v with Ok n => n | Err _ => 0 end.

Fixpoint encodeValue (v : value) : result value_error bytes :=
  match v with
  | VNil => Ok [tag "n"]
  | VBool true => Ok [tag "t"]
  | VBool false => Ok [tag "F"]
  | VString s => Ok (appendSized [tag "s"] s)
  | VBytes s => Ok (appendSized [tag "b"] s)
  | VInt KUint64 n => Ok (tag "u" :: be_encode 8 n)
  | VInt _ n => Ok (tag "i" :: be_encode 8 (uint64 (encoded_int v)))
  | VFloat32 bits => Ok (tag "g" :: be_encode 8 bits)
  | VFloat64 bits => Ok (tag "f" :: be_encode 8 bits)
  | VBigInt n => Ok (appendSized [tag "I"] (FormatInt n))
  | VRat q => Ok (appendSized [tag "R"] (RatString q))
  | VList items =>
      (fix go (buffer : bytes) (l : list value) : result value_error bytes :=
         match l with
         | [] => Ok buffer
         | item :: l => let* encoded := encodeValue item in go (buffer ++ encoded) l
         end) (tag "L" :: be_encode 4 (uint32 (zlen items))) items
  | VMap entries =>
      (fix go (buffer : bytes) (l : list (bytes * value)) : result value_error bytes :=
         match l with
         | [] => Ok buffer
         | entry :: l =>
             let* encoded := encodeValue entry.2 in go (appendSized buffer entry.1 ++ encoded) l
         end) (tag "M" :: be_encode 4 (uint32 (zlen entries))) entries
  | VTime _ | VDuration _ | VSlice _ | VArray _ | VOther => Err CannotEncode
  end.

(** [encodeKeyParts]: the encodings of the parts, one after the other. *)
Fixpoint encode_parts (buffer : bytes) (parts : list value) : result value_error bytes :=
  match parts with
  | [] => Ok buffer
  | part :: parts => let* encoded := encodeValue part in encode_parts (buffer ++ encoded) parts
  end.

Definition encodeKeyParts (parts : list value) : result value_error bytes := encode_parts [] parts.

(** *** The reader *)

Definition snapshot_reader {A} (m : reader snapshot_error A) : reader value_error A :=
  λ bs, match m bs with Ok r => Ok r | Err TruncatedSnapshot => Err TruncatedValue end.

Definition valueReader_byte : reader value_error byte :=
  λ bs, match bs with b :: rest => Ok (b, rest) | [] => Err TruncatedValue end.

(** Insertion into a map held in key order; a key that is there keeps its place and gets the value. *)
Fixpoint map_insert (k : bytes) (v : value) (entries : list (bytes * value)) : list (bytes * value) :=
  match entries with
  | [] => [(k, v)]
  | (k', v') :: rest =>
      if decide (k = k') then (k, v) :: rest
      else if decide (bytes_le k k') then (k, v) :: entries else (k', v') :: map_insert k v rest
  end.

Section Reader.
(** [big.Rat.SetString]. *)
Context (Rat_SetString : bytes → option Q).

(** The fuel bounds the nesting; a nested value takes a byte at least, so the length of the data is enough. *)
Fixpoint read_value (fuel : nat) : reader value_error value :=
  match fuel with
  | O => rfail TooDeep
  | S fuel =>
      read* t := valueReader_byte in
      if decide (t = tag "n") then rret VNil
      else if decide (t = tag "t") then rret (VBool true)
      else if decide (t = tag "F") then rret (VBool false)
      else if decide (t = tag "s") then read* data := snapshot_reader valueReader_sized in rret (VString data)
      else if decide (t = tag "b") then read* data := snapshot_reader valueReader_sized in rret (VBytes data)
      else if decide (t = tag "i") then
        read* number := snapshot_reader valueReader_uint64 in rret (VInt KInt64 (int64 number))
      else if decide (t = tag "u") then
        read* number := snapshot_reader valueReader_uint64 in rret (VInt KUint64 number)
      else if decide (t = tag "g") then
        read* number := snapshot_reader valueReader_uint64 in rret (VFloat32 (round32 number))
      else if decide (t = tag "f") then
        read* number := snapshot_reader valueReader_uint64 in rret (VFloat64 number)
      else if decide (t = tag "I") then
        read* data := snapshot_reader valueReader_sized in
        match BigInt_SetString data with Some n => rret (VBigInt n) | None => rfail InvalidInteger end
      else if decide (t = tag "R") then
        read* data := snapshot_reader valueReader_sized in
        match Rat_SetString data with Some q => rret (VRat q) | None => rfail InvalidRational end
      else if decide (t = tag "L") then
        read* count := snapshot_reader valueReader_uint32 in
        read* items := read_list (Z.to_nat count) (read_value fuel) in
        rret (VList items)
      else if decide (t = tag "M") then
        read* count := snapshot_reader valueReader_uint32 in
        read* entries := read_list (Z.to_nat count)
          (read* key := snapshot_reader valueReader_sized in read* v := read_value fuel in rret (key, v)) in
        rret (VMap (fold_left (λ m entry, map_insert entry.1 entry.2 m) entries []))
      else rfail (UnknownTag t)
  end.

Definition valueReader_value : reader value_error value := λ data, read_value (S (length data)) data.

End Reader.

(** ** Bounds of the window arithmetic *)

Lemma floorDiv_floor value divisor : 0 < divisor → floorDiv value divisor = value / divisor.
Proof.
  intros Hd. unfold floorDiv. destruct (Z.eqb_spec (Z.rem value divisor) 0) as [Hr|Hr]; cbn [negb andb].
  - pose proof (Z.quot_rem' value divisor). pose proof (Z.div_unique value divisor (Z.quot value divisor) 0). lia.
  - case_bool_decide as Hs; cbn [negb].
    + assert (0 ≤ value) by (destruct (Z.lt_ge_cases value 0); [|done]; exfalso; apply Hs in H; lia).
      apply Z.quot_div_nonneg; lia.
    + assert (value < 0) as Hv.
      { destruct (Z.lt_ge_cases value 0); [done|]. exfalso. apply Hs. lia. }
      pose proof (Z.quot_rem' value divisor). pose proof (Z.rem_bound_pos_neg value divisor ltac:(lia) ltac:(lia)) as Hb.
      apply (Z.div_unique value divisor (Z.quot value divisor - 1) (Z.rem value divisor + divisor)); [left|]; lia.
Qed.

Lemma saturatingSubtract_clamp left right :
  inS 64 left → inS 64 right →
  saturatingSubtract left right = Z.max MinInt64 (Z.min MaxInt64 (left - right)).
Proof.
  intros Hl Hr. unfold saturatingSubtract. destruct (Z.lt_trichotomy right 0) as [H|[->|H]].
  - replace (0 <? right) with false by lia. replace (right <? 0) with true by lia. cbn [andb].
    destruct (Z.ltb_spec (int64 (left - right)) left); wrap_lia.
  - cbn [Z.ltb Z.compare andb]. rewrite Z.sub_0_r. rewrite wrapS_id by done. wrap_lia.
  - replace (0 <? right) with true by lia. replace (right <? 0) with false by lia. cbn [andb].
    destruct (Z.ltb_spec left (int64 (left - right))); wrap_lia.
Qed.

(** ** What a value reads back as *)

Definition int_in (k : int_kind) (n : Z) : Prop :=
  match k with
  | KInt | KInt64 => inS 64 n
  | KInt8 => inS 8 n | KInt16 => inS 16 n | KInt32 => inS 32 n
  | KUint | KUint64 => inU 64 n
  | KUint8 => inU 8 n | KUint16 => inU 16 n | KUint32 => inU 32 n
  end.

Lemma encoded_int_range k n : int_in k n → inS 64 (encoded_int (VInt k n)).
Proof.
  intros H. unfold encoded_int, exactInt64.
  destruct k; try (cbn in *; unfold inS, inU in *; width_consts; lia);
    cbn in H; unfold inU in H; destruct (Z.ltb_spec MaxInt64 n); unfold inS; width_consts; lia.
Qed.

(** Reading forgets the width of a signed or a short unsigned integer. *)
Fixpoint norm (v : value) : value :=
  match v with
  | VInt KUint64 n => VInt KUint64 n
  | VInt _ _ => VInt KInt64 (encoded_int v)
  | VList items => VList (map norm items)
  | VMap entries => VMap (map (λ e, (e.1, norm e.2)) entries)
  | _ => v
  end.

Fixpoint value_depth (v : value) : nat :=
  match v with
  | VList items => S (fold_right Nat.max 0%nat (map value_depth items))
  | VMap entries => S (fold_right Nat.max 0%nat (map (λ e, value_depth e.2) entries))
  | _ => 0%nat
  end.

Definition key_lt (x y : bytes) : Prop := bytes_le x y ∧ x ≠ y.

Lemma encodeValue_list items :
  encodeValue (VList items) = encode_parts (tag "L" :: be_encode 4 (uint32 (zlen items))) items.
Proof. reflexivity. Qed.

Fixpoint encode_entries (buffer : bytes) (entries : list (bytes * value)) : result value_error bytes :=
  match entries with
  | [] => Ok buffer
  | entry :: l => let* encoded := encodeValue entry.2 in encode_entries (appendSized buffer entry.1 ++ encoded) l
  end.

Lemma encodeValue_map entries :
  encodeValue (VMap entries) = encode_entries (tag "M" :: be_encode 4 (uint32 (zlen entries))) entries.
Proof. reflexivity. Qed.

Lemma encode_parts_Ok buffer parts bs :
  encode_parts buffer parts = Ok bs ↔
  ∃ es, Forall2 (λ v e, encodeValue v = Ok e) parts es ∧ bs = buffer ++ concat es.
Proof.
  revert buffer. induction parts as [|v parts IH]; intros buffer; cbn [encode_parts].
  - split; [intros [= <-]; exists []; split; [constructor|by rewrite app_nil_r]|].
    intros (es & H & ->). inversion H. by rewrite app_nil_r.
  - rewrite rbind_Ok. split.
    + intros (e & He & (es & Hes & ->)%IH). exists (e :: es). split; [by constructor|]. cbn. by rewrite (assoc_L (++)).
    + intros (es & H & ->). inversion H as [|? e ? es' He Hes]; subst. exists e. split; [done|]. apply IH.
      exists es'. split; [done|]. cbn. by rewrite (assoc_L (++)).
Qed.

(** One entry of a map, as it is written. *)
Definition entry_bytes (k e : bytes) : bytes := appendSized [] k ++ e.

Lemma appendSized_app buffer data : appendSized buffer data = buffer ++ appendSized [] data.
Proof. done. Qed.

Lemma encode_entries_Ok buffer entries bs :
  encode_entries buffer entries = Ok bs ↔
  ∃ es, Forall2 (λ kv e, ∃ ev, encodeValue kv.2 = Ok ev ∧ e = entry_bytes kv.1 ev) entries es ∧ bs = buffer ++ concat es.
Proof.
  revert buffer. induction entries as [|[k v] entries IH]; intros buffer; cbn [encode_entries].
  - split; [intros [= <-]; exists []; split; [constructor|by rewrite app_nil_r]|].
    intros (es & H & ->). inversion H. by rewrite app_nil_r.
  - rewrite rbind_Ok. cbn [fst snd]. split.
    + intros (e & He & (es & Hes & ->)%IH). exists (entry_bytes k e :: es). split; [constructor; [by exists e|done]|].
      cbn [concat]. unfold entry_bytes. by rewrite (appendSized_app buffer), !(assoc_L (++)).
    + intros (es & H & ->). inversion H as [|? e ? es' (ev & He & ->) Hes]; subst. exists ev. split; [done|]. apply IH.
      exists es'. split; [done|]. cbn [concat]. unfold entry_bytes. cbn [fst snd]. by rewrite (appendSized_app buffer), !(assoc_L (++)).
Qed.

Lemma encodeValue_nonempty v bs : encodeValue v = Ok bs → (0 < length bs)%nat.
Proof.
  destruct v; try (cbn; intros [= <-]; cbn; lia); try done.
  - destruct b; intros [= <-]; cbn; lia.
  - destruct k; intros [= <-]; cbn; lia.
  - rewrite encodeValue_list, encode_parts_Ok. intros (es & _ & ->). cbn. lia.
  - rewrite encodeValue_map, encode_entries_Ok. intros (es & _ & ->). cbn. lia.
Qed.

Lemma zlen_concat_ge {A B} (R : A → list B → Prop) l es :
  (∀ a e, R a e → (0 < length e)%nat) → Forall2 R l es → zlen l ≤ zlen (concat es).
Proof.
  intros HR. induction 1 as [|a e l es H _ IH]; [done|]. cbn [concat]. rewrite zlen_cons, zlen_app.
  apply HR in H. unfold zlen in *. lia.
Qed.

(** A map inserted in key order is the list of its entries. *)
Lemma map_insert_last k v entries :
  Forall (λ e, key_lt e.1 k) entries → map_insert k v entries = entries ++ [(k, v)].
Proof.
  induction 1 as [|[k' v'] entries [Hle Hne] _ IH]; [done|]. cbn [map_insert]. cbn [fst] in Hle, Hne.
  rewrite decide_False by done. rewrite decide_False; [by rewrite IH|].
  intros Hle'. apply Hne. by apply (anti_symm bytes_le).
Qed.

Lemma map_insert_all entries acc :
  StronglySorted key_lt (map fst (acc ++ entries)) →
  fold_left (λ m entry, map_insert entry.1 entry.2 m) entries acc = acc ++ entries.
Proof.
  revert acc. induction entries as [|[k v] entries IH]; intros acc Hs; cbn [fold_left]; [by rewrite app_nil_r|].
  cbn [fst snd]. rewrite map_insert_last.
  - rewrite IH; rewrite <- (assoc_L (++)); done.
  - rewrite map_app in Hs. clear IH. induction acc as [|[k' v'] acc IH]; [constructor|]. cbn [map app] in Hs.
    apply StronglySorted_inv in Hs as [Hs Hall]. constructor; [|by apply IH].
    rewrite Forall_forall in Hall. apply Hall. cbn. apply elem_of_app. right. apply list_elem_of_here.
Qed.

Section Roundtrip.
Context (Rat_SetString : bytes → option Q).
(** [big.Rat.SetString] reads what [RatString] writes. *)
Hypothesis rat_text : ∀ q, Qred q = q → Rat_SetString (RatString q) = Some q.

(** A value of the types that a column yields: in range, floats as the machine holds them, rationals reduced,
    maps in key order. *)
Inductive value_ok : value → Prop :=
| ok_nil : value_ok VNil
| ok_bool b : value_ok (VBool b)
| ok_string s : value_ok (VString s)
| ok_bytes s : value_ok (VBytes s)
| ok_int k n : int_in k n → value_ok (VInt k n)
| ok_float32 bits : inU 64 bits → round32 bits = bits → value_ok (VFloat32 bits)
| ok_float64 bits : inU 64 bits → value_ok (VFloat64 bits)
| ok_big n : value_ok (VBigInt n)
| ok_rat q : Qred q = q → value_ok (VRat q)
| ok_list items : Forall value_ok items → value_ok (VList items)
| ok_map entries : StronglySorted key_lt (map fst entries) → Forall (λ e, value_ok e.2) entries → value_ok (VMap entries).

Lemma BigInt_SetString_FormatInt n : BigInt_SetString (FormatInt n) = Some n.
Proof.
  unfold FormatInt, BigInt_SetString. destruct (Z.ltb_spec n 0) as [Hn|Hn].
  - rewrite decide_False by done. rewrite decide_True by done. pose proof (digits_nonempty (- n)) as Hne.
    pose proof (parse_digits_digits (- n) 0 ltac:(lia)) as Hp. destruct (digits (- n)); [done|]. rewrite Hp. f_equal. lia.
  - pose proof (digits_nonempty n) as Hne. pose proof (digits_Forall n) as Hd. pose proof (parse_digits_digits n 0 Hn) as Hp.
    destruct (digits n) as [|b ds]; [done|]. apply Forall_cons in Hd as [Hb _].
    rewrite decide_False by (by intros ->). rewrite decide_False by (by intros ->). by rewrite Hp.
Qed.

Lemma zlen_sized data : zlen (appendSized [] data) = 4 + zlen data.
Proof. unfold appendSized. cbn [app]. rewrite zlen_app. unfold zlen at 1. by rewrite length_be_encode. Qed.

Lemma zlen_tail (t : byte) l n : zlen (t :: l) < n → zlen l < n.
Proof. rewrite zlen_cons. lia. Qed.

Lemma sized_field {A} (k : bytes → reader value_error A) data rest :
  zlen (appendSized [] data ++ rest) < 2 ^ 32 →
  rseq (snapshot_reader valueReader_sized) k (appendSized [] data ++ rest) = k data rest.
Proof.
  intros H. rewrite zlen_app in H. pose proof (zlen_nonneg rest).
  assert (zlen data + zlen rest < 2 ^ 32) as Hl.
  { rewrite zlen_sized in H. lia. }
  rewrite appendSized_short by (pose proof (zlen_nonneg data); lia). unfold rseq, snapshot_reader.
  cbn [app]. by rewrite sized_dec.
Qed.

Lemma uint64_field {A} (k : Z → reader value_error A) n rest :
  inU 64 n → rseq (snapshot_reader valueReader_uint64) k (be_encode 8 n ++ rest) = k n rest.
Proof.
  intros H. unfold rseq, snapshot_reader. unfold valueReader_uint64.
  by rewrite (codec_dec (enc := be_encode 8) (P := inU (8 * Z.of_nat 8))).
Qed.

Lemma uint32_field {A} (k : Z → reader value_error A) n rest :
  inU 32 n → rseq (snapshot_reader valueReader_uint32) k (be_encode 4 n ++ rest) = k n rest.
Proof.
  intros H. unfold rseq, snapshot_reader. unfold valueReader_uint32.
  by rewrite (codec_dec (enc := be_encode 4) (P := inU (8 * Z.of_nat 4))).
Qed.

Lemma read_items {A B} (item : reader value_error B) (f : A → B) (l : list A) (es : list bytes) rest :
  Forall2 (λ a e, ∀ rest, zlen (e ++ rest) < 2 ^ 32 → item (e ++ rest) = Ok (f a, rest)) l es →
  zlen (concat es ++ rest) < 2 ^ 32 → read_list (length l) item (concat es ++ rest) = Ok (map f l, rest).
Proof.
  induction 1 as [|a e l es H _ IH]; intros Hl; [done|]. cbn [concat length read_list map] in *.
  rewrite <- (assoc_L (++)) in *. unfold rseq at 1. rewrite H by done. unfold rseq.
  rewrite IH; [done|]. rewrite zlen_app in Hl. pose proof (zlen_nonneg e). lia.
Qed.

Lemma fold_max_le l n : (fold_right Nat.max 0 l ≤ n)%nat ↔ Forall (λ x, (x ≤ n)%nat) l.
Proof.
  induction l as [|x l IH]; cbn [fold_right]; [split; [constructor|lia]|]. rewrite Forall_cons, <- IH. lia.
Qed.

Lemma Forall_both {A} (P Q : A → Prop) l : Forall P l → Forall Q l → Forall (λ x, P x ∧ Q x) l.
Proof. intros. by apply Forall_and. Qed.

(** A [Forall2] whose left elements satisfy more. *)
Lemma Forall2_weaken {A B} (P : A → Prop) (R R' : A → B → Prop) l k :
  Forall2 R l k → Forall P l → (∀ a b, P a → R a b → R' a b) → Forall2 R' l k.
Proof. intros H. induction H; intros HP HR; [constructor|]. apply Forall_cons in HP as [? ?]. constructor; auto. Qed.

(** The count in front of a list: it fits when what follows it does. *)
Lemma counted_bytes t n body rest :
  0 ≤ n → n ≤ zlen body → zlen ((t :: be_encode 4 (uint32 n)) ++ body ++ rest) < 2 ^ 32 ∨
    zlen (((t :: be_encode 4 (uint32 n)) ++ body) ++ rest) < 2 ^ 32 →
  inU 32 n ∧ zlen (body ++ rest) < 2 ^ 32 ∧
  ((t :: be_encode 4 (uint32 n)) ++ body) ++ rest = t :: be_encode 4 n ++ body ++ rest.
Proof.
  intros Hn Hb Hl. rewrite <- (assoc_L (++)) in Hl |- *. rewrite <- app_comm_cons in Hl |- *.
  assert (zlen (be_encode 4 (uint32 n) ++ body ++ rest) < 2 ^ 32) as Hl' by (destruct Hl as [Hl|Hl]; by apply zlen_tail in Hl).
  rewrite zlen_app in Hl'. unfold zlen at 1 in Hl'. rewrite length_be_encode in Hl'. rewrite zlen_app in Hl'.
  pose proof (zlen_nonneg rest). assert (inU 32 n) as Hu by (unfold inU; lia).
  split; [done|]. split; [rewrite zlen_app; lia|]. by rewrite wrapU_id.
Qed.

(** The reader of the nested values, on the encodings of the items, of a list or of a map. *)
Lemma read_value_encode v bs fuel rest :
  encodeValue v = Ok bs → value_ok v → (value_depth v < fuel)%nat → zlen (bs ++ rest) < 2 ^ 32 →
  read_value Rat_SetString fuel (bs ++ rest) = Ok (norm v, rest).
Proof.
  revert bs fuel rest.
  induction v as [|b|s|s|k n|b|b|n|q|items IH|entries IH| | | | |] using value_nested_ind; intros bs [|fuel] rest He Hok Hd Hl;
    try lia; inversion Hok; subst; cbn [read_value].
  - injection He as <-. reflexivity.
  - destruct b; injection He as <-; reflexivity.
  - injection He as <-. exact (sized_field (λ data, rret (VString data)) s rest (zlen_tail _ _ _ Hl)).
  - injection He as <-. exact (sized_field (λ data, rret (VBytes data)) s rest (zlen_tail _ _ _ Hl)).
  - pose proof (encoded_int_range k n ltac:(done)) as Hr. destruct k; injection He as <-; cbn [app norm];
      try exact (uint64_field (λ n, rret (VInt KUint64 n)) n rest ltac:(done));
      (etransitivity; [refine (uint64_field (λ number, rret (VInt KInt64 (int64 number))) _ rest _); apply (wrapU_range 64); lia|];
       unfold rret; by rewrite wrapS_wrapU, wrapS_id by done).
  - injection He as <-. etransitivity; [refine (uint64_field (λ number, rret (VFloat32 (round32 number))) _ rest _); done|].
    unfold rret. cbn [norm]. congruence.
  - injection He as <-. exact (uint64_field (λ number, rret (VFloat64 number)) b rest ltac:(done)).
  - injection He as <-. etransitivity.
    + refine (sized_field (λ data, match BigInt_SetString data with Some n => rret (VBigInt n) | None => rfail InvalidInteger end) _ rest _).
      exact (zlen_tail _ _ _ Hl).
    + by rewrite BigInt_SetString_FormatInt.
  - injection He as <-. etransitivity.
    + refine (sized_field (λ data, match Rat_SetString data with Some n => rret (VRat n) | None => rfail InvalidRational end) _ rest _).
      exact (zlen_tail _ _ _ Hl).
    + by rewrite rat_text.
  - rewrite encodeValue_list, encode_parts_Ok in He. destruct He as (es & Hes & ->).
    pose proof (zlen_concat_ge _ _ _ (λ v e, encodeValue_nonempty v e) Hes) as Hc.
    destruct (counted_bytes (tag "L") (zlen items) (concat es) rest (zlen_nonneg items) Hc (or_intror Hl)) as (Hn & Hl' & ->).
    etransitivity.
    + refine (uint32_field (λ count, read* items := read_list (Z.to_nat count) _ in rret (VList items)) _ _ Hn).
    + unfold rseq. unfold zlen at 1. rewrite Nat2Z.id. rewrite (read_items _ norm); [done| |done].
      cbn [value_depth] in Hd. assert (fold_right Nat.max 0 (map value_depth items) ≤ fuel - 1)%nat as Hd' by lia.
      apply fold_max_le in Hd'. rewrite Forall_map in Hd'.
      eapply Forall2_weaken; [exact Hes|exact (Forall_both _ _ _ IH (Forall_both _ _ _ H0 Hd'))|].
      cbn. intros v e (Hv & Hvok & Hvd) Hve rest' Hr. apply Hv; try done. lia.
  - rewrite encodeValue_map, encode_entries_Ok in He. destruct He as (es & Hes & ->).
    assert (zlen entries ≤ zlen (concat es)) as Hc.
    { eapply zlen_concat_ge; [|exact Hes]. intros kv e (ev & _ & ->). unfold entry_bytes. cbn. lia. }
    destruct (counted_bytes (tag "M") (zlen entries) (concat es) rest (zlen_nonneg entries) Hc (or_intror Hl)) as (Hn & Hl' & ->).
    etransitivity.
    + refine (uint32_field (λ count, read* entries := read_list (Z.to_nat count) _ in
        rret (VMap (fold_left (λ m entry, map_insert entry.1 entry.2 m) entries []))) _ _ Hn).
    + unfold rseq at 1. unfold zlen at 1. rewrite Nat2Z.id.
      rewrite (read_items _ (λ e, (e.1, norm e.2))); [| |done].
      * unfold rret. cbn [norm]. rewrite map_insert_all; [done|]. cbn [app]. rewrite map_map. done.
      * cbn [value_depth] in Hd. assert (fold_right Nat.max 0 (map (λ e, value_depth e.2) entries) ≤ fuel - 1)%nat as Hd' by lia.
        apply fold_max_le in Hd'. rewrite Forall_map in Hd'.
        eapply Forall2_weaken; [exact Hes|exact (Forall_both _ _ _ IH (Forall_both _ _ _ H1 Hd'))|].
        intros [k v] e (Hv & Hvok & Hvd) (ev & Hev & ->) rest' Hr. cbn [fst snd] in *. unfold entry_bytes in *.
        rewrite <- (assoc_L (++)) in *. rewrite sized_field by done. unfold rseq. rewrite (Hv ev); try done; [lia|].
        rewrite zlen_app in Hr. pose proof (zlen_nonneg (appendSized [] k)). lia.
Qed.

Lemma value_depth_length v bs : encodeValue v = Ok bs → (value_depth v < length bs)%nat.
Proof.
  revert bs. induction v as [|b|s|s|k n|b|b|n|q|items IH|entries IH| | | | |] using value_nested_ind; intros bs He;
    try (pose proof (encodeValue_nonempty _ _ He); cbn [value_depth]; lia).
  - rewrite encodeValue_list, encode_parts_Ok in He. destruct He as (es & Hes & ->). cbn [value_depth].
    assert (fold_right Nat.max 0 (map value_depth items) ≤ length (concat es))%nat; [|rewrite length_app; cbn [length]; rewrite length_be_encode; lia].
    apply fold_max_le, Forall_map. clear -IH Hes. induction Hes as [|v e items es He Hes IHe]; [constructor|].
    apply Forall_cons in IH as [Hv IH]. apply Hv in He. cbn [concat]. rewrite length_app.
    constructor; [lia|]. eapply Forall_impl; [by apply IHe|]. cbn. intros. lia.
  - rewrite encodeValue_map, encode_entries_Ok in He. destruct He as (es & Hes & ->). cbn [value_depth].
    assert (fold_right Nat.max 0 (map (λ e, value_depth e.2) entries) ≤ length (concat es))%nat; [|rewrite length_app; cbn [length]; rewrite length_be_encode; lia].
    apply fold_max_le, Forall_map. clear -IH Hes. induction Hes as [|[k v] e entries es (ev & He & ->) Hes IHe]; [constructor|].
    apply Forall_cons in IH as [Hv IH]. apply Hv in He. cbn [concat]. unfold entry_bytes. rewrite !length_app.
    constructor; [cbn [snd] in *; lia|]. eapply Forall_impl; [by apply IHe|]. cbn. intros. lia.
Qed.

(** An encoded value reads back, whatever follows it. *)
Lemma value_roundtrip v bs rest :
  encodeValue v = Ok bs → value_ok v → zlen (bs ++ rest) < 2 ^ 32 →
  valueReader_value Rat_SetString (bs ++ rest) = Ok (norm v, rest).
Proof.
  intros He Hok Hl. unfold valueReader_value. apply read_value_encode; try done.
  apply value_depth_length in He. rewrite length_app. lia.
Qed.
End Roundtrip.
