(* ===== verification/Cells.v ===== *)
(** * Cells of a column, from columnar/support.go

    What a column holds at a row, per Arrow type, and the two conversions that every operator goes through:
    [arrowValue] reads a cell as a Go value, and [appendGoValue] writes a Go value as a cell of the builder's
    type. An Arrow array is a library object; a cell is what its accessors (IsNull, Value, ValueOffsets with
    the child arrays, ChildID) return for one row, and what the builder's Append methods receive. *)

From Stdlib Require Import QArith.QArith QArith.Qreduction QArith.Qcanon.
From S2P Require Import Prelude GoStd GoNet GoFloat Kafka Value.

#[local] Open Scope Z_scope.

(** ** Types and cells *)

Inductive time_unit := UnitSecond | UnitMillisecond | UnitMicrosecond | UnitNanosecond.
Inductive arrow_int := I8 | I16 | I32 | I64 | U8 | U16 | U32 | U64.

(** [TOther] is every type that the switches have no case for. *)
Inductive data_type :=
| TString | TLargeString | TBinary | TLargeBinary | TFixedSizeBinary (width : Z)
| TInt (kind : arrow_int) | TFloat32 | TFloat64 | TBoolean
| TDate32 | TDate64 | TTimestamp (unit : time_unit) | TTime32 (unit : time_unit) | TTime64 (unit : time_unit)
| TDecimal128 (scale : Z) | TDecimal256 (scale : Z)
| TList (item : data_type) | TLargeList (item : data_type) | TFixedSizeList (size : Z) (item : data_type)
| TStruct (fields : list (bytes * data_type))
| TMap (key item : data_type)
| TSparseUnion (members : list data_type) | TDenseUnion (members : list data_type)
| TOther (id : Z).

Section data_type_ind.
Variable P : data_type → Prop.
Hypothesis Hscalar : ∀ t,
  match t with
  | TList _ | TLargeList _ | TFixedSizeList _ _ | TStruct _ | TMap _ _ | TSparseUnion _ | TDenseUnion _ => True
  | _ => P t
  end.
Hypothesis (Hlist : ∀ t, P t → P (TList t)) (Hlarge : ∀ t, P t → P (TLargeList t)).
Hypothesis Hfixed : ∀ n t, P t → P (TFixedSizeList n t).
Hypothesis Hstruct : ∀ fields, Forall (λ f, P f.2) fields → P (TStruct fields).
Hypothesis Hmap : ∀ k t, P k → P t → P (TMap k t).
Hypothesis (Hsparse : ∀ ts, Forall P ts → P (TSparseUnion ts)) (Hdense : ∀ ts, Forall P ts → P (TDenseUnion ts)).

Fixpoint data_type_nested_ind (t : data_type) : P t :=
  let all := fix go l : Forall P l :=
    match l with [] => Forall_nil_2 _ | x :: l => Forall_cons_2 _ _ _ (data_type_nested_ind x) (go l) end in
  match t with
  | TList t => Hlist t (data_type_nested_ind t)
  | TLargeList t => Hlarge t (data_type_nested_ind t)
  | TFixedSizeList n t => Hfixed n t (data_type_nested_ind t)
  | TStruct fields =>
      Hstruct fields ((fix go l : Forall (λ f, P f.2) l :=
        match l with [] => Forall_nil_2 _ | x :: l => Forall_cons_2 _ _ _ (data_type_nested_ind x.2) (go l) end) fields)
  | TMap k t => Hmap k t (data_type_nested_ind k) (data_type_nested_ind t)
  | TSparseUnion ts => Hsparse ts (all ts)
  | TDenseUnion ts => Hdense ts (all ts)
  | t => Hscalar t
  end.
End data_type_ind.

(** A cell: null, the content of a scalar, the cells of a nested value, the entries of a map in the order of
    the array, the member of a union by its child index, and the text form of any other type. *)
Inductive cell :=
| CNull
| CText (s : bytes)
| CBin (s : bytes)
| CInt (n : Z)
| CFloat (bits : Z)
| CBool (b : bool)
| CDecimal (unscaled : Z)
| CList (items : list cell)
| CStruct (fields : list cell)
| CMap (entries : list (cell * cell))
| CUnion (child : nat) (c : cell)
| COther (text : bytes).

Definition kind_of (i : arrow_int) : int_kind :=
  match i with
  | I8 => KInt8 | I16 => KInt16 | I32 => KInt32 | I64 => KInt64
  | U8 => KUint8 | U16 => KUint16 | U32 => KUint32 | U64 => KUint64
  end.

Inductive cell_error :=
| ValueError (e : value_error)
| NotBinary | FixedSizeBinaryWidth (width len : Z) | NotBoolean | NotStruct | NotMap | NotList
| FixedSizeListSize (size : Z) | NoUnionMember | CannotWrite | NotFloat
| NotDecimal | CannotConvertDecimal | DecimalScale (scale : Z) | DecimalPanics | TimestampOutOfRange.

(** What the conversions call outside of the repository: [arrow.Date32FromTime], [arrow.Date64FromTime],
    [arrow.TimestampFromTime], whether [decimal128.FromBigInt] or [decimal256.FromBigInt] can represent an
    integer, [big.Rat.SetString], and [fmt.Sprint] of the values that [stringify] does not list. *)
Class ArrowLib := {
  Date32FromTime : Z → Z;
  Date64FromTime : Z → Z;
  TimestampFromTime : Z → time_unit → option Z;
  decimal128_fits : Z → bool;
  decimal256_fits : Z → bool;
  Rat_SetString : bytes → option Q;
  Sprint : value → bytes
}.

(** ** Text *)

Definition pad_left (n : nat) (s : bytes) : bytes := replicate (n - length s) (ascii_byte "0") ++ s.

(** [big.Rat.FloatString]: [prec] digits after the point, halves rounded away from zero. *)
Definition Rat_FloatString (q : Q) (prec : Z) : bytes :=
  let scaled := (2 * (Z.abs (Qnum q) * 10 ^ prec) + Zpos (Qden q)) / (2 * Zpos (Qden q)) in
  (if Qnum q <? 0 then str "-" else []) ++ digits (scaled / 10 ^ prec) ++ ascii_byte "." ::
  pad_left (Z.to_nat prec) (digits (scaled mod 10 ^ prec)).

Section Cells.
Context {L : ArrowLib}.

Definition stringify (v : value) : bytes :=
  match v with
  | VString s | VBytes s => s
  | VRat q => TrimRight (TrimRight (Rat_FloatString q 38) (ascii_byte "0")) (ascii_byte ".")
  | VInt _ n | VBigInt n => FormatInt n
  | VBool b => if b then str "true" else str "false"
  | _ => Sprint v
  end.

(** [new(big.Int).Exp(10, scale, nil)], which is one for a scale below one. *)
Definition pow10 (scale : Z) : Z := if scale <=? 0 then 1 else 10 ^ scale.

Definition decimalRat (unscaled scale : Z) : Q := Qred (unscaled # Z.to_pos (pow10 scale)).

(** ** Reading *)

Fixpoint arrowValue (t : data_type) (c : cell) : value :=
  match t, c with
  | (TString | TLargeString), CText s => VString s
  | (TBinary | TLargeBinary | TFixedSizeBinary _), CBin s => VBytes s
  | TInt i, CInt n => VInt (kind_of i) n
  | TFloat32, CFloat bits => VFloat32 bits
  | TFloat64, CFloat bits => VFloat64 bits
  | TBoolean, CBool b => VBool b
  | (TDate32 | TTime32 _), CInt n => VInt KInt32 n
  | (TDate64 | TTimestamp _ | TTime64 _), CInt n => VInt KInt64 n
  | (TDecimal128 scale | TDecimal256 scale), CDecimal n => VRat (decimalRat n scale)
  | (TList t | TLargeList t | TFixedSizeList _ t), CList cs => VList (map (arrowValue t) cs)
  | TStruct fields, CStruct cs =>
      VMap ((fix go (fields : list (bytes * data_type)) (cs : list cell) (m : list (bytes * value)) {struct fields} :=
        match fields, cs with
        | f :: fields, c :: cs => go fields cs (map_insert f.1 (arrowValue f.2 c) m)
        | _, _ => m
        end) fields cs [])
  | TMap k t, CMap entries =>
      VMap (fold_left (λ m e, map_insert (stringify (arrowValue k e.1)) (arrowValue t e.2) m) entries [])
  | (TSparseUnion ts | TDenseUnion ts), CUnion child c =>
      (fix go (ts : list data_type) (child : nat) {struct ts} :=
        match ts, child with
        | t :: _, O => arrowValue t c
        | _ :: ts, S child => go ts child
        | [], _ => VNil
        end) ts child
  | TOther _, COther text => VString text
  | _, _ => VNil
  end.

(** ** Writing *)

Definition binaryValue (v : value) : result cell_error bytes :=
  match v with VBytes s | VString s => Ok s | _ => Err NotBinary end.

Definition appendSigned (v : value) (minimum maximum : Z) : result cell_error cell :=
  let* number := rmap_err ValueError (exactIntRange v minimum maximum) in Ok (CInt number).

Definition appendUnsigned (v : value) (bits : Z) : result cell_error cell :=
  let* number := rmap_err ValueError (exactUnsigned v bits) in Ok (CInt number).

Definition floatValue (v : value) : result cell_error Z :=
  match v with
  | VFloat32 bits | VFloat64 bits => Ok bits
  | VRat q => Ok (float_of_Q q)
  | VBigInt n => Ok (float_of_Q (inject_Z n))
  | _ => match exactInt64 v with Ok n => Ok (float_of_Q (inject_Z n)) | Err _ => Err NotFloat end
  end.

(** [SetFloat64] leaves the rational at zero for an infinity or a NaN. *)
Definition unscaledDecimal (v : value) (scale : Z) : result cell_error Z :=
  let* scaled :=
    match v with
    | VRat q => Ok q
    | VBigInt n => Ok (inject_Z n)
    | VString s => match Rat_SetString s with Some q => Ok q | None => Err NotDecimal end
    | VFloat32 bits | VFloat64 bits => Ok (default (inject_Z 0) (float_Q bits))
    | _ => match exactInt64 v with Ok n => Ok (inject_Z n) | Err _ => Err CannotConvertDecimal end
    end in
  let scaled := Qred (scaled * inject_Z (pow10 scale)) in
  if decide (Qden scaled = 1%positive) then Ok (Qnum scaled) else Err (DecimalScale scale).

Definition anySlice (v : value) : result cell_error (list value) :=
  match v with
  | VList items | VSlice items => Ok items
  | VBytes s | VArray s => Ok (map (λ b, VInt KUint8 (b2z b)) s)
  | _ => Err NotList
  end.

Definition timeUnitDuration (unit : time_unit) : Z :=
  match unit with
  | UnitSecond => Second | UnitMillisecond => Millisecond | UnitMicrosecond => 1000 | UnitNanosecond => 1
  end.

Definition unionAccepts (t : data_type) (v : value) : bool :=
  match v, t with
  | VString _, (TString | TLargeString) => true
  | VBytes _, (TBinary | TLargeBinary | TFixedSizeBinary _) => true
  | VBool _, TBoolean => true
  | (VFloat32 _ | VFloat64 _), (TFloat32 | TFloat64) => true
  | VRat _, (TDecimal128 _ | TDecimal256 _) => true
  | (VInt _ _ | VBigInt _), TInt _ => true
  | VTime _, (TDate32 | TDate64 | TTimestamp _) => true
  | VDuration _, (TTime32 _ | TTime64 _) => true
  | VList _, (TList _ | TLargeList _ | TFixedSizeList _ _) => true
  | VMap _, (TStruct _ | TMap _ _) => true
  | _, _ => false
  end.

Fixpoint acceptingUnionChild (members : list data_type) (v : value) : option nat :=
  match members with
  | [] => None
  | t :: members => if unionAccepts t v then Some O else S <$> acceptingUnionChild members v
  end.

(** [values[name]]: nil for a name that is not there. *)
Fixpoint map_lookup (name : bytes) (entries : list (bytes * value)) : value :=
  match entries with
  | [] => VNil
  | e :: entries => if decide (name = e.1) then e.2 else map_lookup name entries
  end.

Fixpoint map_results {A B E} (f : A → result E B) (l : list A) : result E (list B) :=
  match l with
  | [] => Ok []
  | a :: l => let* b := f a in let* bs := map_results f l in Ok (b :: bs)
  end.

Definition decimal_cell (fits : Z → bool) (v : value) (scale : Z) : result cell_error cell :=
  let* unscaled := unscaledDecimal v scale in
  if fits unscaled then Ok (CDecimal unscaled) else Err DecimalPanics.

Definition int_cell (i : arrow_int) (v : value) : result cell_error cell :=
  match i with
  | I8 => appendSigned v (-2 ^ 7) (2 ^ 7 - 1)
  | I16 => appendSigned v (-2 ^ 15) (2 ^ 15 - 1)
  | I32 => appendSigned v (-2 ^ 31) (2 ^ 31 - 1)
  | I64 => appendSigned v MinInt64 MaxInt64
  | U8 => appendUnsigned v 8 | U16 => appendUnsigned v 16 | U32 => appendUnsigned v 32 | U64 => appendUnsigned v 64
  end.

(** [appendListValue], with the size of a fixed-size list. *)
Definition appendListValue (append : value → result cell_error cell) (v : value) (size : option Z) : result cell_error cell :=
  let* items := anySlice v in
  check! match size with Some n => zlen items =? n | None => true end else FixedSizeListSize (default 0 size) in
  let* cs := map_results append items in Ok (CList cs).

(** [time.Time] and [time.Duration] in the columns of dates and times. *)
Definition time_cell (t : data_type) (v : value) : result cell_error cell :=
  match t, v with
  | TDate32, VTime moment => Ok (CInt (int32 (Date32FromTime moment)))
  | TDate64, VTime moment => Ok (CInt (int64 (Date64FromTime moment)))
  | TTimestamp unit, VTime moment =>
      match TimestampFromTime moment unit with Some n => Ok (CInt (int64 n)) | None => Err TimestampOutOfRange end
  | TTime32 unit, VDuration elapsed => Ok (CInt (int32 (Z.quot elapsed (timeUnitDuration unit))))
  | TTime64 unit, VDuration elapsed => Ok (CInt (int64 (Z.quot elapsed (timeUnitDuration unit))))
  | (TDate32 | TTime32 _), _ => appendSigned v (-2 ^ 31) (2 ^ 31 - 1)
  | _, _ => appendSigned v MinInt64 MaxInt64
  end.

Fixpoint appendGoValue (t : data_type) (v : value) : result cell_error cell :=
  match v with
  | VNil => Ok CNull
  | _ =>
    match t with
    | TString | TLargeString => Ok (CText (stringify v))
    | TBinary | TLargeBinary => let* data := binaryValue v in Ok (CBin data)
    | TFixedSizeBinary width =>
        let* data := binaryValue v in
        check! zlen data =? width else FixedSizeBinaryWidth width (zlen data) in Ok (CBin data)
    | TInt i => int_cell i v
    | TFloat32 => let* number := floatValue v in Ok (CFloat (round32 number))
    | TFloat64 => let* number := floatValue v in Ok (CFloat number)
    | TBoolean => match v with VBool b => Ok (CBool b) | _ => Err NotBoolean end
    | TDate32 | TDate64 | TTimestamp _ | TTime32 _ | TTime64 _ => time_cell t v
    | TDecimal128 scale => decimal_cell decimal128_fits v scale
    | TDecimal256 scale => decimal_cell decimal256_fits v scale
    | TList t | TLargeList t => appendListValue (appendGoValue t) v None
    | TFixedSizeList size t => appendListValue (appendGoValue t) v (Some size)
    | TStruct fields =>
        match v with
        | VMap values =>
            let* cs := (fix go (fields : list (bytes * data_type)) : result cell_error (list cell) :=
              match fields with
              | [] => Ok []
              | f :: fields =>
                  let* c := appendGoValue f.2 (map_lookup f.1 values) in let* cs := go fields in Ok (c :: cs)
              end) fields in
            Ok (CStruct cs)
        | _ => Err NotStruct
        end
    | TMap k t =>
        match v with
        | VMap values =>
            let* entries := map_results (λ e, let* key := appendGoValue k (VString e.1) in
                                              let* item := appendGoValue t e.2 in Ok (key, item)) values in
            Ok (CMap entries)
        | _ => Err NotMap
        end
    | TSparseUnion ts | TDenseUnion ts =>
        match acceptingUnionChild ts v with
        | Some child =>
            let* c := (fix go (ts : list data_type) (child : nat) : result cell_error cell :=
              match ts, child with
              | t :: _, O => appendGoValue t v
              | _ :: ts, S child => go ts child
              | [], _ => Err NoUnionMember
              end) ts child in
            Ok (CUnion child c)
        | None => Err NoUnionMember
        end
    | TOther _ => Err CannotWrite
    end
  end.

(** [copyValue]: the types of the builder and of the source, and the cell at the row. *)
Definition copyValue (builder t : data_type) (source : cell) : result cell_error cell :=
  match source with
  | CNull => Ok CNull
  | _ => appendGoValue builder (arrowValue t source)
  end.

(** ** Copies are exact *)

Definition key_text (c : cell) : bytes := match c with CText s => s | _ => [] end.
Definition is_text (t : data_type) : bool := match t with TString | TLargeString => true | _ => false end.

(** The cells of the types that survive a copy: in range, floats as the machine holds them, structs whose field
    names are distinct, maps with text keys in strictly increasing order, and no union in them. *)
Fixpoint copies (t : data_type) (c : cell) : Prop :=
  match t, c with
  | _, CNull => True
  | (TString | TLargeString), CText _ => True
  | (TBinary | TLargeBinary), CBin _ => True
  | TFixedSizeBinary width, CBin s => zlen s = width
  | TInt i, CInt n => int_in (kind_of i) n
  | TFloat32, CFloat bits => round32 bits = bits
  | TFloat64, CFloat _ => True
  | TBoolean, CBool _ => True
  | (TDate32 | TTime32 _), CInt n => inS 32 n
  | (TDate64 | TTimestamp _ | TTime64 _), CInt n => inS 64 n
  | TDecimal128 _, CDecimal n => decimal128_fits n = true
  | TDecimal256 _, CDecimal n => decimal256_fits n = true
  | (TList t | TLargeList t), CList cs => Forall (copies t) cs
  | TFixedSizeList size t, CList cs => zlen cs = size ∧ Forall (copies t) cs
  | TStruct fields, CStruct cs =>
      NoDup (map fst fields) ∧
      (fix go (fields : list (bytes * data_type)) (cs : list cell) {struct fields} : Prop :=
        match fields, cs with
        | [], [] => True
        | f :: fields, c :: cs => copies f.2 c ∧ go fields cs
        | _, _ => False
        end) fields cs
  | TMap k t, CMap entries =>
      is_text k = true ∧ Forall (λ e, e.1 = CText (key_text e.1) ∧ copies t e.2) entries ∧
      StronglySorted key_lt (map (λ e, key_text e.1) entries)
  | _, _ => False
  end.

Lemma exactIntRange_int k n minimum maximum :
  k ≠ KUint64 → k ≠ KUint → minimum ≤ n ≤ maximum → exactIntRange (VInt k n) minimum maximum = Ok n.
Proof.
  intros H1 H2 Hn. unfold exactIntRange. replace (exactInt64 (VInt k n)) with (@Ok value_error Z n) by (by destruct k).
  cbn [rbind]. by replace ((n <? minimum) || (maximum <? n)) with false by lia.
Qed.

Lemma exactUnsigned_int k n bits :
  k ≠ KUint64 → k ≠ KUint → 0 ≤ n → (bits < 64 → n < 2 ^ bits) → exactUnsigned (VInt k n) bits = Ok n.
Proof.
  intros H1 H2 Hn Hb. replace (exactUnsigned (VInt k n) bits) with
    (if n <? 0 then Err IntegerOverflow
     else if (bits <? 64) && (2 ^ bits - 1 <? n) then @Err value_error Z IntegerOverflow else Ok n) by (by destruct k).
  replace (n <? 0) with false by lia. destruct (Z.ltb_spec bits 64); [|done]. cbn [andb].
  by replace (2 ^ bits - 1 <? n) with false by lia.
Qed.

Lemma int_cell_copies i n : int_in (kind_of i) n → int_cell i (VInt (kind_of i) n) = Ok (CInt n).
Proof.
  intros H. unfold int_cell, appendSigned, appendUnsigned. destruct i; cbn [kind_of int_in] in *;
    try (rewrite exactIntRange_int; [done|done|done|unfold inS in H; width_consts; lia]);
    try (rewrite exactUnsigned_int; [done|done|done|unfold inU in H; lia|unfold inU in H; lia]). done.
Qed.

Lemma Qred_integer n : Qred (inject_Z n) = inject_Z n.
Proof. apply Qred_identity. cbn. apply Z.gcd_1_r. Qed.

Lemma unscaled_decimalRat n scale : unscaledDecimal (VRat (decimalRat n scale)) scale = Ok n.
Proof.
  unfold unscaledDecimal. cbn [rbind]. unfold decimalRat.
  assert (0 < pow10 scale) as Hp.
  { unfold pow10. destruct (Z.leb_spec scale 0); [done|]. apply Z.pow_pos_nonneg; lia. }
  replace (Qred (Qred (n # Z.to_pos (pow10 scale)) * inject_Z (pow10 scale))) with (inject_Z n); [done|].
  rewrite <- Qred_integer. apply Qred_complete. rewrite Qred_correct. unfold Qeq, Qmult, inject_Z. cbn.
  rewrite Pos2Z.inj_mul, Z2Pos.id by done. ring.
Qed.

Lemma map_lookup_insert k k' v m : map_lookup k (map_insert k' v m) = if decide (k = k') then v else map_lookup k m.
Proof.
  induction m as [|[k0 v0] m IH]; [done|]. cbn [map_insert]. destruct (decide (k' = k0)) as [<-|H].
  - cbn [map_lookup fst snd]. by repeat case_decide.
  - destruct (decide (bytes_le k' k0)); cbn [map_lookup fst snd]; [done|]. rewrite IH. repeat case_decide; congruence.
Qed.

Lemma map_results_ok {A B E} (f : A → result E B) l k :
  Forall2 (λ a b, f a = Ok b) l k → map_results f l = Ok k.
Proof. induction 1 as [|a b l k H _ IH]; [done|]. cbn [map_results]. rewrite H. cbn [rbind]. by rewrite IH. Qed.

Lemma map_results_map {A B E} (f : A → result E B) (g : B → A) k :
  Forall (λ b, f (g b) = Ok b) k → map_results f (map g k) = Ok k.
Proof. intros H. apply map_results_ok. induction H; constructor; auto. Qed.

(** The struct that is read back, by the names of its fields. *)
Fixpoint struct_values (fields : list (bytes * data_type)) (cs : list cell) (m : list (bytes * value)) :=
  match fields, cs with
  | f :: fields, c :: cs => struct_values fields cs (map_insert f.1 (arrowValue f.2 c) m)
  | _, _ => m
  end.

Definition struct_cells (values : list (bytes * value)) :=
  fix go (fields : list (bytes * data_type)) : result cell_error (list cell) :=
    match fields with
    | [] => Ok []
    | f :: fields => let* c := appendGoValue f.2 (map_lookup f.1 values) in let* cs := go fields in Ok (c :: cs)
    end.

Fixpoint copies_struct (fields : list (bytes * data_type)) (cs : list cell) : Prop :=
  match fields, cs with
  | [], [] => True
  | f :: fields, c :: cs => copies f.2 c ∧ copies_struct fields cs
  | _, _ => False
  end.

Lemma appendGoValue_struct fields values :
  appendGoValue (TStruct fields) (VMap values) = let* cs := struct_cells values fields in Ok (CStruct cs).
Proof. reflexivity. Qed.

Lemma struct_values_other fields cs m k :
  k ∉ map fst fields → map_lookup k (struct_values fields cs m) = map_lookup k m.
Proof.
  revert cs m. induction fields as [|f fields IH]; intros [|c cs] m; cbn [struct_values map]; try done.
  intros [Hk Hf]%not_elem_of_cons. rewrite IH by done. rewrite map_lookup_insert. by rewrite decide_False.
Qed.

Lemma struct_cells_values fields cs m :
  Forall (λ f, ∀ c, copies f.2 c → appendGoValue f.2 (arrowValue f.2 c) = Ok c) fields →
  NoDup (map fst fields) → copies_struct fields cs →
  struct_cells (struct_values fields cs m) fields = Ok cs.
Proof.
  revert cs m. induction fields as [|f fields IH]; intros [|c cs] m Hall Hd Hc; try done.
  apply Forall_cons in Hall as [Hf Hall]. cbn [map] in Hd. apply NoDup_cons in Hd as [Hn Hd]. destruct Hc as [Hc Hcs].
  cbn [struct_cells struct_values]. rewrite struct_values_other by done. rewrite map_lookup_insert.
  rewrite decide_True by done. rewrite Hf by done. cbn [rbind]. by rewrite IH.
Qed.

Lemma text_copies k s : is_text k = true → arrowValue k (CText s) = VString s ∧ appendGoValue k (VString s) = Ok (CText s).
Proof. by destruct k. Qed.

Lemma map_values_sorted k t entries m :
  is_text k = true → Forall (λ e, e.1 = CText (key_text e.1) ∧ copies t e.2) entries →
  StronglySorted key_lt (map fst (m ++ map (λ e, (key_text e.1, arrowValue t e.2)) entries)) →
  fold_left (λ m e, map_insert (stringify (arrowValue k e.1)) (arrowValue t e.2) m) entries m =
    m ++ map (λ e, (key_text e.1, arrowValue t e.2)) entries.
Proof.
  intros Hk Hall Hs. rewrite <- map_insert_all by done. clear Hs. revert m.
  induction Hall as [|[kc c] entries [He _] _ IH]; intros m; [done|]. cbn [fold_left map fst snd] in *.
  rewrite He. destruct (text_copies k (key_text kc) Hk) as [-> _]. cbn [stringify]. rewrite IH. done.
Qed.

Lemma list_copies t size cs :
  (∀ c, copies t c → appendGoValue t (arrowValue t c) = Ok c) → Forall (copies t) cs →
  match size with Some n => zlen cs =? n | None => true end = true →
  appendListValue (appendGoValue t) (VList (map (arrowValue t) cs)) size = Ok (CList cs).
Proof.
  intros IH Hc Hs. unfold appendListValue. cbn [anySlice rbind].
  replace (match size with Some n => zlen (map (arrowValue t) cs) =? n | None => true end) with true
    by (destruct size; [|done]; unfold zlen in *; by rewrite length_map).
  rewrite map_results_map; [done|]. eapply Forall_impl; [exact Hc|done].
Qed.

Lemma copies_exact t c : copies t c → appendGoValue t (arrowValue t c) = Ok c.
Proof.
  revert t c. apply (data_type_nested_ind (λ t, ∀ c, copies t c → appendGoValue t (arrowValue t c) = Ok c)).
  - intros t. destruct t; try exact I; intros c Hc; destruct c; try contradiction Hc; cbn [copies arrowValue] in *; try reflexivity.
    + cbn. by rewrite (proj2 (Z.eqb_eq _ _) Hc).
    + by apply int_cell_copies.
    + cbn. by rewrite Hc.
    + cbn. unfold appendSigned. rewrite exactIntRange_int; [done|done|done|unfold inS in Hc; width_consts; lia].
    + cbn. unfold appendSigned. rewrite exactIntRange_int; [done|done|done|unfold inS in Hc; width_consts; lia].
    + cbn. unfold appendSigned. rewrite exactIntRange_int; [done|done|done|unfold inS in Hc; width_consts; lia].
    + cbn. unfold appendSigned. rewrite exactIntRange_int; [done|done|done|unfold inS in Hc; width_consts; lia].
    + cbn. unfold appendSigned. rewrite exactIntRange_int; [done|done|done|unfold inS in Hc; width_consts; lia].
    + cbn [appendGoValue]. unfold decimal_cell. rewrite unscaled_decimalRat. cbn [rbind]. by rewrite Hc.
    + cbn [appendGoValue]. unfold decimal_cell. rewrite unscaled_decimalRat. cbn [rbind]. by rewrite Hc.
  - intros t IH [] Hc; try contradiction Hc; [done|]. by apply (list_copies t None).
  - intros t IH [] Hc; try contradiction Hc; [done|]. by apply (list_copies t None).
  - intros n t IH [] Hc; try contradiction Hc; [done|]. destruct Hc as [Hn Hc]. apply (list_copies t (Some n)); [done|done|].
    by apply Z.eqb_eq.
  - intros fields IH [] Hc; try contradiction Hc; [done|]. destruct Hc as [Hd Hc]. change (copies_struct fields fields0) in Hc.
    change (arrowValue (TStruct fields) (CStruct fields0)) with (VMap (struct_values fields fields0 [])).
    rewrite appendGoValue_struct. by rewrite struct_cells_values.
  - intros k t _ IH [] Hc; try contradiction Hc; [done|]. destruct Hc as (Hk & Hall & Hs).
    cbn [arrowValue]. rewrite map_values_sorted; [|done|done|].
    + cbn [app]. cbn [appendGoValue]. rewrite (map_results_map _ (λ e, (key_text e.1, arrowValue t e.2))); [done|].
      eapply Forall_impl; [exact Hall|]. intros [kc c] [He Hc]. cbn [fst snd] in *.
      destruct (text_copies k (key_text kc) Hk) as [_ ->]. cbn [rbind]. rewrite IH by done. cbn [rbind]. by rewrite <- He.
    + cbn [app]. by rewrite map_map.
  - intros ts IH [] Hc; try contradiction Hc. done.
  - intros ts IH [] Hc; try contradiction Hc. done.
Qed.

(** ** Integers are exact *)

(** The number that a value stands for; a text stands for the integer that it spells. *)
Definition exact_value (v : value) : option Q :=
  match v with
  | VInt _ n | VBigInt n => Some (inject_Z n)
  | VFloat32 bits | VFloat64 bits => float_Q bits
  | VRat q => Some q
  | VString s => inject_Z <$> BigInt_SetString s
  | _ => None
  end.

(** A value as the machine holds it. *)
Fixpoint machine (v : value) : Prop :=
  match v with
  | VInt k n => int_in k n
  | VList items | VSlice items => foldr (λ x P, machine x ∧ P) True items
  | VMap entries => foldr (λ e P, machine e.2 ∧ P) True entries
  | _ => True
  end.

Lemma integral_Q q n : q = inject_Z n ↔ Qden q = 1%positive ∧ Qnum q = n.
Proof. destruct q as [m d]. unfold inject_Z. cbn. split; [intros [= -> ->]; done|intros [-> ->]; done]. Qed.

Lemma exactInt64_spec v n :
  machine v → exactInt64 v = Ok n ↔ exact_value v = Some (inject_Z n) ∧ inS 64 n.
Proof.
  intros Hm. assert (∀ q, (if decide (Qden q = 1%positive) then if decide (inS 64 (Qnum q)) then Ok (Qnum q) else Err NotAnInteger
      else Err NotAnInteger) = @Ok value_error Z n ↔ Some q = Some (inject_Z n) ∧ inS 64 n) as Hq.
  { intros q. split.
    - repeat case_decide; intros [= <-]; split; [|done]. f_equal. by apply integral_Q.
    - intros [[= Hq] Hn]. apply integral_Q in Hq as [Hd <-]. by rewrite !decide_True. }
  assert (∀ m e, (if decide (inS 64 m) then Ok m else Err e) = @Ok value_error Z n ↔
      Some (inject_Z m) = Some (inject_Z n) ∧ inS 64 n) as Hi.
  { intros m e. split; [case_decide; intros [= <-]; done|]. intros [[= ->] Hn]. by rewrite decide_True. }
  destruct v; cbn [exactInt64 exact_value]; try (split; [done|by intros []]); try apply Hi; try apply Hq.
  - destruct (BigInt_SetString s) as [m|]; [apply Hi|]. split; [done|by intros []].
  - assert (Some (inject_Z n0) = Some (inject_Z n) ↔ n0 = n) as HA by (split; [by intros [= ->]|by intros ->]).
    assert ((if MaxInt64 <? n0 then Err IntegerOverflow else Ok n0) = @Ok value_error Z n ↔ n0 = n ∧ n ≤ MaxInt64) as Hu.
    { destruct (Z.ltb_spec MaxInt64 n0); (split; [intros [= ->]; lia|intros [-> ?]]); [lia|done]. }
    assert (Ok n0 = @Ok value_error Z n ↔ n0 = n) as Hs by (split; [by intros [= ->]|by intros ->]).
    rewrite HA. clear -Hm Hu Hs. destruct k; cbn in Hm; rewrite ?Hu, ?Hs; unfold inS, inU in *; width_consts; lia.
  - unfold exactFloatInt64. destruct (float_Q bits) as [q|]; [apply Hq|]. split; [done|by intros []].
  - unfold exactFloatInt64. destruct (float_Q bits) as [q|]; [apply Hq|]. split; [done|by intros []].
Qed.

Lemma exactIntRange_spec v minimum maximum n :
  machine v → exactIntRange v minimum maximum = Ok n ↔
  exact_value v = Some (inject_Z n) ∧ inS 64 n ∧ minimum ≤ n ≤ maximum.
Proof.
  intros Hm. unfold exactIntRange. rewrite rbind_Ok. setoid_rewrite exactInt64_spec; [|done]. split.
  - intros (m & [Hv Hr] & H). destruct ((m <? minimum) || (maximum <? m)) eqn:Hb; [done|]. injection H as ->.
    split; [done|]. split; [done|lia].
  - intros (Hv & Hr & Hn). exists n. split; [done|]. by replace ((n <? minimum) || (maximum <? n)) with false by lia.
Qed.

(** The values that an unsigned column takes above the int64 range. *)
Definition is_wide (v : value) : Prop := match v with VInt KUint64 _ | VBigInt _ => True | _ => False end.

Lemma BitLen_le n bits : 0 ≤ n → 0 ≤ bits → BitLen n ≤ bits ↔ n < 2 ^ bits.
Proof.
  intros Hn Hb. unfold BitLen. destruct (Z.eqb_spec n 0) as [->|H].
  - split; [intros _; apply Z.pow_pos_nonneg; lia|lia].
  - rewrite Z.log2_lt_pow2 by lia. lia.
Qed.

Lemma inject_Z_inj m n : Some (inject_Z m) = Some (inject_Z n) ↔ m = n.
Proof. split; [by intros [= ->]|by intros ->]. Qed.

Lemma unsigned_checked bits m n :
  0 < bits ≤ 64 → inS 64 m →
  (if m <? 0 then Err IntegerOverflow
   else if (bits <? 64) && (2 ^ bits - 1 <? m) then Err IntegerOverflow else Ok m) = @Ok value_error Z n ↔
  m = n ∧ inU bits n.
Proof.
  intros Hb Hm. assert (2 ^ bits ≤ 2 ^ 64) as Hp by (apply Z.pow_le_mono_r; lia). unfold inS, inU in *. width_consts.
  destruct (Z.ltb_spec m 0) as [H0|H0]; [split; [done|lia]|].
  destruct (Z.ltb_spec bits 64) as [H1|H1]; cbn [andb].
  - destruct (Z.ltb_spec (2 ^ bits - 1) m); (split; [intros [= ->]; lia|intros [-> ?]]); [lia|done].
  - replace bits with 64 in * by lia. width_consts. split; [intros [= ->]; lia|by intros [-> ?]].
Qed.

Lemma exactUnsigned_spec v bits n :
  machine v → 0 < bits ≤ 64 →
  exactUnsigned v bits = Ok n ↔ exact_value v = Some (inject_Z n) ∧ inU bits n ∧ (is_wide v ∨ inS 64 n).
Proof.
  intros Hm Hb. assert (inU bits n → inU 64 n) as Hu.
  { unfold inU. intros. assert (2 ^ bits ≤ 2 ^ 64) by (apply Z.pow_le_mono_r; lia). lia. }
  assert (exactUnsigned v bits = (let* number := exactInt64 v in
      if number <? 0 then Err IntegerOverflow
      else if (bits <? 64) && (2 ^ bits - 1 <? number) then Err IntegerOverflow else Ok number) →
    ¬ is_wide v → exactUnsigned v bits = Ok n ↔ exact_value v = Some (inject_Z n) ∧ inU bits n ∧ (is_wide v ∨ inS 64 n)) as Hrest.
  { intros -> Hw. rewrite rbind_Ok. setoid_rewrite exactInt64_spec; [|done]. split.
    - intros (m & [Hv Hr] & [-> ?]%unsigned_checked); [|done|done]. by auto.
    - intros (Hv & Hr & [?|Hs]); [done|]. exists n. rewrite unsigned_checked by done. done. }
  destruct v; try (apply Hrest; [reflexivity|tauto]).
  - destruct k; try (apply Hrest; [reflexivity|tauto]). cbn [exactUnsigned exact_value is_wide machine int_in] in *.
    rewrite inject_Z_inj. destruct (Z.eqb_spec bits 64) as [->|Hne].
    + split; [intros [= ->]; tauto|by intros [-> _]].
    + cbn [exactInt64]. destruct (Z.ltb_spec MaxInt64 n0) as [Hl|Hl].
      * rewrite unsigned_checked by (done || apply wrapS_range; lia).
        assert (2 ^ bits ≤ 2 ^ 63) by (apply Z.pow_le_mono_r; lia). change (2 ^ 63) with 9223372036854775808 in *.
        assert (int64 n0 < 0) by wrap_lia. unfold inU. split; [lia|]. intros (-> & ? & _). lia.
      * rewrite unsigned_checked by (done || unfold inS, inU in *; width_consts; lia). tauto.
  - cbn [exactUnsigned exact_value is_wide]. rewrite inject_Z_inj. unfold inU.
    destruct (Z.ltb_spec n0 0) as [H0|H0]; cbn [orb]; [split; [done|lia]|].
    pose proof (BitLen_le n0 bits H0 ltac:(lia)) as Hl.
    destruct (Z.ltb_spec bits (BitLen n0)); (split; [intros [= ->]|intros (-> & ? & _)]); try done; try lia.
Qed.

(** An integer column stores the number that the value stands for, or it fails: it never wraps. *)
Lemma int_cell_spec i v c :
  machine v → int_cell i v = Ok c ↔
  ∃ n, c = CInt n ∧ exact_value v = Some (inject_Z n) ∧ int_in (kind_of i) n ∧ (inS 64 n ∨ is_wide v).
Proof.
  intros Hm. assert (∀ minimum maximum (P : Z → Prop), (∀ n, P n ↔ minimum ≤ n ≤ maximum) → (∀ n, P n → inS 64 n) →
    appendSigned v minimum maximum = Ok c ↔
    ∃ n, c = CInt n ∧ exact_value v = Some (inject_Z n) ∧ P n ∧ (inS 64 n ∨ is_wide v)) as Hs.
  { intros minimum maximum P HP H64. unfold appendSigned. rewrite rbind_Ok. split.
    - intros (n & Hn & [= <-]). destruct (exactIntRange v minimum maximum) as [m|] eqn:He; [|done]. injection Hn as ->.
      apply exactIntRange_spec in He as (? & ? & ?); [|done]. exists n. rewrite HP. auto.
    - intros (n & -> & Hv & Hn & _). exists n. split; [|done].
      rewrite (proj2 (exactIntRange_spec v minimum maximum n Hm)); [done|]. split; [done|]. split; [auto|by apply HP]. }
  assert (∀ bits, 0 < bits ≤ 64 → appendUnsigned v bits = Ok c ↔
    ∃ n, c = CInt n ∧ exact_value v = Some (inject_Z n) ∧ inU bits n ∧ (inS 64 n ∨ is_wide v)) as Hu.
  { intros bits Hb. unfold appendUnsigned. rewrite rbind_Ok. split.
    - intros (n & Hn & [= <-]). destruct (exactUnsigned v bits) as [m|] eqn:He; [|done]. injection Hn as ->.
      apply exactUnsigned_spec in He as (? & ? & ?); [|done|done]. exists n. tauto.
    - intros (n & -> & Hv & Hn & H64). exists n. split; [|done].
      rewrite (proj2 (exactUnsigned_spec v bits n Hm Hb)); [done|tauto]. }
  destruct i; cbn [int_cell kind_of int_in]; first [apply Hu; lia|apply Hs; intros n; unfold inS; width_consts; lia].
Qed.

(** ** What is written has the type of its column *)

Fixpoint written (t : data_type) (c : cell) : Prop :=
  match t, c with
  | _, CNull => True
  | (TString | TLargeString), CText _ => True
  | (TBinary | TLargeBinary), CBin _ => True
  | TFixedSizeBinary width, CBin s => zlen s = width
  | TInt i, CInt n => int_in (kind_of i) n
  | TFloat32, CFloat bits => ∃ x, bits = round32 x
  | TFloat64, CFloat _ => True
  | TBoolean, CBool _ => True
  | (TDate32 | TTime32 _), CInt n => inS 32 n
  | (TDate64 | TTimestamp _ | TTime64 _), CInt n => inS 64 n
  | TDecimal128 _, CDecimal n => decimal128_fits n = true
  | TDecimal256 _, CDecimal n => decimal256_fits n = true
  | (TList t | TLargeList t), CList cs => Forall (written t) cs
  | TFixedSizeList size t, CList cs => zlen cs = size ∧ Forall (written t) cs
  | TStruct fields, CStruct cs =>
      (fix go (fields : list (bytes * data_type)) (cs : list cell) {struct fields} : Prop :=
        match fields, cs with
        | [], [] => True
        | f :: fields, c :: cs => written f.2 c ∧ go fields cs
        | _, _ => False
        end) fields cs
  | TMap k t, CMap entries => Forall (λ e, written k e.1 ∧ written t e.2) entries
  | (TSparseUnion ts | TDenseUnion ts), CUnion child c =>
      (fix go (ts : list data_type) (child : nat) {struct ts} : Prop :=
        match ts, child with
        | t :: _, O => written t c
        | _ :: ts, S child => go ts child
        | [], _ => False
        end) ts child
  | _, _ => False
  end.

Fixpoint written_struct (fields : list (bytes * data_type)) (cs : list cell) : Prop :=
  match fields, cs with
  | [], [] => True
  | f :: fields, c :: cs => written f.2 c ∧ written_struct fields cs
  | _, _ => False
  end.

Lemma map_results_inv {A B E} (f : A → result E B) l k :
  map_results f l = Ok k → Forall2 (λ a b, f a = Ok b) l k.
Proof.
  revert k. induction l as [|a l IH]; intros k; cbn [map_results]; [intros [= <-]; constructor|].
  intros (b & Hb & (bs & Hbs & [= <-])%rbind_Ok)%rbind_Ok. constructor; auto.
Qed.

Lemma machine_items items : foldr (λ x P, machine x ∧ P) True items ↔ Forall machine items.
Proof. induction items as [|x l IH]; cbn; [split; [constructor|done]|]. by rewrite Forall_cons, IH. Qed.

Lemma machine_entries (entries : list (bytes * value)) :
  foldr (λ e P, machine e.2 ∧ P) True entries ↔ Forall (λ e, machine e.2) entries.
Proof. induction entries as [|x l IH]; cbn; [split; [constructor|done]|]. by rewrite Forall_cons, IH. Qed.

Lemma machine_lookup name entries : Forall (λ e, machine e.2) entries → machine (map_lookup name entries).
Proof. induction 1 as [|e l H _ IH]; [done|]. cbn [map_lookup]. by case_decide. Qed.

Lemma anySlice_machine v items : machine v → anySlice v = Ok items → Forall machine items.
Proof.
  destruct v; cbn [anySlice machine]; try done; rewrite ?machine_items.
  - intros _ [= <-]. apply Forall_map, Forall_true. intros b. cbn. apply b2z_range.
  - by intros H [= <-].
  - by intros H [= <-].
  - intros _ [= <-]. apply Forall_map, Forall_true. intros b. cbn. apply b2z_range.
Qed.

Lemma appendListValue_written t size v c :
  (∀ v c, machine v → appendGoValue t v = Ok c → written t c) → machine v →
  appendListValue (appendGoValue t) v size = Ok c →
  ∃ cs, c = CList cs ∧ Forall (written t) cs ∧ match size with Some n => zlen cs = n | None => True end.
Proof.
  intros IH Hm. unfold appendListValue. intros (items & Hi & Hc)%rbind_Ok. apply anySlice_machine in Hi; [|done].
  destruct (match size with Some n => zlen items =? n | None => true end) eqn:Hs; [|done].
  apply rbind_Ok in Hc as (cs & Hcs & [= <-]). apply map_results_inv in Hcs. exists cs. split; [done|]. split.
  - clear -Hcs Hi IH. induction Hcs; [constructor|]. apply Forall_cons in Hi as [??]. constructor; eauto.
  - destruct size; [|done]. apply Z.eqb_eq in Hs. apply Forall2_length in Hcs. unfold zlen in *. lia.
Qed.

Lemma signed_written v minimum maximum c :
  machine v → appendSigned v minimum maximum = Ok c → ∃ n, c = CInt n ∧ minimum ≤ n ≤ maximum.
Proof.
  intros Hm. unfold appendSigned. intros (n & Hn & [= <-])%rbind_Ok.
  destruct (exactIntRange v minimum maximum) as [m|] eqn:He; [|done]. injection Hn as ->.
  apply exactIntRange_spec in He as (_ & _ & ?); [|done]. eauto.
Qed.

(** A column of dates or times. *)
Definition is_time (t : data_type) : bool :=
  match t with TDate32 | TDate64 | TTimestamp _ | TTime32 _ | TTime64 _ => true | _ => false end.

Lemma time_cell_written t v c : is_time t = true → machine v → time_cell t v = Ok c → written t c.
Proof.
  intros Ht Hm. assert (∀ w, 0 < w → appendSigned v (- 2 ^ (w - 1)) (2 ^ (w - 1) - 1) = Ok c → ∃ n, c = CInt n ∧ inS w n) as Hs.
  { intros w Hw (n & -> & ?)%signed_written; [|done]. exists n. split; [done|]. unfold inS. lia. }
  destruct t; try done; destruct v; cbn [time_cell];
    try (intros H; apply (Hs 32 ltac:(lia)) in H as (m & -> & ?); done);
    try (intros H; apply (Hs 64 ltac:(lia)) in H as (m & -> & ?); done);
    try (intros [= <-]; apply wrapS_range; lia).
  destruct (TimestampFromTime _ _); [|done]. intros [= <-]. apply wrapS_range. lia.
Qed.

Lemma struct_written fields values cs :
  Forall (λ f, ∀ v c, machine v → appendGoValue f.2 v = Ok c → written f.2 c) fields →
  Forall (λ e, machine e.2) values → struct_cells values fields = Ok cs → written_struct fields cs.
Proof.
  intros Hall Hm. revert cs. induction Hall as [|f fields Hf _ IH]; intros cs; cbn [struct_cells]; [by intros [= <-]|].
  intros (c & Hc & (cs' & Hcs & [= <-])%rbind_Ok)%rbind_Ok. split; [|auto]. eapply Hf; [|exact Hc]. by apply machine_lookup.
Qed.

Lemma decimal_written fits v scale c : decimal_cell fits v scale = Ok c → ∃ n, c = CDecimal n ∧ fits n = true.
Proof. unfold decimal_cell. intros (n & _ & H)%rbind_Ok. destruct (fits n) eqn:?; [|done]. injection H as <-. eauto. Qed.

Definition union_cell (v : value) :=
  fix go (ts : list data_type) (child : nat) : result cell_error cell :=
    match ts, child with
    | t :: _, O => appendGoValue t v
    | _ :: ts, S child => go ts child
    | [], _ => Err NoUnionMember
    end.

Definition written_union (c : cell) :=
  fix go (ts : list data_type) (child : nat) : Prop :=
    match ts, child with
    | t :: _, O => written t c
    | _ :: ts, S child => go ts child
    | [], _ => False
    end.

Lemma union_written ts v child c :
  Forall (λ t, ∀ v c, machine v → appendGoValue t v = Ok c → written t c) ts → machine v →
  union_cell v ts child = Ok c → written_union c ts child.
Proof.
  intros Hall Hm. revert child. induction Hall as [|t ts Ht _ IH]; intros [|child]; cbn; try done; [eauto|apply IH].
Qed.

Definition scalar_cell (t : data_type) (v : value) : result cell_error cell :=
  match t with
  | TString | TLargeString => Ok (CText (stringify v))
  | TBinary | TLargeBinary => let* data := binaryValue v in Ok (CBin data)
  | TFixedSizeBinary width =>
      let* data := binaryValue v in
      check! zlen data =? width else FixedSizeBinaryWidth width (zlen data) in Ok (CBin data)
  | TInt i => int_cell i v
  | TFloat32 => let* number := floatValue v in Ok (CFloat (round32 number))
  | TFloat64 => let* number := floatValue v in Ok (CFloat number)
  | TBoolean => match v with VBool b => Ok (CBool b) | _ => Err NotBoolean end
  | TDecimal128 scale => decimal_cell decimal128_fits v scale
  | TDecimal256 scale => decimal_cell decimal256_fits v scale
  | TOther _ => Err CannotWrite
  | _ => time_cell t v
  end.

Definition is_scalar (t : data_type) : bool :=
  match t with
  | TList _ | TLargeList _ | TFixedSizeList _ _ | TStruct _ | TMap _ _ | TSparseUnion _ | TDenseUnion _ => false
  | _ => true
  end.

Lemma scalar_append t v : is_scalar t = true → v ≠ VNil → appendGoValue t v = scalar_cell t v.
Proof. destruct v; try done; by destruct t. Qed.

Lemma scalar_written t v c : is_scalar t = true → machine v → scalar_cell t v = Ok c → written t c.
Proof.
  intros Ht Hm. destruct t; try done; cbn [scalar_cell].
  - by intros [= <-].
  - by intros [= <-].
  - by intros (s & _ & [= <-])%rbind_Ok.
  - by intros (s & _ & [= <-])%rbind_Ok.
  - intros (s & _ & H)%rbind_Ok. destruct (Z.eqb_spec (zlen s) width); [|done]. by injection H as <-.
  - by intros (n & -> & _ & ? & _)%int_cell_spec.
  - intros (n & _ & [= <-])%rbind_Ok. by exists n.
  - by intros (n & _ & [= <-])%rbind_Ok.
  - destruct v; try done. by intros [= <-].
  - by apply time_cell_written.
  - by apply time_cell_written.
  - by apply time_cell_written.
  - by apply time_cell_written.
  - by apply time_cell_written.
  - by intros (n & -> & ?)%decimal_written.
  - by intros (n & -> & ?)%decimal_written.
Qed.

Lemma nil_or v : v = VNil ∨ v ≠ VNil.
Proof. destruct v; auto. Qed.

Lemma appendGoValue_nil t : appendGoValue t VNil = Ok CNull.
Proof. by destruct t. Qed.

Lemma written_null t : written t CNull.
Proof. by destruct t. Qed.

Lemma list_append t v : v ≠ VNil → appendGoValue (TList t) v = appendListValue (appendGoValue t) v None.
Proof. by destruct v. Qed.

Lemma fixed_append n t v : v ≠ VNil → appendGoValue (TFixedSizeList n t) v = appendListValue (appendGoValue t) v (Some n).
Proof. by destruct v. Qed.

Lemma union_append ts v :
  v ≠ VNil → appendGoValue (TSparseUnion ts) v =
  match acceptingUnionChild ts v with
  | Some child => let* c := union_cell v ts child in Ok (CUnion child c)
  | None => Err NoUnionMember
  end.
Proof. by destruct v. Qed.

Lemma append_large t v : appendGoValue (TLargeList t) v = appendGoValue (TList t) v.
Proof. by destruct v. Qed.

Lemma append_dense ts v : appendGoValue (TDenseUnion ts) v = appendGoValue (TSparseUnion ts) v.
Proof. by destruct v. Qed.

Lemma appendGoValue_written t v c : machine v → appendGoValue t v = Ok c → written t c.
Proof.
  revert t v c. assert (∀ t, (∀ v c, machine v → v ≠ VNil → appendGoValue t v = Ok c → written t c) →
    ∀ v c, machine v → appendGoValue t v = Ok c → written t c) as Hn.
  { intros t H v c Hm. destruct (nil_or v) as [->|Hv]; [|by apply H].
    rewrite appendGoValue_nil. intros [= <-]. apply written_null. }
  assert (∀ t, (∀ v c, machine v → appendGoValue t v = Ok c → written t c) →
    ∀ v c, machine v → v ≠ VNil → appendGoValue (TList t) v = Ok c → written (TList t) c) as Hl.
  { intros t IH v c Hm Hv. rewrite list_append by done. by intros (cs & -> & ? & _)%appendListValue_written. }
  assert (∀ ts, Forall (λ t, ∀ v c, machine v → appendGoValue t v = Ok c → written t c) ts →
    ∀ v c, machine v → v ≠ VNil → appendGoValue (TSparseUnion ts) v = Ok c → written (TSparseUnion ts) c) as Hu.
  { intros ts IH v c Hm Hv. rewrite union_append by done. destruct (acceptingUnionChild ts v) as [child|]; [|done].
    intros (x & Hx & [= <-])%rbind_Ok. by apply (union_written ts v child x IH Hm) in Hx. }
  apply (data_type_nested_ind (λ t, ∀ v c, machine v → appendGoValue t v = Ok c → written t c)).
  - intros t. destruct t; try exact I; apply Hn; intros v c Hm Hv; rewrite scalar_append by done; by apply scalar_written.
  - intros t IH. by apply Hn, Hl.
  - intros t IH. apply Hn. intros v c Hm Hv. rewrite append_large. by apply Hl.
  - intros n t IH. apply Hn. intros v c Hm Hv. rewrite fixed_append by done. by intros (cs & -> & ? & ?)%appendListValue_written.
  - intros fields IH. apply Hn. intros v c Hm Hv. destruct v; try done. rewrite appendGoValue_struct.
    intros (cs & Hcs & [= <-])%rbind_Ok. apply (struct_written fields entries cs IH); [by apply machine_entries|done].
  - intros k t IHk IH. apply Hn. intros v c Hm Hv. destruct v; try done. cbn [appendGoValue].
    intros (cs & Hcs & [= <-])%rbind_Ok. apply map_results_inv in Hcs. apply machine_entries in Hm. cbn [written].
    clear -Hcs Hm IHk IH. induction Hcs as [|e x l k' H _ IHl]; [constructor|]. apply Forall_cons in Hm as [He Hm].
    constructor; [|auto]. apply rbind_Ok in H as (kc & Hk & (vc & Hvc & [= <-])%rbind_Ok). cbn. split; [|eauto].
    by apply (IHk (VString e.1)).
  - intros ts IH. by apply Hn, Hu.
  - intros ts IH. apply Hn. intros v c Hm Hv. rewrite append_dense. by apply Hu.
Qed.
(** ** What is written is the value *)

(** The text of a value in a column of text. *)
Definition text_of (v : value) : bytes :=
  match v with
  | VString s | VBytes s => s
  | VInt _ n | VBigInt n => FormatInt n
  | VBool true => str "true"
  | VBool false => str "false"
  | VRat q => TrimRight (TrimRight (Rat_FloatString q 38) (ascii_byte "0")) (ascii_byte ".")
  | _ => Sprint v
  end.

(** The number of a value in a column of decimals: an infinity or a NaN counts as zero. *)
Definition decimal_value (v : value) : option Q :=
  match v with
  | VString s => Rat_SetString s
  | VFloat32 bits | VFloat64 bits => Some (default (inject_Z 0) (float_Q bits))
  | _ => exact_value v
  end.

(** The float of a value: its own bits, or the float nearest to the number that it stands for. *)
Definition float_value (v : value) (bits : Z) : Prop :=
  match v with
  | VFloat32 b | VFloat64 b => bits = b
  | _ => ∃ q, exact_value v = Some q ∧ bits = float_of_Q q
  end.

(** The number of a value in a column of dates or times: moments and durations in the unit of the column,
    anything else as the integer that it stands for. *)
Definition time_value (t : data_type) (v : value) (n : Z) : Prop :=
  match v, t with
  | VTime moment, TDate32 => n = int32 (Date32FromTime moment)
  | VTime moment, TDate64 => n = int64 (Date64FromTime moment)
  | VTime moment, TTimestamp unit => ∃ m, TimestampFromTime moment unit = Some m ∧ n = int64 m
  | VDuration elapsed, TTime32 unit => n = int32 (Z.quot elapsed (timeUnitDuration unit))
  | VDuration elapsed, TTime64 unit => n = int64 (Z.quot elapsed (timeUnitDuration unit))
  | _, _ => exact_value v = Some (inject_Z n)
  end.

Definition items_of (v : value) : option (list value) :=
  match v with
  | VList items | VSlice items => Some items
  | VBytes s | VArray s => Some (map (λ b, VInt KUint8 (b2z b)) s)
  | _ => None
  end.

(** The values that a member of a union takes. *)
Definition takes (t : data_type) (v : value) : bool :=
  match t with
  | TString | TLargeString => match v with VString _ => true | _ => false end
  | TBinary | TLargeBinary | TFixedSizeBinary _ => match v with VBytes _ => true | _ => false end
  | TInt _ => match v with VInt _ _ | VBigInt _ => true | _ => false end
  | TFloat32 | TFloat64 => match v with VFloat32 _ | VFloat64 _ => true | _ => false end
  | TBoolean => match v with VBool _ => true | _ => false end
  | TDecimal128 _ | TDecimal256 _ => match v with VRat _ => true | _ => false end
  | TDate32 | TDate64 | TTimestamp _ => match v with VTime _ => true | _ => false end
  | TTime32 _ | TTime64 _ => match v with VDuration _ => true | _ => false end
  | TList _ | TLargeList _ | TFixedSizeList _ _ => match v with VList _ => true | _ => false end
  | TStruct _ | TMap _ _ => match v with VMap _ => true | _ => false end
  | TSparseUnion _ | TDenseUnion _ | TOther _ => false
  end.

Lemma unionAccepts_takes t v : unionAccepts t v = takes t v.
Proof. by destruct t, v. Qed.

(** [cell_stored t v c]: the cell [c] of a column of type [t] is the value [v], at every depth. *)
Inductive cell_stored : data_type → value → cell → Prop :=
| stored_nil t : cell_stored t VNil CNull
| stored_text t v : v ≠ VNil → is_text t = true → cell_stored t v (CText (text_of v))
| stored_binary t v s :
    t = TBinary ∨ t = TLargeBinary ∨ t = TFixedSizeBinary (zlen s) → v = VBytes s ∨ v = VString s →
    cell_stored t v (CBin s)
| stored_int i v n : exact_value v = Some (inject_Z n) → cell_stored (TInt i) v (CInt n)
| stored_float32 v bits : float_value v bits → cell_stored TFloat32 v (CFloat (round32 bits))
| stored_float64 v bits : float_value v bits → cell_stored TFloat64 v (CFloat bits)
| stored_bool b : cell_stored TBoolean (VBool b) (CBool b)
| stored_time t v n : is_time t = true → time_value t v n → cell_stored t v (CInt n)
| stored_decimal t scale v q n :
    t = TDecimal128 scale ∨ t = TDecimal256 scale → decimal_value v = Some q →
    (inject_Z n == q * inject_Z (pow10 scale))%Q → cell_stored t v (CDecimal n)
| stored_list t item v items cs :
    t = TList item ∨ t = TLargeList item ∨ t = TFixedSizeList (zlen items) item →
    items_of v = Some items → Forall2 (cell_stored item) items cs → cell_stored t v (CList cs)
| stored_struct fields values cs :
    Forall2 (λ f c, cell_stored f.2 (map_lookup f.1 values) c) fields cs → cell_stored (TStruct fields) (VMap values) (CStruct cs)
| stored_map k t values entries :
    Forall2 (λ e p, cell_stored k (VString e.1) p.1 ∧ cell_stored t e.2 p.2) values entries →
    cell_stored (TMap k t) (VMap values) (CMap entries)
| stored_union t ts v child member c :
    t = TSparseUnion ts ∨ t = TDenseUnion ts → v ≠ VNil → ts !! child = Some member → takes member v = true →
    (∀ j other, (j < child)%nat → ts !! j = Some other → takes other v = false) →
    cell_stored member v c → cell_stored t v (CUnion child c).

Lemma stored_null t v c : cell_stored t v c → v = VNil ↔ c = CNull.
Proof.
  intros H. assert (∀ bits, ¬ float_value VNil bits) as Hf by (by intros bits (q & ? & _)).
  destruct H; (split; [intros Hv; try done; try subst v|by intros [=]]); try done; try (by destruct (Hf bits)). by destruct_or!.
Qed.

Lemma appendSigned_exact v minimum maximum c :
  machine v → appendSigned v minimum maximum = Ok c → ∃ n, c = CInt n ∧ exact_value v = Some (inject_Z n).
Proof.
  intros Hm. unfold appendSigned. intros (n & Hn & [= <-])%rbind_Ok.
  destruct (exactIntRange v minimum maximum) as [m|] eqn:He; [|done]. injection Hn as ->.
  apply exactIntRange_spec in He as (? & _); [|done]. eauto.
Qed.

Lemma time_cell_stored t v c : is_time t = true → machine v → time_cell t v = Ok c → cell_stored t v c.
Proof.
  intros Ht Hm Hc. cut (∃ n, c = CInt n ∧ time_value t v n); [intros (n & -> & ?); by constructor|].
  destruct t; try done; destruct v; cbn [time_cell time_value] in *;
    try (by apply appendSigned_exact in Hc); try (injection Hc as <-; eauto).
  destruct (TimestampFromTime _ _) eqn:?; [|done]. injection Hc as <-. eauto.
Qed.

Lemma floatValue_spec v bits : machine v → floatValue v = Ok bits → float_value v bits.
Proof.
  intros Hm. assert (match exactInt64 v with Ok n => Ok (float_of_Q (inject_Z n)) | Err _ => Err NotFloat end = Ok bits →
    ∃ q, exact_value v = Some q ∧ bits = float_of_Q q) as Hi.
  { destruct (exactInt64 v) as [n|] eqn:He; [|done]. apply exactInt64_spec in He as [? _]; [|done]. intros [= <-]. eauto. }
  destruct v; cbn [floatValue float_value]; try exact Hi; try (by intros [= <-]); intros [= <-]; cbn; eauto.
Qed.

Lemma unscaledDecimal_spec v scale n :
  machine v → unscaledDecimal v scale = Ok n →
  ∃ q, decimal_value v = Some q ∧ (inject_Z n == q * inject_Z (pow10 scale))%Q.
Proof.
  intros Hm. unfold unscaledDecimal. intros (q & Hq & Hn)%rbind_Ok. exists q. split.
  - assert (match exactInt64 v with Ok m => Ok (inject_Z m) | Err _ => Err CannotConvertDecimal end = Ok q →
      exact_value v = Some q) as Hi.
    { destruct (exactInt64 v) as [m|] eqn:He; [|done]. apply exactInt64_spec in He as [? _]; [|done]. by intros [= <-]. }
    destruct v; cbn [decimal_value]; lazymatch type of Hq with
      | match exactInt64 _ with _ => _ end = _ => exact (Hi Hq)
      | match Rat_SetString ?s with _ => _ end = _ => destruct (Rat_SetString s); [by injection Hq as <-|done]
      | Ok _ = _ => exact (f_equal (λ r, match r with Ok q => Some q | Err _ => None end) Hq)
      end.
  - cbv zeta in Hn. case_decide as Hd; [|done]. injection Hn as <-.
    etransitivity; [|apply (Qred_correct (q * inject_Z (pow10 scale)))].
    destruct (Qred (q * inject_Z (pow10 scale))) as [m d]. cbn in *. by subst.
Qed.

Lemma text_of_stringify v : stringify v = text_of v.
Proof. by destruct v. Qed.

Lemma decimal_stored fits v scale c t :
  machine v → decimal_cell fits v scale = Ok c → t = TDecimal128 scale ∨ t = TDecimal256 scale → cell_stored t v c.
Proof.
  intros Hm. unfold decimal_cell. intros (n & (q & Hq & Hs)%unscaledDecimal_spec & H)%rbind_Ok; [|done].
  destruct (fits n); [|done]. injection H as <-. intros. by eapply stored_decimal.
Qed.

Lemma scalar_stored t v c : is_scalar t = true → v ≠ VNil → machine v → scalar_cell t v = Ok c → cell_stored t v c.
Proof.
  intros Ht Hv Hm. assert (∀ s, binaryValue v = Ok s → v = VBytes s ∨ v = VString s) as Hb.
  { intros s. destruct v; try done; intros [= <-]; auto. }
  destruct t; try done; cbn [scalar_cell].
  1-2: intros [= <-]; rewrite text_of_stringify; by constructor.
  1-2: intros (s & Hs & [= <-])%rbind_Ok; apply stored_binary; auto.
  - intros (s & Hs & H)%rbind_Ok. destruct (Z.eqb_spec (zlen s) width) as [<-|]; [|done]. injection H as <-.
    apply stored_binary; auto.
  - intros (n & -> & ? & _)%int_cell_spec; [|done]. by constructor.
  - intros (n & Hn & [= <-])%rbind_Ok. constructor. by apply floatValue_spec.
  - intros (n & Hn & [= <-])%rbind_Ok. constructor. by apply floatValue_spec.
  - destruct v; try done. intros [= <-]. constructor.
  - by apply time_cell_stored.
  - by apply time_cell_stored.
  - by apply time_cell_stored.
  - by apply time_cell_stored.
  - by apply time_cell_stored.
  - intros H. apply (decimal_stored _ v scale _ _ Hm H). auto.
  - intros H. apply (decimal_stored _ v scale _ _ Hm H). auto.
Qed.

Definition stores (t : data_type) : Prop := ∀ v c, machine v → appendGoValue t v = Ok c → cell_stored t v c.

Lemma stores_all t items cs :
  stores t → Forall machine items → map_results (appendGoValue t) items = Ok cs → Forall2 (cell_stored t) items cs.
Proof.
  intros IH Hm Hcs%map_results_inv. induction Hcs; [constructor|]. apply Forall_cons in Hm as [??]. constructor; auto.
Qed.

Lemma list_stored t item size v c :
  stores item → machine v → appendListValue (appendGoValue item) v size = Ok c →
  match size with None => t = TList item ∨ t = TLargeList item | Some n => t = TFixedSizeList n item end → cell_stored t v c.
Proof.
  intros IH Hm. unfold appendListValue. intros (items & Hi & Hc)%rbind_Ok Ht. pose proof (anySlice_machine _ _ Hm Hi) as Hms.
  assert (items_of v = Some items) as He by (destruct v; try done; by injection Hi as <-).
  destruct (match size with Some n => zlen items =? n | None => true end) eqn:Hs; [|done].
  apply rbind_Ok in Hc as (cs & Hcs & [= <-]). apply (stored_list t item v items); [|done|by apply stores_all].
  destruct size; [|naive_solver]. apply Z.eqb_eq in Hs as <-. auto.
Qed.

Lemma struct_stored fields values cs :
  Forall (λ f, stores f.2) fields → Forall (λ e, machine e.2) values → struct_cells values fields = Ok cs →
  Forall2 (λ f c, cell_stored f.2 (map_lookup f.1 values) c) fields cs.
Proof.
  intros Hall Hm. revert cs. induction Hall as [|f fields Hf _ IH]; intros cs; cbn [struct_cells].
  - intros [= <-]. constructor.
  - intros (c & Hc & (cs' & Hcs & [= <-])%rbind_Ok)%rbind_Ok. constructor; [|auto]. apply Hf; [|done]. by apply machine_lookup.
Qed.

Lemma acceptingUnionChild_spec ts v child :
  acceptingUnionChild ts v = Some child →
  (∃ member, ts !! child = Some member ∧ takes member v = true) ∧
  ∀ j other, (j < child)%nat → ts !! j = Some other → takes other v = false.
Proof.
  revert child. induction ts as [|t ts IH]; intros child; cbn; [done|]. rewrite unionAccepts_takes. destruct (takes t v) eqn:Ht.
  - intros [= <-]. split; [by exists t|lia].
  - destruct (acceptingUnionChild ts v) as [k|]; [|done]. intros [= <-]. destruct (IH k eq_refl) as [(m & Hm & Ha) Hj].
    split; [by exists m|]. intros [|j] other Hlt; cbn; [by intros [= <-]|]. apply Hj. lia.
Qed.

Lemma union_cell_lookup v ts child member : ts !! child = Some member → union_cell v ts child = appendGoValue member v.
Proof. revert child. induction ts as [|t ts IH]; intros [|child]; cbn; try done; [by intros [= ->]|apply IH]. Qed.

Lemma union_stored t ts v c :
  Forall stores ts → machine v → v ≠ VNil → t = TSparseUnion ts ∨ t = TDenseUnion ts →
  appendGoValue (TSparseUnion ts) v = Ok c → cell_stored t v c.
Proof.
  intros IH Hm Hv Ht. rewrite union_append by done. destruct (acceptingUnionChild ts v) as [child|] eqn:Hc; [|done].
  apply acceptingUnionChild_spec in Hc as [(member & Hl & Ha) Hbefore]. rewrite (union_cell_lookup _ _ _ member) by done.
  intros (x & Hx & [= <-])%rbind_Ok. apply (stored_union t ts v child member); try done.
  apply (proj1 (Forall_lookup _ _) IH child member); done.
Qed.

Lemma appendGoValue_stored t : stores t.
Proof.
  assert (∀ t, (∀ v c, machine v → v ≠ VNil → appendGoValue t v = Ok c → cell_stored t v c) → stores t) as Hn.
  { intros t' H v c Hm. destruct (nil_or v) as [->|Hv]; [|by apply H].
    rewrite appendGoValue_nil. intros [= <-]. constructor. }
  apply data_type_nested_ind.
  - intros t'. destruct t'; try exact I; apply Hn; intros v c Hm Hv; rewrite scalar_append by done; by apply scalar_stored.
  - intros t' IH. apply Hn. intros v c Hm Hv. rewrite list_append by done. intros H.
    apply (list_stored _ t' None v c); auto.
  - intros t' IH. apply Hn. intros v c Hm Hv. rewrite append_large, list_append by done. intros H.
    apply (list_stored _ t' None v c); auto.
  - intros n t' IH. apply Hn. intros v c Hm Hv. rewrite fixed_append by done. intros H.
    by apply (list_stored _ t' (Some n) v c).
  - intros fields IH. apply Hn. intros v c Hm Hv. destruct v; try done. rewrite appendGoValue_struct.
    intros (cs & Hcs & [= <-])%rbind_Ok. constructor. apply struct_stored; [done| |done]. by apply machine_entries.
  - intros k t' IHk IH. apply Hn. intros v c Hm Hv. destruct v; try done. cbn [appendGoValue].
    intros (cs & Hcs & [= <-])%rbind_Ok. apply map_results_inv in Hcs. apply machine_entries in Hm. constructor.
    clear -Hcs Hm IHk IH. induction Hcs as [|e x l k' H _ IHl]; [constructor|]. apply Forall_cons in Hm as [He Hm].
    constructor; [|auto]. apply rbind_Ok in H as (kc & Hk & (vc & Hvc & [= <-])%rbind_Ok). cbn. split; [|by apply IH].
    by apply (IHk (VString e.1)).
  - intros ts IH. apply Hn. intros v c Hm Hv. apply (union_stored _ ts); auto.
  - intros ts IH. apply Hn. intros v c Hm Hv. rewrite append_dense. apply (union_stored _ ts); auto.
Qed.
End Cells.

(** ** Properties *)


(** C23: Copying a row is exact. A filter and a join copy each cell through a Go value; for every type that the
    columns have a case for, unions apart, with distinct field names in its structs and text keys in strictly
    increasing order in its maps, the copy of a cell in the range of its type is the cell, for decimals of
    every scale that the library can hold and for nested types at every depth. (A union cell, a map with other
    keys and a cell of a type without a case can change or fail: [union_copy_fails], [map_copy_reorders],
    [other_copy_fails].) *)
Theorem copy_exact {L : ArrowLib} t c : copies t c → copyValue t t c = Ok c.
Proof. intros H. unfold copyValue. rewrite copies_exact by done. by destruct c. Qed.

(** *** A library *)

(** [RatString] read back. *)
Definition read_rat (s : bytes) : option Q :=
  match Cut s (ascii_byte "/") with
  | (n, _, false) => inject_Z <$> BigInt_SetString n
  | (n, d, true) =>
      match BigInt_SetString n, BigInt_SetString d with Some n, Some (Zpos d) => Some (n # d) | _, _ => None end
  end.

Lemma FormatInt_no_slash n : ascii_byte "/" ∉ FormatInt n.
Proof. intros H. pose proof (FormatInt_bytes n) as Hf. rewrite Forall_forall in Hf. by destruct (Hf _ H). Qed.

Lemma Cut_absent s sep : sep ∉ s → Cut s sep = (s, [], false).
Proof.
  induction s as [|b s IH]; intros H; [done|]. apply not_elem_of_cons in H as [H1 H2]. cbn.
  rewrite decide_False by congruence. by rewrite IH.
Qed.

Lemma read_rat_text q : Qred q = q → read_rat (RatString q) = Some q.
Proof.
  intros _. unfold read_rat, RatString. case_decide as Hd.
  - rewrite Cut_absent by apply FormatInt_no_slash. rewrite BigInt_SetString_FormatInt. destruct q as [n d]. cbn in *. by subst.
  - rewrite Cut_app by apply FormatInt_no_slash. rewrite !BigInt_SetString_FormatInt. by destruct q.
Qed.

#[local] Instance demo_lib : ArrowLib := {|
  Date32FromTime n := n / 86400000000000;
  Date64FromTime n := n / 1000000;
  TimestampFromTime n unit := Some (n / timeUnitDuration unit);
  decimal128_fits n := BitLen n <=? 127;
  decimal256_fits n := BitLen n <=? 255;
  Rat_SetString := read_rat;
  Sprint _ := str "?"
|}.

Definition demo_type : data_type :=
  TStruct [(str "id", TInt I16); (str "price", TDecimal128 2); (str "tags", TMap TString (TList (TInt U8)))].

Definition demo_cell : cell :=
  CStruct [CInt (-7); CDecimal 1999; CMap [(CText (str "a"), CList [CInt 255; CNull]); (CText (str "b"), CNull)]].

Lemma copy_exact_witness : copyValue demo_type demo_type demo_cell = Ok demo_cell.
Proof.
  apply (copy_exact demo_type demo_cell). split.
  - repeat constructor; set_solver.
  - cbn [copies fst snd]. split; [by_decide|]. split; [reflexivity|]. split; [|done]. split; [reflexivity|]. split.
    + repeat constructor; done.
    + repeat constructor; try done; by_decide.
Defined.


(** *** What copies and conversions change *)

Definition demo_union : data_type := TDenseUnion [TInt I8; TInt I32].
Definition demo_map : data_type := TMap (TInt I32) TBoolean.

(** A union cell goes to the first member that accepts its Go value: a row with the number 300 in the second member
    of a union of int8 and int32 does not copy. *)
Lemma union_copy_fails :
  copyValue demo_union demo_union (CUnion 1 (CInt 300)) = Err (ValueError IntegerOverflow) ∧
  copyValue demo_union demo_union (CUnion 1 (CInt 5)) = Ok (CUnion 0 (CInt 5)).
Proof. split; vm_compute; reflexivity. Qed.

(** The entries of a map come out in the order of their key texts, and a repeated key once. *)
Lemma map_copy_reorders :
  copyValue demo_map demo_map (CMap [(CInt 9, CBool true); (CInt 10, CBool false); (CInt 9, CBool false)]) =
    Ok (CMap [(CInt 10, CBool false); (CInt 9, CBool false)]).
Proof. vm_compute. reflexivity. Qed.

(** A column of a type that the switches do not list, a dictionary for one, does not copy at all. *)
Lemma other_copy_fails id text : copyValue (TOther id) (TOther id) (COther text) = Err CannotWrite.
Proof. reflexivity. Qed.

(** An infinity is written as the decimal zero. *)
Lemma infinite_decimal_is_zero : appendGoValue (TDecimal128 2) (VFloat64 (Z.shiftl 2047 52)) = Ok (CDecimal 0).
Proof. vm_compute. reflexivity. Qed.

(** A decimal of a negative scale reads as its unscaled integer: 5 at scale -2 is five, and not five hundred. *)
Lemma negative_scale_ignored : arrowValue (TDecimal128 (-2)) (CDecimal 5) = VRat (inject_Z 5).
Proof. vm_compute. reflexivity. Qed.

(** A duration of 25 days in milliseconds wraps around in a column of 32-bit times. *)
Lemma time32_wraps : appendGoValue (TTime32 UnitMillisecond) (VDuration (25 * 86400 * Second)) = Ok (CInt (-2134967296)).
Proof. vm_compute. reflexivity. Qed.

(** An unsigned 64-bit column takes the upper half of its range as a uint64, and refuses it as text. *)
Lemma wide_text_refused :
  appendGoValue (TInt U64) (VInt KUint64 (2 ^ 63)) = Ok (CInt (2 ^ 63)) ∧
  appendGoValue (TInt U64) (VString (FormatInt (2 ^ 63))) = Err (ValueError IntegerOverflow) ∧
  appendGoValue (TInt U64) (VInt KUint (2 ^ 63)) = Err (ValueError IntegerOverflow).
Proof. repeat split; vm_compute; reflexivity. Qed.
