(* ===== verification/Frames.v ===== *)
(** * Batches, from columnar/support.go

    An Arrow record is a library object; here it is its content: the fields of its schema, its columns, and
    its number of rows. The accessors of the library (Schema, Field, Column, NumRows) are the projections,
    [array.NewRecordBatch] is the constructor, and [FieldIndices] finds the fields of a name. The functions
    of the repository over them are the metadata columns with their escaped names, the header column, the
    selection of columns, the copy of rows, concatenation, and the rows of a join. Reference counts are not
    modelled. *)

From S2P Require Import Prelude GoStd GoFloat Kafka Value Cells.

#[local] Open Scope Z_scope.

(** ** Fields and columns *)

Record field := MkField {
  field_Name : bytes;
  field_Type : data_type;
  field_Nullable : bool;
  field_Metadata : list (bytes * bytes)
}.

Record column := MkColumn { col_Type : data_type; col_Cells : list cell }.

Record frame := MkFrame { fr_Fields : list field; fr_Columns : list column; fr_NumRows : nat }.

(** The cell of a column at a row. *)
Definition cell_at (c : column) (row : nat) : cell := default CNull (col_Cells c !! row).

Inductive frame_error :=
| CellError (e : cell_error)
| RowCountsDiffer | EmptyBatchList | SchemasDiffer | CannotConcatenate
| NoColumn (name : bytes)
| PayloadCollides (name : bytes)
| JoinedNameCollides (name : bytes).

(** ** Reserved names *)

Definition KeyColumn := str "__key".
Definition TimestampColumn := str "__timestamp".
Definition PartitionColumn := str "__partition".
Definition OffsetColumn := str "__offset".
Definition HeadersColumn := str "__headers".
Definition reservedColumns := [KeyColumn; TimestampColumn; PartitionColumn; OffsetColumn; HeadersColumn].
Definition payloadNameMetadata := str "krabka.payload.name".
Definition payloadPrefix := str "__payload_".

Definition isReserved (name : bytes) : bool := bool_decide (name ∈ reservedColumns).
Definition PayloadColumn (name : bytes) : bytes := if isReserved name then payloadPrefix ++ name else name.

Fixpoint rejectReservedPayloadColumns (names : list bytes) : result frame_error unit :=
  match names with
  | [] => Ok tt
  | name :: names => check! negb (isReserved name) else PayloadCollides name in rejectReservedPayloadColumns names
  end.

Definition metadataFields : list field :=
  [MkField KeyColumn TBinary true []; MkField TimestampColumn (TInt I64) true []; MkField PartitionColumn (TInt I32) true [];
   MkField OffsetColumn (TInt I64) true []; MkField HeadersColumn TBinary true []].

(** ** Renamed fields *)

Definition fieldMetadataMap (f : field) : gmap bytes bytes :=
  fold_left (λ m e, <[e.1 := e.2]> m) (field_Metadata f) ∅.

(** [keys] in order, and [values] by key. *)
Definition metadata_entries (metadata : gmap bytes bytes) : list (bytes * bytes) :=
  map (λ key, (key, default [] (metadata !! key))) (sorted_keys metadata).

Definition renamedField (f : field) (name : bytes) (metadata : gmap bytes bytes) : field :=
  MkField name (field_Type f) (field_Nullable f) (metadata_entries metadata).

Definition escapedPayloadField (f : field) : field :=
  if isReserved (field_Name f)
  then renamedField f (PayloadColumn (field_Name f)) (<[payloadNameMetadata := field_Name f]> (fieldMetadataMap f))
  else f.

Definition restoredPayloadField (f : field) : field :=
  match fieldMetadataMap f !! payloadNameMetadata with
  | None => f
  | Some original => renamedField f original (delete payloadNameMetadata (fieldMetadataMap f))
  end.

Definition prefixedPayloadField (f : field) (prefix : bytes) : field :=
  let restored := restoredPayloadField f in
  renamedField restored (prefix ++ field_Name restored) (fieldMetadataMap restored).

(** ** Header columns *)

Inductive header_error :=
| TruncatedHeaders | InvalidHeaderCount | NegativeKeyLength | InvalidValueLength | TrailingHeaderBytes.

Definition encode_header (h : RecordHeader) : bytes :=
  be_encode 4 (uint32 (zlen (header_Key h))) ++ header_Key h ++
  match header_Value h with
  | None => be_encode 4 0xffffffff
  | Some data => be_encode 4 (uint32 (zlen data)) ++ data
  end.

Definition encodeHeaders (headers : list RecordHeader) : bytes :=
  be_encode 4 (uint32 (zlen headers)) ++ concat (map encode_header headers).

Definition readInt : reader header_error Z := read_int TruncatedHeaders 4.

(** The length test compares in int32. *)
Definition readBytes (length : Z) : reader header_error bytes :=
  λ data, if int32 (zlen data) <? length then Err TruncatedHeaders
          else Ok (take (Z.to_nat length) data, drop (Z.to_nat length) data).

Definition read_header : reader header_error RecordHeader :=
  read* keyLength := readInt in
  if keyLength <? 0 then rfail NegativeKeyLength
  else
    read* key := readBytes keyLength in
    read* valueLength := readInt in
    if valueLength <? -1 then rfail InvalidValueLength
    else if 0 <=? valueLength then read* data := readBytes valueLength in rret (MkHeader key (Some data))
    else rret (MkHeader key None).

Definition read_headers : reader header_error (list RecordHeader) :=
  read* count := readInt in
  λ data, if (count <? 0) || (zlen data / 8 + 1 <? count) then Err InvalidHeaderCount
          else read_list (Z.to_nat count) read_header data.

Definition decodeHeaders (data : bytes) : result header_error (list RecordHeader) :=
  match read_headers data with
  | Ok (headers, []) => Ok headers
  | Ok (_, _ :: _) => Err TrailingHeaderBytes
  | Err e => Err e
  end.

(** [headersAt]: no headers for a column that is absent or of another type, a null, or bytes that do not decode. *)
Definition headersAt (arr : option column) (row : nat) : list RecordHeader :=
  match arr with
  | Some (MkColumn TBinary cells) =>
      match cell_at (MkColumn TBinary cells) row with
      | CBin data => match decodeHeaders data with Ok headers => headers | Err _ => [] end
      | _ => []
      end
  | _ => []
  end.

(** ** Metadata columns *)

Record rowMetadata := MkMetadata {
  meta_key : option bytes;
  meta_timestamp : Z;
  meta_partition : Z;
  meta_offset : Z;
  meta_headers : list RecordHeader
}.

Definition metadata_columns (metadata : list rowMetadata) : list column :=
  [MkColumn TBinary (map (λ row, match meta_key row with None => CNull | Some key => CBin key end) metadata);
   MkColumn (TInt I64) (map (λ row, CInt (meta_timestamp row)) metadata);
   MkColumn (TInt I32) (map (λ row, CInt (int32 (meta_partition row))) metadata);
   MkColumn (TInt I64) (map (λ row, CInt (meta_offset row)) metadata);
   MkColumn TBinary (map (λ row, CBin (encodeHeaders (meta_headers row))) metadata)].

Definition withMetadata (payload : frame) (metadata : list rowMetadata) : result frame_error frame :=
  check! bool_decide (fr_NumRows payload = length metadata) else RowCountsDiffer in
  Ok (MkFrame (map escapedPayloadField (fr_Fields payload) ++ metadataFields)
              (fr_Columns payload ++ metadata_columns metadata) (fr_NumRows payload)).

Definition payloadOnly (root : frame) : frame :=
  let kept := filter (λ fc : field * column, isReserved (field_Name fc.1) = false) (zip (fr_Fields root) (fr_Columns root)) in
  MkFrame (map (λ fc, restoredPayloadField fc.1) kept) (map snd kept) (fr_NumRows root).

(** ** Columns by name *)

Definition FieldIndices (root : frame) (name : bytes) : list nat :=
  fst <$> filter (λ x : nat * field, field_Name x.2 = name) (zip (seq 0 (length (fr_Fields root))) (fr_Fields root)).

Definition columnByName (root : frame) (name : bytes) : option column :=
  match FieldIndices root name with
  | [] => None
  | index :: _ => fr_Columns root !! index
  end.

Definition field_at (root : frame) (name : bytes) : option (field * column) :=
  match FieldIndices root name with
  | [] => None
  | index :: _ =>
      match fr_Fields root !! index, fr_Columns root !! index with Some f, Some c => Some (f, c) | _, _ => None end
  end.

Fixpoint select_each (root : frame) (seen names : list bytes) : result frame_error (list (field * column)) :=
  match names with
  | [] => Ok []
  | name :: names =>
      if decide (name ∈ seen) then select_each root seen names
      else
        match field_at root name with
        | None => Err (NoColumn name)
        | Some fc => let* rest := select_each root (name :: seen) names in Ok (fc :: rest)
        end
  end.

Definition selectColumns (root : frame) (names : list bytes) : result frame_error frame :=
  let* kept := select_each root [] names in Ok (MkFrame (map fst kept) (map snd kept) (fr_NumRows root)).

(** ** Rows *)

Definition copyRange (root : frame) (start length : nat) : frame :=
  MkFrame (fr_Fields root)
    (map (λ c, MkColumn (col_Type c) (take length (drop start (col_Cells c)))) (fr_Columns root)) length.

Section Rows.
Context {L : ArrowLib}.

(** One column of a copy: a builder of the field's type, and the rows of the source. *)
Definition copy_column (rows : list nat) (fc : field * column) : result frame_error column :=
  let* cells := rmap_err CellError
    (map_results (λ row, copyValue (field_Type fc.1) (col_Type fc.2) (cell_at fc.2 row)) rows) in
  Ok (MkColumn (field_Type fc.1) cells).

Definition copyRows (root : frame) (rows : list nat) : result frame_error frame :=
  let* columns := map_results (copy_column rows) (zip (fr_Fields root) (fr_Columns root)) in
  Ok (MkFrame (fr_Fields root) columns (length rows)).

(** [schema.Equal], and [array.Concatenate] on arrays of one type. *)
Context (Schema_Equal : list field → list field → bool) (Concatenate : list column → option column).

Definition concatenate (batches : list frame) : result frame_error frame :=
  match batches with
  | [] => Err EmptyBatchList
  | first :: _ =>
      check! forallb (λ batch, Schema_Equal (fr_Fields first) (fr_Fields batch)) batches else SchemasDiffer in
      let* columns := map_results
        (λ i, match Concatenate (omap (λ batch, fr_Columns batch !! i) batches) with
              | Some merged => Ok merged
              | None => Err CannotConcatenate
              end) (seq 0 (length (fr_Fields first))) in
      Ok (MkFrame (fr_Fields first) columns (foldr (λ batch n, fr_NumRows batch + n)%nat 0%nat batches))
  end.

(** ** The rows of a join *)

Inductive join_side := LeftPayload | RightPayload | LeftMetadata.

Definition payload_sources (batch : frame) (prefix : bytes) (side : join_side) : list (field * option column * join_side) :=
  map (λ fc : field * column, (prefixedPayloadField fc.1 prefix, Some fc.2, side))
    (filter (λ fc, isReserved (field_Name fc.1) = false) (zip (fr_Fields batch) (fr_Columns batch))).

(** The fields of the joined batch, with the array and the side that each comes from. *)
Definition join_sources (left right : frame) (leftPrefix rightPrefix : bytes) : list (field * option column * join_side) :=
  payload_sources left leftPrefix LeftPayload ++ payload_sources right rightPrefix RightPayload ++
  map (λ f, (f, columnByName left (field_Name f), LeftMetadata)) metadataFields.

Fixpoint check_names (seen names : list bytes) : result frame_error unit :=
  match names with
  | [] => Ok tt
  | name :: names => if decide (name ∈ seen) then Err (JoinedNameCollides name) else check_names (name :: seen) names
  end.

(** One value of a joined column. *)
Definition join_cell (source : field * option column * join_side) (pair : nat * nat) : result cell_error cell :=
  let '(f, arr, side) := source in
  let row := match side with RightPayload => pair.2 | _ => pair.1 end in
  match arr with
  | None => Ok CNull
  | Some c => copyValue (field_Type f) (col_Type c) (cell_at c row)
  end.

Definition join_column (pairs : list (nat * nat)) (source : field * option column * join_side) : result frame_error column :=
  let* cells := rmap_err CellError (map_results (join_cell source) pairs) in
  Ok (MkColumn (field_Type source.1.1) cells).

Definition joinRows (left right : frame) (pairs : list (nat * nat)) (leftPrefix rightPrefix : bytes) : result frame_error frame :=
  let sources := join_sources left right leftPrefix rightPrefix in
  let* _ := check_names [] (map (λ s, field_Name s.1.1) sources) in
  let* columns := map_results (join_column pairs) sources in
  Ok (MkFrame (map (λ s, s.1.1) sources) columns (length pairs)).
End Rows.

(** ** Headers round trip *)

Definition headers_fit (headers : list RecordHeader) : Prop := zlen (encodeHeaders headers) < 2 ^ 31.

Lemma readInt_dec n rest : inS 32 n → readInt (be_encode 4 (uint32 n) ++ rest) = Ok (n, rest).
Proof.
  intros H. unfold readInt, read_int.
  rewrite (rseq_dec (be_encode 4) (read_uint TruncatedHeaders 4) (inU (8 * Z.of_nat 4))) by (apply (wrapU_range 32); lia).
  unfold rret. by rewrite wrapS_wrapU, wrapS_id.
Qed.

Lemma readBytes_dec data rest : zlen data + zlen rest < 2 ^ 31 → readBytes (zlen data) (data ++ rest) = Ok (data, rest).
Proof.
  intros H. pose proof (zlen_nonneg data). pose proof (zlen_nonneg rest). unfold readBytes. rewrite zlen_app.
  rewrite wrapS_id by (unfold inS; lia). replace (zlen data + zlen rest <? zlen data) with false by lia.
  unfold zlen. by rewrite Nat2Z.id, take_app_length, drop_app_length.
Qed.

(** A reader run on the encoding of its first field. *)
Lemma rseq_run {E A B} (m : reader E A) (k : A → reader E B) bs a rest :
  m bs = Ok (a, rest) → rseq m k bs = k a rest.
Proof. unfold rseq. by intros ->. Qed.

Lemma zlen_be n z : zlen (be_encode n z) = Z.of_nat n.
Proof. unfold zlen. by rewrite length_be_encode. Qed.

Lemma read_header_dec h rest :
  zlen (encode_header h ++ rest) < 2 ^ 31 → read_header (encode_header h ++ rest) = Ok (h, rest).
Proof.
  destruct h as [key value]. unfold encode_header, read_header. cbn [header_Key header_Value]. rewrite <- !(assoc_L (++)).
  rewrite !zlen_app, zlen_be. pose proof (zlen_nonneg key). pose proof (zlen_nonneg rest).
  change (2 ^ 31) with 2147483648. intros Hl.
  assert (0 ≤ match value with Some d => zlen d | None => 0 end) by (destruct value; [apply zlen_nonneg|done]).
  assert (zlen (match value with None => be_encode 4 4294967295 | Some d => be_encode 4 (uint32 (zlen d)) ++ d end) =
            4 + match value with Some d => zlen d | None => 0 end) as Hv.
  { destruct value; [rewrite zlen_app, zlen_be; done|]. by rewrite zlen_be. }
  rewrite Hv in Hl.
  rewrite (rseq_run _ _ _ _ _ (readInt_dec (zlen key) _ ltac:(unfold inS; width_consts; lia))).
  replace (zlen key <? 0) with false by lia.
  erewrite rseq_run; [|apply readBytes_dec; rewrite zlen_app, Hv; change (2 ^ 31) with 2147483648; lia]. clear Hv.
  destruct value as [data|].
  - rewrite <- (assoc_L (++)). rewrite (rseq_run _ _ _ _ _ (readInt_dec (zlen data) _ ltac:(unfold inS; width_consts; lia))).
    replace (zlen data <? -1) with false by lia. replace (0 <=? zlen data) with true by lia.
    rewrite (rseq_run _ _ _ _ _ (readBytes_dec data rest ltac:(change (2 ^ 31) with 2147483648; lia))). done.
  - change (be_encode 4 4294967295) with (be_encode 4 (uint32 (-1))).
    rewrite (rseq_run _ _ _ _ _ (readInt_dec (-1) rest ltac:(by_decide))). done.
Qed.

Lemma encode_header_length h : 8 ≤ zlen (encode_header h).
Proof.
  unfold encode_header. rewrite !zlen_app, zlen_be. pose proof (zlen_nonneg (header_Key h)).
  destruct (header_Value h) as [d|]; rewrite ?zlen_app, zlen_be; [pose proof (zlen_nonneg d)|]; lia.
Qed.

Lemma read_header_list headers rest :
  zlen (concat (map encode_header headers) ++ rest) < 2 ^ 31 →
  read_list (length headers) read_header (concat (map encode_header headers) ++ rest) = Ok (headers, rest).
Proof.
  induction headers as [|h headers IH]; intros Hl; [done|]. cbn [length read_list map concat] in *.
  rewrite <- (assoc_L (++)) in *. rewrite (rseq_run _ _ _ _ _ (read_header_dec h _ Hl)).
  rewrite zlen_app in Hl. pose proof (encode_header_length h). rewrite (rseq_run _ _ _ _ _ (IH ltac:(lia))). done.
Qed.

Lemma header_count headers : 8 * zlen headers ≤ zlen (concat (map encode_header headers)).
Proof.
  induction headers as [|h headers IH]; [done|]. cbn [map concat]. rewrite zlen_app, zlen_cons.
  pose proof (encode_header_length h). lia.
Qed.

Lemma decodeHeaders_encodeHeaders headers : headers_fit headers → decodeHeaders (encodeHeaders headers) = Ok headers.
Proof.
  unfold headers_fit, decodeHeaders, encodeHeaders, read_headers. rewrite zlen_app, zlen_be. intros Hl.
  pose proof (header_count headers) as Hc. pose proof (zlen_nonneg headers). change (2 ^ 31) with 2147483648 in Hl.
  rewrite (rseq_run _ _ _ _ _ (readInt_dec (zlen headers) _ ltac:(unfold inS; width_consts; lia))).
  assert (zlen headers ≤ zlen (concat (map encode_header headers)) / 8) by (apply Z.div_le_lower_bound; lia).
  replace ((zlen headers <? 0) || (zlen (concat (map encode_header headers)) / 8 + 1 <? zlen headers)) with false by lia.
  unfold zlen at 1. rewrite Nat2Z.id. rewrite <- (app_nil_r (concat _)) at 1.
  rewrite read_header_list; [done|]. rewrite app_nil_r. change (2 ^ 31) with 2147483648. lia.
Qed.

(** ** Metadata round trip *)

Lemma sorted_keys_list_to_map {V} (l : list (bytes * V)) :
  StronglySorted key_lt (map fst l) → sorted_keys (list_to_map l) = map fst l.
Proof.
  intros Hs. assert (NoDup (map fst l)) as Hn.
  { clear -Hs. induction (map fst l) as [|k ks IH]; [constructor|]. apply StronglySorted_inv in Hs as [Hs Hk].
    apply NoDup_cons. split; [|auto]. rewrite Forall_forall in Hk. intros Hin. by destruct (Hk _ Hin) as [_ []]. }
  apply (StronglySorted_unique bytes_le).
  - apply StronglySorted_merge_sort; apply _.
  - clear -Hs. induction Hs as [|k ks _ IH Hk]; constructor; [done|]. eapply Forall_impl; [exact Hk|]. by intros k' [].
  - unfold sorted_keys. rewrite merge_sort_Permutation. by rewrite (map_to_list_to_map l Hn).
Qed.

Lemma metadata_entries_sorted l :
  StronglySorted key_lt (map fst l) → metadata_entries (list_to_map l) = l.
Proof.
  intros Hs. unfold metadata_entries. rewrite sorted_keys_list_to_map by done. rewrite map_map.
  assert (NoDup (map fst l)) as Hn.
  { rewrite <- sorted_keys_list_to_map by done. apply NoDup_sorted_keys. }
  transitivity (map (λ e : bytes * bytes, e) l); [|apply map_id]. apply map_ext_in. intros [k v] Hin. cbn.
  rewrite (elem_of_list_to_map_1 l k v Hn); [done|]. by apply list_elem_of_In.
Qed.

Lemma fold_entries (m : gmap bytes bytes) : fold_left (λ m e, <[e.1 := e.2]> m) (metadata_entries m) ∅ = m.
Proof.
  rewrite insert_all_list_to_map; [apply sorted_entries|]. unfold metadata_entries. rewrite map_map, map_id.
  apply NoDup_sorted_keys.
Qed.

(** A payload field that survives: it does not carry the escape mark, and its metadata is in key order when
    its name is reserved. *)
Definition field_ok (f : field) : Prop :=
  payloadNameMetadata ∉ map fst (field_Metadata f) ∧
  (isReserved (field_Name f) = true → StronglySorted key_lt (map fst (field_Metadata f))).

Lemma fieldMetadataMap_absent f : payloadNameMetadata ∉ map fst (field_Metadata f) → fieldMetadataMap f !! payloadNameMetadata = None.
Proof.
  unfold fieldMetadataMap. assert (∀ (m : gmap bytes bytes) k l, k ∉ map fst l → m !! k = None →
    fold_left (λ m e, <[e.1 := e.2]> m) l m !! k = None) as H.
  { intros m k l. revert m. induction l as [|[k' v] l IH]; intros m Hk Hm; [done|]. cbn in *.
    apply not_elem_of_cons in Hk as [Hne Hk]. apply IH; [done|]. by rewrite lookup_insert_ne. }
  intros Hk. by apply H.
Qed.

Lemma escaped_unreserved name : isReserved (payloadPrefix ++ name) = false.
Proof.
  apply bool_decide_eq_false. intros H. repeat (apply elem_of_cons in H as [H|H]; [discriminate H|]). by apply elem_of_nil in H.
Qed.

Lemma restored_escaped f : field_ok f →
  restoredPayloadField (escapedPayloadField f) = f ∧ isReserved (field_Name (escapedPayloadField f)) = false.
Proof.
  intros [Hk Hs]. unfold escapedPayloadField. destruct (isReserved (field_Name f)) eqn:Hr.
  - split; [|unfold renamedField, PayloadColumn; cbn [field_Name]; rewrite Hr; apply escaped_unreserved].
    unfold restoredPayloadField.
    assert (∀ name m, fieldMetadataMap (renamedField f name m) = m) as Hm by (intros; apply fold_entries).
    rewrite Hm, lookup_insert_eq, delete_insert_id by (by apply fieldMetadataMap_absent).
    unfold renamedField. cbn [field_Type field_Nullable]. unfold fieldMetadataMap. specialize (Hs eq_refl).
    rewrite insert_all_list_to_map, metadata_entries_sorted; [by destruct f|done|].
    rewrite <- sorted_keys_list_to_map by done. apply NoDup_sorted_keys.
  - split; [|done]. unfold restoredPayloadField. by rewrite fieldMetadataMap_absent.
Qed.

Definition payload_ok (payload : frame) : Prop :=
  length (fr_Fields payload) = length (fr_Columns payload) ∧ Forall field_ok (fr_Fields payload).

Lemma zip_escaped fields (columns : list column) :
  Forall field_ok fields → length fields = length columns →
  let kept := filter (λ fc : field * column, isReserved (field_Name fc.1) = false) (zip (map escapedPayloadField fields) columns) in
  map (λ fc, restoredPayloadField fc.1) kept = fields ∧ map snd kept = columns.
Proof.
  intros H. revert columns. induction H as [|f fields Hf _ IH]; intros [|c columns] Hl; try done.
  injection Hl as Hl. cbn [map zip zip_with]. destruct (restored_escaped f Hf) as [Hr Hn].
  rewrite filter_cons_True by done. cbn [map fst snd]. specialize (IH columns Hl) as [IH1 IH2]. cbn in IH1, IH2.
  by rewrite Hr, IH1, IH2.
Qed.

Lemma payloadOnly_withMetadata payload metadata batch :
  payload_ok payload → withMetadata payload metadata = Ok batch → payloadOnly batch = payload.
Proof.
  intros [Hl Hf]. unfold withMetadata. destruct (bool_decide _); [|done]. intros [= <-].
  unfold payloadOnly. cbn [fr_Fields fr_Columns fr_NumRows].
  rewrite zip_with_app by (by rewrite length_map). rewrite filter_app, !map_app.
  destruct (zip_escaped _ _ Hf Hl) as [-> ->]. cbn. rewrite !app_nil_r. by destruct payload.
Qed.

(** The column of a name, when no field before it has the name. *)
Lemma columnByName_at fs f fs' cs c cs' n :
  length fs = length cs → Forall (λ f', field_Name f' ≠ field_Name f) fs →
  columnByName (MkFrame (fs ++ f :: fs') (cs ++ c :: cs') n) (field_Name f) = Some c.
Proof.
  intros Hl Hne. unfold columnByName, FieldIndices. cbn [fr_Fields fr_Columns].
  rewrite length_app, seq_app, zip_with_app by (by rewrite length_seq). rewrite filter_app, fmap_app.
  assert (∀ k, filter (λ x : nat * field, field_Name x.2 = field_Name f) (zip (seq k (length fs)) fs) = []) as Hf.
  { clear Hl. induction Hne as [|f' fs Hne _ IH]; intros k; [done|]. cbn [length seq zip_with].
    rewrite filter_cons_False by done. apply IH. }
  rewrite Hf. cbn [length seq zip_with]. rewrite filter_cons_True by done. cbn. rewrite Hl.
  apply list_lookup_middle. done.
Qed.

(** A reserved name finds the metadata column. *)
Lemma columnByName_metadata payload metadata batch i f c :
  payload_ok payload → withMetadata payload metadata = Ok batch →
  metadataFields !! i = Some f → metadata_columns metadata !! i = Some c →
  columnByName batch (field_Name f) = Some c.
Proof.
  intros [Hl Hf]. unfold withMetadata. destruct (bool_decide _); [|done]. intros [= <-] Hfi Hci.
  assert (isReserved (field_Name f) = true ∧ Forall (λ f', field_Name f' ≠ field_Name f) (take i metadataFields)) as [Hr Ht].
  { do 5 (destruct i as [|i]; [injection Hfi as <-; split; [by_decide|repeat constructor; discriminate]|]). discriminate. }
  rewrite <- (take_drop_middle metadataFields i f Hfi), <- (take_drop_middle (metadata_columns metadata) i c Hci).
  rewrite !(assoc_L (++)). apply columnByName_at.
  - rewrite !length_app, length_map, !length_take. cbn [length metadataFields metadata_columns]. lia.
  - apply Forall_app. split; [|done]. apply Forall_map. eapply Forall_impl; [exact Hf|]. intros f' Hf' Heq.
    destruct (restored_escaped f' Hf') as [_ Hn]. congruence.
Qed.
