(* ===== verification/Codecs.v ===== *)
(** * Batch codecs, from columnar/rowcodec.go, blob.go, gzip.go and ipc.go

    The row codec over a value serde and a row bridge, the blob codec with its chunks and envelopes, and the
    gzip wrapper. The serde, the bridge, the Arrow IPC format and the gzip format are parameters;
    [Ipc] is the serde of the IPC format. *)

From S2P Require Import Prelude GoStd GoFloat Kafka Value Cells Frames.

#[local] Open Scope Z_scope.

(** The error of a parameter, or of the codec. *)
Inductive codec_error (E : Type) :=
| SerdeError (e : E)
| FrameError (e : frame_error)
| EmptyRecordBatch
| RowExceedsCap (maxRecordBytes : Z)
| CannotDecompress (e : E)
| ExceedsUncompressed (maximum : Z).
Arguments SerdeError {E} e.
Arguments FrameError {E} e.
Arguments EmptyRecordBatch {E}.
Arguments RowExceedsCap {E}.
Arguments CannotDecompress {E} e.
Arguments ExceedsUncompressed {E}.

(** ** Envelopes *)

Definition record_metadata (record : ConsumedRecord) : rowMetadata :=
  MkMetadata (con_Key record) (con_Timestamp record) (con_Partition record) (con_Offset record) (con_Headers record).

(** A binary column at a row, and a column of int64. *)
Definition rowKey (arr : option column) (row : nat) : option bytes :=
  match arr with
  | Some (MkColumn TBinary cells) => match cell_at (MkColumn TBinary cells) row with CBin key => Some key | _ => None end
  | _ => None
  end.

Definition rowTimestamp (arr : option column) (row : nat) : Z :=
  match arr with
  | Some (MkColumn (TInt I64) cells) => match cell_at (MkColumn (TInt I64) cells) row with CInt n => n | _ => 0 end
  | _ => 0
  end.

Definition blobKey (batch : frame) (row : nat) : option bytes := rowKey (columnByName batch KeyColumn) row.
Definition blobTimestamp (batch : frame) (row : nat) : Z := rowTimestamp (columnByName batch TimestampColumn) row.
Definition headersEqual (left right : list RecordHeader) : bool := EqualFunc RecordHeader_Equal left right.

(** ** Rows *)

Section RowCodec.
Context {T E : Type}.
Context (Serialize : bytes → T → result E (option bytes)) (Deserialize : bytes → option bytes → result E T).
Context (RowsToBatch : list T → result E frame) (BatchToRows : frame → result E (list T)).

Definition RowCodec_Decode (topic : bytes) (records : list ConsumedRecord) : result (codec_error E) frame :=
  let* values := rmap_err SerdeError (map_results (λ record, Deserialize topic (con_Value record)) records) in
  let* payload := rmap_err SerdeError (RowsToBatch values) in
  rmap_err FrameError (withMetadata payload (map record_metadata records)).

Fixpoint encode_rows (topic : bytes) (keys timestamps headersColumn : option column) (row : nat) (rows : list T)
    : result E (list ProduceRecord) :=
  match rows with
  | [] => Ok []
  | value :: rows =>
      let* encoded := Serialize topic value in
      let* output := encode_rows topic keys timestamps headersColumn (S row) rows in
      Ok (NewProduceRecord (rowKey keys row) encoded (rowTimestamp timestamps row) (headersAt headersColumn row) :: output)
  end.

Definition RowCodec_Encode (topic : bytes) (batch : frame) : result (codec_error E) (list ProduceRecord) :=
  let* rows := rmap_err SerdeError (BatchToRows (payloadOnly batch)) in
  rmap_err SerdeError (encode_rows topic (columnByName batch KeyColumn) (columnByName batch TimestampColumn)
    (columnByName batch HeadersColumn) 0 rows).
End RowCodec.

(** ** Blobs *)

Section BlobCodec.
Context {E : Type}.
(** [IPCSerde]: a nil batch is [None]. *)
Context (serialize : frame → result E bytes) (deserialize : bytes → result E frame).

Definition IPCSerde_Serialize (topic : bytes) (batch : option frame) : result E (option bytes) :=
  match batch with None => Ok None | Some batch => let* data := serialize batch in Ok (Some data) end.

Definition IPCSerde_Deserialize (topic : bytes) (data : option bytes) : result E (option frame) :=
  match data with None => Ok None | Some data => let* batch := deserialize data in Ok (Some batch) end.

Context (Schema_Equal : list field → list field → bool) (Concatenate : list column → option column).
Context (maxRecordBytes : Z).

Definition NewBlobCodecWithMaxBytes : bool := negb (maxRecordBytes <? 1).

(** One record: its batch, with the metadata of the record on every row. *)
Definition annotate (record : ConsumedRecord) : result (codec_error E) frame :=
  let* payload := rmap_err SerdeError (deserialize (default [] (con_Value record))) in
  rmap_err FrameError (withMetadata payload (replicate (fr_NumRows payload) (record_metadata record))).

Definition BlobCodec_Decode (topic : bytes) (records : list ConsumedRecord) : result (codec_error E) frame :=
  match records with
  | [] => Err EmptyRecordBatch
  | _ =>
      let* batches := map_results annotate records in
      rmap_err FrameError (concatenate Schema_Equal Concatenate batches)
  end.

(** The rows from [end_] on that share the envelope of [start]; the fuel is the rows of the batch. *)
Fixpoint envelope_end (fuel : nat) (batch : frame) (start end_ : nat) : nat :=
  match fuel with
  | O => end_
  | S fuel =>
      if bool_decide (end_ < fr_NumRows batch)%nat &&
         bytes_Equal (blobKey batch start) (blobKey batch end_) &&
         (blobTimestamp batch start =? blobTimestamp batch end_) &&
         headersEqual (headersAt (columnByName batch HeadersColumn) start) (headersAt (columnByName batch HeadersColumn) end_)
      then envelope_end fuel batch start (S end_) else end_
  end.

Definition envelopeRows (batch : frame) (start : nat) : nat :=
  (envelope_end (fr_NumRows batch) batch start (S start) - start)%nat.

(** The search of [largestChunk] from its bounds and its best so far. The interval shrinks at every step, so the
    available rows are fuel enough; without fuel it would report its best. *)
Fixpoint chunk_search (fuel : nat) (payload : frame) (start low high : nat) (best : option (nat * bytes))
    : result (codec_error E) (option (nat * bytes)) :=
  match fuel with
  | O => Ok best
  | S fuel =>
      if decide (low ≤ high)%nat then
        let candidateRows := (low + (high - low) / 2)%nat in
        let* encoded := rmap_err SerdeError (serialize (copyRange payload start candidateRows)) in
        if zlen encoded <=? maxRecordBytes
        then chunk_search fuel payload start (S candidateRows) high (Some (candidateRows, encoded))
        else chunk_search fuel payload start low (candidateRows - 1) best
      else Ok best
  end.

Definition largestChunk (payload : frame) (start availableRows : nat) : result (codec_error E) (nat * bytes) :=
  let* best := chunk_search (S availableRows) payload start 1 availableRows None in
  match best with
  | Some chunk => Ok chunk
  | None => Err (RowExceedsCap maxRecordBytes)
  end.

(** The loop of [Encode]; a chunk has a row at least, so the rows are fuel enough. *)
Fixpoint encode_chunks (fuel : nat) (batch payload : frame) (start : nat) : result (codec_error E) (list ProduceRecord) :=
  match fuel with
  | O => Ok []
  | S fuel =>
      if decide (start < fr_NumRows payload)%nat then
        let* chunk := largestChunk payload start (envelopeRows batch start) in
        let chunkRows := chunk.1 in
        let row := (start + chunkRows - 1)%nat in
        let* rest := encode_chunks fuel batch payload (start + chunkRows)%nat in
        Ok (NewProduceRecord (blobKey batch row) (Some chunk.2) (blobTimestamp batch row)
              (headersAt (columnByName batch HeadersColumn) row) :: rest)
      else Ok []
  end.

Definition BlobCodec_Encode (topic : bytes) (batch : frame) : result (codec_error E) (list ProduceRecord) :=
  let payload := payloadOnly batch in encode_chunks (S (fr_NumRows payload)) batch payload 0.
End BlobCodec.

Definition DefaultMaxRecordBytes : Z := 900 * 1024.

(** ** Gzip *)

Definition DefaultMaxUncompressedBytes : Z := 16 * 1024 * 1024.
Definition NewGzipBatchCodecWithMaxBytes (maximum : Z) : bool := negb ((maximum <? 1) || (maximum =? MaxInt64)).

Section GzipCodec.
Context {E : Type}.
(** The codec that is wrapped; [gzip.NewReader] with all that the reader yields and the error that it ends in, if any;
    and the gzip writer. *)
Context (delegate_Decode : bytes → list ConsumedRecord → result (codec_error E) frame).
Context (delegate_Encode : bytes → frame → result (codec_error E) (list ProduceRecord)).
Context (NewReader : bytes → result E (bytes * option E)) (compress : bytes → bytes).
Context (maxUncompressedBytes : Z).

(** [io.ReadAll(io.LimitReader(reader, n))]: an error past the limit is not seen. *)
Definition ReadAll_limited (reader : bytes * option E) (limit : Z) : result E bytes :=
  if zlen reader.1 <? limit then match reader.2 with Some e => Err e | None => Ok reader.1 end
  else Ok (take (Z.to_nat limit) reader.1).

Definition decompress (compressed : bytes) : result (codec_error E) bytes :=
  let* reader := rmap_err CannotDecompress (NewReader compressed) in
  let* result := rmap_err CannotDecompress (ReadAll_limited reader (maxUncompressedBytes + 1)) in
  check! negb (maxUncompressedBytes <? zlen result) else ExceedsUncompressed maxUncompressedBytes in Ok result.

Definition Gzip_Decode (topic : bytes) (records : list ConsumedRecord) : result (codec_error E) frame :=
  let* decompressed := map_results
    (λ record, let* value := decompress (default [] (con_Value record)) in
       Ok (MkConsumed (con_Key record) (Some value) (con_Timestamp record) (con_Partition record) (con_Offset record)
             (con_Headers record))) records in
  delegate_Decode topic decompressed.

Definition Gzip_Encode (topic : bytes) (batch : frame) : result (codec_error E) (list ProduceRecord) :=
  let* records := delegate_Encode topic batch in
  Ok (map (λ record, MkProduce (pro_Key record) (Some (compress (default [] (pro_Value record)))) (pro_Timestamp record)
             (pro_Headers record)) records).
End GzipCodec.

(** ** The row codec keeps envelopes *)

Section RowCodecFacts.
Context {T E : Type}.
Context (Serialize : bytes → T → result E (option bytes)) (Deserialize : bytes → option bytes → result E T).
Context (RowsToBatch : list T → result E frame) (BatchToRows : frame → result E (list T)).

(** What a row codec needs of its bridge: a batch converts back to its rows, and its schema has no escape marks. *)
Class RowBridgeLaws : Prop := {
  bridge_payload rows payload : RowsToBatch rows = Ok payload → payload_ok payload;
  bridge_roundtrip rows payload : RowsToBatch rows = Ok payload → BatchToRows payload = Ok rows
}.
Context `{RowBridgeLaws}.

(** The record of one row. *)
Definition encode_row (topic : bytes) (rv : ConsumedRecord * T) : result E ProduceRecord :=
  let* data := Serialize topic rv.2 in
  Ok (NewProduceRecord (con_Key rv.1) data (con_Timestamp rv.1) (con_Headers rv.1)).

Lemma metadata_cells {A} (g : rowMetadata → A) records pre r rest :
  records = pre ++ r :: rest → map g (map record_metadata records) !! length pre = Some (g (record_metadata r)).
Proof. intros ->. rewrite map_map. change (map ?f) with (fmap (M:=list) f). by rewrite list_lookup_fmap, list_lookup_middle. Qed.

Lemma encode_rows_records topic payload records batch pre rest values :
  payload_ok payload → withMetadata payload (map record_metadata records) = Ok batch →
  Forall (λ r, headers_fit (con_Headers r)) records → records = pre ++ rest → length rest = length values →
  encode_rows Serialize topic (columnByName batch KeyColumn) (columnByName batch TimestampColumn)
    (columnByName batch HeadersColumn) (length pre) values = map_results (encode_row topic) (zip rest values).
Proof.
  intros Hp Hb Hh. pose proof (columnByName_metadata payload _ batch 0 _ _ Hp Hb eq_refl eq_refl) as Hkey.
  pose proof (columnByName_metadata payload _ batch 1 _ _ Hp Hb eq_refl eq_refl) as Htime.
  pose proof (columnByName_metadata payload _ batch 4 _ _ Hp Hb eq_refl eq_refl) as Hhead.
  cbn [field_Name] in Hkey, Htime, Hhead. rewrite Hkey, Htime, Hhead. clear Hkey Htime Hhead Hb.
  revert pre rest. induction values as [|v values IH]; intros pre [|r rest] Hr Hl; try done.
  injection Hl as Hl. cbn [encode_rows zip zip_with map_results]. unfold encode_row at 1. cbn [fst snd].
  destruct (Serialize topic v) as [data|e]; [|done]. cbn [rbind].
  assert (records = (pre ++ [r]) ++ rest) as Hr' by (by rewrite Hr, <- (assoc_L (++))).
  specialize (IH (pre ++ [r]) rest Hr' Hl). rewrite length_app in IH. cbn [length] in IH.
  replace (length pre + 1)%nat with (S (length pre)) in IH by lia. rewrite IH.
  replace (rowKey _ (length pre)) with (con_Key r); [replace (rowTimestamp _ (length pre)) with (con_Timestamp r);
    [replace (headersAt _ (length pre)) with (con_Headers r); [done|]|]|].
  - unfold headersAt, cell_at. cbn [col_Cells]. rewrite (metadata_cells _ _ _ _ _ Hr). cbn [default]. unfold id.
    change (meta_headers (record_metadata r)) with (con_Headers r).
    rewrite decodeHeaders_encodeHeaders; [done|]. rewrite Forall_forall in Hh. apply Hh. rewrite Hr.
    apply elem_of_app. right. apply list_elem_of_here.
  - unfold rowTimestamp, cell_at. cbn [col_Cells]. by rewrite (metadata_cells _ _ _ _ _ Hr).
  - unfold rowKey, cell_at. cbn [col_Cells]. rewrite (metadata_cells _ _ _ _ _ Hr). cbn. by destruct (con_Key r).
Qed.
End RowCodecFacts.

(** C35: The row codec keeps rows and envelopes. When a fetched batch decodes, encoding the result gives one
    record per fetched record, in order: its value is what the serde writes for the value that the record
    decoded to, and its key, its timestamp and its headers, null keys and null header values included, are those of the
    record. The bridge converts its own batches back, and header lists fit their column. *)
Theorem row_codec_roundtrip {T E} Serialize Deserialize RowsToBatch BatchToRows
    (laws : @RowBridgeLaws T E RowsToBatch BatchToRows) topic topic' records batch :
  Forall (λ r, headers_fit (con_Headers r)) records →
  RowCodec_Decode Deserialize RowsToBatch topic records = Ok batch →
  ∃ values, Forall2 (λ r v, Deserialize topic (con_Value r) = Ok v) records values ∧
    RowCodec_Encode Serialize BatchToRows topic' batch =
      rmap_err SerdeError (map_results (encode_row Serialize topic') (zip records values)).
Proof.
  intros Hh. unfold RowCodec_Decode. intros (values & Hv & (payload & Hp & Hb)%rbind_Ok)%rbind_Ok.
  destruct (map_results _ records) as [values'|] eqn:Hr; [|done]. injection Hv as ->. apply map_results_inv in Hr.
  destruct (RowsToBatch values) as [p|] eqn:Hrows; [|done]. injection Hp as ->.
  destruct (withMetadata payload _) as [b|] eqn:Hm; [|done]. injection Hb as ->.
  exists values. split; [done|]. unfold RowCodec_Encode.
  destruct laws as [Hpay Hback]. pose proof (Hpay _ _ Hrows) as Hok.
  rewrite (payloadOnly_withMetadata _ _ _ Hok Hm). rewrite (Hback _ _ Hrows). cbn [rmap_err rbind].
  f_equal. exact (encode_rows_records Serialize topic' payload records batch [] records values Hok Hm Hh eq_refl (Forall2_length _ _ _ Hr)).
Qed.

(** ** The blob codec covers every row *)

Lemma bytes_Equal_sym x y : bytes_Equal x y = true → bytes_Equal y x = true.
Proof. unfold bytes_Equal. rewrite !bool_decide_eq_true. congruence. Qed.

Lemma bytes_Equal_trans x y z : bytes_Equal x y = true → bytes_Equal y z = true → bytes_Equal x z = true.
Proof. unfold bytes_Equal. rewrite !bool_decide_eq_true. congruence. Qed.

Lemma bytes_Equal_refl x : bytes_Equal x x = true.
Proof. by apply bool_decide_eq_true. Qed.

Lemma headersEqual_spec x y :
  headersEqual x y = true ↔ map (λ h, (header_Key h, default [] (header_Value h))) x = map (λ h, (header_Key h, default [] (header_Value h))) y.
Proof.
  unfold headersEqual. revert y. induction x as [|a x IH]; intros [|b y]; cbn [EqualFunc map]; try (split; done).
  unfold RecordHeader_Equal at 1, bytes_Equal. rewrite !andb_true_iff, IH, !bool_decide_eq_true. split.
  - intros [[-> ->] ->]. done.
  - intros [= -> -> ->]. done.
Qed.

(** The envelopes of two rows agree, as the codec compares them. *)
Definition same_envelope (batch : frame) (r : ProduceRecord) (row : nat) : Prop :=
  bytes_Equal (pro_Key r) (blobKey batch row) = true ∧ pro_Timestamp r = blobTimestamp batch row ∧
  headersEqual (pro_Headers r) (headersAt (columnByName batch HeadersColumn) row) = true.

Definition row_envelope (batch : frame) (row : nat) : ProduceRecord :=
  MkProduce (blobKey batch row) None (blobTimestamp batch row) (headersAt (columnByName batch HeadersColumn) row).

Lemma envelope_end_spec fuel batch start end_ :
  (start < end_)%nat → (∀ row, (start ≤ row < end_)%nat → same_envelope batch (row_envelope batch start) row) →
  let last := envelope_end fuel batch start end_ in
  (end_ ≤ last)%nat ∧ (last ≤ Nat.max end_ (fr_NumRows batch))%nat ∧
  (∀ row, (start ≤ row < last)%nat → same_envelope batch (row_envelope batch start) row) ∧
  ((fr_NumRows batch ≤ end_ + fuel)%nat → (fr_NumRows batch ≤ last)%nat ∨ ¬ same_envelope batch (row_envelope batch start) last).
Proof.
  revert end_. induction fuel as [|fuel IH]; intros end_ Hs Hr; cbn [envelope_end]; [split_and!; [lia|lia|done|left; lia]|].
  destruct (_ && _ && _ && _) eqn:He.
  - apply andb_true_iff in He as [[[Hb%bool_decide_eq_true Hk]%andb_true_iff Ht]%andb_true_iff Hh]. apply Z.eqb_eq in Ht.
    destruct (IH (S end_) ltac:(lia)) as (H1 & H2 & H3 & H4).
    { intros row Hrow. destruct (decide (row = end_)) as [->|]; [|apply Hr; lia]. by split_and!. }
    split_and!; [lia|lia|done|]. intros Hf. apply H4. lia.
  - split_and!; [lia|lia|done|]. intros _. destruct (decide (end_ < fr_NumRows batch)%nat) as [Hlt|]; [|left; lia].
    right. intros (Hk & Ht & Hh). cbn [row_envelope pro_Key pro_Timestamp pro_Headers] in *. rewrite Hk, Ht, Hh, Z.eqb_refl, bool_decide_eq_true_2 in He by done. done.
Qed.

(** Envelopes that agree with one row agree with each other. *)
Lemma same_envelope_iff batch start last row :
  same_envelope batch (row_envelope batch start) last →
  same_envelope batch (row_envelope batch last) row ↔ same_envelope batch (row_envelope batch start) row.
Proof.
  unfold same_envelope, bytes_Equal. cbn [row_envelope pro_Key pro_Timestamp pro_Headers]. rewrite !headersEqual_spec, !bool_decide_eq_true.
  intros (-> & -> & ->). done.
Qed.

Lemma envelopeRows_spec batch start :
  (start < fr_NumRows batch)%nat →
  (1 ≤ envelopeRows batch start)%nat ∧ (start + envelopeRows batch start ≤ fr_NumRows batch)%nat ∧
  (∀ row last, (start ≤ row < start + envelopeRows batch start)%nat → (start ≤ last < start + envelopeRows batch start)%nat →
    same_envelope batch (row_envelope batch last) row) ∧
  ∀ last, (start ≤ last < start + envelopeRows batch start)%nat →
    (start + envelopeRows batch start = fr_NumRows batch)%nat ∨ ¬ same_envelope batch (row_envelope batch last) (start + envelopeRows batch start).
Proof.
  intros Hs. unfold envelopeRows. destruct (envelope_end_spec (fr_NumRows batch) batch start (S start) ltac:(lia)) as (H1 & H2 & H3 & H4).
  { intros row Hrow. replace row with start by lia. split_and!; [apply bytes_Equal_refl|done|by apply headersEqual_spec]. }
  split; [lia|]. split; [lia|]. split.
  - intros row last Hrow Hlast. apply (same_envelope_iff batch start); apply H3; lia.
  - intros last Hlast. rewrite (same_envelope_iff batch start last) by (apply H3; lia).
    replace (start + (envelope_end (fr_NumRows batch) batch start (S start) - start))%nat with (envelope_end (fr_NumRows batch) batch start (S start)) by lia.
    destruct H4 as [H4|H4]; [lia|left; lia|by right].
Qed.

Section BlobFacts.
Context {E : Type} (serialize : frame → result E bytes) (deserialize : bytes → result E frame).
Context (Schema_Equal : list field → list field → bool) (Concatenate : list column → option column).
Context (maxRecordBytes : Z).

(** [n] rows from [start] encode as [bs], within the cap; and [n] rows do not fit. *)
Definition chunk_fits payload start n bs : Prop :=
  serialize (copyRange payload start n) = Ok bs ∧ zlen bs ≤ maxRecordBytes.
Definition chunk_too_large payload start n : Prop :=
  ∃ bs, serialize (copyRange payload start n) = Ok bs ∧ maxRecordBytes < zlen bs.

Lemma chunk_search_spec fuel payload start available low high best out :
  (high + 1 - low < fuel)%nat → (1 ≤ low ≤ S high)%nat → (high ≤ available)%nat →
  match best with Some (n, bs) => (1 ≤ n)%nat ∧ low = S n ∧ chunk_fits payload start n bs | None => low = 1%nat end →
  (high = available ∨ chunk_too_large payload start (S high)) →
  chunk_search serialize maxRecordBytes fuel payload start low high best = Ok out →
  match out with
  | Some (n, bs) => (1 ≤ n ≤ available)%nat ∧ chunk_fits payload start n bs ∧ (n = available ∨ chunk_too_large payload start (S n))
  | None => available = 0%nat ∨ chunk_too_large payload start 1
  end.
Proof.
  revert low high best. induction fuel as [|fuel IH]; intros low high best Hf Hl Ha Hb Hh; [lia|]. cbn [chunk_search].
  destruct (decide (low ≤ high)%nat) as [Hle|Hle].
  - set (c := (low + (high - low) / 2)%nat). assert (low ≤ c ≤ high)%nat as Hc.
    { unfold c. pose proof (Nat.Div0.div_le_upper_bound (high - low) 2 (high - low) ltac:(lia)). lia. }
    intros (bs & Hs & Hk)%rbind_Ok. destruct (serialize (copyRange payload start c)) as [bs'|] eqn:He; [|done]. injection Hs as ->.
    destruct (Z.leb_spec (zlen bs) maxRecordBytes) as [Hm|Hm].
    + apply (IH (S c) high (Some (c, bs))) in Hk; [done|lia|lia|lia| |done]. split; [lia|]. split; [done|]. by split.
    + apply (IH low (c - 1)%nat best) in Hk; [done|lia|lia|lia|done|]. right. exists bs.
      by replace (S (c - 1)) with c by lia.
  - intros [= <-]. assert (low = S high) as -> by lia. destruct best as [[n bs]|].
    + destruct Hb as (Hn & [= <-] & Hfit). split; [lia|]. split; [done|]. destruct Hh; auto.
    + injection Hb as ->. destruct Hh as [<-|]; auto.
Qed.

Lemma chunk_search_total fuel payload start low high best :
  (∀ n, ∃ bs, serialize (copyRange payload start n) = Ok bs) →
  ∃ out, chunk_search serialize maxRecordBytes fuel payload start low high best = Ok out.
Proof.
  intros Hs. revert low high best. induction fuel as [|fuel IH]; intros low high best; cbn [chunk_search]; [eauto|].
  case_decide; [|eauto]. destruct (Hs (low + (high - low) / 2)%nat) as (bs & ->). cbn [rmap_err rbind].
  case_match; apply IH.
Qed.

Lemma largestChunk_spec payload start available n bs :
  largestChunk serialize maxRecordBytes payload start available = Ok (n, bs) →
  (1 ≤ n ≤ available)%nat ∧ chunk_fits payload start n bs ∧ (n = available ∨ chunk_too_large payload start (S n)).
Proof.
  unfold largestChunk. intros (best & Hb & Hk)%rbind_Ok. apply (chunk_search_spec _ _ _ available) in Hb; [|lia|lia|lia|done|by left].
  destruct best as [[n' bs']|]; [|done]. by injection Hk as -> ->.
Qed.

(** The chunks of a batch from a row on. *)
Inductive chunks (batch payload : frame) : nat → list (nat * bytes) → list ProduceRecord → Prop :=
| chunks_nil start : (fr_NumRows payload ≤ start)%nat → chunks batch payload start [] []
| chunks_cons start n bs r sizes rest :
    (1 ≤ n)%nat → (start + n ≤ fr_NumRows payload)%nat →
    pro_Value r = Some bs → chunk_fits payload start n bs →
    (start + n = fr_NumRows payload ∨ ¬ same_envelope batch r (start + n) ∨ chunk_too_large payload start (S n))%nat →
    (∀ row, (start ≤ row < start + n)%nat → same_envelope batch r row) →
    chunks batch payload (start + n) sizes rest →
    chunks batch payload start ((n, bs) :: sizes) (r :: rest).

Lemma encode_chunks_spec fuel batch payload start out :
  fr_NumRows payload = fr_NumRows batch → (fr_NumRows payload - start < fuel)%nat →
  encode_chunks serialize maxRecordBytes fuel batch payload start = Ok out →
  ∃ sizes, chunks batch payload start sizes out.
Proof.
  intros Hn. revert start out. induction fuel as [|fuel IH]; intros start out Hf; [lia|]. cbn [encode_chunks].
  case_decide as Hs; [|intros [= <-]; exists []; constructor; lia].
  intros ([n bs] & Hc & (rest & Hr & [= <-])%rbind_Ok)%rbind_Ok. cbn [fst snd] in *.
  apply largestChunk_spec in Hc as (H1 & H2 & H3).
  destruct (envelopeRows_spec batch start ltac:(lia)) as (E1 & E2 & E3 & E4).
  apply IH in Hr as (sizes & Hr); [|lia]. exists ((n, bs) :: sizes). econstructor; try done; try lia.
  - destruct H3 as [->|H3]; [|by do 2 right]. rewrite Hn. destruct (E4 (start + envelopeRows batch start - 1)%nat ltac:(lia)) as [?|Hend]; [by left|].
    right. left. exact Hend.
  - intros row Hrow. apply (E3 row (start + n - 1)%nat); lia.
Qed.

(** When every range of rows serializes, encoding fails only on a row that is too large by itself. *)
Lemma encode_chunks_total fuel batch payload start :
  (∀ start n, ∃ bs, serialize (copyRange payload start n) = Ok bs) →
  (∃ out, encode_chunks serialize maxRecordBytes fuel batch payload start = Ok out) ∨
  (encode_chunks serialize maxRecordBytes fuel batch payload start = Err (RowExceedsCap maxRecordBytes) ∧
   ∃ row, (start ≤ row < fr_NumRows payload)%nat ∧ (envelopeRows batch row = 0%nat ∨ chunk_too_large payload row 1)).
Proof.
  intros Hs. revert start. induction fuel as [|fuel IH]; intros start; cbn [encode_chunks]; [eauto|].
  case_decide as Hl; [|eauto]. unfold largestChunk.
  destruct (chunk_search_total (S (envelopeRows batch start)) payload start 1 (envelopeRows batch start) None (Hs start)) as (out & Ho).
  rewrite Ho. cbn [rbind]. apply (chunk_search_spec _ _ _ (envelopeRows batch start)) in Ho; [|lia|lia|lia|done|by left].
  destruct out as [[n bs]|]; cbn [rbind fst snd].
  - destruct (IH (start + n)%nat) as [(out & ->)|(-> & row & Hr & Hc)]; [left; cbn; eauto|].
    right. split; [done|]. exists row. split; [lia|done].
  - right. split; [done|]. exists start. split; [lia|done].
Qed.
End BlobFacts.

(** C10: The blob codec packs every row once. Encoding visits the rows in order and ends: the records cover all rows of
    the batch without a gap or an overlap; the value of each is the serialized range of its rows, within the byte cap; all
    its rows share the key, the timestamp and the headers of the record; and one more row would either leave the
    envelope or pass the cap. When every range serializes, the only error is a single row over the cap. *)
Theorem blob_chunks {E} (serialize : frame → result E bytes) maxRecordBytes topic batch :
  (∀ out, BlobCodec_Encode serialize maxRecordBytes topic batch = Ok out →
    ∃ sizes, chunks serialize maxRecordBytes batch (payloadOnly batch) 0 sizes out) ∧
  ((∀ start n, ∃ bs, serialize (copyRange (payloadOnly batch) start n) = Ok bs) →
    (∃ out, BlobCodec_Encode serialize maxRecordBytes topic batch = Ok out) ∨
    (BlobCodec_Encode serialize maxRecordBytes topic batch = Err (RowExceedsCap maxRecordBytes) ∧
     ∃ row, (row < fr_NumRows batch)%nat ∧ chunk_too_large serialize maxRecordBytes (payloadOnly batch) row 1)).
Proof.
  split.
  - intros out H. eapply encode_chunks_spec; [done| |exact H]. lia.
  - intros Hs. destruct (encode_chunks_total serialize maxRecordBytes (S (fr_NumRows (payloadOnly batch))) batch (payloadOnly batch) 0 Hs)
      as [?|(He & row & Hr & Hc)]; [by left|]. right. split; [done|]. exists row. cbn in Hr. split; [lia|].
    destruct Hc as [Hz|]; [|done]. destruct (envelopeRows_spec batch row ltac:(lia)) as (H1 & _). lia.
Qed.

(** ** A blob reads back *)

Section BlobRoundtrip.
Context {E : Type} (serialize : frame → result E bytes) (deserialize : bytes → result E frame).
Context (Schema_Equal : list field → list field → bool) (Concatenate : list column → option column).
Context (maxRecordBytes : Z).

(** What the codec needs of the Arrow library: a stream reads back, a schema equals itself, and arrays of one type
    concatenate. *)
Class BlobLaws : Prop := {
  ipc_roundtrip f bs : serialize f = Ok bs → deserialize bs = Ok f;
  schema_reflexive fs : Schema_Equal fs fs = true;
  concatenate_arrays t parts : parts ≠ [] → Forall (λ c, col_Type c = t) parts →
    Concatenate parts = Some (MkColumn t (concat (map col_Cells parts)))
}.
Context {laws : BlobLaws}.

(** A record as it is fetched again, wherever it went. *)
Definition fetched (r : ProduceRecord) (c : ConsumedRecord) : Prop :=
  con_Key c = pro_Key r ∧ con_Value c = pro_Value r ∧ con_Timestamp c = pro_Timestamp r ∧ con_Headers c = pro_Headers r.

Definition columns_ok (payload : frame) : Prop :=
  payload_ok payload ∧ Forall (λ c, length (col_Cells c) = fr_NumRows payload) (fr_Columns payload).

Fixpoint metas (sizes : list (nat * bytes)) (consumed : list ConsumedRecord) : list rowMetadata :=
  match sizes, consumed with
  | s :: sizes, c :: consumed => replicate s.1 (record_metadata c) ++ metas sizes consumed
  | _, _ => []
  end.

Definition annotated (payload : frame) (start n : nat) (c : ConsumedRecord) : frame :=
  MkFrame (map escapedPayloadField (fr_Fields payload) ++ metadataFields)
    (fr_Columns (copyRange payload start n) ++ metadata_columns (replicate n (record_metadata c))) n.

Fixpoint parts (payload : frame) (start : nat) (sizes : list (nat * bytes)) (consumed : list ConsumedRecord) : list frame :=
  match sizes, consumed with
  | s :: sizes, c :: consumed => annotated payload start s.1 c :: parts payload (start + s.1) sizes consumed
  | _, _ => []
  end.

Lemma annotate_parts batch payload start sizes out consumed :
  chunks serialize maxRecordBytes batch payload start sizes out → Forall2 fetched out consumed →
  map_results (annotate deserialize) consumed = Ok (parts payload start sizes consumed).
Proof.
  intros H. revert consumed. induction H as [start Hs|start n bs r sizes rest H1 H2 Hv [Hf _] _ _ _ IH]; intros consumed Hc.
  - by inversion Hc.
  - inversion Hc as [|? c ? consumed' Hr Hrest]; subst. cbn [map_results parts fst snd].
    destruct Hr as (_ & Hval & _). unfold annotate at 1. rewrite Hval, Hv. cbn [default]. unfold id.
    rewrite (ipc_roundtrip _ _ Hf). cbn [rmap_err rbind]. unfold withMetadata. rewrite length_replicate.
    rewrite bool_decide_true by done. cbn [rmap_err rbind]. rewrite IH by done. done.
Qed.

Lemma chunks_sizes batch payload start sizes out :
  chunks serialize maxRecordBytes batch payload start sizes out →
  foldr (λ s n, s.1 + n)%nat 0%nat sizes = (fr_NumRows payload - start)%nat.
Proof. induction 1; cbn [foldr fst]; lia. Qed.

Lemma length_metas sizes consumed :
  length sizes = length consumed → length (metas sizes consumed) = foldr (λ s n, s.1 + n)%nat 0%nat sizes.
Proof.
  revert consumed. induction sizes as [|s sizes IH]; intros [|c consumed] Hl; try done. injection Hl as Hl. cbn [metas foldr].
  rewrite length_app, length_replicate. by rewrite IH.
Qed.

Lemma parts_rows payload start sizes consumed :
  length sizes = length consumed →
  foldr (λ batch n, fr_NumRows batch + n)%nat 0%nat (parts payload start sizes consumed) =
  foldr (λ s n, s.1 + n)%nat 0%nat sizes.
Proof.
  revert start consumed. induction sizes as [|s sizes IH]; intros start [|c consumed] Hl; try done. injection Hl as Hl.
  cbn [parts foldr fr_NumRows annotated]. by rewrite IH.
Qed.

(** The [i]-th columns of the parts. *)
Definition part_columns (i : nat) (frames : list frame) : list column := omap (λ batch, fr_Columns batch !! i) frames.

Lemma part_columns_cons i f frames c :
  fr_Columns f !! i = Some c → part_columns i (f :: frames) = c :: part_columns i frames.
Proof. intros H. unfold part_columns. cbn. by rewrite H. Qed.

Lemma payload_column batch payload start sizes out consumed i c :
  chunks serialize maxRecordBytes batch payload start sizes out → length sizes = length consumed →
  fr_Columns payload !! i = Some c → length (col_Cells c) = fr_NumRows payload →
  Forall (λ c', col_Type c' = col_Type c) (part_columns i (parts payload start sizes consumed)) ∧
  concat (map col_Cells (part_columns i (parts payload start sizes consumed))) = drop start (col_Cells c).
Proof.
  intros H. revert consumed. induction H as [start Hs|start n bs r sizes rest H1 H2 _ _ _ _ _ IH]; intros consumed Hl Hi Hc.
  - destruct consumed; [|done]. cbn. rewrite drop_ge by lia. done.
  - destruct consumed as [|x consumed]; [done|]. injection Hl as Hl. destruct (IH consumed Hl Hi Hc) as [IH1 IH2].
    cbn [parts fst].
    rewrite (part_columns_cons _ _ _ (MkColumn (col_Type c) (take n (drop start (col_Cells c))))).
    + split; [by constructor|]. cbn [map concat col_Cells]. rewrite IH2, <- drop_drop. by rewrite take_drop.
    + cbn [fr_Columns annotated copyRange]. rewrite lookup_app_l by (apply lookup_lt_Some in Hi; by rewrite length_map).
      change (map ?f) with (fmap (M:=list) f). by rewrite list_lookup_fmap, Hi.
Qed.

Lemma metadata_column j f metadata :
  metadataFields !! j = Some f → metadata_columns metadata !! j = Some (MkColumn (field_Type f) (map
    (λ row, match j with
            | 0%nat => match meta_key row with None => CNull | Some key => CBin key end
            | 1%nat => CInt (meta_timestamp row)
            | 2%nat => CInt (int32 (meta_partition row))
            | 3%nat => CInt (meta_offset row)
            | _ => CBin (encodeHeaders (meta_headers row))
            end) metadata)).
Proof. do 5 (destruct j as [|j]; [intros [= <-]; reflexivity|]). done. Qed.

Lemma metadata_part payload start sizes consumed j f :
  metadataFields !! j = Some f →
  Forall (λ c', col_Type c' = field_Type f) (part_columns (length (fr_Columns payload) + j) (parts payload start sizes consumed)) ∧
  metadata_columns (metas sizes consumed) !! j =
    Some (MkColumn (field_Type f) (concat (map col_Cells (part_columns (length (fr_Columns payload) + j) (parts payload start sizes consumed))))).
Proof.
  intros Hj. rewrite (metadata_column _ _ _ Hj). revert start consumed.
  induction sizes as [|s sizes IH]; intros start [|c consumed]; cbn [metas parts]; try (by split; [constructor|]).
  destruct (IH (start + s.1)%nat consumed) as [IH1 IH2].
  pose proof (metadata_column j f (replicate s.1 (record_metadata c)) Hj) as Hr.
  erewrite part_columns_cons.
  2:{ cbn [fr_Columns annotated copyRange]. rewrite lookup_app_r by (rewrite length_map; lia). rewrite length_map.
      replace (length (fr_Columns payload) + j - length (fr_Columns payload))%nat with j by lia. exact Hr. }
  split; [by constructor|]. cbn [map concat col_Cells]. rewrite map_app. injection IH2 as IH2. by rewrite IH2.
Qed.

Lemma map_results_seq {A Er} (f : nat → result Er A) target N :
  length target = N → (∀ i a, target !! i = Some a → f i = Ok a) → map_results f (seq 0 N) = Ok target.
Proof.
  intros <- Hf. apply map_results_ok. apply Forall2_lookup. intros i. destruct (target !! i) as [a|] eqn:Hi.
  - rewrite lookup_seq_lt by (by apply lookup_lt_Some in Hi). constructor. rewrite Nat.add_0_l. by apply Hf.
  - apply lookup_ge_None in Hi. rewrite lookup_seq_ge by done. constructor.
Qed.

Lemma part_columns_nonempty i frames :
  frames ≠ [] → Forall (λ f, i < length (fr_Columns f))%nat frames → part_columns i frames ≠ [].
Proof.
  destruct frames as [|f frames]; [done|]. intros _ [Hi _]%Forall_cons. apply lookup_lt_is_Some in Hi as [c Hc].
  unfold part_columns. cbn. by rewrite Hc.
Qed.

Lemma parts_shape payload start sizes consumed :
  Forall (λ f, fr_Fields f = map escapedPayloadField (fr_Fields payload) ++ metadataFields ∧
            length (fr_Columns f) = (length (fr_Columns payload) + 5)%nat) (parts payload start sizes consumed).
Proof.
  revert start consumed. induction sizes as [|s sizes IH]; intros start [|c consumed]; cbn [parts]; constructor; [|apply IH].
  unfold annotated. cbn [fr_Fields fr_Columns copyRange]. by rewrite length_app, length_map.
Qed.

Lemma concatenate_parts batch payload sizes out consumed :
  columns_ok payload → chunks serialize maxRecordBytes batch payload 0 sizes out → Forall2 fetched out consumed →
  out ≠ [] →
  concatenate Schema_Equal Concatenate (parts payload 0 sizes consumed) = withMetadata payload (metas sizes consumed).
Proof.
  intros [[Hl Hf] Hc] Hch Hd Hne.
  assert (length sizes = length consumed) as Hlen.
  { rewrite <- (Forall2_length _ _ _ Hd). clear -Hch. induction Hch; cbn; auto. }
  assert (parts payload 0 sizes consumed ≠ []) as Hp.
  { destruct Hch; [done|]. inversion Hd; subst. done. }
  pose proof (parts_shape payload 0 sizes consumed) as Hall.
  assert (withMetadata payload (metas sizes consumed) = Ok (MkFrame (map escapedPayloadField (fr_Fields payload) ++ metadataFields)
            (fr_Columns payload ++ metadata_columns (metas sizes consumed)) (fr_NumRows payload))) as ->.
  { unfold withMetadata. rewrite length_metas, (chunks_sizes _ _ _ _ _ Hch) by done. by rewrite bool_decide_true by lia. }
  pose proof (parts_rows payload 0 sizes consumed Hlen) as Hrows. rewrite (chunks_sizes _ _ _ _ _ Hch) in Hrows.
  remember (parts payload 0 sizes consumed) as frames eqn:Hframes. unfold concatenate. destruct frames as [|first frames]; [done|].
  pose proof Hall as [[Hff _] _]%Forall_cons.
  replace (forallb _ (first :: frames)) with true.
  2:{ symmetry. apply forallb_forall. intros f Hin%list_elem_of_In. rewrite Forall_forall in Hall. destruct (Hall f Hin) as [-> _].
      rewrite Hff. apply schema_reflexive. }
  rewrite Hff. rewrite Hrows, Nat.sub_0_r. rewrite (map_results_seq _ (fr_Columns payload ++ metadata_columns (metas sizes consumed))); [done| |].
  { rewrite !length_app, length_map. cbn [length metadata_columns metadataFields]. lia. }
  intros i c Hi. fold (part_columns i (first :: frames)).
  assert (part_columns i (first :: frames) ≠ []) as Hnil.
  { apply part_columns_nonempty; [done|]. eapply Forall_impl; [exact Hall|]. intros f [_ ->].
    apply lookup_lt_Some in Hi. rewrite length_app in Hi. exact Hi. }
  rewrite Hframes in Hnil |- *. destruct (decide (i < length (fr_Columns payload))%nat) as [Hlt|Hge].
  - rewrite lookup_app_l in Hi by done. assert (length (col_Cells c) = fr_NumRows payload) as Hcl.
    { rewrite Forall_forall in Hc. apply Hc. by eapply list_elem_of_lookup_2. }
    destruct (payload_column _ _ _ _ _ consumed i c Hch Hlen Hi Hcl) as [Ht Hcells].
    rewrite (concatenate_arrays (col_Type c)) by done. rewrite Hcells, drop_0. by destruct c.
  - rewrite lookup_app_r in Hi by lia. assert (is_Some (metadataFields !! (i - length (fr_Columns payload))%nat)) as [f Hj].
    { apply lookup_lt_is_Some. apply lookup_lt_Some in Hi. exact Hi. }
    destruct (metadata_part payload 0 sizes consumed _ f Hj) as [Ht Hm].
    replace (length (fr_Columns payload) + (i - length (fr_Columns payload)))%nat with i in * by lia.
    rewrite (concatenate_arrays (field_Type f)) by done. rewrite Hm in Hi. by injection Hi as <-.
Qed.

Lemma envelope_at payload metadata batch row m :
  payload_ok payload → withMetadata payload metadata = Ok batch → metadata !! row = Some m →
  blobKey batch row = meta_key m ∧ blobTimestamp batch row = meta_timestamp m ∧
  (headers_fit (meta_headers m) → headersAt (columnByName batch HeadersColumn) row = meta_headers m).
Proof.
  intros Hp Hb Hm. unfold blobKey, blobTimestamp.
  pose proof (columnByName_metadata payload _ batch 0 _ _ Hp Hb eq_refl eq_refl) as Hkey.
  pose proof (columnByName_metadata payload _ batch 1 _ _ Hp Hb eq_refl eq_refl) as Htime.
  pose proof (columnByName_metadata payload _ batch 4 _ _ Hp Hb eq_refl eq_refl) as Hhead.
  cbn [field_Name] in Hkey, Htime, Hhead. rewrite Hkey, Htime, Hhead.
  assert (∀ (g : rowMetadata → cell), map g metadata !! row = Some (g m)) as Hg.
  { intros g. change (map g) with (fmap (M:=list) g). by rewrite list_lookup_fmap, Hm. }
  unfold rowKey, rowTimestamp, headersAt, cell_at. cbn [col_Cells]. rewrite !Hg. cbn [default]. unfold id.
  split; [by destruct (meta_key m)|]. split; [done|]. intros Hh. by rewrite decodeHeaders_encodeHeaders.
Qed.

Lemma metas_lookup batch payload start sizes out consumed row :
  chunks serialize maxRecordBytes batch payload start sizes out → Forall2 fetched out consumed →
  (start ≤ row < fr_NumRows payload)%nat →
  ∃ r c, metas sizes consumed !! (row - start)%nat = Some (record_metadata c) ∧ c ∈ consumed ∧ fetched r c ∧
         same_envelope batch r row.
Proof.
  intros H. revert consumed. induction H as [start Hs|start n bs r sizes rest H1 H2 _ _ _ He _ IH]; intros consumed Hc Hrow; [lia|].
  inversion Hc as [|? c ? consumed' Hr Hrest]; subst. cbn [metas fst]. destruct (decide (row < start + n)%nat) as [Hlt|Hge].
  - exists r, c. rewrite lookup_app_l by (rewrite length_replicate; lia). rewrite lookup_replicate_2 by lia.
    split; [done|]. split; [apply list_elem_of_here|]. split; [done|]. apply He. lia.
  - destruct (IH consumed' Hrest ltac:(lia)) as (r' & c' & Hm & Hin & Hf & Hse). exists r', c'.
    rewrite lookup_app_r by (rewrite length_replicate; lia). rewrite length_replicate.
    replace (row - start - n)%nat with (row - (start + n))%nat by lia.
    split; [done|]. split; [by apply list_elem_of_further|]. done.
Qed.

Lemma same_envelope_fetched batch batch' r c row :
  fetched r c → same_envelope batch r row → blobKey batch' row = con_Key c → blobTimestamp batch' row = con_Timestamp c →
  headersAt (columnByName batch' HeadersColumn) row = con_Headers c → same_envelope batch (row_envelope batch' row) row.
Proof.
  intros (Hk & _ & Ht & Hh) (H1 & H2 & H3) Ek Et Eh. unfold same_envelope, row_envelope. cbn [pro_Key pro_Timestamp pro_Headers].
  by rewrite Ek, Et, Eh, Hk, Ht, Hh.
Qed.
End BlobRoundtrip.

(** C29: A batch survives the blob codec. Take a batch whose payload columns have its length and whose
    payload schema has no escape marks, and let its records go anywhere and be fetched in order. They decode to one batch
    with the payload of the first, schema and cells, and every row has the key, the timestamp and the headers it had,
    as the codec compares them. *)
Theorem blob_roundtrip {E} (serialize : frame → result E bytes) deserialize Schema_Equal Concatenate
    (laws : BlobLaws serialize deserialize Schema_Equal Concatenate) maxRecordBytes topic topic' batch out consumed :
  columns_ok (payloadOnly batch) → (0 < fr_NumRows batch)%nat →
  BlobCodec_Encode serialize maxRecordBytes topic batch = Ok out →
  Forall2 fetched out consumed → Forall (λ c, headers_fit (con_Headers c)) consumed →
  ∃ batch', BlobCodec_Decode deserialize Schema_Equal Concatenate topic' consumed = Ok batch' ∧
    payloadOnly batch' = payloadOnly batch ∧
    ∀ row, (row < fr_NumRows batch)%nat → same_envelope batch (row_envelope batch' row) row.
Proof.
  intros Hok Hrows He Hf Hh. unfold BlobCodec_Encode in He.
  apply encode_chunks_spec in He as (sizes & Hch); [|done|lia].
  assert (out ≠ []) as Hne by (inversion Hch; subst; [cbn in *; lia|done]).
  assert (length (metas sizes consumed) = fr_NumRows batch) as Hlen.
  { rewrite length_metas, (chunks_sizes _ _ _ _ _ _ _ Hch); [cbn; lia|].
    rewrite <- (Forall2_length _ _ _ Hf). clear -Hch. induction Hch; cbn; auto. }
  destruct (withMetadata (payloadOnly batch) (metas sizes consumed)) as [batch'|e] eqn:Hw.
  2:{ unfold withMetadata in Hw. rewrite bool_decide_true in Hw by (by rewrite Hlen). done. }
  exists batch'. split.
  - unfold BlobCodec_Decode. destruct consumed as [|c consumed]; [by inversion Hf; subst|].
    rewrite (annotate_parts serialize deserialize Schema_Equal Concatenate maxRecordBytes _ _ _ _ _ _ Hch Hf). cbn [rbind].
    by rewrite (concatenate_parts serialize deserialize Schema_Equal Concatenate maxRecordBytes _ _ _ _ _ Hok Hch Hf Hne), Hw.
  - split; [exact (payloadOnly_withMetadata _ _ _ (proj1 Hok) Hw)|]. intros row Hr.
    destruct (metas_lookup serialize maxRecordBytes batch _ 0 sizes out consumed row Hch Hf) as (r & c & Hm & Hin & Hfc & Hse); [cbn; lia|].
    rewrite Nat.sub_0_r in Hm. destruct (envelope_at _ _ _ _ _ (proj1 Hok) Hw Hm) as (Ek & Et & Eh).
    apply (same_envelope_fetched batch batch' r c); try done. apply Eh. rewrite Forall_forall in Hh. by apply Hh.
Qed.

(** ** Decompression is bounded *)

Section GzipFacts.
Context {E : Type} (NewReader : bytes → result E (bytes * option E)) (compress : bytes → bytes) (maximum : Z).

Lemma decompress_bounded data value :
  decompress NewReader maximum data = Ok value → zlen value ≤ maximum.
Proof.
  unfold decompress. intros (r & _ & (v & _ & H)%rbind_Ok)%rbind_Ok.
  destruct (Z.ltb_spec maximum (zlen v)); [done|]. injection H as <-. lia.
Qed.

Lemma decompress_compress value :
  NewReader (compress value) = Ok (value, None) →
  decompress NewReader maximum (compress value) =
    if maximum <? zlen value then Err (ExceedsUncompressed maximum) else Ok value.
Proof.
  intros H. unfold decompress, ReadAll_limited. rewrite H. cbn [rmap_err rbind fst snd].
  destruct (Z.ltb_spec (zlen value) (maximum + 1)); cbn [rmap_err rbind].
  - by destruct (Z.ltb_spec maximum (zlen value)).
  - assert (zlen (take (Z.to_nat (maximum + 1)) value) = Z.max 0 (maximum + 1)) as Hl.
    { unfold zlen in *. rewrite length_take. lia. }
    rewrite Hl. replace (maximum <? Z.max 0 (maximum + 1)) with true by lia.
    by replace (maximum <? zlen value) with true by lia.
Qed.

(** A long stream is cut off before any error behind the limit is seen. *)
Lemma decompress_cut data content e :
  NewReader data = Ok (content, e) → maximum < zlen content → decompress NewReader maximum data = Err (ExceedsUncompressed maximum).
Proof.
  intros H Hl. unfold decompress, ReadAll_limited. rewrite H. cbn [rmap_err rbind fst snd].
  replace (zlen content <? maximum + 1) with false by lia. cbn [rmap_err rbind].
  assert (zlen (take (Z.to_nat (maximum + 1)) content) = Z.max 0 (maximum + 1)) as Ht.
  { unfold zlen in *. rewrite length_take. lia. }
  rewrite Ht. by replace (maximum <? Z.max 0 (maximum + 1)) with true by lia.
Qed.
End GzipFacts.

(** A record as it is fetched from a partition and an offset. *)
Definition fetch_at (position : Z * Z) (r : ProduceRecord) : ConsumedRecord :=
  MkConsumed (pro_Key r) (pro_Value r) (pro_Timestamp r) position.1 position.2 (pro_Headers r).

(** The gzip codec is transparent, and bounds what it decompresses. The records that it encodes decode, from
    any positions, as the records of the wrapped codec would, when no value is longer than the limit; whatever the
    bytes of a record are, a value that is handed on has the limit at most, and a stream that yields more is refused
    whatever follows in it. *)
Theorem gzip_codec {E} (delegate_Decode : bytes → list ConsumedRecord → result (codec_error E) frame)
    (delegate_Encode : bytes → frame → result (codec_error E) (list ProduceRecord))
    (NewReader : bytes → result E (bytes * option E)) compress maximum topic topic' batch records :
  (∀ value, NewReader (compress value) = Ok (value, None)) →
  delegate_Encode topic batch = Ok records →
  Forall (λ r, ∃ value, pro_Value r = Some value ∧ zlen value ≤ maximum) records →
  (∃ zipped, Gzip_Encode delegate_Encode compress topic batch = Ok zipped ∧
     ∀ positions, Gzip_Decode delegate_Decode NewReader maximum topic' (zip_with fetch_at positions zipped) =
                  delegate_Decode topic' (zip_with fetch_at positions records)) ∧
  (∀ data value, decompress NewReader maximum data = Ok value → zlen value ≤ maximum) ∧
  (∀ data content e, NewReader data = Ok (content, e) → maximum < zlen content →
     decompress NewReader maximum data = Err (ExceedsUncompressed maximum)).
Proof.
  intros Hz Hd Hm. split; [|split; [apply decompress_bounded|apply decompress_cut]].
  unfold Gzip_Encode. rewrite Hd. cbn [rbind]. eexists. split; [reflexivity|]. intros positions. unfold Gzip_Decode.
  erewrite map_results_ok; [reflexivity|]. clear Hd. revert positions.
  induction Hm as [|r records (value & Hv & Hl) _ IH]; intros [|p positions]; cbn [map zip_with]; constructor; [|apply IH].
  cbn [fetch_at con_Value pro_Value]. rewrite Hv. cbn [default]. unfold id. rewrite decompress_compress by done.
  replace (maximum <? zlen value) with false by lia. unfold fetch_at. cbn. by rewrite Hv.
Qed.

(** ** Concrete codecs *)

(** Rows of one binary column, and an Arrow stream for frames of one column of booleans. *)
Definition demo_field : field := MkField (str "v") TBinary true [].

Definition demo_RowsToBatch (rows : list bytes) : result unit frame :=
  Ok (MkFrame [demo_field] [MkColumn TBinary (map CBin rows)] (length rows)).

Definition demo_BatchToRows (batch : frame) : result unit (list bytes) :=
  match fr_Columns batch with
  | [c] => Ok (map (λ c, match c with CBin s => s | _ => [] end) (col_Cells c))
  | _ => Err tt
  end.

Lemma demo_field_ok name t : isReserved name = false → field_ok (MkField name t true []).
Proof. intros H. split; [apply not_elem_of_nil|]. cbn. congruence. Qed.

Lemma demo_bridge : RowBridgeLaws demo_RowsToBatch demo_BatchToRows.
Proof.
  split; intros rows payload [= <-].
  - split; [done|]. constructor; [|done]. by apply demo_field_ok.
  - unfold demo_BatchToRows. cbn. by rewrite map_map, map_id.
Qed.

Definition demo_records : list ConsumedRecord :=
  [MkConsumed (Some (str "k")) (Some (str "a")) 10 0 5 [MkHeader (str "h") None];
   MkConsumed None (Some (str "b")) 11 0 6 []].

Lemma row_codec_roundtrip_witness :
  ∃ batch, RowCodec_Decode (λ _ data, @Ok unit _ (default [] data)) demo_RowsToBatch (str "t") demo_records = Ok batch ∧
    RowCodec_Encode (λ _ v, @Ok unit _ (Some v)) demo_BatchToRows (str "t") batch =
      Ok [MkProduce (Some (str "k")) (Some (str "a")) 10 [MkHeader (str "h") None]; MkProduce None (Some (str "b")) 11 []].
Proof.
  eexists. split; [reflexivity|].
  destruct (row_codec_roundtrip (λ _ v, @Ok unit _ (Some v)) (λ _ data, @Ok unit _ (default [] data)) _ _ demo_bridge
    (str "t") (str "t") demo_records _ ltac:(repeat constructor; by_decide) eq_refl) as (values & Hv & ->).
  inversion Hv as [|? v1 ? ? H1 Hv1]; subst. inversion Hv1 as [|? v2 ? ? H2 Hv2]; subst. inversion Hv2; subst.
  cbn in H1, H2. injection H1 as <-. injection H2 as <-. reflexivity.
Defined.

Definition bool_cell (b : byte) : option cell :=
  match b with x00 => Some (CBool false) | x01 => Some (CBool true) | x02 => Some CNull | _ => None end.

Definition bool_byte (c : cell) : option byte :=
  match c with CBool false => Some x00 | CBool true => Some x01 | CNull => Some x02 | _ => None end.

Definition flag_field : field := MkField (str "flag") TBoolean true [].

Definition demo_serialize (f : frame) : result unit bytes :=
  match f with
  | MkFrame [MkField name TBoolean true []] [MkColumn TBoolean cells] n =>
      if decide (name = str "flag" ∧ n = length cells) then
        map_results (λ c, match bool_byte c with Some b => Ok b | None => Err tt end) cells
      else Err tt
  | _ => Err tt
  end.

Definition demo_deserialize (bs : bytes) : result unit frame :=
  let* cells := map_results (λ b, match bool_cell b with Some c => Ok c | None => Err tt end) bs in
  Ok (MkFrame [flag_field] [MkColumn TBoolean cells] (length cells)).

Definition demo_Concatenate (parts : list column) : option column :=
  match parts with [] => None | c :: _ => Some (MkColumn (col_Type c) (concat (map col_Cells parts))) end.

Lemma demo_ipc f bs : demo_serialize f = Ok bs → demo_deserialize bs = Ok f.
Proof.
  unfold demo_serialize. intros H. repeat (case_match; try discriminate H). destruct a as [-> ->]. subst.
  unfold demo_deserialize. apply map_results_inv in H. erewrite map_results_ok; [cbn [rbind]; reflexivity|].
  apply Forall2_flip. eapply Forall2_impl; [exact H|]. intros c b Hc. destruct c; try discriminate Hc.
  - by injection Hc as <-.
  - by destruct b0; injection Hc as <-.
Qed.

Lemma demo_blob_laws : BlobLaws demo_serialize demo_deserialize (λ _ _, true) demo_Concatenate.
Proof.
  split; [exact demo_ipc|done|]. intros t [|c parts] Hne Ht; [done|]. apply Forall_cons in Ht as [<- _]. done.
Qed.

(** Four flags: two rows of one envelope, and two of another. *)
Definition demo_payload : frame := MkFrame [flag_field] [MkColumn TBoolean [CBool true; CBool false; CNull; CBool true]] 4.
Definition demo_meta (key : option bytes) : rowMetadata := MkMetadata key 7 0 0 [].
Definition demo_metadata : list rowMetadata :=
  [demo_meta (Some (str "a")); demo_meta (Some (str "a")); demo_meta None; demo_meta None].
Definition demo_batch : frame := match withMetadata demo_payload demo_metadata with Ok b => b | Err _ => demo_payload end.
Definition demo_encoded : list ProduceRecord :=
  [MkProduce (Some (str "a")) (Some [x01; x00]) 7 []; MkProduce None (Some [x02; x01]) 7 []].

Lemma demo_columns_ok : columns_ok (payloadOnly demo_batch).
Proof.
  replace (payloadOnly demo_batch) with demo_payload by reflexivity.
  repeat split; repeat constructor; try done. by apply not_elem_of_nil.
Qed.

Lemma blob_roundtrip_witness :
  BlobCodec_Encode demo_serialize 100 (str "t") demo_batch = Ok demo_encoded ∧
  ∃ batch', BlobCodec_Decode demo_deserialize (λ _ _, true) demo_Concatenate (str "t")
              (zip_with fetch_at [(0, 1); (0, 2)] demo_encoded) = Ok batch' ∧ payloadOnly batch' = payloadOnly demo_batch.
Proof.
  split; [vm_compute; reflexivity|].
  destruct (blob_roundtrip demo_serialize demo_deserialize (λ _ _, true) demo_Concatenate demo_blob_laws 100 (str "t") (str "t")
    demo_batch demo_encoded (zip_with fetch_at [(0, 1); (0, 2)] demo_encoded)) as (batch' & H1 & H2 & _).
  - exact demo_columns_ok.
  - vm_compute. lia.
  - vm_compute. reflexivity.
  - repeat constructor.
  - repeat constructor; by_decide.
  - by exists batch'.
Defined.

Lemma gzip_codec_witness :
  Gzip_Decode (λ _ records, @BlobCodec_Decode unit demo_deserialize (λ _ _, true) demo_Concatenate (str "t") records)
    (λ data, Ok (drop 1 data, None)) 2 (str "t")
    (zip_with fetch_at [(0, 1); (0, 2)] (map (λ r, MkProduce (pro_Key r) (Some (x1f :: default [] (pro_Value r))) (pro_Timestamp r)
       (pro_Headers r)) demo_encoded)) =
  BlobCodec_Decode demo_deserialize (λ _ _, true) demo_Concatenate (str "t") (zip_with fetch_at [(0, 1); (0, 2)] demo_encoded).
Proof.
  destruct (gzip_codec (λ _ records, @BlobCodec_Decode unit demo_deserialize (λ _ _, true) demo_Concatenate (str "t") records)
    (λ _ _, Ok demo_encoded) (λ data, Ok (drop 1 data, None)) (cons x1f) 2 (str "t") (str "t") demo_batch demo_encoded)
    as ((zipped & Hz & H) & _); [done|done| |].
  - repeat constructor; eexists; (split; [reflexivity|by_decide]).
  - injection Hz as <-. exact (H [(0, 1); (0, 2)]).
Defined.

(** An empty key and a missing one count as one envelope: both rows travel in one record, under the key of the last. *)
Lemma empty_key_becomes_null :
  let batch := withMetadata (MkFrame [flag_field] [MkColumn TBoolean [CBool true; CBool false]] 2) [demo_meta (Some []); demo_meta None] in
  match batch with
  | Ok batch => BlobCodec_Encode demo_serialize 100 (str "t") batch = Ok [MkProduce None (Some [x01; x00]) 7 []]
  | Err _ => False
  end.
Proof. vm_compute. reflexivity. Qed.
