(* ===== verification/Ipc.v ===== *)
(** * The Arrow IPC serde, from columnar/ipc.go

    One batch as an Arrow IPC stream, over the writer and the reader of the Arrow library, which are a class of operations. The blob
    codec of [Codecs] takes both directions as arguments; [ipc_blob_laws] gives them to it. *)

From S2P Require Import Prelude GoStd Kafka Value Cells Frames Codecs.

(** [ipc.NewWriter] for a schema, [Write] and [Close] with what the output holds afterwards, and the reader: [Next] moves to a batch
    if there is one, [reader_Err] is the error that it ended in. *)
Class ArrowIPC := {
  ipc_fault : Type;
  ipc_writer : Type;
  ipc_reader : Type;
  NewWriter : list field → ipc_writer;
  Write : frame → io ipc_writer ipc_fault unit;
  Close : io ipc_writer ipc_fault unit;
  output : ipc_writer → bytes;
  NewReader : bytes → result ipc_fault ipc_reader;
  Next : ipc_reader → bool * ipc_reader;
  reader_Err : ipc_reader → option ipc_fault;
  RecordBatch : ipc_reader → frame;
}.

Section Serde.
Context {I : ArrowIPC}.

Inductive ipc_error := CannotWrite (e : ipc_fault) | CannotRead (e : ipc_fault) | NoRecordBatch.

(** After a failed write the writer is closed and the result of that is dropped. *)
Definition serialize (batch : frame) : result ipc_error bytes :=
  let '(written, writer) := Write batch (NewWriter (fr_Fields batch)) in
  match written with
  | Err e => let _ := Close writer in Err (CannotWrite e)
  | Ok _ =>
      match Close writer with
      | (Err e, _) => Err (CannotWrite e)
      | (Ok _, writer) => Ok (output writer)
      end
  end.

Definition deserialize (data : bytes) : result ipc_error frame :=
  let* reader := rmap_err CannotRead (NewReader data) in
  let '(more, reader) := Next reader in
  if more then Ok (RecordBatch reader)
  else match reader_Err reader with Some e => Err (CannotRead e) | None => Err NoRecordBatch end.

(** What the Arrow library documents: the stream of a batch that was written and closed starts with that batch. *)
Class IPCLaws : Prop := {
  stream_reads batch writer writer' :
    Write batch (NewWriter (fr_Fields batch)) = (Ok tt, writer) → Close writer = (Ok tt, writer') →
    ∃ reader reader', NewReader (output writer') = Ok reader ∧ Next reader = (true, reader') ∧ RecordBatch reader' = batch
}.

Lemma stream_roundtrip {laws : IPCLaws} batch data : serialize batch = Ok data → deserialize data = Ok batch.
Proof.
  unfold serialize, deserialize. destruct (Write _ _) as [[[]|e] writer] eqn:Hw; [|done].
  destruct (Close writer) as [[[]|e] writer'] eqn:Hc; [|done]. intros [= <-].
  destruct (stream_reads _ _ _ Hw Hc) as (reader & reader' & -> & Hn & <-). cbn [rmap_err rbind]. by rewrite Hn.
Qed.

(** The serde gives back what it was given, a nil batch as nil, whatever the topics; and the blob codec can use it. *)
Theorem ipc_serde_roundtrip {laws : IPCLaws} topic topic' batch data :
  IPCSerde_Serialize serialize topic batch = Ok data →
  IPCSerde_Deserialize deserialize topic' data = Ok batch ∧ (data = None ↔ batch = None).
Proof.
  destruct batch as [batch|]; cbn; [|by intros [= <-]]. intros (bytes & Hs & [= <-])%rbind_Ok. cbn.
  by rewrite (stream_roundtrip _ _ Hs).
Qed.

Lemma ipc_blob_laws {laws : IPCLaws} Schema_Equal Concatenate :
  (∀ fs, Schema_Equal fs fs = true) →
  (∀ t parts, parts ≠ [] → Forall (λ c, col_Type c = t) parts → Concatenate parts = Some (MkColumn t (concat (map col_Cells parts)))) →
  BlobLaws serialize deserialize Schema_Equal Concatenate.
Proof. intros Hs Hc. split; [apply stream_roundtrip|done|done]. Qed.

End Serde.

(** A stream of the flags of [Codecs]: the writer keeps the text, or the failure. *)
#[local] Instance flag_ipc : ArrowIPC := {|
  ipc_fault := unit;
  ipc_writer := bytes;
  ipc_reader := list frame * option frame;
  NewWriter _ := [];
  Write batch _ := match demo_serialize batch with Ok bs => (Ok tt, bs) | Err e => (Err e, []) end;
  Close w := (Ok tt, w);
  output w := w;
  NewReader data := let* batch := demo_deserialize data in Ok ([batch], None);
  Next r := match r with ([], _) => (false, r) | (batch :: rest, _) => (true, (rest, Some batch)) end;
  reader_Err _ := None;
  RecordBatch r := default (MkFrame [] [] 0) r.2;
|}.

#[local] Instance flag_laws : IPCLaws.
Proof.
  split. intros batch writer writer'. cbn. destruct (demo_serialize batch) as [bs|e] eqn:Hs; [|done]. intros [= <-] [= <-].
  rewrite (demo_ipc _ _ Hs). cbn [rbind]. by eexists _, _.
Qed.

Lemma ipc_serde_roundtrip_witness :
  IPCSerde_Deserialize deserialize (str "t") (Some [x01; x00; x02; x01]) = Ok (Some demo_payload) ∧
  IPCSerde_Deserialize deserialize (str "t") None = Ok None.
Proof. split; by apply (ipc_serde_roundtrip (str "t") (str "t")). Defined.
