(* ===== verification/Ops.v ===== *)
(** * Built-in operators, from columnar/ops.go

    The stateless operators (filter, select, derived columns) and cumulative grouping, with its windows, its
    retention, and its snapshots. The state of a grouping is threaded through [apply] as the source mutates it,
    so a failed call leaves what it had changed so far. *)

From Stdlib Require Import QArith.QArith QArith.Qreduction.
From S2P Require Import Prelude GoStd GoFloat Kafka Value Cells Frames.

#[local] Open Scope Z_scope.

(** ** Stateless operators *)

(** [Panic] stands for an index out of range, a nil map entry and a failed type assertion. *)
Inductive op_error (E : Type) :=
| UserError (e : E)
| OpFrame (e : frame_error)
| OpValue (e : value_error)
| GroupByNoKeys
| ColumnMissing (name : bytes)
| WindowColumnExists
| NullEventTime (row : nat)
| CannotSnapshot (e : value_error)
| UnsupportedSnapshot
| CannotRestore (e : value_error)
| TrailingSnapshot
| StatelessRestore
| OpPanic.
Arguments UserError {E} e.
Arguments OpFrame {E} e.
Arguments OpValue {E} e.
Arguments GroupByNoKeys {E}.
Arguments ColumnMissing {E}.
Arguments WindowColumnExists {E}.
Arguments NullEventTime {E}.
Arguments CannotSnapshot {E} e.
Arguments UnsupportedSnapshot {E}.
Arguments CannotRestore {E} e.
Arguments TrailingSnapshot {E}.
Arguments StatelessRestore {E}.
Arguments OpPanic {E}.

Definition WindowStartColumn := str "__window_start".
Definition WindowEndColumn := str "__window_end".

Section Stateless.
Context {L : ArrowLib} {E : Type}.

Definition rows_of (batch : frame) : list nat := seq 0 (fr_NumRows batch).

Definition Filter (predicate : frame → nat → bool) (batch : frame) : result (op_error E) frame :=
  rmap_err OpFrame (copyRows batch (filter (λ row, predicate batch row = true) (rows_of batch))).

Definition Select (requested : list bytes) (batch : frame) : result (op_error E) frame :=
  rmap_err OpFrame (selectColumns batch
    (requested ++ filter (λ reserved, is_Some (columnByName batch reserved)) reservedColumns)).

Record DerivedColumn := MkDerived { der_Field : field; der_Value : frame → nat → result E value }.

(** [expressions] and [replacements]: of several columns of one name the last one counts. *)
Fixpoint last_derived (name : bytes) (derived : list DerivedColumn) : option DerivedColumn :=
  match derived with
  | [] => None
  | c :: derived =>
      match last_derived name derived with
      | Some c' => Some c'
      | None => if decide (field_Name (der_Field c) = name) then Some c else None
      end
  end.

(** The fields that are appended: the first of a name that is not there yet. *)
Fixpoint appended_fields (appended : list bytes) (derived : list DerivedColumn) : list field :=
  match derived with
  | [] => []
  | c :: derived =>
      let name := field_Name (der_Field c) in
      if decide (name ∈ appended) then appended_fields appended derived
      else der_Field c :: appended_fields (name :: appended) derived
  end.

Definition derived_fields (batch : frame) (derived : list DerivedColumn) : list field :=
  map (λ f, match last_derived (field_Name f) derived with Some c => der_Field c | None => f end) (fr_Fields batch) ++
  appended_fields (map field_Name (fr_Fields batch)) derived.

Definition derive_column (batch : frame) (derived : list DerivedColumn) (f : field) : result (op_error E) column :=
  match last_derived (field_Name f) derived with
  | None => match columnByName batch (field_Name f) with Some source => Ok source | None => Err OpPanic end
  | Some c =>
      let* cells := map_results
        (λ row, let* v := rmap_err UserError (der_Value c batch row) in
                rmap_err (λ e, OpFrame (CellError e)) (appendGoValue (field_Type f) v)) (rows_of batch) in
      Ok (MkColumn (field_Type f) cells)
  end.

Definition applyDerivedColumns (derived : list DerivedColumn) (batch : frame) : result (op_error E) frame :=
  let fields := derived_fields batch derived in
  let* columns := map_results (derive_column batch derived) fields in
  Ok (MkFrame fields columns (fr_NumRows batch)).

Definition WithColumns (columns : list DerivedColumn) : result (op_error E) (frame → result (op_error E) frame) :=
  let* _ := rmap_err OpFrame (rejectReservedPayloadColumns (map (λ c, field_Name (der_Field c)) columns)) in
  Ok (applyDerivedColumns columns).
End Stateless.

(** ** Aggregates *)

Inductive AggregateFunction := Count | Sum | Min | Max | UnknownFunction.

Record Aggregation := MkAggregation {
  agg_InputColumn : bytes;
  agg_OutputColumn : bytes;
  agg_Function : AggregateFunction;
  agg_OutputType : option data_type
}.

Definition sumFloat (current : value) : Z := match current with VFloat64 bits => bits | _ => 0 end.

Definition accumulate {E} (current : value) (function : AggregateFunction) (next : value) : result (op_error E) value :=
  match function with
  | Count =>
      match current with
      | VNil => Ok (VInt KInt64 1)
      | VInt KInt64 count => if decide (count = MaxInt64) then Err (OpValue CountOverflow) else Ok (VInt KInt64 (count + 1))
      | _ => Err OpPanic
      end
  | Sum =>
      match next with
      | VNil => Ok current
      | VFloat32 bits | VFloat64 bits => Ok (VFloat64 (float_add (sumFloat current) bits))
      | VRat q => Ok (VRat (Qred ((match current with VRat a => a | _ => inject_Z 0 end) + q)))
      | _ =>
          let* number := rmap_err OpValue (exactBigInt next) in
          Ok (VBigInt ((match current with VBigInt a => a | _ => 0 end) + number))
      end
  | Min =>
      match next, current with
      | VNil, _ => Ok current
      | _, VNil => Ok next
      | _, _ =>
          let* comparison := rmap_err OpValue (compareValues current next) in
          if comparison <=? 0 then Ok current else Ok next
      end
  | Max =>
      match next, current with
      | VNil, _ => Ok current
      | _, VNil => Ok next
      | _, _ =>
          let* comparison := rmap_err OpValue (compareValues current next) in
          if 0 <=? comparison then Ok current else Ok next
      end
  | UnknownFunction => Err (OpValue Value.UnknownFunction)
  end.

Definition finishedAggregate (v : value) : value := v.

Definition aggregateField (a : Aggregation) (inputType : data_type) : field :=
  MkField (agg_OutputColumn a)
    (match agg_OutputType a with
     | Some t => t
     | None => match agg_Function a with Count => TInt I64 | _ => inputType end
     end) true [].

(** ** Grouping *)

Record groupEntry := MkEntry { keyParts : list value; aggregates : list value }.

(** The options of an operation, and what it keeps. A nil map of groups is the empty map. *)
Record group_config := MkGroupBy {
  gb_keys : list bytes;
  gb_aggregations : list Aggregation;
  gb_windowMillis : Z;
  gb_retentionMillis : Z
}.

Record groupByOperation := MkGroups {
  gb_groups : gmap bytes groupEntry;
  gb_order : list bytes;
  gb_streamTime : Z
}.

Definition fresh_groups : groupByOperation := MkGroups ∅ [] MinInt64.

Definition GroupBy (keys : list bytes) (aggregations : list Aggregation) : group_config := MkGroupBy keys aggregations 0 0.

Inductive window_error := WindowTooShort | RetentionTooShort.

Definition WindowedGroupByWithRetention (keys : list bytes) (windowSize retention : Duration) (aggregations : list Aggregation)
    : result window_error group_config :=
  let windowMillis := Milliseconds windowSize in
  let retentionMillis := Milliseconds retention in
  check! negb (windowMillis <? 1) else WindowTooShort in
  check! negb (retentionMillis <? windowMillis) else RetentionTooShort in
  Ok (MkGroupBy keys aggregations windowMillis retentionMillis).

Definition WindowedGroupBy (keys : list bytes) (windowSize : Duration) (aggregations : list Aggregation)
    : result window_error group_config :=
  WindowedGroupByWithRetention keys windowSize windowSize aggregations.

Section GroupBy.
Context {L : ArrowLib} {E : Type} (o : group_config).

Abbreviation step A := (io groupByOperation (op_error E) A).

Definition windowed : bool := 0 <? gb_windowMillis o.

(** [keyParts[windowEndIndex].(int64)]: a part of another type counts as zero. *)
Definition window_end (entry : groupEntry) : result (op_error E) Z :=
  match keyParts entry !! (length (gb_keys o) + 1)%nat with
  | Some (VInt KInt64 n) => Ok n
  | Some _ => Ok 0
  | None => Err OpPanic
  end.

Fixpoint prune_loop (cutoff : Z) (order : list bytes) (groups : gmap bytes groupEntry) (kept : list bytes)
    : result (op_error E) (gmap bytes groupEntry * list bytes) :=
  match order with
  | [] => Ok (groups, kept)
  | encoded :: order =>
      match groups !! encoded with
      | None => Err OpPanic
      | Some entry =>
          let* windowEnd := window_end entry in
          if windowEnd <? cutoff then prune_loop cutoff order (delete encoded groups) kept
          else prune_loop cutoff order groups (kept ++ [encoded])
      end
  end.

Definition cutoff_of (streamTime : Z) : Z := saturatingSubtract streamTime (gb_retentionMillis o).

Definition pruneExpired : step Z := λ st,
  if (gb_windowMillis o =? 0) || (gb_streamTime st =? MinInt64) then (Ok MinInt64, st)
  else
    let cutoff := cutoff_of (gb_streamTime st) in
    match prune_loop cutoff (gb_order st) (gb_groups st) [] with
    | Ok (groups, kept) => (Ok cutoff, MkGroups groups kept (gb_streamTime st))
    | Err e => (Err e, st)
    end.

(** The column of event times, the stream time that the batch reaches, and the check for window columns. *)
Definition int64_cells (c : column) : list Z :=
  omap (λ c, match c with CInt n => Some n | _ => None end) (col_Cells c).

Definition set_streamTime (t : Z) (st : groupByOperation) : groupByOperation := MkGroups (gb_groups st) (gb_order st) t.

Definition event_times (batch : frame) : step (option column) := λ st,
  if windowed then
    match columnByName batch TimestampColumn with
    | Some (MkColumn (TInt I64) cells) =>
        let st := set_streamTime (foldl Z.max (gb_streamTime st) (int64_cells (MkColumn (TInt I64) cells))) st in
        if bool_decide (is_Some (columnByName batch WindowStartColumn)) || bool_decide (is_Some (columnByName batch WindowEndColumn))
        then (Err WindowColumnExists, st) else (Ok (Some (MkColumn (TInt I64) cells)), st)
    | _ => (Err (ColumnMissing TimestampColumn), st)
    end
  else (Ok None, st).

Definition find_columns (batch : frame) (names : list bytes) : result (op_error E) (list column) :=
  map_results (λ name, match columnByName batch name with Some c => Ok c | None => Err (ColumnMissing name) end) names.

Definition value_at (row : nat) (c : column) : value := arrowValue (col_Type c) (cell_at c row).

(** The start and the end of the window of a row. *)
Definition window_parts (timestamp : Z) : Z * Z :=
  let start := int64 (floorDiv timestamp (gb_windowMillis o) * gb_windowMillis o) in
  (start, int64 (start + gb_windowMillis o)).

(** The parts of the key of a row, or nothing for a row of an expired window. *)
Definition row_parts (keyVectors : list column) (timestamps : option column) (retainedAfter : Z) (row : nat)
    : result (op_error E) (option (list value)) :=
  let parts := map (value_at row) keyVectors in
  match timestamps with
  | None => Ok (Some parts)
  | Some timestamps =>
      match cell_at timestamps row with
      | CInt timestamp =>
          let window := window_parts timestamp in
          if window.2 <? retainedAfter then Ok None
          else Ok (Some (parts ++ [VInt KInt64 window.1; VInt KInt64 window.2]))
      | _ => Err (NullEventTime row)
      end
  end.

(** The entry of a key, made when it is new. *)
Definition touch (encoded : bytes) (parts : list value) (st : groupByOperation) : groupByOperation :=
  match gb_groups st !! encoded with
  | Some _ => st
  | None => MkGroups (<[encoded := MkEntry parts (replicate (length (gb_aggregations o)) VNil)]> (gb_groups st))
                     (gb_order st ++ [encoded]) (gb_streamTime st)
  end.

Definition set_aggregate (encoded : bytes) (index : nat) (v : value) (st : groupByOperation) : groupByOperation :=
  MkGroups (alter (λ entry, MkEntry (keyParts entry) (<[index := v]> (aggregates entry))) encoded (gb_groups st))
           (gb_order st) (gb_streamTime st).

Fixpoint aggregate_row (encoded : bytes) (index : nat) (aggregations : list Aggregation) (inputs : list value) : step unit :=
  match aggregations, inputs with
  | a :: aggregations, next :: inputs => λ st,
      match (entry ← gb_groups st !! encoded; aggregates entry !! index) with
      | None => (Err OpPanic, st)
      | Some current =>
          match accumulate current (agg_Function a) next with
          | Err e => (Err e, st)
          | Ok accumulated => aggregate_row encoded (S index) aggregations inputs (set_aggregate encoded index accumulated st)
          end
      end
  | _, _ => io_ret tt
  end.

Definition apply_row (keyVectors inputVectors : list column) (timestamps : option column) (retainedAfter : Z) (row : nat) : step unit :=
  do* parts := io_lift (row_parts keyVectors timestamps retainedAfter row) in
  match parts with
  | None => io_ret tt
  | Some parts =>
      do* encoded := io_lift (rmap_err OpValue (encodeKeyParts parts)) in
      λ st, aggregate_row encoded 0 (gb_aggregations o) (map (value_at row) inputVectors) (touch encoded parts st)
  end.

Fixpoint apply_rows (keyVectors inputVectors : list column) (timestamps : option column) (retainedAfter : Z) (rows : list nat)
    : step unit :=
  match rows with
  | [] => io_ret tt
  | row :: rows =>
      do* _ := apply_row keyVectors inputVectors timestamps retainedAfter row in
      apply_rows keyVectors inputVectors timestamps retainedAfter rows
  end.

Definition output_fields (batch : frame) (inputVectors : list column) : list field :=
  omap (λ name, fst <$> field_at batch name) (gb_keys o) ++
  (if windowed then [MkField WindowStartColumn (TInt I64) false []; MkField WindowEndColumn (TInt I64) false []] else []) ++
  zip_with aggregateField (gb_aggregations o) (map col_Type inputVectors).

(** One row of the output: the parts of the key, then the aggregates. *)
Definition output_row (types : list data_type) (entry : groupEntry) : result (op_error E) (list cell) :=
  let values := keyParts entry ++ map finishedAggregate (take (length (gb_aggregations o)) (aggregates entry)) in
  if decide (length values = length types) then
    map_results (λ tv, rmap_err (λ e, OpFrame (CellError e)) (appendGoValue tv.1 tv.2)) (zip types values)
  else Err OpPanic.

Definition output_frame (fields : list field) (st : groupByOperation) : result (op_error E) frame :=
  let* rows := map_results
    (λ encoded, match gb_groups st !! encoded with
                | Some entry => output_row (map field_Type fields) entry
                | None => Err OpPanic
                end) (gb_order st) in
  Ok (MkFrame fields
        (zip_with (λ i f, MkColumn (field_Type f) (map (λ row, default CNull (row !! i)) rows)) (seq 0 (length fields)) fields)
        (length rows)).

Definition apply (batch : frame) : step frame :=
  if decide (gb_keys o = []) then io_fail GroupByNoKeys
  else
    do* timestamps := event_times batch in
    do* retainedAfter := pruneExpired in
    do* keyVectors := io_lift (find_columns batch (gb_keys o)) in
    do* inputVectors := io_lift (find_columns batch (map agg_InputColumn (gb_aggregations o))) in
    do* _ := apply_rows keyVectors inputVectors timestamps retainedAfter (rows_of batch) in
    λ st, (output_frame (output_fields batch inputVectors) st, st).

(** ** Snapshots *)

Definition groupSnapshotVersion : byte := x01.

Definition sized_values (values : list value) : result (op_error E) bytes :=
  rmap_err CannotSnapshot (encode_parts (be_encode 4 (uint32 (zlen values))) values).

Fixpoint snapshot_groups (buffer : bytes) (groups : gmap bytes groupEntry) (order : list bytes) : result (op_error E) bytes :=
  match order with
  | [] => Ok buffer
  | encoded :: order =>
      match groups !! encoded with
      | None => Err OpPanic
      | Some entry =>
          let* parts := sized_values (keyParts entry) in
          let* values := sized_values (aggregates entry) in
          snapshot_groups (buffer ++ parts ++ values) groups order
      end
  end.

Definition snapshot (st : groupByOperation) : result (op_error E) bytes :=
  snapshot_groups (groupSnapshotVersion :: be_encode 8 (uint64 (gb_streamTime st)) ++ be_encode 4 (uint32 (zlen (gb_order st))))
    (gb_groups st) (gb_order st).

Definition read_values : reader value_error (list value) :=
  read* count := snapshot_reader valueReader_uint32 in
  read_list (Z.to_nat count) (valueReader_value Rat_SetString).

(** One group: its parts, its aggregates, and the key that the parts encode to. *)
Definition read_group : reader value_error (bytes * groupEntry) :=
  read* parts := read_values in
  read* values := read_values in
  match encodeKeyParts parts with
  | Ok encoded => rret (encoded, MkEntry parts values)
  | Err e => rfail e
  end.

Definition restore (data : bytes) : step unit := λ st,
  match valueReader_byte data with
  | Ok (version, rest) =>
      if decide (version = groupSnapshotVersion) then
        match (read* streamTime := snapshot_reader valueReader_uint64 in
               read* groupCount := snapshot_reader valueReader_uint32 in
               read* entries := read_list (Z.to_nat groupCount) read_group in
               rret (streamTime, entries)) rest with
        | Err e => (Err (CannotRestore e), st)
        | Ok (_, _ :: _) => (Err TrailingSnapshot, st)
        | Ok (restored, []) =>
            (Ok tt, MkGroups (fold_left (λ m e, <[e.1 := e.2]> m) restored.2 ∅) (map fst restored.2) (int64 restored.1))
        end
      else (Err UnsupportedSnapshot, st)
  | Err _ => (Err UnsupportedSnapshot, st)
  end.
End GroupBy.

(** ** Operators as processors *)

Section BuiltinOp.
Context {L : ArrowLib} {E : Type}.

Inductive builtinOperation :=
| statelessOperation (f : frame → result (op_error E) frame)
| Grouping (o : group_config) (st : groupByOperation).

(** [Process] forwards one batch. *)
Definition BuiltinOp_Process (batch : frame) : io builtinOperation (op_error E) (list frame) := λ op,
  match op with
  | statelessOperation f => ((let* output := f batch in Ok [output]), op)
  | Grouping o st => let '(r, st) := apply o batch st in ((let* output := r in Ok [output]), Grouping o st)
  end.

(** A stateless operator has a nil snapshot. *)
Definition BuiltinOp_Snapshot (op : builtinOperation) : result (op_error E) (option bytes) :=
  match op with
  | statelessOperation _ => Ok None
  | Grouping o st => let* data := snapshot st in Ok (Some data)
  end.

Definition BuiltinOp_Restore (data : bytes) : io builtinOperation (op_error E) unit := λ op,
  match op with
  | statelessOperation _ => ((if decide (data = []) then Ok tt else Err StatelessRestore), op)
  | Grouping o st => let '(r, st) := restore data st in (r, Grouping o st)
  end.
End BuiltinOp.
