(* ===== verification/OpsFacts.v ===== *)
(** * Cumulative grouping against its specification

    The reference is the fold of the aggregates over the rows of each key; the state of a grouping is that fold, cut
    down to the windows that are still retained. Snapshots restore it. *)

From Stdlib Require Import QArith.QArith QArith.Qreduction.
From S2P Require Import Prelude GoStd GoFloat Kafka Value Cells Frames Ops.

#[local] Open Scope Z_scope.

(** ** The reference *)

(** A row of a batch: the key it encodes to, its key parts with its window, and the inputs of the aggregates. *)
Record event := MkEvent { ev_key : bytes; ev_parts : list value; ev_inputs : list value }.

Section Reference.
Context {L : ArrowLib} {E : Type} (o : group_config).

Definition acc_row (current inputs : list value) : result (op_error E) (list value) :=
  map_results (λ x, accumulate x.1.2 (agg_Function x.1.1) x.2) (zip (zip (gb_aggregations o) current) inputs).

Definition fold_rows (rows : list (list value)) : result (op_error E) (list value) :=
  foldl (λ r inputs, let* current := r in acc_row current inputs) (Ok (replicate (length (gb_aggregations o)) VNil)) rows.

Definition rows_with (key : bytes) (es : list event) : list event := filter (λ e, ev_key e = key) es.

(** The group of a key: the parts of its first row, and the fold over all its rows. *)
Definition reference (es : list event) (key : bytes) : option groupEntry :=
  match rows_with key es with
  | [] => None
  | e :: _ =>
      match fold_rows (map ev_inputs (rows_with key es)) with
      | Ok values => Some (MkEntry (ev_parts e) values)
      | Err _ => None
      end
  end.

(** The keys in the order of their first appearance. *)
Definition firsts (keys : list bytes) : list bytes := foldl (λ acc k, if decide (k ∈ acc) then acc else acc ++ [k]) [] keys.

(** A windowed key ends with the encoding of the end of its window. *)
Definition key_end (key : bytes) : Z := int64 (be_decode (drop (length key - 8) key)).

Definition live (cutoff : Z) (key : bytes) : Prop := windowed o = true → cutoff ≤ key_end key.

#[global] Instance live_dec cutoff key : Decision (live cutoff key).
Proof. unfold live. destruct (windowed o); [|left; done]. destruct (decide (cutoff ≤ key_end key)); [left|right]; auto. Defined.

(** The cutoff that a stream time stands for. *)
Definition retained (streamTime : Z) : Z := if streamTime =? MinInt64 then MinInt64 else cutoff_of o streamTime.

Definition event_of (keyVectors inputVectors : list column) (timestamps : option column) (row : nat) : option event :=
  match @row_parts L E o keyVectors timestamps MinInt64 row with
  | Ok (Some parts) =>
      match encodeKeyParts parts with
      | Ok key => Some (MkEvent key parts (map (value_at row) inputVectors))
      | Err _ => None
      end
  | _ => None
  end.

Definition times_of (batch : frame) : option column := if windowed o then columnByName batch TimestampColumn else None.

Definition columns_of (batch : frame) (names : list bytes) : list column :=
  match @find_columns E batch names with Ok columns => columns | Err _ => [] end.

Definition batch_events (batch : frame) : list event :=
  omap (event_of (columns_of batch (gb_keys o)) (columns_of batch (map agg_InputColumn (gb_aggregations o))) (times_of batch))
    (rows_of batch).

(** The state that the rows so far, and a cutoff, specify. *)
Record grouped (es : list event) (cutoff : Z) (st : groupByOperation) : Prop := {
  grouped_order : gb_order st = filter (live cutoff) (firsts (map ev_key es));
  grouped_entries : ∀ key, gb_groups st !! key = if decide (live cutoff key) then reference es key else None;
  grouped_present : ∀ key, key ∈ gb_order st → is_Some (gb_groups st !! key);
  grouped_parts : ∀ key entry, gb_groups st !! key = Some entry →
    encodeKeyParts (keyParts entry) = Ok key ∧ length (aggregates entry) = length (gb_aggregations o) ∧
    length (keyParts entry) = (length (gb_keys o) + if windowed o then 2 else 0)%nat ∧
    (windowed o = true → @window_end E o entry = Ok (key_end key))
}.

(** ** Lemmas on the reference *)

Lemma firsts_snoc keys k : firsts (keys ++ [k]) = if decide (k ∈ firsts keys) then firsts keys else firsts keys ++ [k].
Proof. unfold firsts. by rewrite foldl_app. Qed.

Lemma elem_of_firsts keys k : k ∈ firsts keys ↔ k ∈ keys.
Proof.
  induction keys as [|x keys IH] using rev_ind; [done|]. rewrite firsts_snoc.
  case_decide as H; rewrite ?elem_of_app, ?list_elem_of_singleton, IH; [|done]. split; [auto|].
  intros [?| ->]; [done|]. by apply IH.
Qed.

Lemma rows_with_snoc key es e :
  rows_with key (es ++ [e]) = rows_with key es ++ (if decide (ev_key e = key) then [e] else []).
Proof. unfold rows_with. rewrite filter_app. by rewrite filter_cons, filter_nil. Qed.

Lemma reference_other key es e : ev_key e ≠ key → reference (es ++ [e]) key = reference es key.
Proof. intros H. unfold reference. rewrite rows_with_snoc, decide_False by done. by rewrite app_nil_r. Qed.

Lemma rows_with_nil key es : rows_with key es = [] ↔ key ∉ map ev_key es.
Proof.
  unfold rows_with. induction es as [|e es IH]; [split; [intros _; apply not_elem_of_nil|done]|]. rewrite filter_cons. cbn [map].
  rewrite not_elem_of_cons. case_decide as H.
  - split; [done|]. intros [? _]. congruence.
  - rewrite IH. intuition congruence.
Qed.

(** A new key starts from nothing, and a known one goes on from where it is. *)
Lemma reference_snoc es e :
  reference (es ++ [e]) (ev_key e) =
  match rows_with (ev_key e) es with
  | [] => match acc_row (replicate (length (gb_aggregations o)) VNil) (ev_inputs e) with
          | Ok values => Some (MkEntry (ev_parts e) values) | Err _ => None end
  | _ :: _ => match reference es (ev_key e) with
              | Some entry => match acc_row (aggregates entry) (ev_inputs e) with
                              | Ok values => Some (MkEntry (keyParts entry) values) | Err _ => None end
              | None => None
              end
  end.
Proof.
  unfold reference. rewrite rows_with_snoc, decide_True by done.
  destruct (rows_with (ev_key e) es) as [|x rows]; [done|]. cbn [app].
  replace (map ev_inputs (x :: rows ++ [e])) with (map ev_inputs (x :: rows) ++ [ev_inputs e]) by (cbn [map app]; by rewrite map_app).
  unfold fold_rows. rewrite foldl_app. cbn [foldl]. destruct (foldl _ _ _) as [values|]; [|done]. cbn [rbind aggregates keyParts].
  by destruct (acc_row values (ev_inputs e)).
Qed.

(** ** One row *)

Lemma set_aggregate_groups encoded index v st entry :
  gb_groups st !! encoded = Some entry →
  set_aggregate encoded index v st =
    MkGroups (<[encoded := MkEntry (keyParts entry) (<[index := v]> (aggregates entry))]> (gb_groups st)) (gb_order st) (gb_streamTime st).
Proof.
  intros H. unfold set_aggregate. f_equal. apply map_eq. intros k. destruct (decide (k = encoded)) as [->|Hne].
  - rewrite lookup_alter_eq, H, lookup_insert_eq. done.
  - by rewrite lookup_alter_ne, lookup_insert_ne.
Qed.

Lemma aggregate_row_Ok encoded parts pre current aggregations inputs st st' :
  gb_groups st !! encoded = Some (MkEntry parts (pre ++ current)) →
  length current = length aggregations → length inputs = length aggregations →
  @aggregate_row E encoded (length pre) aggregations inputs st = (Ok tt, st') →
  ∃ values, map_results (λ x, accumulate x.1.2 (agg_Function x.1.1) x.2) (zip (zip aggregations current) inputs) = @Ok (op_error E) _ values ∧
    length values = length aggregations ∧
    st' = MkGroups (<[encoded := MkEntry parts (pre ++ values)]> (gb_groups st)) (gb_order st) (gb_streamTime st).
Proof.
  revert pre current inputs st. induction aggregations as [|a aggregations IH]; intros pre [|c current] [|i inputs] st Hg Hc Hi; try done.
  - intros [= <-]. exists []. split; [done|]. split; [done|]. rewrite insert_id by done. by destruct st.
  - cbn [aggregate_row]. rewrite Hg. cbn [mbind option_bind aggregates].
    rewrite list_lookup_middle by done. destruct (accumulate c (agg_Function a) i) as [v|] eqn:Ha; [|done].
    rewrite (set_aggregate_groups _ _ _ _ _ Hg). cbn [keyParts aggregates]. rewrite insert_app_r_alt by lia.
    rewrite Nat.sub_diag. cbn [insert list_insert]. injection Hc as Hc. injection Hi as Hi. intros Hr.
    replace (S (length pre)) with (length (pre ++ [v])) in Hr by (rewrite length_app; cbn; lia).
    apply (IH (pre ++ [v]) current inputs) in Hr as (values & Hv & Hl & ->); [|cbn [gb_groups]; rewrite lookup_insert_eq; by rewrite <- (assoc_L (++))|done|done].
    exists (v :: values). split; [cbn [zip zip_with map_results fst snd]; rewrite Ha; cbn [rbind]; by rewrite Hv|].
    split; [cbn; by rewrite Hl|]. cbn [gb_groups gb_order gb_streamTime]. by rewrite insert_insert_eq, <- (assoc_L (++)).
Qed.

(** ** A row keeps the state on its specification *)

Lemma live_weaken cutoff cutoff' key : cutoff ≤ cutoff' → live cutoff' key → live cutoff key.
Proof. unfold live. intros ? H Hw. specialize (H Hw). lia. Qed.

Lemma grouped_elem es cutoff st key :
  grouped es cutoff st → key ∈ gb_order st ↔ live cutoff key ∧ key ∈ map ev_key es.
Proof. intros H. rewrite (grouped_order _ _ _ H), list_elem_of_filter, elem_of_firsts. done. Qed.

Lemma grouped_late es cutoff st e : grouped es cutoff st → ¬ live cutoff (ev_key e) → grouped (es ++ [e]) cutoff st.
Proof.
  intros H Hl. split; [| |apply H|apply H].
  - rewrite (grouped_order _ _ _ H), map_app. cbn [map]. rewrite firsts_snoc. case_decide; [done|].
    rewrite filter_app, filter_cons_False, filter_nil by done. by rewrite app_nil_r.
  - intros key. rewrite (grouped_entries _ _ _ H). case_decide as Hk; [|done]. rewrite reference_other; [done|]. congruence.
Qed.

(** The parts of a key and the end of its window. *)
Definition parts_ok (parts : list value) (key : bytes) : Prop :=
  encodeKeyParts parts = Ok key ∧ length parts = (length (gb_keys o) + if windowed o then 2 else 0)%nat ∧
  (windowed o = true → ∀ values, @window_end E o (MkEntry parts values) = Ok (key_end key)).

Lemma touch_groups es cutoff st key parts :
  grouped es cutoff st → live cutoff key → parts_ok parts key →
  ∃ first current, gb_groups (touch o key parts st) !! key = Some (MkEntry first current) ∧ length current = length (gb_aggregations o) ∧
    parts_ok first key ∧
    match rows_with key es with
    | [] => first = parts ∧ current = replicate (length (gb_aggregations o)) VNil
    | _ :: _ => reference es key = Some (MkEntry first current)
    end ∧
    gb_order (touch o key parts st) = (if decide (key ∈ firsts (map ev_key es)) then gb_order st else gb_order st ++ [key]) ∧
    (∀ key', key' ≠ key → gb_groups (touch o key parts st) !! key' = gb_groups st !! key') ∧
    gb_streamTime (touch o key parts st) = gb_streamTime st.
Proof.
  intros H Hl Hp. unfold touch. pose proof (grouped_entries _ _ _ H key) as Hk. rewrite decide_True in Hk by done.
  destruct (gb_groups st !! key) as [[first current]|] eqn:Hg.
  - exists first, current. destruct (grouped_parts _ _ _ H _ _ Hg) as (H1 & H2 & H3 & H4). split; [done|]. split; [done|].
    split; [split; [done|split; [done|]]; intros Hw values; exact (H4 Hw)|].
    assert (rows_with key es ≠ []) as Hne by (intros Hn; unfold reference in Hk; by rewrite Hn in Hk).
    split; [by destruct (rows_with key es)|]. rewrite decide_True; [done|]. apply elem_of_firsts.
    destruct (decide (key ∈ map ev_key es)); [done|]. by destruct Hne; apply rows_with_nil.
  - assert (rows_with key es = []) as Hn.
    { destruct (decide (key ∈ gb_order st)) as [Hin|Hin].
      - destruct (grouped_present _ _ _ H _ Hin). congruence.
      - apply rows_with_nil. intros Hkeys. apply Hin. by apply (grouped_elem es cutoff). }
    exists parts, (replicate (length (gb_aggregations o)) VNil). cbn [gb_groups gb_order gb_streamTime].
    rewrite lookup_insert_eq. split; [done|]. split; [by rewrite length_replicate|]. split; [done|]. rewrite Hn.
    split; [done|]. split.
    + rewrite decide_False; [done|]. rewrite elem_of_firsts. by apply rows_with_nil.
    + split; [|done]. intros key' Hne. by rewrite lookup_insert_ne.
Qed.

Lemma grouped_row es cutoff st key parts inputs st' :
  grouped es cutoff st → live cutoff key → parts_ok parts key → length inputs = length (gb_aggregations o) →
  @aggregate_row E key 0 (gb_aggregations o) inputs (touch o key parts st) = (Ok tt, st') →
  grouped (es ++ [MkEvent key parts inputs]) cutoff st' ∧ gb_streamTime st' = gb_streamTime st.
Proof.
  intros H Hl Hp Hi Ha. destruct (touch_groups es cutoff st key parts H Hl Hp) as (first & current & Hg & Hc & Hpf & Hr & Ho & Hother & Ht).
  destruct (aggregate_row_Ok key first [] current (gb_aggregations o) inputs _ _ Hg Hc Hi Ha) as (values & Hv & Hlv & ->).
  cbn [app gb_groups gb_order gb_streamTime]. split; [|done].
  assert (reference (es ++ [MkEvent key parts inputs]) key = Some (MkEntry first values)) as Href.
  { pose proof (reference_snoc es (MkEvent key parts inputs)) as Hs. cbn [ev_key ev_parts ev_inputs] in Hs. rewrite Hs. unfold acc_row.
    destruct (rows_with key es) as [|x rows]; [destruct Hr as [-> ->]|rewrite Hr; cbn [aggregates keyParts]]; by rewrite Hv. }
  assert (gb_order (touch o key parts st) = filter (live cutoff) (firsts (map ev_key (es ++ [MkEvent key parts inputs])))) as Hord.
  { rewrite Ho, map_app. cbn [map ev_key]. rewrite firsts_snoc, (grouped_order _ _ _ H). case_decide; [done|].
    rewrite filter_app, filter_cons_True, filter_nil by done. done. }
  split; cbn [gb_groups gb_order].
  - done.
  - intros key'. destruct (decide (key' = key)) as [->|Hne].
    + by rewrite lookup_insert_eq, decide_True, Href.
    + rewrite lookup_insert_ne, Hother, (grouped_entries _ _ _ H) by done. rewrite reference_other; [done|]. cbn [ev_key]. congruence.
  - intros key' Hin. destruct (decide (key' = key)) as [->|Hne]; [rewrite lookup_insert_eq; eauto|].
    rewrite lookup_insert_ne, Hother by done. apply (grouped_present _ _ _ H). rewrite Ho in Hin. case_decide; [done|].
    apply elem_of_app in Hin as [?|?%list_elem_of_singleton]; done.
  - intros key' entry. destruct (decide (key' = key)) as [->|Hne].
    + rewrite lookup_insert_eq. intros [= <-]. destruct Hpf as (H1 & H2 & H3). cbn [keyParts aggregates]. auto.
    + rewrite lookup_insert_ne, Hother by done. apply (grouped_parts _ _ _ H).
Qed.

(** ** Pruning keeps it there *)

Lemma prune_loop_spec cutoff order groups kept groups' kept' :
  NoDup order → (∀ key, key ∈ order → ∃ entry, groups !! key = Some entry ∧ @window_end E o entry = Ok (key_end key)) →
  @prune_loop E o cutoff order groups kept = Ok (groups', kept') →
  kept' = kept ++ filter (λ key, cutoff ≤ key_end key) order ∧
  ∀ key, groups' !! key = if decide (key ∈ order ∧ key_end key < cutoff) then None else groups !! key.
Proof.
  revert groups kept. induction order as [|k order IH]; intros groups kept Hd Hg; cbn [prune_loop].
  - intros [= -> ->]. split; [by rewrite app_nil_r|]. intros key. rewrite decide_False; [done|]. by intros [?%not_elem_of_nil _].
  - apply NoDup_cons in Hd as [Hk Hd]. destruct (Hg k (list_elem_of_here k order)) as (entry & -> & Hw). rewrite Hw. cbn [rbind].
    destruct (Z.ltb_spec (key_end k) cutoff) as [Hlt|Hge]; intros Hr; apply IH in Hr as [-> Hgr]; try done.
    + rewrite filter_cons_False by lia. split; [done|]. intros key. rewrite Hgr.
      destruct (decide (key = k)) as [->|Hne].
      * rewrite (decide_True (P := k ∈ k :: order ∧ _)) by (split; [apply list_elem_of_here|done]). rewrite lookup_delete_eq. by case_decide.
      * rewrite lookup_delete_ne by done. apply decide_ext. rewrite elem_of_cons. tauto.
    + intros key Hin. destruct (Hg key (list_elem_of_further _ _ _ Hin)) as (entry' & H1 & H2). exists entry'.
      rewrite lookup_delete_ne by congruence. done.
    + rewrite filter_cons_True by lia. rewrite <- (assoc_L (++)). split; [done|]. intros key. rewrite Hgr. apply decide_ext.
      rewrite elem_of_cons. split; [tauto|]. intros [[->|?] ?]; [lia|done].
    + intros key Hin. apply Hg. by apply list_elem_of_further.
Qed.

Lemma NoDup_firsts keys : NoDup (firsts keys).
Proof.
  induction keys as [|k keys IH] using rev_ind; [constructor|]. rewrite firsts_snoc. case_decide; [done|].
  apply NoDup_app. split; [done|]. split; [|apply NoDup_singleton]. intros x Hx ->%list_elem_of_singleton. done.
Qed.

Lemma NoDup_order es cutoff st : grouped es cutoff st → NoDup (gb_order st).
Proof. intros H. rewrite (grouped_order _ _ _ H). apply NoDup_filter, NoDup_firsts. Qed.

Lemma filter_twice {A} (P Q : A → Prop) `{∀ x, Decision (P x), ∀ x, Decision (Q x)} (l : list A) :
  (∀ x, Q x → P x) → filter Q (filter P l) = filter Q l.
Proof.
  intros HPQ. induction l as [|a l IH]; [done|]. rewrite !filter_cons. case_decide as HP.
  - rewrite filter_cons. by rewrite IH.
  - rewrite IH. by rewrite decide_False by auto.
Qed.

Lemma grouped_prune es cutoff cutoff' st groups kept :
  grouped es cutoff st → windowed o = true → cutoff ≤ cutoff' →
  @prune_loop E o cutoff' (gb_order st) (gb_groups st) [] = Ok (groups, kept) →
  grouped es cutoff' (MkGroups groups kept (gb_streamTime st)).
Proof.
  intros H Hw Hc Hr. apply prune_loop_spec in Hr as [-> Hg]; [|by eapply NoDup_order|].
  2:{ intros key Hin. destruct (grouped_present _ _ _ H _ Hin) as [entry He]. exists entry. split; [done|].
      by apply (grouped_parts _ _ _ H). }
  assert (∀ key, live cutoff' key ↔ cutoff' ≤ key_end key) as Hl by (intros; unfold live; intuition).
  assert (∀ key entry, groups !! key = Some entry → gb_groups st !! key = Some entry) as Hsub.
  { intros key entry. rewrite Hg. by case_decide. }
  split; cbn [gb_groups gb_order app].
  - rewrite (grouped_order _ _ _ H). etransitivity; [|apply (filter_twice (live cutoff))].
    + apply list_filter_iff. intros. by rewrite Hl.
    + intros key. by apply live_weaken.
  - intros key. rewrite Hg, (grouped_entries _ _ _ H). destruct (decide (live cutoff' key)) as [Hk|Hk].
    + rewrite (decide_True (P := live cutoff key)) by (by eapply live_weaken). rewrite Hl in Hk. rewrite decide_False; [done|]. lia.
    + rewrite Hl in Hk. case_decide as Hd; [done|]. case_decide as Hcl; [|done].
      destruct (reference es key) as [entry|] eqn:Hr; [|done]. destruct Hd. split; [|lia].
      apply (grouped_elem es cutoff); [done|]. split; [done|]. destruct (decide (key ∈ map ev_key es)) as [|Hn]; [done|].
      unfold reference in Hr. by rewrite (proj2 (rows_with_nil key es) Hn) in Hr.
  - intros key [Hk Hin]%list_elem_of_filter. rewrite Hg, decide_False by (intros [_ ?]; lia). by apply (grouped_present _ _ _ H).
  - intros key entry Hk. by apply (grouped_parts _ _ _ H), Hsub.
Qed.

(** ** A batch *)

Lemma encode_parts_end parts v key bs :
  encodeKeyParts (parts ++ [v]) = Ok key → encodeValue v = Ok bs → ∃ pre, key = pre ++ bs.
Proof.
  unfold encodeKeyParts. rewrite encode_parts_Ok. intros (es & H & ->) Hv.
  apply Forall2_app_inv_l in H as (es1 & es2 & _ & H & ->). inversion H as [|? e ? es3 He Hn]; subst. inversion Hn; subst.
  exists (concat es1). rewrite concat_app. cbn. rewrite app_nil_r. congruence.
Qed.

Lemma key_end_encode parts n key : inS 64 n → encodeKeyParts (parts ++ [VInt KInt64 n]) = Ok key → key_end key = n.
Proof.
  intros Hn Hk. destruct (encode_parts_end parts _ key (tag "i" :: be_encode 8 (uint64 n)) Hk) as (pre & ->); [reflexivity|].
  unfold key_end. rewrite length_app. cbn [length]. rewrite length_be_encode.
  replace (pre ++ tag "i" :: be_encode 8 (uint64 n)) with ((pre ++ [tag "i"]) ++ be_encode 8 (uint64 n)) by (by rewrite <- (assoc_L (++))).
  rewrite drop_app_length' by (rewrite length_app; cbn [length]; lia).
  rewrite be_decode_encode. change (256 ^ Z.of_nat 8) with (2 ^ 64). change (?x mod 2 ^ 64) with (uint64 x).
  rewrite wrapS_wrapU by lia. rewrite wrapS_wrapU by lia. by apply wrapS_id.
Qed.

(** The columns that a call has found. *)
Definition vectors_ok (keyVectors inputVectors : list column) (timestamps : option column) : Prop :=
  length keyVectors = length (gb_keys o) ∧ length inputVectors = length (gb_aggregations o) ∧
  (windowed o = true ↔ is_Some timestamps).

Lemma row_parts_spec keyVectors inputVectors timestamps cutoff row r :
  vectors_ok keyVectors inputVectors timestamps → @row_parts L E o keyVectors timestamps cutoff row = Ok r →
  ∃ parts, @row_parts L E o keyVectors timestamps MinInt64 row = Ok (Some parts) ∧
    (∀ key, encodeKeyParts parts = Ok key → parts_ok parts key) ∧
    match r with
    | Some parts' => parts' = parts ∧ ∀ key, encodeKeyParts parts = Ok key → live cutoff key
    | None => ∀ key, encodeKeyParts parts = Ok key → ¬ live cutoff key
    end.
Proof.
  intros (Hk & _ & Hw). unfold row_parts. destruct timestamps as [timestamps|].
  - assert (windowed o = true) as Hwin by (apply Hw; eauto). destruct (cell_at timestamps row); try done.
    set (w := window_parts o n). assert (inS 64 w.2) as Hr by (apply wrapS_range; lia).
    replace (w.2 <? MinInt64) with false by (unfold inS in Hr; width_consts; lia).
    assert (∀ key, encodeKeyParts (map (value_at row) keyVectors ++ [VInt KInt64 w.1; VInt KInt64 w.2]) = Ok key → key_end key = w.2) as Hend.
    { intros key. replace (map (value_at row) keyVectors ++ [VInt KInt64 w.1; VInt KInt64 w.2]) with
        ((map (value_at row) keyVectors ++ [VInt KInt64 w.1]) ++ [VInt KInt64 w.2]) by (by rewrite <- (assoc_L (++))). by apply key_end_encode. }
    intros H. eexists. split; [reflexivity|]. split.
    + intros key He. split; [done|]. split; [rewrite length_app, length_map, Hwin; cbn [length]; lia|]. intros _ values.
      unfold window_end. cbn [keyParts]. rewrite lookup_app_r by (rewrite length_map; lia). rewrite length_map.
      replace (length (gb_keys o) + 1 - length keyVectors)%nat with 1%nat by lia. cbn [lookup list_lookup]. by rewrite (Hend key He).
    + destruct (Z.ltb_spec w.2 cutoff) as [Hlt|Hge]; injection H as <-.
      * intros key He Hl. specialize (Hl Hwin). rewrite (Hend key He) in Hl. lia.
      * split; [done|]. intros key He _. by rewrite (Hend key He).
  - assert (windowed o = false) as Hwin by (destruct (windowed o); [destruct (proj1 Hw eq_refl); done|done]).
    intros [= <-]. eexists. split; [reflexivity|]. split.
    + intros key He. split; [done|]. split; [rewrite length_map, Hwin; lia|]. intros Hw'. congruence.
    + split; [done|]. intros key _ Hw'. congruence.
Qed.

Lemma apply_row_grouped es cutoff st keyVectors inputVectors timestamps row st' :
  vectors_ok keyVectors inputVectors timestamps → grouped es cutoff st →
  @apply_row L E o keyVectors inputVectors timestamps cutoff row st = (Ok tt, st') →
  grouped (es ++ option_list (event_of keyVectors inputVectors timestamps row)) cutoff st' ∧ gb_streamTime st' = gb_streamTime st.
Proof.
  intros Hv H. unfold apply_row. intros Ha. apply io_bind_Ok in Ha as (r & s & Hr & Ha). apply io_lift_Ok in Hr as [Hr ->].
  destruct (row_parts_spec _ _ _ _ _ _ Hv Hr) as (parts & Hp & Hok & Hc). unfold event_of. rewrite Hp. destruct r as [parts'|].
  - destruct Hc as [-> Hl]. apply io_bind_Ok in Ha as (key & s & Hk & Ha). apply io_lift_Ok in Hk as [Hk ->].
    destruct (encodeKeyParts parts) as [key'|] eqn:He; [|done]. injection Hk as ->. cbn [option_list].
    apply (grouped_row es cutoff st); [done|by apply Hl|by apply Hok|by rewrite length_map; apply Hv|done].
  - injection Ha as <-. split; [|done]. destruct (encodeKeyParts parts) as [key|] eqn:He; cbn [option_list]; [|by rewrite app_nil_r].
    apply grouped_late; [done|]. by apply Hc.
Qed.

Lemma omap_cons_list {A B} (f : A → option B) a l : omap f (a :: l) = option_list (f a) ++ omap f l.
Proof. cbn. by destruct (f a). Qed.

Lemma apply_rows_grouped es cutoff st keyVectors inputVectors timestamps rows st' :
  vectors_ok keyVectors inputVectors timestamps → grouped es cutoff st →
  @apply_rows L E o keyVectors inputVectors timestamps cutoff rows st = (Ok tt, st') →
  grouped (es ++ omap (event_of keyVectors inputVectors timestamps) rows) cutoff st' ∧ gb_streamTime st' = gb_streamTime st.
Proof.
  intros Hv. revert es st. induction rows as [|row rows IH]; intros es st H; cbn [apply_rows].
  - intros [= <-]. cbn. by rewrite app_nil_r.
  - intros Ha. apply io_bind_Ok in Ha as ([] & s & Hr & Ha). destruct (apply_row_grouped _ _ _ _ _ _ _ _ Hv H Hr) as [Hg <-].
    rewrite omap_cons_list, (assoc_L (++)). by apply IH.
Qed.

Lemma grouped_streamTime es cutoff t st : grouped es cutoff st → grouped es cutoff (set_streamTime t st).
Proof. intros H. split; apply H. Qed.

Lemma grouped_unwindowed es cutoff cutoff' st : windowed o = false → grouped es cutoff st → grouped es cutoff' st.
Proof.
  intros Hw H. assert (∀ c key, live c key) as Hl by (intros c key ?; congruence). split; [| |apply H|apply H].
  - rewrite (grouped_order _ _ _ H). apply list_filter_iff. intros. split; intros; apply Hl.
  - intros key. rewrite (grouped_entries _ _ _ H). by rewrite !decide_True by apply Hl.
Qed.

(** The options as the constructors make them, and batches whose event times are int64. *)
Definition config_ok : Prop := gb_keys o ≠ [] ∧ 0 ≤ gb_windowMillis o ∧ inS 64 (gb_retentionMillis o).

Definition event_times_of (batch : frame) : list Z := match times_of batch with Some c => int64_cells c | None => [] end.
Definition batch_ok (batch : frame) : Prop := Forall (inS 64) (event_times_of batch).

Lemma retained_mono t t' : config_ok → inS 64 t → inS 64 t' → t ≤ t' → retained t ≤ retained t'.
Proof.
  intros (_ & _ & Hr) Ht Ht' Hle. unfold retained, cutoff_of. rewrite !saturatingSubtract_clamp by done.
  unfold inS in *. width_consts. destruct (Z.eqb_spec t MinInt64), (Z.eqb_spec t' MinInt64); lia.
Qed.

Lemma foldl_max_range l t : inS 64 t → Forall (inS 64) l → inS 64 (foldl Z.max t l) ∧ t ≤ foldl Z.max t l.
Proof.
  intros Ht H. revert t Ht. induction H as [|x l Hx _ IH]; intros t Ht; cbn [foldl]; [split; [done|lia]|].
  destruct (IH (Z.max t x)) as [H1 H2]; [unfold inS in *; lia|]. split; [done|lia].
Qed.

Definition state_ok (es : list event) (st : groupByOperation) : Prop :=
  grouped es (retained (gb_streamTime st)) st ∧ inS 64 (gb_streamTime st).

Lemma event_times_Ok batch st timestamps st' :
  @event_times E o batch st = (Ok timestamps, st') →
  timestamps = times_of batch ∧ (windowed o = true ↔ is_Some timestamps) ∧
  st' = set_streamTime (foldl Z.max (gb_streamTime st) (event_times_of batch)) st.
Proof.
  unfold event_times, times_of, event_times_of, times_of. destruct (windowed o) eqn:Hw.
  - destruct (columnByName batch TimestampColumn) as [[[] cells]|]; try done. destruct kind; try done.
    destruct (_ || _); [done|]. intros [= <- <-]. split; [done|]. split; [split; [eauto|done]|done].
  - intros [= <- <-]. split; [done|]. split; [split; [done|by intros []]|]. by destruct st.
Qed.

Lemma pruneExpired_grouped es cutoff st retainedAfter st' :
  config_ok → grouped es cutoff st → (windowed o = true → cutoff ≤ retained (gb_streamTime st)) →
  @pruneExpired E o st = (Ok retainedAfter, st') →
  grouped es (retained (gb_streamTime st)) st' ∧ gb_streamTime st' = gb_streamTime st ∧
  (windowed o = true → retainedAfter = retained (gb_streamTime st)).
Proof.
  intros (_ & Hw0 & _) H Hc. unfold pruneExpired. destruct (windowed o) eqn:Hw; unfold windowed in Hw.
  - replace (gb_windowMillis o =? 0) with false by lia. cbn [orb]. specialize (Hc eq_refl). unfold retained in *.
    destruct (Z.eqb_spec (gb_streamTime st) MinInt64) as [Ht|Ht].
    + intros [= <- <-]. split; [|done]. split; [| |apply H|apply H].
      * rewrite (grouped_order _ _ _ H). etransitivity; [|apply (filter_twice (live cutoff)); intros; by eapply live_weaken].
        symmetry. rewrite (filter_twice (live cutoff)); [|intros; by eapply live_weaken]. apply list_filter_iff. intros key.
        assert (MinInt64 ≤ key_end key) by (pose proof (wrapS_range 64 (be_decode (drop (length key - 8) key)) ltac:(lia)) as Hr; unfold inS in Hr; width_consts; unfold key_end; lia).
        unfold live. split; intros ? ?; lia.
      * intros key. rewrite (grouped_entries _ _ _ H).
        assert (MinInt64 ≤ key_end key) by (pose proof (wrapS_range 64 (be_decode (drop (length key - 8) key)) ltac:(lia)) as Hr; unfold inS in Hr; width_consts; unfold key_end; lia).
        apply decide_ext. unfold live. split; intros ? ?; lia.
    + destruct (prune_loop _ _ _ _ _) as [[groups kept]|] eqn:Hp; [|done]. intros [= <- <-]. split; [|done].
      by apply (grouped_prune es cutoff _ st groups kept H Hw).
  - assert (gb_windowMillis o = 0) as -> by lia. cbn [Z.eqb orb]. intros [= <- <-]. split; [|done].
    by apply (grouped_unwindowed es cutoff).
Qed.

Lemma find_columns_length batch names columns : @find_columns E batch names = Ok columns → length columns = length names.
Proof. intros H%map_results_inv%Forall2_length. done. Qed.

Lemma apply_grouped es st batch output st' :
  config_ok → batch_ok batch → state_ok es st → @apply L E o batch st = (Ok output, st') →
  state_ok (es ++ batch_events batch) st' ∧
  gb_streamTime st' = foldl Z.max (gb_streamTime st) (event_times_of batch) ∧
  @output_frame L E o (output_fields o batch (columns_of batch (map agg_InputColumn (gb_aggregations o)))) st' = Ok output.
Proof.
  intros Hc Hb [H Ht]. unfold apply. rewrite decide_False by apply Hc. intros Ha.
  apply io_bind_Ok in Ha as (timestamps & s1 & He & Ha). apply event_times_Ok in He as (-> & Hw & ->).
  destruct (foldl_max_range (event_times_of batch) (gb_streamTime st) Ht Hb) as [Ht' Hle].
  apply io_bind_Ok in Ha as (retainedAfter & s2 & Hp & Ha).
  eapply (pruneExpired_grouped es (retained (gb_streamTime st))) in Hp as (Hg & Hs & Hr);
    [|done|by apply grouped_streamTime|intros _; by apply retained_mono].
  cbn [set_streamTime gb_streamTime] in Hg, Hs, Hr.
  apply io_bind_Ok in Ha as (keyVectors & s3 & Hk & Ha). apply io_lift_Ok in Hk as [Hk ->].
  apply io_bind_Ok in Ha as (inputVectors & s4 & Hi & Ha). apply io_lift_Ok in Hi as [Hi ->].
  apply io_bind_Ok in Ha as ([] & s5 & Hrows & Ha). injection Ha as Ho <-.
  assert (grouped es retainedAfter s2) as Hg'.
  { destruct (windowed o) eqn:Hwin; [by rewrite (Hr eq_refl)|]. by apply (grouped_unwindowed es (retained (foldl Z.max (gb_streamTime st) (event_times_of batch)))). }
  assert (columns_of batch (gb_keys o) = keyVectors) as Ek by (unfold columns_of; by rewrite Hk).
  assert (columns_of batch (map agg_InputColumn (gb_aggregations o)) = inputVectors) as Ei by (unfold columns_of; by rewrite Hi).
  eapply (apply_rows_grouped es retainedAfter) in Hrows as [Hrows Hs5]; [|split; [|split]|done].
  2:{ by apply find_columns_length in Hk. }
  2:{ apply find_columns_length in Hi. by rewrite length_map in Hi. }
  2:{ exact Hw. }
  unfold batch_events. rewrite Ek, Ei. rewrite Hs in Hs5. split; [|split; [done|done]].
  split; [|by rewrite Hs5]. rewrite Hs5. destruct (windowed o) eqn:Hwin; [by rewrite <- (Hr eq_refl)|].
  by apply (grouped_unwindowed _ retainedAfter).
Qed.

(** ** Runs *)

Fixpoint run_batches (batches : list frame) (st : groupByOperation) : result (op_error E) (list frame) * groupByOperation :=
  match batches with
  | [] => (Ok [], st)
  | batch :: batches =>
      match apply o batch st with
      | (Ok output, st) =>
          match run_batches batches st with (Ok outputs, st) => (Ok (output :: outputs), st) | (Err e, st) => (Err e, st) end
      | (Err e, st) => (Err e, st)
      end
  end.

Lemma fresh_ok : state_ok [] fresh_groups.
Proof.
  split; [|by_decide]. split; cbn [gb_order gb_groups fresh_groups]; [done| | |].
  - intros key. rewrite lookup_empty. by case_decide.
  - intros key H. by apply elem_of_nil in H.
  - intros key entry. by rewrite lookup_empty.
Qed.

Lemma run_batches_grouped es st batches outputs st' :
  config_ok → Forall batch_ok batches → state_ok es st → run_batches batches st = (Ok outputs, st') →
  state_ok (es ++ concat (map batch_events batches)) st' ∧
  gb_streamTime st' = foldl Z.max (gb_streamTime st) (concat (map event_times_of batches)).
Proof.
  intros Hc Hb. revert es st outputs. induction Hb as [|batch batches Hb _ IH]; intros es st outputs H; cbn [run_batches].
  - intros [= <- <-]. cbn. by rewrite app_nil_r.
  - destruct (apply o batch st) as [[output|] s] eqn:Ha; [|done]. destruct (run_batches batches s) as [[rest|] s'] eqn:Hr; [|done].
    intros [= <- <-]. destruct (apply_grouped es st batch output s Hc Hb H Ha) as (H' & Ht & _).
    destruct (IH _ _ _ H' Hr) as [H'' Ht']. cbn [map concat]. rewrite (assoc_L (++)), foldl_app, <- Ht. done.
Qed.
End Reference.

(** ** Snapshots restore *)

Lemma encoded_int_norm k n : int_in k n → encodeValue (norm (VInt k n)) = encodeValue (VInt k n).
Proof. intros H. by destruct k. Qed.

Lemma encode_parts_ext buffer parts parts' :
  Forall2 (λ v v', encodeValue v' = encodeValue v) parts parts' → encode_parts buffer parts' = encode_parts buffer parts.
Proof.
  intros H. revert buffer. induction H as [|v v' parts parts' Hv _ IH]; intros buffer; [done|]. cbn [encode_parts]. rewrite Hv.
  destruct (encodeValue v); [apply IH|done].
Qed.

Lemma encode_entries_ext buffer entries entries' :
  Forall2 (λ e e' : bytes * value, e'.1 = e.1 ∧ encodeValue e'.2 = encodeValue e.2) entries entries' →
  encode_entries buffer entries' = encode_entries buffer entries.
Proof.
  intros H. revert buffer. induction H as [|e e' entries entries' [Hk Hv] _ IH]; intros buffer; [done|]. cbn [encode_entries].
  rewrite Hk, Hv. destruct (encodeValue e.2); [apply IH|done].
Qed.

Lemma Forall2_map_self {A B} (R : A → B → Prop) (f : A → B) l : Forall (λ a, R a (f a)) l → Forall2 R l (map f l).
Proof. induction 1; constructor; auto. Qed.

(** A value and what it reads back as have one encoding. *)
Lemma encodeValue_norm v : value_ok v → encodeValue (norm v) = encodeValue v.
Proof.
  induction v as [|b|s|s|k n|b|b|n|q|items IH|entries IH| | |? _| |] using value_nested_ind; intros H; try done.
  - by apply encoded_int_norm; inversion H.
  - inversion H as [| | | | | | | | |? Hall|]; subst. cbn [norm]. rewrite !encodeValue_list.
    replace (zlen (map norm items)) with (zlen items) by (unfold zlen; by rewrite length_map).
    apply encode_parts_ext, Forall2_map_self. eapply Forall_impl; [exact (Forall_both _ _ _ IH Hall)|]. intros v [Hv Hok]. by apply Hv.
  - inversion H as [| | | | | | | | | |? Hs Hall]; subst. cbn [norm]. rewrite !encodeValue_map.
    replace (zlen (map (λ e, (e.1, norm e.2)) entries)) with (zlen entries) by (unfold zlen; by rewrite length_map).
    apply encode_entries_ext, Forall2_map_self. eapply Forall_impl; [exact (Forall_both _ _ _ IH Hall)|]. intros e [Hv Hok].
    split; [done|]. by apply Hv.
Qed.

Definition norm_entry (entry : groupEntry) : groupEntry := MkEntry (map norm (keyParts entry)) (map norm (aggregates entry)).

Definition entry_ok (entry : groupEntry) : Prop := Forall value_ok (keyParts entry) ∧ Forall value_ok (aggregates entry).

Section Snapshots.
Context {L : ArrowLib} {E : Type}.
Hypothesis rat_text : ∀ q, Qred q = q → Rat_SetString (RatString q) = Some q.

Lemma sized_values_Ok values bs :
  @sized_values E values = Ok bs →
  ∃ es, Forall2 (λ v e, encodeValue v = Ok e) values es ∧ bs = be_encode 4 (uint32 (zlen values)) ++ concat es.
Proof.
  unfold sized_values. destruct (encode_parts _ values) as [bs'|] eqn:He; [|done]. intros [= <-]. by apply encode_parts_Ok.
Qed.

Lemma read_values_dec values bs rest :
  @sized_values E values = Ok bs → Forall value_ok values → zlen (bs ++ rest) < 2 ^ 32 →
  read_values (bs ++ rest) = Ok (map norm values, rest).
Proof.
  intros (es & Hes & ->)%sized_values_Ok Hok Hl. rewrite <- (assoc_L (++)) in *. unfold read_values.
  pose proof (zlen_concat_ge _ _ _ (λ v e, encodeValue_nonempty v e) Hes) as Hc.
  rewrite zlen_app in Hl. pose proof (zlen_app (concat es) rest) as Ha. pose proof (zlen_nonneg rest). pose proof (zlen_nonneg values).
  unfold zlen at 1 in Hl. rewrite length_be_encode in Hl.
  rewrite wrapU_id by (unfold inU; lia). rewrite uint32_field by (unfold inU; lia).
  unfold zlen. rewrite Nat2Z.id. apply read_items; [|lia].
  eapply Forall2_weaken; [exact Hes|exact Hok|]. intros v e Hv He rest' Hr. by apply value_roundtrip.
Qed.

Lemma read_group_dec entry parts values rest key :
  @sized_values E (keyParts entry) = Ok parts → @sized_values E (aggregates entry) = Ok values → entry_ok entry →
  encodeKeyParts (keyParts entry) = Ok key → zlen ((parts ++ values) ++ rest) < 2 ^ 32 →
  read_group ((parts ++ values) ++ rest) = Ok ((key, norm_entry entry), rest).
Proof.
  intros Hp Hv [Hpok Hvok] Hk Hl. rewrite <- (assoc_L (++)) in *. unfold read_group, rseq.
  rewrite (read_values_dec _ _ _ Hp Hpok Hl). rewrite zlen_app in Hl. pose proof (zlen_nonneg parts).
  rewrite (read_values_dec _ _ _ Hv Hvok) by lia.
  assert (encodeKeyParts (map norm (keyParts entry)) = Ok key) as ->; [|done]. rewrite <- Hk. unfold encodeKeyParts.
  apply encode_parts_ext, Forall2_map_self. eapply Forall_impl; [exact Hpok|]. apply encodeValue_norm.
Qed.

(** The state of a grouping: its order lists the groups, each under the encoding of its parts. *)
Definition groups_ok (st : groupByOperation) : Prop :=
  NoDup (gb_order st) ∧ inS 64 (gb_streamTime st) ∧
  (∀ key, key ∈ gb_order st ↔ is_Some (gb_groups st !! key)) ∧
  ∀ key entry, gb_groups st !! key = Some entry → encodeKeyParts (keyParts entry) = Ok key ∧ entry_ok entry.

Lemma snapshot_groups_Ok buffer groups order data :
  @snapshot_groups E buffer groups order = Ok data →
  ∃ es, Forall2 (λ key e, ∃ entry parts values, groups !! key = Some entry ∧ @sized_values E (keyParts entry) = Ok parts ∧
                  @sized_values E (aggregates entry) = Ok values ∧ e = parts ++ values) order es ∧ data = buffer ++ concat es.
Proof.
  revert buffer. induction order as [|key order IH]; intros buffer; cbn [snapshot_groups].
  - intros [= <-]. exists []. split; [constructor|by rewrite app_nil_r].
  - destruct (groups !! key) as [entry|] eqn:Hg; [|done].
    intros (parts & Hp & (values & Hv & Hr)%rbind_Ok)%rbind_Ok. apply IH in Hr as (es & Hes & ->).
    exists ((parts ++ values) :: es). split; [constructor; [eauto 8|done]|]. cbn [concat]. by rewrite !(assoc_L (++)).
Qed.

Lemma sized_values_length values bs : @sized_values E values = Ok bs → 4 ≤ zlen bs.
Proof. intros (es & _ & ->)%sized_values_Ok. rewrite zlen_app. unfold zlen at 1. rewrite length_be_encode. pose proof (zlen_nonneg (concat es)). lia. Qed.

Lemma group_restore_snapshot st data st0 :
  groups_ok st → @snapshot E st = Ok data → zlen data < 2 ^ 32 →
  @restore L E data st0 = (Ok tt, MkGroups (norm_entry <$> gb_groups st) (gb_order st) (gb_streamTime st)).
Proof.
  intros (Hd & Ht & Hdom & Hent). unfold snapshot. intros (es & Hes & ->)%snapshot_groups_Ok Hl.
  cbn [app] in *. rewrite <- !(assoc_L (++)) in *. unfold restore. cbn [valueReader_byte].
  rewrite decide_True by done. rewrite zlen_cons, !zlen_app in Hl. pose proof (zlen_nonneg (concat es)).
  assert (zlen (gb_order st) ≤ zlen (concat es)) as Hc.
  { eapply zlen_concat_ge; [|exact Hes]. intros key e (entry & parts & values & _ & Hp & _ & ->).
    apply sized_values_length in Hp. rewrite length_app. unfold zlen in Hp. lia. }
  pose proof (zlen_nonneg (gb_order st)). unfold zlen at 1 2 in Hl. rewrite !length_be_encode in Hl.
  rewrite uint64_field by (apply (wrapU_range 64); lia). rewrite (wrapU_id 32) by (unfold inU; lia). rewrite uint32_field by (unfold inU; lia).
  assert (read_list (Z.to_nat (zlen (gb_order st))) read_group (concat es) =
    Ok (map (λ key, (key, default (MkEntry [] []) (norm_entry <$> gb_groups st !! key))) (gb_order st), [])) as Hread.
  { unfold zlen. rewrite Nat2Z.id. rewrite <- (app_nil_r (concat es)) at 1. apply read_items; [|rewrite app_nil_r; lia].
    eapply Forall2_impl; [exact Hes|]. intros key e (entry & parts & values & Hg & Hp & Hv & ->) rest Hr.
    destruct (Hent _ _ Hg) as [Hk Hok]. rewrite Hg. cbn [fmap option_fmap option_map default]. unfold id. by apply read_group_dec. }
  unfold rseq at 1. rewrite Hread. cbn [rret fst snd]. f_equal.
  set (l := map (λ key, (key, default (MkEntry [] []) (norm_entry <$> gb_groups st !! key))) (gb_order st)).
  assert (map fst l = gb_order st) as Hfst by (unfold l; by rewrite map_map, map_id).
  assert (NoDup (map fst l)) as Hnd by (by rewrite Hfst).
  rewrite Hfst. rewrite wrapS_wrapU by lia. rewrite wrapS_id by done. f_equal.
  rewrite insert_all_list_to_map by done. apply map_eq. intros key. rewrite lookup_fmap.
  destruct (gb_groups st !! key) as [entry|] eqn:Hg.
  - apply elem_of_list_to_map_1; [exact Hnd|]. apply list_elem_of_In, in_map_iff. exists key. rewrite Hg. split; [done|].
    apply list_elem_of_In, Hdom. eauto.
  - apply not_elem_of_list_to_map_1. change (key ∉ map fst l). rewrite Hfst, Hdom, Hg. by intros [].
Qed.
End Snapshots.

(** ** What the aggregates are *)

Section Aggregates.
Context {L : ArrowLib} {E : Type} (o : group_config).

Definition fold_agg (f : AggregateFunction) (values : list value) : result (op_error E) value :=
  foldl (λ r v, let* current := r in accumulate current f v) (Ok VNil) values.

Lemma map_results_lookup {A B Er} (f : A → result Er B) l k i a :
  map_results f l = Ok k → l !! i = Some a → ∃ b, k !! i = Some b ∧ f a = Ok b.
Proof. intros H%map_results_inv Hi. destruct (Forall2_lookup_l _ _ _ _ _ H Hi) as (b & Hb & Hf). eauto. Qed.

(** Each aggregate of a group is the fold of its own column. *)
Lemma fold_rows_column rows values i a :
  Forall (λ r, length r = length (gb_aggregations o)) rows → @fold_rows E o rows = Ok values →
  gb_aggregations o !! i = Some a →
  length values = length (gb_aggregations o) ∧
  ∃ v, values !! i = Some v ∧ fold_agg (agg_Function a) (map (λ r, default VNil (r !! i)) rows) = Ok v.
Proof.
  intros Hl Hf Ha. revert values Hf. induction rows as [|row rows IH] using rev_ind; intros values.
  - intros [= <-]. rewrite length_replicate. split; [done|]. exists VNil. split; [|done]. apply lookup_replicate_2. by apply lookup_lt_Some in Ha.
  - apply Forall_app in Hl as [Hl Hrow]. apply Forall_cons in Hrow as [Hrow _]. unfold fold_rows. rewrite foldl_app. cbn [foldl].
    intros (current & Hc & Hacc)%rbind_Ok. destruct (IH Hl _ Hc) as (Hlc & v & Hv & Hfold).
    assert (is_Some (row !! i)) as [x Hx] by (apply lookup_lt_is_Some; apply lookup_lt_Some in Ha; lia).
    assert (zip (zip (gb_aggregations o) current) row !! i = Some ((a, v), x)) as Hz.
    { apply lookup_zip_Some. split; [|done]. apply lookup_zip_Some. done. }
    pose proof (map_results_lookup _ _ _ _ _ Hacc Hz) as (w & Hw & Hacc'). cbn [fst snd] in Hacc'.
    split.
    + apply map_results_inv, Forall2_length in Hacc. rewrite !length_zip in Hacc. lia.
    + exists w. split; [done|]. unfold fold_agg in *. rewrite map_app, foldl_app, Hfold. cbn [map foldl]. by rewrite Hx.
Qed.

(** The numbers of a column of integers, nulls left out. *)
Definition column_ints (values : list value) : list Z := omap (λ v, match v with VInt _ n => Some n | _ => None end) values.

(** A cell of an integer column as it is read. *)
Definition int_value (v : value) : Prop := match v with VNil => True | VInt k n => k ≠ KUint ∧ int_in k n | _ => False end.

Lemma exactInt64_arrow k n : k ≠ KUint → k ≠ KUint64 → exactInt64 (VInt k n) = Ok n.
Proof. by destruct k. Qed.

Lemma exactBigInt_int k n : k ≠ KUint → exactBigInt (VInt k n) = Ok n.
Proof. by destruct k. Qed.

Lemma compareValues_int k n k' n' :
  k ≠ KUint → k' ≠ KUint → compareValues (VInt k n) (VInt k' n') = Ok (comparison_sign (n ?= n')).
Proof.
  intros Hk Hk'. assert (∀ k n, k ≠ KUint → numericRat (VInt k n) = Ok (Some (inject_Z n))) as H by (by intros []).
  unfold compareValues. rewrite !H by done. unfold Qcompare, inject_Z. cbn [Qnum Qden]. by rewrite !Z.mul_1_r.
Qed.

Lemma fold_agg_snoc f values v :
  fold_agg f (values ++ [v]) = let* current := fold_agg f values in accumulate current f v.
Proof. unfold fold_agg. by rewrite foldl_app. Qed.

Lemma fold_count values :
  zlen values ≤ MaxInt64 → fold_agg Count values = Ok (if decide (values = []) then VNil else VInt KInt64 (zlen values)).
Proof.
  induction values as [|v values IH] using rev_ind; intros Hl; [done|]. rewrite zlen_app in Hl. unfold zlen at 2 in Hl. cbn [length] in Hl.
  rewrite fold_agg_snoc, IH by lia. cbn [rbind]. rewrite (decide_False (P := values ++ [v] = [])) by (by destruct values).
  rewrite zlen_app. case_decide as H; [by subst|]. cbn [accumulate]. by rewrite decide_False by lia.
Qed.

Lemma fold_sum values :
  Forall int_value values →
  fold_agg Sum values = Ok (if decide (column_ints values = []) then VNil else VBigInt (foldr Z.add 0 (column_ints values))).
Proof.
  induction values as [|v values IH] using rev_ind; intros Hl; [done|]. apply Forall_app in Hl as [Hl [Hv _]%Forall_cons].
  rewrite fold_agg_snoc, IH by done. cbn [rbind]. unfold column_ints in *. rewrite omap_app. destruct v as [| | | |k n| | | | | | | | | | |]; try done.
  - cbn [omap list_omap accumulate]. by rewrite app_nil_r.
  - cbn [omap list_omap]. destruct Hv as [Hk _]. assert (∀ l : list Z, foldr Z.add 0 (l ++ [n]) = foldr Z.add 0 l + n) as Hs.
    { intros l. rewrite foldr_app. cbn. rewrite Z.add_0_r. clear. revert n. induction l as [|x l IH]; intros n; cbn; [lia|]. rewrite IH. lia. }
    rewrite Hs. rewrite (decide_False (P := _ ++ [n] = [])) by (by destruct (omap _ values)).
    assert (∀ current, @accumulate E current Sum (VInt k n) = Ok (VBigInt ((match current with VBigInt a => a | _ => 0 end) + n))) as ->.
    { intros current. cbn [accumulate]. by rewrite exactBigInt_int. }
    f_equal. f_equal. case_decide as Hn; [by rewrite Hn|done].
Qed.

(** The extreme of a column: null without numbers, and otherwise one of the numbers that no other beats. *)
Definition extreme (le : Z → Z → Prop) (values : list value) (v : value) : Prop :=
  match v with
  | VNil => column_ints values = []
  | VInt k n => VInt k n ∈ values ∧ k ≠ KUint ∧ ∀ m, m ∈ column_ints values → le n m
  | _ => False
  end.

Lemma column_ints_elem values m : m ∈ column_ints values ↔ ∃ k, VInt k m ∈ values.
Proof.
  unfold column_ints. rewrite list_elem_of_omap. split.
  - intros (v & Hv & H). destruct v; try done. injection H as ->. eauto.
  - intros (k & Hk). by exists (VInt k m).
Qed.

Lemma extreme_snoc (le : Z → Z → Prop) values v current r :
  (∀ x, le x x) → (∀ x y z, le x y → le y z → le x z) → extreme le values current → int_value v →
  r = (match v, current with
       | VNil, _ => current
       | _, VNil => v
       | VInt _ m, VInt _ n => r
       | _, _ => current
       end) →
  match v, current with
  | VInt _ m, VInt _ n => (r = current ∧ le n m) ∨ (r = v ∧ le m n)
  | _, _ => True
  end → extreme le (values ++ [v]) r.
Proof.
  intros Hrefl Htrans Hc Hv Hr Hcmp.
  assert (∀ m, m ∈ column_ints (values ++ [v]) ↔ m ∈ column_ints values ∨ ∃ k, v = VInt k m) as He.
  { intros m. rewrite !column_ints_elem. setoid_rewrite elem_of_app. setoid_rewrite list_elem_of_singleton. split.
    - intros (k & [?|?]); eauto.
    - intros [(k & ?)|(k & ?)]; eauto. }
  destruct v as [| | | |k m| | | | | | | | | | |]; try done.
  - rewrite Hr. destruct current as [| | | |k n| | | | | | | | | | |]; try done.
    + cbn in *. unfold column_ints in *. rewrite omap_app, Hc. done.
    + destruct Hc as (Hin & Hk & Hall). split; [by apply elem_of_app; left|]. split; [done|]. intros m [?|[k' ?]]%He; [auto|done].
  - destruct Hv as [Hk _]. destruct current as [| | | |k' n| | | | | | | | | | |]; try done.
    + rewrite Hr. split; [apply elem_of_app; right; by apply list_elem_of_singleton|]. split; [done|].
      intros m' [Hm|[k' [= _ ->]]]%He; [|done]. cbn in Hc. rewrite Hc in Hm. by apply elem_of_nil in Hm.
    + destruct Hc as (Hin & Hk' & Hall). destruct Hcmp as [[-> Hle]|[-> Hle]].
      * split; [by apply elem_of_app; left|]. split; [done|]. intros m' [?|[k'' [= _ ->]]]%He; auto.
      * split; [apply elem_of_app; right; by apply list_elem_of_singleton|]. split; [done|].
        intros m' [?|[k'' [= _ ->]]]%He; [eauto|auto].
Qed.

Lemma fold_extreme f (le : Z → Z → Prop) (better : Z → bool) values :
  (∀ x, le x x) → (∀ x y z, le x y → le y z → le x z) →
  (∀ n m, better (comparison_sign (n ?= m)) = true → le n m) → (∀ n m, better (comparison_sign (n ?= m)) = false → le m n) →
  (∀ current next, @accumulate E current f next =
    match next, current with
    | VNil, _ => Ok current
    | _, VNil => Ok next
    | _, _ => let* comparison := rmap_err OpValue (compareValues current next) in
              if better comparison then Ok current else Ok next
    end) →
  Forall int_value values → ∃ v, fold_agg f values = Ok v ∧ extreme le values v.
Proof.
  intros Hrefl Htrans Hb1 Hb2 Hacc. induction values as [|v values IH] using rev_ind; intros Hl; [by exists VNil|].
  apply Forall_app in Hl as [Hl [Hv _]%Forall_cons]. destruct (IH Hl) as (current & Hf & Hc). rewrite fold_agg_snoc, Hf. cbn [rbind].
  rewrite Hacc. pose proof (extreme_snoc le values v current) as Hs.
  destruct v as [| | | |k m| | | | | | | | | | |]; try done.
  - exists current. split; [done|]. by apply Hs.
  - destruct current as [| | | |k' n| | | | | | | | | | |]; try done.
    + exists (VInt k m). split; [done|]. by apply Hs.
    + destruct Hv as [Hk Hin], Hc as (Hc1 & Hk' & Hc2). rewrite compareValues_int by done. cbn [rmap_err rbind].
      destruct (better (comparison_sign (n ?= m))) eqn:Hbetter; eexists; (split; [reflexivity|]); apply Hs; try done.
      * left. split; [done|]. by apply Hb1.
      * right. split; [done|]. by apply Hb2.
Qed.
End Aggregates.

(** ** Properties *)

(** C2: Cumulative grouping is the fold of its rows, cut down to the retained windows. After any run of batches that
    succeeds from a fresh instance, the stream time is the latest event time; the groups are, in the order in which
    their keys first appeared, exactly the keys whose window has not ended before the retention, each with the
    fold of the aggregates over all rows of the key in every batch, so that pruning and late rows never leave a
    partial group; and the output is one row per group from that state. Without windows every key is kept. *)
Theorem groupby_exact {L : ArrowLib} {E} (o : group_config) batches batch outputs st output st' :
  config_ok o → Forall (batch_ok o) (batches ++ [batch]) →
  @run_batches L E o batches fresh_groups = (Ok outputs, st) → @apply L E o batch st = (Ok output, st') →
  let es := concat (map (@batch_events L E o) (batches ++ [batch])) in
  let time := foldl Z.max MinInt64 (concat (map (event_times_of o) (batches ++ [batch]))) in
  gb_streamTime st' = time ∧
  gb_order st' = filter (live o (retained o time)) (firsts (map ev_key es)) ∧
  (∀ key, gb_groups st' !! key = if decide (live o (retained o time) key) then @reference E o es key else None) ∧
  @output_frame L E o (output_fields o batch (@columns_of E batch (map agg_InputColumn (gb_aggregations o)))) st' = Ok output.
Proof.
  intros Hc [Hb Hb']%Forall_app Hr Ha. apply Forall_cons in Hb' as [Hb' _].
  destruct (run_batches_grouped o [] fresh_groups batches outputs st Hc Hb (fresh_ok o) Hr) as [Hs Ht].
  destruct (apply_grouped o _ _ _ _ _ Hc Hb' Hs Ha) as ([Hg _] & Ht' & Ho). cbn [app] in Hg.
  rewrite !map_app, !concat_app. cbn [map concat]. rewrite !app_nil_r, foldl_app.
  rewrite Ht in Ht'. cbn [gb_streamTime fresh_groups] in Ht'. rewrite Ht' in Hg.
  split; [done|]. split; [apply Hg|]. split; [apply Hg|done].
Qed.

(** C26: The aggregates are exact. The aggregates of a group are the folds of their own columns, and over an integer
    column: the count is the number of rows, nulls included, as an int64; the sum is the sum of the numbers without any
    overflow, and null when there is none; the minimum and the maximum are values of the column that bound all its
    numbers, across signed and unsigned widths. *)
Theorem aggregates_exact {E} (o : group_config) rows values i a :
  Forall (λ r, length r = length (gb_aggregations o)) rows → @fold_rows E o rows = Ok values →
  gb_aggregations o !! i = Some a →
  let cells := map (λ r, default VNil (r !! i)) rows in
  Forall int_value cells →
  ∃ v, values !! i = Some v ∧
    match agg_Function a with
    | Count => zlen cells ≤ MaxInt64 → v = if decide (cells = []) then VNil else VInt KInt64 (zlen cells)
    | Sum => v = if decide (column_ints cells = []) then VNil else VBigInt (foldr Z.add 0 (column_ints cells))
    | Min => extreme Z.le cells v
    | Max => extreme Z.ge cells v
    | UnknownFunction => cells = []
    end.
Proof.
  intros Hl Hf Ha cells Hi. destruct (fold_rows_column o rows values i a Hl Hf Ha) as (_ & v & Hv & Hfold).
  exists v. split; [done|]. fold cells in Hfold. destruct (agg_Function a).
  - intros Hc. rewrite fold_count in Hfold by done. by injection Hfold as <-.
  - rewrite fold_sum in Hfold by done. by injection Hfold as <-.
  - destruct (@fold_extreme E Min Z.le (λ c, c <=? 0) cells) as (v' & Hv' & He); try done; try lia.
    + intros n m. destruct (Z.compare_spec n m); cbn; lia.
    + intros n m. destruct (Z.compare_spec n m); cbn; lia.
    + congruence.
  - destruct (@fold_extreme E Max Z.ge (λ c, 0 <=? c) cells) as (v' & Hv' & He); try done; try lia.
    + intros n m. destruct (Z.compare_spec n m); cbn; lia.
    + intros n m. destruct (Z.compare_spec n m); cbn; lia.
    + congruence.
  - destruct cells as [|x l] eqn:Hc using rev_ind; [done|]. rewrite fold_agg_snoc in Hfold. by apply rbind_Ok in Hfold as (? & _ & ?).
Qed.

(** A row falls into the window that contains it. For a window size that the constructor accepts, and an event time at
    least one window away from the ends of the int64 range, the window starts at a multiple of its size,
    before the epoch too, lasts its size, and contains the event time, and no other window of the grid does. *)
Theorem window_contains (o : group_config) timestamp :
  0 < gb_windowMillis o → MinInt64 + gb_windowMillis o ≤ timestamp ≤ MaxInt64 - gb_windowMillis o →
  let window := window_parts o timestamp in
  window.1 ≤ timestamp < window.2 ∧ window.2 = window.1 + gb_windowMillis o ∧ (gb_windowMillis o | window.1) ∧
  ∀ start, (gb_windowMillis o | start) → start ≤ timestamp < start + gb_windowMillis o → start = window.1.
Proof.
  intros Hw Ht. unfold window_parts. rewrite floorDiv_floor by done. set (w := gb_windowMillis o) in *.
  pose proof (Z.div_mod timestamp w ltac:(lia)). pose proof (Z.mod_pos_bound timestamp w Hw).
  assert (timestamp / w * w = timestamp - timestamp mod w) as Heq by lia.
  rewrite (wrapS_id 64 (timestamp / w * w)) by (unfold inS; width_consts; lia). cbn [fst snd].
  rewrite wrapS_id by (unfold inS; width_consts; lia). split; [lia|]. split; [done|]. split; [by exists (timestamp / w)|].
  intros start [q ->] Hs. f_equal. apply (Z.div_unique timestamp w q (timestamp - q * w)); lia.
Qed.

(** C31: A grouping survives its snapshot. The snapshot of a state whose order lists its groups, each
    under the encoding of its key parts, restores in any instance to the same order, the same stream time and the same groups
    under the same keys, with every value as its encoding reads back: equal, but that signed and short unsigned
    integers come back as int64. The encoding stays below 4 GiB, and rational texts parse back. *)
Theorem group_snapshot_roundtrip {L : ArrowLib} {E} st data st0 :
  (∀ q, Qred q = q → Rat_SetString (RatString q) = Some q) →
  groups_ok st → @snapshot E st = Ok data → zlen data < 2 ^ 32 →
  @restore L E data st0 = (Ok tt, MkGroups (norm_entry <$> gb_groups st) (gb_order st) (gb_streamTime st)).
Proof. intros. by apply group_restore_snapshot. Qed.

(** *** A windowed grouping of three batches *)

#[local] Existing Instance demo_lib.

Definition demo_group : group_config :=
  match WindowedGroupBy [str "k"] (10 * Millisecond)
          [MkAggregation (str "v") (str "n") Count None; MkAggregation (str "v") (str "sum") Sum None] with
  | Ok o => o | Err _ => GroupBy [] []
  end.

Definition demo_frame (rows : list (Z * option Z * Z)) : frame :=
  MkFrame [MkField (str "k") (TInt I32) true []; MkField (str "v") (TInt I64) true []; MkField TimestampColumn (TInt I64) true []]
    [MkColumn (TInt I32) (map (λ r, CInt r.1.1) rows);
     MkColumn (TInt I64) (map (λ r, match r.1.2 with Some n => CInt n | None => CNull end) rows);
     MkColumn (TInt I64) (map (λ r, CInt r.2) rows)] (length rows).

(** Two rows of one window, then a row of a later one, and then a late row of the first window, which is
    gone by then. *)
Definition demo_batches : list frame := [demo_frame [(1, Some 5, 3); (1, None, 7)]; demo_frame [(2, Some 4, 40)]].
Definition demo_late : frame := demo_frame [(1, Some 100, 8); (2, Some 6, 45)].

Definition demo_run : result (op_error unit) (list frame) * groupByOperation := run_batches demo_group demo_batches fresh_groups.
Definition demo_last : result (op_error unit) frame * groupByOperation := apply demo_group demo_late demo_run.2.
Definition demo_outputs : list frame := match demo_run.1 with Ok outputs => outputs | Err _ => [] end.
Definition demo_output : frame := match demo_last.1 with Ok output => output | Err _ => demo_late end.

Lemma groupby_exact_witness :
  gb_streamTime demo_last.2 = 45 ∧ length (gb_order demo_last.2) = 1%nat ∧
  map col_Cells (fr_Columns demo_output) = [[CInt 2]; [CInt 40]; [CInt 50]; [CInt 2]; [CInt 10]].
Proof.
  destruct (@groupby_exact demo_lib unit demo_group demo_batches demo_late demo_outputs demo_run.2 demo_output demo_last.2)
    as (H1 & H2 & _ & H4).
  - split; [discriminate|]. split; by_decide.
  - repeat constructor; by_decide.
  - vm_compute. reflexivity.
  - vm_compute. reflexivity.
  - rewrite H1, H2. split; [vm_compute; reflexivity|]. split; vm_compute; reflexivity.
Defined.

Definition demo_rows : list (list value) := [[VInt KInt32 5; VInt KInt32 5]; [VNil; VNil]; [VInt KInt32 (-7); VInt KInt32 (-7)]].
Definition demo_aggregations : group_config :=
  GroupBy [str "k"] [MkAggregation (str "v") (str "sum") Sum None; MkAggregation (str "v") (str "min") Min None].

Lemma aggregates_exact_witness :
  ∃ v, [VBigInt (-2); VInt KInt32 (-7)] !! 1%nat = Some v ∧ extreme Z.le [VInt KInt32 5; VNil; VInt KInt32 (-7)] v.
Proof.
  apply (@aggregates_exact unit demo_aggregations demo_rows [VBigInt (-2); VInt KInt32 (-7)] 1 (MkAggregation (str "v") (str "min") Min None)).
  - repeat constructor.
  - vm_compute. reflexivity.
  - reflexivity.
  - repeat constructor; by_decide.
Defined.

Lemma window_contains_witness :
  gb_windowMillis demo_group = 10 ∧ let window := window_parts demo_group (-3) in window = (-10, 0) ∧ window.1 ≤ -3 < window.2.
Proof.
  split; [reflexivity|]. split; [vm_compute; reflexivity|].
  apply (window_contains demo_group (-3)); [by_decide|]. split; by_decide.
Defined.

Definition demo_parts : list value := [VInt KInt32 2; VInt KInt64 40; VInt KInt64 50].
Definition demo_key : bytes := match encodeKeyParts demo_parts with Ok key => key | Err _ => [] end.
Definition demo_state : groupByOperation :=
  MkGroups {[demo_key := MkEntry demo_parts [VInt KInt64 2; VRat (1 # 3)]]} [demo_key] 45.
Definition demo_snapshot : bytes := match @snapshot unit demo_state with Ok data => data | Err _ => [] end.

Lemma group_snapshot_roundtrip_witness :
  @restore demo_lib unit demo_snapshot fresh_groups =
    (Ok tt, MkGroups (norm_entry <$> gb_groups demo_state) (gb_order demo_state) (gb_streamTime demo_state)).
Proof.
  apply (group_snapshot_roundtrip demo_state demo_snapshot fresh_groups).
  - exact read_rat_text.
  - split; [apply NoDup_singleton|]. split; [by_decide|]. split.
    + intros key. unfold demo_state. cbn [gb_groups gb_order]. rewrite list_elem_of_singleton. destruct (decide (key = demo_key)) as [->|Hne].
      * rewrite lookup_singleton_eq. split; [eauto|done].
      * rewrite lookup_singleton_ne by congruence. split; [done|by intros []].
    + intros key entry. unfold demo_state. cbn [gb_groups]. intros [<- <-]%lookup_singleton_Some. split; [vm_compute; reflexivity|].
      split; repeat constructor; by_decide.
  - vm_compute. reflexivity.
  - by_decide.
Defined.

(** *** What a snapshot forgets *)

(** Of two derived columns of one new name, the column takes its type from the first and its values from the last. *)
Lemma duplicate_derived_mixes :
  let column t v := MkDerived (E := unit) (MkField (str "x") t true []) (λ _ _, Ok v) in
  match applyDerivedColumns [column (TInt I32) (VInt KInt32 1); column TString (VString (str "7"))] (demo_frame [(1, None, 0)]) with
  | Ok batch => columnByName batch (str "x") = Some (MkColumn (TInt I32) [CInt 7])
  | Err _ => False
  end.
Proof. vm_compute. reflexivity. Qed.

(** An event time of the smallest windows wraps: its window starts after it. *)
Lemma window_wraps : window_parts demo_group MinInt64 = (9223372036854775806, -9223372036854775800).
Proof. vm_compute. reflexivity. Qed.

(** The minimum of a column with a NaN dereferences a nil rational. *)
Lemma nan_minimum_panics :
  @accumulate unit (VFloat64 0) Min (VFloat64 0x7FF8000000000001) = Err (OpValue NilDereference).
Proof. vm_compute. reflexivity. Qed.
