(* ===== verification/Barrier.v ===== *)
(** * Barrier cuts

    [columnar/barrier.go]: the records of [__barrier_state] and their decoders, and
    [columnar/barriercut.go]: the [CutReader] that folds them. The map of the cuts is a [gmap] on the
    group and the epoch. *)

From S2P Require Import Prelude GoStd Kafka.

(** ** The record format *)

Definition BarrierStateTopic : bytes := str "__barrier_state".
Definition barrierStateKeyVersion : Z := 0.
Definition barrierCutValueVersion : Z := 0.
Definition barrierKindGroup : Z := 0.
Definition barrierKindInjectionStart : Z := 1.
Definition barrierKindCut : Z := 2.

Definition CutStatus := Z.
Definition CutComplete : CutStatus := 0.
Definition CutPartial : CutStatus := 1.

Record BarrierCut := MkCut {
  cut_Group : bytes;
  cut_Epoch : Z;
  cut_TriggeredAt : Z;
  cut_CompletedAt : Z;
  cut_Status : CutStatus;
  cut_Offsets : gmap TopicPartition Z;
  cut_Missing : list TopicPartition
}.

#[global] Instance BarrierCut_eq_dec : EqDecision BarrierCut.
Proof. solve_decision. Defined.

Definition Complete (c : BarrierCut) : bool := bool_decide (cut_Status c = CutComplete).

Definition Offset (c : BarrierCut) (partition : TopicPartition) : option Z := cut_Offsets c !! partition.

Inductive barrier_part := keyPart | cutValuePart.

Inductive barrier_fault :=
| UnsupportedVersion (version : Z)
| TrailingBytes
| Truncated
| UnknownStatus (status : Z)
| NegativeString (length : Z)
| NegativeArray (length : Z).

Record BarrierFormatError := MkBarrierFormatError { bfe_Part : barrier_part; bfe_fault : barrier_fault }.

Section barrierReader.
Context (part : barrier_part).

Definition barrierReader_empty (data : bytes) : bool := bool_decide (zlen data = 0).
Definition barrierReader_errorf (fault : barrier_fault) : BarrierFormatError := MkBarrierFormatError part fault.
Definition barrierReader_truncated : BarrierFormatError := barrierReader_errorf Truncated.
Definition barrierReader_int8 : reader BarrierFormatError Z := read_int barrierReader_truncated 1.
Definition barrierReader_int16 : reader BarrierFormatError Z := read_int barrierReader_truncated 2.
Definition barrierReader_int32 : reader BarrierFormatError Z := read_int barrierReader_truncated 4.
Definition barrierReader_int64 : reader BarrierFormatError Z := read_int barrierReader_truncated 8.

Definition barrierReader_string : reader BarrierFormatError bytes :=
  read* length := barrierReader_int16 in
  if length <? 0 then rfail (barrierReader_errorf (NegativeString length))
  else take_bytes barrierReader_truncated (Z.to_nat length).

Definition barrierReader_count : reader BarrierFormatError Z :=
  read* length := barrierReader_int32 in
  if length <? 0 then rfail (barrierReader_errorf (NegativeArray length)) else rret length.

(** [count()] and then the loop over the entries. *)
Definition read_array {A} (item : reader BarrierFormatError A) : reader BarrierFormatError (list A) :=
  read* n := barrierReader_count in read_list (Z.to_nat n) item.

(** One offset of a topic, and one topic. *)
Definition cut_partition : reader BarrierFormatError (Z * Z) :=
  read* partition := barrierReader_int32 in
  read* offset := barrierReader_int64 in rret (partition, offset).

Definition cut_topic : reader BarrierFormatError (bytes * list (Z * Z)) :=
  read* topic := barrierReader_string in
  read* offsets := read_array cut_partition in rret (topic, offsets).

(** The writes [offsets[...] = offset] of the two loops, in order: a later one replaces an earlier. *)
Definition fill_offsets (topics : list (bytes * list (Z * Z))) : gmap TopicPartition Z :=
  fold_left (λ offsets t,
    fold_left (λ offsets p, <[MkTP t.1 p.1 := p.2]> offsets) t.2 offsets) topics ∅.

Definition cutOffsets : reader BarrierFormatError (gmap TopicPartition Z) :=
  read* entries := read_array cut_topic in rret (fill_offsets entries).

Definition missing_partition : reader BarrierFormatError TopicPartition :=
  read* topic := barrierReader_string in
  read* partition := barrierReader_int32 in rret (MkTP topic partition).

Definition missingPartitions : reader BarrierFormatError (list TopicPartition) :=
  read_array missing_partition.
End barrierReader.

Record barrierKey := MkBarrierKey { bk_kind : Z; bk_group : bytes; bk_epoch : Z }.

Definition decodeBarrierKey (data : bytes) : result BarrierFormatError barrierKey :=
  let part := keyPart in
  let* (key, rest) :=
    (read* version := barrierReader_int16 part in
     if decide (version ≠ barrierStateKeyVersion)
     then rfail (barrierReader_errorf part (UnsupportedVersion version)) else
     read* kind := barrierReader_int16 part in
     read* group := barrierReader_string part in
     read* epoch := barrierReader_int64 part in
     rret (MkBarrierKey kind group epoch)) data in
  check! barrierReader_empty rest else barrierReader_errorf part TrailingBytes in
  Ok key.

Definition decodeBarrierCutValue (key : barrierKey) (data : bytes) : result BarrierFormatError BarrierCut :=
  let part := cutValuePart in
  let* (cut, rest) :=
    (read* version := barrierReader_int16 part in
     if decide (version ≠ barrierCutValueVersion)
     then rfail (barrierReader_errorf part (UnsupportedVersion version)) else
     read* triggeredAt := barrierReader_int64 part in
     read* completedAt := barrierReader_int64 part in
     read* status := barrierReader_int8 part in
     if decide (status ≠ CutComplete ∧ status ≠ CutPartial)
     then rfail (barrierReader_errorf part (UnknownStatus status)) else
     read* offsets := cutOffsets part in
     read* missing := missingPartitions part in
     rret (MkCut (bk_group key) (bk_epoch key) triggeredAt completedAt status offsets missing)) data in
  check! barrierReader_empty rest else barrierReader_errorf part TrailingBytes in
  Ok cut.

Definition DecodeBarrierCut (key value : bytes) : result BarrierFormatError (option BarrierCut) :=
  let* decodedKey := decodeBarrierKey key in
  if decide (bk_kind decodedKey ≠ barrierKindCut ∨ zlen value = 0) then Ok None else
  let* cut := decodeBarrierCutValue decodedKey value in
  Ok (Some cut).

(** ** The layout, as the broker writes it *)

Definition barrier_string (s : bytes) : bytes := be_encode 2 (zlen s) ++ s.
Definition barrier_array {A} (enc : A → bytes) (l : list A) : bytes :=
  be_encode 4 (zlen l) ++ concat (map enc l).
Definition partition_layout (p : Z * Z) : bytes := be_encode 4 p.1 ++ be_encode 8 p.2.
Definition topic_layout (t : bytes * list (Z * Z)) : bytes :=
  barrier_string t.1 ++ barrier_array partition_layout t.2.
Definition missing_layout (p : TopicPartition) : bytes := barrier_string (tp_Topic p) ++ be_encode 4 (tp_Partition p).

Definition key_layout (k : barrierKey) : bytes :=
  be_encode 2 barrierStateKeyVersion ++ be_encode 2 (bk_kind k) ++ barrier_string (bk_group k) ++
  be_encode 8 (bk_epoch k).

Definition cut_layout (triggeredAt completedAt status : Z) (topics : list (bytes * list (Z * Z)))
    (missing : list TopicPartition) : bytes :=
  be_encode 2 barrierCutValueVersion ++ be_encode 8 triggeredAt ++ be_encode 8 completedAt ++
  be_encode 1 status ++ barrier_array topic_layout topics ++ barrier_array missing_layout missing.

Definition short_string (s : bytes) : Prop := zlen s < 2 ^ 15.
Definition short_array {A} (l : list A) : Prop := zlen l < 2 ^ 31.
Definition partition_ok (p : Z * Z) : Prop := inS 32 p.1 ∧ inS 64 p.2.
Definition topic_ok (t : bytes * list (Z * Z)) : Prop := short_string t.1 ∧ short_array t.2 ∧ Forall partition_ok t.2.
Definition missing_ok (p : TopicPartition) : Prop := short_string (tp_Topic p) ∧ inS 32 (tp_Partition p).

(** ** The decoders accept the layout and nothing else *)

Section Codecs.
Context (part : barrier_part).

#[export] Instance barrier_int8_codec : Codec (be_encode 1) (barrierReader_int8 part) (inS 8).
Proof. apply int_codec. Qed.
#[export] Instance barrier_int16_codec : Codec (be_encode 2) (barrierReader_int16 part) (inS 16).
Proof. apply int_codec. Qed.
#[export] Instance barrier_int32_codec : Codec (be_encode 4) (barrierReader_int32 part) (inS 32).
Proof. apply int_codec. Qed.
#[export] Instance barrier_int64_codec : Codec (be_encode 8) (barrierReader_int64 part) (inS 64).
Proof. apply int_codec. Qed.

#[export] Instance barrier_string_codec : Codec barrier_string (barrierReader_string part) short_string.
Proof.
  split.
  - intros s rest H. pose proof (zlen_nonneg s). unfold short_string in H. unfold barrierReader_string, barrier_string.
    rewrite <- (assoc_L (++)), (rseq_dec (be_encode 2) _ (inS 16)) by (unfold inS; lia).
    replace (zlen s <? 0) with false by lia. unfold zlen. rewrite Nat2Z.id. apply take_bytes_app.
  - intros bs s rest H. unfold barrierReader_string in H. reader_inv.
    apply (codec_enc (dec := barrierReader_int16 part)) in H as [-> Hn]. apply take_bytes_Ok in H0 as [-> Hl].
    unfold barrier_string, short_string, inS, zlen in *. change (8 * Z.of_nat 2 - 1) with 15 in Hn.
    rewrite Hl, Z2Nat.id by lia. rewrite <- (assoc_L (++)). split; [done|lia].
Qed.

Lemma count_codec : Codec (be_encode 4) (barrierReader_count part) (λ n, 0 ≤ n < 2 ^ 31).
Proof.
  split.
  - intros n rest H. unfold barrierReader_count. rewrite (rseq_dec (be_encode 4) _ (inS 32)) by (unfold inS; lia).
    by replace (n <? 0) with false by lia.
  - intros bs n rest H. unfold barrierReader_count in H. reader_inv.
    apply (codec_enc (dec := barrierReader_int32 part)) in H as [-> Hn]. unfold inS in Hn.
    change (8 * Z.of_nat 4 - 1) with 31 in Hn. split; [done|lia].
Qed.

Lemma array_codec {A} (enc : A → bytes) (dec : reader BarrierFormatError A) P `{!Codec enc dec P} :
  Codec (barrier_array enc) (read_array part dec) (λ l, short_array l ∧ Forall P l).
Proof.
  split.
  - intros l rest [Hl HP]. pose proof (zlen_nonneg l). unfold read_array, barrier_array. rewrite <- (assoc_L (++)).
    pose proof count_codec. rewrite (rseq_dec (be_encode 4) (barrierReader_count part) (λ n, 0 ≤ n < 2 ^ 31))
      by (unfold short_array in Hl; lia).
    unfold zlen. rewrite Nat2Z.id. by apply (read_list_dec enc dec P).
  - intros bs l rest H. unfold read_array in H. reader_inv.
    pose proof count_codec. apply (codec_enc (dec := barrierReader_count part)) in H as [-> Hn].
    apply (read_list_enc enc dec P) in H0 as (-> & HP & Hl). unfold barrier_array, short_array, zlen.
    rewrite Hl, Z2Nat.id by lia. rewrite <- (assoc_L (++)). split; [done|]. split; [lia|done].
Qed.

#[export] Instance partition_codec : Codec partition_layout (cut_partition part) partition_ok.
Proof.
  split.
  - intros [p o] rest [Hp Ho]. unfold cut_partition, partition_layout. rewrite <- (assoc_L (++)).
    rewrite (rseq_dec (be_encode 4) (barrierReader_int32 part) (inS 32)) by done.
    by rewrite (rseq_dec (be_encode 8) (barrierReader_int64 part) (inS 64)).
  - intros bs [p o] rest H. unfold cut_partition in H. reader_inv.
    apply (codec_enc (dec := barrierReader_int32 part)) in H as [-> Hp].
    apply (codec_enc (dec := barrierReader_int64 part)) in H0 as [-> Ho].
    unfold partition_layout. rewrite <- (assoc_L (++)). done.
Qed.

#[export] Instance topic_codec : Codec topic_layout (cut_topic part) topic_ok.
Proof.
  pose proof (array_codec partition_layout (cut_partition part) partition_ok). split.
  - intros [t l] rest (Ht & Hl & HP). unfold cut_topic, topic_layout. rewrite <- (assoc_L (++)).
    rewrite (rseq_dec barrier_string (barrierReader_string part) short_string) by done.
    by rewrite (rseq_dec (barrier_array partition_layout) (read_array part (cut_partition part))
      (λ l, short_array l ∧ Forall partition_ok l)).
  - intros bs [t l] rest H'. unfold cut_topic in H'. reader_inv.
    apply (codec_enc (dec := barrierReader_string part)) in H0 as [-> Ht].
    apply (codec_enc (dec := read_array part (cut_partition part))) in H1 as [-> [Hl HP]].
    unfold topic_layout. rewrite <- (assoc_L (++)). done.
Qed.

#[export] Instance missing_codec : Codec missing_layout (missing_partition part) missing_ok.
Proof.
  split.
  - intros [t p] rest [Ht Hp]. unfold missing_partition, missing_layout. rewrite <- (assoc_L (++)).
    rewrite (rseq_dec barrier_string (barrierReader_string part) short_string) by done.
    by rewrite (rseq_dec (be_encode 4) (barrierReader_int32 part) (inS 32)).
  - intros bs [t p] rest H. unfold missing_partition in H. reader_inv.
    apply (codec_enc (dec := barrierReader_string part)) in H as [-> Ht].
    apply (codec_enc (dec := barrierReader_int32 part)) in H0 as [-> Hp].
    unfold missing_layout. rewrite <- (assoc_L (++)). done.
Qed.
End Codecs.

Definition key_ok (k : barrierKey) : Prop := inS 16 (bk_kind k) ∧ short_string (bk_group k) ∧ inS 64 (bk_epoch k).

Definition cut_ok (triggeredAt completedAt status : Z) (topics : list (bytes * list (Z * Z)))
    (missing : list TopicPartition) : Prop :=
  inS 64 triggeredAt ∧ inS 64 completedAt ∧ (status = CutComplete ∨ status = CutPartial) ∧
  (short_array topics ∧ Forall topic_ok topics) ∧ short_array missing ∧ Forall missing_ok missing.

(** Turn the reads of a successful run into equations on the input. *)
Ltac barrier_inv part :=
  repeat match goal with
  | H : barrierReader_int8 _ _ = Ok _ |- _ => apply (codec_enc (dec := barrierReader_int8 part)) in H as [-> ?]
  | H : barrierReader_int16 _ _ = Ok _ |- _ => apply (codec_enc (dec := barrierReader_int16 part)) in H as [-> ?]
  | H : barrierReader_int64 _ _ = Ok _ |- _ => apply (codec_enc (dec := barrierReader_int64 part)) in H as [-> ?]
  | H : barrierReader_string _ _ = Ok _ |- _ => apply (codec_enc (dec := barrierReader_string part)) in H as [-> ?]
  | H : barrierReader_empty ?l = true |- _ =>
      apply bool_decide_eq_true in H; destruct l; [|rewrite zlen_cons in H; pose proof (zlen_nonneg l); lia]
  | H : ¬ (_ ≠ _) |- _ => apply dec_stable in H; subst
  end.

Lemma decodeBarrierKey_exact data k : decodeBarrierKey data = Ok k ↔ key_ok k ∧ data = key_layout k.
Proof.
  split.
  - intros H. unfold decodeBarrierKey in H. reader_inv. barrier_inv keyPart.
    split; [done|]. unfold key_layout. by rewrite app_nil_r.
  - intros [(Hk & Hg & He) ->]. unfold decodeBarrierKey, key_layout.
    rewrite (rseq_dec (be_encode 2) (barrierReader_int16 keyPart) (inS 16)) by done.
    rewrite decide_False by naive_solver.
    rewrite (rseq_dec (be_encode 2) (barrierReader_int16 keyPart) (inS 16)) by done.
    rewrite (rseq_dec barrier_string (barrierReader_string keyPart) short_string) by done.
    rewrite <- (app_nil_r (be_encode 8 _)).
    rewrite (rseq_dec (be_encode 8) (barrierReader_int64 keyPart) (inS 64)) by done. by destruct k.
Qed.


Definition built_cut (k : barrierKey) triggeredAt completedAt status topics missing : BarrierCut :=
  MkCut (bk_group k) (bk_epoch k) triggeredAt completedAt status (fill_offsets topics) missing.

Lemma decodeBarrierCutValue_exact k data cut :
  decodeBarrierCutValue k data = Ok cut ↔
  ∃ triggeredAt completedAt status topics missing,
    cut_ok triggeredAt completedAt status topics missing ∧
    data = cut_layout triggeredAt completedAt status topics missing ∧
    cut = built_cut k triggeredAt completedAt status topics missing.
Proof.
  pose proof (array_codec cutValuePart topic_layout (cut_topic cutValuePart) topic_ok) as HT.
  pose proof (array_codec cutValuePart missing_layout (missing_partition cutValuePart) missing_ok) as HM.
  split.
  - intros H. unfold decodeBarrierCutValue, cutOffsets in H. reader_inv.
    apply (codec_enc (dec := read_array cutValuePart (cut_topic cutValuePart))) in H4 as [-> ?].
    apply (codec_enc (dec := read_array cutValuePart (missing_partition cutValuePart))) in H5 as [-> ?].
    barrier_inv cutValuePart. exists x1, x3, x5, x11, x9.
    split; [|split; [|done]].
    + split_and!; try done; try tauto. destruct (decide (x5 = CutComplete)); [by left|right]. apply dec_stable. tauto.
    + unfold cut_layout. by rewrite app_nil_r.
  - intros (tr & co & st & topics & missing & (Ht & Hc & Hs & Htop & Hmis) & -> & ->).
    unfold decodeBarrierCutValue, cutOffsets, cut_layout.
    rewrite (rseq_dec (be_encode 2) (barrierReader_int16 cutValuePart) (inS 16)) by done.
    rewrite decide_False by naive_solver.
    do 2 rewrite (rseq_dec (be_encode 8) (barrierReader_int64 cutValuePart) (inS 64)) by done.
    rewrite (rseq_dec (be_encode 1) (barrierReader_int8 cutValuePart) (inS 8)) by (destruct Hs as [-> | ->]; done).
    rewrite decide_False by naive_solver.
    rewrite <- (app_nil_r (barrier_array missing_layout missing)).
    unfold rseq, rret.
    rewrite (codec_dec (dec := read_array cutValuePart (cut_topic cutValuePart))) by done.
    unfold missingPartitions.
    by rewrite (codec_dec (dec := read_array cutValuePart (missing_partition cutValuePart))) by done.
Qed.

(** The decoder of the barrier topic is exact. A cut decodes precisely from a key and a value in the
    broker's layout (counts, int16 string lengths, big-endian integers, a status of zero or one, no
    trailing bytes), its offsets are the listed ones with the later entry winning, and it carries the
    group and the epoch of its key; a record without a cut is precisely a well-formed key of another
    kind, or a tombstone. *)
Theorem DecodeBarrierCut_exact key value :
  (∀ cut, DecodeBarrierCut key value = Ok (Some cut) ↔
     ∃ k triggeredAt completedAt status topics missing,
       key_ok k ∧ key = key_layout k ∧ bk_kind k = barrierKindCut ∧
       cut_ok triggeredAt completedAt status topics missing ∧
       value = cut_layout triggeredAt completedAt status topics missing ∧
       cut = built_cut k triggeredAt completedAt status topics missing) ∧
  (DecodeBarrierCut key value = Ok None ↔
     ∃ k, key_ok k ∧ key = key_layout k ∧ (bk_kind k ≠ barrierKindCut ∨ value = [])).
Proof.
  assert (zlen value = 0 ↔ value = []) as Hnil.
  { unfold zlen. destruct value; cbn; split; done || lia. }
  unfold DecodeBarrierCut. split.
  - intros cut. rewrite rbind_Ok. split.
    + intros (k & Hk & H). apply decodeBarrierKey_exact in Hk as [Hk ->]. case_decide as Hd; [done|].
      apply rbind_Ok in H as (c & Hc & [= ->]). apply decodeBarrierCutValue_exact in Hc as (a & b & c & d & e & ?).
      exists k, a, b, c, d, e. destruct (decide (bk_kind k = barrierKindCut)); [|tauto]. naive_solver.
    + intros (k & a & b & c & d & e & Hk & -> & Hkind & Hc & -> & ->). exists k.
      split; [by apply decodeBarrierKey_exact|]. rewrite decide_False.
      * apply rbind_Ok. eexists. split; [|done]. apply decodeBarrierCutValue_exact. eauto 10.
      * rewrite Hnil. unfold cut_layout. intros [?|?]; [done|]. discriminate.
  - rewrite rbind_Ok. split.
    + intros (k & Hk & H). apply decodeBarrierKey_exact in Hk as [Hk ->]. exists k. rewrite <- Hnil.
      case_decide; [done|]. apply rbind_Ok in H as (? & ? & ?). done.
    + intros (k & Hk & -> & H). exists k. split; [by apply decodeBarrierKey_exact|].
      rewrite <- Hnil in H. by rewrite decide_True.
Qed.

(** The entries of a partition, in wire order, and what the loops leave of them. *)
Definition entries_of (topics : list (bytes * list (Z * Z))) (p : TopicPartition) : list Z :=
  omap (λ e : bytes * (Z * Z), if decide (MkTP e.1 e.2.1 = p) then Some e.2.2 else None)
    (concat (map (λ t : bytes * list (Z * Z), map (pair t.1) t.2) topics)).

Lemma fill_topic_lookup t l (m : gmap TopicPartition Z) before p :
  m !! p = last before →
  fold_left (λ offsets p, <[MkTP t p.1 := p.2]> offsets) l m !! p =
    last (before ++ omap (λ e : bytes * (Z * Z), if decide (MkTP e.1 e.2.1 = p) then Some e.2.2 else None)
                      (map (pair t) l)).
Proof.
  intros Hm. induction l as [|[q o] l IH] using rev_ind; [by rewrite app_nil_r|].
  rewrite fold_left_app, map_app, omap_app, (assoc_L (++)). cbn.
  destruct (decide (MkTP t q = p)) as [<-|Hne].
  - by rewrite lookup_insert_eq, last_snoc.
  - by rewrite lookup_insert_ne, IH, app_nil_r by done.
Qed.

(** The last entry of a partition wins. *)
Lemma fill_offsets_lookup topics p : fill_offsets topics !! p = last (entries_of topics p).
Proof.
  unfold fill_offsets, entries_of.
  induction topics as [|[t l] topics IH] using rev_ind; [apply lookup_empty|].
  rewrite fold_left_app. cbn [fold_left fst snd]. rewrite map_app, concat_app, omap_app.
  cbn [map concat fst snd]. rewrite app_nil_r. by apply fill_topic_lookup.
Qed.

(** ** The cut reader *)

Definition defaultCutPollTimeout : Z := 250 * 1000000.
Definition defaultCutIdlePolls : Z := 1.

Record CutReader := MkCutReader {
  cr_topic : bytes;
  cr_partitions : list TopicPartition;
  cr_pollTimeout : Z;
  cr_idlePolls : Z;
  cr_positioned : bool;
  cr_cuts : gmap bytes (gmap Z BarrierCut)
}.

Inductive cut_error (E : Type) :=
| NoConsumer
| NoPartition
| NoIdlePoll
| NoTopic
| ClientError (e : E)
| FormatError (e : BarrierFormatError).
Arguments NoConsumer {E}.
Arguments NoPartition {E}.
Arguments NoIdlePoll {E}.
Arguments NoTopic {E}.
Arguments ClientError {E}.
Arguments FormatError {E}.

Definition CutReaderOption : Type := CutReader → CutReader.

Definition WithCutPollTimeout (timeout : Z) : CutReaderOption := λ r,
  MkCutReader (cr_topic r) (cr_partitions r) timeout (cr_idlePolls r) (cr_positioned r) (cr_cuts r).
Definition WithCutIdlePolls (polls : Z) : CutReaderOption := λ r,
  MkCutReader (cr_topic r) (cr_partitions r) (cr_pollTimeout r) polls (cr_positioned r) (cr_cuts r).
Definition WithCutTopic (topic : bytes) : CutReaderOption := λ r,
  MkCutReader topic (cr_partitions r) (cr_pollTimeout r) (cr_idlePolls r) (cr_positioned r) (cr_cuts r).

(** [consumer] says whether the caller passed one. *)
Definition NewCutReader {E} (consumer : bool) (partitions : Z) (options : list CutReaderOption)
    : result (cut_error E) CutReader :=
  check! consumer else NoConsumer in
  check! bool_decide (¬ partitions < 1) else NoPartition in
  let reader := MkCutReader BarrierStateTopic [] defaultCutPollTimeout defaultCutIdlePolls false ∅ in
  let reader := fold_left (λ reader option, option reader) options reader in
  check! bool_decide (¬ cr_idlePolls reader < 1) else NoIdlePoll in
  check! bool_decide (cr_topic reader ≠ []) else NoTopic in
  Ok (MkCutReader (cr_topic reader)
        (map (λ partition, MkTP (cr_topic reader) (Z.of_nat partition)) (seq 0 (Z.to_nat partitions)))
        (cr_pollTimeout reader) (cr_idlePolls reader) (cr_positioned reader) (cr_cuts reader)).

Definition set_cuts (r : CutReader) (cuts : gmap bytes (gmap Z BarrierCut)) : CutReader :=
  MkCutReader (cr_topic r) (cr_partitions r) (cr_pollTimeout r) (cr_idlePolls r) (cr_positioned r) cuts.

Definition set_positioned (r : CutReader) : CutReader :=
  MkCutReader (cr_topic r) (cr_partitions r) (cr_pollTimeout r) (cr_idlePolls r) true (cr_cuts r).

(** The epochs of a group; a missing group reads as an empty map. *)
Definition group_cuts (r : CutReader) (group : bytes) : gmap Z BarrierCut := default ∅ (cr_cuts r !! group).

Definition CutReader_accept (r : CutReader) (record : ConsumedRecord) : result BarrierFormatError CutReader :=
  let* key := decodeBarrierKey (default [] (con_Key record)) in
  if decide (bk_kind key ≠ barrierKindCut) then Ok r else
  if decide (zlen (default [] (con_Value record)) = 0) then
    Ok (set_cuts r (alter (delete (bk_epoch key)) (bk_group key) (cr_cuts r)))
  else
    let* cut := decodeBarrierCutValue key (default [] (con_Value record)) in
    Ok (set_cuts r (<[bk_group key := <[bk_epoch key := cut]> (group_cuts r (bk_group key))]> (cr_cuts r))).

(** The records of one poll, in the order the loops visit them. *)
Fixpoint accept_all (r : CutReader) (records : list ConsumedRecord) : result BarrierFormatError CutReader :=
  match records with
  | [] => Ok r
  | record :: records => let* r := CutReader_accept r record in accept_all r records
  end.

Section Refresh.
Context {X E : Type} (consumer : Consumer X E).

(** The reader and its client change together. A failed record leaves the earlier ones applied. *)
Fixpoint accept_polled (records : list ConsumedRecord) : io (CutReader * X) (cut_error E) unit :=
  match records with
  | [] => io_ret tt
  | record :: records => λ '(r, x),
      match CutReader_accept r record with
      | Ok r => accept_polled records (r, x)
      | Err e => (Err (FormatError e), (r, x))
      end
  end.

Definition client {A} (call : io X E A) : io (CutReader * X) (cut_error E) A :=
  λ '(r, x), let '(result, x) := call x in (rmap_err ClientError result, (r, x)).

Fixpoint seek_all (partitions : list TopicPartition) : io (CutReader * X) (cut_error E) unit :=
  match partitions with
  | [] => io_ret tt
  | partition :: partitions => do* _ := client (Seek consumer partition 0) in seek_all partitions
  end.

Definition position : io (CutReader * X) (cut_error E) unit := λ '(r, x),
  if cr_positioned r then (Ok tt, (r, x))
  else
    (do* _ := client (Assign consumer (cr_partitions r)) in
     do* _ := seek_all (cr_partitions r) in
     λ '(r, x), (Ok tt, (set_positioned r, x))) (r, x).

(** The loop over the polls; [false] is a run that is still polling when the fuel ends. *)
Fixpoint poll_loop (fuel : nat) (idle : Z) : io (CutReader * X) (cut_error E) bool :=
  match fuel with
  | O => io_ret false
  | S fuel => λ '(r, x),
      if idle <? cr_idlePolls r then
        (do* polled := client (Poll consumer (cr_pollTimeout r)) in
         let fetched := concat (map snd polled) in
         do* _ := accept_polled fetched in
         poll_loop fuel (if decide (zlen fetched = 0) then idle + 1 else 0)) (r, x)
      else (Ok true, (r, x))
  end.

Definition refresh (fuel : nat) : io (CutReader * X) (cut_error E) bool :=
  do* _ := position in poll_loop fuel 0.

(** [slices.SortFunc] on the epochs. *)
Definition epoch_le (left right : BarrierCut) : Prop := cut_Epoch left ≤ cut_Epoch right.
#[global] Instance epoch_le_dec : RelDecision epoch_le.
Proof. intros x y. unfold epoch_le. apply _. Defined.

Definition complete_after (r : CutReader) (group : bytes) (epoch : Z) : list BarrierCut :=
  merge_sort epoch_le
    (filter (λ cut, epoch < cut_Epoch cut ∧ Complete cut = true) (map snd (map_to_list (group_cuts r group)))).

Definition CompleteCutsAfter (fuel : nat) (group : bytes) (epoch : Z)
    : io (CutReader * X) (cut_error E) (list BarrierCut) :=
  do* _ := refresh fuel in λ '(r, x), (Ok (complete_after r group epoch), (r, x)).

Definition LatestCompleteCut (fuel : nat) (group : bytes) : io (CutReader * X) (cut_error E) (option BarrierCut) :=
  do* cuts := CompleteCutsAfter fuel group (-1) in io_ret (last cuts).

Definition completeCutAt (fuel : nat) (group : bytes) (epoch : Z)
    : io (CutReader * X) (cut_error E) (option BarrierCut) :=
  do* _ := refresh fuel in λ '(r, x),
    (Ok (match group_cuts r group !! epoch with
         | Some cut => if Complete cut then Some cut else None
         | None => None
         end), (r, x)).
End Refresh.

(** ** What the reader holds *)

(** The record files a cut, or a tombstone, under a group and an epoch. *)
Definition is_cut (group : bytes) (epoch : Z) (record : ConsumedRecord) : Prop :=
  decodeBarrierKey (default [] (con_Key record)) = Ok (MkBarrierKey barrierKindCut group epoch).

#[global] Instance barrierKey_eq_dec : EqDecision barrierKey.
Proof. solve_decision. Defined.
#[global] Instance barrier_part_eq_dec : EqDecision barrier_part.
Proof. solve_decision. Defined.
#[global] Instance barrier_fault_eq_dec : EqDecision barrier_fault.
Proof. solve_decision. Defined.
#[global] Instance BarrierFormatError_eq_dec : EqDecision BarrierFormatError.
Proof. solve_decision. Defined.
#[global] Instance is_cut_dec group epoch record : Decision (is_cut group epoch record).
Proof. unfold is_cut. apply _. Defined.

Definition cut_of (record : ConsumedRecord) : option BarrierCut :=
  match DecodeBarrierCut (default [] (con_Key record)) (default [] (con_Value record)) with
  | Ok cut => cut
  | Err _ => None
  end.

Definition newest_cut (records : list ConsumedRecord) (group : bytes) (epoch : Z) : option BarrierCut :=
  last (filter (is_cut group epoch) records) ≫= cut_of.

Definition fresh_reader (r : CutReader) : Prop := cr_cuts r = ∅.

Lemma group_cuts_set r cuts group : group_cuts (set_cuts r cuts) group = default ∅ (cuts !! group).
Proof. done. Qed.

Lemma accept_lookup r record r' group epoch :
  CutReader_accept r record = Ok r' →
  group_cuts r' group !! epoch =
    if decide (is_cut group epoch record) then cut_of record else group_cuts r group !! epoch.
Proof.
  unfold CutReader_accept, cut_of, DecodeBarrierCut. intros H.
  apply rbind_Ok in H as (k & Hk & H). rewrite Hk. cbn [rbind].
  assert (is_cut group epoch record ↔ k = MkBarrierKey barrierKindCut group epoch) as Hiff.
  { unfold is_cut. rewrite Hk. split; [by intros [= ->]|by intros ->]. }
  destruct (decide (bk_kind k ≠ barrierKindCut)) as [Hkind|Hkind].
  { injection H as <-. rewrite decide_False; [done|]. rewrite Hiff. by intros ->. }
  apply dec_stable in Hkind. destruct (decide (zlen (default [] (con_Value record)) = 0)) as [Hv|Hv].
  - injection H as <-. rewrite group_cuts_set. unfold group_cuts. rewrite (decide_True (P := _ ∨ _)) by auto.
    destruct (decide (bk_group k = group)) as [<-|Hg].
    + rewrite lookup_alter_eq. destruct (cr_cuts r !! bk_group k) as [m|]; cbn.
      * case_decide as Hd; [apply Hiff in Hd as ->; cbn; apply lookup_delete_eq|].
        apply lookup_delete_ne. intros <-. apply Hd, Hiff. by destruct k; cbn in *; subst.
      * rewrite lookup_empty. by case_match.
    + rewrite lookup_alter_ne by done. rewrite decide_False; [done|]. rewrite Hiff. by intros ->.
  - apply rbind_Ok in H as (cut & Hcut & [= <-]). rewrite group_cuts_set. rewrite (decide_False (P := _ ∨ _)) by tauto.
    rewrite Hcut. cbn [rbind]. destruct (decide (bk_group k = group)) as [<-|Hg].
    + rewrite lookup_insert_eq. cbn. case_decide as Hd.
      * apply Hiff in Hd as ->. cbn. apply lookup_insert_eq.
      * rewrite lookup_insert_ne; [done|]. intros <-. apply Hd, Hiff. by destruct k; cbn in *; subst.
    + rewrite lookup_insert_ne by done. rewrite decide_False; [done|]. rewrite Hiff. by intros ->.
Qed.

Lemma accept_all_lookup r records r' group epoch :
  accept_all r records = Ok r' →
  group_cuts r' group !! epoch =
    match last (filter (is_cut group epoch) records) with
    | Some record => cut_of record
    | None => group_cuts r group !! epoch
    end.
Proof.
  revert r. induction records as [|record records IH]; cbn [accept_all]; intros r H; [by injection H as ->|].
  apply rbind_Ok in H as (r1 & H1 & H). rewrite (IH _ H), (accept_lookup _ _ _ _ _ H1), filter_cons.
  case_decide; [|done]. rewrite last_cons. by destruct (last _).
Qed.

Lemma cut_of_key record group epoch cut :
  is_cut group epoch record → cut_of record = Some cut → cut_Group cut = group ∧ cut_Epoch cut = epoch.
Proof.
  unfold is_cut, cut_of, DecodeBarrierCut. intros ->. cbn [rbind]. case_decide; [done|].
  destruct (decodeBarrierCutValue _ _) eqn:E; [|done]. cbn. intros [= ->].
  apply decodeBarrierCutValue_exact in E as (? & ? & ? & ? & ? & _ & _ & ->). done.
Qed.

Lemma newest_cut_key records group epoch cut :
  newest_cut records group epoch = Some cut → cut_Group cut = group ∧ cut_Epoch cut = epoch.
Proof.
  unfold newest_cut. destruct (last _) as [record|] eqn:E; [|done]. cbn. apply cut_of_key.
  apply last_Some_elem_of, list_elem_of_filter in E. tauto.
Qed.

#[global] Instance epoch_le_total : Total epoch_le.
Proof. intros x y. unfold epoch_le. lia. Qed.
#[global] Instance epoch_le_trans : Transitive epoch_le.
Proof. intros x y z. unfold epoch_le. lia. Qed.

(** [CompleteCutsAfter] lists, oldest first and without a repeated epoch, exactly the complete cuts
    of the group above the epoch, where the newest record of an epoch decides: a later cut replaces an
    earlier one, a tombstone removes it, and records of other kinds and groups change nothing. *)
Theorem CompleteCutsAfter_spec records r r' group epoch :
  fresh_reader r → accept_all r records = Ok r' →
  StronglySorted (λ left right, cut_Epoch left < cut_Epoch right) (complete_after r' group epoch) ∧
  ∀ cut, cut ∈ complete_after r' group epoch ↔
    newest_cut records group (cut_Epoch cut) = Some cut ∧ Complete cut = true ∧ epoch < cut_Epoch cut.
Proof.
  intros Hf H.
  assert (∀ e, group_cuts r' group !! e = newest_cut records group e) as Hl.
  { intros e. rewrite (accept_all_lookup _ _ _ _ _ H). unfold newest_cut. destruct (last _); [done|].
    unfold group_cuts. by rewrite Hf, lookup_empty. }
  assert (∀ cut, cut ∈ map snd (map_to_list (group_cuts r' group)) ↔
    newest_cut records group (cut_Epoch cut) = Some cut) as Hin.
  { intros cut. rewrite list_elem_of_fmap. split.
    - intros ([e c] & -> & Hc%elem_of_map_to_list). cbn. rewrite Hl in Hc.
      pose proof (newest_cut_key _ _ _ _ Hc) as [_ <-]. done.
    - intros Hc. exists (cut_Epoch cut, cut). split; [done|]. apply elem_of_map_to_list. by rewrite Hl. }
  split.
  - apply StronglySorted_strict; [apply (StronglySorted_merge_sort epoch_le)|].
    unfold complete_after. change (map ?f ?l) with (f <$> l). rewrite merge_sort_Permutation.
    apply NoDup_map_filter. change (map ?f ?l) with (f <$> l). rewrite <- list_fmap_compose.
    rewrite (list_fmap_ext _ fst); [apply NoDup_fst_map_to_list|].
    intros i [e c] Hi%list_elem_of_lookup_2%elem_of_map_to_list. cbn. rewrite Hl in Hi.
    by apply newest_cut_key in Hi as [_ ->].
  - intros cut. unfold complete_after. rewrite merge_sort_Permutation, list_elem_of_filter, Hin. tauto.
Qed.

(** ** A refresh reads the topic to its end *)

Section Drain.
Context {X E : Type} (consumer : Consumer X E).
(** A client with a backlog of fetches: a poll returns the next one, and nothing once they are gone. *)
Context (backlog : X → list (list (TopicPartition * list ConsumedRecord))).
Context (Hnext : ∀ timeout x batch rest, backlog x = batch :: rest →
           ∃ x', Poll consumer timeout x = (Ok batch, x') ∧ backlog x' = rest)
  (Hidle : ∀ timeout x, backlog x = [] → ∃ x', Poll consumer timeout x = (Ok [], x') ∧ backlog x' = []).

Lemma accept_all_app r l1 l2 :
  accept_all r (l1 ++ l2) = (let* r1 := accept_all r l1 in accept_all r1 l2).
Proof.
  revert r. induction l1 as [|a l1 IH]; intros r; [done|]. cbn.
  destruct (CutReader_accept r a); cbn; [apply IH|done].
Qed.

Lemma accept_all_positioned r l :
  accept_all (set_positioned r) l = (let* r' := accept_all r l in Ok (set_positioned r')).
Proof.
  revert r. induction l as [|a l IH]; intros r; [done|]. cbn [accept_all].
  assert (CutReader_accept (set_positioned r) a = (let* r' := CutReader_accept r a in Ok (set_positioned r'))) as ->.
  { unfold CutReader_accept. destruct (decodeBarrierKey _) as [k|]; cbn [rbind]; [|done].
    case_decide; [done|]. case_decide; [done|]. by destruct (decodeBarrierCutValue _ _). }
  destruct (CutReader_accept r a); cbn [rbind]; [apply IH|done].
Qed.

Lemma accept_polled_all records r r' (x : X) :
  accept_all r records = Ok r' → accept_polled (E := E) records (r, x) = (Ok tt, (r', x)).
Proof.
  revert r. induction records as [|record records IH]; cbn; intros r H; [by injection H as ->|].
  apply rbind_Ok in H as (r1 & -> & H). by apply IH.
Qed.

Lemma accept_all_config r records r' :
  accept_all r records = Ok r' → cr_idlePolls r' = cr_idlePolls r ∧ cr_positioned r' = cr_positioned r.
Proof.
  revert r. induction records as [|record records IH]; cbn; intros r H; [by injection H as ->|].
  apply rbind_Ok in H as (r1 & H1 & H). destruct (IH _ H) as [-> ->].
  unfold CutReader_accept in H1. reader_inv; done.
Qed.

Lemma idle_polls n r x idle fuel :
  backlog x = [] → cr_idlePolls r - idle ≤ Z.of_nat n → (n < fuel)%nat →
  ∃ x', poll_loop consumer fuel idle (r, x) = (Ok true, (r, x')) ∧ backlog x' = [].
Proof.
  revert x idle fuel. induction n as [|n IH]; intros x idle fuel Hx Hi Hf; (destruct fuel as [|fuel]; [lia|]);
    cbn [poll_loop]; destruct (Z.ltb_spec idle (cr_idlePolls r)); try lia; eauto.
  destruct (Hidle (cr_pollTimeout r) x Hx) as (x1 & Hp & Hx1).
  assert (client (Poll consumer (cr_pollTimeout r)) (r, x) = (Ok [], (r, x1))) as Hc
    by (unfold client; by rewrite Hp).
  io_run Hc. cbn [map concat accept_polled]. rewrite (io_bind_run _ _ (r, x1) tt (r, x1)) by done.
  rewrite decide_True by done. apply IH; [done|lia|lia].
Qed.

Lemma drain_polls batches r r' x idle fuel :
  backlog x = batches → Forall (λ b, concat (map snd b) ≠ []) batches →
  accept_all r (concat (map (λ b, concat (map snd b)) batches)) = Ok r' → 0 ≤ idle < cr_idlePolls r →
  (length batches + S (Z.to_nat (cr_idlePolls r)) ≤ fuel)%nat →
  ∃ x', poll_loop consumer fuel idle (r, x) = (Ok true, (r', x')) ∧ backlog x' = [].
Proof.
  revert r x idle fuel. induction batches as [|b batches IH]; intros r x idle fuel Hx Hne Ha Hi Hf.
  - cbn in Ha. injection Ha as <-. eapply (idle_polls (Z.to_nat (cr_idlePolls r))); [done|lia|cbn in Hf; lia].
  - cbn in Hf. destruct fuel as [|fuel]; [lia|]. apply Forall_cons in Hne as [Hb Hne].
    cbn [map concat] in Ha. cbn [poll_loop]. rewrite (proj2 (Z.ltb_lt _ _)) by lia.
    destruct (Hnext (cr_pollTimeout r) x b batches Hx) as (x1 & Hp & Hx1).
    rewrite accept_all_app in Ha. apply rbind_Ok in Ha as (r1 & Hr1 & Hr').
    assert (client (Poll consumer (cr_pollTimeout r)) (r, x) = (Ok b, (r, x1))) as Hc
      by (unfold client; by rewrite Hp).
    io_run Hc. io_run (accept_polled_all _ _ _ x1 Hr1). rewrite decide_False
      by (unfold zlen; destruct (concat (map snd b)); [done|cbn; lia]).
    destruct (accept_all_config _ _ _ Hr1) as [Hidl _].
    apply IH; [done|done|done|lia|lia].
Qed.

Lemma seek_all_runs partitions r x :
  (∀ p x, ∃ x', Seek consumer p 0 x = (Ok tt, x') ∧ backlog x' = backlog x) →
  ∃ x', seek_all consumer partitions (r, x) = (Ok tt, (r, x')) ∧ backlog x' = backlog x.
Proof.
  intros Hs. revert x. induction partitions as [|p partitions IH]; intros x; [by exists x|].
  destruct (Hs p x) as (x1 & Hp & Hx1). cbn [seek_all].
  assert (client (Seek consumer p 0) (r, x) = (Ok tt, (r, x1))) as Hc by (unfold client; by rewrite Hp).
  io_run Hc. rewrite <- Hx1. apply IH.
Qed.
End Drain.

(** A refresh reads the topic to its end and returns. Whatever the backlog of non-empty fetches, a
    first read (which assigns and seeks) and a later one (which resumes) apply every record of it in
    order, and stop after the configured number of empty polls. *)
Theorem refresh_drains {X E} (consumer : Consumer X E) (backlog : X → list (list (TopicPartition * list ConsumedRecord)))
    r r' x :
  (∀ timeout x batch rest, backlog x = batch :: rest →
     ∃ x', Poll consumer timeout x = (Ok batch, x') ∧ backlog x' = rest) →
  (∀ timeout x, backlog x = [] → ∃ x', Poll consumer timeout x = (Ok [], x') ∧ backlog x' = []) →
  (∀ p x, ∃ x', Seek consumer p 0 x = (Ok tt, x') ∧ backlog x' = backlog x) →
  (∀ ps x, ∃ x', Assign consumer ps x = (Ok tt, x') ∧ backlog x' = backlog x) →
  Forall (λ b, concat (map snd b) ≠ []) (backlog x) → 1 ≤ cr_idlePolls r →
  accept_all r (concat (map (λ b, concat (map snd b)) (backlog x))) = Ok r' →
  ∃ polls, ∀ fuel, (polls ≤ fuel)%nat → ∃ x',
    refresh consumer fuel (r, x) = (Ok true, (set_positioned r', x')) ∧ backlog x' = [].
Proof.
  intros Hnext Hidle Hseek Hassign Hne Hi Ha.
  exists (length (backlog x) + S (Z.to_nat (cr_idlePolls r)))%nat. intros fuel Hf.
  assert (∃ x1, position consumer (r, x) = (Ok tt, (set_positioned r, x1)) ∧ backlog x1 = backlog x)
    as (x1 & Hp & Hx1).
  { unfold position. destruct (cr_positioned r) eqn:Hr.
    - exists x. split; [|done]. destruct r. cbn in Hr. by subst.
    - destruct (Hassign (cr_partitions r) x) as (x1 & Has & Hx1).
      destruct (seek_all_runs (E := E) consumer backlog (cr_partitions r) r x1 Hseek) as (x2 & Hs & Hx2).
      assert (client (Assign consumer (cr_partitions r)) (r, x) = (Ok tt, (r, x1))) as Hc
        by (unfold client; by rewrite Has).
      exists x2. io_run Hc. io_run Hs. split; [done|congruence]. }
  unfold refresh. io_run Hp.
  apply (drain_polls consumer backlog Hnext Hidle (backlog x)); [done|done| |cbn; lia|done].
  rewrite accept_all_positioned, Ha. done.
Qed.

(** ** A concrete topic *)

Definition demo_cut (epoch status : Z) (topics : list (bytes * list (Z * Z))) : ConsumedRecord :=
  NewConsumedRecord (Some (key_layout (MkBarrierKey barrierKindCut (str "audit") epoch)))
    (Some (cut_layout 1 2 status topics [])) 0 0 epoch [].

Definition demo_records : list ConsumedRecord :=
  [demo_cut 4 CutComplete [(str "orders", [(0, 10)])];
   demo_cut 5 CutPartial [(str "orders", [(0, 20)])];
   demo_cut 6 CutComplete [(str "orders", [(0, 30); (1, 7)])];
   NewConsumedRecord (Some (key_layout (MkBarrierKey barrierKindCut (str "audit") 4))) None 0 0 9 []].

Definition demo_reader : CutReader := MkCutReader BarrierStateTopic [MkTP BarrierStateTopic 0] 1 1 false ∅.

(** A client whose state is its backlog. *)
Definition demo_client : Consumer (list (list (TopicPartition * list ConsumedRecord))) unit := {|
  Assign _ := λ x, (Ok tt, x);
  Seek _ _ := λ x, (Ok tt, x);
  Poll _ := λ x, match x with [] => (Ok [], []) | batch :: x => (Ok batch, x) end;
  CommitOffsets _ := λ x, (Ok tt, x);
  Subscribe _ := λ x, (Ok tt, x);
  Positions := None
|}.

Definition demo_cuts : CutReader :=
  match accept_all demo_reader demo_records with Ok r => r | Err _ => demo_reader end.

Lemma demo_accepts : accept_all demo_reader demo_records = Ok demo_cuts.
Proof. by vm_compute. Qed.

Definition demo_complete : BarrierCut :=
  MkCut (str "audit") 6 1 2 CutComplete
    (fill_offsets [(str "orders", [(0, 30); (1, 7)])]) [].

Lemma CompleteCutsAfter_spec_witness :
  complete_after demo_cuts (str "audit") (-1) = [demo_complete] ∧
  newest_cut demo_records (str "audit") 6 = Some demo_complete.
Proof.
  assert (complete_after demo_cuts (str "audit") (-1) = [demo_complete]) as H by by_decide.
  split; [exact H|].
  destruct (CompleteCutsAfter_spec demo_records demo_reader demo_cuts (str "audit") (-1) eq_refl demo_accepts)
    as [_ Hin].
  apply (Hin demo_complete). rewrite H. apply list_elem_of_here.
Defined.

Lemma refresh_drains_witness :
  ∃ polls x', refresh demo_client polls (demo_reader, [[(MkTP BarrierStateTopic 0, demo_records)]]) =
    (Ok true, (set_positioned demo_cuts, x')).
Proof.
  destruct (refresh_drains demo_client (λ x, x) demo_reader demo_cuts
    [[(MkTP BarrierStateTopic 0, demo_records)]]) as [polls H].
  - intros timeout x batch rest ->. exists rest. split; reflexivity.
  - intros timeout x ->. exists []. split; reflexivity.
  - intros p x. exists x. split; reflexivity.
  - intros ps x. exists x. split; reflexivity.
  - constructor; [discriminate|constructor].
  - discriminate.
  - cbn [map concat snd]. rewrite !app_nil_r. exact demo_accepts.
  - destruct (H polls (Nat.le_refl _)) as (x' & Hr & _). exists polls, x'. exact Hr.
Defined.
