(* ===== verification/Names.v ===== *)
(** * The names that values print, from coordination and columnar

    The [String] methods of record kinds, cut statuses, actions and leadership statuses. *)

From S2P Require Import Prelude GoStd GoNet Record Succession Leadership Barrier.

#[local] Open Scope Z_scope.

(** A value without a name prints its type and its number. *)
Definition numbered (type : bytes) (n : Z) : bytes := type ++ str "(" ++ FormatInt n ++ str ")".

Definition RecordKind_String (k : RecordKind) : bytes :=
  if k =? KindRegistration then str "registration" else if k =? KindLease then str "lease" else numbered (str "RecordKind") k.

Definition CutStatus_String (s : CutStatus) : bytes :=
  if s =? CutComplete then str "complete" else if s =? CutPartial then str "partial" else numbered (str "CutStatus") s.

Definition Action_String (a : Action) : bytes :=
  match a with
  | ActionNotRegistered => str "not registered"
  | ActionHold => str "hold"
  | ActionChallenge => str "challenge"
  | ActionWait => str "wait"
  end.

Definition LeadershipStatus_String (s : LeadershipStatus) : bytes :=
  if status_Held s then str "role " ++ role_name (status_Role s) ++ str ": epoch " ++ FencingToken_String (status_Token s)
  else str "role " ++ role_name (status_Role s) ++ str ": no epoch".

Lemma numbered_inj type : Inj (=) (=) (numbered type).
Proof. intros m n H. unfold numbered in H. apply app_inv_head, app_inv_head, app_inv_tail in H. by apply (inj FormatInt). Qed.

(** Two values print alike only if they are one value: the names are no text that a number prints. *)
Theorem names_told_apart :
  Inj (=) (=) RecordKind_String ∧ Inj (=) (=) CutStatus_String ∧ Inj (=) (=) Action_String.
Proof.
  split_and!.
  - intros m n. unfold RecordKind_String. unfold KindRegistration, KindLease.
    destruct (Z.eqb_spec m 0), (Z.eqb_spec m 1), (Z.eqb_spec n 0), (Z.eqb_spec n 1); subst; try done; apply numbered_inj.
  - intros m n. unfold CutStatus_String. unfold CutComplete, CutPartial.
    destruct (Z.eqb_spec m 0), (Z.eqb_spec m 1), (Z.eqb_spec n 0), (Z.eqb_spec n 1); subst; try done; apply numbered_inj.
  - by intros [] [].
Qed.
