(* ===== verification/Aligner.v ===== *)
(** * Barrier alignment

    The [barrierAligner] of [columnar/barrieralign.go]: it truncates every partition at the pending cut,
    holds the records past it, and fires once every partition it waits for reached the cut. A Go map of
    type [map[TopicPartition]bool] that only ever holds [true] is a [gset]. *)

From S2P Require Import Prelude GoStd Kafka Barrier.

Record BarrierReached := MkBarrier {
  bar_Cut : BarrierCut;
  bar_Partitions : list Z;
  bar_Offsets : gmap TopicPartition Z
}.

#[global] Instance BarrierReached_eq_dec : EqDecision BarrierReached.
Proof. solve_decision. Defined.

Record barrierAligner := MkAligner {
  al_group : bytes;
  al_lastEpoch : Z;
  al_pending : option BarrierCut;
  al_aligned : gmap TopicPartition Z;
  al_reached : gset TopicPartition;
  al_held : gmap TopicPartition (list ConsumedRecord);
  al_positions : gmap TopicPartition Z;
  al_assigned : gset TopicPartition
}.

Definition newBarrierAligner (group : bytes) : barrierAligner := MkAligner group (-1) None ∅ ∅ ∅ ∅ ∅.

(** [a.positions[partition]]: zero for a partition that is not there. *)
Definition position_of (a : barrierAligner) (partition : TopicPartition) : Z :=
  default 0 (al_positions a !! partition).

Definition owns (a : barrierAligner) (partition : TopicPartition) : bool :=
  if decide (al_assigned a = ∅) then true else bool_decide (partition ∈ al_assigned a).

(** The three loops of [realign]. The first adds to [reached], the second keeps the partitions that are
    aligned, the third drops what is held for a partition that is neither aligned nor owned. *)
Definition realign (a : barrierAligner) : barrierAligner :=
  match al_pending a with
  | None => a
  | Some cut =>
      let aligned := filter (λ p : TopicPartition * Z, owns a p.1 = true) (cut_Offsets cut) in
      let passed := dom (filter (λ p : TopicPartition * Z, p.2 ≤ position_of a p.1) aligned) in
      let reached := filter (λ p, p ∈ dom aligned) (al_reached a ∪ passed) in
      let held := filter (λ p : TopicPartition * list ConsumedRecord,
                            p.1 ∈ dom aligned ∨ owns a p.1 = true) (al_held a) in
      MkAligner (al_group a) (al_lastEpoch a) (al_pending a) aligned reached held (al_positions a) (al_assigned a)
  end.

Definition begin (a : barrierAligner) (cut : BarrierCut) : barrierAligner :=
  realign (MkAligner (al_group a) (al_lastEpoch a) (Some cut) (al_aligned a) ∅ (al_held a)
             (al_positions a) (al_assigned a)).

Definition set_assigned (a : barrierAligner) (assigned : gset TopicPartition) : barrierAligner :=
  MkAligner (al_group a) (al_lastEpoch a) (al_pending a) (al_aligned a) (al_reached a) (al_held a)
    (al_positions a) assigned.

(** [refresh] with the answer of [CompleteCutsAfter]; the source asks only when no cut is pending. *)
Definition refresh_with (a : barrierAligner) (assigned : gset TopicPartition) (cuts : list BarrierCut)
    : barrierAligner :=
  let a := set_assigned a assigned in
  match al_pending a with
  | Some _ => realign a
  | None => match cuts with [] => a | cut :: _ => begin a cut end
  end.

Definition alignedPartitions (a : barrierAligner) : list TopicPartition :=
  merge_sort tp_le (map fst (map_to_list (al_aligned a))).

Definition set_positions (a : barrierAligner) (positions : gmap TopicPartition Z) : barrierAligner :=
  MkAligner (al_group a) (al_lastEpoch a) (al_pending a) (al_aligned a) (al_reached a) (al_held a)
    positions (al_assigned a).

(** [a.positions[partition] = max(a.positions[partition], position)] for every entry of a map. *)
Definition raise_positions (old new : gmap TopicPartition Z) : gmap TopicPartition Z :=
  merge (λ old new, match new with
                    | Some position => Some (Z.max (default 0 old) position)
                    | None => old
                    end) old new.

Definition observePositions (a : barrierAligner) (positions : gmap TopicPartition Z) : barrierAligner :=
  match al_pending a with
  | None => a
  | Some _ => realign (set_positions a (raise_positions (al_positions a) positions))
  end.

(** The held records in front of the fetched ones; the entries come out in the order of the new map. *)
Definition merge_held (a : barrierAligner) (polled : list (TopicPartition * list ConsumedRecord))
    : barrierAligner * list (TopicPartition * list ConsumedRecord) :=
  if decide (al_held a = ∅) then (a, polled)
  else
    let merged := fold_left (λ merged p, <[p.1 := default [] (merged !! p.1) ++ p.2]> merged) polled (al_held a) in
    (MkAligner (al_group a) (al_lastEpoch a) (al_pending a) (al_aligned a) (al_reached a) ∅
       (al_positions a) (al_assigned a), map_to_list merged).

(** The index of the first record at or past the cut. *)
Fixpoint split_at (cutOffset : Z) (records : list ConsumedRecord) : nat :=
  match records with
  | [] => O
  | record :: records => if cutOffset <=? con_Offset record then O else S (split_at cutOffset records)
  end.

Definition accept (a : barrierAligner) (partition : TopicPartition) (records : list ConsumedRecord)
    : barrierAligner * list ConsumedRecord :=
  let positions :=
    match last records with
    | Some record => <[partition := Z.max (position_of a partition) (con_Offset record + 1)]> (al_positions a)
    | None => al_positions a
    end in
  let a := set_positions a positions in
  match al_aligned a !! partition with
  | None => (a, records)
  | Some cutOffset =>
      let split := split_at cutOffset records in
      let held :=
        if decide (split < length records)%nat
        then <[partition := default [] (al_held a !! partition) ++ drop split records]> (al_held a)
        else al_held a in
      let reached :=
        if cutOffset <=? position_of a partition then {[partition]} ∪ al_reached a else al_reached a in
      (MkAligner (al_group a) (al_lastEpoch a) (al_pending a) (al_aligned a) reached held
         (al_positions a) (al_assigned a), take split records)
  end.

Definition fired (a : barrierAligner) : bool :=
  match al_pending a with
  | None => false
  | Some _ => bool_decide (dom (al_aligned a) ⊆ al_reached a)
  end.

(** The offsets raised to the cut, and the barrier. [barrier] runs after [fired] only, with a cut. *)
Definition raise_offsets (aligned offsets : gmap TopicPartition Z) : gmap TopicPartition Z :=
  merge (λ cut current, match cut, current with
                        | Some cutOffset, Some current => Some (if current <? cutOffset then cutOffset else current)
                        | Some cutOffset, None => Some cutOffset
                        | None, current => current
                        end) aligned offsets.

Definition barrier (a : barrierAligner) (cut : BarrierCut) (offsets : gmap TopicPartition Z)
    : gmap TopicPartition Z * BarrierReached :=
  let offsets := raise_offsets (al_aligned a) offsets in
  (offsets, MkBarrier cut (sorted_ints (map (λ p, tp_Partition p.1) (map_to_list (al_aligned a))))
              (filter (λ p : TopicPartition * Z, p.1 ∈ dom (al_aligned a)) offsets)).

(** The call of the listener is the caller's business. *)
Definition finish (a : barrierAligner) (b : BarrierReached) : barrierAligner :=
  MkAligner (al_group a) (cut_Epoch (bar_Cut b)) None ∅ ∅ (al_held a)
    (raise_positions (al_positions a) (bar_Offsets b)) (al_assigned a).

Definition restored (a : barrierAligner) (cut : BarrierCut) (targets : list TopicPartition) : barrierAligner :=
  MkAligner (al_group a) (cut_Epoch cut) None ∅ ∅ ∅
    (fold_left (λ positions p, <[p := default 0 (cut_Offsets cut !! p)]> positions) targets (al_positions a))
    (al_assigned a).

(** ** One round *)

(** The partitions of a poll, accepted one after another. *)
Fixpoint accept_each (a : barrierAligner) (polled : list (TopicPartition * list ConsumedRecord))
    : barrierAligner * list (TopicPartition * list ConsumedRecord) :=
  match polled with
  | [] => (a, [])
  | (p, records) :: polled =>
      let '(a, kept) := accept a p records in
      let '(a, rest) := accept_each a polled in (a, (p, kept) :: rest)
  end.

(** The loop of [processPoll] over a poll skips an empty entry; it records the offset after the last kept
    record of a partition. *)
Definition nonempty (polled : list (TopicPartition * list ConsumedRecord)) : list (TopicPartition * list ConsumedRecord) :=
  filter (λ p, p.2 ≠ []) polled.

Definition next_offsets (kept : list (TopicPartition * list ConsumedRecord)) : gmap TopicPartition Z :=
  list_to_map (omap (λ p : TopicPartition * list ConsumedRecord,
    match last p.2 with Some record => Some (p.1, con_Offset record + 1) | None => None end) kept).

(** The aligner through one round that succeeds: the next cut, the observed positions, the held and the
    fetched records, and the barrier if it fires. *)
Definition round (a : barrierAligner) (assigned : gset TopicPartition) (cuts : list BarrierCut)
    (observed : gmap TopicPartition Z) (polled : list (TopicPartition * list ConsumedRecord))
    : barrierAligner * list (TopicPartition * list ConsumedRecord) * option BarrierReached :=
  let a := observePositions (refresh_with a assigned cuts) observed in
  let '(a, merged) := merge_held a polled in
  let '(a, kept) := accept_each a (nonempty merged) in
  match al_pending a with
  | Some cut =>
      if fired a then
        let b := (barrier a cut (next_offsets kept)).2 in (finish a b, kept, Some b)
      else (a, kept, None)
  | None => (a, kept, None)
  end.

(** ** One partition at a time *)

(** The records of a partition in a poll, whose entries have distinct partitions. *)
Definition records_at (p : TopicPartition) (polled : list (TopicPartition * list ConsumedRecord)) : list ConsumedRecord :=
  default [] ((list_to_map polled : gmap _ _) !! p).

Definition held_at (a : barrierAligner) (p : TopicPartition) : list ConsumedRecord := default [] (al_held a !! p).

Lemma records_at_nil p : records_at p [] = [].
Proof. done. Qed.

Lemma records_at_cons p q rs polled :
  records_at p ((q, rs) :: polled) = if decide (q = p) then rs else records_at p polled.
Proof.
  unfold records_at. cbn. case_decide; [subst; by rewrite lookup_insert_eq|by rewrite lookup_insert_ne].
Qed.

Lemma records_at_not_in p polled : p ∉ map fst polled → records_at p polled = [].
Proof.
  intros H. unfold records_at. by rewrite not_elem_of_list_to_map_1.
Qed.

Lemma records_at_map_to_list p (m : gmap TopicPartition (list ConsumedRecord)) :
  records_at p (map_to_list m) = default [] (m !! p).
Proof. unfold records_at. by rewrite list_to_map_to_list. Qed.

Lemma records_at_nonempty p polled : NoDup (map fst polled) → records_at p (nonempty polled) = records_at p polled.
Proof.
  induction polled as [|[q rs] polled IH]; [done|]. cbn. intros [Hq Hn]%NoDup_cons. 
  case_decide as Hd; rewrite ?records_at_cons; (case_decide as Hp; [|by apply IH]).
  - done.
  - subst. etrans; [by apply IH|by apply records_at_not_in].
Qed.

Lemma nonempty_NoDup polled : NoDup (map fst polled) → NoDup (map fst (nonempty polled)).
Proof. apply NoDup_map_filter. Qed.

(** What a call of [accept] does to its own partition, and that it leaves the others alone. *)
Lemma accept_other a q rs p :
  q ≠ p →
  let a' := (accept a q rs).1 in
  held_at a' p = held_at a p ∧ position_of a' p = position_of a p ∧ (p ∈ al_reached a' ↔ p ∈ al_reached a).
Proof.
  intros Hne. unfold accept, held_at, position_of, set_positions. cbn.
  destruct (al_aligned a !! q); cbn.
  - split_and!.
    + case_decide; [by rewrite lookup_insert_ne|done].
    + destruct (last rs); [by rewrite lookup_insert_ne|done].
    + case_match; set_solver.
  - split_and!; [done| |done]. destruct (last rs); [by rewrite lookup_insert_ne|done].
Qed.

Lemma accept_frame a q rs :
  let a' := (accept a q rs).1 in
  al_aligned a' = al_aligned a ∧ al_pending a' = al_pending a ∧ al_assigned a' = al_assigned a ∧
  al_lastEpoch a' = al_lastEpoch a.
Proof. unfold accept. cbn. by destruct (al_aligned a !! q). Qed.

(** The position after a batch. *)
Definition position_after (position : Z) (rs : list ConsumedRecord) : Z :=
  match last rs with Some record => Z.max position (con_Offset record + 1) | None => position end.

Lemma accept_own a p rs :
  let '(a', kept) := accept a p rs in
  position_of a' p = position_after (position_of a p) rs ∧
  match al_aligned a !! p with
  | None => kept = rs ∧ held_at a' p = held_at a p ∧ (p ∈ al_reached a' ↔ p ∈ al_reached a)
  | Some c =>
      kept = take (split_at c rs) rs ∧ held_at a' p = held_at a p ++ drop (split_at c rs) rs ∧
      (p ∈ al_reached a' ↔ p ∈ al_reached a ∨ c ≤ position_of a' p)
  end.
Proof.
  unfold accept, held_at, position_after. cbn. unfold position_of, set_positions. cbn.
  destruct (al_aligned a !! p) as [c|] eqn:Ha; cbn.
  - split_and!; [by destruct (last rs); [rewrite lookup_insert_eq|]|done| |].
    + case_decide as Hd; [by rewrite lookup_insert_eq|]. rewrite drop_ge by lia. by rewrite app_nil_r.
    + case_match eqn:Hc; [apply Z.leb_le in Hc|apply Z.leb_gt in Hc]; set_solver by lia.
  - split_and!; [by destruct (last rs); [rewrite lookup_insert_eq|]|done..].
Qed.

Lemma accept_each_frame a polled :
  let a' := (accept_each a polled).1 in
  al_aligned a' = al_aligned a ∧ al_pending a' = al_pending a ∧ al_assigned a' = al_assigned a ∧
  al_lastEpoch a' = al_lastEpoch a.
Proof.
  revert a. induction polled as [|[q rs] polled IH]; intros a; [done|]. cbn.
  pose proof (accept_frame a q rs) as Hf. destruct (accept a q rs) as [a1 kept]. specialize (IH a1).
  destruct (accept_each a1 polled) as [a2 rest]. cbn in *.
  destruct Hf as (H1 & H2 & H3 & H4). by rewrite <- H1, <- H2, <- H3, <- H4.
Qed.

Lemma accept_each_keys a polled : map fst (accept_each a polled).2 = map fst polled.
Proof.
  revert a. induction polled as [|[q rs] polled IH]; intros a; [done|]. cbn.
  destruct (accept a q rs) as [a1 kept]. specialize (IH a1). destruct (accept_each a1 polled). cbn in *. by rewrite IH.
Qed.

(** The round of one partition. *)
Lemma accept_each_at a polled p :
  NoDup (map fst polled) →
  let '(a', kept) := accept_each a polled in
  let rs := records_at p polled in
  position_of a' p = position_after (position_of a p) rs ∧
  match al_aligned a !! p with
  | None => records_at p kept = rs ∧ held_at a' p = held_at a p ∧ (p ∈ al_reached a' → p ∈ al_reached a)
  | Some c =>
      records_at p kept = take (split_at c rs) rs ∧ held_at a' p = held_at a p ++ drop (split_at c rs) rs ∧
      (p ∈ al_reached a' → p ∈ al_reached a ∨ c ≤ position_of a' p)
  end.
Proof.
  revert a. induction polled as [|[q rs] polled IH]; intros a; cbn.
  { intros _. split; [done|]. destruct (al_aligned a !! p); [|done]. cbn. rewrite app_nil_r. auto. }
  intros [Hq Hn]%NoDup_cons. pose proof (accept_frame a q rs) as (Hf & _).
  pose proof (accept_own a q rs) as Hown. pose proof (accept_other a q rs p) as Hoth.
  destruct (accept a q rs) as [a1 kept]. cbn [fst] in *.
  specialize (IH a1 Hn). destruct (accept_each a1 polled) as [a2 rest] eqn:E. rewrite Hf in IH.
  rewrite !records_at_cons. destruct (decide (q = p)) as [<-|Hne].
  - rewrite (records_at_not_in q polled) in IH by done. destruct Hown as [Hpos Hown], IH as [Hpos2 IH].
    cbn in Hpos2. rewrite Hpos2. split; [done|]. destruct (al_aligned a !! q) as [c|].
    + destruct Hown as (-> & Hh & Hr), IH as (_ & Hh2 & Hr2). cbn in Hh2. rewrite app_nil_r in Hh2.
      split_and!; [done|congruence|]. intros Hin. apply Hr2 in Hin as [Hin|Hin]; [|right; lia].
      apply Hr in Hin as [?|?]; [by left|right; lia].
    + destruct Hown as (-> & Hh & Hr), IH as (_ & Hh2 & Hr2). split_and!; [done|congruence|]. rewrite <- Hr. done.
  - destruct (Hoth Hne) as (Hh & Hp & Hr). rewrite Hh, Hp in IH. destruct IH as [Hpos IH]. split; [done|].
    destruct (al_aligned a !! p) as [c|]; destruct IH as (Hk & Hh2 & Hr2); (split_and!; [done..|]);
      rewrite <- Hr; done.
Qed.

Lemma merge_fold_at p polled (m : gmap TopicPartition (list ConsumedRecord)) :
  NoDup (map fst polled) →
  default [] (fold_left (λ merged p, <[p.1 := default [] (merged !! p.1) ++ p.2]> merged) polled m !! p) =
    default [] (m !! p) ++ records_at p polled.
Proof.
  revert m. induction polled as [|[q rs] polled IH]; intros m; cbn; [by rewrite app_nil_r|].
  intros [Hq Hn]%NoDup_cons. rewrite IH, records_at_cons by done. case_decide as Hp.
  - subst. rewrite lookup_insert_eq. cbn. rewrite records_at_not_in by done. by rewrite app_nil_r.
  - by rewrite lookup_insert_ne.
Qed.

Lemma merge_held_spec a polled :
  NoDup (map fst polled) →
  let '(a', merged) := merge_held a polled in
  NoDup (map fst merged) ∧ (∀ p, records_at p merged = held_at a p ++ records_at p polled) ∧
  (∀ p, held_at a' p = []) ∧ (∀ p, position_of a' p = position_of a p) ∧ al_aligned a' = al_aligned a ∧
  al_pending a' = al_pending a ∧ al_reached a' = al_reached a ∧ al_assigned a' = al_assigned a.
Proof.
  intros Hn. unfold merge_held. case_decide as Hh.
  - unfold held_at. rewrite Hh. setoid_rewrite lookup_empty. done.
  - split_and!; try done; [apply NoDup_fst_map_to_list|]. intros p. rewrite records_at_map_to_list.
    by apply merge_fold_at.
Qed.

(** ** Positions, cuts and alignment *)

(** Does a runner with this assignment wait for the partition? *)
Definition waits_for (assigned : gset TopicPartition) (p : TopicPartition) : bool :=
  if decide (assigned = ∅) then true else bool_decide (p ∈ assigned).

Lemma realign_spec a cut :
  al_pending a = Some cut →
  let a' := realign a in
  al_pending a' = Some cut ∧ al_assigned a' = al_assigned a ∧ al_positions a' = al_positions a ∧
  (∀ p, al_aligned a' !! p = if waits_for (al_assigned a) p then cut_Offsets cut !! p else None) ∧
  (∀ p, waits_for (al_assigned a) p = true → held_at a' p = held_at a p) ∧
  (∀ p, p ∈ al_reached a' →
     p ∈ dom (al_aligned a') ∧ (p ∈ al_reached a ∨ ∃ c, al_aligned a' !! p = Some c ∧ c ≤ position_of a p)).
Proof.
  intros Hc. unfold realign. rewrite Hc. cbn. split_and!; try done.
  - intros p. rewrite map_lookup_filter. assert (owns a p = waits_for (al_assigned a) p) as Ho by done.
    destruct (cut_Offsets cut !! p); cbn; [|by destruct (waits_for _ p)].
    case_guard as Hw; cbn; rewrite Ho in Hw; [by rewrite Hw|]. by destruct (waits_for _ p).
  - intros p Hp. unfold held_at. cbn. rewrite map_lookup_filter. destruct (al_held a !! p) as [l|]; [|done]. cbn.
    rewrite option_guard_True; [done|]. right. apply Hp.
  - intros p [Hp Hin]%elem_of_filter. split; [done|].
    apply elem_of_union in Hin as [?|Hin]; [by left|right]. apply elem_of_dom in Hin as [c Hin].
    apply map_lookup_filter_Some in Hin as [Hc' Hle]. by exists c.
Qed.

Lemma raise_positions_ge a positions p :
  position_of a p ≤ position_of (set_positions a (raise_positions (al_positions a) positions)) p.
Proof.
  unfold position_of, set_positions, raise_positions. cbn. rewrite lookup_merge.
  destruct (al_positions a !! p), (positions !! p); cbn; lia.
Qed.

(** The aligner is at a cut for an assignment, or at none. *)
Definition at_cut (assigned : gset TopicPartition) (a : barrierAligner) : Prop :=
  match al_pending a with
  | Some cut =>
      (∀ p, al_aligned a !! p = if waits_for assigned p then cut_Offsets cut !! p else None) ∧
      (∀ p, p ∈ al_reached a → ∃ c, al_aligned a !! p = Some c ∧ c ≤ position_of a p)
  | None => al_aligned a = ∅ ∧ al_reached a = ∅
  end.

(** What a round leaves behind: like [at_cut], without the alignment of the next round. *)
Definition between (assigned : gset TopicPartition) (a : barrierAligner) : Prop :=
  match al_pending a with
  | Some cut => ∀ p, p ∈ al_reached a →
      ∃ c, waits_for assigned p = true ∧ cut_Offsets cut !! p = Some c ∧ c ≤ position_of a p
  | None => al_aligned a = ∅ ∧ al_reached a = ∅
  end.

Lemma at_cut_between assigned a : at_cut assigned a → between assigned a.
Proof.
  unfold at_cut, between. destruct (al_pending a); [|done]. intros [Ha Hr] p Hp.
  destruct (Hr p Hp) as (c & Hc & Hle). rewrite Ha in Hc. destruct (waits_for assigned p); [|done]. eauto.
Qed.

Lemma realign_at_cut a cut :
  al_pending a = Some cut → between (al_assigned a) a → at_cut (al_assigned a) (realign a).
Proof.
  intros Hc Hb. destruct (realign_spec a cut Hc) as (Hp & Has & Hpos & Ha & _ & Hr). unfold at_cut. rewrite Hp.
  split; [done|]. intros p [Hdom Hin]%Hr. assert (position_of (realign a) p = position_of a p) as ->
    by (unfold position_of; by rewrite Hpos).
  destruct Hin as [Hin|?]; [|done]. unfold between in Hb. rewrite Hc in Hb.
  destruct (Hb p Hin) as (c & Hw & Hoff & Hle). exists c. by rewrite Ha, Hw.
Qed.

(** Taking the next cut and the observed positions keeps what is held and only raises positions. *)
Lemma start_round a assigned cuts observed :
  between assigned a → (∀ p, held_at a p ≠ [] → waits_for assigned p = true) →
  let a' := observePositions (refresh_with a assigned cuts) observed in
  at_cut assigned a' ∧ al_assigned a' = assigned ∧ (∀ p, held_at a' p = held_at a p) ∧
  (∀ p, position_of a p ≤ position_of a' p).
Proof.
  intros Hb Hheld.
  assert (∀ b cut, al_pending b = Some cut → al_assigned b = assigned → between assigned b →
    (∀ p, held_at b p = held_at a p) →
    at_cut assigned (realign b) ∧ al_assigned (realign b) = assigned ∧ al_pending (realign b) = Some cut ∧
    (∀ p, held_at (realign b) p = held_at a p) ∧ al_positions (realign b) = al_positions b) as Hre.
  { intros b cut Hp Has Hbt Hh. destruct (realign_spec b cut Hp) as (H1 & H2 & H3 & _ & H5 & _).
    split_and!; [rewrite <- Has in *; by eapply realign_at_cut|congruence|done| |done].
    intros p. destruct (waits_for assigned p) eqn:Hw; [rewrite H5; [done|by rewrite Has]|].
    assert (held_at b p = []) as Hnil.
    { rewrite Hh. destruct (held_at a p) eqn:E; [done|]. rewrite Hheld in Hw; [done|by rewrite E]. }
    rewrite <- Hh, Hnil. unfold realign. rewrite Hp. unfold held_at in *. cbn. rewrite map_lookup_filter.
    destruct (al_held b !! p) as [l|]; [|done]. cbn in Hnil. subst l. cbn. by case_guard. }
  assert (let r := refresh_with a assigned cuts in at_cut assigned r ∧ al_assigned r = assigned ∧
    (∀ p, held_at r p = held_at a p) ∧ al_positions r = al_positions a) as (H1 & H2 & H3 & H4).
  { unfold refresh_with, begin. destruct (al_pending (set_assigned a assigned)) as [cut|] eqn:Hp.
    - destruct (Hre (set_assigned a assigned) cut) as (? & ? & _ & ? & ?); try done. 
    - destruct cuts as [|cut cuts].
      + split_and!; try done. unfold between in Hb. unfold at_cut. cbn in *. by rewrite Hp in *.
      + edestruct (Hre (MkAligner (al_group a) (al_lastEpoch a) (Some cut) (al_aligned a) ∅ (al_held a)
             (al_positions a) assigned) cut) as (? & ? & _ & ? & ?); done. }
  set (r := refresh_with a assigned cuts) in *. unfold observePositions.
  destruct (al_pending r) as [cut|] eqn:Hp.
  - edestruct (Hre (set_positions r (raise_positions (al_positions r) observed)) cut) as (H5 & H6 & _ & H7 & H8);
      [done|done| |done|].
    + apply at_cut_between in H1. unfold between in *. cbn. rewrite Hp in *. intros p Hin.
      destruct (H1 p Hin) as (c & ? & ? & ?). exists c. split_and!; [done..|].
      etrans; [|apply raise_positions_ge]. done.
    + split_and!; [done..|]. intros p. unfold position_of at 2. rewrite H8.
      change (default 0 _) with (position_of (set_positions r (raise_positions (al_positions r) observed)) p).
      etrans; [|apply raise_positions_ge]. unfold position_of. by rewrite H4.
  - split_and!; [done..|]. intros p. unfold position_of. by rewrite H4.
Qed.

(** ** Runs without a failure and without a rebalance *)

(** The client delivers in order: every record of a poll is at or past the position of its partition,
    and the entries of a poll name distinct partitions. *)
Definition in_order (a : barrierAligner) (polled : list (TopicPartition * list ConsumedRecord)) : Prop :=
  NoDup (map fst polled) ∧
  ∀ p, StronglySorted (λ x y, con_Offset x < con_Offset y) (records_at p polled) ∧
    ∀ r, r ∈ records_at p polled → position_of a p ≤ con_Offset r.

(** The aligner, with what each partition has delivered so far and what of it was processed. *)
Inductive runs (assigned : gset TopicPartition) :
    barrierAligner → (TopicPartition → list ConsumedRecord) → (TopicPartition → list ConsumedRecord) → Prop :=
| runs_start group : runs assigned (newBarrierAligner group) (λ _, []) (λ _, [])
| runs_round a F P cuts observed polled a' kept b :
    runs assigned a F P →
    in_order (observePositions (refresh_with a assigned cuts) observed) polled →
    round a assigned cuts observed polled = (a', kept, b) →
    runs assigned a' (λ p, F p ++ records_at p polled) (λ p, P p ++ records_at p kept).

Record run_inv (assigned : gset TopicPartition) (a : barrierAligner)
    (F P : TopicPartition → list ConsumedRecord) : Prop := {
  inv_split p : F p = P p ++ held_at a p;
  inv_sorted p : StronglySorted (λ x y, con_Offset x < con_Offset y) (F p);
  inv_position p r : r ∈ F p → con_Offset r < position_of a p;
  inv_waits p : held_at a p ≠ [] → waits_for assigned p = true;
  inv_between : between assigned a
}.

Lemma split_at_spec c rs :
  StronglySorted (λ x y, con_Offset x < con_Offset y) rs →
  Forall (λ r, con_Offset r < c) (take (split_at c rs) rs) ∧ Forall (λ r, c ≤ con_Offset r) (drop (split_at c rs) rs).
Proof.
  induction 1 as [|r rs Hs [IH1 IH2] Hall]; [done|]. cbn. destruct (Z.leb_spec c (con_Offset r)).
  - split; [done|]. constructor; [done|]. eapply Forall_impl; [done|]. cbn. lia.
  - split; [|done]. by constructor.
Qed.

Lemma position_after_ge position rs : position ≤ position_after position rs.
Proof. unfold position_after. destruct (last rs); lia. Qed.

Lemma position_after_lt position rs r :
  StronglySorted (λ x y, con_Offset x < con_Offset y) rs → r ∈ rs → con_Offset r < position_after position rs.
Proof.
  intros Hs Hr. unfold position_after. induction rs as [|x rs _] using rev_ind; [by apply not_elem_of_nil in Hr|].
  rewrite last_snoc. apply StronglySorted_app in Hs as (Hs & _ & _).
  apply elem_of_app in Hr as [Hr|Hr%list_elem_of_singleton]; [|subst; lia].
  specialize (Hs r x Hr). cbn in Hs. assert (con_Offset r < con_Offset x) by (apply Hs; set_solver). lia.
Qed.

(** One round, before a barrier closes it. *)
Lemma round_accepts assigned a F P cuts observed polled :
  run_inv assigned a F P → in_order (observePositions (refresh_with a assigned cuts) observed) polled →
  let a1 := observePositions (refresh_with a assigned cuts) observed in
  let '(a2, merged) := merge_held a1 polled in
  let '(a3, kept) := accept_each a2 (nonempty merged) in
  run_inv assigned a3 (λ p, F p ++ records_at p polled) (λ p, P p ++ records_at p kept) ∧
  NoDup (map fst kept) ∧ at_cut assigned a3 ∧
  (∀ p c, al_aligned a3 !! p = Some c →
     Forall (λ r, con_Offset r < c) (records_at p kept) ∧ Forall (λ r, c ≤ con_Offset r) (held_at a3 p)).
Proof.
  intros [Hsplit Hsorted Hpos Hwaits Hbt] [Hn Hord].
  pose proof (start_round a assigned cuts observed Hbt Hwaits) as (Hcut & Has & Hheld & Hge).
  set (a1 := observePositions (refresh_with a assigned cuts) observed) in *. cbn.
  pose proof (merge_held_spec a1 polled Hn) as Hm. destruct (merge_held a1 polled) as [a2 merged].
  destruct Hm as (Hnm & Hrec & Hnil & Hpos2 & Hal & Hpen & Hrea & Has2).
  pose proof (accept_each_frame a2 (nonempty merged)) as Hfr.
  pose proof (accept_each_keys a2 (nonempty merged)) as Hkeys.
  pose proof (λ p, accept_each_at a2 (nonempty merged) p (nonempty_NoDup _ Hnm)) as Hat.
  destruct (accept_each a2 (nonempty merged)) as [a3 kept]. cbn in Hfr, Hkeys.
  destruct Hfr as (Hal3 & Hpen3 & Has3 & _).
  assert (∀ p, records_at p (nonempty merged) = held_at a p ++ records_at p polled) as Hrs.
  { intros p. by rewrite records_at_nonempty, Hrec, Hheld. }
  assert (∀ p, F p ++ records_at p polled = P p ++ (held_at a p ++ records_at p polled)) as HF.
  { intros p. by rewrite (Hsplit p), (assoc_L (++)). }
  assert (∀ p, StronglySorted (λ x y, con_Offset x < con_Offset y) (F p ++ records_at p polled)) as HsF.
  { intros p. apply StronglySorted_app. destruct (Hord p) as [Hs Hlo]. split_and!; [|done|done].
    intros x y Hx Hy. specialize (Hpos p x Hx). specialize (Hlo y Hy). specialize (Hge p). lia. }
  assert (∀ p, StronglySorted (λ x y, con_Offset x < con_Offset y) (held_at a p ++ records_at p polled)) as Hsr.
  { intros p. specialize (HsF p). rewrite HF in HsF. by apply StronglySorted_app in HsF as (_ & _ & ?). }
  assert (∀ p, position_of a3 p = position_after (position_of a1 p) (held_at a p ++ records_at p polled)) as Hp3.
  { intros p. destruct (Hat p) as [-> _]. by rewrite Hrs, Hpos2. }
  assert (∀ p, match al_aligned a1 !! p with
               | None => records_at p kept = held_at a p ++ records_at p polled ∧ held_at a3 p = [] ∧
                         (p ∈ al_reached a3 → p ∈ al_reached a1)
               | Some c =>
                   records_at p kept = take (split_at c (held_at a p ++ records_at p polled)) (held_at a p ++ records_at p polled) ∧
                   held_at a3 p = drop (split_at c (held_at a p ++ records_at p polled)) (held_at a p ++ records_at p polled) ∧
                   (p ∈ al_reached a3 → p ∈ al_reached a1 ∨ c ≤ position_of a3 p)
               end) as Hown.
  { intros p. destruct (Hat p) as [_ H]. rewrite Hal, Hrs, Hnil, Hrea in H. done. }
  assert (∀ p, records_at p kept ++ held_at a3 p = held_at a p ++ records_at p polled) as Hkept.
  { intros p. specialize (Hown p). destruct (al_aligned a1 !! p) as [c|].
    - destruct Hown as (-> & -> & _). apply take_drop.
    - destruct Hown as (-> & -> & _). apply app_nil_r. }
  assert (al_aligned a3 = al_aligned a1 ∧ al_pending a3 = al_pending a1) as [Hal' Hpen'] by (split; congruence).
  assert (at_cut assigned a3) as Hcut3.
  { unfold at_cut in *. rewrite Hpen', Hal'. destruct (al_pending a1); destruct Hcut as [Hc1 Hc2]; (split; [done|]).
    - intros p Hp. specialize (Hown p). destruct (al_aligned a1 !! p) as [c|] eqn:Hc.
      + exists c. split; [done|]. destruct Hown as (_ & _ & Hr). apply Hr in Hp as [Hp|?]; [|done].
        apply Hc2 in Hp as (c' & Hc' & Hle). rewrite Hc in Hc'. injection Hc' as <-. rewrite Hp3.
        etrans; [done|apply position_after_ge].
      + destruct Hown as (_ & _ & Hr). apply Hr, Hc2 in Hp as (c' & Hc' & _). by rewrite Hc in Hc'.
    - apply set_eq. intros p. split; [|by intros ?%elem_of_empty]. intros Hp. specialize (Hown p).
      rewrite Hc1, lookup_empty in Hown. destruct Hown as (_ & _ & Hr). apply Hr in Hp. by rewrite Hc2 in Hp. }
  split_and!; [|by rewrite Hkeys; apply nonempty_NoDup|done|].
  - split.
    + intros p. by rewrite <- (assoc_L (++)), Hkept, HF.
    + done.
    + intros p r Hr. rewrite Hp3. rewrite HF in Hr. apply elem_of_app in Hr as [Hr|Hr].
      * assert (r ∈ F p) as Hr' by (rewrite Hsplit; set_solver). specialize (Hpos p r Hr'). specialize (Hge p).
        pose proof (position_after_ge (position_of a1 p) (held_at a p ++ records_at p polled)). lia.
      * by apply position_after_lt.
    + intros p Hne. specialize (Hown p). unfold at_cut in Hcut. destruct (al_aligned a1 !! p) as [c|] eqn:Hc.
      * destruct (al_pending a1); destruct Hcut as [Hc1 _].
        -- rewrite Hc1 in Hc. by destruct (waits_for assigned p).
        -- by rewrite Hc1, lookup_empty in Hc.
      * exfalso. apply Hne, Hown.
    + by apply at_cut_between.
  - intros p c. rewrite Hal'. intros Hc. specialize (Hown p). rewrite Hc in Hown. destruct Hown as (-> & -> & _).
    by apply split_at_spec.
Qed.

Lemma runs_inv assigned a F P : runs assigned a F P → run_inv assigned a F P.
Proof.
  induction 1 as [group|a F P cuts observed polled a' kept b _ IH Ho Hr].
  - split; try done; [intros p; constructor|by intros p r ?%not_elem_of_nil].
  - pose proof (round_accepts assigned a F P cuts observed polled IH Ho) as H. cbv zeta in H.
    unfold round in Hr. destruct (merge_held _ polled) as [a2 merged].
    destruct (accept_each a2 (nonempty merged)) as [a3 kept3]. destruct H as (Hinv & _ & _ & _).
    destruct (al_pending a3) as [cut|]; [|by injection Hr as <- <- <-].
    destruct (fired a3); [|by injection Hr as <- <- <-]. injection Hr as <- <- <-.
    destruct Hinv as [H1 H2 H3 H4 _]. split; try done. intros p r Hin. specialize (H3 p r Hin).
    pose proof (raise_positions_ge a3 (bar_Offsets (barrier a3 cut (next_offsets kept3)).2) p) as Hge.
    unfold position_of, set_positions in Hge. unfold position_of in *. cbn in *. lia.
Qed.

Lemma next_offsets_lookup kept p :
  NoDup (map fst kept) →
  next_offsets kept !! p = (λ record, con_Offset record + 1) <$> last (records_at p kept).
Proof.
  intros Hn. unfold next_offsets. induction kept as [|[q rs] kept IH]; [done|]. cbn in *.
  apply NoDup_cons in Hn as [Hq Hn]. rewrite records_at_cons. specialize (IH Hn).
  destruct (last rs) as [r|] eqn:Hl; cbn; case_decide as Hp; subst.
  - rewrite lookup_insert_eq, Hl. done.
  - by rewrite lookup_insert_ne.
  - rewrite Hl. rewrite IH. by rewrite records_at_not_in.
  - done.
Qed.


(** ** Concrete rounds *)

Definition demo_topic : bytes := str "t".
Definition demo_p0 : TopicPartition := MkTP demo_topic 0.
Definition demo_p1 : TopicPartition := MkTP demo_topic 1.

Definition demo_record (partition offset : Z) : ConsumedRecord :=
  NewConsumedRecord None (Some [x00]) 0 partition offset [].

Definition demo_barrier_cut (epoch o0 o1 : Z) : BarrierCut :=
  MkCut (str "audit") epoch 0 0 CutComplete (<[demo_p0 := o0]> {[demo_p1 := o1]}) [].

Definition demo_poll (l0 l1 : list Z) : list (TopicPartition * list ConsumedRecord) :=
  [(demo_p0, map (demo_record 0) l0); (demo_p1, map (demo_record 1) l1)].

Definition demo_both : gset TopicPartition := {[demo_p0; demo_p1]}.

(** The first round reaches the first cut in both partitions and holds the offsets 12 and 16. *)
Definition demo_round1 := round (newBarrierAligner (str "audit")) demo_both [demo_barrier_cut 1 10 3] ∅
  (demo_poll [8; 9; 12; 16] [1; 2]).

Definition demo_barrier1 : BarrierReached :=
  MkBarrier (demo_barrier_cut 1 10 3) [0; 1] (<[demo_p0 := 10]> {[demo_p1 := 3]}).

#[local] Strategy expand [demo_round1].

Lemma demo_in_order :
  in_order (observePositions (refresh_with (newBarrierAligner (str "audit")) demo_both [demo_barrier_cut 1 10 3]) ∅)
    (demo_poll [8; 9; 12; 16] [1; 2]).
Proof.
  split; [by_decide|]. intros p.
  replace (position_of _ p) with 0.
  2:{ unfold position_of. replace (al_positions _) with (∅ : gmap TopicPartition Z) by (vm_compute; reflexivity).
      by rewrite lookup_empty. }
  unfold demo_poll. rewrite !records_at_cons, records_at_nil.
  assert (∀ l, StronglySorted Z.lt l → Forall (Z.le 0) l → ∀ n,
    StronglySorted (λ x y, con_Offset x < con_Offset y) (map (demo_record n) l) ∧
    ∀ r, r ∈ map (demo_record n) l → 0 ≤ con_Offset r) as Hmap.
  { intros l Hs Hf n. split.
    - clear Hf. induction Hs as [|o l Hs IH Hall]; constructor; [done|]. apply Forall_map. exact Hall.
    - apply Forall_forall, Forall_map. exact Hf. }
  repeat case_decide; [apply Hmap..|exact (Hmap [] ltac:(constructor) ltac:(constructor) 0)].
  - repeat constructor.
  - repeat constructor; discriminate.
  - repeat constructor.
  - repeat constructor; discriminate.
Qed.

Lemma demo_round1_reaches : demo_round1.2 = Some demo_barrier1.
Proof. by_decide. Qed.

Lemma round_fires a assigned cuts observed polled b :
  (round a assigned cuts observed polled).2 = Some b →
  round a assigned cuts observed polled =
    ((round a assigned cuts observed polled).1.1, (round a assigned cuts observed polled).1.2, Some b).
Proof. by destruct (round _ _ _ _ _) as [[? ?] ?]; intros [= ->]. Qed.


(** A rebalance between two rounds: partition 0 leaves, and comes back at its committed offset. *)
Definition demo_round2 := round demo_round1.1.1 {[demo_p1]} [demo_barrier_cut 2 15 5] ∅ [].
Definition demo_round3 := round demo_round2.1.1 demo_both [] ∅ (demo_poll [] [4]).

(** A rebalance breaks the barrier. The aligner keeps the position of a partition that the runner
    lost, although it drops the records it held for it. When the partition comes back before the next
    cut, it counts as being at the cut at once, and the barrier can fire and commit the cut offset
    while the dropped records below it were never processed. *)
Theorem rebalance_skips_records :
  (b ← demo_round1.2; bar_Offsets b !! demo_p0) = Some 10 ∧
  demo_record 0 12 ∈ held_at demo_round1.1.1 demo_p0 ∧
  cut_Epoch ∘ bar_Cut <$> demo_round3.2 = Some 2 ∧
  (b ← demo_round3.2; bar_Offsets b !! demo_p0) = Some 15 ∧
  held_at demo_round3.1.1 demo_p0 = [] ∧
  demo_record 0 12 ∉ records_at demo_p0 demo_round1.1.2 ++ records_at demo_p0 demo_round2.1.2 ++
                     records_at demo_p0 demo_round3.1.2.
Proof. split_and!; by_decide. Qed.
