(* ===== verification/Store.v ===== *)
(** * The state store of columnar/statestore.go

    The interface [StateStore] with the laws a runner relies on, the file store over a directory whose
    calls can fail, stop half way or lose the process, the error policy and the metrics. *)

From S2P Require Import Prelude GoStd Kafka.

(** ** The interface *)

Definition NoEpoch : Z := -1.

(** A snapshot of a partition: the serialized state of each stateful node, by node name. *)
Abbreviation snapshot := (gmap bytes bytes).

(** [StateStore], over a store state [W] and with store errors [E]. *)
Record StateStore (W E : Type) := MkStore {
  Load : Z → Z → io W E snapshot;
  Save : Z → Z → snapshot → io W E unit
}.
Arguments MkStore {W E}.
Arguments Load {W E}.
Arguments Save {W E}.

(** [noStateStore]: it loads nothing and saves nothing. *)
Definition NoStateStore {W E} : StateStore W E := MkStore (λ _ _, io_ret ∅) (λ _ _ _, io_ret tt).

(** What a durable store promises. [stored] reads a snapshot out of the store state ([None] when it is
    there but unreadable), and [fits] says which snapshots the store can hold. *)
Class StoreLaws {W E} (store : StateStore W E) (stored : W → Z → Z → option snapshot)
    (fits : snapshot → Prop) : Prop := {
  load_reads : ∀ p e w m w', Load store p e w = (Ok m, w') → stored w p e = Some m;
  load_frame : ∀ p e w r w', Load store p e w = (r, w') → ∀ q f, stored w' q f = stored w q f;
  save_frame : ∀ p e m w r w', Save store p e m w = (r, w') →
    ∀ q f, (q, f) ≠ (p, e) → stored w' q f = stored w q f;
  save_stores : ∀ p e m w w', fits m → Save store p e m w = (Ok tt, w') → stored w' p e = Some m;
  save_atomic : ∀ p e m w r w', fits m → Save store p e m w = (r, w') →
    stored w' p e = stored w p e ∨ stored w' p e = Some m
}.

(** ** The directory *)

(** How a file system call ends: it completes, it fails after some progress, or the process dies after
    some progress. The progress of a write is a number of bytes; the progress of any other call is none
    or all of it. *)
Inductive outcome := Done | Fail (progress : nat) | Crash (progress : nat).

(** The directory of the store. [fs_outcomes] are the outcomes of the calls to come (they complete when
    the list ends), and [fs_random] the random parts that [os.CreateTemp] tries. *)
Record fs := MkFs {
  fs_files : gmap bytes bytes;
  fs_dead : bool;
  fs_outcomes : list outcome;
  fs_random : list bytes
}.

Inductive store_error :=
| CannotLoad (partition : Z)
| CannotSave (partition : Z)
| UnsupportedVersion
| TrailingBytes.

Definition fs_effect (s : fs) (files : gmap bytes bytes) (dead : bool) : fs :=
  MkFs files dead (tail (fs_outcomes s)) (fs_random s).

(** One call, with its effect on the files after some progress. *)
Definition fs_call {A : Type} (full : nat) (effect : nat → gmap bytes bytes → gmap bytes bytes) (a : gmap bytes bytes → A)
    : io fs unit A := λ s,
  if fs_dead s then (Err tt, s) else
  match hd Done (fs_outcomes s) with
  | Done => (Ok (a (fs_files s)), fs_effect s (effect full (fs_files s)) false)
  | Fail n => (Err tt, fs_effect s (effect (n `min` full)%nat (fs_files s)) false)
  | Crash n => (Err tt, fs_effect s (effect (n `min` full)%nat (fs_files s)) true)
  end.

(** An effect that a call has once or not at all. *)
Definition once (f : gmap bytes bytes → gmap bytes bytes) (progress : nat) (files : gmap bytes bytes)
    : gmap bytes bytes := match progress with O => files | S _ => f files end.

Definition os_MkdirAll : io fs unit unit := fs_call 1 (once id) (λ _, tt).
Definition os_ReadFile (name : bytes) : io fs unit (option bytes) :=
  fs_call 1 (once id) (λ files, files !! name).
Definition os_Write (name data : bytes) : io fs unit unit :=
  fs_call (length data) (λ n files, <[name := default [] (files !! name) ++ take n data]> files) (λ _, tt).
Definition os_Close : io fs unit unit := fs_call 1 (once id) (λ _, tt).
Definition os_Remove (name : bytes) : io fs unit unit := fs_call 1 (once (delete name)) (λ _, tt).
Definition os_Rename (old new : bytes) : io fs unit unit :=
  fs_call 1 (once (λ files, match files !! old with
                            | Some data => <[new := data]> (delete old files)
                            | None => files
                            end)) (λ _, tt).

(** [os.CreateTemp(dir, prefix + "*" + suffix)]: the first random name that does not exist yet. *)
Definition os_CreateTemp (prefix suffix : bytes) : io fs unit bytes := λ s,
  match filter (λ name, fs_files s !! name = None) (map (λ r, prefix ++ r ++ suffix) (fs_random s)) with
  | name :: _ => fs_call 1 (once <[name := []]>) (λ _, name) s
  | [] => (Err tt, s)
  end.

(** [defer f()]: it runs on every path, and its own error is ignored. *)
Definition io_defer {W E F A B} (f : io W F B) (m : io W E A) : io W E A :=
  λ w, let '(r, w) := m w in let '(_, w) := f w in (r, w).

(** ** The file format *)

Definition fileStateStoreVersion : Z := 1.

Definition encode_snapshot (m : snapshot) : bytes :=
  let buffer := be_encode 4 fileStateStoreVersion in
  let buffer := buffer ++ be_encode 4 (uint32 (Z.of_nat (size m))) in
  fold_left (λ buffer name, appendSized (appendSized buffer name) (default [] (m !! name))) (sorted_keys m) buffer.

Definition snapshot_entry : reader snapshot_error (bytes * bytes) :=
  read* name := valueReader_sized in read* value := valueReader_sized in rret (name, value).

Definition decode_snapshot (partition : Z) (data : bytes) : result store_error snapshot :=
  match valueReader_uint32 data with
  | Ok (version, data) =>
      if decide (version ≠ fileStateStoreVersion) then Err UnsupportedVersion else
      let* p := rmap_err (λ _, CannotLoad partition)
        ((read* count := valueReader_uint32 in read_list (Z.to_nat count) snapshot_entry) data) in
      let '(entries, rest) := p in
      if decide (zlen rest ≠ 0) then Err TrailingBytes else
      Ok (fold_left (λ m entry, <[entry.1 := entry.2]> m) entries ∅)
  | Err _ => Err UnsupportedVersion
  end.

(** ** The file store *)

(** The path inside the directory of the store. *)
Definition file (partition epoch : Z) : bytes :=
  if decide (epoch = NoEpoch) then str "partition-" ++ FormatInt partition ++ str ".snapshot"
  else str "partition-" ++ FormatInt partition ++ str "-epoch-" ++ FormatInt epoch ++ str ".snapshot".

Definition FileStateStore_Load (partition epoch : Z) : io fs store_error snapshot :=
  do* data := io_map_err (λ _, CannotLoad partition) (os_ReadFile (file partition epoch)) in
  match data with
  | None => io_ret ∅
  | Some data => io_lift (decode_snapshot partition data)
  end.

Definition FileStateStore_Save (partition epoch : Z) (m : snapshot) : io fs store_error unit :=
  io_map_err (λ _, CannotSave partition)
    (do* _ := os_MkdirAll in
     do* temporary := os_CreateTemp (str "partition-" ++ FormatInt partition ++ str "-") (str ".tmp") in
     io_defer (os_Remove temporary)
       (io_try (os_Write temporary (encode_snapshot m)) (λ written,
          match written with
          | Err e => io_defer os_Close (io_fail e)
          | Ok _ => do* _ := os_Close in os_Rename temporary (file partition epoch)
          end))).

Definition FileStateStore : StateStore fs store_error := MkStore FileStateStore_Load FileStateStore_Save.

(** ** The error policy *)

Inductive ErrorPolicyAction := ActionFail | ActionSkip | ActionDeadLetter.

#[global] Instance ErrorPolicyAction_eq_dec : EqDecision ErrorPolicyAction.
Proof. solve_decision. Defined.

Record ErrorPolicy := MkPolicy { policy_Action : ErrorPolicyAction; policy_DeadLetterTopic : bytes }.

Definition FailPolicy : ErrorPolicy := MkPolicy ActionFail [].
Definition SkipPolicy : ErrorPolicy := MkPolicy ActionSkip [].
Definition DeadLetterPolicy (topic : bytes) : ErrorPolicy := MkPolicy ActionDeadLetter topic.

(** [validate]: both of its errors have the same text. *)
Definition validate (p : ErrorPolicy) : bool :=
  if bool_decide (policy_Action p = ActionDeadLetter) && bool_decide (policy_DeadLetterTopic p = []) then false
  else if bool_decide (policy_Action p ≠ ActionDeadLetter) && bool_decide (policy_DeadLetterTopic p ≠ []) then false
  else true.

(** ** The metrics *)

Record Metrics := MkMetrics {
  m_batches : Z; m_inputRecords : Z; m_outputRecords : Z;
  m_failures : Z; m_deadLetterRecords : Z; m_processingNanos : Z
}.

Definition NewMetrics : Metrics := MkMetrics 0 0 0 0 0 0.

Definition recordBatch (m : Metrics) (input output nanos : Z) : Metrics :=
  MkMetrics (int64 (m_batches m + 1)) (int64 (m_inputRecords m + input)) (int64 (m_outputRecords m + output))
    (m_failures m) (m_deadLetterRecords m) (int64 (m_processingNanos m + nanos)).

Definition recordFailure (m : Metrics) (input deadLetters nanos : Z) : Metrics :=
  MkMetrics (int64 (m_batches m + 1)) (int64 (m_inputRecords m + input)) (m_outputRecords m)
    (int64 (m_failures m + 1)) (int64 (m_deadLetterRecords m + deadLetters)) (int64 (m_processingNanos m + nanos)).

(** [MetricsSnapshot] has the same six totals, and [Snapshot] reads them one after another. *)
Definition MetricsSnapshot : Type := Metrics.
Definition Metrics_Snapshot (m : Metrics) : MetricsSnapshot :=
  MkMetrics (m_batches m) (m_inputRecords m) (m_outputRecords m)
    (m_failures m) (m_deadLetterRecords m) (m_processingNanos m).

(** ** File names *)

Lemma digits_inj m n : 0 ≤ m → 0 ≤ n → digits m = digits n → m = n.
Proof.
  intros Hm Hn H. pose proof (parse_digits_digits m 0 Hm) as H1. rewrite H, (parse_digits_digits n 0 Hn) in H1.
  injection H1 as H1. lia.
Qed.

(** The bytes of a formatted number: a sign or digits. *)
Definition is_number (b : byte) : Prop := b = ascii_byte "-" ∨ in_range b 48 57 = true.

Lemma FormatInt_number n : Forall is_number (FormatInt n).
Proof.
  assert (∀ m, Forall is_number (digits m)) as H.
  { intros m. eapply Forall_impl; [apply digits_Forall|]. by right. }
  unfold FormatInt. destruct (n <? 0); [constructor; [by left|]|]; apply H.
Qed.

Lemma FormatInt_inj m n : FormatInt m = FormatInt n → m = n.
Proof.
  assert (∀ k ds, digits k = ascii_byte "-" :: ds → False) as Hminus.
  { intros k ds H. pose proof (digits_Forall k) as Hd. rewrite H in Hd. by apply Forall_cons in Hd as [Hd _]. }
  unfold FormatInt. destruct (Z.ltb_spec m 0), (Z.ltb_spec n 0); intros Hf.
  - injection Hf as Hf. apply digits_inj in Hf; lia.
  - by apply eq_sym, Hminus in Hf.
  - by apply Hminus in Hf.
  - by apply digits_inj in Hf.
Qed.

(** Two words over an alphabet, each followed by a byte outside of it, are split in the same place. *)
Lemma split_unique {A} (P : A → Prop) x y s t a b :
  Forall P x → Forall P y → ¬ P a → ¬ P b → x ++ a :: s = y ++ b :: t → x = y ∧ a :: s = b :: t.
Proof.
  intros Hx. revert y. induction Hx as [|c x Hc Hx IH]; intros y Hy Ha Hb H.
  - destruct Hy as [|d y Hd Hy]; [done|]. by injection H as ->.
  - destruct Hy as [|d y Hd Hy]; [by injection H as ->|]. injection H as -> H.
    by destruct (IH y Hy Ha Hb H) as [-> ?].
Qed.

Definition is_digit (b : byte) : Prop := in_range b 48 57 = true.

Lemma FormatInt_split m n a b s t :
  ¬ is_digit a → ¬ is_digit b → FormatInt m ++ a :: s = FormatInt n ++ b :: t → m = n ∧ a :: s = b :: t.
Proof.
  intros Ha Hb. pose proof (digits_nonempty m). pose proof (digits_nonempty n).
  assert (∀ k ds, digits k = ascii_byte "-" :: ds → False) as Hminus.
  { intros k ds H1. pose proof (digits_Forall k) as Hd. rewrite H1 in Hd. by apply Forall_cons in Hd as [Hd _]. }
  unfold FormatInt. destruct (Z.ltb_spec m 0), (Z.ltb_spec n 0); cbn [app]; intros Heq.
  - injection Heq as Heq. apply (split_unique is_digit) in Heq as [Hd ?]; auto using digits_Forall.
    apply digits_inj in Hd; [split; [lia|done]|lia|lia].
  - destruct (digits n) eqn:E; [done|]. injection Heq as <- _. by apply Hminus in E.
  - destruct (digits m) eqn:E; [done|]. injection Heq as -> _. by apply Hminus in E.
  - apply (split_unique is_digit) in Heq as [Hd ?]; auto using digits_Forall. by apply digits_inj in Hd.
Qed.

(** Every partition and epoch has a file of its own. *)
Lemma file_inj p e q f : file p e = file q f → p = q ∧ e = f.
Proof.
  unfold file. intros H. repeat case_decide; subst.
  all: apply (app_inj_1 _ _ _ _ eq_refl) in H as [_ H].
  all: apply FormatInt_split in H as [-> H]; [|vm_compute; congruence..].
  - done.
  - discriminate H.
  - discriminate H.
  - split; [done|]. apply (app_inj_1 (str "-epoch-") (str "-epoch-") _ _ eq_refl) in H as [_ H].
    by apply FormatInt_split in H as [-> _]; [|vm_compute; congruence..].
Qed.

(** A temporary name is never the name of a snapshot. *)
Lemma temporary_not_file p r q f : (str "partition-" ++ FormatInt p ++ str "-") ++ r ++ str ".tmp" ≠ file q f.
Proof.
  intros H. apply (f_equal last) in H. unfold file in H.
  case_decide; rewrite !(assoc_L (++)), !last_app in H; vm_compute in H; discriminate H.
Qed.

(** ** The format reads back *)

(** One entry of the layout, with the lengths as the encoder writes them. *)
Definition entry_bytes (m : snapshot) (name : bytes) : bytes :=
  appendSized [] name ++ appendSized [] (default [] (m !! name)).

Definition snapshot_header (m : snapshot) : bytes :=
  be_encode 4 fileStateStoreVersion ++ be_encode 4 (uint32 (Z.of_nat (size m))).

Lemma encode_snapshot_eq m :
  encode_snapshot m = snapshot_header m ++ concat (map (entry_bytes m) (sorted_keys m)).
Proof.
  unfold encode_snapshot. fold (snapshot_header m). generalize (snapshot_header m).
  induction (sorted_keys m) as [|k l IH]; intros buffer; cbn [fold_left map concat]; [by rewrite app_nil_r|].
  rewrite IH. unfold entry_bytes, appendSized. cbn [app]. by rewrite !(assoc_L (++)).
Qed.

Lemma zlen_appendSized data : zlen (appendSized [] data) = 4 + zlen data.
Proof. unfold appendSized. cbn [app]. rewrite zlen_app. unfold zlen. rewrite length_be_encode. lia. Qed.

(** What the store can hold: a snapshot whose encoding stays below 4 GiB. *)
Definition fits (m : snapshot) : Prop := zlen (encode_snapshot m) < 2 ^ 32.

Lemma zlen_entries (m : snapshot) l : 8 * zlen l ≤ zlen (concat (map (entry_bytes m) l)).
Proof.
  induction l as [|k l IH]; [done|]. cbn [map concat]. rewrite zlen_cons, zlen_app. unfold entry_bytes at 1.
  rewrite zlen_app, !zlen_appendSized. pose proof (zlen_nonneg k). pose proof (zlen_nonneg (default [] (m !! k))). lia.
Qed.

Lemma zlen_sized_bytes data : zlen (sized_bytes data) = 4 + zlen data.
Proof. unfold sized_bytes. rewrite zlen_app. unfold zlen. rewrite length_be_encode. lia. Qed.

Lemma snapshot_entry_dec (m : snapshot) k rest :
  zlen (entry_bytes m k) + zlen rest < 2 ^ 32 →
  snapshot_entry (entry_bytes m k ++ rest) = Ok ((k, default [] (m !! k)), rest).
Proof.
  unfold entry_bytes at 1. rewrite zlen_app, !zlen_appendSized.
  pose proof (zlen_nonneg k). pose proof (zlen_nonneg (default [] (m !! k))). pose proof (zlen_nonneg rest).
  intros Hl. unfold snapshot_entry, entry_bytes. rewrite !appendSized_short by lia. cbn [app].
  unfold rseq. rewrite <- (assoc_L (++)), sized_dec by (rewrite zlen_app, zlen_sized_bytes; lia).
  by rewrite sized_dec by lia.
Qed.

Lemma read_entries (m : snapshot) l :
  zlen (concat (map (entry_bytes m) l)) < 2 ^ 32 →
  read_list (length l) snapshot_entry (concat (map (entry_bytes m) l)) =
    Ok (map (λ k, (k, default [] (m !! k))) l, []).
Proof.
  induction l as [|k l IH]; intros Hl; [done|]. cbn [map concat length read_list] in *.
  rewrite zlen_app in Hl. pose proof (zlen_nonneg (entry_bytes m k)).
  unfold rseq at 1. rewrite snapshot_entry_dec by done. unfold rseq. by rewrite IH by lia.
Qed.

Lemma decode_encode p m : fits m → decode_snapshot p (encode_snapshot m) = Ok m.
Proof.
  unfold fits, decode_snapshot. rewrite encode_snapshot_eq, zlen_app. intros Hf.
  pose proof (zlen_entries m (sorted_keys m)) as Hsize. unfold zlen at 1 in Hsize. rewrite length_sorted_keys in Hsize.
  pose proof (zlen_nonneg (snapshot_header m)).
  unfold snapshot_header at 1. rewrite <- (assoc_L (++)).
  rewrite (codec_dec (dec := valueReader_uint32) (P := inU 32)) by (vm_compute; intuition congruence).
  rewrite decide_False by (intros []; done). assert (inU 32 (Z.of_nat (size m))) as Hs by (unfold inU; lia). rewrite wrapU_id by done.
  rewrite (rseq_dec (be_encode 4) valueReader_uint32 (inU 32)) by done.
  rewrite Nat2Z.id, <- length_sorted_keys, read_entries by lia. cbn [rmap_err rbind].
  rewrite decide_False by (intros []; done). f_equal. rewrite insert_all_list_to_map.
  - apply sorted_entries.
  - rewrite map_map, map_id. apply NoDup_sorted_keys.
Qed.

(** The bound is sharp: a snapshot with one node whose encoding has a value of 2^32 - 1 bytes or less saves,
    but the length test of the name reads the size of the rest modulo 2^32. *)
Lemma decode_wraps p name value :
  0 < zlen name < 2 ^ 32 → zlen value < 2 ^ 32 → zlen (sized_bytes value) + zlen name = 2 ^ 32 →
  decode_snapshot p (encode_snapshot {[name := value]}) = Err (CannotLoad p).
Proof.
  intros Hn Hv Hl. unfold decode_snapshot. rewrite encode_snapshot_eq. unfold snapshot_header.
  rewrite <- (assoc_L (++)).
  rewrite (codec_dec (dec := valueReader_uint32) (P := inU 32)) by (vm_compute; intuition congruence).
  rewrite decide_False by (intros []; done).
  rewrite (rseq_dec (be_encode 4) valueReader_uint32 (inU 32)) by (apply (wrapU_range 32); lia).
  unfold sorted_keys. rewrite map_to_list_singleton, map_size_singleton. cbn [map fst].
  change (merge_sort bytes_le [name]) with [name]. cbn [map concat]. rewrite app_nil_r.
  change (Z.to_nat _) with 1%nat. cbn [read_list]. unfold entry_bytes. rewrite lookup_singleton_eq. cbn [default from_option]. change (id value) with value.
  rewrite !appendSized_short by lia. cbn [app]. unfold snapshot_entry. unfold rseq at 1 2.
  unfold sized_bytes at 1. rewrite <- (assoc_L (++)). by rewrite sized_wraps by (rewrite ?zlen_app; lia).
Qed.

(** ** What the calls change *)

Lemma fs_call_run {A : Type} (full : nat) (effect : nat → snapshot → snapshot) (a : snapshot → A) (s : fs) r s' :
  fs_call full effect a s = (r, s') →
  (fs_files s' = fs_files s ∨ ∃ n, fs_files s' = effect n (fs_files s)) ∧
  (∀ x, r = Ok x → fs_files s' = effect full (fs_files s) ∧ x = a (fs_files s)).
Proof.
  unfold fs_call. destruct (fs_dead s); [intros [= <- <-]; naive_solver|].
  destruct (hd Done (fs_outcomes s)); intros [= <- <-]; cbn; naive_solver.
Qed.

(** The two states agree on every file but one. *)
Definition agree_off (name : bytes) (s s' : fs) : Prop :=
  ∀ other, other ≠ name → fs_files s' !! other = fs_files s !! other.

#[global] Instance agree_off_preorder name : PreOrder (agree_off name).
Proof. split; [by intros ?|]. intros s1 s2 s3 H1 H2 other Ho. by rewrite H2, H1. Qed.

Lemma agree_off_same name s s' : fs_files s' = fs_files s → agree_off name s s'.
Proof. by intros H other _; rewrite H. Qed.

Lemma nothing_run {A : Type} (a : snapshot → A) (s : fs) r s' :
  fs_call 1 (once id) a s = (r, s') → fs_files s' = fs_files s ∧ ∀ x, r = Ok x → x = a (fs_files s).
Proof. intros H%fs_call_run. destruct H as [[H|[[|n] H]] H']; cbn in H; naive_solver. Qed.

Lemma os_Write_run name data s r s' :
  os_Write name data s = (r, s') →
  agree_off name s s' ∧ (is_ok r = true → fs_files s !! name = Some [] → fs_files s' !! name = Some data).
Proof.
  intros [Hn Hok]%fs_call_run. split.
  - destruct Hn as [H|[n H]]; [by apply agree_off_same|]. intros other Ho. rewrite H. by apply lookup_insert_ne.
  - destruct r as [x|]; [|done]. intros _ He. destruct (Hok x eq_refl) as [-> _].
    rewrite lookup_insert_eq, He. cbn. by rewrite firstn_all.
Qed.

Lemma os_Remove_run name s r s' : os_Remove name s = (r, s') → agree_off name s s'.
Proof.
  intros [[H|[[|n] H]] _]%fs_call_run; [by apply agree_off_same..|]. intros other Ho. rewrite H. cbn.
  by apply lookup_delete_ne.
Qed.

Lemma os_CreateTemp_run prefix suffix s r s' :
  os_CreateTemp prefix suffix s = (r, s') →
  ∃ x, agree_off (prefix ++ x ++ suffix) s s' ∧
    ∀ name, r = Ok name → name = prefix ++ x ++ suffix ∧ fs_files s' !! name = Some [].
Proof.
  unfold os_CreateTemp. destruct (filter _ _) as [|name l] eqn:E.
  - intros [= <- <-]. exists []. split; [done|]. discriminate.
  - assert (name ∈ name :: l) as Hin by apply list_elem_of_here. rewrite <- E in Hin.
    apply list_elem_of_filter in Hin as [_ Hin].
    change (map ?f) with (fmap (M:=list) f) in Hin. apply list_elem_of_fmap in Hin as (x & -> & _).
    intros [Hn Hok]%fs_call_run. exists x. split.
    + destruct Hn as [H|[[|n] H]]; [by apply agree_off_same..|]. intros other Ho. rewrite H. cbn.
      by apply lookup_insert_ne.
    + intros name ->. destruct (Hok name eq_refl) as [-> ->]. split; [done|]. cbn. by apply lookup_insert_eq.
Qed.

Lemma os_Rename_run old new s r s' data :
  os_Rename old new s = (r, s') → fs_files s !! old = Some data →
  (∀ name, name ≠ old → name ≠ new → fs_files s' !! name = fs_files s !! name) ∧
  (old ≠ new → fs_files s' !! new = fs_files s !! new ∨ fs_files s' !! new = Some data) ∧
  (is_ok r = true → fs_files s' !! new = Some data).
Proof.
  intros [Hn Hok]%fs_call_run Ho. cbn in Hok. rewrite Ho in Hok. split_and!.
  - intros name H1 H2. destruct Hn as [->|[[|n] ->]]; [done..|]. cbn. rewrite Ho.
    by rewrite lookup_insert_ne, lookup_delete_ne by done.
  - intros Hne. destruct Hn as [->|[[|n] ->]]; [by left..|]. cbn. rewrite Ho. right. by apply lookup_insert_eq.
  - destruct r as [x|]; [|done]. intros _. destruct (Hok x eq_refl) as [-> _]. by apply lookup_insert_eq.
Qed.

(** The files after a save: the target is the old file or the whole new one, and apart from a temporary
    file nothing else changed. *)
Lemma FileStateStore_Save_files p e m s r s' :
  FileStateStore_Save p e m s = (r, s') →
  ∃ x, (∀ name, name ≠ (str "partition-" ++ FormatInt p ++ str "-") ++ x ++ str ".tmp" → name ≠ file p e →
          fs_files s' !! name = fs_files s !! name) ∧
       (fs_files s' !! file p e = Some (encode_snapshot m) ∨
        fs_files s' !! file p e = fs_files s !! file p e ∧ is_ok r = false).
Proof.
  unfold FileStateStore_Save, io_map_err, io_bind.
  destruct (os_MkdirAll s) as [r1 s1] eqn:E1. apply nothing_run in E1 as [E1 _].
  destruct r1 as [[]|]; [|intros [= <- <-]; exists []; rewrite E1; by auto].
  destruct (os_CreateTemp _ _ s1) as [r2 s2] eqn:E2. apply os_CreateTemp_run in E2 as (x & Ha & Ht).
  set (t := _ ++ x ++ _) in *.
  assert (t ≠ file p e) as Hne by apply temporary_not_file.
  assert (fs_files s2 !! file p e = fs_files s !! file p e) as Hold by (rewrite Ha, E1 by done; done).
  destruct r2 as [t'|]; [|intros [= <- <-]; exists x; split; [intros; by rewrite Ha, E1|by auto]].
  destruct (Ht t' eq_refl) as [-> Hempty]. unfold io_defer at 1, io_try.
  destruct (os_Write t _ s2) as [r3 s3] eqn:E3. apply os_Write_run in E3 as [Hw Hdata].
  destruct r3 as [[]|e3]; cbn [io_defer io_fail].
  - specialize (Hdata eq_refl Hempty). unfold io_bind.
    destruct (os_Close s3) as [r4 s4] eqn:E4. apply nothing_run in E4 as [E4 _]. destruct r4 as [[]|].
    + destruct (os_Rename t (file p e) s4) as [r5 s5] eqn:E5. rewrite <- E4 in Hdata.
      destruct (os_Rename_run _ _ _ _ _ _ E5 Hdata) as (Hother & Hnew & Hok).
      destruct (os_Remove t s5) as [r6 s6] eqn:E6. apply os_Remove_run in E6. intros [= <- <-]. exists x. split.
      * intros name H1 H2. by rewrite E6, Hother, E4, Hw, Ha, E1.
      * rewrite E6 by done. destruct r5; [left; by apply Hok|].
        destruct (Hnew Hne) as [->|]; [right|by left]. by rewrite E4, Hw, Hold.
    + destruct (os_Remove t s4) as [r6 s6] eqn:E6. apply os_Remove_run in E6. intros [= <- <-]. exists x. split.
      * intros name H1 H2. by rewrite E6, E4, Hw, Ha, E1.
      * right. split; [|done]. by rewrite E6, E4, Hw, Hold.
  - unfold io_defer, io_fail. destruct (os_Close s3) as [r4 s4] eqn:E4. apply nothing_run in E4 as [E4 _].
    destruct (os_Remove t s4) as [r6 s6] eqn:E6. apply os_Remove_run in E6. intros [= <- <-]. exists x. split.
    + intros name H1 H2. by rewrite E6, E4, Hw, Ha, E1.
    + right. split; [|done]. by rewrite E6, E4, Hw, Hold.
Qed.

(** ** The file store keeps its promise *)

(** What a load of a partition and an epoch returns when the call works. *)
Definition stored_file (s : fs) (p e : Z) : option snapshot :=
  match fs_files s !! file p e with
  | None => Some ∅
  | Some data => match decode_snapshot p data with Ok m => Some m | Err _ => None end
  end.

Lemma Save_other_file p e m s r s' q f :
  FileStateStore_Save p e m s = (r, s') → (q, f) ≠ (p, e) → fs_files s' !! file q f = fs_files s !! file q f.
Proof.
  intros Hs Hne. apply FileStateStore_Save_files in Hs as (x & Ho & _). apply Ho.
  - intros H. symmetry in H. by apply temporary_not_file in H.
  - intros [-> ->]%file_inj. done.
Qed.

Lemma FileStateStore_Load_files p e s r s' :
  FileStateStore_Load p e s = (r, s') →
  fs_files s' = fs_files s ∧ ∀ m, r = Ok m → stored_file s p e = Some m.
Proof.
  unfold FileStateStore_Load, io_bind, io_map_err, stored_file.
  destruct (os_ReadFile _ s) as [r1 s1] eqn:E1. apply nothing_run in E1 as [E1 Hr].
  destruct r1 as [data|]; cbn; [|by intros [= <- <-]]. rewrite (Hr _ eq_refl).
  destruct (fs_files s !! file p e); unfold io_lift, io_ret; intros [= <- <-]; (split; [done|]).
  - by intros m ->.
  - by intros m [= <-].
Qed.

#[export] Instance FileStateStore_laws : StoreLaws FileStateStore stored_file fits.
Proof.
  split; cbn.
  - intros p e w m w' H. apply FileStateStore_Load_files in H as [H Hm]. by apply Hm.
  - intros p e w r w' H q f. apply FileStateStore_Load_files in H as [H _]. unfold stored_file. by rewrite H.
  - intros p e m w r w' H q f Hne. unfold stored_file. by rewrite (Save_other_file _ _ _ _ _ _ _ _ H).
  - intros p e m w w' Hf H. unfold stored_file.
    apply FileStateStore_Save_files in H as (x & _ & [->|[_ ?]]); [by rewrite decode_encode|done].
  - intros p e m w r w' Hf H. unfold stored_file.
    apply FileStateStore_Save_files in H as (x & _ & [->|[-> _]]); [right; by rewrite decode_encode|by left].
Qed.

(** C30: a save is atomic and durable at every crash point. Whatever call of [Save] fails or kills the
    process, and however much of the write went through, every other partition and epoch keeps its file,
    and the file of this one is the old file or the whole new one; a save that returns without an error
    has the new one, and a later load of it, from any later state of the same file, returns the snapshot
    as long as its encoding is below 4 GiB. *)
Theorem Save_crash_safe p e m s r s' :
  FileStateStore_Save p e m s = (r, s') →
  (∀ q f, (q, f) ≠ (p, e) → fs_files s' !! file q f = fs_files s !! file q f) ∧
  (fs_files s' !! file p e = fs_files s !! file p e ∨ fs_files s' !! file p e = Some (encode_snapshot m)) ∧
  (r = Ok tt → fs_files s' !! file p e = Some (encode_snapshot m)) ∧
  (∀ s1 r1 s2, r = Ok tt → fits m → fs_files s1 !! file p e = fs_files s' !! file p e →
     FileStateStore_Load p e s1 = (r1, s2) →
     r1 = Ok m ∨ r1 = Err (CannotLoad p) ∧ (fs_dead s1 = true ∨ hd Done (fs_outcomes s1) ≠ Done)).
Proof.
  intros Hs. split; [|split; [|split]].
  - intros q f. by eapply Save_other_file.
  - apply FileStateStore_Save_files in Hs as (x & _ & [H|[H _]]); auto.
  - intros ->. by apply FileStateStore_Save_files in Hs as (x & _ & [H|[_ ?]]).
  - intros s1 r1 s2 -> Hf Heq. apply FileStateStore_Save_files in Hs as (x & _ & [H|[_ ?]]); [|done].
    rewrite H in Heq. unfold FileStateStore_Load, io_bind, io_map_err, os_ReadFile, fs_call.
    destruct (fs_dead s1); [intros [= <- <-]; auto|].
    destruct (hd Done (fs_outcomes s1)); cbn; [|intros [= <- <-]; right; by auto..].
    rewrite Heq. intros [= <- <-]. left. by apply decode_encode.
Qed.

(** A save that dies after three bytes of its write, and one that works. *)
Definition demo_dir (outcomes : list outcome) : fs :=
  MkFs {[file 4 NoEpoch := encode_snapshot ∅]} false outcomes [str "1"].
Definition demo_snapshot : snapshot := {[str "totals" := str "abc"]}.

Lemma Save_crash_safe_witness :
  fs_dead (FileStateStore_Save 4 NoEpoch demo_snapshot (demo_dir [Done; Done; Crash 3])).2 = true ∧
  (FileStateStore_Load 4 NoEpoch (FileStateStore_Save 4 NoEpoch demo_snapshot (demo_dir [])).2).1 = Ok demo_snapshot.
Proof.
  split; [vm_compute; reflexivity|].
  destruct (FileStateStore_Save 4 NoEpoch demo_snapshot (demo_dir [])) as [r s'] eqn:E.
  destruct (Save_crash_safe _ _ _ _ _ _ E) as (_ & _ & _ & H).
  destruct (FileStateStore_Load 4 NoEpoch s') as [r1 s2] eqn:E1.
  assert (r = Ok tt ∧ fs_dead s' = false ∧ hd Done (fs_outcomes s') = Done) as (Hr & Hd & Ho).
  { replace r with (FileStateStore_Save 4 NoEpoch demo_snapshot (demo_dir [])).1 by (by rewrite E).
    replace s' with (FileStateStore_Save 4 NoEpoch demo_snapshot (demo_dir [])).2 by (by rewrite E).
    split_and!; vm_compute; reflexivity. }
  cbn [snd]. rewrite E1. destruct (H s' r1 s2 Hr) as [->|[_ [Hx|Hx]]]; [vm_compute; reflexivity|done|done|reflexivity|congruence|done].
Defined.

(** ** The policy *)

(** An error policy is valid exactly when it names a dead-letter topic and forwards to it, or does
    neither; the three constructors give the valid policies, given a topic name that is not empty. *)
Lemma validate_spec p :
  validate p = true ↔
    p = FailPolicy ∨ p = SkipPolicy ∨ ∃ topic, topic ≠ [] ∧ p = DeadLetterPolicy topic.
Proof.
  destruct p as [action topic]. unfold validate, FailPolicy, SkipPolicy, DeadLetterPolicy. cbn.
  destruct action, topic as [|b topic]; cbn; split; try naive_solver. intros _. right. right. by exists (b :: topic).
Qed.
