(* ===== verification/Topology.v ===== *)
(** * The topology builder of columnar/topology.go

    The nodes of a processing graph, the builder operations with their errors, [Validate] and [Build].
    Codecs, processor factories and built-in operators are opaque to the builder: it only asks whether
    they are nil. *)

From S2P Require Import Prelude GoStd Kafka.

(** ** Joins *)

Record Join := MkJoin {
  LeftKey : bytes;
  RightKey : bytes;
  Window : Duration;
  LeftPrefix : bytes;
  RightPrefix : bytes
}.

#[global] Instance Join_eq_dec : EqDecision Join.
Proof. solve_decision. Defined.

Inductive topology_error :=
| NoTopics
| NilCodec
| NilOperator
| NilProcessor
| TooFewParents
| SameParents
| NotASource
| ForeignParent
| NegativeWindow
| SubMillisecondWindow
| DuplicateName (name : bytes)
| InvalidParent (name : bytes)
| NoSource
| NoSink.

#[global] Instance topology_error_eq_dec : EqDecision topology_error.
Proof. solve_decision. Defined.

Definition normalized (j : Join) : result topology_error Join :=
  let left := if decide (LeftPrefix j = []) then str "left_" else LeftPrefix j in
  let right := if decide (RightPrefix j = []) then str "right_" else RightPrefix j in
  if Window j <? 0 then Err NegativeWindow
  else if negb (Window j =? 0) && (Milliseconds (Window j) =? 0) then Err SubMillisecondWindow
  else Ok (MkJoin (LeftKey j) (RightKey j) (Window j) left right).

(** ** Nodes *)

(** A handle: the topology that made it ([None] in a zero [Node]) and its index. *)
Record Node := MkNode { node_owner : option Z; node_index : Z }.

#[global] Instance Node_eq_dec : EqDecision Node.
Proof. solve_decision. Defined.

Inductive nodeType := nodeSource | nodeOperator | nodeMerge | nodeJoin | nodeSink.

#[global] Instance nodeType_eq_dec : EqDecision nodeType.
Proof. solve_decision. Defined.

Section Builder.
Context {codec factory operator : Type}.

(** [operator.fresh], which the factory of a built-in operator calls. *)
Context (fresh : operator → factory).

Record nodeDefinition := MkDefinition {
  nd_name : bytes;
  nd_kind : nodeType;
  nd_sourceTopics : list bytes;
  nd_sourceCodec : option codec;
  nd_processor : option factory;
  nd_sinkTopic : bytes;
  nd_sinkCodec : option codec;
  nd_join : Join;
  nd_parents : list Node
}.

(** A topology and the address that its nodes name as their owner. *)
Record Topology := MkTopology { top_id : Z; top_nodes : list nodeDefinition }.

Definition NewTopology (id : Z) : Topology := MkTopology id [].

Definition no_join : Join := MkJoin [] [] 0 [] [].

Definition add (t : Topology) (definition : nodeDefinition) : Node * Topology :=
  (MkNode (Some (top_id t)) (zlen (top_nodes t)), MkTopology (top_id t) (top_nodes t ++ [definition])).

Definition requireParent (t : Topology) (parent : Node) : result topology_error unit :=
  if bool_decide (node_owner parent ≠ Some (top_id t)) || (node_index parent <? 0) ||
     (zlen (top_nodes t) <=? node_index parent)
  then Err ForeignParent else Ok tt.

Fixpoint require_parents (t : Topology) (parents : list Node) : result topology_error unit :=
  match parents with
  | [] => Ok tt
  | parent :: parents => let* _ := requireParent t parent in require_parents t parents
  end.

(** An error leaves the topology as it was. *)
Definition AddSource (t : Topology) (name : bytes) (topics : list bytes) (c : option codec)
    : result topology_error (Node * Topology) :=
  check! bool_decide (topics ≠ []) else NoTopics in
  match c with
  | None => Err NilCodec
  | Some c => Ok (add t (MkDefinition name nodeSource topics (Some c) None [] None no_join []))
  end.

Definition AddProcessor (t : Topology) (name : bytes) (processor : option factory) (parent : Node)
    : result topology_error (Node * Topology) :=
  let* _ := requireParent t parent in
  match processor with
  | None => Err NilProcessor
  | Some processor => Ok (add t (MkDefinition name nodeOperator [] None (Some processor) [] None no_join [parent]))
  end.

Definition AddOperator (t : Topology) (name : bytes) (op : option operator) (parent : Node)
    : result topology_error (Node * Topology) :=
  match op with
  | None => Err NilOperator
  | Some op => AddProcessor t name (Some (fresh op)) parent
  end.

Definition AddMerge (t : Topology) (name : bytes) (parents : list Node) : result topology_error (Node * Topology) :=
  check! negb (zlen parents <? 2) else TooFewParents in
  let* _ := require_parents t parents in
  Ok (add t (MkDefinition name nodeMerge [] None None [] None no_join parents)).

Definition AddJoin (t : Topology) (name : bytes) (join : Join) (left right : Node)
    : result topology_error (Node * Topology) :=
  let* _ := requireParent t left in
  let* _ := requireParent t right in
  check! bool_decide (left ≠ right) else SameParents in
  let* normalized := normalized join in
  Ok (add t (MkDefinition name nodeJoin [] None None [] None normalized [left; right])).

Definition AddSink (t : Topology) (name topic : bytes) (c : option codec) (parent : Node)
    : result topology_error (Node * Topology) :=
  let* _ := requireParent t parent in
  match c with
  | None => Err NilCodec
  | Some c => Ok (add t (MkDefinition name nodeSink [] None None topic (Some c) no_join [parent]))
  end.

Definition kind_at (t : Topology) (index : Z) : option nodeType := nd_kind <$> top_nodes t !! Z.to_nat index.

Definition AddPassThroughSink (t : Topology) (name topic : bytes) (source : Node)
    : result topology_error (Node * Topology) :=
  let* _ := requireParent t source in
  check! bool_decide (kind_at t (node_index source) = Some nodeSource) else NotASource in
  Ok (add t (MkDefinition name nodeSink [] None None topic None no_join [source])).

Definition SourceTopics (t : Topology) : list bytes :=
  concat (map (λ node, if decide (nd_kind node = nodeSource) then nd_sourceTopics node else []) (top_nodes t)).

(** ** Validation *)

(** The loop of [Validate] from one index on, with the names and the counts so far. *)
Fixpoint validate_nodes (nodes : list nodeDefinition) (index : Z) (names : gset bytes) (sources sinks : Z)
    : result topology_error (Z * Z) :=
  match nodes with
  | [] => Ok (sources, sinks)
  | node :: nodes =>
      check! negb (bool_decide (nd_name node ∈ names)) else DuplicateName (nd_name node) in
      let names := {[nd_name node]} ∪ names in
      let invalid := bool_decide (nd_parents node = []) ||
        existsb (λ parent, index <=? node_index parent) (nd_parents node) in
      check! bool_decide (nd_kind node = nodeSource) || negb invalid else InvalidParent (nd_name node) in
      validate_nodes nodes (index + 1) names
        (if decide (nd_kind node = nodeSource) then sources + 1 else sources)
        (if decide (nd_kind node = nodeSink) then sinks + 1 else sinks)
  end.

Definition Validate (t : Topology) : result topology_error unit :=
  let* counts := validate_nodes (top_nodes t) 0 ∅ 0 0 in
  check! negb (counts.1 =? 0) else NoSource in
  check! negb (counts.2 =? 0) else NoSink in
  Ok tt.

(** ** What the builder guarantees *)

(** A parent of the node at [index]: a node of the same topology that was added earlier. *)
Definition parent_ok (t : Topology) (index : nat) (parent : Node) : Prop :=
  node_owner parent = Some (top_id t) ∧ 0 ≤ node_index parent < Z.of_nat index.

Definition node_ok (t : Topology) (index : nat) (node : nodeDefinition) : Prop :=
  Forall (parent_ok t index) (nd_parents node) ∧
  match nd_kind node with
  | nodeSource => nd_parents node = [] ∧ nd_sourceTopics node ≠ [] ∧ is_Some (nd_sourceCodec node)
  | nodeOperator => length (nd_parents node) = 1%nat ∧ is_Some (nd_processor node)
  | nodeMerge => (2 ≤ length (nd_parents node))%nat
  | nodeJoin => (∃ left right, nd_parents node = [left; right] ∧ left ≠ right) ∧
      LeftPrefix (nd_join node) ≠ [] ∧ RightPrefix (nd_join node) ≠ [] ∧
      (Window (nd_join node) = 0 ∨ Millisecond ≤ Window (nd_join node))
  | nodeSink => ∃ parent, nd_parents node = [parent] ∧
      (nd_sinkCodec node = None → kind_at t (node_index parent) = Some nodeSource)
  end.

Definition topology_ok (t : Topology) : Prop :=
  ∀ index node, top_nodes t !! index = Some node → node_ok t index node.

(** The topologies that a caller can make, with any handles, its own or foreign ones. *)
Inductive builds : Topology → Prop :=
| builds_new id : builds (NewTopology id)
| builds_source t name topics c n t' : builds t → AddSource t name topics c = Ok (n, t') → builds t'
| builds_operator t name op parent n t' : builds t → AddOperator t name op parent = Ok (n, t') → builds t'
| builds_processor t name p parent n t' : builds t → AddProcessor t name p parent = Ok (n, t') → builds t'
| builds_merge t name parents n t' : builds t → AddMerge t name parents = Ok (n, t') → builds t'
| builds_join t name j l r n t' : builds t → AddJoin t name j l r = Ok (n, t') → builds t'
| builds_sink t name topic c parent n t' : builds t → AddSink t name topic c parent = Ok (n, t') → builds t'
| builds_pass t name topic source n t' : builds t → AddPassThroughSink t name topic source = Ok (n, t') → builds t'.
Lemma requireParent_Ok t parent : requireParent t parent = Ok tt → parent_ok t (length (top_nodes t)) parent.
Proof.
  unfold requireParent, parent_ok. case_bool_decide; [done|]. cbn [orb].
  destruct (Z.ltb_spec (node_index parent) 0), (Z.leb_spec (zlen (top_nodes t)) (node_index parent)); try done.
Qed.

Lemma require_parents_Ok t parents :
  require_parents t parents = Ok tt → Forall (parent_ok t (length (top_nodes t))) parents.
Proof.
  induction parents as [|parent parents IH]; [constructor|]. cbn. intros ([] & H & Hr)%rbind_Ok.
  constructor; [by apply requireParent_Ok|auto].
Qed.

Lemma kind_at_grows t definition index kind :
  kind_at t index = Some kind → kind_at (add t definition).2 index = Some kind.
Proof.
  unfold kind_at, add. cbn. destruct (top_nodes t !! Z.to_nat index) as [node|] eqn:E; [|done].
  by rewrite (lookup_app_l_Some _ _ _ _ E).
Qed.

(** A node that stays fine when the topology grows. *)
Lemma node_ok_grows t definition index node : node_ok t index node → node_ok (add t definition).2 index node.
Proof.
  unfold node_ok, parent_ok. cbn. intros [Hp Hk]. split; [done|].
  destruct (nd_kind node); try done. destruct Hk as (parent & Hparent & Hc). exists parent. split; [done|].
  intros Hn. by apply (kind_at_grows t definition), Hc.
Qed.

Lemma add_ok t definition :
  topology_ok t → node_ok t (length (top_nodes t)) definition → topology_ok (add t definition).2.
Proof.
  intros Ht Hd index node. cbn. rewrite lookup_app. destruct (top_nodes t !! index) as [node'|] eqn:E.
  - intros [= <-]. by apply (node_ok_grows t definition), Ht.
  - destruct (index - length (top_nodes t))%nat as [|n] eqn:En; [|done]. intros [= <-].
    apply lookup_ge_None in E. replace index with (length (top_nodes t)) by lia.
    by apply (node_ok_grows t definition).
Qed.

Lemma normalized_Ok j j' :
  normalized j = Ok j' → LeftPrefix j' ≠ [] ∧ RightPrefix j' ≠ [] ∧ (Window j' = 0 ∨ Millisecond ≤ Window j').
Proof.
  unfold normalized. destruct (Z.ltb_spec (Window j) 0); [done|].
  destruct (Z.eqb_spec (Window j) 0), (Z.eqb_spec (Milliseconds (Window j)) 0); cbn [negb andb]; try done;
    intros [= <-]; cbn; (split; [by case_decide|]; split; [by case_decide|]); try by left.
  right. unfold Milliseconds, Millisecond in *.
  rewrite Z.quot_div_nonneg in * by lia. Z.to_euclidean_division_equations. lia.
Qed.

(** Each operation appends one node that is fine where it stands. *)
Ltac builder_step :=
  repeat match goal with
  | H : (if bool_decide ?P then _ else _) = Ok _ |- _ => destruct (decide P) as [?|?];
      [rewrite bool_decide_eq_true_2 in H by assumption|rewrite bool_decide_eq_false_2 in H by assumption; discriminate H]
  | H : (if ?b then _ else _) = Ok _ |- _ => destruct b eqn:?; [|discriminate H]
  | H : rbind _ _ = Ok _ |- _ => let Hr := fresh "Hr" in apply rbind_Ok in H as (? & Hr & H)
  | H : match ?c with Some _ => _ | None => _ end = Ok _ |- _ => destruct c; [|discriminate H]
  | H : unit |- _ => destruct H
  | H : requireParent _ _ = Ok tt |- _ => apply requireParent_Ok in H
  | H : require_parents _ _ = Ok tt |- _ => apply require_parents_Ok in H
  end.

Lemma builds_ok t : builds t → topology_ok t.
Proof.
  induction 1 as [id|t name topics c n t' _ IH H|t name op parent n t' _ IH H|t name p parent n t' _ IH H
    |t name parents n t' _ IH H|t name j l r n t' _ IH H|t name topic c parent n t' _ IH H
    |t name topic source n t' _ IH H]; [by intros index node|..].
  - unfold AddSource in H. builder_step. injection H as <- <-. apply add_ok; [done|].
    split; cbn; [constructor|eauto].
  - unfold AddOperator, AddProcessor in H. builder_step. injection H as <- <-. apply add_ok; [done|].
    split; cbn; [by rewrite ?Forall_cons|eauto].
  - unfold AddProcessor in H. builder_step. injection H as <- <-. apply add_ok; [done|].
    split; cbn; [by rewrite ?Forall_cons|eauto].
  - unfold AddMerge in H. builder_step. injection H as <- <-. apply add_ok; [done|].
    split; cbn; [done|]. unfold zlen in *. lia.
  - unfold AddJoin in H. builder_step. injection H as <- <-. apply add_ok; [done|].
    split; cbn; [by rewrite ?Forall_cons|]. split; [eauto|]. by eapply normalized_Ok.
  - unfold AddSink in H. builder_step. injection H as <- <-. apply add_ok; [done|].
    split; cbn; [by rewrite ?Forall_cons|]. by exists parent.
  - unfold AddPassThroughSink in H. builder_step. injection H as <- <-. apply add_ok; [done|].
    split; cbn; [by rewrite ?Forall_cons|]. by exists source.
Qed.

(** ** What [Validate] decides *)

Definition count_kind (kind : nodeType) (nodes : list nodeDefinition) : Z :=
  zlen (filter (λ node, nd_kind node = kind) nodes).

Lemma count_kind_cons kind node nodes :
  count_kind kind (node :: nodes) = (if decide (nd_kind node = kind) then 1 else 0) + count_kind kind nodes.
Proof. unfold count_kind. rewrite filter_cons. case_decide; [by rewrite zlen_cons|lia]. Qed.

Lemma count_kind_0 kind nodes : count_kind kind nodes = 0 ↔ kind ∉ map nd_kind nodes.
Proof.
  change (map nd_kind nodes) with (nd_kind <$> nodes). rewrite list_elem_of_fmap. unfold count_kind, zlen.
  rewrite (Nat2Z.inj_iff _ 0), length_zero_iff_nil. split.
  - intros Hf (node & -> & Hin). assert (node ∈ filter (λ n, nd_kind n = nd_kind node) nodes) as H.
    { by apply list_elem_of_filter. }
    rewrite Hf in H. by apply not_elem_of_nil in H.
  - intros Hn. destruct (filter _ _) as [|node l] eqn:E; [done|]. destruct Hn.
    assert (node ∈ node :: l) as H by apply list_elem_of_here. rewrite <- E in H.
    apply list_elem_of_filter in H as [<- H]. eauto.
Qed.

(** The names of the nodes up to the first one that repeats a name. *)
Definition first_repeat (names : gset bytes) (nodes : list nodeDefinition) (name : bytes) : Prop :=
  ∃ l1 node l2, nodes = l1 ++ node :: l2 ∧ nd_name node = name ∧ NoDup (map nd_name l1) ∧
    (∀ n, n ∈ map nd_name l1 → n ∉ names) ∧ (name ∈ names ∨ name ∈ map nd_name l1).

Definition parents_before (nodes : list nodeDefinition) (index : Z) : Prop :=
  ∀ i node, nodes !! i = Some node → nd_kind node ≠ nodeSource →
    nd_parents node ≠ [] ∧ Forall (λ parent, node_index parent < index + Z.of_nat i) (nd_parents node).

Lemma validate_nodes_spec nodes index names sources sinks :
  parents_before nodes index →
  match validate_nodes nodes index names sources sinks with
  | Ok counts => NoDup (map nd_name nodes) ∧ (∀ node, node ∈ nodes → nd_name node ∉ names) ∧
      counts = (sources + count_kind nodeSource nodes, sinks + count_kind nodeSink nodes)
  | Err e => ∃ name, e = DuplicateName name ∧ first_repeat names nodes name
  end.
Proof.
  revert index names sources sinks. induction nodes as [|node nodes IH]; intros index names sources sinks Hp.
  { cbn. split; [constructor|]. split; [by intros node ?%not_elem_of_nil|]. change (count_kind ?k []) with 0. by rewrite !Z.add_0_r. }
  cbn [validate_nodes]. case_bool_decide as Hn; cbn [negb].
  { exists (nd_name node). split; [done|]. exists [], node, nodes. repeat split; [constructor|by intros n ?%not_elem_of_nil|by left]. }
  assert (bool_decide (nd_kind node = nodeSource) || negb (bool_decide (nd_parents node = []) ||
    existsb (λ parent, index <=? node_index parent) (nd_parents node)) = true) as ->.
  { case_bool_decide as Hk; [done|]. destruct (Hp 0%nat node eq_refl Hk) as [Hne Hlt].
    rewrite bool_decide_eq_false_2 by done. cbn. apply negb_true_iff, not_true_is_false. intros He.
    apply existsb_exists in He as (parent & Hin & Hle). rewrite Forall_forall in Hlt.
    apply list_elem_of_In, Hlt in Hin. lia. }
  specialize (IH (index + 1) ({[nd_name node]} ∪ names)
    (if decide (nd_kind node = nodeSource) then sources + 1 else sources)
    (if decide (nd_kind node = nodeSink) then sinks + 1 else sinks)).
  destruct (validate_nodes _ _ _ _ _) as [counts|e].
  - destruct IH as (Hd & Hf & ->).
    { intros i node' Hi Hk. destruct (Hp (S i) node' Hi Hk) as [H1 H2]. split; [done|].
      eapply Forall_impl; [exact H2|]. cbn. lia. }
    split; [|split].
    + cbn. constructor; [|done]. change (map nd_name nodes) with (nd_name <$> nodes).
      intros (node' & Heq & Hin)%list_elem_of_fmap. apply (Hf node' Hin). set_solver.
    + intros node' [->|Hin]%elem_of_cons; [done|]. specialize (Hf node' Hin). set_solver.
    + rewrite !count_kind_cons. f_equal; case_decide; lia.
  - destruct IH as (name & -> & l1 & node' & l2 & -> & Hname & Hd & Hf & Hin).
    { intros i node' Hi Hk. destruct (Hp (S i) node' Hi Hk) as [H1 H2]. split; [done|].
      eapply Forall_impl; [exact H2|]. cbn. lia. }
    exists name. split; [done|].
    exists (node :: l1), node', l2. split; [done|]. split; [done|]. split; [|split].
    + cbn. constructor; [|done]. intros H%Hf. set_solver.
    + cbn. intros n [->|H%Hf]%elem_of_cons; [done|set_solver].
    + cbn. rewrite elem_of_cons. set_solver.
Qed.


Lemma builds_parents_before t : builds t → parents_before (top_nodes t) 0.
Proof.
  intros Hb%builds_ok i node Hi Hk. destruct (Hb i node Hi) as [Hp Hn]. split.
  - intros He. rewrite He in Hn. destruct (nd_kind node); naive_solver lia.
  - eapply Forall_impl; [exact Hp|]. unfold parent_ok. cbn. lia.
Qed.

(** What the builder builds is an acyclic graph. In every topology that any sequence of builder calls
    makes, with any handles, the parents of a node are earlier nodes of the same topology and not of
    another one, a source has none, a merge has two or more, a join has two different ones with prefixes
    and a window of whole milliseconds or none, and a sink without a codec hangs off a source. *)
Theorem builder_graph t : builds t → topology_ok t.
Proof. apply builds_ok. Qed.

(** [Validate] decides what the builder leaves open, and nothing else. A built topology is valid
    exactly when its names are distinct and it has a source and a sink; an invalid parent is never
    reported; a duplicate name is the first one that repeats; and a missing source or sink is reported
    for distinct names only, the source first. *)
Theorem Validate_spec t :
  builds t →
  match Validate t with
  | Ok tt => NoDup (map nd_name (top_nodes t)) ∧ nodeSource ∈ map nd_kind (top_nodes t) ∧
      nodeSink ∈ map nd_kind (top_nodes t)
  | Err (DuplicateName name) => first_repeat ∅ (top_nodes t) name ∧ ¬ NoDup (map nd_name (top_nodes t))
  | Err NoSource => NoDup (map nd_name (top_nodes t)) ∧ nodeSource ∉ map nd_kind (top_nodes t)
  | Err NoSink => NoDup (map nd_name (top_nodes t)) ∧ nodeSource ∈ map nd_kind (top_nodes t) ∧
      nodeSink ∉ map nd_kind (top_nodes t)
  | Err _ => False
  end.
Proof.
  intros Hb%builds_parents_before. pose proof (validate_nodes_spec _ _ ∅ 0 0 Hb) as H. unfold Validate.
  destruct (validate_nodes _ _ _ _ _) as [counts|e]; cbn [rbind].
  - destruct H as (Hd & _ & ->). cbn [fst snd]. rewrite !Z.add_0_l.
    destruct (Z.eqb_spec (count_kind nodeSource (top_nodes t)) 0) as [H|H]; cbn [negb].
    { split; [done|]. by apply count_kind_0. }
    rewrite count_kind_0 in H. apply dec_stable in H.
    destruct (Z.eqb_spec (count_kind nodeSink (top_nodes t)) 0) as [H'|H']; cbn [negb]; rewrite count_kind_0 in H'.
    + done.
    + by apply dec_stable in H'.
  - destruct H as (name & -> & H). split; [done|].
    destruct H as (l1 & node & l2 & -> & <- & _ & _ & [H|H]); [set_solver|].
    rewrite map_app. cbn. intros (_ & Hn & _)%NoDup_app. apply (Hn _ H). apply list_elem_of_here.
Qed.

(** [Build] hands out the nodes of a valid topology. *)
Definition Build (t : Topology) : result topology_error (list nodeDefinition) :=
  let* _ := Validate t in Ok (top_nodes t).

End Builder.
Arguments nodeDefinition : clear implicits.
Arguments Topology : clear implicits.

(** ** A concrete graph *)

(** A source with a pass-through sink and a processor with a sink. *)
Definition demo_topology : result topology_error (Topology unit unit) :=
  let* p := AddSource (NewTopology 7) (str "in") [str "orders"] (Some tt) in
  let '(source, t) := p in
  let* p := AddPassThroughSink t (str "copy") (str "archive") source in
  let '(_, t) := p in
  let* p := AddProcessor t (str "map") (Some tt) source in
  let '(node, t) := p in
  let* p := AddSink t (str "out") (str "totals") (Some tt) node in
  Ok p.2.

(** A topology that a successful computation builds. *)
Definition built (r : result topology_error (Topology unit unit)) : Topology unit unit :=
  match r with Ok t => t | Err _ => NewTopology 0 end.

Lemma demo_topology_builds : builds (λ _ : unit, tt) (built demo_topology).
Proof.
  unfold built, demo_topology.
  destruct (AddSource _ _ _ _) as [[source t1]|] eqn:E1; cbn [rbind]; [|apply builds_new].
  destruct (AddPassThroughSink _ _ _ _) as [[n2 t2]|] eqn:E2; cbn [rbind]; [|apply builds_new].
  destruct (AddProcessor _ _ _ _) as [[node t3]|] eqn:E3; cbn [rbind]; [|apply builds_new].
  destruct (AddSink _ _ _ _ _) as [[n4 t4]|] eqn:E4; cbn [rbind]; [|apply builds_new].
  eapply builds_sink, E4. eapply builds_processor, E3. eapply builds_pass, E2. eapply builds_source, E1. apply builds_new.
Qed.

Lemma builder_graph_witness :
  builds (λ _ : unit, tt) (built demo_topology) ∧ topology_ok (built demo_topology).
Proof. split; [exact demo_topology_builds|]. exact (builder_graph (λ _ : unit, tt) _ demo_topology_builds). Defined.

Lemma Validate_spec_witness :
  Validate (built demo_topology) = Ok tt ∧ NoDup (map nd_name (top_nodes (built demo_topology))).
Proof.
  assert (Validate (built demo_topology) = Ok tt) as Hv by (vm_compute; reflexivity). split; [exact Hv|].
  pose proof (Validate_spec (λ _ : unit, tt) _ demo_topology_builds) as H. rewrite Hv in H. exact (proj1 H).
Defined.
