(* ===== verification/Joins.v ===== *)
(** * Windowed joins, from columnar/join.go

    The join processor: the stored batches of both sides, the stream time, pruning, the matching of rows by
    encoded key and event time, and its snapshots. The Arrow IPC format is a parameter. *)

From S2P Require Import Prelude GoStd GoFloat Kafka Value Cells Frames Topology.

#[local] Open Scope Z_scope.

Inductive join_error (E : Type) :=
| JoinSerde (e : E)
| JoinFrame (e : frame_error)
| JoinValue (e : value_error)
| JoinKeyMissing (name : bytes)
| JoinNeedsTimestamp
| NeedsTwoParents
| UnsupportedJoinSnapshot
| CannotRestoreJoin
| TrailingJoinBytes.
Arguments JoinSerde {E} e.
Arguments JoinFrame {E} e.
Arguments JoinValue {E} e.
Arguments JoinKeyMissing {E}.
Arguments JoinNeedsTimestamp {E}.
Arguments NeedsTwoParents {E}.
Arguments UnsupportedJoinSnapshot {E}.
Arguments CannotRestoreJoin {E}.
Arguments TrailingJoinBytes {E}.

Record timedBatch := MkTimed { tb_maxTimestamp : Z; tb_data : bytes }.

Record statefulJoinProcessor := MkJoinState { js_left : list timedBatch; js_right : list timedBatch; js_streamTime : Z }.

Definition newStatefulJoinProcessor : statefulJoinProcessor := MkJoinState [] [] MinInt64.

Section Join.
Context {L : ArrowLib} {E : Type}.
Context (serialize : frame → result E bytes) (deserialize : bytes → result E frame).
(** What [Value] returns at a null row of an int64 array: the slot that the builder left there. *)
Context (null_slot : Z) (join : Join).

Definition window_millis : Z := Milliseconds (Window join).

Definition joinTimestamps (batch : frame) : result (join_error E) column :=
  match columnByName batch TimestampColumn with
  | Some (MkColumn (TInt I64) cells) => Ok (MkColumn (TInt I64) cells)
  | _ => Err JoinNeedsTimestamp
  end.

(** The event times that are not null. *)
Definition times (c : column) : list Z := omap (λ c, match c with CInt n => Some n | _ => None end) (col_Cells c).

Definition time_at (c : column) (row : nat) : Z := match cell_at c row with CInt n => n | _ => null_slot end.

Definition withinWindow (leftTimestamp rightTimestamp : Z) : bool :=
  let difference := int64 (leftTimestamp - rightTimestamp) in
  if ((0 <? rightTimestamp) && (leftTimestamp <? difference)) || ((rightTimestamp <? 0) && (difference <? leftTimestamp)) ||
     (difference =? MinInt64)
  then false
  else (if difference <? 0 then int64 (- difference) else difference) <=? window_millis.

Definition advanceStreamTime (streamTime : Z) (batch : frame) : result (join_error E) Z :=
  let* timestamps := joinTimestamps batch in Ok (foldl Z.max streamTime (times timestamps)).

Definition join_cutoff (streamTime : Z) : Z := saturatingSubtract streamTime window_millis.

Definition prune (streamTime : Z) (batches : list timedBatch) : list timedBatch :=
  filter (λ batch, join_cutoff streamTime ≤ tb_maxTimestamp batch) batches.

(** One pair of rows: matched, not matched, or a key that does not encode. *)
Definition match_rows (leftKeys rightKeys leftTimestamps rightTimestamps : column) (leftRow rightRow : nat)
    : result (join_error E) (list (nat * nat)) :=
  match arrowValue (col_Type leftKeys) (cell_at leftKeys leftRow), arrowValue (col_Type rightKeys) (cell_at rightKeys rightRow) with
  | VNil, _ | _, VNil => Ok []
  | leftKey, rightKey =>
      let* encodedLeft := rmap_err JoinValue (encodeValue leftKey) in
      let* encodedRight := rmap_err JoinValue (encodeValue rightKey) in
      Ok (if bool_decide (encodedLeft = encodedRight) && withinWindow (time_at leftTimestamps leftRow) (time_at rightTimestamps rightRow)
          then [(leftRow, rightRow)] else [])
  end.

(** The scan of a left row: its key is encoded before the right rows are looked at. *)
Definition match_left (leftKeys rightKeys leftTimestamps rightTimestamps : column) (rightRows : nat) (leftRow : nat)
    : result (join_error E) (list (nat * nat)) :=
  match arrowValue (col_Type leftKeys) (cell_at leftKeys leftRow) with
  | VNil => Ok []
  | leftKey =>
      let* _ := rmap_err JoinValue (encodeValue leftKey) in
      let* pairs := map_results (match_rows leftKeys rightKeys leftTimestamps rightTimestamps leftRow) (seq 0 rightRows) in
      Ok (concat pairs)
  end.

(** [addMatches]: the joined batch, when a pair of rows matches. *)
Definition matches (leftBatch rightBatch : frame) : result (join_error E) (option frame) :=
  let* leftKeys := match columnByName leftBatch (LeftKey join) with Some c => Ok c | None => Err (JoinKeyMissing (LeftKey join)) end in
  let* rightKeys := match columnByName rightBatch (RightKey join) with Some c => Ok c | None => Err (JoinKeyMissing (RightKey join)) end in
  let* leftTimestamps := joinTimestamps leftBatch in
  let* rightTimestamps := joinTimestamps rightBatch in
  let* pairs := map_results (match_left leftKeys rightKeys leftTimestamps rightTimestamps (fr_NumRows rightBatch))
                  (seq 0 (fr_NumRows leftBatch)) in
  match concat pairs with
  | [] => Ok None
  | pairs =>
      let* joined := rmap_err JoinFrame (joinRows leftBatch rightBatch pairs (LeftPrefix join) (RightPrefix join)) in
      Ok (Some joined)
  end.

Definition addMatches (leftBatch rightBatch : frame) (outputs : list frame) : result (join_error E) (list frame) :=
  let* joined := matches leftBatch rightBatch in Ok (outputs ++ option_list joined).

Fixpoint joinStored (batch : frame) (stored : list timedBatch) (batchIsLeft : bool) (outputs : list frame)
    : result (join_error E) (list frame) :=
  match stored with
  | [] => Ok outputs
  | value :: stored =>
      let* decoded := rmap_err JoinSerde (deserialize (tb_data value)) in
      let* outputs := if batchIsLeft then addMatches batch decoded outputs else addMatches decoded batch outputs in
      joinStored batch stored batchIsLeft outputs
  end.

Fixpoint addMatches_each (batch : frame) (others : list frame) (outputs : list frame) : result (join_error E) (list frame) :=
  match others with
  | [] => Ok outputs
  | other :: others => let* outputs := addMatches batch other outputs in addMatches_each batch others outputs
  end.

Fixpoint join_left (newLeft newRight : list frame) (right : list timedBatch) (outputs : list frame) : result (join_error E) (list frame) :=
  match newLeft with
  | [] => Ok outputs
  | batch :: newLeft =>
      let* outputs := joinStored batch right true outputs in
      let* outputs := addMatches_each batch newRight outputs in
      join_left newLeft newRight right outputs
  end.

Fixpoint join_right (newRight : list frame) (left : list timedBatch) (outputs : list frame) : result (join_error E) (list frame) :=
  match newRight with
  | [] => Ok outputs
  | batch :: newRight => let* outputs := joinStored batch left false outputs in join_right newRight left outputs
  end.

Definition stored (batch : frame) : result (join_error E) timedBatch :=
  let* timestamps := joinTimestamps batch in
  let* data := rmap_err JoinSerde (serialize batch) in
  Ok (MkTimed (foldl Z.max MinInt64 (times timestamps)) data).

(** [processSides]. A failed call keeps what it changed: the stream time, the pruned sides, and the batches that it stored. *)
Fixpoint advance_all (batches : list frame) : io statefulJoinProcessor (join_error E) unit :=
  match batches with
  | [] => io_ret tt
  | batch :: batches => λ p,
      match advanceStreamTime (js_streamTime p) batch with
      | Ok t => advance_all batches (MkJoinState (js_left p) (js_right p) t)
      | Err e => (Err e, p)
      end
  end.

Definition prune_sides (p : statefulJoinProcessor) : statefulJoinProcessor :=
  MkJoinState (prune (js_streamTime p) (js_left p)) (prune (js_streamTime p) (js_right p)) (js_streamTime p).

Fixpoint store_left (batches : list frame) : io statefulJoinProcessor (join_error E) unit :=
  match batches with
  | [] => io_ret tt
  | batch :: batches =>
      do* value := io_lift (stored batch) in
      λ p, store_left batches (MkJoinState (js_left p ++ [value]) (js_right p) (js_streamTime p))
  end.

Fixpoint store_right (batches : list frame) : io statefulJoinProcessor (join_error E) unit :=
  match batches with
  | [] => io_ret tt
  | batch :: batches =>
      do* value := io_lift (stored batch) in
      λ p, store_right batches (MkJoinState (js_left p) (js_right p ++ [value]) (js_streamTime p))
  end.

Definition processSides (newLeft newRight : list frame) : io statefulJoinProcessor (join_error E) (list frame) :=
  do* _ := advance_all newLeft in
  do* _ := advance_all newRight in
  do* _ := (λ p, (Ok tt, prune_sides p)) in
  do* outputs := (λ p, (join_left newLeft newRight (js_right p) [], p)) in
  do* outputs := (λ p, (join_right newRight (js_left p) outputs, p)) in
  do* _ := store_left newLeft in
  do* _ := store_right newRight in
  io_ret outputs.

Definition JoinProcess (batch : frame) : io statefulJoinProcessor (join_error E) (list frame) := io_fail NeedsTwoParents.

(** ** Snapshots *)

Definition joinSnapshotVersion : Z := 1.

Definition appendTimedBatches (buffer : bytes) (batches : list timedBatch) : bytes :=
  fold_left (λ buffer batch, appendSized (buffer ++ be_encode 8 (uint64 (tb_maxTimestamp batch))) (tb_data batch)) batches
    (buffer ++ be_encode 4 (uint32 (zlen batches))).

Definition JoinSnapshot (p : statefulJoinProcessor) : bytes :=
  appendTimedBatches (appendTimedBatches (be_encode 4 joinSnapshotVersion ++ be_encode 8 (uint64 (js_streamTime p))) (js_left p)) (js_right p).

Definition readTimedBatch : reader snapshot_error timedBatch :=
  read* maxTimestamp := valueReader_uint64 in
  read* data := valueReader_sized in
  rret (MkTimed (int64 maxTimestamp) data).

Definition readTimedBatches : reader snapshot_error (list timedBatch) :=
  read* count := valueReader_uint32 in read_list (Z.to_nat count) readTimedBatch.

Definition JoinRestore (snapshot : bytes) : io statefulJoinProcessor (join_error E) unit := λ p,
  match valueReader_uint32 snapshot with
  | Ok (version, rest) =>
      if version =? joinSnapshotVersion then
        match (read* streamTime := valueReader_uint64 in
               read* storedLeft := readTimedBatches in
               read* storedRight := readTimedBatches in
               rret (MkJoinState storedLeft storedRight (int64 streamTime))) rest with
        | Ok (restored, []) => (Ok tt, restored)
        | Ok (_, _ :: _) => (Err TrailingJoinBytes, p)
        | Err _ => (Err CannotRestoreJoin, p)
        end
      else (Err UnsupportedJoinSnapshot, p)
  | Err _ => (Err UnsupportedJoinSnapshot, p)
  end.
End Join.

(** ** The window test *)

(** The difference is taken in int64, and the test is exact for every pair of event times. *)
Lemma withinWindow_exact join l r :
  inS 64 l → inS 64 r → 0 ≤ window_millis join < MaxInt64 →
  withinWindow join l r = bool_decide (Z.abs (l - r) ≤ window_millis join).
Proof.
  intros Hl Hr Hw. unfold withinWindow. set (w := window_millis join) in *.
  assert ((int64 (l - r) = l - r ∧ MinInt64 ≤ l - r ≤ MaxInt64) ∨ (l - r < MinInt64 ∧ int64 (l - r) = l - r + 2 ^ 64) ∨ (MaxInt64 < l - r ∧ int64 (l - r) = l - r - 2 ^ 64)) as Hd.
  { clear -Hl Hr. unfold inS in *. width_consts. unfold wrapS. width_consts. Z.to_euclidean_division_equations. lia. }
  unfold inS in Hl, Hr. width_consts. remember (int64 (l - r)) as d eqn:Hde. clear Hde.
  destruct Hd as [[-> Hrange]|[[Hlt ->]|[Hgt ->]]].
  - destruct (Z.eqb_spec (l - r) MinInt64) as [Heq|Hne].
    + rewrite orb_true_r. symmetry. apply bool_decide_eq_false. lia.
    + rewrite orb_false_r. replace ((0 <? r) && (l <? l - r)) with false by lia. replace ((r <? 0) && (l - r <? l)) with false by lia.
      cbn [orb]. destruct (Z.ltb_spec (l - r) 0) as [Hneg|Hpos].
      * rewrite wrapS_id by (unfold inS; width_consts; lia). rewrite (bool_decide_ext _ (- (l - r) ≤ w)) by lia.
        destruct (Z.leb_spec (- (l - r)) w); symmetry; [by apply bool_decide_eq_true|apply bool_decide_eq_false; lia].
      * rewrite (bool_decide_ext _ (l - r ≤ w)) by lia.
        destruct (Z.leb_spec (l - r) w); symmetry; [by apply bool_decide_eq_true|apply bool_decide_eq_false; lia].
  - replace ((0 <? r) && (l <? l - r + 18446744073709551616)) with true by lia. cbn [orb]. symmetry. apply bool_decide_eq_false. lia.
  - replace ((r <? 0) && (l - r - 18446744073709551616 <? l)) with true by lia. rewrite orb_true_r. cbn [orb]. symmetry. apply bool_decide_eq_false. lia.
Qed.

Section Facts.
Context {L : ArrowLib} {E : Type}.
Context (serialize : frame → result E bytes) (deserialize : bytes → result E frame) (null_slot : Z) (join : Join).
Hypothesis ipc_roundtrip : ∀ f bs, serialize f = Ok bs → deserialize bs = Ok f.

Abbreviation matches := (@matches L E null_slot join).
Abbreviation stored := (@stored E serialize).

(** The latest event time of a batch. *)
Definition max_time (batch : frame) : Z :=
  match @joinTimestamps E batch with Ok c => foldl Z.max MinInt64 (times c) | Err _ => MinInt64 end.

(** [out] is what the pairs of batches join to, in order. *)
Definition joined_pairs (pairs : list (frame * frame)) (out : list frame) : Prop :=
  ∃ os, Forall2 (λ p o, matches p.1 p.2 = Ok o) pairs os ∧ out = concat (map option_list os).

Lemma joined_pairs_nil : joined_pairs [] [].
Proof. by exists []. Qed.

Lemma joined_pairs_app p1 p2 o1 o2 : joined_pairs p1 o1 → joined_pairs p2 o2 → joined_pairs (p1 ++ p2) (o1 ++ o2).
Proof.
  intros (os1 & H1 & ->) (os2 & H2 & ->). exists (os1 ++ os2). split; [by apply Forall2_app|]. by rewrite map_app, concat_app.
Qed.

Lemma addMatches_Ok l r outputs out :
  @addMatches L E null_slot join l r outputs = Ok out → ∃ new, joined_pairs [(l, r)] new ∧ out = outputs ++ new.
Proof.
  unfold addMatches. intros (o & Ho & [= <-])%rbind_Ok. exists (option_list o). split; [|done].
  exists [o]. split; [by repeat constructor|]. cbn. by rewrite app_nil_r.
Qed.

(** Chain the outputs of two steps. *)
Lemma chain p1 p2 outputs new1 out :
  joined_pairs p1 new1 → (∃ new2, joined_pairs p2 new2 ∧ out = (outputs ++ new1) ++ new2) →
  ∃ new, joined_pairs (p1 ++ p2) new ∧ out = outputs ++ new.
Proof. intros H1 (new2 & H2 & ->). exists (new1 ++ new2). split; [by apply joined_pairs_app|]. by rewrite (assoc_L (++)). Qed.

Definition stored_as (batch : frame) (t : timedBatch) : Prop := stored batch = Ok t.

Lemma joinStored_Ok batch history tbs (isLeft : bool) outputs out :
  Forall2 stored_as history tbs → joinStored deserialize null_slot join batch tbs isLeft outputs = Ok out →
  ∃ new, joined_pairs (map (λ b, if isLeft then (batch, b) else (b, batch)) history) new ∧ out = outputs ++ new.
Proof.
  intros H. revert outputs. induction H as [|b t history tbs Hb _ IH]; intros outputs; cbn [joinStored].
  - intros [= <-]. exists []. split; [apply joined_pairs_nil|by rewrite app_nil_r].
  - intros (decoded & Hd & (outputs' & Ho & Hr)%rbind_Ok)%rbind_Ok.
    assert (decoded = b) as ->.
    { unfold stored_as, Joins.stored in Hb. apply rbind_Ok in Hb as (c & _ & (data & Hs & [= <-])%rbind_Ok). cbn [tb_data] in Hd.
      destruct (serialize b) as [bs|] eqn:Hser; [|done]. injection Hs as <-. rewrite (ipc_roundtrip _ _ Hser) in Hd. by injection Hd as <-. }
    cbn [map]. destruct isLeft; apply addMatches_Ok in Ho as (new & Hn & ->);
      apply (chain [_] _ outputs new); [exact Hn|by apply IH|exact Hn|by apply IH].
Qed.

Lemma addMatches_each_Ok batch others outputs out :
  @addMatches_each L E null_slot join batch others outputs = Ok out →
  ∃ new, joined_pairs (map (λ b, (batch, b)) others) new ∧ out = outputs ++ new.
Proof.
  revert outputs. induction others as [|b others IH]; intros outputs; cbn [addMatches_each].
  - intros [= <-]. exists []. split; [apply joined_pairs_nil|by rewrite app_nil_r].
  - intros (outputs' & Ho & Hr)%rbind_Ok. apply addMatches_Ok in Ho as (new & Hn & ->). apply (chain [_] _ outputs new); [exact Hn|by apply IH].
Qed.

(** The pairs of a round: every new left batch with the right side and then with the new right batches, and every
    new right batch with the left side. *)
Definition round_pairs (leftSide rightSide newLeft newRight : list frame) : list (frame * frame) :=
  concat (map (λ l, map (λ r, (l, r)) (rightSide ++ newRight)) newLeft) ++
  concat (map (λ r, map (λ l, (l, r)) leftSide) newRight).

Lemma join_left_Ok newLeft newRight history tbs outputs out :
  Forall2 stored_as history tbs → join_left deserialize null_slot join newLeft newRight tbs outputs = Ok out →
  ∃ new, joined_pairs (concat (map (λ l, map (λ r, (l, r)) (history ++ newRight)) newLeft)) new ∧ out = outputs ++ new.
Proof.
  intros H. revert outputs. induction newLeft as [|l newLeft IH]; intros outputs; cbn [join_left].
  - intros [= <-]. exists []. split; [apply joined_pairs_nil|by rewrite app_nil_r].
  - intros (o1 & H1 & (o2 & H2 & Hr)%rbind_Ok)%rbind_Ok.
    apply (joinStored_Ok l history tbs true) in H1 as (new1 & Hn1 & ->); [|done]. apply addMatches_each_Ok in H2 as (new2 & Hn2 & ->).
    cbn [map concat]. rewrite map_app, <- !(assoc_L (++)). apply (chain _ _ outputs new1); [exact Hn1|].
    apply (chain _ _ (outputs ++ new1) new2); [exact Hn2|]. by apply IH.
Qed.

Lemma join_right_Ok newRight history tbs outputs out :
  Forall2 stored_as history tbs → join_right deserialize null_slot join newRight tbs outputs = Ok out →
  ∃ new, joined_pairs (concat (map (λ r, map (λ l, (l, r)) history) newRight)) new ∧ out = outputs ++ new.
Proof.
  intros H. revert outputs. induction newRight as [|r newRight IH]; intros outputs; cbn [join_right].
  - intros [= <-]. exists []. split; [apply joined_pairs_nil|by rewrite app_nil_r].
  - intros (o1 & H1 & Hr)%rbind_Ok. apply (joinStored_Ok r history tbs false) in H1 as (new1 & Hn1 & ->); [|done].
    cbn [map concat]. apply (chain _ _ outputs new1); [exact Hn1|by apply IH].
Qed.

(** ** What a side holds *)

Definition live_at (cutoff : Z) (history : list frame) : list frame := filter (λ b, cutoff ≤ max_time b) history.

(** A side holds the batches of its history from any later cutoff on. *)
Definition side_ok (cutoff : Z) (history : list frame) (side : list timedBatch) : Prop :=
  ∃ tbs, Forall2 stored_as history tbs ∧
    ∀ cutoff', cutoff ≤ cutoff' → filter (λ t, cutoff' ≤ tb_maxTimestamp t) side = filter (λ t, cutoff' ≤ tb_maxTimestamp t) tbs.

Lemma stored_time b t : stored_as b t → tb_maxTimestamp t = max_time b.
Proof.
  unfold stored_as, Joins.stored, max_time. intros (c & Hc & (data & _ & [= <-])%rbind_Ok)%rbind_Ok. by rewrite Hc.
Qed.

Lemma live_stored cutoff history tbs :
  Forall2 stored_as history tbs → Forall2 stored_as (live_at cutoff history) (filter (λ t, cutoff ≤ tb_maxTimestamp t) tbs).
Proof.
  unfold live_at. induction 1 as [|b t history tbs Hb _ IH]; [constructor|]. rewrite !filter_cons. rewrite (stored_time _ _ Hb).
  case_decide; [by constructor|done].
Qed.

Lemma side_ok_weaken cutoff cutoff' history side : cutoff ≤ cutoff' → side_ok cutoff history side → side_ok cutoff' history side.
Proof. intros Hc (tbs & H & Hs). exists tbs. split; [done|]. intros c ?. apply Hs. lia. Qed.

Lemma side_ok_pruned cutoff history side :
  side_ok cutoff history side →
  Forall2 stored_as (live_at cutoff history) (filter (λ t, cutoff ≤ tb_maxTimestamp t) side) ∧
  side_ok cutoff history (filter (λ t, cutoff ≤ tb_maxTimestamp t) side).
Proof.
  intros (tbs & H & Hs). split; [rewrite Hs by lia; by apply live_stored|]. exists tbs. split; [done|].
  intros cutoff' Hc. rewrite <- Hs by done. apply list_filter_filter_l. intros t. lia.
Qed.

Lemma side_ok_app cutoff history side new tbs :
  side_ok cutoff history side → Forall2 stored_as new tbs → side_ok cutoff (history ++ new) (side ++ tbs).
Proof.
  intros (old & H & Hs) Hn. exists (old ++ tbs). split; [by apply Forall2_app|]. intros cutoff' Hc. rewrite !filter_app. by rewrite Hs.
Qed.

(** ** A round *)

Abbreviation process := (@processSides L E serialize deserialize null_slot join).

(** The event times of the batches of a round. *)
Definition batch_times (batch : frame) : list Z := match @joinTimestamps E batch with Ok c => times c | Err _ => [] end.
Definition round_times (batches : list frame) : list Z := concat (map batch_times batches).

Lemma advance_all_Ok batches p p' :
  @advance_all E batches p = (Ok tt, p') →
  p' = MkJoinState (js_left p) (js_right p) (foldl Z.max (js_streamTime p) (round_times batches)).
Proof.
  revert p. induction batches as [|b batches IH]; intros p; cbn [advance_all].
  - intros [= <-]. by destruct p.
  - unfold advanceStreamTime. unfold round_times. cbn [map concat]. unfold batch_times at 1.
    destruct (joinTimestamps b) as [c|]; [|done]. cbn [rbind]. intros ->%IH. cbn [js_left js_right js_streamTime]. by rewrite foldl_app.
Qed.

Lemma store_left_Ok batches p p' :
  @store_left E serialize batches p = (Ok tt, p') →
  ∃ tbs, Forall2 stored_as batches tbs ∧ p' = MkJoinState (js_left p ++ tbs) (js_right p) (js_streamTime p).
Proof.
  revert p. induction batches as [|b batches IH]; intros p; cbn [store_left].
  - intros [= <-]. exists []. split; [constructor|]. rewrite app_nil_r. by destruct p.
  - intros Hs. apply io_bind_Ok in Hs as (t & p1 & Ht & Hr). apply io_lift_Ok in Ht as [Ht ->].
    apply IH in Hr as (tbs & Hb & ->). exists (t :: tbs). split; [by constructor|]. cbn. by rewrite <- (assoc_L (++)).
Qed.

Lemma store_right_Ok batches p p' :
  @store_right E serialize batches p = (Ok tt, p') →
  ∃ tbs, Forall2 stored_as batches tbs ∧ p' = MkJoinState (js_left p) (js_right p ++ tbs) (js_streamTime p).
Proof.
  revert p. induction batches as [|b batches IH]; intros p; cbn [store_right].
  - intros [= <-]. exists []. split; [constructor|]. rewrite app_nil_r. by destruct p.
  - intros Hs. apply io_bind_Ok in Hs as (t & p1 & Ht & Hr). apply io_lift_Ok in Ht as [Ht ->].
    apply IH in Hr as (tbs & Hb & ->). exists (t :: tbs). split; [by constructor|]. cbn. by rewrite <- (assoc_L (++)).
Qed.

(** A state holds the history of both sides. *)
Definition sides_ok (leftHistory rightHistory : list frame) (p : statefulJoinProcessor) : Prop :=
  side_ok (join_cutoff join (js_streamTime p)) leftHistory (js_left p) ∧
  side_ok (join_cutoff join (js_streamTime p)) rightHistory (js_right p) ∧ inS 64 (js_streamTime p).

Definition window_ok : Prop := 0 ≤ window_millis join < MaxInt64.

Lemma join_cutoff_mono t t' : window_ok → inS 64 t → inS 64 t' → t ≤ t' → join_cutoff join t ≤ join_cutoff join t'.
Proof.
  intros Hw Ht Ht' Hle. unfold join_cutoff, window_ok in *.
  rewrite !saturatingSubtract_clamp by (done || unfold inS; width_consts; lia). lia.
Qed.

Lemma foldl_max_inS l t : inS 64 t → Forall (inS 64) l → inS 64 (foldl Z.max t l) ∧ t ≤ foldl Z.max t l.
Proof.
  intros Ht H. revert t Ht. induction H as [|x l Hx _ IH]; intros t Ht; cbn [foldl]; [split; [done|lia]|].
  destruct (IH (Z.max t x)) as [H1 H2]; [unfold inS in *; lia|]. split; [done|lia].
Qed.

(** The stream time after a round. *)
Definition round_time (t : Z) (newLeft newRight : list frame) : Z := foldl Z.max t (round_times newLeft ++ round_times newRight).

Lemma processSides_Ok leftHistory rightHistory newLeft newRight p outputs p' :
  window_ok → Forall (inS 64) (round_times newLeft ++ round_times newRight) → sides_ok leftHistory rightHistory p →
  process newLeft newRight p = (Ok outputs, p') →
  let t := round_time (js_streamTime p) newLeft newRight in
  js_streamTime p' = t ∧ sides_ok (leftHistory ++ newLeft) (rightHistory ++ newRight) p' ∧
  joined_pairs (round_pairs (live_at (join_cutoff join t) leftHistory) (live_at (join_cutoff join t) rightHistory) newLeft newRight) outputs.
Proof.
  intros Hw Hr (Hl & Hrt & Ht) Hp. cbv zeta.
  destruct (foldl_max_inS _ _ Ht Hr) as [Ht' Hle]. fold (round_time (js_streamTime p) newLeft newRight) in Ht', Hle.
  unfold processSides in Hp. apply io_bind_Ok in Hp as ([] & p1 & H1%advance_all_Ok & Hp).
  apply io_bind_Ok in Hp as ([] & p2 & H2%advance_all_Ok & Hp). subst p1. cbn [js_left js_right js_streamTime] in H2.
  rewrite <- foldl_app in H2. fold (round_time (js_streamTime p) newLeft newRight) in H2.
  set (t := round_time (js_streamTime p) newLeft newRight) in *.
  apply io_bind_Ok in Hp as ([] & p3 & H3 & Hp). injection H3 as <-. subst p2. unfold prune_sides in Hp. cbn [js_left js_right js_streamTime] in Hp.
  pose proof (join_cutoff_mono _ _ Hw Ht Ht' Hle) as Hc.
  destruct (side_ok_pruned _ _ _ (side_ok_weaken _ _ _ _ Hc Hl)) as [Sl Kl].
  destruct (side_ok_pruned _ _ _ (side_ok_weaken _ _ _ _ Hc Hrt)) as [Sr Kr].
  fold (prune join t (js_left p)) in Sl, Kl. fold (prune join t (js_right p)) in Sr, Kr.
  apply io_bind_Ok in Hp as (o1 & p4 & H4 & Hp). injection H4 as H4 <-. cbn [js_right] in H4.
  apply io_bind_Ok in Hp as (o2 & p5 & H5 & Hp). injection H5 as H5 <-. cbn [js_left] in H5.
  apply (join_left_Ok _ _ _ _ _ _ Sr) in H4 as (n1 & J1 & ->). apply (join_right_Ok _ _ _ _ _ Sl) in H5 as (n2 & J2 & ->).
  apply io_bind_Ok in Hp as ([] & p6 & H6%store_left_Ok & Hp). destruct H6 as (tl & Hsl & ->).
  apply io_bind_Ok in Hp as ([] & p7 & H7%store_right_Ok & Hp). destruct H7 as (tr & Hsr & ->). injection Hp as <- <-.
  cbn [js_left js_right js_streamTime app]. split; [done|]. split; [|by apply joined_pairs_app].
  split; [by apply side_ok_app|]. split; [by apply side_ok_app|done].
Qed.

(** ** Runs *)

Fixpoint run_rounds (rounds : list (list frame * list frame)) (p : statefulJoinProcessor)
    : result (join_error E) (list (list frame)) * statefulJoinProcessor :=
  match rounds with
  | [] => (Ok [], p)
  | (newLeft, newRight) :: rounds =>
      match process newLeft newRight p with
      | (Ok outputs, p) =>
          match run_rounds rounds p with (Ok rest, p) => (Ok (outputs :: rest), p) | (Err e, p) => (Err e, p) end
      | (Err e, p) => (Err e, p)
      end
  end.

(** The pairs that a run joins, from the whole history: a batch of the history takes part as long as its latest event
    time is within the window of the stream time. *)
Fixpoint run_pairs (leftHistory rightHistory : list frame) (t : Z) (rounds : list (list frame * list frame)) : list (frame * frame) :=
  match rounds with
  | [] => []
  | (newLeft, newRight) :: rounds =>
      let t := round_time t newLeft newRight in
      round_pairs (live_at (join_cutoff join t) leftHistory) (live_at (join_cutoff join t) rightHistory) newLeft newRight ++
      run_pairs (leftHistory ++ newLeft) (rightHistory ++ newRight) t rounds
  end.

Lemma run_rounds_Ok leftHistory rightHistory rounds p outputs p' :
  window_ok → Forall (λ r, Forall (inS 64) (round_times r.1 ++ round_times r.2)) rounds → sides_ok leftHistory rightHistory p →
  run_rounds rounds p = (Ok outputs, p') →
  joined_pairs (run_pairs leftHistory rightHistory (js_streamTime p) rounds) (concat outputs).
Proof.
  intros Hw Hr. revert leftHistory rightHistory p outputs. induction Hr as [|[newLeft newRight] rounds Hr _ IH]; intros lh rh p outputs Hs; cbn [run_rounds run_pairs].
  - intros [= <- <-]. apply joined_pairs_nil.
  - destruct (process newLeft newRight p) as [[out|] p1] eqn:Hp; [|done].
    destruct (run_rounds rounds p1) as [[rest|] p2] eqn:Hrest; [|done]. intros [= <- <-].
    destruct (processSides_Ok _ _ _ _ _ _ _ Hw Hr Hs Hp) as (Ht & Hs' & Hj). cbn [concat]. apply joined_pairs_app; [done|].
    cbn [fst snd] in Ht. rewrite <- Ht. by eapply IH.
Qed.

Lemma new_sides_ok : sides_ok [] [] newStatefulJoinProcessor.
Proof.
  split; [|split; [|by_decide]]; (exists []; split; [constructor|done]).
Qed.
End Facts.

(** ** Rows that match *)

Section Rows.
Context {L : ArrowLib} {E : Type} (null_slot : Z) (join : Join).

(** What makes a pair of rows match: keys that are not null, with one encoding, and event times within the window. *)
Definition rows_match (leftKeys rightKeys leftTimestamps rightTimestamps : column) (pair : nat * nat) : Prop :=
  let leftKey := arrowValue (col_Type leftKeys) (cell_at leftKeys pair.1) in
  let rightKey := arrowValue (col_Type rightKeys) (cell_at rightKeys pair.2) in
  leftKey ≠ VNil ∧ rightKey ≠ VNil ∧ encodeValue leftKey = encodeValue rightKey ∧
  withinWindow join (time_at null_slot leftTimestamps pair.1) (time_at null_slot rightTimestamps pair.2) = true.

Lemma value_nil_dec (v : value) : {v = VNil} + {v ≠ VNil}.
Proof. destruct v; [by left|right..]; done. Qed.

Lemma match_rows_some leftKeys rightKeys lt rt i j :
  arrowValue (col_Type leftKeys) (cell_at leftKeys i) ≠ VNil → arrowValue (col_Type rightKeys) (cell_at rightKeys j) ≠ VNil →
  @match_rows L E null_slot join leftKeys rightKeys lt rt i j =
    let* encodedLeft := rmap_err JoinValue (encodeValue (arrowValue (col_Type leftKeys) (cell_at leftKeys i))) in
    let* encodedRight := rmap_err JoinValue (encodeValue (arrowValue (col_Type rightKeys) (cell_at rightKeys j))) in
    Ok (if bool_decide (encodedLeft = encodedRight) && withinWindow join (time_at null_slot lt i) (time_at null_slot rt j)
        then [(i, j)] else []).
Proof. intros Hl Hr. unfold match_rows. destruct (arrowValue _ (cell_at leftKeys i)); try done; by destruct (arrowValue _ (cell_at rightKeys j)). Qed.

Lemma match_rows_spec leftKeys rightKeys lt rt i j pairs :
  @match_rows L E null_slot join leftKeys rightKeys lt rt i j = Ok pairs →
  ∀ pair, pair ∈ pairs ↔ pair = (i, j) ∧ rows_match leftKeys rightKeys lt rt pair.
Proof.
  intros H pair. destruct (value_nil_dec (arrowValue (col_Type leftKeys) (cell_at leftKeys i))) as [Hl|Hl].
  { unfold match_rows in H. rewrite Hl in H. injection H as <-. split; [by intros ?%elem_of_nil|]. intros [-> (? & _)]. done. }
  destruct (value_nil_dec (arrowValue (col_Type rightKeys) (cell_at rightKeys j))) as [Hr|Hr].
  { unfold match_rows in H. rewrite Hr in H. assert (pairs = []) as -> by (destruct (arrowValue _ (cell_at leftKeys i)); congruence).
    split; [by intros ?%elem_of_nil|]. intros [-> (_ & ? & _)]. done. }
  rewrite match_rows_some in H by done. apply rbind_Ok in H as (el & Hel & (er & Her & [= <-])%rbind_Ok).
  destruct (encodeValue (arrowValue _ (cell_at leftKeys i))) as [el'|] eqn:El; [|done]. injection Hel as ->.
  destruct (encodeValue (arrowValue _ (cell_at rightKeys j))) as [er'|] eqn:Er; [|done]. injection Her as ->.
  assert (rows_match leftKeys rightKeys lt rt (i, j) ↔ el = er ∧ withinWindow join (time_at null_slot lt i) (time_at null_slot rt j) = true) as Hm.
  { unfold rows_match. cbn [fst snd]. rewrite El, Er. split; [intros (_ & _ & [= ->] & ?); done|intros [-> ?]; done]. }
  destruct (bool_decide (el = er) && _) eqn:Hb.
  - apply andb_true_iff in Hb as [?%bool_decide_eq_true ?]. rewrite list_elem_of_singleton. split; [intros ->; split; [done|by apply Hm]|by intros [-> _]].
  - split; [by intros ?%elem_of_nil|]. intros [-> [-> Hw]%Hm]. rewrite Hw in Hb. by rewrite bool_decide_true in Hb by done.
Qed.

Lemma elem_of_concat_results {A B Er} (f : A → result Er (list B)) l ls b :
  map_results f l = Ok ls → b ∈ concat ls ↔ ∃ a bs, a ∈ l ∧ f a = Ok bs ∧ b ∈ bs.
Proof.
  intros H%map_results_inv. induction H as [|a bs l ls Ha _ IH]; cbn.
  - split; [by intros ?%elem_of_nil|by intros (? & ? & ?%elem_of_nil & _)].
  - rewrite elem_of_app, IH. split.
    + intros [Hb|(a' & bs' & H1 & H2 & H3)]; [exists a, bs; split; [apply list_elem_of_here|done]|].
      exists a', bs'. split; [by apply list_elem_of_further|done].
    + intros (a' & bs' & [->|H1]%elem_of_cons & H2 & H3); [left; congruence|right; eauto].
Qed.

Lemma match_left_spec leftKeys rightKeys lt rt n i pairs :
  @match_left L E null_slot join leftKeys rightKeys lt rt n i = Ok pairs →
  ∀ pair, pair ∈ pairs ↔ pair.1 = i ∧ (pair.2 < n)%nat ∧ rows_match leftKeys rightKeys lt rt pair.
Proof.
  intros H [i' j]. cbn [fst snd]. destruct (value_nil_dec (arrowValue (col_Type leftKeys) (cell_at leftKeys i))) as [Hl|Hl].
  { unfold match_left in H. rewrite Hl in H. injection H as <-. split; [by intros ?%elem_of_nil|]. intros (-> & _ & ? & _). done. }
  assert (∃ ls, map_results (@match_rows L E null_slot join leftKeys rightKeys lt rt i) (seq 0 n) = Ok ls ∧ pairs = concat ls) as (ls & Hls & ->).
  { unfold match_left in H. destruct (arrowValue _ (cell_at leftKeys i)); try done;
      apply rbind_Ok in H as (_ & _ & (ls & Hls & [= <-])%rbind_Ok); by exists ls. }
  rewrite (elem_of_concat_results _ _ _ _ Hls). setoid_rewrite elem_of_seq. split.
  - intros (j' & bs & Hj & Hf & Hin). apply (match_rows_spec _ _ _ _ _ _ _ Hf) in Hin as [[= -> ->] Hm]. split; [done|]. split; [lia|done].
  - intros (-> & Hj & Hm). assert (is_Some (ls !! j)) as [bs Hbs].
    { apply lookup_lt_is_Some. pose proof (Forall2_length _ _ _ (map_results_inv _ _ _ Hls)) as Hlen. rewrite length_seq in Hlen. lia. }
    pose proof (Forall2_lookup_r _ _ _ _ _ (map_results_inv _ _ _ Hls) Hbs) as (j' & Hj' & Hf).
    apply lookup_seq in Hj' as [-> _]. cbn in Hf. exists j, bs. split; [lia|]. split; [done|]. by apply (match_rows_spec _ _ _ _ _ _ _ Hf).
Qed.

(** The pairs of two batches: those that match, and no others. *)
Lemma matches_Ok l r o :
  @matches L E null_slot join l r = Ok o →
  ∃ leftKeys rightKeys lt rt pairs,
    columnByName l (LeftKey join) = Some leftKeys ∧ columnByName r (RightKey join) = Some rightKeys ∧
    @joinTimestamps E l = Ok lt ∧ @joinTimestamps E r = Ok rt ∧
    (∀ pair, pair ∈ pairs ↔ (pair.1 < fr_NumRows l)%nat ∧ (pair.2 < fr_NumRows r)%nat ∧ rows_match leftKeys rightKeys lt rt pair) ∧
    match o with
    | None => pairs = []
    | Some joined => pairs ≠ [] ∧ joinRows l r pairs (LeftPrefix join) (RightPrefix join) = Ok joined
    end.
Proof.
  unfold matches. intros (lk & Hlk & (rk & Hrk & (lt & Hlt & (rt & Hrt & (ls & Hls & H)%rbind_Ok)%rbind_Ok)%rbind_Ok)%rbind_Ok)%rbind_Ok.
  exists lk, rk, lt, rt, (concat ls). split; [by destruct (columnByName l _); [injection Hlk as ->|]|].
  split; [by destruct (columnByName r _); [injection Hrk as ->|]|]. split; [done|]. split; [done|]. split.
  - intros [i j]. rewrite (elem_of_concat_results _ _ _ _ Hls). setoid_rewrite elem_of_seq. cbn [fst snd]. split.
    + intros (i' & bs & Hi & Hf & Hin). apply (match_left_spec _ _ _ _ _ _ _ Hf) in Hin as (? & ? & ?). cbn in *. subst. split; [lia|done].
    + intros (Hi & Hj & Hm). assert (is_Some (ls !! i)) as [bs Hbs].
      { apply lookup_lt_is_Some. pose proof (Forall2_length _ _ _ (map_results_inv _ _ _ Hls)) as Hlen. rewrite length_seq in Hlen. lia. }
      pose proof (Forall2_lookup_r _ _ _ _ _ (map_results_inv _ _ _ Hls) Hbs) as (i' & Hi' & Hf).
      apply lookup_seq in Hi' as [-> _]. cbn in Hf. exists i, bs. split; [lia|]. split; [done|]. by apply (match_left_spec _ _ _ _ _ _ _ Hf).
  - destruct (concat ls) as [|p ps]; [by injection H as <-|]. apply rbind_Ok in H as (joined & Hj & [= <-]).
    split; [done|]. destruct (joinRows _ _ _ _ _) as [f|] eqn:Hjr; [|done]. by injection Hj as ->.
Qed.

(** Every row of a batch has an event time. *)
Definition timed (batch : frame) : Prop :=
  ∀ c, @joinTimestamps E batch = Ok c → ∀ row, (row < fr_NumRows batch)%nat → ∃ n, cell_at c row = CInt n ∧ inS 64 n.

Lemma max_time_le batch c row :
  timed batch → @joinTimestamps E batch = Ok c → (row < fr_NumRows batch)%nat →
  inS 64 (time_at null_slot c row) ∧ time_at null_slot c row ≤ @max_time E batch.
Proof.
  intros Ht Hc Hr. destruct (Ht c Hc row Hr) as (n & Hn & Hin). unfold time_at. rewrite Hn. split; [done|].
  unfold max_time. rewrite Hc.
  assert (n ∈ times c) as Hel.
  { unfold times. apply list_elem_of_omap. exists (CInt n). split; [|done]. unfold cell_at in Hn.
    destruct (col_Cells c !! row) as [x|] eqn:Hx; [|done]. cbn in Hn. subst. by eapply list_elem_of_lookup_2. }
  clear -Hel. generalize MinInt64. induction (times c) as [|x l IH]; intros t; [by apply elem_of_nil in Hel|]. cbn [foldl].
  apply elem_of_cons in Hel as [->|Hel]; [|by apply IH]. clear.
  assert (∀ l t, t ≤ foldl Z.max t l) as Hmono by (clear; induction l as [|y l IHl]; intros t; cbn; [lia|]; specialize (IHl (Z.max t y)); lia).
  specialize (Hmono l (Z.max t x)). lia.
Qed.
End Rows.

(** ** Properties *)

(** C4: The join is the join of its history. Over any run of rounds that succeeds from a fresh processor, what
    comes out is, in order, the joined batches of exactly these pairs: in each round every new left batch
    with every right batch so far whose latest event time is within the window of the stream time, and with every new right
    batch, and then every new right batch with such a left batch so far. So no pair of batches joins twice, and storing,
    serializing and pruning change nothing else. *)
Theorem join_exact {L : ArrowLib} {E} serialize deserialize null_slot join rounds outputs p :
  (∀ f bs, serialize f = @Ok E _ bs → deserialize bs = Ok f) → window_ok join →
  Forall (λ r, Forall (inS 64) (@round_times E r.1 ++ @round_times E r.2)) rounds →
  run_rounds serialize deserialize null_slot join rounds newStatefulJoinProcessor = (Ok outputs, p) →
  @joined_pairs L E null_slot join (@run_pairs E join [] [] MinInt64 rounds) (concat outputs).
Proof.
  intros Hi Hw Hr Hrun. exact (run_rounds_Ok serialize deserialize null_slot join Hi [] [] rounds newStatefulJoinProcessor outputs p Hw Hr
    (new_sides_ok serialize join) Hrun).
Qed.

(** C12: Rows match exactly, and pruning only loses late rows. Two batches join on the pairs of rows whose keys are not null and
    have one encoding and whose event times differ by the window at most, for all int64 times, the differences that
    overflow included. When a stored batch is pruned at a stream time, a row that it would have matched
    has an event time before the stream time: for data in order nothing is lost. *)
Theorem join_matches {L : ArrowLib} {E} null_slot join l r o :
  window_ok join → @timed E l → @timed E r → @matches L E null_slot join l r = Ok o →
  ∃ leftKeys rightKeys lt rt pairs,
    columnByName l (LeftKey join) = Some leftKeys ∧ columnByName r (RightKey join) = Some rightKeys ∧
    @joinTimestamps E l = Ok lt ∧ @joinTimestamps E r = Ok rt ∧
    (∀ i j, (i, j) ∈ pairs ↔ (i < fr_NumRows l)%nat ∧ (j < fr_NumRows r)%nat ∧
       arrowValue (col_Type leftKeys) (cell_at leftKeys i) ≠ VNil ∧ arrowValue (col_Type rightKeys) (cell_at rightKeys j) ≠ VNil ∧
       encodeValue (arrowValue (col_Type leftKeys) (cell_at leftKeys i)) = encodeValue (arrowValue (col_Type rightKeys) (cell_at rightKeys j)) ∧
       Z.abs (time_at null_slot lt i - time_at null_slot rt j) ≤ window_millis join) ∧
    match o with
    | None => pairs = []
    | Some joined => pairs ≠ [] ∧ joinRows l r pairs (LeftPrefix join) (RightPrefix join) = Ok joined
    end ∧
    ∀ t i j, inS 64 t → (i, j) ∈ pairs →
      (@max_time E l < join_cutoff join t → time_at null_slot rt j < t) ∧
      (@max_time E r < join_cutoff join t → time_at null_slot lt i < t).
Proof.
  intros Hw Hl Hr (lk & rk & lt & rt & pairs & H1 & H2 & H3 & H4 & H5 & H6)%matches_Ok. exists lk, rk, lt, rt, pairs.
  do 4 (split; [done|]).
  assert (∀ i j, (i, j) ∈ pairs ↔ (i < fr_NumRows l)%nat ∧ (j < fr_NumRows r)%nat ∧
       arrowValue (col_Type lk) (cell_at lk i) ≠ VNil ∧ arrowValue (col_Type rk) (cell_at rk j) ≠ VNil ∧
       encodeValue (arrowValue (col_Type lk) (cell_at lk i)) = encodeValue (arrowValue (col_Type rk) (cell_at rk j)) ∧
       Z.abs (time_at null_slot lt i - time_at null_slot rt j) ≤ window_millis join) as Hp.
  { intros i j. rewrite H5. cbn [fst snd]. unfold rows_match. cbn [fst snd]. split.
    - intros (Hi & Hj & ? & ? & ? & Hwin). do 5 (split; [done|]). destruct (max_time_le null_slot l lt i Hl H3 Hi), (max_time_le null_slot r rt j Hr H4 Hj).
      rewrite withinWindow_exact in Hwin by done. by apply bool_decide_eq_true in Hwin.
    - intros (Hi & Hj & ? & ? & ? & Hwin). do 5 (split; [done|]). destruct (max_time_le null_slot l lt i Hl H3 Hi), (max_time_le null_slot r rt j Hr H4 Hj).
      rewrite withinWindow_exact by done. by apply bool_decide_eq_true. }
  split; [done|]. split; [done|]. intros t i j Ht (Hi & Hj & _ & _ & _ & Hd)%Hp.
  destruct (max_time_le null_slot l lt i Hl H3 Hi) as [Il Ml], (max_time_le null_slot r rt j Hr H4 Hj) as [Ir Mr].
  unfold join_cutoff, window_ok in *. rewrite saturatingSubtract_clamp by (done || unfold inS; width_consts; lia).
  unfold inS in *. width_consts. split; lia.
Qed.

(** ** The snapshot of a join *)

Section Snapshots.
Context {E : Type}.

Definition timed_bytes (batch : timedBatch) : bytes := be_encode 8 (uint64 (tb_maxTimestamp batch)) ++ sized_bytes (tb_data batch).
Definition side_bytes (batches : list timedBatch) : bytes := be_encode 4 (uint32 (zlen batches)) ++ concat (map timed_bytes batches).

Lemma zlen_timed_bytes batch : zlen (timed_bytes batch) = 12 + zlen (tb_data batch).
Proof. unfold timed_bytes, sized_bytes, zlen. rewrite !length_app, !length_be_encode. lia. Qed.

Lemma appendTimedBatches_bytes buffer batches :
  zlen (concat (map timed_bytes batches)) < 2 ^ 32 → appendTimedBatches buffer batches = buffer ++ side_bytes batches.
Proof.
  unfold appendTimedBatches, side_bytes. rewrite (assoc_L (++)). generalize (buffer ++ be_encode 4 (uint32 (zlen batches))). clear buffer.
  induction batches as [|b batches IH]; intros buffer; cbn [fold_left map concat]; [by rewrite app_nil_r|].
  rewrite zlen_app, zlen_timed_bytes. intros H. pose proof (zlen_nonneg (concat (map timed_bytes batches))). pose proof (zlen_nonneg (tb_data b)).
  rewrite appendSized_short, IH by lia. unfold timed_bytes. by rewrite !(assoc_L (++)).
Qed.

Lemma readTimedBatch_dec batch rest :
  inS 64 (tb_maxTimestamp batch) → zlen (timed_bytes batch ++ rest) < 2 ^ 32 → readTimedBatch (timed_bytes batch ++ rest) = Ok (batch, rest).
Proof.
  intros Ht Hl. rewrite zlen_app, zlen_timed_bytes in Hl. unfold readTimedBatch, timed_bytes. rewrite <- (assoc_L (++)).
  rewrite (rseq_dec (be_encode 8) valueReader_uint64 (inU 64)) by (apply wrapU_range; lia). unfold rseq. rewrite sized_dec by lia.
  unfold rret. rewrite wrapS_wrapU, wrapS_id by done. by destruct batch.
Qed.

Lemma read_list_timed batches rest :
  Forall (inS 64 ∘ tb_maxTimestamp) batches → zlen (concat (map timed_bytes batches) ++ rest) < 2 ^ 32 →
  read_list (length batches) readTimedBatch (concat (map timed_bytes batches) ++ rest) = Ok (batches, rest).
Proof.
  induction 1 as [|b batches Hb _ IH]; intros Hl; [done|]. cbn [map concat length read_list] in *. rewrite <- (assoc_L (++)) in *.
  unfold rseq at 1. rewrite readTimedBatch_dec by done. rewrite zlen_app, zlen_timed_bytes in Hl. pose proof (zlen_nonneg (tb_data b)).
  unfold rseq. by rewrite IH by lia.
Qed.

Lemma length_le_bytes batches : zlen batches ≤ zlen (concat (map timed_bytes batches)).
Proof.
  induction batches as [|b batches IH]; cbn [map concat]; [done|]. rewrite zlen_app, zlen_timed_bytes.
  pose proof (zlen_nonneg (tb_data b)). unfold zlen in *. cbn [length]. lia.
Qed.

Lemma readTimedBatches_dec batches rest :
  Forall (inS 64 ∘ tb_maxTimestamp) batches → zlen (side_bytes batches ++ rest) < 2 ^ 32 →
  readTimedBatches (side_bytes batches ++ rest) = Ok (batches, rest).
Proof.
  intros Hb Hl. unfold side_bytes in *. rewrite <- (assoc_L (++)) in *. rewrite zlen_app in Hl.
  pose proof (zlen_nonneg (be_encode 4 (uint32 (zlen batches)))). pose proof (length_le_bytes batches). pose proof (zlen_nonneg batches).
  pose proof Hl as Hl'. rewrite zlen_app in Hl'. pose proof (zlen_nonneg rest).
  unfold readTimedBatches. rewrite (rseq_dec (be_encode 4) valueReader_uint32 (inU 32)) by (apply wrapU_range; lia).
  rewrite wrapU_id by (unfold inU; lia). unfold zlen at 1. rewrite Nat2Z.id. apply read_list_timed; [done|lia].
Qed.

Definition join_state_ok (p : statefulJoinProcessor) : Prop :=
  inS 64 (js_streamTime p) ∧ Forall (inS 64 ∘ tb_maxTimestamp) (js_left p) ∧ Forall (inS 64 ∘ tb_maxTimestamp) (js_right p) ∧
  12 + zlen (side_bytes (js_left p)) + zlen (side_bytes (js_right p)) < 2 ^ 32.

Lemma JoinSnapshot_bytes p :
  join_state_ok p →
  JoinSnapshot p = be_encode 4 joinSnapshotVersion ++ be_encode 8 (uint64 (js_streamTime p)) ++ side_bytes (js_left p) ++ side_bytes (js_right p).
Proof.
  intros (_ & _ & _ & Hl). unfold JoinSnapshot.
  assert (∀ l, zlen (concat (map timed_bytes l)) ≤ zlen (side_bytes l)) as Hs.
  { intros l. unfold side_bytes. rewrite zlen_app. pose proof (zlen_nonneg (be_encode 4 (uint32 (zlen l)))). lia. }
  pose proof (Hs (js_left p)). pose proof (Hs (js_right p)).
  pose proof (zlen_nonneg (side_bytes (js_left p))). pose proof (zlen_nonneg (side_bytes (js_right p))).
  rewrite !appendTimedBatches_bytes by lia. by rewrite <- !(assoc_L (++)).
Qed.
End Snapshots.

(** What a join snapshots, a join restores, whatever it held: the stream time, the stored batches of both sides
    in their order, and nothing else. A snapshot with more bytes behind it, or with another version, is refused, and then the
    processor keeps its state. *)
Theorem join_snapshot_roundtrip {E} p old rest version tail :
  join_state_ok p → inU 32 version → version ≠ joinSnapshotVersion → zlen rest + zlen (JoinSnapshot p) < 2 ^ 32 →
  @JoinRestore E (JoinSnapshot p ++ rest) old = match rest with [] => (Ok tt, p) | _ => (Err TrailingJoinBytes, old) end ∧
  @JoinRestore E (be_encode 4 version ++ tail) old = (Err UnsupportedJoinSnapshot, old).
Proof.
  intros Hp Hv Hne Hr. split.
  - rewrite JoinSnapshot_bytes in * by done. destruct Hp as (Ht & Hl & Hrt & Hlen). rewrite <- !(assoc_L (++)). unfold JoinRestore.
    rewrite !zlen_app in Hr. pose proof (zlen_nonneg (side_bytes (js_left p))). pose proof (zlen_nonneg (side_bytes (js_right p))).
    pose proof (zlen_nonneg rest). pose proof (zlen_nonneg (be_encode 4 joinSnapshotVersion)).
    pose proof (zlen_nonneg (be_encode 8 (uint64 (js_streamTime p)))).
    rewrite (codec_dec (enc := be_encode 4) (dec := valueReader_uint32) (P := inU 32)) by by_decide. cbn [Z.eqb].
    rewrite Z.eqb_refl.
    rewrite (rseq_dec (be_encode 8) valueReader_uint64 (inU 64)) by (apply wrapU_range; lia). unfold rseq.
    rewrite readTimedBatches_dec by (done || rewrite !zlen_app; lia). rewrite readTimedBatches_dec by (done || rewrite !zlen_app; lia).
    unfold rret. rewrite wrapS_wrapU, wrapS_id by done. by destruct p, rest.
  - unfold JoinRestore. rewrite (codec_dec (enc := be_encode 4) (dec := valueReader_uint32) (P := inU 32)) by done.
    by destruct (Z.eqb_spec version joinSnapshotVersion).
Qed.

(** ** A concrete join

    Frames of a key and an event time that fit in a byte, with an encoding of them. *)

#[local] Existing Instance demo_lib.

Definition join_fields : list field := [MkField (str "k") (TInt I32) true []; MkField TimestampColumn (TInt I64) true []].

Definition join_frame (keys times : list Z) : frame :=
  MkFrame join_fields [MkColumn (TInt I32) (map CInt keys); MkColumn (TInt I64) (map CInt times)] (length keys).

Definition small_int (c : cell) : result unit byte :=
  match c with CInt n => if decide (0 ≤ n < 256) then Ok (z2b n) else Err tt | _ => Err tt end.

Definition join_serialize (f : frame) : result unit bytes :=
  match f with
  | MkFrame [MkField n1 (TInt I32) true []; MkField n2 (TInt I64) true []] [MkColumn (TInt I32) keys; MkColumn (TInt I64) times] n =>
      if decide (n1 = str "k" ∧ n2 = TimestampColumn ∧ n = length keys ∧ n = length times) then
        map_results small_int (keys ++ times)
      else Err tt
  | _ => Err tt
  end.

Definition join_deserialize (bs : bytes) : result unit frame :=
  let n := (length bs / 2)%nat in Ok (join_frame (map b2z (take n bs)) (map b2z (drop n bs))).

Lemma small_ints cells bs : Forall2 (λ c b, small_int c = Ok b) cells bs → cells = map CInt (map b2z bs).
Proof.
  induction 1 as [|c b cells bs Hc _ IH]; [done|]. cbn. f_equal; [|done]. destruct c; try done. cbn in Hc.
  destruct (decide (0 ≤ n < 256)); [|done]. injection Hc as <-. rewrite b2z_z2b. f_equal. symmetry. apply Z.mod_small. lia.
Qed.

Lemma join_ipc f bs : join_serialize f = Ok bs → join_deserialize bs = Ok f.
Proof.
  unfold join_serialize. intros H. repeat (case_match; try discriminate H). destruct a as (-> & -> & -> & Hl). subst.
  apply map_results_inv, Forall2_app_inv_l in H as (ks & ts & Hk & Ht & ->).
  pose proof (Forall2_length _ _ _ Hk). pose proof (Forall2_length _ _ _ Ht).
  unfold join_deserialize. rewrite length_app. replace ((length ks + length ts) / 2)%nat with (length ks).
  2: { replace (length ks + length ts)%nat with (length ks * 2)%nat by lia. by rewrite Nat.div_mul. }
  rewrite take_app_length, drop_app_length. unfold join_frame. rewrite <- (small_ints _ _ Hk), <- (small_ints _ _ Ht).
  rewrite length_map. repeat f_equal. lia.
Qed.

Definition demo_join : Join := MkJoin (str "k") (str "k") (5 * Millisecond) (str "l_") (str "r_").
Definition demo_rounds : list (list frame * list frame) :=
  [([join_frame [1; 2] [10; 12]], [join_frame [2] [14]]); ([join_frame [2] [18]], []); ([], [join_frame [2; 1] [23; 20]])].
Definition demo_join_run : result (join_error unit) (list (list frame)) * statefulJoinProcessor :=
  run_rounds join_serialize join_deserialize 0 demo_join demo_rounds newStatefulJoinProcessor.
Definition demo_joined : list (list frame) := match demo_join_run.1 with Ok outputs => outputs | Err _ => [] end.

(** The second round joins the stored right batch; the third one the left batch of the second round, because that of the
    first is out of the window. *)
Lemma join_exact_witness :
  map (map fr_NumRows) demo_joined = [[1%nat]; [1%nat]; [1%nat]] ∧ length (js_left demo_join_run.2) = 1%nat ∧
  ∃ os, Forall2 (λ pair o, @matches demo_lib unit 0 demo_join pair.1 pair.2 = Ok o)
    [(join_frame [1; 2] [10; 12], join_frame [2] [14]); (join_frame [2] [18], join_frame [2] [14]);
     (join_frame [2] [18], join_frame [2; 1] [23; 20])] os ∧ concat demo_joined = concat (map option_list os).
Proof.
  split; [vm_compute; reflexivity|]. split; [vm_compute; reflexivity|].
  apply (join_exact join_serialize join_deserialize 0 demo_join demo_rounds demo_joined demo_join_run.2 join_ipc).
  - split; by_decide.
  - repeat constructor; by_decide.
  - vm_compute. reflexivity.
Defined.

Definition demo_left : frame := join_frame [1; 2; 2] [10; 12; 3].
Definition demo_right : frame := join_frame [2; 1] [14; 30].

Lemma join_matches_witness :
  ∃ pairs joined, (0%nat, 0%nat) ∉ pairs ∧ (1%nat, 0%nat) ∈ pairs ∧ (2%nat, 0%nat) ∉ pairs ∧ (0%nat, 1%nat) ∉ pairs ∧
    joinRows demo_left demo_right pairs (str "l_") (str "r_") = Ok joined.
Proof.
  assert (∃ o, @matches demo_lib unit 0 demo_join demo_left demo_right = Ok (Some o)) as [o Ho] by (eexists; vm_compute; reflexivity).
  destruct (@join_matches demo_lib unit 0 demo_join demo_left demo_right (Some o)) as (lk & rk & lt & rt & pairs & H1 & H2 & H3 & H4 & Hp & [_ Hj] & _).
  - split; by_decide.
  - intros c [= <-] row Hr. do 3 (destruct row as [|row]; [eexists; split; [reflexivity|by_decide]|]). cbn in Hr. lia.
  - intros c [= <-] row Hr. do 2 (destruct row as [|row]; [eexists; split; [reflexivity|by_decide]|]). cbn in Hr. lia.
  - exact Ho.
  - injection H1 as <-. injection H2 as <-. injection H3 as <-. injection H4 as <-. exists pairs, o. rewrite !Hp.
    split; [|split; [|split; [|split; [|exact Hj]]]]; vm_compute; intuition (discriminate || lia).
Defined.

Definition demo_join_state : statefulJoinProcessor := MkJoinState [MkTimed 18 (str "left")] [MkTimed 23 (str "r"); MkTimed (-4) []] 24.

Lemma join_snapshot_roundtrip_witness :
  @JoinRestore unit (JoinSnapshot demo_join_state) newStatefulJoinProcessor = (Ok tt, demo_join_state).
Proof.
  rewrite <- (app_nil_r (JoinSnapshot demo_join_state)).
  apply (join_snapshot_roundtrip demo_join_state newStatefulJoinProcessor [] 2 []); [|by_decide|by_decide|by_decide].
  split; [by_decide|]. split; [repeat constructor; by_decide|]. split; [repeat constructor; by_decide|by_decide].
Defined.

(** The event time of a null row is whatever its slot holds: a row with no event time joins as if it had one. *)
Lemma null_event_time_joins :
  let untimed := MkFrame join_fields [MkColumn (TInt I32) [CInt 1]; MkColumn (TInt I64) [CNull]] 1 in
  match @matches demo_lib unit 0 demo_join untimed (join_frame [1] [2]) with Ok (Some joined) => fr_NumRows joined = 1%nat | _ => False end.
Proof. vm_compute. reflexivity. Qed.
