(* ===== verification/JsonBridge.v ===== *)
(** * The JSON row bridge of columnar/jsonbridge.go

    Rows that travel through JSON into columns and back: the inference of a schema, the fields of a JSON Schema, and the two
    conversions of a value. A document is its syntax tree; its lexer and printer, the float text of [strconv], and the
    JSON codec of the row type are parameters. *)

From S2P Require Import Prelude GoStd GoNet GoFloat Json Value Cells Frames.

#[local] Open Scope Z_scope.

Definition jsonMetadata : bytes := str "krabka.json".
Definition binaryMetadata : bytes := str "krabka.binary".

(** The text of a document, the document of a text, the first document of a text as a [Decoder] reads it, and the shortest text of a
    float: [None] for one that is not finite. *)
Class JsonText := {
  raw_text : json → bytes;
  json_parse : bytes → option json;
  json_first : bytes → option json;
  ParseFloat : bytes → option Z;
  FormatFloat64 : Z → option bytes;
  FormatFloat32 : Z → option bytes
}.

Inductive bridge_error (E : Type) :=
| MarshalRow (e : E)
| UnmarshalRow (row : nat) (e : E)
| RequiredNull (name : bytes)
| NotJSONType (name : bytes)
| NotBase64 (name : bytes)
| WriteField (name : bytes) (e : cell_error)
| ReadField (name : bytes)
| NoScalarColumn
| InvalidJSONSchema
| NoProperties
| InvalidProperty (name : bytes)
| UnresolvedReference (reference : bytes).
Arguments MarshalRow {E}.
Arguments UnmarshalRow {E}.
Arguments RequiredNull {E}.
Arguments NotJSONType {E}.
Arguments NotBase64 {E}.
Arguments WriteField {E}.
Arguments ReadField {E}.
Arguments NoScalarColumn {E}.
Arguments InvalidJSONSchema {E}.
Arguments NoProperties {E}.
Arguments InvalidProperty {E}.
Arguments UnresolvedReference {E}.

(** The kinds of row type that [isScalarType] tells apart. *)
Inductive go_type := GoPointer (elem : go_type) | GoString | GoBool | GoInteger | GoFloat | GoSlice | GoArray | GoOther.

Fixpoint isScalarType (t : go_type) : bool :=
  match t with
  | GoPointer elem => isScalarType elem
  | GoString | GoBool | GoInteger | GoFloat | GoSlice | GoArray => true
  | GoOther => false
  end.

(** The keys of an object in the order of their first appearance, and the last value of each. *)
Record rawObject := MkRaw { ro_keys : list bytes; ro_values : gmap bytes json }.

Definition add_key (order : list bytes) (key : bytes) : list bytes := if decide (key ∈ order) then order else order ++ [key].

Definition orderedJSONObject (document : json) : option rawObject :=
  match document with
  | JObject members =>
      Some (MkRaw (foldl add_key [] (map fst members)) (foldl (λ values m, <[m.1 := m.2]> values) ∅ members))
  | _ => None
  end.

Inductive json_kind := KindNull | KindString | KindObject | KindArray | KindBool | KindFloat | KindInt.

#[global] Instance json_kind_eq_dec : EqDecision json_kind.
Proof. solve_decision. Defined.

Definition jsonKind (value : json) : json_kind :=
  match value with
  | JNull => KindNull
  | JString _ => KindString
  | JObject _ => KindObject
  | JArray _ => KindArray
  | JBool _ => KindBool
  | JNumber literal => if existsb (λ b, bool_decide (b ∈ str ".eE")) literal then KindFloat else KindInt
  end.

Definition json_tag : list (bytes * bytes) := [(jsonMetadata, str "true")].
Definition binary_tag : list (bytes * bytes) := [(binaryMetadata, str "true")].

Definition field_of_kind (name : bytes) (kind : json_kind) : field :=
  match kind with
  | KindInt => MkField name (TInt I64) true []
  | KindFloat => MkField name TFloat64 true []
  | KindBool => MkField name TBoolean true []
  | KindObject | KindArray => MkField name TString true json_tag
  | KindNull | KindString => MkField name TString true []
  end.

(** The kind of the first sample that is not null. *)
Fixpoint first_kind (samples : list json) : json_kind :=
  match samples with
  | [] => KindNull
  | sample :: samples => if decide (jsonKind sample = KindNull) then first_kind samples else jsonKind sample
  end.

Definition inferredField (name : bytes) (samples : list json) : field := field_of_kind name (first_kind samples).

(** [FindKey] and [Values]: the first entry of the key. *)
Fixpoint metadata_value (metadata : list (bytes * bytes)) (key : bytes) : bytes :=
  match metadata with
  | [] => []
  | (k, v) :: metadata => if decide (k = key) then v else metadata_value metadata key
  end.
Definition fieldMetadataValue (f : field) (key : bytes) : bytes := metadata_value (field_Metadata f) key.

Definition tagged (f : field) (key : bytes) : bool := bool_decide (fieldMetadataValue f key = str "true").

Section Bridge.
Context {L : ArrowLib} {J : JsonText} {T E : Type}.
Context (Marshal : T → result E json) (Unmarshal : json → result E T) (scalar : bool).

(** ** Rows to columns *)

Definition converted (value : json) (f : field) : result (bridge_error E) Value.value :=
  if tagged f jsonMetadata then Ok (VString (raw_text value))
  else if tagged f binaryMetadata then
    match value with
    | JString text => match base64_DecodeString text with Some data => Ok (VBytes data) | None => Err (NotBase64 (field_Name f)) end
    | _ => Err (NotJSONType (field_Name f))
    end
  else match jsonKind value, value with
       | KindInt, JNumber literal =>
           match ParseInt literal 64 with Some n => Ok (VInt KInt64 n) | None => Err (NotJSONType (field_Name f)) end
       | KindFloat, JNumber literal =>
           match ParseFloat literal with Some bits => Ok (VFloat64 bits) | None => Err (NotJSONType (field_Name f)) end
       | _, JBool b => Ok (VBool b)
       | _, JString text => Ok (VString text)
       | _, _ => Ok (VString (raw_text value))
       end.

Definition writeJSONValue (f : field) (value : option json) : result (bridge_error E) cell :=
  match value with
  | None | Some JNull => if field_Nullable f then Ok CNull else Err (RequiredNull (field_Name f))
  | Some value =>
      let* v := converted value f in
      rmap_err (WriteField (field_Name f)) (appendGoValue (field_Type f) v)
  end.

Definition value_object (document : json) : rawObject := MkRaw [str "value"] {[str "value" := document]}.

Definition objectFor (row : T) : result (bridge_error E) rawObject :=
  let* encoded := rmap_err MarshalRow (Marshal row) in
  Ok (if scalar then value_object encoded else default (value_object encoded) (orderedJSONObject encoded)).

(** The columns in the order of their first appearance, each with its values in the order of the rows. *)
Definition inferred_fields (objects : list rawObject) : list field :=
  map (λ name, inferredField name (omap (λ object, ro_values object !! name) objects))
    (foldl add_key [] (concat (map ro_keys objects))).

Definition write_column (objects : list rawObject) (f : field) : result (bridge_error E) column :=
  let* cells := map_results (λ object, writeJSONValue f (ro_values object !! field_Name f)) objects in
  Ok (MkColumn (field_Type f) cells).

(** [RowsToBatch] over the fields that the bridge holds: what it infers from the first rows, it keeps, also when the batch fails. A
    record without columns has no rows. *)
Definition RowsToBatch (rows : list T) : io (option (list field)) (bridge_error E) frame := λ held,
  match map_results objectFor rows with
  | Err e => (Err e, held)
  | Ok objects =>
      let fields := default (inferred_fields objects) held in
      let held := if decide (rows = []) then held else Some fields in
      ((let* columns := map_results (write_column objects) fields in
        Ok (MkFrame fields columns (if decide (fields = []) then 0%nat else length objects))), held)
  end.

(** ** Columns to rows *)

Definition marshal_text (s : bytes) : json := JString (coerce_utf8 s).

Definition readJSONValue (c : column) (f : field) (row : nat) : result (bridge_error E) json :=
  match cell_at c row with
  | CNull => Ok JNull
  | x =>
      let v := arrowValue (col_Type c) x in
      if tagged f jsonMetadata then
        match v with
        | VString text => match json_parse text with Some j => Ok j | None => Err (ReadField (field_Name f)) end
        | _ => Err (ReadField (field_Name f))
        end
      else if tagged f binaryMetadata then
        match v with
        | VBytes data => Ok (JString (base64_StdEncoding data))
        | _ => Err (ReadField (field_Name f))
        end
      else match v with
           | VBool b => Ok (JBool b)
           | VInt _ n => Ok (JNumber (FormatInt n))
           | VFloat64 bits => match FormatFloat64 bits with Some s => Ok (JNumber s) | None => Err (ReadField (field_Name f)) end
           | VFloat32 bits => match FormatFloat32 bits with Some s => Ok (JNumber s) | None => Err (ReadField (field_Name f)) end
           | _ => Ok (marshal_text (stringify v))
           end
  end.

Definition read_member (batch : frame) (row : nat) (fc : field * column) : result (bridge_error E) (bytes * json) :=
  let* value := readJSONValue fc.2 fc.1 row in Ok (coerce_utf8 (field_Name fc.1), value).

Definition row_document (batch : frame) (row : nat) : result (bridge_error E) json :=
  if scalar then
    match fr_Columns batch, fr_Fields batch with
    | c :: _, f :: _ => readJSONValue c f row
    | _, _ => Err NoScalarColumn
    end
  else
    let* members := map_results (read_member batch row) (zip (fr_Fields batch) (fr_Columns batch)) in
    Ok (JObject members).

Definition BatchToRows (batch : frame) : result (bridge_error E) (list T) :=
  map_results (λ row, let* document := row_document batch row in rmap_err (UnmarshalRow row) (Unmarshal document))
    (seq 0 (fr_NumRows batch)).

(** ** Fields of a JSON Schema *)

(** [strings.SplitSeq] at a slash. *)
Fixpoint split_slash (s : bytes) : list bytes :=
  match s with
  | [] => [[]]
  | b :: s =>
      if decide (b = ascii_byte "/") then [] :: split_slash s
      else match split_slash s with [] => [[b]] | step :: steps => (b :: step) :: steps end
  end.

(** [json.Unmarshal] into a nil slice of strings. *)
Definition into_texts (value : json) : option (list bytes) :=
  items ← into_items (Some value); mapM (λ item, into_text (Some item) []) items.

Fixpoint follow (reference : bytes) (steps : list bytes) (node : rawObject) : result (bridge_error E) rawObject :=
  match steps with
  | [] => Ok node
  | step :: steps =>
      match ro_values node !! step ≫= orderedJSONObject with
      | Some node => follow reference steps node
      | None => Err (UnresolvedReference reference)
      end
  end.

Definition resolveJSONSchemaRef (declaration root : rawObject) : result (bridge_error E) rawObject :=
  match ro_values declaration !! str "$ref" with
  | None => Ok declaration
  | Some raw =>
      match into_text (Some raw) [] with
      | Some reference =>
          if HasPrefix reference (str "#/") then follow reference (split_slash (TrimPrefix reference (str "#/"))) root
          else Ok declaration
      | None => Ok declaration
      end
  end.

(** The type name, and whether the types include null. *)
Definition declared_type (resolved : rawObject) (nullable : bool) : bytes * bool :=
  match ro_values resolved !! str "type" with
  | None => ([], nullable)
  | Some raw =>
      match into_text (Some raw) [] with
      | Some text => (text, nullable)
      | None =>
          match into_texts raw with
          | Some candidates =>
              foldl (λ acc candidate,
                if decide (candidate = str "null") then (acc.1, true)
                else if decide (acc.1 = []) then (candidate, acc.2) else acc) ([], nullable) candidates
          | None => ([], nullable)
          end
      end
  end.

Definition content_encoding (resolved : rawObject) : bytes :=
  default [] (ro_values resolved !! str "contentEncoding" ≫= λ raw, into_text (Some raw) []).

Definition jsonSchemaField (name : bytes) (declaration : rawObject) (nullable : bool) (root : rawObject)
    : result (bridge_error E) field :=
  let* resolved := resolveJSONSchemaRef declaration root in
  let typed := declared_type resolved nullable in
  let make t metadata := Ok (MkField name t typed.2 metadata) in
  if decide (typed.1 = str "integer") then make (TInt I64) []
  else if decide (typed.1 = str "number") then make TFloat64 []
  else if decide (typed.1 = str "boolean") then make TBoolean []
  else if decide (typed.1 = str "object" ∨ typed.1 = str "array") then make TString json_tag
  else if decide (content_encoding resolved = str "base64") then make TBinary binary_tag
  else make TString [].

Definition required_names (root : rawObject) : list bytes := default [] (ro_values root !! str "required" ≫= into_texts).

Definition jsonSchemaFields (root : rawObject) : result (bridge_error E) (list field) :=
  if scalar then let* f := jsonSchemaField (str "value") root false root in Ok [f]
  else
    match ro_values root !! str "properties" ≫= orderedJSONObject with
    | None => Err NoProperties
    | Some properties =>
        map_results (λ name,
          match ro_values properties !! name ≫= orderedJSONObject with
          | Some declaration => jsonSchemaField name declaration (negb (bool_decide (name ∈ required_names root))) root
          | None => Err (InvalidProperty name)
          end) (ro_keys properties)
    end.

(** The state of a new bridge: no fields yet, those of a schema, or those of a JSON Schema. *)
Definition NewJSONRowBridge : option (list field) := None.
Definition NewJSONRowBridgeWithSchema (fields : list field) : option (list field) := Some fields.
Definition JSONRowBridgeFromJSONSchema (jsonSchema : bytes) : result (bridge_error E) (option (list field)) :=
  match json_first jsonSchema ≫= orderedJSONObject with
  | None => Err InvalidJSONSchema
  | Some root => let* fields := jsonSchemaFields root in Ok (Some fields)
  end.
End Bridge.

(** ** Values that fit a column *)

Lemma jsonKind_int n : jsonKind (JNumber (FormatInt n)) = KindInt.
Proof.
  cbn. replace (existsb _ (FormatInt n)) with false; [done|]. symmetry. apply not_true_is_false. rewrite existsb_exists.
  intros (b & Hb%list_elem_of_In & Hin%bool_decide_eq_true). pose proof (FormatInt_bytes n) as Hf. rewrite Forall_forall in Hf.
  destruct (Hf b Hb) as [Hd| ->].
  - assert (Forall (λ b, in_range b 48 57 = false) (str ".eE")) as Hn by by_decide. rewrite Forall_forall in Hn. specialize (Hn b Hin). congruence.
  - revert Hin. by_decide.
Qed.

Section Fits.
Context {L : ArrowLib} {J : JsonText} {T E : Type}.

(** A value that a column of the field keeps as it is: any document in a JSON column, base64 text in a binary one, and
    otherwise a scalar of the type of the column, with numbers in their shortest form. *)
Definition fits (f : field) (v : json) : Prop :=
  if tagged f jsonMetadata then field_Type f = TString ∧ v ≠ JNull
  else if tagged f binaryMetadata then field_Type f = TBinary ∧ ∃ data, v = JString (base64_StdEncoding data)
  else match field_Type f with
       | TInt I64 => ∃ n, inS 64 n ∧ v = JNumber (FormatInt n)
       | TFloat64 => ∃ literal bits, v = JNumber literal ∧ jsonKind v = KindFloat ∧ ParseFloat literal = Some bits ∧
                     FormatFloat64 bits = Some literal
       | TBoolean => ∃ b, v = JBool b
       | TString => ∃ s, v = JString s ∧ utf8_valid s = true
       | _ => False
       end.

Lemma fits_written f v :
  (∀ j, json_parse (raw_text j) = Some j) → fits f v →
  ∃ c, @writeJSONValue L J E f (Some v) = Ok c ∧
    ∀ col row, col_Type col = field_Type f → cell_at col row = c → @readJSONValue L J E col f row = Ok v.
Proof.
  intros Hparse. unfold fits, writeJSONValue, readJSONValue, converted. destruct (tagged f jsonMetadata).
  { intros [Ht Hv]. exists (CText (raw_text v)). rewrite Ht. split; [by destruct v|]. intros col row Hc ->. rewrite Hc. cbn. by rewrite Hparse. }
  destruct (tagged f binaryMetadata).
  { intros [Ht [data ->]]. exists (CBin data). rewrite Ht, base64_roundtrip. split; [done|]. intros col row Hc ->. by rewrite Hc. }
  destruct (field_Type f) as [| | | | |kind| | | | | | | | | | | | | | | | | |] eqn:Ht; try done; [|destruct kind; try done|..].
  - intros (s & -> & Hs). exists (CText s). split; [done|]. intros col row Hc ->. rewrite Hc. unfold marshal_text. cbn. by rewrite coerce_utf8_valid.
  - intros (n & Hn & ->). rewrite jsonKind_int, ParseInt_FormatInt_signed by done. exists (CInt n). split.
    + pose proof (int_cell_copies I64 n Hn) as Hc. cbn [kind_of] in Hc. cbn [rbind appendGoValue]. by rewrite Hc.
    + intros col row Hc ->. by rewrite Hc.
  - intros (literal & bits & -> & Hk & Hp & Hf). rewrite Hk, Hp. exists (CFloat bits). split; [done|]. intros col row Hc ->. rewrite Hc. cbn. by rewrite Hf.
  - intros (b & ->). exists (CBool b). split; [done|]. intros col row Hc ->. by rewrite Hc.
Qed.

Lemma null_written f v :
  field_Nullable f = true → v = None ∨ v = Some JNull →
  @writeJSONValue L J E f v = Ok CNull ∧ ∀ col row, cell_at col row = CNull → @readJSONValue L J E col f row = Ok JNull.
Proof. intros Hf [->| ->]; cbn; rewrite Hf; (split; [done|]); intros col row H; unfold readJSONValue; by rewrite H. Qed.
End Fits.

(** ** From rows to a batch and back *)

Lemma member_app ms ms' name : member (ms ++ ms') name = match member ms' name with Some v => Some v | None => member ms name end.
Proof. induction ms as [|[k v] ms IH]; cbn; [by destruct (member ms' name)|]. rewrite IH. by destruct (member ms' name). Qed.

Lemma values_member ms o name : orderedJSONObject (JObject ms) = Some o → ro_values o !! name = member ms name.
Proof.
  intros [= <-]. cbn [ro_values]. induction ms as [|[k v] ms IH] using rev_ind; [done|].
  rewrite foldl_app, member_app. cbn [foldl member fst snd]. destruct (decide (k = name)) as [->|Hne].
  - by rewrite lookup_insert_eq.
  - by rewrite lookup_insert_ne, IH.
Qed.

Lemma elem_of_keys keys order name : name ∈ foldl add_key order keys ↔ name ∈ order ∨ name ∈ keys.
Proof.
  revert order. induction keys as [|k keys IH]; intros order; cbn [foldl]; [set_solver|]. rewrite IH. unfold add_key.
  destruct (decide (k ∈ order)); set_solver.
Qed.

Lemma member_of_fields {A} (key : A → bytes) (g : bytes → json) (l : list A) name :
  member (map (λ a, (key a, g (key a))) l) name = if decide (name ∈ map key l) then Some (g name) else None.
Proof.
  induction l as [|a l IH]; cbn [map member]; [done|]. rewrite IH. destruct (decide (name ∈ map key l)) as [Hin|Hin].
  - rewrite decide_True; [done|by apply elem_of_cons; right].
  - destruct (decide (key a = name)) as [->|Hne].
    + rewrite decide_True; [done|apply list_elem_of_here].
    + rewrite decide_False; [done|by intros [?|?]%elem_of_cons].
Qed.

(** A member that is null counts as missing. *)
Definition filled (v : option json) : option json := match v with Some JNull => None | _ => v end.

Section Roundtrip.
Context {L : ArrowLib} {J : JsonText} {T E : Type}.
Context (Marshal : T → result E json) (Unmarshal : json → result E T) (scalar : bool).

(** The JSON of the row type, as [encoding/json] decodes a struct: the order of the members does not matter, and a null member
    is one that is missing. A scalar decodes from its own document. *)
Class RowJSON : Prop := {
  parse_raw j : json_parse (raw_text j) = Some j;
  unmarshal_object row ms ms' : Marshal row = Ok (JObject ms) →
    (∀ name, filled (member ms' name) = filled (member ms name)) → Unmarshal (JObject ms') = Ok row;
  unmarshal_scalar row v : Marshal row = Ok v → scalar = true → Unmarshal v = Ok row
}.
Context {HJ : RowJSON}.

Definition fillable (f : field) (v : option json) : Prop :=
  match filled v with None => field_Nullable f = true | Some v => fits f v end.

Definition object_fits (fields : list field) (o : rawObject) : Prop :=
  Forall (λ f, fillable f (ro_values o !! field_Name f)) fields ∧
  ∀ name v, filled (ro_values o !! name) = Some v → name ∈ map field_Name fields.

(** The fields that a bridge works with, and the rows that they fit. *)
Definition bridge_fields (held : option (list field)) (rows : list T) : list field :=
  default (inferred_fields match map_results (@objectFor T E Marshal scalar) rows with Ok objects => objects | Err _ => [] end) held.

Definition row_fits (fields : list field) (row : T) : Prop :=
  ∃ o, @objectFor T E Marshal scalar row = Ok o ∧ object_fits fields o ∧
    if scalar then ∃ f, fields = [f] ∧ field_Name f = str "value"
    else fields ≠ [] ∧ Forall (λ f, utf8_valid (field_Name f) = true) fields ∧ ∃ ms, Marshal row = Ok (JObject ms).

Lemma value_written f v : fillable f v →
  ∃ c, @writeJSONValue L J E f v = Ok c ∧
    ∀ col row, col_Type col = field_Type f → cell_at col row = c → @readJSONValue L J E col f row = Ok (default JNull v).
Proof.
  unfold fillable. destruct (filled v) as [v'|] eqn:Hv; intros H.
  - assert (v = Some v') as -> by (destruct v as [[]|]; cbn in Hv; congruence). apply fits_written; [apply parse_raw|done].
  - assert (v = None ∨ v = Some JNull) as Hn by (destruct v as [[]|]; cbn in Hv; try discriminate Hv; auto).
    destruct (null_written (E := E) f v H Hn) as [Hw Hr]. exists CNull. split; [done|]. intros col row _ Hc. rewrite (Hr _ _ Hc). by destruct Hn as [-> | ->].
Qed.

Lemma results_exist {A B Er} (g : A → result Er B) l : (∀ a, a ∈ l → ∃ b, g a = Ok b) → ∃ bs, map_results g l = Ok bs.
Proof.
  induction l as [|a l IH]; intros H; [by exists []|]. destruct (H a ltac:(apply list_elem_of_here)) as [b Hb].
  destruct IH as [bs Hbs]; [intros x Hx; by apply H, list_elem_of_further|]. exists (b :: bs). cbn. by rewrite Hb, Hbs.
Qed.

Lemma write_column_exists objects f :
  (∀ o, o ∈ objects → fillable f (ro_values o !! field_Name f)) →
  ∃ c, @write_column L J E objects f = Ok c ∧ ∀ i o, objects !! i = Some o →
    @readJSONValue L J E c f i = Ok (default JNull (ro_values o !! field_Name f)).
Proof.
  intros Ho. destruct (results_exist (λ o, @writeJSONValue L J E f (ro_values o !! field_Name f)) objects) as [cells Hc].
  { intros o Hin. destruct (value_written f _ (Ho o Hin)) as (c & Hw & _). by exists c. }
  exists (MkColumn (field_Type f) cells). unfold write_column. rewrite Hc. split; [done|]. intros i o Hi.
  apply map_results_inv in Hc. destruct (Forall2_lookup_l _ _ _ _ _ Hc Hi) as (c & Hci & Hw).
  destruct (value_written f _ (Ho o (list_elem_of_lookup_2 _ _ _ Hi))) as (c' & Hw' & Hr). rewrite Hw in Hw'. injection Hw' as <-.
  apply Hr; [done|]. unfold cell_at. cbn. by rewrite Hci.
Qed.

Lemma columns_exist objects fields :
  (∀ o, o ∈ objects → object_fits fields o) →
  ∃ columns, map_results (@write_column L J E objects) fields = Ok columns ∧
    Forall2 (λ f c, ∀ i o, objects !! i = Some o → @readJSONValue L J E c f i = Ok (default JNull (ro_values o !! field_Name f))) fields columns.
Proof.
  intros Ho. assert (∀ f, f ∈ fields → ∀ o, o ∈ objects → fillable f (ro_values o !! field_Name f)) as Hf.
  { intros f Hf o Hin. destruct (Ho o Hin) as [Hall _]. by apply (proj1 (Forall_forall _ _) Hall). }
  clear Ho. induction fields as [|f fields IH]; [by exists []|].
  destruct (write_column_exists objects f) as (c & Hc & Hr); [apply Hf, list_elem_of_here|].
  destruct IH as (columns & Hcs & Hrs); [intros g Hg; by apply Hf, list_elem_of_further|].
  exists (c :: columns). cbn [map_results]. rewrite Hc, Hcs. split; [done|by constructor].
Qed.

Lemma read_members batch row fields columns (values : bytes → option json) :
  Forall (λ f, utf8_valid (field_Name f) = true) fields →
  Forall2 (λ f c, @readJSONValue L J E c f row = Ok (default JNull (values (field_Name f)))) fields columns →
  map_results (@read_member L J E batch row) (zip fields columns) =
    Ok (map (λ f, (field_Name f, default JNull (values (field_Name f)))) fields).
Proof.
  intros Hv H. apply map_results_ok. induction H as [|f c fields columns Hr _ IH]; [constructor|].
  apply Forall_cons in Hv as [Hf Hv]. cbn [zip zip_with map]. constructor; [|by apply IH].
  unfold read_member. cbn [fst snd]. rewrite Hr. cbn [rbind]. by rewrite coerce_utf8_valid.
Qed.

Lemma document_read batch fields columns i row :
  fr_Fields batch = fields → fr_Columns batch = columns → row_fits fields row →
  (∀ o, @objectFor T E Marshal scalar row = Ok o →
     Forall2 (λ f c, @readJSONValue L J E c f i = Ok (default JNull (ro_values o !! field_Name f))) fields columns) →
  ∃ document, @row_document L J E scalar batch i = Ok document ∧ Unmarshal document = Ok row.
Proof.
  intros Hf Hc (o & Ho & [_ Hcover] & Hk) Hr. specialize (Hr o Ho). unfold row_document. rewrite Hf, Hc. unfold objectFor in Ho.
  destruct (Marshal row) as [v|e] eqn:Hm; [|done]. cbn [rmap_err rbind] in Ho. destruct scalar eqn:Hs; injection Ho as <-.
  - destruct Hk as (f & -> & Hn). inversion Hr as [|? c ? ? Hread Hnil]; subst. inversion Hnil; subst. exists v.
    cbn [value_object ro_values] in Hread. rewrite Hn, lookup_singleton_eq in Hread. split; [done|]. by apply unmarshal_scalar with (1 := Hm).
  - destruct Hk as (Hne & Hutf & ms & [= ->]). destruct (orderedJSONObject (JObject ms)) as [o|] eqn:Hobj; [|done]. cbn [default] in *. unfold id in *.
    rewrite (read_members batch i fields columns (λ name, ro_values o !! name) Hutf Hr). eexists. split; [done|].
    apply unmarshal_object with (1 := Hm). intros name. rewrite (member_of_fields field_Name (λ name, default JNull (ro_values o !! name))).
    rewrite <- (values_member ms o name Hobj). destruct (decide (name ∈ map field_Name fields)) as [Hin|Hin].
    + by destruct (ro_values o !! name).
    + destruct (filled (ro_values o !! name)) as [v|] eqn:Hv; [|done]. by destruct Hin; eapply Hcover.
Qed.

Lemma rows_roundtrip held rows :
  Forall (row_fits (bridge_fields held rows)) rows →
  ∃ batch, (@RowsToBatch L J T E Marshal scalar rows held).1 = Ok batch ∧ @BatchToRows L J T E Unmarshal scalar batch = Ok rows.
Proof.
  intros Hfit. destruct (results_exist (@objectFor T E Marshal scalar) rows) as [objects Hobj].
  { intros row Hin. destruct (proj1 (Forall_forall _ _) Hfit row Hin) as (o & Ho & _). by exists o. }
  pose proof (map_results_inv _ _ _ Hobj) as Hall. unfold RowsToBatch, bridge_fields in *. rewrite Hobj in *.
  set (fields := default (inferred_fields objects) held) in *.
  assert (∀ o, o ∈ objects → object_fits fields o) as Hof.
  { intros o (i & Hi)%list_elem_of_lookup. destruct (Forall2_lookup_r _ _ _ _ _ Hall Hi) as (row & Hrow & Ho).
    destruct (proj1 (Forall_forall _ _) Hfit row (list_elem_of_lookup_2 _ _ _ Hrow)) as (o' & Ho' & Hfo & _). congruence. }
  destruct (columns_exist objects fields Hof) as (columns & Hc & Hread). cbn [fst]. rewrite Hc. cbn [rbind]. eexists. split; [done|].
  unfold BatchToRows. cbn [fr_NumRows]. pose proof (Forall2_length _ _ _ Hall) as Hlen.
  assert (rows = [] ∨ fields ≠ []) as Hne.
  { destruct rows as [|row rows]; [by left|]. right. apply Forall_cons in Hfit as [(o & _ & _ & Hk) _].
    destruct scalar; [destruct Hk as (f & -> & _); done|by destruct Hk]. }
  assert ((if decide (fields = []) then 0%nat else length objects) = length rows) as ->.
  { destruct Hne as [->|Hne]; [|by rewrite decide_False]. by case_decide. }
  apply map_results_ok, Forall2_lookup. intros i. destruct (rows !! i) as [row|] eqn:Hi.
  2: { apply lookup_ge_None in Hi. rewrite lookup_seq_ge by done. constructor. }
  rewrite lookup_seq_lt by (by apply lookup_lt_Some in Hi). constructor. cbn [Nat.add].
  destruct (document_read (MkFrame fields columns (length rows)) fields columns i row eq_refl eq_refl) as (document & Hd & Hu).
  - by apply (proj1 (Forall_forall _ _) Hfit), (list_elem_of_lookup_2 _ i).
  - intros o Ho. destruct (Forall2_lookup_l _ _ _ _ _ Hall Hi) as (o' & Hoi & Ho'). assert (o' = o) as -> by congruence.
    eapply Forall2_impl; [exact Hread|]. intros f c Hfc. by apply Hfc.
  - unfold row_document in *. cbn [fr_Columns fr_Fields] in *. rewrite Hd. cbn [rbind]. by rewrite Hu.
Qed.

(** ** Inference *)

(** The values of each column are of one kind, and each is written as [encoding/json] writes it. *)
Definition uniform (objects : list rawObject) : Prop :=
  (∀ o name, o ∈ objects → name ∈ ro_keys o → utf8_valid name = true) ∧
  (∀ o name v, o ∈ objects → filled (ro_values o !! name) = Some v → fits (field_of_kind name (jsonKind v)) v) ∧
  (∀ o o' name v v', o ∈ objects → o' ∈ objects → filled (ro_values o !! name) = Some v → filled (ro_values o' !! name) = Some v' →
     field_of_kind name (jsonKind v) = field_of_kind name (jsonKind v')).

Lemma jsonKind_null v : jsonKind v = KindNull ↔ v = JNull.
Proof. destruct v; cbn; try (split; done). case_match; split; done. Qed.

Lemma first_kind_spec samples :
  (first_kind samples = KindNull ∧ ∀ v, v ∈ samples → v = JNull) ∨
  ∃ v, v ∈ samples ∧ v ≠ JNull ∧ first_kind samples = jsonKind v.
Proof.
  induction samples as [|v samples IH]; cbn [first_kind]; [left; split; [done|by intros v ?%elem_of_nil]|].
  destruct (decide (jsonKind v = KindNull)) as [Hv|Hv].
  - apply jsonKind_null in Hv as ->. destruct IH as [[H1 H2]|(w & Hw & H)]; [left; split; [done|]|right; exists w; split; [by apply list_elem_of_further|done]].
    intros w [->|Hw]%elem_of_cons; auto.
  - right. exists v. split; [apply list_elem_of_here|]. split; [|done]. by rewrite <- jsonKind_null.
Qed.

Lemma field_of_kind_name name kind : field_Name (field_of_kind name kind) = name ∧ field_Nullable (field_of_kind name kind) = true.
Proof. by destruct kind. Qed.

Lemma inferred_names objects : map field_Name (inferred_fields objects) = foldl add_key [] (concat (map ro_keys objects)).
Proof.
  unfold inferred_fields. rewrite map_map. rewrite <- (map_id (foldl add_key [] _)) at 2. apply map_ext. intros name. apply field_of_kind_name.
Qed.

(** Every value of an object has its key in the order. *)
Definition keyed (o : rawObject) : Prop := ∀ name, is_Some (ro_values o !! name) → name ∈ ro_keys o.

Lemma objectFor_keyed row o : @objectFor T E Marshal scalar row = Ok o → keyed o.
Proof.
  assert (∀ v, keyed (value_object v)) as Hv.
  { intros v name. cbn. intros [w [<- _]%lookup_singleton_Some]. apply list_elem_of_here. }
  unfold objectFor. destruct (Marshal row) as [v|]; [|done]. cbn [rmap_err rbind]. intros [= <-]. destruct scalar; [done|].
  destruct (orderedJSONObject v) as [o'|] eqn:Ho; [|apply Hv]. destruct v as [| | | | |ms]; try done. cbn [default]. unfold id.
  intros name. rewrite (values_member ms o' name Ho). injection Ho as <-. cbn [ro_keys]. intros Hm. apply elem_of_keys. right.
  destruct (decide (name ∈ map fst ms)) as [|Hn]; [done|]. rewrite member_None in Hm by done. by destruct Hm.
Qed.

Lemma inferred_fit objects o : uniform objects → keyed o → o ∈ objects → object_fits (inferred_fields objects) o.
Proof.
  intros (_ & Hfit & Hsame) Hkeyed Ho. split.
  - apply Forall_forall. intros f (name & <- & Hname)%list_elem_of_In%in_map_iff. unfold inferredField.
    destruct (field_of_kind_name name (first_kind (omap (λ o, ro_values o !! name) objects))) as [Hn Hnull]. rewrite Hn. unfold fillable.
    destruct (filled (ro_values o !! name)) as [v|] eqn:Hv; [|done]. pose proof (Hfit o name v Ho Hv) as Hf.
    assert (ro_values o !! name = Some v ∧ v ≠ JNull) as [Hlook Hne] by (destruct (ro_values o !! name) as [[]|]; cbn in Hv; by simplify_eq).
    destruct (first_kind_spec (omap (λ o, ro_values o !! name) objects)) as [[_ Hall]|(w & Hw & Hwn & ->)].
    + destruct Hne. apply Hall, list_elem_of_omap. by exists o.
    + apply list_elem_of_omap in Hw as (o' & Ho' & Hw). rewrite (Hsame o' o name w v); [done|done|done| |done]. rewrite Hw. by destruct w.
  - intros name v Hv. assert (name ∈ ro_keys o) as Hkey by (apply Hkeyed; destruct (ro_values o !! name); [by eexists|done]).
    rewrite inferred_names. apply elem_of_keys. right.
    apply list_elem_of_In, in_concat. exists (ro_keys o). split; [|by apply list_elem_of_In]. apply in_map. by apply list_elem_of_In.
Qed.

Lemma uniform_rows_fit rows objects :
  scalar = false → map_results (@objectFor T E Marshal scalar) rows = Ok objects → uniform objects →
  (∀ row, row ∈ rows → ∃ m ms, Marshal row = Ok (JObject (m :: ms))) →
  Forall (row_fits (bridge_fields None rows)) rows.
Proof.
  intros Hs Hobj Hu Hm. unfold bridge_fields. rewrite Hobj. cbn [default]. apply Forall_forall. intros row Hrow.
  pose proof (map_results_inv _ _ _ Hobj) as Hall. destruct (proj1 (list_elem_of_lookup _ _) Hrow) as [i Hi].
  destruct (Forall2_lookup_l _ _ _ _ _ Hall Hi) as (o & Hoi & Ho). pose proof (list_elem_of_lookup_2 _ _ _ Hoi) as Hin.
  exists o. split; [done|]. split; [by apply inferred_fit; [|by eapply objectFor_keyed|]|]. rewrite Hs. split; [|split].
  - destruct (Hm row Hrow) as ([k v] & ms & Hrm). intros Hnil. pose proof (inferred_names objects) as Hnames. rewrite Hnil in Hnames.
    assert (k ∈ foldl add_key [] (concat (map ro_keys objects))) as Hk; [|rewrite <- Hnames in Hk; by apply elem_of_nil in Hk].
    apply elem_of_keys. right. apply list_elem_of_In, in_concat. exists (ro_keys o).
    split; [apply in_map; by apply list_elem_of_In|]. apply list_elem_of_In. unfold objectFor in Ho. rewrite Hrm, Hs in Ho. injection Ho as <-.
    cbn [ro_keys]. apply elem_of_keys. left. unfold add_key. destruct (decide (k ∈ [])); set_solver.
  - apply Forall_forall. intros f Hf. assert (field_Name f ∈ map field_Name (inferred_fields objects)) as Hn by (apply list_elem_of_In, in_map; by apply list_elem_of_In).
    rewrite inferred_names in Hn. apply elem_of_keys in Hn as [?%elem_of_nil|Hn]; [done|]. apply list_elem_of_In, in_concat in Hn as (keys & Hkeys & Hn).
    apply in_map_iff in Hkeys as (o' & <- & Ho'). destruct Hu as (Hutf & _). apply (Hutf o'); by apply list_elem_of_In.
  - destruct (Hm row Hrow) as (m & ms & Hrm). by eexists.
Qed.
End Roundtrip.

(** ** Properties *)


(** ** A concrete row type

    A struct of a name, a number and an optional flag; documents travel as the number that enumerates them. *)

#[local] Existing Instance demo_lib.

#[local] Instance demo_text : JsonText := {|
  raw_text j := FormatInt (Zpos (encode j));
  json_parse s := match BigInt_SetString s with Some (Zpos p) => decode p | _ => None end;
  json_first s := None;
  ParseFloat s := if decide (s = str "2.5") then Some (Z.shiftl 1024 52 + 2 ^ 50) else None;
  FormatFloat64 bits := if decide (bits = Z.shiftl 1024 52 + 2 ^ 50) then Some (str "2.5") else None;
  FormatFloat32 bits := None
|}.

Record demo_row := MkRow { row_name : bytes; row_count : Z; row_flag : option bool }.

Definition row_Marshal (row : demo_row) : result unit json :=
  if decide (utf8_valid (row_name row) = true ∧ inS 64 (row_count row)) then
    Ok (JObject [(str "name", JString (row_name row)); (str "count", JNumber (FormatInt (row_count row)));
                 (str "flag", match row_flag row with Some b => JBool b | None => JNull end)])
  else Err tt.

Definition row_Unmarshal (j : json) : result unit demo_row :=
  match j with
  | JObject ms =>
      match filled (member ms (str "name")), filled (member ms (str "count")), filled (member ms (str "flag")) with
      | Some (JString name), Some (JNumber literal), flag =>
          match ParseInt literal 64, flag with
          | Some n, None => Ok (MkRow name n None)
          | Some n, Some (JBool b) => Ok (MkRow name n (Some b))
          | _, _ => Err tt
          end
      | _, _, _ => Err tt
      end
  | _ => Err tt
  end.

Lemma demo_members a b c :
  let ms := [(str "name", a); (str "count", b); (str "flag", c)] in
  member ms (str "name") = Some a ∧ member ms (str "count") = Some b ∧ member ms (str "flag") = Some c.
Proof. split_and!; reflexivity. Qed.

Lemma demo_row_json : RowJSON row_Marshal row_Unmarshal false.
Proof.
  split.
  - intros j. cbn [raw_text json_parse demo_text]. rewrite BigInt_SetString_FormatInt. apply decode_encode.
  - intros row ms ms'. unfold row_Marshal. case_decide as H; [|done]. destruct H as [_ Hn]. intros [= <-] Hm.
    unfold row_Unmarshal. rewrite !Hm. destruct (demo_members (JString (row_name row)) (JNumber (FormatInt (row_count row)))
      (match row_flag row with Some b => JBool b | None => JNull end)) as (-> & -> & ->).
    destruct row as [name count [b|]]; cbn [filled row_name row_count row_flag]; by rewrite ParseInt_FormatInt_signed.
  - done.
Qed.

Definition demo_table : list demo_row := [MkRow (str "a") 7 None; MkRow (str "b") (-12) (Some true); MkRow [] 0 (Some false)].
Definition demo_objects : list rawObject :=
  match map_results (@objectFor demo_row unit row_Marshal false) demo_table with Ok objects => objects | Err _ => [] end.

Lemma demo_object row o name v :
  @objectFor demo_row unit row_Marshal false row = Ok o → filled (ro_values o !! name) = Some v →
  utf8_valid (row_name row) = true ∧ inS 64 (row_count row) ∧
  (name = str "name" ∧ v = JString (row_name row) ∨ name = str "count" ∧ v = JNumber (FormatInt (row_count row)) ∨
   name = str "flag" ∧ ∃ b, v = JBool b).
Proof.
  unfold objectFor, row_Marshal. case_decide as H; [|done]. cbn [rmap_err rbind]. destruct (orderedJSONObject _) as [o'|] eqn:Ho; [|done].
  intros [= <-]. cbn [default]. unfold id. rewrite (values_member _ _ name Ho). cbn [member fst snd]. destruct H as [Hu Hn].
  destruct (decide (str "flag" = name)) as [<-|]; [destruct (row_flag row); [|done]; intros [= <-]; naive_solver|].
  destruct (decide (str "count" = name)) as [<-|]; [intros [= <-]; naive_solver|].
  destruct (decide (str "name" = name)) as [<-|]; [intros [= <-]; naive_solver|done].
Qed.

Lemma demo_uniform rows objects : map_results (@objectFor demo_row unit row_Marshal false) rows = Ok objects → uniform objects.
Proof.
  intros Hall%map_results_inv. assert (∀ o, o ∈ objects → ∃ row, @objectFor demo_row unit row_Marshal false row = Ok o) as Hrow.
  { intros o (i & Hi)%list_elem_of_lookup. destruct (Forall2_lookup_r _ _ _ _ _ Hall Hi) as (row & _ & Ho). by exists row. }
  split; [|split].
  - intros o name (row & Ho)%Hrow Hname. revert Ho. unfold objectFor, row_Marshal. case_decide; [|done]. intros [= <-]. revert Hname.
    cbn [ro_keys orderedJSONObject default map fst]. revert name. apply Forall_forall. by_decide.
  - intros o name v (row & Ho)%Hrow Hv. destruct (demo_object _ _ _ _ Ho Hv) as (Hu & Hn & [[-> ->]|[[-> ->]|[-> [b ->]]]]).
    + exists (row_name row). done.
    + rewrite jsonKind_int. by exists (row_count row).
    + by exists b.
  - intros o o' name v v' (row & Ho)%Hrow (row' & Ho')%Hrow Hv Hv'.
    destruct (demo_object _ _ _ _ Ho Hv) as (_ & _ & [[-> ->]|[[-> ->]|[-> [b ->]]]]), (demo_object _ _ _ _ Ho' Hv') as (_ & _ & [[Hk ->]|[[Hk ->]|[Hk [b' ->]]]]);
      try (by revert Hk; by_decide); rewrite ?jsonKind_int; done.
Qed.


(** *** What inference pins *)

(** A float whose first value is integral pins an integer column, and the next fraction does not go in: [encoding/json] prints
    2.0 as 2. *)
Lemma integral_float_pins_integers :
  let Marshal (literal : bytes) := @Ok unit json (JObject [(str "x", JNumber literal)]) in
  let first := RowsToBatch Marshal false [str "2"] None in
  is_ok first.1 = true ∧ (RowsToBatch Marshal false [str "2.5"] first.2).1 = Err (WriteField (str "x") (ValueError NotAnInteger)).
Proof. split; vm_compute; reflexivity. Qed.

(** A member that no row of the first batch has is dropped from every later one, without an error. *)
Lemma later_members_dropped :
  let Marshal (names : list bytes) := @Ok unit json (JObject (map (λ name, (name, JBool true)) names)) in
  let first := RowsToBatch Marshal false [[str "a"]] None in
  match (RowsToBatch Marshal false [[str "a"; str "b"]] first.2).1 with
  | Ok batch => map field_Name (fr_Fields batch) = [str "a"]
  | Err _ => False
  end.
Proof. vm_compute. reflexivity. Qed.

(** Rows without members make a batch without rows. *)
Lemma empty_rows_vanish :
  let Marshal (row : unit) := @Ok unit json (JObject []) in
  match (RowsToBatch Marshal false [tt; tt] None).1 with Ok batch => fr_NumRows batch = 0%nat | Err _ => False end.
Proof. vm_compute. reflexivity. Qed.
