(* ===== verification/Nested.v ===== *)
(** * Nested columns, from columnarschema/metadata.go and the helpers that both schema bridges share

    [Cells.data_type] is what a builder and an array need of an Arrow type. A schema bridge reads more of the type that it
    made: the fields of a struct and the item field of a list keep their name, nullability and metadata, a timestamp its time
    zone, a decimal its precision. A nested type holds all of it, and erases to a type of [Cells]. *)

From S2P Require Import Prelude GoStd GoNet GoFloat Kafka Json Value Cells Frames.

#[local] Open Scope Z_scope.

(** ** Metadata keys *)

Definition MetadataJSON := str "krabka.json".
Definition MetadataAvroEnum := str "krabka.avro.enum".
Definition MetadataAvroEnumSymbols := str "krabka.avro.enum.symbols".
Definition MetadataAvroUnion := str "krabka.avro.union".
Definition MetadataAvroFixed := str "krabka.avro.fixed".
Definition MetadataAvroLogical := str "krabka.avro.logical".
Definition MetadataProtoEnum := str "krabka.proto.enum".
Definition MetadataProtoOneof := str "krabka.proto.oneof".
Definition MetadataProtoWrapper := str "krabka.proto.wrapper".
Definition MetadataProtoMessage := str "krabka.proto.message".

(** ** Types and fields *)

(** An [arrow.Field] over a type. *)
Record field_of (T : Type) := MkNested {
  nf_Name : bytes;
  nf_Type : T;
  nf_Nullable : bool;
  nf_Metadata : list (bytes * bytes)
}.
Arguments MkNested {T}.
Arguments nf_Name {T}.
Arguments nf_Type {T}.
Arguments nf_Nullable {T}.
Arguments nf_Metadata {T}.

(** [NScalar] is a type that holds nothing more than [Cells] knows of it. The item type of a map is a type, not a field:
    [arrow.MapOf] takes no metadata. *)
Inductive nested_type :=
| NScalar (t : data_type)
| NTimestamp (unit : time_unit) (zone : bytes)
| NDecimal128 (precision scale : Z)
| NDecimal256 (precision scale : Z)
| NList (item : field_of nested_type)
| NStruct (children : list (field_of nested_type))
| NMap (key : data_type) (item : nested_type).

Abbreviation nested_field := (field_of nested_type).

Fixpoint erase (t : nested_type) : data_type :=
  match t with
  | NScalar t => t
  | NTimestamp unit _ => TTimestamp unit
  | NDecimal128 _ scale => TDecimal128 scale
  | NDecimal256 _ scale => TDecimal256 scale
  | NList item => TList (erase (nf_Type item))
  | NStruct children => TStruct (map (λ child, (nf_Name child, erase (nf_Type child))) children)
  | NMap key item => TMap key (erase item)
  end.

Definition erase_field (f : nested_field) : field :=
  MkField (nf_Name f) (erase (nf_Type f)) (nf_Nullable f) (nf_Metadata f).

Definition plus_max (ns : list nat) : nat := S (fold_right Nat.max 0%nat ns).

Fixpoint type_depth (t : nested_type) : nat :=
  match t with
  | NList item => S (type_depth (nf_Type item))
  | NStruct children => plus_max (map (λ child, type_depth (nf_Type child)) children)
  | NMap _ item => S (type_depth item)
  | _ => 0
  end.

Lemma plus_max_elem {A} (f : A → nat) x l : x ∈ l → (f x < plus_max (map f l))%nat.
Proof.
  unfold plus_max. induction l as [|y l IH]; [by intros ?%elem_of_nil|].
  intros [->|H]%elem_of_cons; cbn [map fold_right]; [lia|]. apply IH in H. lia.
Qed.

(** A field without metadata. *)
Definition plain (name : bytes) (t : nested_type) (nullable : bool) : nested_field := MkNested name t nullable [].

(** The keys in order. *)
Definition buildMetadata (pairs : gmap bytes bytes) : list (bytes * bytes) := metadata_entries pairs.

Definition taggedField (name : bytes) (t : nested_type) (nullable : bool) (metadata : gmap bytes bytes) : nested_field :=
  MkNested name t nullable (buildMetadata metadata).

(** [FindKey] and [Values]: the first entry of the key. *)
Fixpoint find_key (metadata : list (bytes * bytes)) (key : bytes) : bytes :=
  match metadata with
  | [] => []
  | (k, v) :: metadata => if decide (k = key) then v else find_key metadata key
  end.
Definition metadataValue (f : nested_field) (key : bytes) : bytes := find_key (nf_Metadata f) key.

(** ** Values *)

Section Values.
Context {L : ArrowLib}.

Definition stringOf (v : value) : bytes := match v with VString text => text | _ => Sprint v end.

Definition toInt64 (v : value) : option Z :=
  match v with VInt (KInt | KInt32 | KInt64) n => Some n | _ => None end.

(** ** What a column returns

    [settles t w r]: a column of the type takes the Go value [w], and the row reads back as [r]. *)
Definition settles (t : data_type) (w r : value) : Prop := ∃ c, appendGoValue t w = Ok c ∧ arrowValue t c = r.

Lemma settles_nil t : settles t VNil VNil.
Proof. exists CNull. split; [by destruct t|]. by destruct t. Qed.

Lemma settles_list t ws rs :
  Forall2 (settles t) ws rs → settles (TList t) (VList ws) (VList rs).
Proof.
  intros H. assert (∃ cs, map_results (appendGoValue t) ws = Ok cs ∧ map (arrowValue t) cs = rs) as (cs & Hc & Hr).
  { induction H as [|w r ws rs (c & Hc & Hr) _ (cs & Hcs & Hrs)]; [by exists []|].
    exists (c :: cs). cbn [map_results map]. rewrite Hc, Hcs. split; [done|]. by f_equal. }
  exists (CList cs). cbn [appendGoValue]. unfold appendListValue. cbn [anySlice rbind]. rewrite Hc. cbn [rbind arrowValue].
  split; [done|]. by f_equal.
Qed.

(** A struct returns, under each name, what the column of the name returns. *)
Lemma settles_struct fields values rs :
  Forall2 (λ f r, settles f.2 (map_lookup f.1 values) r) fields rs →
  settles (TStruct fields) (VMap values) (VMap (fold_left (λ m e, map_insert e.1 e.2 m) (zip (map fst fields) rs) [])).
Proof.
  intros H. assert (∃ cs, struct_cells values fields = Ok cs ∧
    ∀ m, struct_values fields cs m = fold_left (λ m e, map_insert e.1 e.2 m) (zip (map fst fields) rs) m) as (cs & Hc & Hr).
  { induction H as [|f r fields rs (c & Hc & Hr) _ (cs & Hcs & Hrs)]; [by exists []|].
    exists (c :: cs). cbn [struct_cells]. rewrite Hc. cbn [rbind]. rewrite Hcs. split; [done|]. intros m.
    cbn [struct_values map zip zip_with fold_left fst snd]. by rewrite Hr. }
  exists (CStruct cs). rewrite appendGoValue_struct, Hc. split; [done|].
  change (arrowValue (TStruct fields) (CStruct cs)) with (VMap (struct_values fields cs [])). by rewrite Hr.
Qed.

Lemma settles_int i k n : k ≠ KUint64 → k ≠ KUint → int_in (kind_of i) n → i = I32 ∨ i = I64 →
  settles (TInt i) (VInt k n) (VInt (kind_of i) n).
Proof.
  intros H1 H2 Hn Hi. exists (CInt n). split; [|by destruct Hi as [-> | ->]].
  destruct Hi as [-> | ->]; cbn; unfold appendSigned; rewrite exactIntRange_int; try done; cbn in Hn; unfold inS in Hn; width_consts; lia.
Qed.

(** The keys are texts that the key column gives back. *)
Definition key_kept (k : data_type) (text : bytes) : Prop :=
  ∃ c, appendGoValue k (VString text) = Ok c ∧ stringify (arrowValue k c) = text.

Lemma settles_keyed k t entries rs :
  StronglySorted key_lt (map fst entries) → Forall (λ e, key_kept k e.1) entries →
  Forall2 (λ e r, settles t e.2 r) entries rs →
  settles (TMap k t) (VMap entries) (VMap (zip (map fst entries) rs)).
Proof.
  intros Hs Hk H.
  assert (∃ cs, map_results (λ e, let* key := appendGoValue k (VString e.1) in
                                  let* item := appendGoValue t e.2 in Ok (key, item)) entries = Ok cs ∧
    map (λ e, (stringify (arrowValue k e.1), arrowValue t e.2)) cs = zip (map fst entries) rs) as (cs & Hc & Hr).
  { clear Hs. induction H as [|e r entries rs (c & Hc & Hr) _ IH]; [by exists []|]. apply Forall_cons in Hk as [(kc & Hkc & Hkr) Hk].
    destruct (IH Hk) as (cs & Hcs & Hrs). exists ((kc, c) :: cs). cbn [map_results]. rewrite Hkc. cbn [rbind]. rewrite Hc. cbn [rbind].
    rewrite Hcs. split; [done|]. cbn [map zip zip_with fst snd]. by rewrite Hkr, Hr, Hrs. }
  exists (CMap cs). change (appendGoValue (TMap k t) (VMap entries)) with
    (let* es := map_results (λ e, let* key := appendGoValue k (VString e.1) in let* item := appendGoValue t e.2 in Ok (key, item)) entries in
     @Ok cell_error cell (CMap es)).
  rewrite Hc. split; [done|]. cbn [arrowValue]. f_equal.
  assert (∀ m, fold_left (λ m e, map_insert (stringify (arrowValue k e.1)) (arrowValue t e.2) m) cs m =
    fold_left (λ m e, map_insert e.1 e.2 m) (map (λ e, (stringify (arrowValue k e.1), arrowValue t e.2)) cs) m) as ->.
  { clear. induction cs as [|e cs IH]; intros m; [done|]. cbn [fold_left map fst snd]. apply IH. }
  rewrite Hr. apply map_insert_all. cbn [app]. by rewrite fst_zip; [|rewrite length_map; by rewrite (Forall2_length _ _ _ H)].
Qed.

Lemma settles_map t entries rs :
  StronglySorted key_lt (map fst entries) →
  Forall2 (λ e r, settles t e.2 r) entries rs →
  settles (TMap TString t) (VMap entries) (VMap (zip (map fst entries) rs)).
Proof. intros Hs. apply settles_keyed; [done|]. apply Forall_forall. intros e _. by exists (CText e.1). Qed.
End Values.

(** ** Go maps as lists in key order *)

Lemma map_lookup_fold names vs m n :
  n ∉ names → map_lookup n (fold_left (λ m e, map_insert e.1 e.2 m) (zip names vs) m) = map_lookup n m.
Proof.
  revert vs m. induction names as [|k names IH]; intros [|v vs] m; try done. intros [Hk Hn]%not_elem_of_cons.
  cbn [zip zip_with fold_left fst snd]. rewrite IH by done. rewrite map_lookup_insert. by rewrite decide_False.
Qed.

Lemma map_lookup_zip names vs m :
  NoDup names → length names = length vs →
  Forall2 (λ n v, map_lookup n (fold_left (λ m e, map_insert e.1 e.2 m) (zip names vs) m) = v) names vs.
Proof.
  revert vs m. induction names as [|k names IH]; intros [|v vs] m Hd Hl; try done; [constructor..|].
  apply NoDup_cons in Hd as [Hk Hd]. injection Hl as Hl. cbn [zip zip_with fold_left fst snd]. constructor; [|by apply IH].
  rewrite map_lookup_fold by done. rewrite map_lookup_insert. by rewrite decide_True.
Qed.

Lemma map_insert_perm k v entries : k ∉ map fst entries → map_insert k v entries ≡ₚ (k, v) :: entries.
Proof.
  induction entries as [|[k' v'] entries IH]; [done|]. cbn [map fst map_insert]. intros [Hk Hn]%not_elem_of_cons.
  rewrite decide_False by done. case_decide; [done|]. rewrite (IH Hn). apply perm_swap.
Qed.

Lemma map_insert_sorted k v entries :
  k ∉ map fst entries → StronglySorted key_lt (map fst entries) → StronglySorted key_lt (map fst (map_insert k v entries)).
Proof.
  assert (∀ x y z, key_lt x y → key_lt y z → key_lt x z) as Htrans.
  { intros x y z [Hxy Hn] [Hyz Hm]. split; [by etrans|]. intros ->. apply Hm. by apply (anti_symm bytes_le). }
  induction entries as [|[k' v'] entries IH]; [repeat constructor|]. cbn [map fst map_insert]. intros [Hk Hn]%not_elem_of_cons [Hs Hall]%StronglySorted_inv.
  rewrite decide_False by done. case_decide as Hle; cbn [map fst].
  - constructor; [by constructor|]. constructor; [by split|]. eapply Forall_impl; [exact Hall|]. intros x Hx. by apply (Htrans _ k').
  - assert (key_lt k' k) as Hlt by (split; [by destruct (total bytes_le k' k)|done]).
    constructor; [by apply IH|]. rewrite (map_insert_perm _ _ _ Hn). by constructor.
Qed.

Lemma map_of_entries entries :
  NoDup (map fst entries) →
  let m := fold_left (λ m e, map_insert e.1 e.2 m) entries [] in m ≡ₚ entries ∧ StronglySorted key_lt (map fst m).
Proof.
  assert (∀ acc, NoDup (map fst (acc ++ entries)) → StronglySorted key_lt (map fst acc) →
    let m := fold_left (λ m e, map_insert e.1 e.2 m) entries acc in m ≡ₚ acc ++ entries ∧ StronglySorted key_lt (map fst m)) as H.
  { induction entries as [|[k v] entries IH]; intros acc Hd Hs; [by rewrite app_nil_r|]. cbn [fold_left fst snd].
    assert (k ∉ map fst acc) as Hk.
    { rewrite map_app in Hd. apply NoDup_app in Hd as (_ & Hd & _). intros Hin. by eapply (Hd k Hin), list_elem_of_here. }
    destruct (IH (map_insert k v acc)) as [Hp Hs'].
    - rewrite (map_insert_perm _ _ _ Hk). cbn [app]. by rewrite Permutation_middle.
    - by apply map_insert_sorted.
    - split; [|done]. rewrite Hp, (map_insert_perm _ _ _ Hk). cbn [app]. by rewrite Permutation_middle. }
  intros Hd. apply (H []); [done|constructor].
Qed.

(** ** Metadata *)

Lemma find_key_build (m : gmap bytes bytes) k : find_key (buildMetadata m) k = default [] (m !! k).
Proof.
  unfold buildMetadata, metadata_entries. assert (k ∈ sorted_keys m ∨ m !! k = None) as Hk.
  { destruct (m !! k) eqn:Hm; [left; apply elem_of_sorted_keys; by eexists|by right]. }
  assert (∀ l, k ∈ l ∨ m !! k = None → find_key (map (λ key, (key, default [] (m !! key))) l) k = default [] (m !! k)) as H; [|by apply H].
  induction l as [|x l IH]; intros Hl; cbn [map find_key].
  - destruct Hl as [Hl| ->]; [by apply elem_of_nil in Hl|done].
  - case_decide as Hx; [by subst|]. apply IH. destruct Hl as [Hl|Hl]; [|by right]. apply elem_of_cons in Hl as [->|Hl]; [done|by left].
Qed.

(** What [field_ok] asks of a field, whatever its name. *)
Definition metadata_fits (md : list (bytes * bytes)) : Prop :=
  payloadNameMetadata ∉ map fst md ∧ StronglySorted key_lt (map fst md).

Lemma build_fits (m : gmap bytes bytes) : m !! payloadNameMetadata = None → metadata_fits (buildMetadata m).
Proof.
  intros Hm. unfold metadata_fits, buildMetadata, metadata_entries. rewrite map_map, map_id. split.
  - rewrite elem_of_sorted_keys, Hm. by intros [].
  - pose proof (NoDup_sorted_keys m) as Hd. assert (StronglySorted bytes_le (sorted_keys m)) as Hs by (apply StronglySorted_merge_sort; apply _).
    induction Hs as [|k ks _ IH Hk]; [constructor|]. apply NoDup_cons in Hd as [Hn Hd]. constructor; [by apply IH|].
    rewrite Forall_forall in *. intros k' Hk'. split; [by apply Hk|]. by intros ->.
Qed.

(** ** Columns of rows *)

Section Columns.
Context {L : ArrowLib} {S R E : Type} (type : S → data_type) (write : S → R → result E cell) (reads : S → R → value → Prop).

(** When every row writes a cell that reads as it should, the columns do. *)
Lemma columns_of_rows specs rows :
  Forall (λ s, Forall (λ row, ∃ x, write s row = Ok x ∧ reads s row (arrowValue (type s) x)) rows) specs →
  ∃ columns, map_results (λ s, let* cells := map_results (write s) rows in Ok (MkColumn (type s) cells)) specs = Ok columns ∧
    ∀ i row, rows !! i = Some row → Forall2 (λ s c, reads s row (arrowValue (col_Type c) (cell_at c i))) specs columns.
Proof.
  induction 1 as [|s specs Hs _ (columns & Hc & Hr)].
  { exists []. split; [done|]. intros i row _. constructor. }
  assert (∃ cells, map_results (write s) rows = Ok cells ∧ Forall2 (λ row x, reads s row (arrowValue (type s) x)) rows cells) as (cells & Hw & Hcells).
  { clear -Hs. induction Hs as [|row rows (x & Hx & Hrx) _ (cells & Hw & Hcells)]; [by exists []|].
    exists (x :: cells). cbn [map_results]. rewrite Hx. cbn [rbind]. rewrite Hw. split; [done|by constructor]. }
  exists (MkColumn (type s) cells :: columns). split.
  - cbn [map_results]. rewrite Hw. cbn [rbind]. by rewrite Hc.
  - intros i row Hi. constructor; [|by apply Hr]. destruct (Forall2_lookup_l _ _ _ _ _ Hcells Hi) as (x & Hx & Hrx).
    unfold cell_at. cbn [col_Type col_Cells]. by rewrite Hx.
Qed.
End Columns.

(** A column is found under its name. *)
Lemma column_indices fs (columns : list column) n i f c :
  NoDup (map nf_Name fs) → fs !! i = Some f → columns !! i = Some c →
  ∃ k ks, FieldIndices (MkFrame (map erase_field fs) columns n) (nf_Name f) = k :: ks ∧ columns !! k = Some c.
Proof.
  intros Hd Hf Hc.
  assert (columnByName (MkFrame (map erase_field fs) columns n) (field_Name (erase_field f)) = Some c) as Hcol.
  { rewrite <- (take_drop_middle fs i f Hf), <- (take_drop_middle columns i c Hc), map_app. cbn [map]. apply columnByName_at.
    - pose proof (lookup_lt_Some _ _ _ Hf). pose proof (lookup_lt_Some _ _ _ Hc). rewrite length_map, !length_take. lia.
    - apply Forall_map, Forall_forall. intros f' (j & Hj & Hlt)%elem_of_take Heq. cbn in Heq.
      assert (j = i) as ->; [|lia]. eapply (NoDup_lookup (map nf_Name fs) j i (nf_Name f)); [done|..].
      + rewrite <- Heq. by rewrite list_lookup_fmap, Hj.
      + by rewrite list_lookup_fmap, Hf. }
  unfold columnByName in Hcol. cbn [field_Name erase_field] in Hcol. destruct (FieldIndices _ _) as [|k ks]; [done|]. by exists k, ks.
Qed.
