(* ===== verification/Avro.v ===== *)
(** * The Avro bridge, from columnarschema/avroschema.go and columnarschema/avrobridge.go

    The translation of a parsed Avro schema to nested columns, and the conversions of a generic Avro value to a column and back, with
    the JSON text that stands for a recursive record. A schema is the content of the library's objects; a reference is the
    name of a type that the schema defines, and following it is a step of fuel: [conversions_end] shows that the fuel that the
    definitions give is enough for every schema and every value. *)

From Stdlib Require Import QArith.QArith.
From S2P Require Import Prelude GoStd GoNet GoText GoFloat Kafka Json Value Cells Frames JsonBridge Nested.

#[local] Open Scope Z_scope.

(** ** Schemas *)

Inductive avro_primitive := PNull | PBoolean | PInt | PLong | PFloat | PDouble | PBytes | PString.

(** [LOther] is a logical type that the bridge does not tell apart. *)
Inductive avro_logical :=
| LNone | LDate | LTimeMillis | LTimeMicros | LTimestampMillis | LTimestampMicros | LLocalTimestampMillis | LLocalTimestampMicros
| LUUID | LDecimal (precision scale : Z) | LOther.

Inductive avro_schema :=
| APrimitive (type : avro_primitive) (logical : avro_logical)
| AFixed (name : bytes) (size : Z) (logical : avro_logical)
| AEnum (name : bytes) (symbols : list bytes)
| ARecord (name : bytes) (fields : list (bytes * avro_schema))
| AArray (items : avro_schema)
| AMap (values : avro_schema)
| AUnion (types : list avro_schema)
| ARef (name : bytes).

Section avro_schema_ind.
Variable P : avro_schema → Prop.
Hypothesis (Hprimitive : ∀ p l, P (APrimitive p l)) (Hfixed : ∀ n z l, P (AFixed n z l)) (Henum : ∀ n ss, P (AEnum n ss)).
Hypothesis Hrecord : ∀ n fields, Forall (λ f, P f.2) fields → P (ARecord n fields).
Hypothesis (Harray : ∀ s, P s → P (AArray s)) (Hmap : ∀ s, P s → P (AMap s)).
Hypothesis (Hunion : ∀ types, Forall P types → P (AUnion types)) (Href : ∀ n, P (ARef n)).

Fixpoint avro_nested_ind (s : avro_schema) : P s :=
  match s with
  | APrimitive p l => Hprimitive p l | AFixed n z l => Hfixed n z l | AEnum n ss => Henum n ss | ARef n => Href n
  | AArray s => Harray s (avro_nested_ind s)
  | AMap s => Hmap s (avro_nested_ind s)
  | ARecord n fields =>
      Hrecord n fields ((fix go l : Forall (λ f, P f.2) l :=
        match l with [] => Forall_nil_2 _ | x :: l => Forall_cons_2 _ _ _ (avro_nested_ind x.2) (go l) end) fields)
  | AUnion types =>
      Hunion types ((fix go l : Forall P l :=
        match l with [] => Forall_nil_2 _ | x :: l => Forall_cons_2 _ _ _ (avro_nested_ind x) (go l) end) types)
  end.
End avro_schema_ind.

(** The types that a schema defines; a reference resolves to one of them. *)
Fixpoint named_schemas (s : avro_schema) : list (bytes * avro_schema) :=
  match s with
  | AFixed name _ _ | AEnum name _ => [(name, s)]
  | ARecord name fields => (name, s) :: concat (map (λ f, named_schemas f.2) fields)
  | AArray s | AMap s => named_schemas s
  | AUnion types => concat (map named_schemas types)
  | _ => []
  end.

Fixpoint resolve (env : list (bytes * avro_schema)) (name : bytes) : option avro_schema :=
  match env with
  | [] => None
  | (n, s) :: env => if decide (n = name) then Some s else resolve env name
  end.

Inductive avro_error :=
| OnlyNullBranches (name : bytes) | BranchNamesCollide (name : bytes) | UnsupportedSchema (name : bytes) | IsNullType (name : bytes)
| DecimalPrecision (name : bytes) (precision : Z) | NotARecordSchema
| RowNotRecord | AppendFailed (e : cell_error) | NoArrowColumn (name : bytes)
| RequiredFieldNull (name : bytes) | NoUnionBranch (name : bytes) | NoBranchColumn (branch name : bytes)
| ValueNotRecord (name : bytes) | ValueNotArray (name : bytes) | ValueNotMap (name : bytes) | ValueNotStruct (name : bytes)
| ValueNotList (name : bytes) | ValueNotText (name : bytes) | CannotConvertBack | NotAnIntegerValue | NotAFloat | NotADouble | NotBytes
| NotFixed (size : Z)
| JSONNotRecord | JSONNotArray | JSONNotMap | JSONDecimal | JSONNotBytes | JSONMarshal | JSONUnsupported | JSONUnion | JSONUnknownBranch (name : bytes)
| JSONNumber | JSONByte | JSONText
| Panics | DanglingReference (name : bytes) | OutOfFuel.

Definition is_null (s : avro_schema) : bool := match s with APrimitive PNull _ => true | _ => false end.

(** The text of [schema.Type()]. *)
Definition type_text (s : avro_schema) : bytes :=
  match s with
  | APrimitive PNull _ => str "null" | APrimitive PBoolean _ => str "boolean" | APrimitive PInt _ => str "int"
  | APrimitive PLong _ => str "long" | APrimitive PFloat _ => str "float" | APrimitive PDouble _ => str "double"
  | APrimitive PBytes _ => str "bytes" | APrimitive PString _ => str "string" | AFixed _ _ _ => str "fixed" | AEnum _ _ => str "enum"
  | ARecord _ _ => str "record" | AArray _ => str "array" | AMap _ => str "map" | AUnion _ => str "union" | ARef _ => str "<ref>"
  end.

(** A reference has the name of its target. *)
Definition avroBranchName (branch : avro_schema) : bytes :=
  match branch with ARef name | AFixed name _ _ | AEnum name _ | ARecord name _ => name | _ => type_text branch end.

(** The names of [avroUnionBranches]; its map holds the last branch of each name. *)
Definition branch_names (types : list avro_schema) : list bytes :=
  map avroBranchName (List.filter (λ b, negb (is_null b)) types).

(** ** Columns of a schema *)

Definition avroDecimalType (name : bytes) (precision scale : Z) : result avro_error nested_type :=
  if 76 <? precision then Err (DecimalPrecision name precision)
  else if 38 <? precision then Ok (NDecimal256 (int32 precision) (int32 scale))
  else Ok (NDecimal128 (int32 precision) (int32 scale)).

Definition avroPrimitiveField (name : bytes) (type : avro_primitive) (logical : avro_logical) (nullable : bool)
    : result avro_error nested_field :=
  let make t := Ok (plain name t nullable) in
  match type with
  | PNull => Err (IsNullType name)
  | PBoolean => make (NScalar TBoolean)
  | PInt =>
      match logical with
      | LDate => make (NScalar TDate32)
      | LTimeMillis => make (NScalar (TTime32 UnitMillisecond))
      | _ => make (NScalar (TInt I32))
      end
  | PLong =>
      match logical with
      | LTimeMicros => make (NScalar (TTime64 UnitMicrosecond))
      | LTimestampMillis => make (NTimestamp UnitMillisecond (str "UTC"))
      | LTimestampMicros => make (NTimestamp UnitMicrosecond (str "UTC"))
      | LLocalTimestampMillis => make (NTimestamp UnitMillisecond [])
      | LLocalTimestampMicros => make (NTimestamp UnitMicrosecond [])
      | _ => make (NScalar (TInt I64))
      end
  | PFloat => make (NScalar TFloat32)
  | PDouble => make (NScalar TFloat64)
  | PBytes =>
      match logical with
      | LDecimal precision scale => let* t := avroDecimalType name precision scale in make t
      | _ => make (NScalar TBinary)
      end
  | PString =>
      match logical with
      | LUUID => Ok (taggedField name (NScalar TString) nullable {[MetadataAvroLogical := str "uuid"]})
      | _ => make (NScalar TString)
      end
  end.

(** The text column of a record within itself. *)
Definition json_field (name : bytes) (nullable : bool) : nested_field :=
  taggedField name (NScalar TString) nullable {[MetadataJSON := str "true"]}.

(** The first branch that is not null. *)
Definition only_branch {X} (call : avro_schema → X) (none : X) :=
  fix go (types : list avro_schema) : X :=
    match types with [] => none | branch :: types => if is_null branch then go types else call branch end.

(** A column for each branch that is not null; [names] holds the names so far. *)
Definition branch_fields (call : avro_schema → result avro_error nested_field) (name : bytes) :=
  fix go (types : list avro_schema) (names : list bytes) : result avro_error (list nested_field) :=
    match types with
    | [] => Ok []
    | branch :: types =>
        if is_null branch then go types names
        else
          let* child := call branch in
          if decide (nf_Name child ∈ names) then Err (BranchNamesCollide name)
          else let* children := go types (nf_Name child :: names) in Ok (child :: children)
    end.

Section AvroField.
Context (env : list (bytes * avro_schema)).

Section Step.
Context (refer : bytes → avro_schema → bool → list bytes → result avro_error nested_field).

(** One descent through a schema; [refer] continues at the target of a reference. [visiting] holds the records that the field
    is within. *)
Fixpoint avroField_step (name : bytes) (schema : avro_schema) (nullable : bool) (visiting : list bytes) {struct schema}
    : result avro_error nested_field :=
  match schema with
  | ARef target =>
      match resolve env target with
      | None => Err (DanglingReference target)
      | Some (ARecord full _ as record) =>
          if decide (full ∈ visiting) then Ok (json_field name nullable) else refer name record nullable visiting
      | Some schema => refer name schema nullable visiting
      end
  | AUnion types =>
      let hasNull := existsb is_null types in
      match branch_names types with
      | [] => Err (OnlyNullBranches name)
      | [_] =>
          only_branch (λ branch, avroField_step name branch (nullable || hasNull) visiting) (Err (OnlyNullBranches name)) types
      | _ =>
          let* children := branch_fields (λ branch, avroField_step (avroBranchName branch) branch true visiting) name types [] in
          Ok (taggedField name (NStruct children) (nullable || hasNull) {[MetadataAvroUnion := str "true"]})
      end
  | APrimitive type logical => avroPrimitiveField name type logical nullable
  | AFixed full size logical =>
      match logical with
      | LDecimal precision scale => let* t := avroDecimalType name precision scale in Ok (plain name t nullable)
      | _ => Ok (taggedField name (NScalar (TFixedSizeBinary size)) nullable {[MetadataAvroFixed := full]})
      end
  | AEnum full symbols =>
      Ok (taggedField name (NScalar TString) nullable
        (<[MetadataAvroEnum := full]> {[MetadataAvroEnumSymbols := strings_Join symbols (str ",")]}))
  | ARecord full fields =>
      if decide (full ∈ visiting) then Ok (json_field name nullable)
      else
        let* children := map_results (λ f, avroField_step f.1 f.2 false (visiting ++ [full])) fields in
        Ok (plain name (NStruct children) nullable)
  | AArray items =>
      let* item := avroField_step (str "item") items false visiting in Ok (plain name (NList item) nullable)
  | AMap values =>
      let* value := avroField_step (str "value") values false visiting in Ok (plain name (NMap TString (nf_Type value)) nullable)
  end.
End Step.

Fixpoint avroField (fuel : nat) (name : bytes) (schema : avro_schema) (nullable : bool) (visiting : list bytes)
    : result avro_error nested_field :=
  avroField_step (match fuel with O => λ _ _ _ _, Err OutOfFuel | S fuel => avroField fuel end) name schema nullable visiting.

(** Each reference that is followed enters another record, and the last one may name an enum or a fixed. *)
Definition field_fuel : nat := S (length env).
End AvroField.

Definition avroTopLevelFields (schema : avro_schema) : result avro_error (list nested_field) :=
  let env := named_schemas schema in
  match schema with
  | ARecord full fields => map_results (λ f, avroField env (field_fuel env) f.1 f.2 false [full]) fields
  | _ => let* f := avroField env (field_fuel env) (str "value") schema false [] in Ok [f]
  end.

Definition AvroArrowSchema (schema : avro_schema) : result avro_error (list field) :=
  let* fields := avroTopLevelFields schema in Ok (map erase_field fields).

Definition AvroArrowField (name : bytes) (schema : avro_schema) : result avro_error nested_field :=
  avroField (named_schemas schema) (field_fuel (named_schemas schema)) name schema false [].

(** ** JSON text of a recursive record

    [time_JSON] is [time.Time.MarshalJSON], which fails for a year out of range, and [Sprint_json] is [fmt.Sprint] of a document that is not a string. *)
Class AvroText := { time_JSON : Z → option bytes; Sprint_json : json → bytes }.

(** [json.Marshal] of a Go value. *)
Section Marshal.
Context {J : JsonText} {A : AvroText}.

Definition number_or_fail (text : option bytes) : result avro_error json :=
  match text with Some literal => Ok (JNumber literal) | None => Err JSONMarshal end.

Fixpoint json_Marshal (v : value) : result avro_error json :=
  match v with
  | VNil => Ok JNull
  | VBool b => Ok (JBool b)
  | VString s => Ok (JString (coerce_utf8 s))
  | VBytes s => Ok (JString (base64_StdEncoding s))
  | VInt _ n | VBigInt n | VDuration n => Ok (JNumber (FormatInt n))
  | VFloat32 bits => number_or_fail (FormatFloat32 bits)
  | VFloat64 bits => number_or_fail (FormatFloat64 bits)
  | VRat q => Ok (JString (RatString q))
  | VList items | VSlice items => let* js := map_results json_Marshal items in Ok (JArray js)
  | VMap entries =>
      let* ms := map_results (λ e, let* j := json_Marshal e.2 in Ok (coerce_utf8 e.1, j)) entries in Ok (JObject ms)
  | VTime n => match time_JSON n with Some text => Ok (JString text) | None => Err JSONMarshal end
  | VArray s => Ok (JArray (map (λ b, JNumber (FormatInt (b2z b))) s))
  | VOther => Err JSONMarshal
  end.
End Marshal.

(** One character per byte, as UTF-8. *)
Definition latin1 (b : byte) : bytes :=
  if b2z b <? 128 then [b] else [z2b (192 + b2z b / 64); z2b (128 + b2z b mod 64)].
Definition runes_of_bytes (data : bytes) : bytes := concat (map latin1 data).

(** The runes of a text, when none is above 255. Text that is no UTF-8 has the rune U+FFFD. *)
Fixpoint bytes_of_runes (text : bytes) : option bytes :=
  match text with
  | [] => Some []
  | b :: rest =>
      if b2z b <? 128 then (λ r, b :: r) <$> bytes_of_runes rest
      else match rest with
           | c :: rest =>
               if in_range b 194 195 && is_cont c then (λ r, z2b ((b2z b - 192) * 64 + (b2z c - 128)) :: r) <$> bytes_of_runes rest
               else None
           | [] => None
           end
  end.

Definition fixedBytes (v : value) : value := match v with VArray s => VBytes s | _ => v end.

Definition toFixedArray (v : value) (size : Z) : result avro_error value :=
  match v with
  | VBytes data => if zlen data =? size then Ok (VArray data) else Err (NotFixed size)
  | _ => Err (NotFixed size)
  end.

(** The single entry of a map, when its key names a branch. *)
Definition unwrapUnion (v : value) (names : list bytes) : option (bytes * value) :=
  match v with
  | VMap [(key, branchValue)] => if decide (key ∈ names) then Some (key, branchValue) else None
  | _ => None
  end.

Definition writeAvroJSONBytes (v : value) : result avro_error json :=
  match v with VBytes data => Ok (JString (runes_of_bytes data)) | _ => Err JSONNotBytes end.

(** [branches[name]]: the last branch of the name, applied. *)
Definition branch_call {X} (call : avro_schema → X) (name : bytes) : list avro_schema → option X :=
  fix go types :=
    match types with
    | [] => None
    | branch :: types =>
        match go types with
        | Some x => Some x
        | None => if negb (is_null branch) && bool_decide (avroBranchName branch = name) then Some (call branch) else None
        end
    end.

Section WriteJSON.
Context {L : ArrowLib} {J : JsonText} {A : AvroText} (env : list (bytes * avro_schema)).

Section Step.
Context (refer : avro_schema → value → result avro_error json).

Fixpoint writeAvroJSON_step (schema : avro_schema) (v : value) {struct schema} : result avro_error json :=
  match schema with
  | ARef target => match resolve env target with Some schema => refer schema v | None => Err (DanglingReference target) end
  | AUnion types =>
      match v with
      | VNil => Ok JNull
      | _ =>
          let names := branch_names types in
          let* branch := match unwrapUnion v names with
                         | Some branch => Ok branch
                         | None => match names with [name] => Ok (name, v) | _ => Err (NoUnionBranch []) end
                         end in
          match branch_call (λ s, writeAvroJSON_step s branch.2) branch.1 types with
          | Some j => let* j := j in Ok (JObject [(coerce_utf8 branch.1, j)])
          | None => Err Panics
          end
      end
  | ARecord _ fields =>
      match v with
      | VMap entries =>
          let* ms := map_results (λ f, let* j := writeAvroJSON_step f.2 (map_lookup f.1 entries) in Ok (coerce_utf8 f.1, j)) fields in
          Ok (JObject ms)
      | _ => Err JSONNotRecord
      end
  | AArray items =>
      match v with
      | VList vs => let* js := map_results (writeAvroJSON_step items) vs in Ok (JArray js)
      | _ => Err JSONNotArray
      end
  | AMap values =>
      match v with
      | VMap entries =>
          let* ms := map_results (λ e, let* j := writeAvroJSON_step values e.2 in Ok (coerce_utf8 e.1, j)) entries in Ok (JObject ms)
      | _ => Err JSONNotMap
      end
  | AFixed _ _ (LDecimal _ _) => Err JSONDecimal
  | AFixed _ _ _ => writeAvroJSONBytes (fixedBytes v)
  | AEnum _ _ => Ok (JString (coerce_utf8 (stringOf v)))
  | APrimitive _ (LDecimal _ _) => Err JSONDecimal
  | APrimitive PBytes _ => writeAvroJSONBytes v
  | APrimitive _ _ => json_Marshal v
  end.
End Step.

Fixpoint writeAvroJSON (fuel : nat) (schema : avro_schema) (v : value) : result avro_error json :=
  writeAvroJSON_step (match fuel with O => λ _ _, Err OutOfFuel | S fuel => writeAvroJSON fuel end) schema v.

(** A reference leads to a record, whose value holds the values of its fields. *)
Definition avroJSONText (v : value) (schema : avro_schema) : result avro_error bytes :=
  let* document := writeAvroJSON (S (value_depth v)) schema v in Ok (raw_text document).
End WriteJSON.

(** ** Reading the JSON text *)

Fixpoint json_depth (j : json) : nat :=
  match j with
  | JArray items => plus_max (map json_depth items)
  | JObject members => plus_max (map (λ m, json_depth m.2) members)
  | _ => 0
  end.

(** A document as the value that [UseNumber] decodes; a [json.Number] is of no type that the columns know. *)
Fixpoint document_value (document : json) : value :=
  match document with
  | JNull => VNil
  | JBool b => VBool b
  | JNumber _ => VOther
  | JString text => VString text
  | JArray items => VList (map document_value items)
  | JObject members => VMap (fold_left (λ m e, map_insert e.1 (document_value e.2) m) members [])
  end.

Definition object_member (members : list (bytes * json)) (name : bytes) : json := default JNull (member members name).

(** The keys of the map that an object decodes to. *)
Definition object_keys (members : list (bytes * json)) : list bytes := foldl add_key [] (map fst members).

Section ReadJSON.
Context {L : ArrowLib} {J : JsonText} {A : AvroText} (env : list (bytes * avro_schema)).

Definition stringOf_document (document : json) : bytes :=
  match document with JString text => text | JNumber literal => literal | _ => Sprint_json document end.

Definition jsonNumber (document : json) : result avro_error bytes :=
  match document with JNumber literal => Ok literal | _ => Err JSONNumber end.

Definition number_Int64 (literal : bytes) : result avro_error Z :=
  match ParseInt literal 64 with Some n => Ok n | None => Err JSONNumber end.
Definition number_Float64 (literal : bytes) : result avro_error Z :=
  match ParseFloat literal with Some bits => Ok bits | None => Err JSONNumber end.

Definition avroJSONBytes (document : json) : result avro_error bytes :=
  match document with
  | JString text => match bytes_of_runes text with Some data => Ok data | None => Err JSONByte end
  | _ => Err JSONByte
  end.

Definition readAvroJSONPrimitive (type : avro_primitive) (document : json) : result avro_error value :=
  match type with
  | PBoolean => Ok (document_value document)
  | PInt => let* literal := jsonNumber document in let* n := number_Int64 literal in Ok (VInt KInt n)
  | PLong => let* literal := jsonNumber document in let* n := number_Int64 literal in Ok (VInt KInt64 n)
  | PFloat => let* literal := jsonNumber document in let* bits := number_Float64 literal in Ok (VFloat32 (round32 bits))
  | PDouble => let* literal := jsonNumber document in let* bits := number_Float64 literal in Ok (VFloat64 bits)
  | PString => Ok (VString (stringOf_document document))
  | PBytes => let* data := avroJSONBytes document in Ok (VBytes data)
  | PNull => Err JSONUnsupported
  end.

Section Step.
Context (refer : avro_schema → json → result avro_error value).

Fixpoint readAvroJSON_step (schema : avro_schema) (document : json) {struct schema} : result avro_error value :=
  match schema with
  | ARef target => match resolve env target with Some schema => refer schema document | None => Err (DanglingReference target) end
  | AUnion types =>
      match document with
      | JNull => Ok VNil
      | JObject members =>
          match object_keys members with
          | [name] =>
              match branch_call (λ s, readAvroJSON_step s (object_member members name)) name types with
              | Some r => r
              | None => Err (JSONUnknownBranch name)
              end
          | _ => Err JSONUnion
          end
      | _ => Err JSONUnion
      end
  | ARecord _ fields =>
      match document with
      | JObject members =>
          let* entries := map_results (λ f, let* v := readAvroJSON_step f.2 (object_member members f.1) in Ok (f.1, v)) fields in
          Ok (VMap (fold_left (λ m e, map_insert e.1 e.2 m) entries []))
      | _ => Err JSONNotRecord
      end
  | AArray items =>
      match document with
      | JArray js => let* vs := map_results (readAvroJSON_step items) js in Ok (VList vs)
      | _ => Err JSONNotArray
      end
  | AMap values =>
      match document with
      | JObject members =>
          let* entries := map_results (λ key, let* v := readAvroJSON_step values (object_member members key) in Ok (key, v)) (object_keys members) in
          Ok (VMap (fold_left (λ m e, map_insert e.1 e.2 m) entries []))
      | _ => Err JSONNotMap
      end
  | AFixed _ size _ => let* data := avroJSONBytes document in toFixedArray (VBytes data) size
  | AEnum _ _ => Ok (VString (stringOf_document document))
  | APrimitive type _ => readAvroJSONPrimitive type document
  end.
End Step.

Fixpoint readAvroJSON (fuel : nat) (schema : avro_schema) (document : json) : result avro_error value :=
  readAvroJSON_step (match fuel with O => λ _ _, Err OutOfFuel | S fuel => readAvroJSON fuel end) schema document.

Definition avroJSONParse (text : bytes) (schema : avro_schema) : result avro_error value :=
  match json_first text with
  | Some document => readAvroJSON (S (json_depth document)) schema document
  | None => Err JSONText
  end.
End ReadJSON.

(** ** Values to columns *)

Definition requireNullable (v : value) (f : nested_field) : result avro_error value :=
  if nf_Nullable f then Ok v else Err (RequiredFieldNull (nf_Name f)).

Fixpoint find_child (children : list nested_field) (name : bytes) : option nested_field :=
  match children with
  | [] => None
  | child :: children => if decide (nf_Name child = name) then Some child else find_child children name
  end.
Definition structChild (f : nested_field) (name : bytes) : option nested_field :=
  match nf_Type f with NStruct children => find_child children name | _ => None end.

Definition is_tagged (f : nested_field) (key : bytes) : bool := bool_decide (metadataValue f key = str "true").

Definition logical_of (s : avro_schema) : avro_logical := match s with APrimitive _ l | AFixed _ _ l => l | _ => LNone end.
Definition is_primitive (s : avro_schema) (p : avro_primitive) : bool :=
  match s, p with
  | APrimitive PNull _, PNull | APrimitive PBoolean _, PBoolean | APrimitive PInt _, PInt | APrimitive PLong _, PLong
  | APrimitive PFloat _, PFloat | APrimitive PDouble _, PDouble | APrimitive PBytes _, PBytes | APrimitive PString _, PString => true
  | _, _ => false
  end.
Definition no_logical (s : avro_schema) : bool := match logical_of s with LNone => true | _ => false end.
Definition decimal_logical (s : avro_schema) : bool := match logical_of s with LDecimal _ _ => true | _ => false end.

(** The fields of a record with the columns of a struct, in order. *)
Definition convert_fields (convert : avro_schema → nested_field → value → result avro_error value) (entries : list (bytes * value)) :=
  fix go (fields : list (bytes * avro_schema)) (children : list nested_field) : result avro_error (list (bytes * value)) :=
    match fields, children with
    | [], _ => Ok []
    | _ :: _, [] => Err Panics
    | child :: fields, column :: children =>
        let* converted := convert child.2 column (map_lookup child.1 entries) in
        let* values := go fields children in Ok ((child.1, converted) :: values)
    end.

Section Convert.
Context {L : ArrowLib} {J : JsonText} {A : AvroText} (env : list (bytes * avro_schema)).

Definition target_of (s : avro_schema) : avro_schema := match s with ARef name => default s (resolve env name) | _ => s end.

(** [reflect] tells an array from every other kind of the last case. *)
Definition genericMatchesSchema (v : value) (schema : avro_schema) : bool :=
  let schema := target_of schema in
  match v with
  | VBool _ => is_primitive schema PBoolean
  | VInt (KInt | KInt32) _ => is_primitive schema PInt && no_logical schema
  | VInt KInt64 _ => is_primitive schema PLong && no_logical schema
  | VFloat32 _ => is_primitive schema PFloat
  | VFloat64 _ => is_primitive schema PDouble
  | VString _ => is_primitive schema PString || match schema with AEnum _ _ => true | _ => false end
  | VBytes _ => is_primitive schema PBytes && no_logical schema
  | VList _ => match schema with AArray _ => true | _ => false end
  | VMap _ => match schema with ARecord _ _ | AMap _ => true | _ => false end
  | VTime _ =>
      match logical_of schema with
      | LDate | LTimestampMillis | LTimestampMicros | LLocalTimestampMillis | LLocalTimestampMicros => true | _ => false end
  | VDuration _ => match logical_of schema with LTimeMillis | LTimeMicros => true | _ => false end
  | VArray _ => match schema with AFixed _ _ _ => true | _ => false end
  | _ => decimal_logical schema
  end.

(** The branch that a union value names, or the first one that the Go type of the value matches. *)
Definition resolveUnionBranch (v : value) (types : list avro_schema) : option (bytes * value) :=
  let names := branch_names types in
  match unwrapUnion v names with
  | Some branch => Some branch
  | None =>
      (fix first (names : list bytes) : option (bytes * value) :=
        match names with
        | [] => None
        | name :: names => if default false (branch_call (genericMatchesSchema v) name types) then Some (name, v) else first names
        end) names
  end.

Section Step.
Context (refer : avro_schema → nested_field → value → result avro_error value).

(** [Panics] is a failed type assertion or an index out of range. *)
Fixpoint avroToArrow_step (schema : avro_schema) (f : nested_field) (v : value) {struct schema} : result avro_error value :=
  match schema with
  | ARef target => match resolve env target with Some schema => refer schema f v | None => Err (DanglingReference target) end
  | AUnion types =>
      if is_tagged f MetadataAvroUnion then
        match v with
        | VNil => requireNullable v f
        | _ =>
            match resolveUnionBranch v types with
            | None => Err (NoUnionBranch (nf_Name f))
            | Some (name, branchValue) =>
                match structChild f name with
                | None => Err (NoBranchColumn name (nf_Name f))
                | Some child =>
                    match branch_call (λ s, avroToArrow_step s child branchValue) name types with
                    | Some r => let* converted := r in Ok (VMap [(name, converted)])
                    | None => Err Panics
                    end
                end
            end
        end
      else
        match v with
        | VNil => requireNullable v f
        | _ =>
            let names := branch_names types in
            match unwrapUnion v names, names with
            | Some (name, unwrapped), _ =>
                match branch_call (λ s, avroToArrow_step s f unwrapped) name types with Some r => r | None => Err Panics end
            | None, name :: _ =>
                match branch_call (λ s, avroToArrow_step s f v) name types with Some r => r | None => Err Panics end
            | None, [] => Err Panics
            end
        end
  | _ =>
      match v with
      | VNil => requireNullable v f
      | _ =>
          if is_tagged f MetadataJSON then let* text := avroJSONText env v schema in Ok (VString text)
          else
            match schema with
            | ARecord _ fields =>
                match v, nf_Type f with
                | VMap entries, NStruct children =>
                    let* values := convert_fields (λ s column v, avroToArrow_step s column v) entries fields children in
                    Ok (VMap (fold_left (λ m e, map_insert e.1 e.2 m) values []))
                | VMap _, _ => Err Panics
                | _, _ => Err (ValueNotRecord (nf_Name f))
                end
            | AFixed _ _ logical => match logical with LDecimal _ _ => Ok v | _ => Ok (fixedBytes v) end
            | AArray items =>
                match v, nf_Type f with
                | VList vs, NList item => let* ws := map_results (avroToArrow_step items item) vs in Ok (VList ws)
                | VList _, _ => Err Panics
                | _, _ => Err (ValueNotArray (nf_Name f))
                end
            | AMap values =>
                match v, nf_Type f with
                | VMap entries, NMap _ item =>
                    let* ws := map_results (λ e, let* w := avroToArrow_step values (plain (str "value") item true) e.2 in Ok (e.1, w)) entries in
                    Ok (VMap ws)
                | VMap _, _ => Err Panics
                | _, _ => Err (ValueNotMap (nf_Name f))
                end
            | _ => Ok v
            end
      end
  end.
End Step.

Fixpoint avroToArrow (fuel : nat) (schema : avro_schema) (f : nested_field) (v : value) : result avro_error value :=
  avroToArrow_step (match fuel with O => λ _ _ _, Err OutOfFuel | S fuel => avroToArrow fuel end) schema f v.

(** ** Columns to values *)

Definition avroScalarFromArrow (type : avro_primitive) (logical : avro_logical) (v : value) : result avro_error value :=
  let number := match toInt64 v with Some n => Ok n | None => Err NotAnIntegerValue end in
  match type with
  | PInt =>
      let* n := number in
      match logical with
      | LDate => Ok (VTime (int64 (n * 86400) * Second))
      | LTimeMillis => Ok (VDuration (int64 (n * Millisecond)))
      | _ => Ok (VInt KInt n)
      end
  | PLong =>
      let* n := number in
      match logical with
      | LTimeMicros => Ok (VDuration (int64 (n * 1000)))
      | LTimestampMillis | LLocalTimestampMillis => Ok (VTime (n * Millisecond))
      | LTimestampMicros | LLocalTimestampMicros => Ok (VTime (n * 1000))
      | _ => Ok (VInt KInt64 n)
      end
  | PFloat => match v with VFloat32 _ => Ok v | _ => Err NotAFloat end
  | PDouble => match v with VFloat64 _ => Ok v | _ => Err NotADouble end
  | PBoolean => Ok v
  | PString => Ok (VString (stringOf v))
  | PBytes => match logical with LDecimal _ _ => Ok v | _ => match v with VBytes _ => Ok v | _ => Err NotBytes end end
  | PNull => Ok v
  end.

(** The first name whose column of the struct is not null. *)
Fixpoint first_present (names : list bytes) (entries : list (bytes * value)) : option (bytes * value) :=
  match names with
  | [] => None
  | name :: names => match map_lookup name entries with VNil => first_present names entries | v => Some (name, v) end
  end.

Definition no_field : nested_field := plain [] (NScalar (TOther 0)) false.

Section Step.
Context (refer : avro_schema → nested_field → value → result avro_error value).

Fixpoint avroFromArrow_step (schema : avro_schema) (f : nested_field) (v : value) {struct schema} : result avro_error value :=
  match schema with
  | ARef target => match resolve env target with Some schema => refer schema f v | None => Err (DanglingReference target) end
  | AUnion types =>
      match v with
      | VNil => Ok VNil
      | _ =>
          let names := branch_names types in
          if is_tagged f MetadataAvroUnion then
            match v with
            | VMap entries =>
                match first_present names entries with
                | None => Ok VNil
                | Some (name, branchValue) =>
                    match branch_call (λ s, avroFromArrow_step s (default no_field (structChild f name)) branchValue) name types with
                    | Some r => r
                    | None => Err Panics
                    end
                end
            | _ => Err (ValueNotStruct (nf_Name f))
            end
          else
            match names with
            | name :: _ => match branch_call (λ s, avroFromArrow_step s f v) name types with Some r => r | None => Err Panics end
            | [] => Err Panics
            end
      end
  | _ =>
      match v with
      | VNil => Ok VNil
      | _ =>
          if is_tagged f MetadataJSON then
            match v with VString text => avroJSONParse env text schema | _ => Err (ValueNotText (nf_Name f)) end
          else
            match schema with
            | ARecord _ fields =>
                match v, nf_Type f with
                | VMap entries, NStruct children =>
                    let* values := convert_fields (λ s column v, avroFromArrow_step s column v) entries fields children in
                    Ok (VMap (fold_left (λ m e, map_insert e.1 e.2 m) values []))
                | VMap _, _ => Err Panics
                | _, _ => Err (ValueNotStruct (nf_Name f))
                end
            | AEnum _ _ => Ok (VString (stringOf v))
            | AFixed _ size logical => match logical with LDecimal _ _ => Ok v | _ => toFixedArray v size end
            | AArray items =>
                match v, nf_Type f with
                | VList ws, NList item => let* vs := map_results (avroFromArrow_step items item) ws in Ok (VList vs)
                | VList _, _ => Err Panics
                | _, _ => Err (ValueNotList (nf_Name f))
                end
            | AMap values =>
                match v, nf_Type f with
                | VMap entries, NMap _ item =>
                    let* vs := map_results (λ e, let* v := avroFromArrow_step values (plain (str "value") item true) e.2 in Ok (e.1, v)) entries in
                    Ok (VMap vs)
                | VMap _, _ => Err Panics
                | _, _ => Err (ValueNotMap (nf_Name f))
                end
            | APrimitive type logical => avroScalarFromArrow type logical v
            | _ => Err CannotConvertBack
            end
      end
  end.
End Step.

Fixpoint avroFromArrow (fuel : nat) (schema : avro_schema) (f : nested_field) (v : value) : result avro_error value :=
  avroFromArrow_step (match fuel with O => λ _ _ _, Err OutOfFuel | S fuel => avroFromArrow fuel end) schema f v.
End Convert.

(** ** The bridge *)

(** The reader schema is a record: its name, its fields, and the types that it defines. *)
Record AvroRowBridge := MkAvroBridge {
  ab_env : list (bytes * avro_schema);
  ab_reader : list (bytes * avro_schema);
  ab_fields : list nested_field
}.

Definition NewAvroRowBridge (schema : avro_schema) : result avro_error AvroRowBridge :=
  match schema with
  | ARecord _ fields => let* columns := avroTopLevelFields schema in Ok (MkAvroBridge (named_schemas schema) fields columns)
  | _ => Err NotARecordSchema
  end.

Definition bridge_schema (b : AvroRowBridge) : list field := map erase_field (ab_fields b).

Section Rows.
Context {L : ArrowLib} {J : JsonText} {A : AvroText}.

(** Each descent of a conversion that follows a reference enters a field of a nested type. *)
Definition convert_fuel (f : nested_field) : nat := S (type_depth (nf_Type f)).

Definition avro_write_cell (env : list (bytes * avro_schema)) (schema : avro_schema) (f : nested_field) (row : value) : result avro_error cell :=
  match row with
  | VMap entries =>
      let* converted := avroToArrow env (convert_fuel f) schema f (map_lookup (nf_Name f) entries) in
      rmap_err AppendFailed (appendGoValue (erase (nf_Type f)) converted)
  | _ => Err RowNotRecord
  end.

(** The fields of the reader and the columns are in the same order. A record without columns has no rows. *)
Definition avro_RowsToBatch (b : AvroRowBridge) (rows : list value) : result avro_error frame :=
  let* columns := map_results (λ p, let* cells := map_results (avro_write_cell (ab_env b) p.1.2 p.2) rows in
                                    Ok (MkColumn (erase (nf_Type p.2)) cells)) (zip (ab_reader b) (ab_fields b)) in
  Ok (MkFrame (bridge_schema b) columns (if decide (ab_fields b = []) then 0%nat else length rows)).

Definition column_of (batch : frame) (f : nested_field) : result avro_error column :=
  match FieldIndices batch (nf_Name f) with
  | [] => Err (NoArrowColumn (nf_Name f))
  | i :: _ => match fr_Columns batch !! i with Some c => Ok c | None => Err Panics end
  end.

Definition avro_read_row (b : AvroRowBridge) (columns : list column) (row : nat) : result avro_error value :=
  let* entries := map_results (λ p,
    let* v := avroFromArrow (ab_env b) (convert_fuel p.1.2) p.1.1.2 p.1.2 (arrowValue (col_Type p.2) (cell_at p.2 row)) in
    Ok (nf_Name p.1.2, v)) (zip (zip (ab_reader b) (ab_fields b)) columns) in
  Ok (VMap (fold_left (λ m e, map_insert e.1 e.2 m) entries [])).

Definition avro_BatchToRows (b : AvroRowBridge) (batch : frame) : result avro_error (list value) :=
  let* columns := map_results (column_of batch) (ab_fields b) in
  map_results (avro_read_row b columns) (seq 0 (fr_NumRows batch)).
End Rows.
