(* ===== verification/AvroEnds.v ===== *)
(** * The conversions of the Avro bridge end

    Following a reference costs one step of fuel. The translation of a schema has as many as the schema has named types, and
    the conversions as many as the nested type, the value or the document is deep: none runs out, for any input. *)

From S2P Require Import Prelude GoStd GoNet GoFloat Kafka Json Value Cells Frames JsonBridge Nested Avro.

#[local] Open Scope Z_scope.

(** ** Results that ended *)

Definition ends {X} (r : result avro_error X) : Prop := r ≠ Err OutOfFuel.

Lemma ends_bind {X Y} (m : result avro_error X) (k : X → result avro_error Y) :
  ends m → (∀ x, ends (k x)) → ends (let* x := m in k x).
Proof. destruct m as [x|e]; cbn [rbind]; [auto|]. intros H _ [= ->]. by destruct H. Qed.

Lemma ends_bind_ok {X Y} (m : result avro_error X) (k : X → Y) : ends m → ends (let* x := m in Ok (k x)).
Proof. intros H. by apply ends_bind. Qed.

Lemma ends_map_results {X Y} (f : X → result avro_error Y) l : (∀ x, x ∈ l → ends (f x)) → ends (map_results f l).
Proof.
  induction l as [|x l IH]; intros H; [done|]. cbn [map_results]. apply ends_bind; [apply H, list_elem_of_here|]. intros y.
  apply ends_bind_ok, IH. intros z Hz. by apply H, list_elem_of_further.
Qed.

Lemma branch_call_some {X} (call : avro_schema → X) name types r :
  branch_call call name types = Some r → ∃ b, b ∈ types ∧ r = call b.
Proof.
  revert r. induction types as [|b types IH]; intros r; [done|]. cbn [branch_call].
  fold (branch_call call name). destruct (branch_call call name types) as [x|].
  - intros [= <-]. destruct (IH x eq_refl) as (b' & Hb & ->). exists b'. split; [by apply list_elem_of_further|done].
  - case_match; [|done]. intros [= <-]. exists b. split; [apply list_elem_of_here|done].
Qed.

Lemma ends_branch {X} (call : avro_schema → result avro_error X) name types (other : result avro_error X) :
  (∀ b, b ∈ types → ends (call b)) → ends other →
  ends (match branch_call call name types with Some r => r | None => other end).
Proof. intros H Ho. destruct (branch_call call name types) as [r|] eqn:Hr; [|done]. by apply branch_call_some in Hr as (b & Hb & ->); auto. Qed.

Create HintDb ends.
#[export] Hint Resolve ends_bind ends_bind_ok ends_map_results ends_branch : ends.
#[export] Hint Extern 1 (ends (Ok _)) => discriminate : ends.
#[export] Hint Extern 1 (ends (Err _)) => discriminate : ends.

(** ** Named types *)

Definition name_of (s : avro_schema) : option bytes :=
  match s with AFixed name _ _ | AEnum name _ | ARecord name _ => Some name | _ => None end.

Definition consistent (env : list (bytes * avro_schema)) : Prop := Forall (λ e, name_of e.2 = Some e.1) env.

Lemma named_consistent s : consistent (named_schemas s).
Proof.
  unfold consistent. induction s as [p l|n z l|n ss|n fields IH|s IH|s IH|types IH|n] using avro_nested_ind; cbn [named_schemas]; try done; try by repeat constructor.
  - constructor; [done|]. induction IH as [|f fields Hf _ IH]; [constructor|]. cbn [map concat]. by apply Forall_app.
  - induction IH as [|b types Hb _ IH]; [constructor|]. cbn [map concat]. by apply Forall_app.
Qed.

Lemma resolve_named env name s : consistent env → resolve env name = Some s → name_of s = Some name ∧ name ∈ map fst env.
Proof.
  induction 1 as [|[n t] env Hn _ IH]; [done|]. cbn [resolve map fst]. case_decide as Heq; [intros [= <-]; subst; split; [done|apply list_elem_of_here]|].
  intros [H1 H2]%IH. split; [done|by apply list_elem_of_further].
Qed.

(** The descents that a schema may take below depth [d]: a record spends the depth on its fields, and the other named types none. *)
Definition needed (s : avro_schema) (d : nat) : nat :=
  match s with ARecord _ _ => d | AEnum _ _ | AFixed _ _ _ => 0 | _ => S d end.

Lemma needed_le s d : (needed s d ≤ S d)%nat.
Proof. destruct s; cbn; lia. Qed.

Lemma needed_named s d name : name_of s = Some name → (needed s d ≤ d)%nat.
Proof. destruct s; cbn; try done; lia. Qed.

(** ** The JSON text *)

Section JSON.
Context {L : ArrowLib} {J : JsonText} {A : AvroText} (env : list (bytes * avro_schema)).
Hypothesis Henv : consistent env.

Lemma json_Marshal_ends v : ends (json_Marshal v).
Proof.
  induction v as [|b|s|s|k n|b|b|n|q|items IH|entries IH|n|n|items IH|s|] using value_nested_ind; cbn [json_Marshal];
    try (discriminate); unfold number_or_fail; try (by case_match).
  - apply ends_bind_ok, ends_map_results. by apply Forall_forall.
  - apply ends_bind_ok, ends_map_results. intros e He. apply ends_bind_ok. by apply (proj1 (Forall_forall _ _) IH).
  - apply ends_bind_ok, ends_map_results. by apply Forall_forall.
Qed.

Lemma map_lookup_depth name entries : (S (value_depth (map_lookup name entries)) ≤ value_depth (VMap entries))%nat.
Proof.
  cbn [value_depth]. induction entries as [|e entries IH]; cbn [map_lookup map fold_right]; [cbn; lia|]. case_decide; lia.
Qed.

Lemma list_depth v items : v ∈ items → (S (value_depth v) ≤ value_depth (VList items))%nat.
Proof. intros H. exact (plus_max_elem value_depth v items H). Qed.

Lemma entry_depth e entries : e ∈ entries → (S (value_depth e.2) ≤ value_depth (VMap entries))%nat.
Proof. intros H. exact (plus_max_elem (λ e, value_depth e.2) e entries H). Qed.

Lemma unwrap_depth v names branch : unwrapUnion v names = Some branch → (S (value_depth branch.2) ≤ value_depth v)%nat.
Proof. destruct v as [| | | | | | | | | |[|[k v] [|]]| | | | |]; try done. cbn [unwrapUnion]. case_decide; [|done]. intros [= <-]. cbn. lia. Qed.

Lemma bytes_ends v : ends (writeAvroJSONBytes v).
Proof. by destruct v. Qed.

Lemma write_step_ends refer s v :
  (∀ target t w, resolve env target = Some t → (S (value_depth w) ≤ needed s (value_depth v))%nat → ends (refer t w)) →
  ends (writeAvroJSON_step env refer s v).
Proof.
  revert v. induction s as [p l|n z l|n ss|n fields IH|s IH|s IH|types IH|n] using avro_nested_ind; intros v Hr; cbn [writeAvroJSON_step].
  - destruct l, p; try discriminate; first [apply json_Marshal_ends|apply bytes_ends].
  - destruct l; try discriminate; apply bytes_ends.
  - discriminate.
  - destruct v; try discriminate. apply ends_bind_ok, ends_map_results. intros f Hf. apply ends_bind_ok.
    apply (proj1 (Forall_forall _ _) IH f Hf). intros target t w Ht Hw. apply (Hr target); [done|].
    pose proof (map_lookup_depth f.1 entries). pose proof (needed_le f.2 (value_depth (map_lookup f.1 entries))). cbn [needed] in *. lia.
  - destruct v; try discriminate. apply ends_bind_ok, ends_map_results. intros x Hx. apply IH. intros target t w Ht Hw. apply (Hr target); [done|].
    pose proof (list_depth _ _ Hx). pose proof (needed_le s (value_depth x)). cbn [needed] in *. lia.
  - destruct v; try discriminate. apply ends_bind_ok, ends_map_results. intros e He. apply ends_bind_ok, IH. intros target t w Ht Hw. apply (Hr target); [done|].
    pose proof (entry_depth _ _ He). pose proof (needed_le s (value_depth e.2)). cbn [needed] in *. lia.
  - assert (∀ branch, (value_depth branch.2 ≤ value_depth v)%nat → ends (match branch_call (λ s, writeAvroJSON_step env refer s branch.2) branch.1 types with
      | Some j => let* j := j in Ok (JObject [(coerce_utf8 branch.1, j)]) | None => Err Panics end)) as Hb.
    { intros branch Hd. destruct (branch_call _ branch.1 types) as [r|] eqn:Hc; [|discriminate]. apply branch_call_some in Hc as (b & Hb & ->).
      apply ends_bind_ok. apply (proj1 (Forall_forall _ _) IH b Hb). intros target t w Ht Hw. apply (Hr target); [done|].
      pose proof (needed_le b (value_depth branch.2)). cbn [needed]. lia. }
    assert (ends (let* branch := match unwrapUnion v (branch_names types) with
                    | Some branch => Ok branch
                    | None => match branch_names types with [name] => Ok (name, v) | _ => Err (NoUnionBranch []) end
                    end in
             match branch_call (λ s, writeAvroJSON_step env refer s branch.2) branch.1 types with
             | Some j => let* j := j in Ok (JObject [(coerce_utf8 branch.1, j)])
             | None => Err Panics
             end)) as Hu.
    { destruct (unwrapUnion v (branch_names types)) as [branch|] eqn:Hw; cbn [rbind].
      - apply Hb. apply unwrap_depth in Hw. lia.
      - destruct (branch_names types) as [|name [|]]; try discriminate. by apply (Hb (name, v)). }
    destruct v; [discriminate|exact Hu..].
  - destruct (resolve env n) as [t|] eqn:Ht; [|discriminate]. by apply (Hr n).
Qed.

Lemma writeAvroJSON_ends fuel s v : (needed s (value_depth v) ≤ fuel)%nat → ends (writeAvroJSON env fuel s v).
Proof.
  revert s v. induction fuel as [|fuel IH]; intros s v Hf; cbn [writeAvroJSON]; apply write_step_ends; intros target t w Ht Hw; [lia|].
  apply IH. apply resolve_named in Ht as [Hn _]; [|done]. pose proof (needed_named t (value_depth w) target Hn). lia.
Qed.

Lemma avroJSONText_ends s v : ends (avroJSONText env v s).
Proof. apply ends_bind_ok, writeAvroJSON_ends, needed_le. Qed.

Lemma member_elem members name j : member members name = Some j → ∃ m, m ∈ members ∧ m.2 = j.
Proof.
  induction members as [|[k v] members IH]; [done|]. cbn [member]. destruct (member members name) as [w|].
  - intros [= <-]. destruct (IH eq_refl) as (m & Hm & <-). exists m. split; [by apply list_elem_of_further|done].
  - case_decide; [|done]. intros [= <-]. exists (k, v). split; [apply list_elem_of_here|done].
Qed.

Lemma object_member_depth members name : (S (json_depth (object_member members name)) ≤ json_depth (JObject members))%nat.
Proof.
  unfold object_member. destruct (member members name) as [j|] eqn:Hm; [|cbn; unfold plus_max; lia].
  apply member_elem in Hm as (m & Hm & <-). exact (plus_max_elem (λ m, json_depth m.2) m members Hm).
Qed.

Lemma array_depth j items : j ∈ items → (S (json_depth j) ≤ json_depth (JArray items))%nat.
Proof. intros H. exact (plus_max_elem json_depth j items H). Qed.

Lemma number_ends document : ends (jsonNumber document).
Proof. by destruct document. Qed.
Lemma Int64_ends literal : ends (number_Int64 literal).
Proof. unfold number_Int64. by case_match. Qed.
Lemma Float64_ends literal : ends (number_Float64 literal).
Proof. unfold number_Float64. by case_match. Qed.
Lemma json_bytes_ends document : ends (avroJSONBytes document).
Proof. destruct document; try discriminate. cbn. by case_match. Qed.
Lemma fixed_ends v size : ends (toFixedArray v size).
Proof. destruct v; try discriminate. cbn. by case_match. Qed.

Lemma read_primitive_ends p document : ends (readAvroJSONPrimitive p document).
Proof.
  destruct p; cbn [readAvroJSONPrimitive]; try discriminate;
    first [apply ends_bind_ok, json_bytes_ends|apply ends_bind; [apply number_ends|]; intros literal; apply ends_bind_ok; first [apply Int64_ends|apply Float64_ends]].
Qed.

Lemma read_step_ends refer s document :
  (∀ target t d, resolve env target = Some t → (S (json_depth d) ≤ needed s (json_depth document))%nat → ends (refer t d)) →
  ends (readAvroJSON_step env refer s document).
Proof.
  revert document. induction s as [p l|n z l|n ss|n fields IH|s IH|s IH|types IH|n] using avro_nested_ind; intros document Hr; cbn [readAvroJSON_step].
  - apply read_primitive_ends.
  - apply ends_bind; [apply json_bytes_ends|]. intros data. apply fixed_ends.
  - discriminate.
  - destruct document; try discriminate. apply ends_bind_ok, ends_map_results. intros f Hf. apply ends_bind_ok.
    apply (proj1 (Forall_forall _ _) IH f Hf). intros target t w Ht Hw. apply (Hr target); [done|].
    pose proof (object_member_depth members f.1). pose proof (needed_le f.2 (json_depth (object_member members f.1))). cbn [needed] in *. lia.
  - destruct document; try discriminate. apply ends_bind_ok, ends_map_results. intros x Hx. apply IH. intros target t w Ht Hw. apply (Hr target); [done|].
    pose proof (array_depth _ _ Hx). pose proof (needed_le s (json_depth x)). cbn [needed] in *. lia.
  - destruct document; try discriminate. apply ends_bind_ok, ends_map_results. intros key _. apply ends_bind_ok, IH. intros target t w Ht Hw. apply (Hr target); [done|].
    pose proof (object_member_depth members key). pose proof (needed_le s (json_depth (object_member members key))). cbn [needed] in *. lia.
  - destruct document; try discriminate. destruct (object_keys members) as [|name [|]]; try discriminate.
    apply ends_branch; [|discriminate]. intros b Hb. apply (proj1 (Forall_forall _ _) IH b Hb). intros target t w Ht Hw. apply (Hr target); [done|].
    pose proof (object_member_depth members name). pose proof (needed_le b (json_depth (object_member members name))). cbn [needed] in *. lia.
  - destruct (resolve env n) as [t|] eqn:Ht; [|discriminate]. by apply (Hr n).
Qed.

Lemma readAvroJSON_ends fuel s document : (needed s (json_depth document) ≤ fuel)%nat → ends (readAvroJSON env fuel s document).
Proof.
  revert s document. induction fuel as [|fuel IH]; intros s document Hf; cbn [readAvroJSON]; apply read_step_ends; intros target t w Ht Hw; [lia|].
  apply IH. apply resolve_named in Ht as [Hn _]; [|done]. pose proof (needed_named t (json_depth w) target Hn). lia.
Qed.

Lemma avroJSONParse_ends text s : ends (avroJSONParse env text s).
Proof. unfold avroJSONParse. destruct (json_first text); [|discriminate]. apply readAvroJSON_ends, needed_le. Qed.
End JSON.

(** ** Columns and values *)

Section Convert.
Context {L : ArrowLib} {J : JsonText} {A : AvroText} (env : list (bytes * avro_schema)).
Hypothesis Henv : consistent env.

Lemma require_ends v f : ends (requireNullable v f).
Proof. unfold requireNullable. by case_match. Qed.

Lemma convert_fields_ends convert entries fields children :
  (∀ s column v, s ∈ map snd fields → column ∈ children → ends (convert s column v)) →
  ends (convert_fields convert entries fields children).
Proof.
  revert children. induction fields as [|f fields IH]; intros children H; [discriminate|]. destruct children as [|column children]; [discriminate|].
  cbn [convert_fields]. apply ends_bind; [apply H; apply list_elem_of_here|]. intros w. apply ends_bind_ok, IH.
  intros s c v Hs Hc. apply H; by apply list_elem_of_further.
Qed.

Lemma child_depth child children : child ∈ children → (S (type_depth (nf_Type child)) ≤ type_depth (NStruct children))%nat.
Proof. intros H. exact (plus_max_elem (λ child, type_depth (nf_Type child)) child children H). Qed.

Lemma find_child_elem children name child : find_child children name = Some child → child ∈ children.
Proof.
  induction children as [|c children IH]; [done|]. cbn [find_child]. case_decide; [intros [= ->]; apply list_elem_of_here|].
  intros H1. by apply list_elem_of_further, IH.
Qed.

Lemma structChild_depth f name child : structChild f name = Some child → (S (type_depth (nf_Type child)) ≤ type_depth (nf_Type f))%nat.
Proof. unfold structChild. destruct (nf_Type f); try done. intros H%find_child_elem. by apply child_depth. Qed.

(** What a descent may do at a reference below it. *)
Definition allows (s : avro_schema) (f : nested_field) (refer : avro_schema → nested_field → value → result avro_error value) : Prop :=
  ∀ target t g w, resolve env target = Some t → (S (type_depth (nf_Type g)) ≤ needed s (type_depth (nf_Type f)))%nat → ends (refer t g w).

Lemma allows_below s f s' f' refer :
  (S (type_depth (nf_Type f')) ≤ needed s (type_depth (nf_Type f)))%nat → allows s f refer → allows s' f' refer.
Proof. intros Hd H target t g w Ht Hg. apply (H target); [done|]. pose proof (needed_le s' (type_depth (nf_Type f'))). lia. Qed.

Ltac below := eapply allows_below; [|eassumption]; cbn [needed nf_Type plain].

Lemma struct_below full fields children f child :
  nf_Type f = NStruct children → child ∈ children →
  (S (type_depth (nf_Type child)) ≤ needed (ARecord full fields) (type_depth (nf_Type f)))%nat.
Proof. intros -> H. by apply child_depth. Qed.

(** Either direction over the columns of a record, the items of a list and the entries of a map. *)
Lemma record_ends (convert : avro_schema → nested_field → value → result avro_error value) full fields entries children f refer :
  Forall (λ c, ∀ f v, allows c.2 f refer → ends (convert c.2 f v)) fields → nf_Type f = NStruct children →
  allows (ARecord full fields) f refer →
  ends (let* values := convert_fields convert entries fields children in Ok (VMap (fold_left (λ m e, map_insert e.1 e.2 m) values []))).
Proof.
  intros IH Ht Hr. apply ends_bind_ok, convert_fields_ends. intros s column w (c & -> & Hc)%list_elem_of_fmap Hcol.
  apply (proj1 (Forall_forall _ _) IH c Hc). below. by apply (struct_below full fields children).
Qed.

Lemma items_ends (convert : avro_schema → nested_field → value → result avro_error value) s vs item f refer :
  (∀ f v, allows s f refer → ends (convert s f v)) → nf_Type f = NList item → allows (AArray s) f refer →
  ends (let* ws := map_results (convert s item) vs in Ok (VList ws)).
Proof. intros IH Ht Hr. apply ends_bind_ok, ends_map_results. intros x _. apply IH. below. rewrite Ht. cbn [type_depth]. lia. Qed.

Lemma entries_ends (convert : avro_schema → nested_field → value → result avro_error value) s (entries : list (bytes * value)) key item f refer :
  (∀ f v, allows s f refer → ends (convert s f v)) → nf_Type f = NMap key item → allows (AMap s) f refer →
  ends (let* ws := map_results (λ e, let* w := convert s (plain (str "value") item true) e.2 in Ok (e.1, w)) entries in Ok (VMap ws)).
Proof. intros IH Ht Hr. apply ends_bind_ok, ends_map_results. intros e _. apply ends_bind_ok, IH. below. rewrite Ht. cbn [type_depth]. lia. Qed.

Lemma text_ends s v : ends (let* text := avroJSONText env v s in Ok (VString text)).
Proof. apply ends_bind_ok. by apply avroJSONText_ends. Qed.

Lemma to_step_ends refer s f v : allows s f refer → ends (avroToArrow_step env refer s f v).
Proof.
  revert f v. induction s as [p l|n z l|n ss|n fields IH|s IH|s IH|types IH|n] using avro_nested_ind; intros f v Hr; cbn [avroToArrow_step].
  1-6: destruct v; [apply require_ends|..]; (destruct (is_tagged f MetadataJSON); [apply text_ends|]); try discriminate.
  1-15: destruct l; discriminate.
  - destruct (nf_Type f) eqn:Ht; try discriminate. by apply (record_ends (λ s column v, avroToArrow_step env refer s column v) n fields _ _ f refer).
  - destruct (nf_Type f) eqn:Ht; try discriminate. by apply (items_ends (λ s column v, avroToArrow_step env refer s column v) s _ _ f refer).
  - destruct (nf_Type f) eqn:Ht; try discriminate. by apply (entries_ends (λ s column v, avroToArrow_step env refer s column v) s _ key _ f refer).
  - assert (∀ name g w, (type_depth (nf_Type g) ≤ type_depth (nf_Type f))%nat →
      ends (match branch_call (λ s, avroToArrow_step env refer s g w) name types with Some r => r | None => Err Panics end)) as Hb.
    { intros name g w Hg. apply ends_branch; [|discriminate]. intros b Hb. apply (proj1 (Forall_forall _ _) IH b Hb). below. pose proof (needed_le b 0). lia. }
    destruct (is_tagged f MetadataAvroUnion); (destruct v; [apply require_ends|..]).
    1-15: (destruct (resolveUnionBranch env _ types) as [[name w]|]; [|discriminate]; destruct (structChild f name) as [child|] eqn:Hc; [|discriminate];
      apply structChild_depth in Hc; pose proof (Hb name child w ltac:(lia)) as H; destruct (branch_call _ name types); [by apply ends_bind_ok|discriminate]).
    all: destruct (unwrapUnion _ _) as [[name w]|]; [by apply Hb|]; destruct (branch_names types); [discriminate|by apply Hb].
  - destruct (resolve env n) as [t|] eqn:Ht; [|discriminate]. apply (Hr n); [done|]. cbn [needed]. lia.
Qed.

Lemma scalar_ends p l v : ends (avroScalarFromArrow p l v).
Proof. destruct p; cbn [avroScalarFromArrow]; try (destruct v; discriminate); destruct (toInt64 v); cbn [rbind]; destruct l; try discriminate; by destruct v. Qed.

Lemma from_step_ends refer s f v : allows s f refer → ends (avroFromArrow_step env refer s f v).
Proof.
  revert f v. induction s as [p l|n z l|n ss|n fields IH|s IH|s IH|types IH|n] using avro_nested_ind; intros f v Hr; cbn [avroFromArrow_step].
  1-6: destruct v; [discriminate|..]; (destruct (is_tagged f MetadataJSON); [first [discriminate|by apply avroJSONParse_ends]|]);
    try discriminate; try apply scalar_ends.
  1-15: destruct l; try discriminate; apply fixed_ends.
  - destruct (nf_Type f) eqn:Ht; try discriminate. by apply (record_ends (λ s column v, avroFromArrow_step env refer s column v) n fields _ _ f refer).
  - destruct (nf_Type f) eqn:Ht; try discriminate. by apply (items_ends (λ s column v, avroFromArrow_step env refer s column v) s _ _ f refer).
  - destruct (nf_Type f) eqn:Ht; try discriminate. by apply (entries_ends (λ s column v, avroFromArrow_step env refer s column v) s _ key _ f refer).
  - assert (∀ name g w, (type_depth (nf_Type g) ≤ type_depth (nf_Type f))%nat →
      ends (match branch_call (λ s, avroFromArrow_step env refer s g w) name types with Some r => r | None => Err Panics end)) as Hb.
    { intros name g w Hg. apply ends_branch; [|discriminate]. intros b Hb. apply (proj1 (Forall_forall _ _) IH b Hb). below. pose proof (needed_le b 0). lia. }
    destruct v; [discriminate|..]; (destruct (is_tagged f MetadataAvroUnion); [try discriminate|destruct (branch_names types); [discriminate|by apply Hb]]).
    destruct (first_present _ _) as [[name w]|]; [|discriminate]. apply Hb. destruct (structChild f name) as [child|] eqn:Hc; cbn [default]; unfold id.
    + apply structChild_depth in Hc. lia.
    + cbn. lia.
  - destruct (resolve env n) as [t|] eqn:Ht; [|discriminate]. apply (Hr n); [done|]. cbn [needed]. lia.
Qed.

Lemma avroToArrow_ends fuel s f v : (needed s (type_depth (nf_Type f)) ≤ fuel)%nat → ends (avroToArrow env fuel s f v).
Proof.
  revert s f v. induction fuel as [|fuel IH]; intros s f v Hf; cbn [avroToArrow]; apply to_step_ends; intros target t g w Ht Hw; [lia|].
  apply IH. apply resolve_named in Ht as [Hn _]; [|done]. pose proof (needed_named t (type_depth (nf_Type g)) target Hn). lia.
Qed.

Lemma avroFromArrow_ends fuel s f v : (needed s (type_depth (nf_Type f)) ≤ fuel)%nat → ends (avroFromArrow env fuel s f v).
Proof.
  revert s f v. induction fuel as [|fuel IH]; intros s f v Hf; cbn [avroFromArrow]; apply from_step_ends; intros target t g w Ht Hw; [lia|].
  apply IH. apply resolve_named in Ht as [Hn _]; [|done]. pose proof (needed_named t (type_depth (nf_Type g)) target Hn). lia.
Qed.
End Convert.

(** ** Columns of a schema *)

Section Fields.
Context (env : list (bytes * avro_schema)).
Hypothesis Henv : consistent env.

(** The named types that the field is not within. *)
Definition remaining (visiting : list bytes) : nat := length (filter (λ e, e.1 ∉ visiting) env).

Definition entered (s : avro_schema) (visiting : list bytes) : list bytes :=
  match s with ARecord full _ => visiting ++ [full] | _ => visiting end.

Lemma remaining_sub visiting visiting' : visiting ⊆ visiting' → (remaining visiting' ≤ remaining visiting)%nat.
Proof. intros H. apply submseteq_length, sublist_submseteq. unfold remaining. clear Henv. induction env as [|e l IH]; [done|].
  rewrite !filter_cons. repeat case_decide; [by constructor|set_solver|by constructor|done]. Qed.

Lemma remaining_enter visiting full : full ∈ map fst env → full ∉ visiting → (remaining (visiting ++ [full]) < remaining visiting)%nat.
Proof.
  unfold remaining. clear Henv. intros Hin Hv. induction env as [|e l IH]; [by apply elem_of_nil in Hin|].
  assert (length (filter (λ e, e.1 ∉ visiting ++ [full]) l) ≤ length (filter (λ e, e.1 ∉ visiting) l))%nat as Hle.
  { clear. induction l as [|x l IH]; [done|]. rewrite !filter_cons. repeat case_decide; cbn [length]; [lia|set_solver|lia|lia]. }
  cbn [map] in Hin. rewrite !filter_cons. apply elem_of_cons in Hin as [->|Hin].
  - rewrite decide_False by set_solver. rewrite decide_True by done. cbn [length]. lia.
  - apply IH in Hin. repeat case_decide; cbn [length]; [lia|set_solver|lia|lia].
Qed.

Lemma decimal_ends name precision scale : ends (avroDecimalType name precision scale).
Proof. unfold avroDecimalType. by repeat case_match. Qed.

Lemma only_branch_ends {X} (call : avro_schema → result avro_error X) none types :
  (∀ b, b ∈ types → ends (call b)) → ends none → ends (only_branch call none types).
Proof.
  intros H Hn. induction types as [|b types IH]; [done|]. cbn [only_branch]. destruct (is_null b).
  - apply IH. intros c Hc. by apply H, list_elem_of_further.
  - apply H, list_elem_of_here.
Qed.

Lemma branch_fields_ends call name types names : (∀ b, b ∈ types → ends (call b)) → ends (branch_fields call name types names).
Proof.
  revert names. induction types as [|b types IH]; intros names H; [discriminate|].
  assert (∀ c, c ∈ types → ends (call c)) as Ht by (intros c Hc; by apply H, list_elem_of_further).
  cbn [branch_fields]. destruct (is_null b); [by apply IH|]. apply ends_bind; [apply H, list_elem_of_here|]. intros child.
  case_decide; [discriminate|]. apply ends_bind_ok. by apply IH.
Qed.

Lemma field_step_ends refer name s nullable visiting :
  (∀ target t n b visiting', resolve env target = Some t → (∀ full fields, t = ARecord full fields → full ∉ visiting') →
     entered s visiting ⊆ visiting' → ends (refer n t b visiting')) →
  ends (avroField_step env refer name s nullable visiting).
Proof.
  revert name nullable visiting. induction s as [p l|n z l|n ss|n fields IH|s IH|s IH|types IH|n] using avro_nested_ind; intros name nullable visiting Hr; cbn [avroField_step].
  - destruct p; cbn [avroPrimitiveField]; try discriminate; destruct l; try discriminate; apply ends_bind_ok, decimal_ends.
  - destruct l; try discriminate; apply ends_bind_ok, decimal_ends.
  - discriminate.
  - case_decide; [discriminate|]. apply ends_bind_ok, ends_map_results. intros f Hf. apply (proj1 (Forall_forall _ _) IH f Hf).
    intros target t m b visiting' Ht Hn Hv. apply (Hr target); [done|done|]. etransitivity; [|exact Hv]. destruct f.2; cbn [entered]; set_solver.
  - apply ends_bind_ok, IH. intros target t m b visiting' Ht Hn Hv. apply (Hr target); [done|done|]. etransitivity; [|exact Hv]. destruct s; cbn [entered]; set_solver.
  - apply ends_bind_ok, IH. intros target t m b visiting' Ht Hn Hv. apply (Hr target); [done|done|]. etransitivity; [|exact Hv]. destruct s; cbn [entered]; set_solver.
  - assert (∀ branch, branch ∈ types → ∀ name nullable, ends (avroField_step env refer name branch nullable visiting)) as Hb.
    { intros branch Hb m c. apply (proj1 (Forall_forall _ _) IH branch Hb). intros target t k b visiting' Ht Hn Hv. apply (Hr target); [done|done|].
      etransitivity; [|exact Hv]. destruct branch; cbn [entered]; set_solver. }
    destruct (branch_names types) as [|? [|]]; [discriminate|apply only_branch_ends; [|discriminate]; intros branch Hin; by apply Hb|].
    apply ends_bind_ok, branch_fields_ends. intros branch Hin. by apply Hb.
  - destruct (resolve env n) as [t|] eqn:Ht; [|discriminate]. cbn [entered] in Hr.
    destruct t; try (by apply (Hr n)). case_decide; [discriminate|]. apply (Hr n); [done|by intros ? ? [= <- <-]|done].
Qed.

Lemma avroField_ends fuel name s nullable visiting :
  (remaining (entered s visiting) < fuel)%nat ∨ (∃ full z l, s = AFixed full z l) ∨ (∃ full ss, s = AEnum full ss) →
  ends (avroField env fuel name s nullable visiting).
Proof.
  revert name s nullable visiting. induction fuel as [|fuel IH]; intros name s nullable visiting Hf.
  - destruct Hf as [?|[(full & z & l & ->)|(full & ss & ->)]]; [lia|destruct l|]; try discriminate. cbn. apply ends_bind_ok, decimal_ends.
  - destruct Hf as [Hf|[(full & z & l & ->)|(full & ss & ->)]]; [|destruct l; try discriminate; cbn; apply ends_bind_ok, decimal_ends|discriminate].
    cbn [avroField]. apply field_step_ends. intros target t n b visiting' Ht Hn Hv. apply IH.
    apply resolve_named in Ht as [Hname Hin]; [|done]. destruct t as [|f z l|f ss|f fields| | | |]; try discriminate Hname; [naive_solver|naive_solver|].
    left. cbn [entered name_of] in *. injection Hname as ->. pose proof (remaining_enter visiting' target Hin (Hn _ _ eq_refl)).
    apply remaining_sub in Hv. lia.
Qed.

Lemma field_fuel_ends name s nullable visiting : ends (avroField env (field_fuel env) name s nullable visiting).
Proof. apply avroField_ends. left. unfold field_fuel, remaining. apply Nat.lt_succ_r, length_filter. Qed.
End Fields.

(** C19: every conversion of the Avro bridge ends. For every schema, recursive ones included, the translation to columns stops after as many
    references as the schema defines types; and a value of any shape goes to a column of any nested type and back, and to JSON text
    and back, after as many references as the nested type, the value or the document is deep. *)
Theorem conversions_end {L : ArrowLib} {J : JsonText} {A : AvroText} schema :
  let env := named_schemas schema in
  ends (avroTopLevelFields schema) ∧
  (∀ name s nullable visiting, ends (avroField env (field_fuel env) name s nullable visiting)) ∧
  (∀ s f v, ends (avroToArrow env (convert_fuel f) s f v) ∧ ends (avroFromArrow env (convert_fuel f) s f v)) ∧
  (∀ s v, ends (writeAvroJSON env (S (value_depth v)) s v)) ∧
  (∀ s document, ends (readAvroJSON env (S (json_depth document)) s document)).
Proof.
  pose proof (named_consistent schema) as Henv. split_and!.
  - unfold avroTopLevelFields. destruct schema; try (apply ends_bind_ok; by apply field_fuel_ends).
    apply ends_map_results. intros f _. by apply field_fuel_ends.
  - intros. by apply field_fuel_ends.
  - intros s f v. split; [apply avroToArrow_ends|apply avroFromArrow_ends]; try done; apply needed_le.
  - intros s v. apply writeAvroJSON_ends; [done|]. apply needed_le.
  - intros s document. apply readAvroJSON_ends; [done|]. apply needed_le.
Qed.
