(* ===== verification/AvroTrip.v ===== *)
(** * Rows that travel through the columns of an Avro schema

    [returns nullable visiting s v v'] says that [v] is a value of the schema, as the library decodes it, and that [v'] is what comes
    back: the same value, but the bare value of a union branch, the [int] or [int64] of an integer, and a moment at the precision
    of its column. Which branch a value of a union stands for is said by [means], over the table [form] of the Go forms of a schema; what
    comes back of a record within itself, which travels as text, is a parameter here, and [AvroJson] gives it. *)

From Stdlib Require Import QArith.QArith QArith.Qreduction.
From S2P Require Import Prelude GoStd GoNet GoFloat Kafka Json Value Cells Frames JsonBridge Nested Avro AvroEnds.

#[local] Open Scope Z_scope.

(** ** Values of a schema *)

Section Returns.
Context {L : ArrowLib} {J : JsonText} {A : AvroText} (env : list (bytes * avro_schema)).
Context (within : avro_schema → value → value → Prop).

(** A decimal that its column holds at its scale. *)
Definition decimal_returns (precision scale : Z) (v v' : value) : Prop :=
  ∃ q n, v = VRat q ∧ v' = VRat q ∧ Qred q = q ∧ (inject_Z n == q * inject_Z (pow10 (int32 scale)))%Q ∧
    (if 38 <? precision then decimal256_fits n else decimal128_fits n) = true.

Definition moment_returns (unit : time_unit) (v v' : value) : Prop :=
  ∃ m n, v = VTime m ∧ TimestampFromTime m unit = Some n ∧ v' = VTime (int64 n * timeUnitDuration unit).

Definition scalar_returns (p : avro_primitive) (l : avro_logical) (v v' : value) : Prop :=
  match p, l with
  | PBoolean, _ => ∃ b, v = VBool b ∧ v' = v
  | PInt, LDate => ∃ m, v = VTime m ∧ v' = VTime (int64 (int32 (Date32FromTime m) * 86400) * Second)
  | PInt, LTimeMillis => ∃ d, v = VDuration d ∧ v' = VDuration (int64 (int32 (Z.quot d Millisecond) * Millisecond))
  | PInt, _ => ∃ k n, v = VInt k n ∧ (k = KInt ∨ k = KInt32) ∧ inS 32 n ∧ v' = VInt KInt n
  | PLong, LTimeMicros => ∃ d, v = VDuration d ∧ v' = VDuration (int64 (int64 (Z.quot d 1000) * 1000))
  | PLong, (LTimestampMillis | LLocalTimestampMillis) => moment_returns UnitMillisecond v v'
  | PLong, (LTimestampMicros | LLocalTimestampMicros) => moment_returns UnitMicrosecond v v'
  | PLong, _ => ∃ k n, v = VInt k n ∧ (k = KInt ∨ k = KInt64) ∧ inS 64 n ∧ v' = VInt KInt64 n
  | PFloat, _ => ∃ bits, v = VFloat32 bits ∧ round32 bits = bits ∧ v' = v
  | PDouble, _ => ∃ bits, v = VFloat64 bits ∧ v' = v
  | PBytes, LDecimal precision scale => decimal_returns precision scale v v'
  | PBytes, _ => ∃ s, v = VBytes s ∧ v' = v
  | PString, _ => ∃ s, v = VString s ∧ v' = v
  | PNull, _ => False
  end.

(** The column of the schema is untagged, so that a map may hold it. *)
Fixpoint tag_free (visiting : list bytes) (s : avro_schema) : bool :=
  match s with
  | AUnion types => match branch_names types with [_] => forallb (λ b, is_null b || tag_free visiting b) types | _ => false end
  | ARef t => match resolve env t with Some (ARecord full _) => bool_decide (full ∉ visiting) | _ => true end
  | ARecord full _ => bool_decide (full ∉ visiting)
  | _ => true
  end.

(** A union holds no union. *)
Definition is_union (s : avro_schema) : bool := match s with AUnion _ => true | _ => false end.

Definition struct_value (names : list bytes) (vs : list value) : value :=
  VMap (fold_left (λ m e, map_insert e.1 e.2 m) (zip names vs) []).

(** *** Branches

    The Go forms of a schema: what the library decodes a value of it to. *)
Inductive form : avro_schema → value → Prop :=
| form_ref name s v : resolve env name = Some s → form s v → form (ARef name) v
| form_boolean l b : form (APrimitive PBoolean l) (VBool b)
| form_int k n : k = KInt ∨ k = KInt32 → form (APrimitive PInt LNone) (VInt k n)
| form_long n : form (APrimitive PLong LNone) (VInt KInt64 n)
| form_float l bits : form (APrimitive PFloat l) (VFloat32 bits)
| form_double l bits : form (APrimitive PDouble l) (VFloat64 bits)
| form_string l s : form (APrimitive PString l) (VString s)
| form_bytes s : form (APrimitive PBytes LNone) (VBytes s)
| form_enum name symbols s : form (AEnum name symbols) (VString s)
| form_fixed name size l s : form (AFixed name size l) (VArray s)
| form_array s vs : form (AArray s) (VList vs)
| form_map s entries : form (AMap s) (VMap entries)
| form_record full fields entries : form (ARecord full fields) (VMap entries)
| form_moment s m :
    logical_of s ∈ [LDate; LTimestampMillis; LTimestampMicros; LLocalTimestampMillis; LLocalTimestampMicros] → form s (VTime m)
| form_time s d : logical_of s = LTimeMillis ∨ logical_of s = LTimeMicros → form s (VDuration d)
| form_decimal s precision scale q : logical_of s = LDecimal precision scale → form s (VRat q).

(** [means types branch v x]: in a union of [types] the value [v] stands for [x] of [branch]. It is the value under the name of the branch,
    or a bare value whose form is one of the branch and of no earlier one, and that is no map of one entry under the name of a branch. *)
Inductive means (types : list avro_schema) (branch : avro_schema) : value → value → Prop :=
| means_named x : means types branch (VMap [(avroBranchName branch, x)]) x
| means_bare before after v :
    types = before ++ branch :: after → form branch v → (∀ b, b ∈ before → is_null b = false → ¬ form b v) →
    (∀ b x, b ∈ types → is_null b = false → v ≠ VMap [(avroBranchName b, x)]) → means types branch v v.

Inductive returns : bool → list bytes → avro_schema → value → value → Prop :=
| returns_nil visiting s : returns true visiting s VNil VNil
| returns_null nullable visiting types : existsb is_null types = true → returns nullable visiting (AUnion types) VNil VNil
| returns_ref nullable visiting target s v v' :
    resolve env target = Some s → (∀ full fields, s = ARecord full fields → full ∉ visiting) →
    returns nullable visiting s v v' → returns nullable visiting (ARef target) v v'
| returns_json nullable visiting target full fields v v' :
    resolve env target = Some (ARecord full fields) → full ∈ visiting → v ≠ VNil → within (ARecord full fields) v v' →
    returns nullable visiting (ARef target) v v'
| returns_only nullable visiting types branch v v' :
    branch_names types = [avroBranchName branch] → branch ∈ types → is_null branch = false → is_union branch = false →
    v ≠ VNil → (∀ x, v ≠ VMap [(avroBranchName branch, x)]) →
    returns (nullable || existsb is_null types) visiting branch v v' → returns nullable visiting (AUnion types) v v'
| returns_only_wrapped nullable visiting types branch v v' :
    branch_names types = [avroBranchName branch] → branch ∈ types → is_null branch = false → is_union branch = false →
    returns (nullable || existsb is_null types) visiting branch v v' →
    returns nullable visiting (AUnion types) (VMap [(avroBranchName branch, v)]) v'
| returns_union nullable visiting types branch v x v' :
    (2 ≤ length (branch_names types))%nat → branch ∈ types → is_null branch = false → v ≠ VNil →
    means types branch v x → returns true visiting branch x v' → returns nullable visiting (AUnion types) v v'
| returns_scalar nullable visiting p l v v' : scalar_returns p l v v' → returns nullable visiting (APrimitive p l) v v'
| returns_fixed nullable visiting name size l s v :
    (∀ precision scale, l ≠ LDecimal precision scale) → zlen s = size → v = VArray s ∨ v = VBytes s →
    returns nullable visiting (AFixed name size l) v (VArray s)
| returns_decimal nullable visiting name size precision scale v v' :
    decimal_returns precision scale v v' → returns nullable visiting (AFixed name size (LDecimal precision scale)) v v'
| returns_enum nullable visiting name symbols s : returns nullable visiting (AEnum name symbols) (VString s) (VString s)
| returns_record nullable visiting full fields entries vs :
    full ∉ visiting → NoDup (map fst fields) → returns_fields (visiting ++ [full]) fields entries vs →
    returns nullable visiting (ARecord full fields) (VMap entries) (struct_value (map fst fields) vs)
| returns_array nullable visiting s vs vs' :
    returns_items false visiting s vs vs' → returns nullable visiting (AArray s) (VList vs) (VList vs')
| returns_map nullable visiting s entries vs' :
    StronglySorted key_lt (map fst entries) → tag_free visiting s = true →
    returns_items true visiting s (map snd entries) vs' →
    returns nullable visiting (AMap s) (VMap entries) (VMap (zip (map fst entries) vs'))
with returns_fields : list bytes → list (bytes * avro_schema) → list (bytes * value) → list value → Prop :=
| fields_nil visiting entries : returns_fields visiting [] entries []
| fields_cons visiting name s fields entries v' vs :
    returns false visiting s (map_lookup name entries) v' → returns_fields visiting fields entries vs →
    returns_fields visiting ((name, s) :: fields) entries (v' :: vs)
with returns_items : bool → list bytes → avro_schema → list value → list value → Prop :=
| items_nil nullable visiting s : returns_items nullable visiting s [] []
| items_cons nullable visiting s v v' vs vs' :
    returns nullable visiting s v v' → returns_items nullable visiting s vs vs' →
    returns_items nullable visiting s (v :: vs) (v' :: vs').
End Returns.

Scheme returns_mind := Induction for returns Sort Prop
with returns_fields_mind := Induction for returns_fields Sort Prop
with returns_items_mind := Induction for returns_items Sort Prop.
Combined Scheme returns_mutual from returns_mind, returns_fields_mind, returns_items_mind.

(** ** What the translation makes of a schema *)

Section Shape.
Context (env : list (bytes * avro_schema)).

Definition field_refer (fuel : nat) : bytes → avro_schema → bool → list bytes → result avro_error nested_field :=
  match fuel with O => λ _ _ _ _, Err OutOfFuel | S fuel => avroField env fuel end.

Lemma avroField_eq fuel name s nullable visiting :
  avroField env fuel name s nullable visiting = avroField_step env (field_refer fuel) name s nullable visiting.
Proof. by destruct fuel. Qed.

(** The parts of a field that the conversions read. *)
Definition same_column (f g : nested_field) : Prop :=
  nf_Type g = nf_Type f ∧ nf_Nullable g = nf_Nullable f ∧ is_tagged g MetadataJSON = is_tagged f MetadataJSON ∧
  is_tagged g MetadataAvroUnion = is_tagged f MetadataAvroUnion.

Lemma same_column_refl f : same_column f f.
Proof. done. Qed.

(** A field of the schema differs in its name and in its nullability only. *)
Definition shaped (make : bytes → bool → result avro_error nested_field) : Prop :=
  ∀ name nullable f, make name nullable = Ok f →
  ∃ t extra md, ∀ name nullable, make name nullable = Ok (MkNested name t (nullable || extra) md).

Lemma plain_shaped t md : shaped (λ name nullable, Ok (MkNested name t nullable md)).
Proof. intros name nullable f _. exists t, false, md. intros. by rewrite orb_false_r. Qed.

Lemma err_shaped (e : bytes → avro_error) : shaped (λ name _, Err (e name)).
Proof. done. Qed.

Lemma decimal_shaped precision scale :
  shaped (λ name nullable, let* t := avroDecimalType name precision scale in Ok (plain name t nullable)).
Proof.
  unfold avroDecimalType. destruct (76 <? precision); [by intros name nullable f|]. destruct (38 <? precision); apply plain_shaped.
Qed.

(** The first branch is the same one for every call. *)
Lemma only_branch_found types :
  existsb (λ b, negb (is_null b)) types = true →
  ∃ b, b ∈ types ∧ is_null b = false ∧ ∀ X (call : avro_schema → X) none, only_branch call none types = call b.
Proof.
  induction types as [|b types IH]; [done|]. cbn [existsb]. destruct (is_null b) eqn:Hb; cbn [negb orb].
  - intros (c & Hc & Hn & H)%IH. exists c. split_and!; [by apply list_elem_of_further|done|]. intros. cbn [only_branch]. by rewrite Hb.
  - intros _. exists b. split_and!; [apply list_elem_of_here|done|]. intros. cbn [only_branch]. by rewrite Hb.
Qed.

Lemma branch_names_elem types n : n ∈ branch_names types → ∃ b, b ∈ types ∧ is_null b = false ∧ avroBranchName b = n.
Proof.
  intros (b & -> & Hb)%list_elem_of_fmap. apply list_elem_of_In, filter_In in Hb as [Hb Hn]. exists b.
  split_and!; [by apply list_elem_of_In|by apply negb_true_iff|done].
Qed.

Lemma branch_names_exist types n : n ∈ branch_names types → existsb (λ b, negb (is_null b)) types = true.
Proof. intros (b & Hb & Hn & _)%branch_names_elem. apply existsb_exists. exists b. by rewrite Hn, <- list_elem_of_In. Qed.

Lemma primitive_shaped p l : shaped (λ name nullable, avroPrimitiveField name p l nullable).
Proof. destruct p; cbn [avroPrimitiveField]; try apply err_shaped; try apply plain_shaped; destruct l; try apply plain_shaped; apply decimal_shaped. Qed.

Lemma bind_shaped {X} (m : result avro_error X) (t : X → nested_type) md :
  shaped (λ name nullable, let* x := m in Ok (MkNested name (t x) nullable md)).
Proof. destruct m; [apply plain_shaped|by intros name nullable f]. Qed.

(** The name of the field is in the error only. *)
Lemma branch_fields_name call name name' types names children :
  branch_fields call name types names = Ok children → branch_fields call name' types names = Ok children.
Proof.
  revert names children. induction types as [|b types IH]; intros names children; [done|]. cbn [branch_fields]. destruct (is_null b); [apply IH|].
  intros (child & -> & H)%rbind_Ok. cbn [rbind]. case_decide; [done|]. apply rbind_Ok in H as (cs & H & [= <-]).
  by rewrite (IH _ _ H).
Qed.

Lemma step_shaped refer s visiting :
  (∀ t visiting, shaped (λ name nullable, refer name t nullable visiting)) →
  shaped (λ name nullable, avroField_step env refer name s nullable visiting).
Proof.
  intros Hr. revert visiting. induction s as [p l|n z l|n ss|n fields IH|s IH|s IH|types IH|n] using avro_nested_ind; intros visiting; cbn [avroField_step].
  - apply primitive_shaped.
  - destruct l; first [apply decimal_shaped|apply plain_shaped].
  - apply plain_shaped.
  - case_decide; [apply plain_shaped|]. apply (bind_shaped _ NStruct).
  - apply (bind_shaped _ NList).
  - apply (bind_shaped _ (λ value, NMap TString (nf_Type value))).
  - destruct (branch_names types) as [|n [|]] eqn:Hn; [apply err_shaped| |].
    + destruct (only_branch_found types) as (b & Hb & _ & Heq); [apply (branch_names_exist _ n); rewrite Hn; apply list_elem_of_here|].
      intros name nullable f.
      rewrite Heq. intros Hf. destruct (proj1 (Forall_forall _ _) IH b Hb visiting name _ f Hf) as (t & extra & md & Hsh).
      exists t, (existsb is_null types || extra), md. intros. rewrite Heq, Hsh. by rewrite orb_assoc.
    + intros name nullable f (children & Hc & _)%rbind_Ok. exists (NStruct children), (existsb is_null types).
      eexists. intros name' nullable'. rewrite (branch_fields_name _ _ name' _ _ _ Hc). reflexivity.
  - destruct (resolve env n) as [t|]; [|by intros name nullable f]. destruct t; try apply Hr. case_decide; [apply plain_shaped|apply Hr].
Qed.

Lemma avroField_shaped fuel s visiting : shaped (λ name nullable, avroField env fuel name s nullable visiting).
Proof.
  revert s visiting. induction fuel as [|fuel IH]; intros s visiting; cbn [avroField]; apply step_shaped; [by intros t v name nullable f|done].
Qed.

Lemma avroField_shape fuel name s nullable visiting f :
  avroField env fuel name s nullable visiting = Ok f →
  nf_Name f = name ∧ ∀ name' nullable', ∃ extra, nf_Nullable f = nullable || extra ∧
    avroField env fuel name' s nullable' visiting = Ok (MkNested name' (nf_Type f) (nullable' || extra) (nf_Metadata f)).
Proof.
  intros Hf. destruct (avroField_shaped fuel s visiting name nullable f Hf) as (t & extra & md & H).
  rewrite H in Hf. injection Hf as <-. split; [done|]. intros name' nullable'. exists extra. split; [done|]. by rewrite H.
Qed.
End Shape.

(** ** Branches *)

Lemma branch_call_absent {X} (call : avro_schema → X) n types : n ∉ branch_names types → branch_call call n types = None.
Proof.
  induction types as [|b types IH]; [done|]. unfold branch_names in *. cbn [List.filter branch_call]. fold (branch_call call n).
  destruct (is_null b); cbn [negb map andb].
  - intros H. by rewrite IH.
  - intros [Hn H]%not_elem_of_cons. rewrite IH by done. by rewrite bool_decide_eq_false_2 by congruence.
Qed.

Lemma branch_call_elem {X} (call : avro_schema → X) b types :
  NoDup (branch_names types) → b ∈ types → is_null b = false → branch_call call (avroBranchName b) types = Some (call b).
Proof.
  induction types as [|c types IH]; [by intros _ ?%elem_of_nil|]. unfold branch_names in *. cbn [List.filter branch_call]. fold (branch_call call (avroBranchName b)).
  intros Hd [->|Hb]%elem_of_cons Hn.
  - rewrite Hn in *. cbn [negb map andb] in *. apply NoDup_cons in Hd as [Hd _]. rewrite branch_call_absent by done. by rewrite bool_decide_eq_true_2.
  - rewrite IH; [done| |done|done]. destruct (is_null c); cbn [negb map] in Hd; [done|by apply NoDup_cons in Hd as [_ ?]].
Qed.

(** The columns of a union are named after its branches, without repetition. *)
Lemma branch_fields_spec env fuel visiting name types names children :
  branch_fields (λ b, avroField env fuel (avroBranchName b) b true visiting) name types names = Ok children →
  map nf_Name children = branch_names types ∧ NoDup (branch_names types) ∧ (∀ n, n ∈ branch_names types → n ∉ names) ∧
  ∀ b, b ∈ types → is_null b = false → ∃ child, find_child children (avroBranchName b) = Some child ∧
    avroField env fuel (avroBranchName b) b true visiting = Ok child.
Proof.
  revert names children. induction types as [|b types IH]; intros names children.
  { intros [= <-]. split_and!; [done|constructor|by intros n ?%elem_of_nil|by intros b ?%elem_of_nil]. }
  unfold branch_names in *. cbn [branch_fields List.filter]. destruct (is_null b) eqn:Hn; cbn [negb map].
  { intros (H1 & H2 & H3 & H4)%IH. split_and!; try done. intros c [->|Hc]%elem_of_cons Hc'; [congruence|by apply H4]. }
  intros (child & Hchild & H)%rbind_Ok. destruct (avroField_shape _ _ _ _ _ _ _ Hchild) as [Hname _].
  case_decide as Hin; [done|]. apply rbind_Ok in H as (cs & H & [= <-]). apply IH in H as (H1 & H2 & H3 & H4). rewrite Hname in *.
  split_and!.
  - cbn [map]. by rewrite Hname, H1.
  - constructor; [|done]. intros Hb. apply (H3 _ Hb), list_elem_of_here.
  - intros n [->|Hb]%elem_of_cons; [done|]. specialize (H3 n Hb). set_solver.
  - intros c [->|Hc]%elem_of_cons Hcn.
    + exists child. cbn [find_child]. by rewrite Hname, decide_True.
    + destruct (H4 c Hc Hcn) as (ch & Hf & Ha). exists ch. cbn [find_child]. rewrite decide_False; [done|]. rewrite Hname. intros Heq.
      apply (H3 (avroBranchName c)); [|rewrite <- Heq; apply list_elem_of_here].
      apply list_elem_of_fmap. exists c. split; [done|]. apply list_elem_of_In, filter_In. rewrite Hcn. split; [by apply list_elem_of_In|done].
Qed.

(** ** Tags *)

Lemma json_tag_on name nullable : is_tagged (json_field name nullable) MetadataJSON = true ∧ is_tagged (json_field name nullable) MetadataAvroUnion = false.
Proof. split; vm_compute; reflexivity. Qed.

Lemma union_tag_on name t nullable :
  is_tagged (taggedField name t nullable {[MetadataAvroUnion := str "true"]}) MetadataAvroUnion = true ∧
  is_tagged (taggedField name t nullable {[MetadataAvroUnion := str "true"]}) MetadataJSON = false.
Proof. split; vm_compute; reflexivity. Qed.

Lemma fixed_tag_off name t nullable full : is_tagged (taggedField name t nullable {[MetadataAvroFixed := full]}) MetadataJSON = false.
Proof. vm_compute. reflexivity. Qed.

Lemma enum_tag_off name t nullable full symbols :
  is_tagged (taggedField name t nullable (<[MetadataAvroEnum := full]> {[MetadataAvroEnumSymbols := symbols]})) MetadataJSON = false.
Proof. vm_compute. reflexivity. Qed.

(** ** Scalars *)

Section Scalars.
Context {L : ArrowLib} {J : JsonText} {A : AvroText} (env : list (bytes * avro_schema)).

Lemma unscaled_back q scale n : Qred q = q → unscaledDecimal (VRat q) scale = Ok n → decimalRat n scale = q.
Proof.
  intros Hq. unfold unscaledDecimal. cbn [rbind]. case_decide as Hd; [|done]. intros [= Hn]. rewrite <- Hq. unfold decimalRat. apply Qred_complete.
  assert (0 < pow10 scale) as Hp.
  { unfold pow10. destruct (Z.leb_spec scale 0); [done|]. apply Z.pow_pos_nonneg; lia. }
  assert (Qred (q * inject_Z (pow10 scale)) = inject_Z n) as He.
  { destruct (Qred (q * inject_Z (pow10 scale))) as [num den]. cbn in Hd, Hn. by subst. }
  assert (q * inject_Z (pow10 scale) == inject_Z n)%Q as Heq by (rewrite <- He; symmetry; apply Qred_correct).
  unfold Qeq in *. cbn in *. rewrite Z.mul_1_r in Heq. rewrite Z2Pos.id by done. rewrite Pos.mul_1_r in Heq. lia.
Qed.

Lemma unscaled_exact q scale n : (inject_Z n == q * inject_Z (pow10 scale))%Q → unscaledDecimal (VRat q) scale = Ok n.
Proof.
  intros Hn. unfold unscaledDecimal. cbn [rbind]. rewrite <- (Qred_complete _ _ Hn), Qred_integer. by rewrite decide_True.
Qed.

Lemma settles_decimal precision scale v v' t :
  decimal_returns precision scale v v' → avroDecimalType [] precision scale = Ok t → settles (erase t) v v' ∧ v' ≠ VNil.
Proof.
  intros (q & n & -> & -> & Hq & Hn & Hfit). unfold avroDecimalType. destruct (76 <? precision); [done|].
  apply unscaled_exact in Hn. pose proof (unscaled_back q (int32 scale) n Hq Hn) as Hb.
  destruct (38 <? precision); intros [= <-]; (split; [|done]); exists (CDecimal n); cbn [erase appendGoValue arrowValue]; unfold decimal_cell;
    rewrite Hn; cbn [rbind]; rewrite Hfit; (split; [done|by f_equal]).
Qed.

Lemma decimal_name name name' precision scale t : avroDecimalType name precision scale = Ok t → avroDecimalType name' precision scale = Ok t.
Proof. unfold avroDecimalType. by repeat case_match. Qed.

Lemma settles_moment unit v v' m n : 
  v = VTime m → TimestampFromTime m unit = Some n → v' = VInt KInt64 (int64 n) → settles (TTimestamp unit) v v'.
Proof. intros -> Hn ->. exists (CInt (int64 n)). cbn. by rewrite Hn. Qed.

Lemma moment_trip unit v v' : moment_returns unit v v' → 
  v ≠ VNil ∧ ∃ n, settles (TTimestamp unit) v (VInt KInt64 n) ∧ v' = VTime (n * timeUnitDuration unit).
Proof. intros (m & n & -> & Hn & ->). split; [done|]. exists (int64 n). split; [by eapply settles_moment|done]. Qed.

Lemma scalar_trip p l v v' name nullable f :
  scalar_returns p l v v' → avroPrimitiveField name p l nullable = Ok f →
  is_tagged f MetadataJSON = false ∧ v ≠ VNil ∧
  ∃ r, settles (erase (nf_Type f)) v r ∧ r ≠ VNil ∧ avroScalarFromArrow p l r = Ok v'.
Proof.
  assert (∀ t, is_tagged (plain name t nullable) MetadataJSON = false) as Htag by done.
  destruct p; cbn [scalar_returns avroPrimitiveField]; [done|..].
  - intros (b & -> & ->) [= <-]. split_and!; try done. exists (VBool b). split_and!; [by exists (CBool b)|done|done].
  - destruct l; try (intros (k & n & -> & Hk & Hn & ->) [= <-]; split_and!; try done; exists (VInt KInt32 n);
      split_and!; [apply (settles_int I32); naive_solver|done|done]).
    + intros (m & -> & ->) [= <-]. split_and!; try done. exists (VInt KInt32 (int32 (Date32FromTime m))). split_and!; [by eexists|done|done].
    + intros (d & -> & ->) [= <-]. split_and!; try done. exists (VInt KInt32 (int32 (Z.quot d Millisecond))). split_and!; [by eexists|done|done].
  - destruct l; try (intros (k & n & -> & Hk & Hn & ->) [= <-]; split_and!; try done; exists (VInt KInt64 n);
      split_and!; [apply (settles_int I64); naive_solver|done|done]);
      try (intros (Hv & n & Hs & ->)%moment_trip [= <-]; split_and!; try done; exists (VInt KInt64 n); split_and!; [exact Hs|done|done]).
    intros (d & -> & ->) [= <-]. split_and!; try done. exists (VInt KInt64 (int64 (Z.quot d 1000))). split_and!; [by eexists|done|done].
  - intros (bits & -> & Hb & ->) [= <-]. split_and!; try done. exists (VFloat32 bits). split_and!; [|done|done].
    exists (CFloat bits). cbn. by rewrite Hb.
  - intros (bits & -> & ->) [= <-]. split_and!; try done. exists (VFloat64 bits). split_and!; [by exists (CFloat bits)|done|done].
  - destruct l; try (intros (s & -> & ->) [= <-]; split_and!; try done; exists (VBytes s); split_and!; [by exists (CBin s)|done|done]).
    intros Hd (t & Ht & [= <-])%rbind_Ok. apply (decimal_name _ []) in Ht. destruct (settles_decimal _ _ _ _ _ Hd Ht) as [Hs Hv].
    split_and!; try done; [by destruct Hd as (q & n & -> & _)|]. exists v'. split_and!; [done|done|done].
  - intros (s & -> & ->) Hf. assert (is_tagged f MetadataJSON = false ∧ nf_Type f = NScalar TString) as [Ht1 Ht2].
    { destruct l; injection Hf as <-; (split; [vm_compute; reflexivity|done]). }
    split_and!; try done. exists (VString s). rewrite Ht2. split_and!; [by exists (CText s)|done|done].
Qed.
End Scalars.

(** ** One value *)

Section Trip.
Context {L : ArrowLib} {J : JsonText} {A : AvroText} (env : list (bytes * avro_schema)).
Hypothesis Henv : consistent env.
Context (within : avro_schema → value → value → Prop).
Hypothesis within_trips : ∀ s v v', within s v v' → ∃ text, avroJSONText env v s = Ok text ∧ avroJSONParse env text s = Ok v'.

Definition to_refer (fuel : nat) : avro_schema → nested_field → value → result avro_error value :=
  match fuel with O => λ _ _ _, Err OutOfFuel | S fuel => avroToArrow env fuel end.
Definition from_refer (fuel : nat) : avro_schema → nested_field → value → result avro_error value :=
  match fuel with O => λ _ _ _, Err OutOfFuel | S fuel => avroFromArrow env fuel end.
Abbreviation to fuel := (avroToArrow_step env (to_refer fuel)).
Abbreviation from fuel := (avroFromArrow_step env (from_refer fuel)).

Lemma avroToArrow_eq fuel s g v : avroToArrow env fuel s g v = to fuel s g v.
Proof. by destruct fuel. Qed.
Lemma avroFromArrow_eq fuel s g v : avroFromArrow env fuel s g v = from fuel s g v.
Proof. by destruct fuel. Qed.

Definition tags_off (f : nested_field) : Prop := is_tagged f MetadataJSON = false ∧ is_tagged f MetadataAvroUnion = false.

Lemma plain_off name t nullable : tags_off (plain name t nullable).
Proof. done. Qed.

Lemma leaf_off name s nullable visiting refer f :
  avroField_step env refer name s nullable visiting = Ok f →
  match s with
  | APrimitive _ _ | AFixed _ _ _ | AEnum _ _ | AArray _ | AMap _ => tags_off f
  | ARecord full _ => full ∉ visiting → tags_off f
  | _ => True
  end.
Proof.
  destruct s as [p l|n z l|n ss|n fields|s|s| |]; cbn [avroField_step]; try done.
  - destruct p; cbn [avroPrimitiveField]; [done|intros [= <-]; done|..]; try (destruct l; intros [= <-]; split; vm_compute; reflexivity).
    destruct l; try (intros [= <-]; done). by intros (t & _ & [= <-])%rbind_Ok.
  - destruct l; try (intros [= <-]; split; vm_compute; reflexivity). by intros (t & _ & [= <-])%rbind_Ok.
  - intros [= <-]. split; vm_compute; reflexivity.
  - case_decide; [done|]. by intros (children & _ & [= <-])%rbind_Ok.
  - by intros (item & _ & [= <-])%rbind_Ok.
  - by intros (item & _ & [= <-])%rbind_Ok.
Qed.

(** The field at a reference is the field of its target, or the text of a record within itself. *)
Lemma ref_field fuel name target nullable visiting f :
  avroField env fuel name (ARef target) nullable visiting = Ok f →
  (∃ s k, resolve env target = Some s ∧ name_of s = Some target ∧ fuel = S k ∧
    (∀ full fields, s = ARecord full fields → full ∉ visiting) ∧ avroField env k name s nullable visiting = Ok f) ∨
  ∃ full fields, resolve env target = Some (ARecord full fields) ∧ full ∈ visiting ∧ f = json_field name nullable.
Proof.
  rewrite avroField_eq. cbn [avroField_step]. destruct (resolve env target) as [s|] eqn:Hs; [|done].
  destruct (resolve_named _ _ _ Henv Hs) as [Hn _]. intros Hf.
  destruct s as [p l|n z l|n ss|n fields|s|s|types|n]; try discriminate Hn; destruct fuel as [|k]; cbn [field_refer] in Hf.
  1, 3: done. 1, 2: left; eexists _, k; split_and!; done.
  - case_decide; [|done]. right. exists n, fields. by injection Hf as <-.
  - case_decide as Hd; [right; exists n, fields; by injection Hf as <-|]. left. exists (ARecord n fields), k. split_and!; try done. by intros ? ? [= <- <-].
Qed.

Lemma union_off fuel name s nullable visiting f :
  is_union s = false → avroField env fuel name s nullable visiting = Ok f → is_tagged f MetadataAvroUnion = false.
Proof.
  intros Hu Hf. destruct s as [p l|n z l|n ss|n fields|s|s|types|target]; try done.
  7: { destruct (ref_field _ _ _ _ _ _ Hf) as [(s & k & _ & Hn & _ & Hv & Hs)|(full & fields & _ & _ & ->)]; [|vm_compute; reflexivity].
       rewrite avroField_eq in Hs. apply leaf_off in Hs. destruct s; try done; try apply Hs. by apply (Hv _ _ eq_refl). }
  all: rewrite avroField_eq in Hf; pose proof (leaf_off _ _ _ _ _ _ Hf) as Ho; cbn beta iota in Ho; try (by destruct Ho).
  cbn [avroField_step] in Hf. case_decide; [injection Hf as <-; vm_compute; reflexivity|]. by apply Ho.
Qed.

Lemma only_branch_is types branch :
  branch_names types = [avroBranchName branch] → branch ∈ types → is_null branch = false →
  ∀ X (call : avro_schema → X) none, only_branch call none types = call branch.
Proof.
  intros Hn Hb Hnull X call none. induction types as [|b types IH]; [by apply elem_of_nil in Hb|]. cbn [only_branch].
  unfold branch_names in *. cbn [List.filter] in Hn. destruct (is_null b) eqn:Hbn; cbn [negb] in Hn.
  - apply elem_of_cons in Hb as [->|Hb]; [congruence|]. by apply IH.
  - cbn [map] in Hn. injection Hn as Hn Hrest. apply elem_of_cons in Hb as [->|Hb]; [done|]. exfalso.
    assert (avroBranchName branch ∈ map avroBranchName (List.filter (λ b, negb (is_null b)) types)) as Hin; [|rewrite Hrest in Hin; by apply elem_of_nil in Hin].
    apply list_elem_of_fmap. exists branch. split; [done|]. apply list_elem_of_In, filter_In. rewrite Hnull. split; [by apply list_elem_of_In|done].
Qed.

Lemma tag_free_off s visiting : tag_free env visiting s = true →
  ∀ fuel name nullable f, avroField env fuel name s nullable visiting = Ok f → tags_off f.
Proof.
  induction s as [p l|n z l|n ss|n fields _|s _|s _|types IH|target] using avro_nested_ind; cbn [tag_free]; intros Ht fuel name nullable f Hf.
  8: { destruct (ref_field _ _ _ _ _ _ Hf) as [(s & k & Hr & Hn & _ & Hv & Hs)|(full & fields & Hr & Hin & ->)].
       - rewrite avroField_eq in Hs. apply leaf_off in Hs. destruct s; try done. by apply Hs, (Hv _ _ eq_refl).
       - rewrite Hr in Ht. by apply bool_decide_eq_true in Ht. }
  7: { rewrite avroField_eq in Hf. cbn [avroField_step] in Hf. destruct (branch_names types) as [|n [|]] eqn:Hn; try done.
       destruct (only_branch_found types) as (b & Hb & Hnull & Heq); [apply (branch_names_exist _ n); rewrite Hn; apply list_elem_of_here|].
       rewrite Heq, <- avroField_eq in Hf. apply (proj1 (Forall_forall _ _) IH b Hb) in Hf; [done|].
       rewrite forallb_forall in Ht. specialize (Ht b (proj1 (list_elem_of_In _ _) Hb)). by rewrite Hnull in Ht. }
  all: rewrite avroField_eq in Hf; pose proof (leaf_off _ _ _ _ _ _ Hf) as Ho; cbn beta iota in Ho; try done.
  apply Ho. by apply bool_decide_eq_true in Ht.
Qed.

Lemma nil_trip fuel s ff name nullable visiting f g :
  avroField env ff name s nullable visiting = Ok f → (needed s (type_depth (nf_Type g)) ≤ fuel)%nat →
  (nf_Nullable g = true → to fuel s g VNil = Ok VNil) ∧ from fuel s g VNil = Ok VNil.
Proof.
  intros Hf Hd. destruct s as [p l|n z l|n ss|n fields|s|s|types|target]; cbn [avroToArrow_step avroFromArrow_step]; unfold requireNullable;
    try (split; [by intros ->|done]); [split; [|done]; intros ->; by case_match|].
  assert (∃ s, resolve env target = Some s ∧ name_of s = Some target) as (s & Hs & Hn).
  { rewrite avroField_eq in Hf. cbn [avroField_step] in Hf. destruct (resolve env target) as [s|] eqn:Hs; [|done].
    exists s. split; [done|]. by eapply resolve_named. }
  rewrite Hs. cbn [needed] in Hd. destruct fuel as [|fuel]; [lia|]. cbn [to_refer from_refer]. rewrite avroToArrow_eq, avroFromArrow_eq.
  destruct s; try discriminate Hn; cbn [avroToArrow_step avroFromArrow_step]; unfold requireNullable; (split; [by intros ->|done]).
Qed.

(** ** The round trip of a value, by induction on its derivation *)

(** The cell that [v] is written to reads as [r], from which [v'] comes back. *)
Definition trip (fuel : nat) (s : avro_schema) (g : nested_field) (v v' : value) : Prop :=
  ∃ w r, to fuel s g v = Ok w ∧ settles (erase (nf_Type g)) w r ∧ from fuel s g r = Ok v'.

Definition value_trips nullable visiting s v v' : Prop :=
  ∀ ff name f g fuel, avroField env ff name s nullable visiting = Ok f → same_column f g →
  (needed s (type_depth (nf_Type f)) ≤ fuel)%nat → trip fuel s g v v'.

Definition fields_trip visiting fields entries vs : Prop :=
  ∀ ff children fuel, Forall2 (λ fd c, avroField env ff fd.1 fd.2 false visiting = Ok c) fields children →
  Forall (λ c, S (type_depth (nf_Type c)) ≤ fuel)%nat children →
  ∃ wrs, Forall2 (λ c wr, settles (erase (nf_Type c)) wr.1 wr.2) children wrs ∧
    convert_fields (λ s c v, to fuel s c v) entries fields children = Ok (zip (map fst fields) (map fst wrs)) ∧
    ∀ read, Forall2 (λ fd wr, map_lookup fd.1 read = wr.2) fields wrs →
      convert_fields (λ s c v, from fuel s c v) read fields children = Ok (zip (map fst fields) vs).

Definition items_trip nullable visiting s vs vs' : Prop :=
  ∀ ff name f g fuel, avroField env ff name s nullable visiting = Ok f → same_column f g →
  (needed s (type_depth (nf_Type f)) ≤ fuel)%nat →
  ∃ ws rs, Forall2 (settles (erase (nf_Type g))) ws rs ∧
    map_results (to fuel s g) vs = Ok ws ∧ map_results (from fuel s g) rs = Ok vs'.

Lemma trip_nil visiting s : value_trips true visiting s VNil VNil.
Proof.
  intros ff name f g fuel Hf (Ht & Hn & _) Hd. destruct (avroField_shape _ _ _ _ _ _ _ Hf) as [_ Hsh].
  destruct (Hsh name true) as (extra & Hnull & _). rewrite <- Ht in Hd. destruct (nil_trip fuel s ff name true visiting f g Hf Hd) as [H1 H2].
  exists VNil, VNil. split_and!; [apply H1; by rewrite Hn, Hnull|apply settles_nil|done].
Qed.

Lemma union_nullable ff name types nullable visiting f :
  avroField env ff name (AUnion types) nullable visiting = Ok f → existsb is_null types = true → nf_Nullable f = true.
Proof.
  rewrite avroField_eq. cbn [avroField_step]. intros Hf Hnull. rewrite Hnull, orb_true_r in Hf.
  destruct (branch_names types) as [|n [|]] eqn:Hn; [done| |by apply rbind_Ok in Hf as (children & _ & [= <-])].
  destruct (only_branch_found types) as (b & Hb & _ & Heq); [apply (branch_names_exist _ n); rewrite Hn; apply list_elem_of_here|].
  rewrite Heq, <- avroField_eq in Hf. destruct (avroField_shape _ _ _ _ _ _ _ Hf) as [_ Hsh]. destruct (Hsh name true) as (extra & -> & _). done.
Qed.

Lemma trip_null nullable visiting types : existsb is_null types = true → value_trips nullable visiting (AUnion types) VNil VNil.
Proof.
  intros Hnull ff name f g fuel Hf (Ht & Hn & _) Hd. rewrite <- Ht in Hd.
  destruct (nil_trip fuel (AUnion types) ff name nullable visiting f g Hf Hd) as [H1 H2].
  exists VNil, VNil. split_and!; [apply H1; rewrite Hn; by eapply union_nullable|apply settles_nil|done].
Qed.

Lemma trip_ref nullable visiting target s v v' :
  resolve env target = Some s → (∀ full fields, s = ARecord full fields → full ∉ visiting) →
  value_trips nullable visiting s v v' → value_trips nullable visiting (ARef target) v v'.
Proof.
  intros Hs Hv IH ff name f g fuel Hf Hg Hd.
  destruct (ref_field _ _ _ _ _ _ Hf) as [(s' & k & Hr & Hn & _ & _ & Hf')|(full & fields & Hr & Hin & _)]; [|rewrite Hs in Hr; injection Hr as ->; by destruct (Hv _ _ eq_refl)].
  assert (s' = s) as -> by congruence. cbn [needed] in Hd. destruct fuel as [|fuel]; [lia|].
  destruct (IH k name f g fuel Hf' Hg) as (w & r & H1 & H2 & H3); [pose proof (needed_named s (type_depth (nf_Type f)) target Hn); lia|].
  exists w, r. cbn [avroToArrow_step avroFromArrow_step]. rewrite Hs. cbn [to_refer from_refer].
  by rewrite avroToArrow_eq, avroFromArrow_eq.
Qed.

Lemma trip_json nullable visiting target full fields v v' :
  resolve env target = Some (ARecord full fields) → full ∈ visiting → v ≠ VNil → within (ARecord full fields) v v' →
  value_trips nullable visiting (ARef target) v v'.
Proof.
  intros Hs Hin Hnil (text & Hw & Hr)%within_trips ff name f g fuel Hf (Ht & Hn & Hj & _) Hd.
  destruct (ref_field _ _ _ _ _ _ Hf) as [(s' & k & Hs' & _ & _ & Hv & _)|(full' & fields' & _ & _ & ->)].
  { rewrite Hs in Hs'. injection Hs' as <-. by destruct (Hv _ _ eq_refl). }
  rewrite (proj1 (json_tag_on name nullable)) in Hj. cbn [needed] in Hd. destruct fuel as [|fuel]; [lia|].
  exists (VString text), (VString text). cbn [avroToArrow_step avroFromArrow_step]. rewrite Hs. cbn [to_refer from_refer].
  rewrite avroToArrow_eq, avroFromArrow_eq. cbn [avroToArrow_step avroFromArrow_step]. rewrite Hj, Hw, Hr, Ht. split_and!; [by destruct v|by exists (CText text)|done].
Qed.

Lemma trip_scalar nullable visiting p l v v' : scalar_returns p l v v' → value_trips nullable visiting (APrimitive p l) v v'.
Proof.
  intros H ff name f g fuel Hf (Ht & _ & Hj & _) Hd. rewrite avroField_eq in Hf. cbn [avroField_step] in Hf.
  destruct (scalar_trip p l v v' name nullable f H Hf) as (Htag & Hv & r & Hs & Hr & Hback). rewrite Htag in Hj.
  exists v, r. cbn [avroToArrow_step avroFromArrow_step]. rewrite Hj, Ht. split_and!; [by destruct v|done|]. destruct r; done.
Qed.

Lemma trip_fixed nullable visiting name size l s v :
  (∀ precision scale, l ≠ LDecimal precision scale) → zlen s = size → v = VArray s ∨ v = VBytes s →
  value_trips nullable visiting (AFixed name size l) v (VArray s).
Proof.
  intros Hl Hs Hv ff col f g fuel Hf (Ht & _ & Hj & _) Hd. rewrite avroField_eq in Hf. destruct (leaf_off _ _ _ _ _ _ Hf) as [Hoff _]. rewrite Hoff in Hj.
  assert (nf_Type f = NScalar (TFixedSizeBinary size)) as Htype.
  { cbn [avroField_step] in Hf. destruct l; try (by injection Hf as <-). by destruct (Hl precision scale). }
  assert (settles (erase (nf_Type g)) (VBytes s) (VBytes s)) as Hsettle.
  { exists (CBin s). rewrite Ht, Htype. cbn. split; [|done]. by rewrite (proj2 (Z.eqb_eq _ _) Hs). }
  exists (VBytes s), (VBytes s). cbn [avroToArrow_step avroFromArrow_step]. rewrite Hj. split_and!; [|done|].
  - destruct Hv as [-> | ->]; destruct l; try done; by destruct (Hl precision scale).
  - assert (toFixedArray (VBytes s) size = Ok (VArray s)) as Ha by (cbn; by rewrite (proj2 (Z.eqb_eq _ _) Hs)).
    destruct l; try done; by destruct (Hl precision scale).
Qed.

Lemma trip_decimal nullable visiting name size precision scale v v' :
  decimal_returns precision scale v v' → value_trips nullable visiting (AFixed name size (LDecimal precision scale)) v v'.
Proof.
  intros H ff col f g fuel Hf (Ht & _ & Hj & _) Hd. rewrite avroField_eq in Hf. destruct (leaf_off _ _ _ _ _ _ Hf) as [Hoff _]. rewrite Hoff in Hj.
  cbn [avroField_step] in Hf. apply rbind_Ok in Hf as (t & Hty & [= <-]). apply (decimal_name _ []) in Hty.
  destruct (settles_decimal _ _ _ _ _ H Hty) as [Hs Hv]. destruct H as (q & n & -> & -> & _).
  exists (VRat q), (VRat q). cbn [avroToArrow_step avroFromArrow_step]. rewrite Hj, Ht. done.
Qed.

Lemma trip_enum nullable visiting name symbols s : value_trips nullable visiting (AEnum name symbols) (VString s) (VString s).
Proof.
  intros ff col f g fuel Hf (Ht & _ & Hj & _) Hd. rewrite avroField_eq in Hf. destruct (leaf_off _ _ _ _ _ _ Hf) as [Hoff _]. rewrite Hoff in Hj.
  assert (nf_Type f = NScalar TString) as Hty by (cbn [avroField_step] in Hf; injection Hf as <-; reflexivity). clear Hf.
  exists (VString s), (VString s). cbn [avroToArrow_step avroFromArrow_step]. rewrite Hj, Ht, Hty.
  split_and!; [done|by exists (CText s)|done].
Qed.

Lemma trip_array nullable visiting s vs vs' :
  items_trip false visiting s vs vs' → value_trips nullable visiting (AArray s) (VList vs) (VList vs').
Proof.
  intros IH ff name f g fuel Hf (Ht & _ & Hj & _) Hd. rewrite avroField_eq in Hf. destruct (leaf_off _ _ _ _ _ _ Hf) as [Hoff _]. rewrite Hoff in Hj.
  cbn [avroField_step] in Hf. apply rbind_Ok in Hf as (item & Hi & [= <-]). rewrite <- avroField_eq in Hi. cbn [needed nf_Type plain type_depth] in *.
  destruct (IH ff _ item item fuel Hi (same_column_refl _)) as (ws & rs & Hs & Hw & Hr); [pose proof (needed_le s (type_depth (nf_Type item))); lia|].
  exists (VList ws), (VList rs). cbn [avroToArrow_step avroFromArrow_step]. rewrite Hj, Ht, Hw, Hr. split_and!; [done|by apply settles_list|done].
Qed.

Lemma map_results_entries {X Y E} (convert : X → result E Y) (entries : list (bytes * X)) ws :
  map_results convert (map snd entries) = Ok ws →
  map_results (λ e, let* w := convert e.2 in Ok (e.1, w)) entries = Ok (zip (map fst entries) ws).
Proof.
  revert ws. induction entries as [|e entries IH]; intros ws; cbn [map map_results]; [by intros [= <-]|].
  intros (w & -> & (ws' & Hws & [= <-])%rbind_Ok)%rbind_Ok. cbn [rbind]. by rewrite (IH _ Hws).
Qed.

Lemma trip_map nullable visiting s entries vs' :
  StronglySorted key_lt (map fst entries) → tag_free env visiting s = true →
  items_trip true visiting s (map snd entries) vs' →
  value_trips nullable visiting (AMap s) (VMap entries) (VMap (zip (map fst entries) vs')).
Proof.
  intros Hsort Hfree IH ff name f g fuel Hf (Ht & _ & Hj & _) Hd. rewrite avroField_eq in Hf. destruct (leaf_off _ _ _ _ _ _ Hf) as [Hoff _]. rewrite Hoff in Hj.
  cbn [avroField_step] in Hf. apply rbind_Ok in Hf as (value & Hvalue & [= <-]). rewrite <- avroField_eq in Hvalue. cbn [needed nf_Type plain type_depth] in *.
  destruct (avroField_shape _ _ _ _ _ _ _ Hvalue) as [_ Hsh]. destruct (Hsh (str "value") true) as (extra & _ & Htrue).
  destruct (tag_free_off s visiting Hfree ff _ _ _ Htrue) as [Hj1 Hu1].
  destruct (IH ff _ _ (plain (str "value") (nf_Type value) true) fuel Htrue) as (ws & rs & Hs & Hw & Hr).
  { split_and!; try done. }
  { cbn [nf_Type]. pose proof (needed_le s (type_depth (nf_Type value))). lia. }
  assert (length (map fst entries) = length ws) as Hlen.
  { apply map_results_inv, Forall2_length in Hw. by rewrite <- Hw, !length_map. }
  assert (length (map fst entries) = length rs) as Hlenr by (by rewrite Hlen, (Forall2_length _ _ _ Hs)).
  exists (VMap (zip (map fst entries) ws)), (VMap (zip (map fst entries) rs)). cbn [avroToArrow_step avroFromArrow_step]. rewrite Hj, Ht. split_and!.
  - by rewrite (map_results_entries _ _ _ Hw).
  - pose proof (settles_map (erase (nf_Type value)) (zip (map fst entries) ws) rs) as Hm. rewrite fst_zip in Hm by lia. apply Hm; [done|].
    clear -Hs Hlen. revert Hlen. generalize (map fst entries) as keys. induction Hs as [|w r ws rs H _ IH]; intros [|k keys] Hl; try done; [constructor..|].
    injection Hl as Hl. constructor; [done|by apply IH].
  - assert (map snd (zip (map fst entries) rs) = rs) as Hsnd by (apply snd_zip; lia). rewrite <- Hsnd in Hr.
    rewrite (map_results_entries _ _ _ Hr). rewrite fst_zip by lia. done.
Qed.

Lemma record_columns ff visiting fields children :
  map_results (λ fd, avroField_step env (field_refer env ff) fd.1 fd.2 false visiting) fields = Ok children →
  Forall2 (λ fd c, avroField env ff fd.1 fd.2 false visiting = Ok c) fields children ∧ map nf_Name children = map fst fields.
Proof.
  intros H%map_results_inv. assert (Forall2 (λ fd c, avroField env ff fd.1 fd.2 false visiting = Ok c) fields children) as Hc.
  { eapply Forall2_impl; [exact H|]. intros fd c Hc. by rewrite avroField_eq. }
  split; [done|]. clear H. induction Hc as [|fd c fields children Hc _ IH]; [done|]. cbn [map]. rewrite IH. f_equal.
  by destruct (avroField_shape _ _ _ _ _ _ _ Hc).
Qed.

(** The struct of the columns returns, under each name, what its column returns. *)
Lemma struct_trips (children : list nested_field) (wrs : list (value * value)) :
  NoDup (map nf_Name children) → Forall2 (λ c wr, settles (erase (nf_Type c)) wr.1 wr.2) children wrs →
  settles (erase (NStruct children)) (struct_value (map nf_Name children) (map fst wrs)) (struct_value (map nf_Name children) (map snd wrs)).
Proof.
  intros Hd Hs. cbn [erase]. pose proof (Forall2_length _ _ _ Hs) as Hlen.
  pose proof (map_lookup_zip (map nf_Name children) (map fst wrs) [] Hd ltac:(by rewrite !length_map)) as Hl.
  pose proof (settles_struct (map (λ c, (nf_Name c, erase (nf_Type c))) children)
    (fold_left (λ m e, map_insert e.1 e.2 m) (zip (map nf_Name children) (map fst wrs)) []) (map snd wrs)) as H.
  rewrite map_map in H. cbn [fst] in H. apply H. clear H Hd.
  revert Hl. generalize (fold_left (λ m e, map_insert e.1 e.2 m) (zip (map nf_Name children) (map fst wrs)) []) as m. intros m Hl.
  induction Hs as [|c wr children wrs H _ IH]; [constructor|]. cbn [map] in *. inversion Hl as [|? ? ? ? Hw Hl']; subst.
  constructor; [cbn [fst snd]; by rewrite Hw|]. apply IH; [by injection Hlen|done].
Qed.

Lemma trip_record nullable visiting full fields entries vs :
  full ∉ visiting → NoDup (map fst fields) → fields_trip (visiting ++ [full]) fields entries vs →
  value_trips nullable visiting (ARecord full fields) (VMap entries) (struct_value (map fst fields) vs).
Proof.
  intros Hv Hd IH ff name f g fuel Hf (Ht & _ & Hj & _) Hdepth. rewrite avroField_eq in Hf. pose proof (leaf_off _ _ _ _ _ _ Hf Hv) as [Hoff _]. rewrite Hoff in Hj.
  cbn [avroField_step] in Hf. rewrite decide_False in Hf by done. apply rbind_Ok in Hf as (children & Hc & [= <-]).
  apply record_columns in Hc as [Hc Hnames]. cbn [needed nf_Type plain] in *.
  destruct (IH ff children fuel Hc) as (wrs & Hs & Hto & Hfrom).
  { apply Forall_forall. intros c Hin. pose proof (child_depth c children Hin). lia. }
  pose proof (Forall2_length _ _ _ Hs) as Hlen. pose proof (Forall2_length _ _ _ Hc) as Hlenf.
  exists (struct_value (map fst fields) (map fst wrs)), (struct_value (map fst fields) (map snd wrs)). split_and!.
  - cbn [avroToArrow_step]. rewrite Hj, Ht, Hto. done.
  - rewrite Ht, <- Hnames. apply struct_trips; [by rewrite Hnames|done].
  - unfold struct_value. cbn [avroFromArrow_step]. rewrite Hj, Ht.
    rewrite (Hfrom (fold_left (λ m e, map_insert e.1 e.2 m) (zip (map fst fields) (map snd wrs)) [])); [done|].
    pose proof (map_lookup_zip (map fst fields) (map snd wrs) [] Hd ltac:(rewrite !length_map; lia)) as Hl.
    rewrite Forall2_fmap_l in Hl. by rewrite Forall2_fmap_r in Hl.
Qed.

Lemma fields_trip_nil visiting entries : fields_trip visiting [] entries [].
Proof. intros ff children fuel Hc _. inversion Hc. exists []. split_and!; [constructor|done|]. intros read _. done. Qed.

Lemma fields_trip_cons visiting name s fields entries v' vs :
  value_trips false visiting s (map_lookup name entries) v' → fields_trip visiting fields entries vs →
  fields_trip visiting ((name, s) :: fields) entries (v' :: vs).
Proof.
  intros IHv IH ff children fuel Hc Hd. inversion Hc as [|? c ? children' Hcol Hrest]; subst. cbn [fst snd] in *.
  apply Forall_cons in Hd as [Hdc Hd]. destruct (IHv ff name c c fuel Hcol (same_column_refl _)) as (w & r & Hw & Hs & Hr).
  { pose proof (needed_le s (type_depth (nf_Type c))). lia. }
  destruct (IH ff children' fuel Hrest Hd) as (wrs & Hss & Hto & Hfrom). exists ((w, r) :: wrs). split_and!.
  - by constructor.
  - cbn [convert_fields fst snd]. rewrite Hw. cbn [rbind]. fold (convert_fields (λ s c v, to fuel s c v) entries). by rewrite Hto.
  - intros read Hread. inversion Hread as [|? ? ? ? Hl Hread']; subst. cbn [fst snd] in *. cbn [convert_fields fst snd].
    rewrite Hl, Hr. cbn [rbind]. fold (convert_fields (λ s c v, from fuel s c v) read). by rewrite (Hfrom read Hread').
Qed.

Lemma items_trip_nil nullable visiting s : items_trip nullable visiting s [] [].
Proof. intros ff name f g fuel _ _ _. exists [], []. split_and!; [constructor|done|done]. Qed.

Lemma items_trip_cons nullable visiting s v v' vs vs' :
  value_trips nullable visiting s v v' → items_trip nullable visiting s vs vs' → items_trip nullable visiting s (v :: vs) (v' :: vs').
Proof.
  intros IHv IH ff name f g fuel Hf Hg Hd. destruct (IHv ff name f g fuel Hf Hg Hd) as (w & r & Hw & Hs & Hr).
  destruct (IH ff name f g fuel Hf Hg Hd) as (ws & rs & Hss & Hws & Hrs). exists (w :: ws), (r :: rs).
  split_and!; [by constructor|cbn [map_results]; by rewrite Hw, Hws|cbn [map_results]; by rewrite Hr, Hrs].
Qed.

(** *** Unions *)

Lemma only_field ff name types branch nullable visiting f :
  branch_names types = [avroBranchName branch] → branch ∈ types → is_null branch = false → is_union branch = false →
  avroField env ff name (AUnion types) nullable visiting = Ok f →
  avroField env ff name branch (nullable || existsb is_null types) visiting = Ok f ∧ is_tagged f MetadataAvroUnion = false ∧
  ∀ X (call : avro_schema → X), branch_call call (avroBranchName branch) types = Some (call branch).
Proof.
  intros Hn Hb Hnull Hu Hf. rewrite avroField_eq in Hf. cbn [avroField_step] in Hf. rewrite Hn in Hf.
  rewrite (only_branch_is types branch Hn Hb Hnull), <- avroField_eq in Hf. split_and!; [done|by eapply union_off|].
  intros X call. apply branch_call_elem; [|done|done]. rewrite Hn. apply NoDup_singleton.
Qed.

(** A column of one branch holds the value of the branch, named or not. *)
Lemma trip_single nullable visiting types branch v x v' :
  branch_names types = [avroBranchName branch] → branch ∈ types → is_null branch = false → is_union branch = false → v ≠ VNil →
  (unwrapUnion v [avroBranchName branch] = None ∧ x = v ∨ unwrapUnion v [avroBranchName branch] = Some (avroBranchName branch, x)) →
  value_trips (nullable || existsb is_null types) visiting branch x v' → value_trips nullable visiting (AUnion types) v v'.
Proof.
  intros Hn Hb Hnull Hu Hv Hx IH ff name f g fuel Hf (Ht & Hnl & Hj & Htag) Hd.
  destruct (only_field _ _ _ _ _ _ _ Hn Hb Hnull Hu Hf) as (Hfb & Hoff & Hcall). rewrite Hoff in Htag. cbn [needed] in Hd.
  pose proof (needed_le branch (type_depth (nf_Type f))) as Hle.
  destruct (IH ff name f g fuel Hfb) as (w & r & Hw & Hs & Hr); [split_and!; congruence|lia|]. exists w, r. split_and!; [|done|].
  - cbn [avroToArrow_step]. rewrite Htag, Hn. rewrite !Hcall.
    assert (match unwrapUnion v [avroBranchName branch] with
      | Some (name0, unwrapped) => match branch_call (λ s, to fuel s g unwrapped) name0 types with Some r => r | None => Err Panics end
      | None => to fuel branch g v end = Ok w) as Hgoal.
    { destruct Hx as [[-> <-]| ->]; [done|]. by rewrite Hcall. }
    destruct v; done.
  - cbn [avroFromArrow_step]. rewrite Htag, Hn, Hcall.
    destruct (nil_trip fuel branch ff name _ visiting f g Hfb) as [_ Hnil]; [rewrite Ht; lia|]. destruct r; try done. congruence.
Qed.

Lemma first_present_here names read n r :
  (∀ m, m ∈ names → map_lookup m read = if decide (m = n) then r else VNil) →
  first_present names read = if decide (n ∈ names) then match r with VNil => None | _ => Some (n, r) end else None.
Proof.
  induction names as [|m names IH]; intros H; [done|]. cbn [first_present]. rewrite H by apply list_elem_of_here.
  assert (first_present names read = if decide (n ∈ names) then match r with VNil => None | _ => Some (n, r) end else None) as IH'.
  { apply IH. intros k Hk. by apply H, list_elem_of_further. }
  destruct (decide (m = n)) as [->|Hne].
  - rewrite (decide_True (P := n ∈ n :: names)) by apply list_elem_of_here. destruct r; try done. rewrite IH'. by case_decide.
  - rewrite IH'. destruct (decide (n ∈ names)) as [Hin|Hin].
    + by rewrite (decide_True (P := n ∈ m :: names)) by by apply list_elem_of_further.
    + rewrite (decide_False (P := n ∈ m :: names)); [done|]. by intros [->|?]%elem_of_cons.
Qed.

Lemma find_child_unique children c name child :
  NoDup (map nf_Name children) → find_child children name = Some child → c ∈ children → nf_Name c = name → c = child.
Proof.
  induction children as [|d children IH]; intros Hd Hf Hc Hn; [done|]. cbn [map] in Hd. apply NoDup_cons in Hd as [Hd1 Hd2]. cbn [find_child] in Hf.
  apply elem_of_cons in Hc as [->|Hc].
  - rewrite decide_True in Hf by done. congruence.
  - case_decide as Hdn; [|by apply IH]. destruct Hd1. apply list_elem_of_fmap. exists c. split; [congruence|done].
Qed.

(** The struct of a union returns null but for the branch that was written. *)
Lemma union_struct children name child w r :
  NoDup (map nf_Name children) → find_child children name = Some child → settles (erase (nf_Type child)) w r →
  ∃ read, settles (erase (NStruct children)) (VMap [(name, w)]) (VMap read) ∧
    ∀ m, m ∈ map nf_Name children → map_lookup m read = if decide (m = name) then r else VNil.
Proof.
  intros Hd Hf Hs. set (wr (c : nested_field) := if decide (nf_Name c = name) then r else VNil).
  exists (fold_left (λ m e, map_insert e.1 e.2 m) (zip (map nf_Name children) (map wr children)) []). split.
  - pose proof (settles_struct (map (λ c, (nf_Name c, erase (nf_Type c))) children) [(name, w)] (map wr children)) as H.
    rewrite map_map in H. apply H. clear H. apply Forall2_fmap. apply Forall2_same_length_lookup_2; [done|]. intros i c c' Hi Hi'.
    assert (c' = c) as -> by congruence. cbn [fst snd map_lookup]. unfold wr. case_decide as Hn; [|apply settles_nil].
    by rewrite (find_child_unique children c name child Hd Hf (list_elem_of_lookup_2 _ _ _ Hi) Hn).
  - pose proof (map_lookup_zip (map nf_Name children) (map wr children) [] Hd ltac:(by rewrite !length_map)) as Hl.
    intros m Hm. apply list_elem_of_fmap in Hm as (c & -> & Hc). apply list_elem_of_lookup in Hc as [i Hi].
    rewrite Forall2_fmap in Hl. exact (Forall2_lookup_lr _ _ _ _ _ _ Hl Hi Hi).
Qed.

(** *** The branch that is chosen *)

(** The values that [genericMatchesSchema] has a case for. *)
Definition go_form (v : value) : Prop :=
  match v with
  | VInt (KInt | KInt32 | KInt64) _ | VBool _ | VString _ | VBytes _ | VFloat32 _ | VFloat64 _ | VRat _ | VList _ | VMap _
  | VTime _ | VDuration _ | VArray _ => True
  | _ => False
  end.

Lemma form_go s v : form env s v → go_form v.
Proof. induction 1; try done. by destruct H as [-> | ->]. Qed.

Lemma form_plain s v : go_form v → match s with ARef _ => False | _ => True end → genericMatchesSchema env v s = true ↔ form env s v.
Proof.
  intros Hv Hs. assert (target_of env s = s) as Ht by (by destruct s). unfold genericMatchesSchema. rewrite Ht. clear Ht.
  split.
  - destruct v as [| | | |[]| | | | | | | | | | | ]; try done; destruct s; try done; try (intros _; constructor; fail);
      repeat match goal with p : avro_primitive |- _ => destruct p; try done; try (intros _; constructor; fail) end;
      repeat match goal with l : avro_logical |- _ => destruct l; try done end;
      intros _; econstructor; first [done|set_solver|by left|by right].
  - intros H. destruct H as [| |k n Hk| | | | | | | | | | |s m Hm|s d Hd|s precision scale q Hd]; try done.
    + by destruct Hk as [-> | ->].
    + repeat (apply elem_of_cons in Hm as [->|Hm]; [done|]). by apply elem_of_nil in Hm.
    + by destruct Hd as [-> | ->].
    + unfold decimal_logical. by rewrite Hd.
Qed.

(** The code chooses a branch by the forms. *)
Lemma generic_form s v : go_form v → genericMatchesSchema env v s = true ↔ form env s v.
Proof.
  intros Hv. destruct s as [p l|n z l|n ss|n fields|s|s|types|target]; try by apply form_plain.
  destruct (resolve env target) as [s|] eqn:Hs.
  - assert (match s with ARef _ => False | _ => True end) as Hn by (destruct (resolve_named _ _ _ Henv Hs) as [Hn _]; by destruct s).
    assert (genericMatchesSchema env v (ARef target) = genericMatchesSchema env v s) as ->.
    { unfold genericMatchesSchema. assert (target_of env (ARef target) = target_of env s) as -> by (cbn; rewrite Hs; by destruct s). done. }
    rewrite form_plain by done. split; [by apply form_ref|]. inversion 1; subst; [congruence|..].
    + match goal with H : _ ∈ _ |- _ => cbn in H; set_solver end.
    + match goal with H : _ ∨ _ |- _ => by destruct H end.
    + done.
  - assert (genericMatchesSchema env v (ARef target) = false) as ->.
    { unfold genericMatchesSchema. cbn [target_of]. rewrite Hs. cbn. destruct v as [| | | |[]| | | | | | | | | | | ]; done. }
    split; [done|]. inversion 1; subst; [congruence|..].
    + match goal with H : _ ∈ _ |- _ => cbn in H; set_solver end.
    + match goal with H : _ ∨ _ |- _ => by destruct H end.
    + done.
Qed.

(** The first name whose branch takes the value. *)
Fixpoint first_branch (types : list avro_schema) (v : value) (names : list bytes) : option (bytes * value) :=
  match names with
  | [] => None
  | name :: names =>
      if default false (branch_call (genericMatchesSchema env v) name types) then Some (name, v) else first_branch types v names
  end.

Lemma resolveUnionBranch_eq v types :
  resolveUnionBranch env v types =
  match unwrapUnion v (branch_names types) with Some b => Some b | None => first_branch types v (branch_names types) end.
Proof. unfold resolveUnionBranch. destruct (unwrapUnion _ _); [done|]. by induction (branch_names types) as [|n ns IH]; [|cbn; rewrite IH]. Qed.

Lemma branch_name_in types b : b ∈ types → is_null b = false → avroBranchName b ∈ branch_names types.
Proof.
  intros Hb Hn. apply list_elem_of_fmap. exists b. split; [done|]. apply list_elem_of_In, filter_In. rewrite Hn.
  split; [by apply list_elem_of_In|done].
Qed.

Lemma unwrapUnion_bare v types :
  (∀ b x, b ∈ types → is_null b = false → v ≠ VMap [(avroBranchName b, x)]) → unwrapUnion v (branch_names types) = None.
Proof.
  intros H. unfold unwrapUnion. destruct v as [| | | | | | | | | |[|[k x] [|]]| | | | |]; try done. case_decide as Hk; [|done].
  apply branch_names_elem in Hk as (b & Hb & Hn & <-). by destruct (H b x Hb Hn).
Qed.

Lemma means_resolves types branch v x :
  NoDup (branch_names types) → branch ∈ types → is_null branch = false → means env types branch v x →
  resolveUnionBranch env v types = Some (avroBranchName branch, x).
Proof.
  intros Hd Hb Hnull [x'|before after v' Htypes Hform Hbefore Hbare]; rewrite resolveUnionBranch_eq.
  { cbn [unwrapUnion]. by rewrite decide_True by by apply branch_name_in. }
  rewrite unwrapUnion_bare by done. pose proof (form_go _ _ Hform) as Hgo.
  assert (∀ l, (∀ b, b ∈ l → b ∈ types ∧ (is_null b = false → ¬ form env b v')) → ∀ rest,
    first_branch types v' (branch_names (l ++ rest)) = first_branch types v' (branch_names rest)) as Hskip.
  { intros l Hl rest. induction l as [|b l IH]; [done|]. cbn [app]. unfold branch_names in *. cbn [List.filter].
    destruct (is_null b) eqn:Hbn; cbn [negb map]; [apply IH; set_solver|]. cbn [first_branch].
    destruct (Hl b (list_elem_of_here _ _)) as [Hbt Hnot]. rewrite (branch_call_elem _ b types Hd Hbt Hbn). cbn [default]. unfold id.
    assert (genericMatchesSchema env v' b = false) as ->; [|apply IH; set_solver].
    apply not_true_iff_false. rewrite generic_form by done. by apply Hnot. }
  rewrite Htypes at 2. rewrite Hskip by set_solver. unfold branch_names at 1. cbn [List.filter]. rewrite Hnull. cbn [negb map first_branch].
  rewrite (branch_call_elem _ branch types Hd Hb Hnull). cbn [default]. unfold id. by rewrite (proj2 (generic_form branch v' Hgo)).
Qed.

Lemma unwrapUnion_other v name : (∀ x, v ≠ VMap [(name, x)]) → unwrapUnion v [name] = None.
Proof.
  intros H. unfold unwrapUnion. destruct v as [| | | | | | | | | |[|[k x] [|]]| | | | |]; try done. case_decide as Hk; [|done].
  apply list_elem_of_singleton in Hk as ->. by destruct (H x).
Qed.

Lemma trip_union nullable visiting types branch v x v' :
  (2 ≤ length (branch_names types))%nat → branch ∈ types → is_null branch = false → v ≠ VNil →
  means env types branch v x →
  value_trips true visiting branch x v' → value_trips nullable visiting (AUnion types) v v'.
Proof.
  intros Hn Hb Hnull Hv Hx IH ff name f g fuel Hf (Ht & _ & _ & Htag) Hd.
  rewrite avroField_eq in Hf. cbn [avroField_step] in Hf.
  assert (∃ children, branch_fields (λ b, avroField env ff (avroBranchName b) b true visiting) name types [] = Ok children ∧
    nf_Type f = NStruct children ∧ is_tagged f MetadataAvroUnion = true) as (children & Hc & Hty & Hon).
  { destruct (branch_names types) as [|n1 [|n2 ns]]; cbn in Hn; try lia. apply rbind_Ok in Hf as (children & Hc & [= <-]).
    exists children. split_and!; [by destruct ff|done|vm_compute; reflexivity]. }
  clear Hf. rewrite Hon in Htag. apply branch_fields_spec in Hc as (Hnames & Hdup & _ & Hcols).
  apply means_resolves in Hx; [|done..]. destruct (Hcols branch Hb Hnull) as (child & Hfind & Hcol). rewrite Hty in *. cbn [needed] in Hd.
  pose proof (child_depth child children (find_child_elem _ _ _ Hfind)) as Hlt. pose proof (needed_le branch (type_depth (nf_Type child))) as Hle.
  destruct (IH ff _ child child fuel Hcol (same_column_refl _)) as (w & r & Hw & Hs & Hr); [lia|].
  destruct (union_struct children (avroBranchName branch) child w r) as (read & Hread & Hlook); [by rewrite Hnames|done|done|].
  assert (structChild g (avroBranchName branch) = Some child) as Hchild by (unfold structChild; by rewrite Ht).
  exists (VMap [(avroBranchName branch, w)]), (VMap read). split_and!.
  - cbn [avroToArrow_step]. rewrite Htag, Hx, Hchild. rewrite (branch_call_elem _ branch types Hdup Hb Hnull), Hw. by destruct v.
  - by rewrite Ht.
  - cbn [avroFromArrow_step]. rewrite Htag. rewrite (first_present_here (branch_names types) read (avroBranchName branch) r); [|intros m Hm; apply Hlook; by rewrite Hnames].
    rewrite decide_True by (apply list_elem_of_fmap; exists branch; split; [done|]; apply list_elem_of_In, filter_In; rewrite Hnull; split; [by apply list_elem_of_In|done]).
    destruct (nil_trip fuel branch ff (avroBranchName branch) true visiting child child Hcol) as [_ Hnil]; [lia|].
    destruct r; try (rewrite Hchild; cbn [default]; unfold id; by rewrite (branch_call_elem _ branch types Hdup Hb Hnull)). congruence.
Qed.

Lemma returns_trips :
  (∀ nullable visiting s v v', returns env within nullable visiting s v v' → value_trips nullable visiting s v v') ∧
  (∀ visiting fields entries vs, returns_fields env within visiting fields entries vs → fields_trip visiting fields entries vs) ∧
  (∀ nullable visiting s vs vs', returns_items env within nullable visiting s vs vs' → items_trip nullable visiting s vs vs').
Proof.
  apply returns_mutual; intros.
  - apply trip_nil.
  - by apply trip_null.
  - by apply (trip_ref _ _ _ s).
  - by apply (trip_json _ _ _ full fields).
  - apply (trip_single _ _ _ branch v v); try done. left. split; [by apply unwrapUnion_other|done].
  - apply (trip_single _ _ _ branch _ v); try done. right. cbn [unwrapUnion]. by rewrite decide_True by apply list_elem_of_here.
  - by apply (trip_union _ _ _ branch v x).
  - by apply trip_scalar.
  - by apply trip_fixed.
  - by apply trip_decimal.
  - apply trip_enum.
  - by apply trip_record.
  - by apply trip_array.
  - by apply trip_map.
  - apply fields_trip_nil.
  - by apply fields_trip_cons.
  - apply items_trip_nil.
  - by apply items_trip_cons.
Qed.
End Trip.

(** ** Rows *)

Section BridgeTrip.
Context {L : ArrowLib} {J : JsonText} {A : AvroText}.

Context (within : list (bytes * avro_schema) → avro_schema → value → value → Prop).

(** A row of a record schema and the row that comes back. *)
Definition row_returns (full : bytes) (fields : list (bytes * avro_schema)) (row row' : value) : Prop :=
  ∃ entries vs, row = VMap entries ∧ row' = struct_value (map fst fields) vs ∧
    returns_fields (named_schemas (ARecord full fields)) (within (named_schemas (ARecord full fields))) [full] fields entries vs.

Section Columns.
Context (env : list (bytes * avro_schema)) (Henv : consistent env) (full : bytes).
Context (Hwithin : ∀ s v v', within env s v v' → ∃ text, avroJSONText env v s = Ok text ∧ avroJSONParse env text s = Ok v').

Lemma returns_fields_lookup fields entries vs :
  returns_fields env (within env) [full] fields entries vs →
  Forall2 (λ fd v', returns env (within env) false [full] fd.2 (map_lookup fd.1 entries) v') fields vs.
Proof. induction fields as [|fd fields IH] in vs |- *; inversion 1; subst; constructor; [done|]. by apply IH. Qed.

Definition writes (fd : bytes * avro_schema) (c : nested_field) (row v' : value) (x : cell) : Prop :=
  avro_write_cell env fd.2 c row = Ok x ∧ avroFromArrow env (convert_fuel c) fd.2 c (arrowValue (erase (nf_Type c)) x) = Ok v'.

Lemma write_cell_trip ff fd c entries v' :
  avroField env ff fd.1 fd.2 false [full] = Ok c → returns env (within env) false [full] fd.2 (map_lookup fd.1 entries) v' →
  ∃ x, writes fd c (VMap entries) v' x.
Proof.
  intros Hc Hr. destruct (proj1 (returns_trips env Henv _ Hwithin) _ _ _ _ _ Hr ff fd.1 c c (convert_fuel c) Hc (same_column_refl _) (needed_le _ _))
    as (w & r & Hw & (x & Hx & Hrx) & Hback).
  exists x. split.
  - unfold avro_write_cell. destruct (avroField_shape _ _ _ _ _ _ _ Hc) as [-> _]. rewrite avroToArrow_eq, Hw. cbn [rbind]. by rewrite Hx.
  - by rewrite avroFromArrow_eq, Hrx.
Qed.

Lemma column_written ff fd c rows (back : list value) :
  avroField env ff fd.1 fd.2 false [full] = Ok c →
  Forall2 (λ row v', ∃ entries, row = VMap entries ∧ returns env (within env) false [full] fd.2 (map_lookup fd.1 entries) v') rows back →
  ∃ cells, map_results (avro_write_cell env fd.2 c) rows = Ok cells ∧
    Forall2 (λ v' x, avroFromArrow env (convert_fuel c) fd.2 c (arrowValue (erase (nf_Type c)) x) = Ok v') back cells.
Proof.
  intros Hc H. induction H as [|row v' rows back (entries & -> & Hr) _ (cells & Hcells & Hback)]; [by exists []|].
  destruct (write_cell_trip ff fd c entries v' Hc Hr) as (x & Hx & Hv). exists (x :: cells). cbn [map_results]. rewrite Hx, Hcells.
  split; [done|by constructor].
Qed.

Definition write_column_of (rows : list value) (p : bytes * avro_schema * nested_field) : result avro_error column :=
  let* cells := map_results (avro_write_cell env p.1.2 p.2) rows in Ok (MkColumn (erase (nf_Type p.2)) cells).

Definition read_back (i : nat) (p : bytes * avro_schema * nested_field * column) (v' : value) : Prop :=
  avroFromArrow env (convert_fuel p.1.2) p.1.1.2 p.1.2 (arrowValue (col_Type p.2) (cell_at p.2 i)) = Ok v'.

(** The columns of the rows, which read back as the table of the values that return. *)
Lemma columns_written ff fields children rows table :
  Forall2 (λ fd c, avroField env ff fd.1 fd.2 false [full] = Ok c) fields children →
  Forall2 (λ row vs, ∃ entries, row = VMap entries ∧
    Forall2 (λ fd v', returns env (within env) false [full] fd.2 (map_lookup fd.1 entries) v') fields vs) rows table →
  ∃ columns, map_results (write_column_of rows) (zip fields children) = Ok columns ∧
    ∀ i vs, table !! i = Some vs → Forall2 (read_back i) (zip (zip fields children) columns) vs.
Proof.
  intros Hc. revert table. induction Hc as [|fd c fields children Hfd _ IH]; intros table Hrows.
  { exists []. split; [done|]. intros i vs Hi. destruct (Forall2_lookup_r _ _ _ _ _ Hrows Hi) as (row & _ & entries & _ & Hvs).
    inversion Hvs. constructor. }
  destruct (column_written ff fd c rows (map (hd VNil) table) Hfd) as (cells & Hcells & Hback).
  { rewrite Forall2_fmap_r. eapply Forall2_impl; [exact Hrows|]. intros row vs (entries & -> & Hvs). inversion Hvs; subst. by exists entries. }
  destruct (IH (map tail table)) as (columns & Hcols & Hread).
  { rewrite Forall2_fmap_r. eapply Forall2_impl; [exact Hrows|]. intros row vs (entries & -> & Hvs). inversion Hvs; subst. by exists entries. }
  exists (MkColumn (erase (nf_Type c)) cells :: columns). split.
  - cbn [zip zip_with map_results]. unfold write_column_of at 1. cbn [fst snd]. rewrite Hcells. cbn [rbind]. by rewrite Hcols.
  - intros i vs Hi. destruct (Forall2_lookup_r _ _ _ _ _ Hrows Hi) as (row & _ & entries & _ & Hvs). inversion Hvs as [|? v' ? vs' _ _ H1 Hvs']; subst.
    cbn [zip zip_with]. constructor.
    + rewrite Forall2_fmap_l in Hback. destruct (Forall2_lookup_l _ _ _ _ _ Hback Hi) as (x & Hx & Hr). unfold read_back, cell_at.
      cbn [fst snd col_Type col_Cells]. by rewrite Hx.
    + apply Hread. rewrite list_lookup_fmap, Hi. done.
Qed.
End Columns.

Lemma column_found fs (columns : list column) n : NoDup (map nf_Name fs) → length fs = length columns →
  map_results (column_of (MkFrame (map erase_field fs) columns n)) fs = Ok columns.
Proof.
  intros Hd Hl. apply map_results_ok. apply Forall2_same_length_lookup_2; [done|]. intros i f c Hf Hc.
  destruct (column_indices fs columns n i f c Hd Hf Hc) as (k & ks & Hk & Hck). unfold column_of. rewrite Hk. cbn [fr_Columns]. by rewrite Hck.
Qed.

Lemma avro_rows_trip full fields b rows rows' :
  (∀ env s v v', consistent env → within env s v v' → ∃ text, avroJSONText env v s = Ok text ∧ avroJSONParse env text s = Ok v') →
  NewAvroRowBridge (ARecord full fields) = Ok b → NoDup (map fst fields) → fields ≠ [] →
  Forall2 (row_returns full fields) rows rows' →
  ∃ batch, avro_RowsToBatch b rows = Ok batch ∧ avro_BatchToRows b batch = Ok rows'.
Proof.
  intros Hwithin Hb Hd Hne Hrows. set (env := named_schemas (ARecord full fields)). assert (consistent env) as Henv by apply named_consistent.
  cbn [NewAvroRowBridge avroTopLevelFields] in Hb. fold env in Hb. apply rbind_Ok in Hb as (children & Hc & [= <-]). apply map_results_inv in Hc.
  assert (map nf_Name children = map fst fields) as Hnames.
  { clear -Hc. clearbody env. induction Hc as [|fd c fields children Hc _ IH]; [done|]. cbn [map]. rewrite IH. f_equal. by destruct (avroField_shape _ _ _ _ _ _ _ Hc). }
  assert (∃ table, Forall2 (λ row vs, ∃ entries, row = VMap entries ∧
      Forall2 (λ fd v', returns env (within env) false [full] fd.2 (map_lookup fd.1 entries) v') fields vs) rows table ∧
    rows' = map (struct_value (map fst fields)) table) as (table & Htable & ->).
  { clear Hc. induction Hrows as [|row row' rows rows' (entries & vs & -> & -> & Hr) _ (table & Htable & ->)]; [by exists []|].
    exists (vs :: table). split; [constructor; [|done]|done]. exists entries. split; [done|]. by apply (returns_fields_lookup env full). }
  destruct (columns_written env Henv full (λ s v v', Hwithin env s v v' Henv) _ fields children rows table Hc Htable) as (columns & Hcols & Hread).
  unfold avro_RowsToBatch. cbn [ab_env ab_reader ab_fields]. change (map_results _ (zip fields children)) with (map_results (write_column_of env rows) (zip fields children)).
  rewrite Hcols. cbn [rbind]. rewrite decide_False by (intros ->; by apply Hne, (map_eq_nil fst)). eexists. split; [done|].
  unfold avro_BatchToRows, bridge_schema. cbn [ab_fields]. pose proof (Forall2_length _ _ _ Hc) as Hlc.
  pose proof (Forall2_length _ _ _ (map_results_inv _ _ _ Hcols)) as Hlcol. rewrite length_zip in Hlcol.
  rewrite column_found; [|by rewrite Hnames|lia]. cbn [rbind fr_NumRows]. apply map_results_ok, Forall2_lookup. intros i.
  pose proof (Forall2_length _ _ _ Htable) as Hlt. rewrite list_lookup_fmap.
  destruct (table !! i) as [vs|] eqn:Hi; cbn [fmap option_fmap option_map].
  2: { apply lookup_ge_None in Hi. rewrite lookup_seq_ge by lia. constructor. }
  rewrite lookup_seq_lt by (apply lookup_lt_Some in Hi; lia). constructor. cbn [Nat.add]. unfold avro_read_row. cbn [ab_env ab_reader ab_fields].
  specialize (Hread i vs Hi). fold env.
  rewrite (map_results_ok _ _ (zip (map fst fields) vs)); [done|].
  clear -Hread Hnames Hlc Hlcol. clearbody env. revert fields children vs Hread Hnames Hlc Hlcol.
  induction columns as [|col columns IH]; intros [|fd fields] [|c children] vs Hread Hnames Hlc Hlcol; try done; cbn [zip zip_with map] in *.
  inversion Hread as [|? v' ? vs' Hr Hread']; subst. injection Hnames as Hn Hnames. injection Hlc as Hlc.
  cbn [zip zip_with]. constructor; [|by apply (IH _ _ vs' Hread'); [|lia|cbn in Hlcol; lia]].
  unfold read_back in Hr. cbn [fst snd] in *. rewrite Hr. cbn [rbind]. by rewrite Hn.
Qed.
End BridgeTrip.
