(* ===== verification/AvroJson.v ===== *)
(** * The JSON text of a recursive Avro record

    A record within itself has no finite column: it travels as its Avro JSON text. [json_returns s v j v'] says that [v] is a value of
    the schema, that [j] is its document, and that [v'] is the value of the document. *)

From Stdlib Require Import QArith.QArith.
From S2P Require Import Prelude GoStd GoNet GoFloat Kafka Json Value Cells Frames JsonBridge Nested Avro AvroEnds AvroTrip.

#[local] Open Scope Z_scope.

(** ** Bytes as characters *)

Lemma bytes_of_latin1 b rest : bytes_of_runes (latin1 b ++ rest) = (λ r, b :: r) <$> bytes_of_runes rest.
Proof. destruct b; reflexivity. Qed.

Lemma bytes_runes data : bytes_of_runes (runes_of_bytes data) = Some data.
Proof.
  induction data as [|b data IH]; [done|]. unfold runes_of_bytes. cbn [map concat]. rewrite bytes_of_latin1.
  unfold runes_of_bytes in IH. by rewrite IH.
Qed.

(** ** Values of a schema and their documents *)

Section Returns.
Context {J : JsonText} (env : list (bytes * avro_schema)).

Definition json_scalar (p : avro_primitive) (v : value) (j : json) (v' : value) : Prop :=
  match p with
  | PBoolean => ∃ b, v = VBool b ∧ j = JBool b ∧ v' = v
  | PInt => ∃ k n, v = VInt k n ∧ inS 64 n ∧ j = JNumber (FormatInt n) ∧ v' = VInt KInt n
  | PLong => ∃ k n, v = VInt k n ∧ inS 64 n ∧ j = JNumber (FormatInt n) ∧ v' = VInt KInt64 n
  | PFloat => ∃ bits literal wide, v = VFloat32 bits ∧ FormatFloat32 bits = Some literal ∧ j = JNumber literal ∧
      ParseFloat literal = Some wide ∧ v' = VFloat32 (round32 wide)
  | PDouble => ∃ bits literal bits', v = VFloat64 bits ∧ FormatFloat64 bits = Some literal ∧ j = JNumber literal ∧
      ParseFloat literal = Some bits' ∧ v' = VFloat64 bits'
  | PBytes => ∃ s, v = VBytes s ∧ j = JString (runes_of_bytes s) ∧ v' = v
  | PString => ∃ s, v = VString s ∧ utf8_valid s = true ∧ j = JString s ∧ v' = v
  | PNull => False
  end.

Inductive json_returns : avro_schema → value → json → value → Prop :=
| json_ref target s v j v' : resolve env target = Some s → json_returns s v j v' → json_returns (ARef target) v j v'
| json_null types : json_returns (AUnion types) VNil JNull VNil
| json_branch types branch v x j v' :
    NoDup (branch_names types) → branch ∈ types → is_null branch = false → utf8_valid (avroBranchName branch) = true → v ≠ VNil →
    (v = VMap [(avroBranchName branch, x)] ∨
     x = v ∧ branch_names types = [avroBranchName branch] ∧ ∀ y, v ≠ VMap [(avroBranchName branch, y)]) →
    json_returns branch x j v' → json_returns (AUnion types) v (JObject [(avroBranchName branch, j)]) v'
| json_primitive p l v j v' :
    (∀ precision scale, l ≠ LDecimal precision scale) → json_scalar p v j v' → json_returns (APrimitive p l) v j v'
| json_fixed name size l s v :
    (∀ precision scale, l ≠ LDecimal precision scale) → zlen s = size → v = VArray s ∨ v = VBytes s →
    json_returns (AFixed name size l) v (JString (runes_of_bytes s)) (VArray s)
| json_enum name symbols s : utf8_valid s = true → json_returns (AEnum name symbols) (VString s) (JString s) (VString s)
| json_record full fields entries js vs :
    NoDup (map fst fields) → Forall (λ f, utf8_valid f.1 = true) fields → json_fields fields entries js vs →
    json_returns (ARecord full fields) (VMap entries) (JObject (zip (map fst fields) js)) (struct_value (map fst fields) vs)
| json_array s vs js vs' : json_items s vs js vs' → json_returns (AArray s) (VList vs) (JArray js) (VList vs')
| json_map s entries js vs' :
    StronglySorted key_lt (map fst entries) → Forall (λ e, utf8_valid e.1 = true) entries → json_items s (map snd entries) js vs' →
    json_returns (AMap s) (VMap entries) (JObject (zip (map fst entries) js)) (VMap (zip (map fst entries) vs'))
with json_fields : list (bytes * avro_schema) → list (bytes * value) → list json → list value → Prop :=
| json_fields_nil entries : json_fields [] entries [] []
| json_fields_cons name s fields entries j js v' vs :
    json_returns s (map_lookup name entries) j v' → json_fields fields entries js vs →
    json_fields ((name, s) :: fields) entries (j :: js) (v' :: vs)
with json_items : avro_schema → list value → list json → list value → Prop :=
| json_items_nil s : json_items s [] [] []
| json_items_cons s v vs j js v' vs' :
    json_returns s v j v' → json_items s vs js vs' → json_items s (v :: vs) (j :: js) (v' :: vs').
End Returns.

Scheme json_returns_mind := Induction for json_returns Sort Prop
with json_fields_mind := Induction for json_fields Sort Prop
with json_items_mind := Induction for json_items Sort Prop.
Combined Scheme json_mutual from json_returns_mind, json_fields_mind, json_items_mind.

(** ** Members of an object *)

Lemma object_keys_zip (keys : list bytes) (js : list json) : NoDup keys → length keys = length js → object_keys (zip keys js) = keys.
Proof.
  intros Hd Hl. unfold object_keys. rewrite fst_zip by lia. clear Hl js.
  assert (∀ order, NoDup (order ++ keys) → foldl add_key order keys = order ++ keys) as H; [|by apply (H [])].
  clear Hd. induction keys as [|k keys IH]; intros order Hd; cbn [foldl]; [by rewrite app_nil_r|]. unfold add_key at 2.
  rewrite decide_False.
  - rewrite IH by by rewrite <- (assoc_L (++)). by rewrite <- (assoc_L (++)).
  - intros Hin. apply NoDup_app in Hd as (_ & Hd & _). apply (Hd k Hin), list_elem_of_here.
Qed.

Lemma object_member_zip (keys : list bytes) (js : list json) :
  NoDup keys → length keys = length js → Forall2 (λ k j, object_member (zip keys js) k = j) keys js.
Proof.
  intros Hd. revert js. induction Hd as [|k keys Hk Hd IH]; intros [|j js] Hl; try done; [constructor..|]. injection Hl as Hl.
  cbn [zip zip_with]. constructor.
  - unfold object_member. cbn [member]. rewrite member_None by (rewrite fst_zip by lia; done). by rewrite decide_True.
  - apply Forall2_same_length_lookup_2; [done|]. intros i k' j' Hk' Hj'. pose proof (Forall2_lookup_lr _ _ _ _ _ _ (IH js Hl) Hk' Hj') as H.
    unfold object_member in *. cbn [member]. destruct (member (zip keys js) k') as [w|] eqn:Hm; [done|].
    rewrite decide_False; [done|]. intros ->. apply Hk. by eapply list_elem_of_lookup_2.
Qed.

(** ** The text comes back *)

Section Trip.
Context {L : ArrowLib} {J : JsonText} {A : AvroText} (env : list (bytes * avro_schema)).
Hypothesis Henv : consistent env.

Definition write_refer (fuel : nat) : avro_schema → value → result avro_error json :=
  match fuel with O => λ _ _, Err OutOfFuel | S fuel => writeAvroJSON env fuel end.
Definition read_refer (fuel : nat) : avro_schema → json → result avro_error value :=
  match fuel with O => λ _ _, Err OutOfFuel | S fuel => readAvroJSON env fuel end.
Abbreviation wr fuel := (writeAvroJSON_step env (write_refer fuel)).
Abbreviation rd fuel := (readAvroJSON_step env (read_refer fuel)).

Lemma writeAvroJSON_eq fuel s v : writeAvroJSON env fuel s v = wr fuel s v.
Proof. by destruct fuel. Qed.
Lemma readAvroJSON_eq fuel s j : readAvroJSON env fuel s j = rd fuel s j.
Proof. by destruct fuel. Qed.

Definition json_trip (s : avro_schema) (v : value) (j : json) (v' : value) : Prop :=
  (∀ fuel, (needed s (value_depth v) ≤ fuel)%nat → wr fuel s v = Ok j) ∧
  (∀ fuel, (needed s (json_depth j) ≤ fuel)%nat → rd fuel s j = Ok v').

Definition json_fields_trip (fields : list (bytes * avro_schema)) (entries : list (bytes * value)) (js : list json) (vs : list value) : Prop :=
  length js = length fields ∧
  (∀ fuel, (value_depth (VMap entries) ≤ fuel)%nat →
     Forall2 (λ f j, wr fuel f.2 (map_lookup f.1 entries) = Ok j) fields js) ∧
  (∀ fuel, Forall (λ j, S (json_depth j) ≤ fuel)%nat js →
     Forall2 (λ fj v', rd fuel fj.1.2 fj.2 = Ok v') (zip fields js) vs).

Definition json_items_trip (s : avro_schema) (vs : list value) (js : list json) (vs' : list value) : Prop :=
  length js = length vs ∧
  (∀ fuel, Forall (λ v, S (value_depth v) ≤ fuel)%nat vs → Forall2 (λ v j, wr fuel s v = Ok j) vs js) ∧
  (∀ fuel, Forall (λ j, S (json_depth j) ≤ fuel)%nat js → Forall2 (λ j v', rd fuel s j = Ok v') js vs').

Lemma json_trip_ref target s v j v' : resolve env target = Some s → json_trip s v j v' → json_trip (ARef target) v j v'.
Proof.
  intros Hs [Hw Hr]. destruct (resolve_named _ _ _ Henv Hs) as [Hn _].
  split; intros [|fuel] Hf; cbn [needed] in Hf; try lia; cbn [writeAvroJSON_step readAvroJSON_step write_refer read_refer]; rewrite Hs.
  - rewrite writeAvroJSON_eq. apply Hw. pose proof (needed_named s (value_depth v) target Hn). lia.
  - rewrite readAvroJSON_eq. apply Hr. pose proof (needed_named s (json_depth j) target Hn). lia.
Qed.

Lemma json_trip_branch types branch v x j v' :
  NoDup (branch_names types) → branch ∈ types → is_null branch = false → utf8_valid (avroBranchName branch) = true → v ≠ VNil →
  (v = VMap [(avroBranchName branch, x)] ∨
   x = v ∧ branch_names types = [avroBranchName branch] ∧ ∀ y, v ≠ VMap [(avroBranchName branch, y)]) →
  json_trip branch x j v' → json_trip (AUnion types) v (JObject [(avroBranchName branch, j)]) v'.
Proof.
  intros Hd Hb Hnull Hutf Hv Hx' [Hw Hr].
  assert (unwrapUnion v (branch_names types) = Some (avroBranchName branch, x) ∨
    unwrapUnion v (branch_names types) = None ∧ branch_names types = [avroBranchName branch] ∧ x = v) as Hx.
  { destruct Hx' as [->|(-> & Hone & Hother)].
    - left. cbn [unwrapUnion]. by rewrite decide_True by by apply branch_name_in.
    - right. rewrite Hone. split; [by apply unwrapUnion_other|done]. }
  split; intros fuel Hf; cbn [needed] in Hf.
  - assert (wr fuel branch x = Ok j) as Hbranch.
    { apply Hw. pose proof (needed_le branch (value_depth x)). destruct Hx as [Hu|(_ & _ & ->)]; [apply unwrap_depth in Hu; cbn [snd] in Hu|]; lia. }
    cbn [writeAvroJSON_step]. assert (match unwrapUnion v (branch_names types) with
      | Some b => Ok b | None => match branch_names types with [name] => Ok (name, v) | _ => Err (NoUnionBranch []) end end =
      @Ok avro_error _ (avroBranchName branch, x)) as ->.
    { destruct Hx as [->|(-> & -> & ->)]; done. }
    cbn [rbind fst snd]. rewrite (branch_call_elem _ branch types Hd Hb Hnull), Hbranch. cbn [rbind]. rewrite coerce_utf8_valid by done. by destruct v.
  - cbn [readAvroJSON_step]. assert (object_keys [(avroBranchName branch, j)] = [avroBranchName branch]) as ->.
    { apply (object_keys_zip [avroBranchName branch] [j]); [apply NoDup_singleton|done]. }
    rewrite (branch_call_elem _ branch types Hd Hb Hnull). unfold object_member. cbn [member]. rewrite decide_True by done. cbn [default]. unfold id.
    apply Hr. pose proof (needed_le branch (json_depth j)). cbn in Hf. unfold plus_max in Hf. cbn in Hf. lia.
Qed.

Lemma json_trip_scalar p l v j v' :
  (∀ precision scale, l ≠ LDecimal precision scale) → json_scalar p v j v' → json_trip (APrimitive p l) v j v'.
Proof.
  intros Hl H. assert (∀ fuel, wr fuel (APrimitive p l) v =
    match p with PBytes => writeAvroJSONBytes v | _ => json_Marshal v end) as Hwr.
  { intros fuel. cbn [writeAvroJSON_step]. destruct l; try (by destruct p). by destruct (Hl precision scale). }
  split; intros fuel _; [rewrite Hwr|cbn [readAvroJSON_step]]; clear Hwr; destruct p; cbn [json_scalar readAvroJSONPrimitive] in *; try done.
  - by destruct H as (b & -> & -> & ->).
  - by destruct H as (k & n & -> & Hn & -> & ->).
  - by destruct H as (k & n & -> & Hn & -> & ->).
  - destruct H as (bits & literal & wide & -> & Hf & -> & _). cbn. by rewrite Hf.
  - destruct H as (bits & literal & wide & -> & Hf & -> & _). cbn. by rewrite Hf.
  - by destruct H as (s & -> & -> & ->).
  - destruct H as (s & -> & Hs & -> & ->). cbn. by rewrite coerce_utf8_valid.
  - by destruct H as (b & -> & -> & ->).
  - destruct H as (k & n & -> & Hn & -> & ->). cbn [jsonNumber rbind]. unfold number_Int64. by rewrite ParseInt_FormatInt_signed.
  - destruct H as (k & n & -> & Hn & -> & ->). cbn [jsonNumber rbind]. unfold number_Int64. by rewrite ParseInt_FormatInt_signed.
  - destruct H as (bits & literal & wide & -> & _ & -> & Hp & ->). cbn [jsonNumber rbind]. unfold number_Float64. by rewrite Hp.
  - destruct H as (bits & literal & wide & -> & _ & -> & Hp & ->). cbn [jsonNumber rbind]. unfold number_Float64. by rewrite Hp.
  - destruct H as (s & -> & -> & ->). cbn [avroJSONBytes]. by rewrite bytes_runes.
  - by destruct H as (s & -> & _ & -> & ->).
Qed.

Lemma json_trip_fixed name size l s v :
  (∀ precision scale, l ≠ LDecimal precision scale) → zlen s = size → v = VArray s ∨ v = VBytes s →
  json_trip (AFixed name size l) v (JString (runes_of_bytes s)) (VArray s).
Proof.
  intros Hl Hs Hv. split; intros fuel _.
  - cbn [writeAvroJSON_step]. assert (writeAvroJSONBytes (fixedBytes v) = Ok (JString (runes_of_bytes s))) as Hw by (by destruct Hv as [-> | ->]).
    destruct l; try done. by destruct (Hl precision scale).
  - cbn [readAvroJSON_step avroJSONBytes]. rewrite bytes_runes. cbn [rbind toFixedArray]. by rewrite (proj2 (Z.eqb_eq _ _) Hs).
Qed.

Lemma json_trip_enum name symbols s : utf8_valid s = true → json_trip (AEnum name symbols) (VString s) (JString s) (VString s).
Proof. intros Hs. split; intros fuel _; cbn [writeAvroJSON_step readAvroJSON_step stringOf stringOf_document]; [by rewrite coerce_utf8_valid|done]. Qed.

Lemma json_trip_record full fields entries js vs :
  NoDup (map fst fields) → Forall (λ f, utf8_valid f.1 = true) fields → json_fields_trip fields entries js vs →
  json_trip (ARecord full fields) (VMap entries) (JObject (zip (map fst fields) js)) (struct_value (map fst fields) vs).
Proof.
  intros Hd Hutf (Hlen & Hw & Hr). split; intros fuel Hf; cbn [needed] in Hf.
  - cbn [writeAvroJSON_step]. specialize (Hw fuel Hf). rewrite (map_results_ok _ fields (zip (map fst fields) js)); [done|].
    clear -Hw Hutf. induction Hw as [|f j fields js H _ IH]; [constructor|]. apply Forall_cons in Hutf as [Hf Hutf].
    cbn [map zip zip_with]. constructor; [|by apply IH]. rewrite H. cbn [rbind]. by rewrite coerce_utf8_valid.
  - cbn [readAvroJSON_step]. assert (length (map fst fields) = length js) as Hl by (by rewrite length_map).
    assert (Forall2 (λ fj v', rd fuel fj.1.2 fj.2 = Ok v') (zip fields js) vs) as Hread.
    { apply Hr. apply Forall_forall. intros j (k & Hk)%list_elem_of_lookup. destruct (lookup_lt_is_Some_2 (map fst fields) k) as [name Hname]; [rewrite Hl; by eapply lookup_lt_Some|].
      assert ((name, j) ∈ zip (map fst fields) js) as Hin by (eapply list_elem_of_lookup_2; rewrite lookup_zip_with, Hname; cbn; by rewrite Hk).
      pose proof (plus_max_elem (λ m : bytes * json, json_depth m.2) (name, j) (zip (map fst fields) js) Hin). cbn in *. lia. }
    pose proof (object_member_zip (map fst fields) js Hd Hl) as Hmem. rewrite Forall2_fmap_l in Hmem.
    rewrite (map_results_ok _ fields (zip (map fst fields) vs)); [done|]. clear -Hread Hmem.
    revert vs Hread Hmem. generalize (zip (map fst fields) js) as members. intros members vs Hread Hmem. revert vs Hread.
    induction Hmem as [|f j fields js H _ IH]; intros vs Hread; cbn [zip zip_with map] in *; inversion Hread as [|? v' ? vs' Hv Hread']; subst; [constructor|].
    constructor; [|by apply IH]. cbn [fst snd] in Hv. cbn in H. by rewrite H, Hv.
Qed.

Lemma json_trip_array s vs js vs' : json_items_trip s vs js vs' → json_trip (AArray s) (VList vs) (JArray js) (VList vs').
Proof.
  intros (Hlen & Hw & Hr). split; intros fuel Hf; cbn [needed] in Hf.
  - cbn [writeAvroJSON_step]. rewrite (map_results_ok (wr fuel s) vs js); [done|]. apply Hw, Forall_forall.
    intros v Hv. pose proof (list_depth v vs Hv). lia.
  - cbn [readAvroJSON_step]. rewrite (map_results_ok (rd fuel s) js vs'); [done|]. apply Hr, Forall_forall.
    intros j Hj. pose proof (array_depth j js Hj). lia.
Qed.

Lemma json_trip_map s entries js vs' :
  StronglySorted key_lt (map fst entries) → Forall (λ e, utf8_valid e.1 = true) entries → json_items_trip s (map snd entries) js vs' →
  json_trip (AMap s) (VMap entries) (JObject (zip (map fst entries) js)) (VMap (zip (map fst entries) vs')).
Proof.
  intros Hsort Hutf (Hlen & Hw & Hr). assert (length (map fst entries) = length js) as Hl by (by rewrite Hlen, !length_map).
  assert (NoDup (map fst entries)) as Hd.
  { clear -Hsort. induction Hsort as [|k keys _ IH Hk]; [constructor|]. constructor; [|done]. intros Hin. rewrite Forall_forall in Hk. by destruct (Hk k Hin). }
  split; intros fuel Hf; cbn [needed] in Hf.
  - cbn [writeAvroJSON_step]. assert (Forall2 (λ v j, wr fuel s v = Ok j) (map snd entries) js) as Hwr.
    { apply Hw, Forall_map, Forall_forall. intros e He. pose proof (entry_depth e entries He). lia. }
    rewrite (map_results_ok _ entries (zip (map fst entries) js)); [done|]. rewrite Forall2_fmap_l in Hwr. clear -Hwr Hutf.
    induction Hwr as [|e j entries js H _ IH]; [constructor|]. apply Forall_cons in Hutf as [He Hutf]. cbn [map zip zip_with].
    constructor; [|by apply IH]. rewrite H. cbn [rbind]. by rewrite coerce_utf8_valid.
  - cbn [readAvroJSON_step]. rewrite object_keys_zip by done.
    assert (Forall2 (λ j v', rd fuel s j = Ok v') js vs') as Hread.
    { apply Hr, Forall_forall. intros j (k & Hk)%list_elem_of_lookup. destruct (lookup_lt_is_Some_2 (map fst entries) k) as [name Hname]; [rewrite Hl; by eapply lookup_lt_Some|].
      assert ((name, j) ∈ zip (map fst entries) js) as Hin by (eapply list_elem_of_lookup_2; rewrite lookup_zip_with, Hname; cbn; by rewrite Hk).
      pose proof (plus_max_elem (λ m : bytes * json, json_depth m.2) (name, j) (zip (map fst entries) js) Hin). cbn in *. lia. }
    pose proof (object_member_zip (map fst entries) js Hd Hl) as Hmem.
    rewrite (map_results_ok _ (map fst entries) (zip (map fst entries) vs')).
    + cbn [rbind]. rewrite map_insert_all; [done|]. cbn [app]. rewrite fst_zip; [done|]. apply Forall2_length in Hread. lia.
    + clear -Hread Hmem. revert vs' Hread Hmem. generalize (zip (map fst entries) js) as members. generalize (map fst entries) as keys.
      intros keys members vs' Hread Hmem. revert vs' Hread. induction Hmem as [|k j keys js H _ IH]; intros vs' Hread; inversion Hread as [|? v' ? vs'' Hv Hread']; subst; [constructor|].
      cbn [zip zip_with]. constructor; [|by apply IH]. by rewrite Hv.
Qed.

Lemma json_returns_trip :
  (∀ s v j v', json_returns env s v j v' → json_trip s v j v') ∧
  (∀ fields entries js vs, json_fields env fields entries js vs → json_fields_trip fields entries js vs) ∧
  (∀ s vs js vs', json_items env s vs js vs' → json_items_trip s vs js vs').
Proof.
  apply json_mutual; intros.
  - by apply (json_trip_ref target s).
  - by split; intros fuel _.
  - by apply (json_trip_branch types branch v x).
  - by apply json_trip_scalar.
  - by apply json_trip_fixed.
  - by apply json_trip_enum.
  - by apply json_trip_record.
  - by apply json_trip_array.
  - by apply json_trip_map.
  - split_and!; [done|constructor|constructor].
  - match goal with H : json_trip _ _ _ _, H' : json_fields_trip _ _ _ _ |- _ => destruct H as [Hw Hr], H' as (Hl & Hws & Hrs) end.
    split_and!; [cbn; by rewrite Hl| |]; intros fuel Hf; cbn [zip zip_with].
    + constructor; [|by apply Hws]. cbn [fst snd]. apply Hw. pose proof (map_lookup_depth name entries). pose proof (needed_le s (value_depth (map_lookup name entries))). lia.
    + apply Forall_cons in Hf as [Hj Hf]. constructor; [|by apply Hrs]. cbn [fst snd]. apply Hr. pose proof (needed_le s (json_depth j)). lia.
  - split_and!; [done|constructor|constructor].
  - match goal with H : json_trip _ _ _ _, H' : json_items_trip _ _ _ _ |- _ => destruct H as [Hw Hr], H' as (Hl & Hws & Hrs) end.
    split_and!; [cbn; by rewrite Hl| |]; intros fuel Hf; apply Forall_cons in Hf as [Hj Hf]; (constructor; [|auto]).
    + apply Hw. pose proof (needed_le s (value_depth v)). lia.
    + apply Hr. pose proof (needed_le s (json_depth j)). lia.
Qed.
End Trip.

(** ** Properties *)

Lemma json_text_trip {L : ArrowLib} {J : JsonText} {A : AvroText} env s v j v' :
  consistent env → (∀ j, json_first (raw_text j) = Some j) → json_returns env s v j v' →
  avroJSONText env v s = Ok (raw_text j) ∧ avroJSONParse env (raw_text j) s = Ok v'.
Proof.
  intros Henv Hparse H. destruct (proj1 (json_returns_trip env Henv) _ _ _ _ H) as [Hw Hr]. split.
  - unfold avroJSONText. rewrite writeAvroJSON_eq, Hw; [done|apply needed_le].
  - unfold avroJSONParse. rewrite Hparse, readAvroJSON_eq. apply Hr, needed_le.
Qed.

(** The JSON text of a recursive record comes back. For a value of a schema whose documents parse as they were written, the text
    is that of its document, with the members of each record in the order of the schema, the entries of a map in the order of
    their keys, a union under the name of its branch and bytes as one character each; and the text reads as the value, with the bare
    value of each union. *)
Theorem avro_json_roundtrip {L : ArrowLib} {J : JsonText} {A : AvroText} root s v j v' :
  (∀ j, json_first (raw_text j) = Some j) → json_returns (named_schemas root) s v j v' →
  avroJSONText (named_schemas root) v s = Ok (raw_text j) ∧ avroJSONParse (named_schemas root) (raw_text j) s = Ok v'.
Proof. intros Hparse H. by apply json_text_trip; [apply named_consistent|..]. Qed.

(** What comes back of the text of a record within itself. *)
Definition text_returns {J : JsonText} (env : list (bytes * avro_schema)) (s : avro_schema) (v v' : value) : Prop :=
  ∃ j, json_returns env s v j v'.


(** *** A tree of orders

    A record with a moment, a list, a map, a decimal, a union of two branches, and an optional reference to itself. *)

#[local] Existing Instance demo_lib.

#[local] Instance demo_json : JsonText := {|
  raw_text j := FormatInt (Zpos (encode j));
  json_parse s := None;
  json_first s := match BigInt_SetString s with Some (Zpos p) => decode p | _ => None end;
  ParseFloat s := None;
  FormatFloat64 bits := None;
  FormatFloat32 bits := None
|}.

#[local] Instance demo_avro : AvroText := {|
  time_JSON n := Some (FormatInt n);
  Sprint_json j := match j with JNull => str "<nil>" | _ => str "?" end
|}.

Lemma demo_json_first j : json_first (raw_text j) = Some j.
Proof. cbn [raw_text json_first demo_json]. rewrite BigInt_SetString_FormatInt. apply decode_encode. Qed.

Definition a_long := APrimitive PLong LNone.
Definition a_text := APrimitive PString LNone.
Definition optional (s : avro_schema) := AUnion [APrimitive PNull LNone; s].

Definition order_fields : list (bytes * avro_schema) :=
  [(str "id", a_long); (str "next", optional (ARef (str "Order")))].

Definition order_schema := ARecord (str "Order") order_fields.

Definition shop_fields : list (bytes * avro_schema) :=
  [(str "at", APrimitive PLong LTimestampMillis); (str "tags", AArray a_text); (str "stock", AMap (APrimitive PInt LNone));
   (str "price", APrimitive PBytes (LDecimal 9 2)); (str "key", AUnion [a_long; a_text]); (str "head", order_schema)].

Definition shop_row : value :=
  VMap [(str "at", VTime 1500000); (str "head", VMap [(str "id", VInt KInt64 1);
          (str "next", VMap [(str "Order", VMap [(str "id", VInt KInt64 2); (str "next", VNil)])])]);
        (str "key", VMap [(str "string", VString (str "k"))]); (str "price", VRat (199 # 100)%Q);
        (str "stock", VMap [(str "a", VInt KInt 3); (str "b", VInt KInt (-4))]); (str "tags", VList [VString (str "x"); VString []])].

Definition shop_back : value :=
  VMap [(str "at", VTime 1000000); (str "head", VMap [(str "id", VInt KInt64 1); (str "next", VMap [(str "id", VInt KInt64 2); (str "next", VNil)])]);
        (str "key", VString (str "k")); (str "price", VRat (199 # 100)%Q);
        (str "stock", VMap [(str "a", VInt KInt 3); (str "b", VInt KInt (-4))]); (str "tags", VList [VString (str "x"); VString []])].

Definition shop_env := named_schemas (ARecord (str "Shop") shop_fields).

Definition tail_order : value := VMap [(str "id", VInt KInt64 2); (str "next", VNil)].
Definition tail_document : json := JObject [(str "id", JNumber (str "2")); (str "next", JNull)].

Lemma tail_json env : resolve env (str "Order") = Some order_schema → json_returns env order_schema tail_order tail_document tail_order.
Proof.
  intros Henv. apply (json_record env (str "Order") order_fields _ [JNumber (str "2"); JNull] [VInt KInt64 2; VNil]).
  - by_decide.
  - repeat constructor.
  - constructor; [|constructor; [|constructor]].
    + apply json_primitive; [done|]. exists KInt64, 2. split_and!; done.
    + apply json_null.
Qed.

Lemma shop_env_order : resolve shop_env (str "Order") = Some order_schema.
Proof. vm_compute. reflexivity. Qed.

(** The text of the inner order, and the value of the text. *)
Lemma avro_json_roundtrip_witness :
  avroJSONText shop_env tail_order order_schema = Ok (raw_text tail_document) ∧
  avroJSONParse shop_env (raw_text tail_document) order_schema = Ok tail_order.
Proof. exact (avro_json_roundtrip (ARecord (str "Shop") shop_fields) order_schema _ _ _ demo_json_first (tail_json _ shop_env_order)). Defined.

Lemma head_returns :
  returns shop_env (text_returns shop_env) false [str "Shop"] order_schema
    (VMap [(str "id", VInt KInt64 1); (str "next", VMap [(str "Order", tail_order)])])
    (struct_value [str "id"; str "next"] [VInt KInt64 1; tail_order]).
Proof.
  apply (returns_record shop_env _ false [str "Shop"] (str "Order") order_fields); [by_decide|by_decide|].
  constructor; [|constructor; [|constructor]].
  - apply returns_scalar. exists KInt64, 1. split_and!; try done. by right.
  - apply (returns_only_wrapped shop_env _ false _ _ (ARef (str "Order"))); [reflexivity|set_solver|reflexivity|reflexivity|].
    apply (returns_json shop_env _ _ _ _ (str "Order") order_fields); [exact shop_env_order|apply list_elem_of_further, list_elem_of_here|discriminate|].
    exists tail_document. apply tail_json, shop_env_order.
Qed.

(** A bare value goes to the first branch of its form. *)
Example bare_key : means shop_env [a_long; a_text] a_text (VString (str "k")) (VString (str "k")).
Proof.
  apply (means_bare shop_env _ _ [a_long] []); [reflexivity|constructor| |done].
  intros b ->%list_elem_of_singleton _ H. by inversion H.
Qed.

Lemma shop_returns : row_returns text_returns (str "Shop") shop_fields shop_row shop_back.
Proof.
  eexists _, [VTime 1000000; VList [VString (str "x"); VString []]; VMap [(str "a", VInt KInt 3); (str "b", VInt KInt (-4))];
    VRat (199 # 100)%Q; VString (str "k"); struct_value [str "id"; str "next"] [VInt KInt64 1; tail_order]].
  split; [reflexivity|]. split; [vm_compute; reflexivity|]. fold shop_env. repeat (constructor; [|]); [..|constructor].
  - apply returns_scalar. exists 1500000, 1. split_and!; vm_compute; reflexivity.
  - apply returns_array. repeat (constructor; [apply returns_scalar; eexists; split; reflexivity|]). constructor.
  - apply (returns_map shop_env _ false _ (APrimitive PInt LNone) [(str "a", VInt KInt 3); (str "b", VInt KInt (-4))] [VInt KInt 3; VInt KInt (-4)]).
    + repeat constructor; by_decide.
    + reflexivity.
    + repeat (constructor; [apply returns_scalar; exists KInt; eexists; split_and!; try done; by left|]). constructor.
  - apply returns_scalar. exists (199 # 100)%Q, 199. split_and!; try reflexivity; vm_compute; reflexivity.
  - apply (returns_union shop_env _ false _ _ a_text _ (VString (str "k"))); [cbn; lia|set_solver|reflexivity|done|apply (means_named shop_env)|].
    apply returns_scalar. by eexists.
  - apply head_returns.
Qed.


(** *** What does not come back *)

Definition demo_trip (fields : list (bytes * avro_schema)) (rows : list value) : result avro_error (list value) :=
  let* b := NewAvroRowBridge (ARecord (str "Row") fields) in
  let* batch := avro_RowsToBatch b rows in avro_BatchToRows b batch.

Definition a_union := AUnion [APrimitive PInt LNone; a_text].

(** A map of a union of two branches gets a struct column for its values, but the tag of the struct stays on a field that
    [arrow.MapOf] does not keep: no value of the map can be written. *)
Lemma map_of_unions_fails :
  demo_trip [(str "m", AMap a_union)] [VMap [(str "m", VMap [(str "k", VInt KInt 1)])]] = Err (AppendFailed NotStruct) ∧
  demo_trip [(str "m", AArray a_union)] [VMap [(str "m", VList [VInt KInt 1])]] = Ok [VMap [(str "m", VList [VInt KInt 1])]].
Proof. split; vm_compute; reflexivity. Qed.

(** A map of the record that it is within loses the tag of its text column, and the conversion asserts a struct type: it panics. *)
Lemma map_of_recursive_panics :
  demo_trip [(str "m", AMap (ARef (str "Row")))] [VMap [(str "m", VMap [(str "k", VMap [(str "m", VMap [])])])]] = Err Panics.
Proof. vm_compute. reflexivity. Qed.

Definition two_records : avro_schema :=
  AUnion [ARecord (str "A") [(str "x", optional a_long)]; ARecord (str "B") [(str "y", optional a_long)]].

(** A value of the second record branch comes back without the name of its branch; written again, it is taken for the first branch,
    and its field is gone. *)
Lemma record_branch_lost :
  let row v := VMap [(str "u", v)] in
  let bare := VMap [(str "y", VInt KInt64 7)] in
  demo_trip [(str "u", two_records)] [row (VMap [(str "B", VMap [(str "y", VInt KInt64 7)])])] = Ok [row bare] ∧
  demo_trip [(str "u", two_records)] [row bare] = Ok [row (VMap [(str "x", VNil)])].
Proof. split; vm_compute; reflexivity. Qed.

(** A map of one entry whose key is ["map"], in an optional field, is taken for a value under the name of its branch. *)
Lemma map_key_taken_for_branch :
  let row key := VMap [(str "m", VMap [(key, VInt KInt64 5)])] in
  demo_trip [(str "m", optional (AMap a_long))] [row (str "map")] = Err (ValueNotMap (str "m")) ∧
  demo_trip [(str "m", optional (AMap a_long))] [row (str "k")] = Ok [row (str "k")].
Proof. split; vm_compute; reflexivity. Qed.

(** Within a record within itself, a moment is written as text and read as a number: the row is written, and cannot be read. A time
    of day is written in nanoseconds and read as a plain number. *)
Lemma moments_do_not_come_back :
  let moment := APrimitive PLong LTimestampMillis in
  let time := APrimitive PInt LTimeMillis in
  is_ok (writeAvroJSON [] 1 moment (VTime 0)) = true ∧
  (let* j := writeAvroJSON [] 1 moment (VTime 0) in readAvroJSON [] 1 moment j) = Err JSONNumber ∧
  (let* j := writeAvroJSON [] 1 time (VDuration (5 * Millisecond)) in readAvroJSON [] 1 time j) = Ok (VInt KInt 5000000).
Proof. split_and!; vm_compute; reflexivity. Qed.

(** A schema with a decimal within a record within itself makes a bridge, and no such decimal can be written. *)
Lemma recursive_decimal_fails :
  let fields := [(str "d", APrimitive PBytes (LDecimal 9 2)); (str "next", optional (ARef (str "Row")))] in
  let row next := VMap [(str "d", VRat (199 # 100)%Q); (str "next", next)] in
  demo_trip fields [row VNil] = Ok [row VNil] ∧ demo_trip fields [row (row VNil)] = Err JSONDecimal.
Proof. split; vm_compute; reflexivity. Qed.

(** A text member that the document lacks reads as the text of nil. *)
Lemma missing_text_reads_nil :
  readAvroJSON [] 1 (ARecord (str "Row") [(str "s", a_text)]) (JObject []) = Ok (VMap [(str "s", VString (str "<nil>"))]).
Proof. vm_compute. reflexivity. Qed.
