(* ===== verification/AvroCodec.v ===== *)
(** * The Avro batch codec, from columnarschema/avrocodec.go

    The row codec of [Codecs] over the Avro bridge and a value serde. The serde is the interface that the row codec has; [Serde] models
    the one of the schema package. *)

From Stdlib Require Import QArith.QArith.
From S2P Require Import Prelude GoStd GoNet GoFloat Kafka Json Value Cells Frames Codecs JsonBridge Nested Avro AvroEnds AvroTrip AvroJson.

#[local] Open Scope Z_scope.

(** A serde of generic Avro values: its reader schema, and what it writes and reads. *)
Record generic_serde (E : Type) := MkSerdeOps {
  ReaderSchema : avro_schema;
  serde_Serialize : bytes → value → result E (option bytes);
  serde_Deserialize : bytes → option bytes → result E value
}.
Arguments MkSerdeOps {E}.
Arguments ReaderSchema {E}.
Arguments serde_Serialize {E}.
Arguments serde_Deserialize {E}.

(** The error of the serde, or of the bridge. *)
Definition fault (E : Type) : Type := E + avro_error.

Record AvroBatchCodec (E : Type) := MkAvroCodec { acd_serde : generic_serde E; acd_bridge : AvroRowBridge; acd_arrowSchema : list field }.
Arguments MkAvroCodec {E}.
Arguments acd_serde {E}.
Arguments acd_bridge {E}.
Arguments acd_arrowSchema {E}.

Section Codec.
Context {L : ArrowLib} {J : JsonText} {A : AvroText} {E : Type}.

(** [NewGenericAvroSerde] parses the text of the schema. *)
Definition NewAvroBatchCodec (serde : result E (generic_serde E)) : result (fault E) (AvroBatchCodec E) :=
  let* serde := rmap_err inl serde in
  let* bridge := rmap_err inr (NewAvroRowBridge (ReaderSchema serde)) in
  Ok (MkAvroCodec serde bridge (bridge_schema bridge)).

Definition AvroBatchCodec_Decode (c : AvroBatchCodec E) (topic : bytes) (records : list ConsumedRecord)
    : result (codec_error (fault E)) frame :=
  RowCodec_Decode (λ topic data, rmap_err inl (serde_Deserialize (acd_serde c) topic data))
    (λ rows, rmap_err inr (avro_RowsToBatch (acd_bridge c) rows)) topic records.

Definition AvroBatchCodec_Encode (c : AvroBatchCodec E) (topic : bytes) (batch : frame)
    : result (codec_error (fault E)) (list ProduceRecord) :=
  RowCodec_Encode (λ topic v, rmap_err inl (serde_Serialize (acd_serde c) topic v))
    (λ batch, rmap_err inr (avro_BatchToRows (acd_bridge c) batch)) topic batch.

(** ** The columns of a schema survive a payload *)

Lemma keys_fit (md : list (bytes * bytes)) : (map fst md = [] ∨ (∃ k, map fst md = [k] ∧ k ≠ payloadNameMetadata) ∨ map fst md = [MetadataAvroEnum; MetadataAvroEnumSymbols]) → metadata_fits md.
Proof.
  unfold metadata_fits. intros [->|[(k & -> & Hk)| ->]].
  - split; [by intros ?%elem_of_nil|constructor].
  - split; [intros ?%list_elem_of_singleton; congruence|repeat constructor].
  - split; [by_decide|repeat constructor; by_decide].
Qed.

Lemma tagged_keys name t nullable k v : k ≠ payloadNameMetadata → metadata_fits (nf_Metadata (taggedField name t nullable {[k := v]})).
Proof.
  intros Hk. apply keys_fit. right. left. exists k. split; [|done]. cbn [nf_Metadata taggedField]. unfold buildMetadata, metadata_entries.
  rewrite map_map, map_id. unfold sorted_keys. by rewrite map_to_list_singleton.
Qed.

Lemma refer_fits env refer name s nullable visiting f :
  (∀ name t nullable visiting f, refer name t nullable visiting = Ok f → metadata_fits (nf_Metadata f)) →
  avroField_step env refer name s nullable visiting = Ok f → metadata_fits (nf_Metadata f).
Proof.
  intros Hr. assert (metadata_fits []) as Hnil by (apply keys_fit; by left).
  assert (∀ name nullable, metadata_fits (nf_Metadata (json_field name nullable))) as Hjson by (intros; by apply tagged_keys; by_decide).
  revert name nullable visiting f. induction s as [p l|n z l|n ss|n fields IH|s IH|s IH|types IH|n] using avro_nested_ind; intros name nullable visiting f; cbn [avroField_step].
  - destruct p; cbn [avroPrimitiveField]; [done|by intros [= <-]|..]; try (destruct l; by intros [= <-]).
    + destruct l; try (by intros [= <-]). by intros (t & _ & [= <-])%rbind_Ok.
    + destruct l; intros [= <-]; try done. apply tagged_keys. by_decide.
  - destruct l; try (intros [= <-]; apply tagged_keys; by_decide). by intros (t & _ & [= <-])%rbind_Ok.
  - intros [= <-]. apply keys_fit. right. right. vm_compute. reflexivity.
  - case_decide; [by intros [= <-]|]. by intros (children & _ & [= <-])%rbind_Ok.
  - by intros (item & _ & [= <-])%rbind_Ok.
  - by intros (item & _ & [= <-])%rbind_Ok.
  - destruct (branch_names types) as [|n [|]] eqn:Hn; [done| |].
    + destruct (only_branch_found types) as (b & Hb & _ & Heq); [apply (branch_names_exist _ n); rewrite Hn; apply list_elem_of_here|].
      rewrite Heq. by apply (proj1 (Forall_forall _ _) IH b Hb).
    + intros (children & _ & [= <-])%rbind_Ok. apply tagged_keys. by_decide.
  - destruct (resolve env n) as [t|]; [|done]. destruct t; try apply Hr. case_decide; [by intros [= <-]|apply Hr].
Qed.

Lemma avroField_fits env fuel name s nullable visiting f : avroField env fuel name s nullable visiting = Ok f → metadata_fits (nf_Metadata f).
Proof.
  revert name s nullable visiting f. induction fuel as [|fuel IH]; intros name s nullable visiting f; cbn [avroField]; apply refer_fits; [done|].
  intros. by eapply IH.
Qed.

Lemma avro_payload_ok schema b rows batch : NewAvroRowBridge schema = Ok b → avro_RowsToBatch b rows = Ok batch → payload_ok batch.
Proof.
  destruct schema as [| | |full fields| | | |]; try done. cbn [NewAvroRowBridge avroTopLevelFields]. intros (children & Hc & [= <-])%rbind_Ok.
  unfold avro_RowsToBatch. intros (columns & Hcols & [= <-])%rbind_Ok. apply map_results_inv in Hc, Hcols.
  split; unfold bridge_schema; cbn [fr_Fields fr_Columns ab_fields ab_reader] in *.
  - apply Forall2_length in Hc, Hcols. rewrite length_zip in Hcols. rewrite length_map. lia.
  - apply Forall_map. clear -Hc. generalize dependent (named_schemas (ARecord full fields)). intros env Hc.
    induction Hc as [|fd c fields children H _ IH]; constructor; [|done]. apply avroField_fits in H as [Hn Hs]. by split.
Qed.

(** ** Records that travel through batches *)

(** The Avro codec returns the records that it read. For a codec over a record schema, when the values of the records are values of
    the schema, and documents parse as they were written, the records decode to one batch, whose schema has the columns of the codec under names that no metadata column has, and
    encoding the batch writes one record per record read, in order: with the key, the timestamp and the headers of that record, and the value
    that the serde writes for what comes back of its row. *)
Theorem avro_codec_roundtrip serde c full fields topic topic' records rows rows' :
  (∀ j, json_first (raw_text j) = Some j) →
  NewAvroBatchCodec (Ok serde) = Ok c → ReaderSchema serde = ARecord full fields → NoDup (map fst fields) → fields ≠ [] →
  Forall2 (λ r v, serde_Deserialize serde topic (con_Value r) = Ok v) records rows → Forall2 (row_returns text_returns full fields) rows rows' →
  Forall (λ r, headers_fit (con_Headers r)) records →
  ∃ batch, AvroBatchCodec_Decode c topic records = Ok batch ∧
    fr_Fields batch = map escapedPayloadField (acd_arrowSchema c) ++ metadataFields ∧
    AvroBatchCodec_Encode c topic' batch =
      rmap_err SerdeError (map_results (encode_row (λ topic v, rmap_err inl (serde_Serialize serde topic v)) topic') (zip records rows')).
Proof.
  intros Hparse Hcodec Hschema Hd Hne Hvalues Hrows Hh. cbn [NewAvroBatchCodec rmap_err rbind] in Hcodec. rewrite Hschema in Hcodec.
  destruct (NewAvroRowBridge (ARecord full fields)) as [b|e] eqn:Hb; [|done]. cbn [rmap_err rbind] in Hcodec. injection Hcodec as <-.
  destruct (avro_rows_trip text_returns full fields b rows rows') as (payload & Hw & Hr); [|done..|].
  { intros env s v v' Henv [j Hj]. exists (raw_text j). by apply json_text_trip. }
  pose proof (avro_payload_ok _ _ _ _ Hb Hw) as Hpay.
  assert (fr_NumRows payload = length records ∧ fr_Fields payload = bridge_schema b) as [Hn Hfields].
  { unfold avro_RowsToBatch in Hw. apply rbind_Ok in Hw as (columns & Hcols & [= <-]). cbn [fr_NumRows fr_Fields]. split; [|done].
    rewrite (Forall2_length _ _ _ Hvalues). rewrite decide_False; [done|]. intros Hnil.
    cbn [NewAvroRowBridge avroTopLevelFields] in Hb. apply rbind_Ok in Hb as (children & Hc & [= <-]). cbn [ab_fields] in Hnil. subst.
    apply map_results_inv, Forall2_length in Hc. by destruct fields. }
  assert (∃ batch, withMetadata payload (map record_metadata records) = Ok batch) as [batch Hbatch].
  { unfold withMetadata. rewrite bool_decide_eq_true_2 by by rewrite length_map. by eexists. }
  exists batch. split_and!.
  - unfold AvroBatchCodec_Decode, RowCodec_Decode. cbn [acd_serde acd_bridge]. rewrite (map_results_ok _ records rows).
    2: { eapply Forall2_impl; [exact Hvalues|]. cbn. by intros r v ->. }
    cbn [rmap_err rbind]. rewrite Hw. cbn [rmap_err rbind]. by rewrite Hbatch.
  - unfold withMetadata in Hbatch. destruct (bool_decide _) in Hbatch; [|done]. injection Hbatch as <-. cbn [fr_Fields acd_arrowSchema]. by rewrite Hfields.
  - unfold AvroBatchCodec_Encode, RowCodec_Encode. cbn [acd_serde acd_bridge]. rewrite (payloadOnly_withMetadata _ _ _ Hpay Hbatch), Hr. cbn [rmap_err rbind].
    f_equal. apply (encode_rows_records _ topic' payload records batch [] records rows' Hpay Hbatch Hh eq_refl).
    by rewrite (Forall2_length _ _ _ Hvalues), (Forall2_length _ _ _ Hrows).
Qed.
End Codec.

(** *** A codec of shops

    A serde that reads every record as the shop of [AvroJson], and writes the text of its key. *)

#[local] Existing Instance demo_lib.
#[local] Existing Instance demo_json.
#[local] Existing Instance demo_avro.

Definition shop_serde : generic_serde unit :=
  MkSerdeOps (ARecord (str "Shop") shop_fields)
    (λ _ v, match v with VMap entries => match map_lookup (str "key") entries with VString s => Ok (Some s) | _ => Err tt end | _ => Err tt end)
    (λ _ _, Ok shop_row).

Definition shop_records : list ConsumedRecord :=
  [MkConsumed (Some (str "k")) (Some (str "a")) 10 0 5 [MkHeader (str "h") None]; MkConsumed None None 11 0 6 []].

Lemma avro_codec_roundtrip_witness :
  ∃ c batch, NewAvroBatchCodec (Ok shop_serde) = Ok c ∧ AvroBatchCodec_Decode c (str "t") shop_records = Ok batch ∧
    AvroBatchCodec_Encode c (str "t") batch =
      Ok [MkProduce (Some (str "k")) (Some (str "k")) 10 [MkHeader (str "h") None]; MkProduce None (Some (str "k")) 11 []].
Proof.
  eexists. destruct (avro_codec_roundtrip shop_serde _ (str "Shop") shop_fields (str "t") (str "t") shop_records [shop_row; shop_row] [shop_back; shop_back]
    demo_json_first ltac:(vm_compute; reflexivity) eq_refl) as (batch & Hd & _ & He); [by_decide|discriminate|repeat constructor|repeat constructor; apply shop_returns|repeat constructor; by_decide|].
  exists batch. split; [vm_compute; reflexivity|]. split; [exact Hd|]. rewrite He. vm_compute. reflexivity.
Defined.
