(* ===== verification/Proto.v ===== *)
(** * Protobuf descriptors and messages

    What the objects of the protobuf library hold, as far as schema/protoprint.go and columnarschema/protobridge.go read it. A
    descriptor names the type of a message field, and the types that can be reached are a list by full name. A message is
    its populated fields; the operations at the end are the documented behaviour of [protoreflect.Message]. *)

From S2P Require Import Prelude GoStd GoNet Kafka.

#[local] Open Scope Z_scope.

(** ** Descriptors *)

Inductive proto_kind :=
| DoubleKind | FloatKind | Int32Kind | Sint32Kind | Sfixed32Kind | Int64Kind | Sint64Kind | Sfixed64Kind
| Uint32Kind | Fixed32Kind | Uint64Kind | Fixed64Kind | BoolKind | StringKind | BytesKind | EnumKind | MessageKind | GroupKind.

#[global] Instance proto_kind_eq_dec : EqDecision proto_kind.
Proof. solve_decision. Defined.

Definition kind_String (k : proto_kind) : bytes :=
  match k with
  | DoubleKind => str "double" | FloatKind => str "float" | Int32Kind => str "int32" | Sint32Kind => str "sint32"
  | Sfixed32Kind => str "sfixed32" | Int64Kind => str "int64" | Sint64Kind => str "sint64" | Sfixed64Kind => str "sfixed64"
  | Uint32Kind => str "uint32" | Fixed32Kind => str "fixed32" | Uint64Kind => str "uint64" | Fixed64Kind => str "fixed64"
  | BoolKind => str "bool" | StringKind => str "string" | BytesKind => str "bytes" | EnumKind => str "enum"
  | MessageKind => str "message" | GroupKind => str "group"
  end.

Inductive proto_cardinality := Optional | Required | Repeated.

#[global] Instance proto_cardinality_eq_dec : EqDecision proto_cardinality.
Proof. solve_decision. Defined.

(** One value of an option: a text, bytes, an enum with the name of its number, a message as the library prints it, and the text of
    any other value. *)
Inductive option_value :=
| OptString (s : bytes) | OptBytes (s : bytes) | OptEnum (name : option bytes) (number : Z) | OptMessage (text : bytes) | OptOther (text : bytes).

(** A populated option: its name, the full name of an extension, and its values, one unless it is a list. *)
Record proto_option := MkOption { opt_Name : bytes; opt_extension : option bytes; opt_values : list option_value }.

(** [fd_Type] and [fd_TypeName] are the full name and the name of the message or enum, [fd_Values] the values of the enum, [fd_Oneof] the name of the
    oneof and whether it is synthetic, [fd_Map] the key and the value of a map, and [fd_Group] the fields of the message of a group. *)
Inductive field_descriptor := MkFD {
  fd_Name : bytes;
  fd_Number : Z;
  fd_Kind : proto_kind;
  fd_Cardinality : proto_cardinality;
  fd_HasPresence : bool;
  fd_Oneof : option (bytes * bool);
  fd_Type : bytes;
  fd_TypeName : bytes;
  fd_Values : list (bytes * Z);
  fd_Map : option (field_descriptor * field_descriptor);
  fd_Group : list field_descriptor;
  fd_Options : list proto_option;
  fd_Proto2 : bool
}.

(** A property of the key and the value of a map and of the fields of a group holds of the field. *)
Section field_induction.
Context (P : field_descriptor → Prop).
Context (step : ∀ field,
  match fd_Map field with Some (key, value) => P key ∧ P value | None => True end → Forall P (fd_Group field) → P field).

Fixpoint field_descriptor_nested_ind (field : field_descriptor) : P field :=
  step field
    match fd_Map field as m return match m with Some (key, value) => P key ∧ P value | None => True end with
    | Some (key, value) => conj (field_descriptor_nested_ind key) (field_descriptor_nested_ind value)
    | None => I
    end
    ((fix fields (l : list field_descriptor) : Forall P l :=
        match l with [] => Forall_nil_2 _ | f :: l => Forall_cons_2 _ _ _ (field_descriptor_nested_ind f) (fields l) end) (fd_Group field)).

End field_induction.

Definition IsMap (field : field_descriptor) : bool := match fd_Map field with Some _ => true | None => false end.
Definition IsList (field : field_descriptor) : bool := bool_decide (fd_Cardinality field = Repeated) && negb (IsMap field).

(** [ContainingOneof] that is there and was written. *)
Definition real_oneof (field : field_descriptor) : option bytes :=
  match fd_Oneof field with Some (name, false) => Some name | _ => None end.

(** ** Enums *)

Fixpoint by_number (values : list (bytes * Z)) (number : Z) : option bytes :=
  match values with
  | [] => None
  | v :: values => if v.2 =? number then Some v.1 else by_number values number
  end.

Fixpoint by_name (values : list (bytes * Z)) (name : bytes) : option Z :=
  match values with
  | [] => None
  | v :: values => if decide (v.1 = name) then Some v.2 else by_name values name
  end.

Definition by_field_name (fields : list field_descriptor) (name : bytes) : option field_descriptor :=
  List.find (λ f, bool_decide (fd_Name f = name)) fields.

(** The fields of a message type, of the types that can be reached. *)
Fixpoint message_fields (env : list (bytes * list field_descriptor)) (full : bytes) : list field_descriptor :=
  match env with
  | [] => []
  | (name, fields) :: env => if decide (name = full) then fields else message_fields env full
  end.

(** ** Values of a message *)

(** A [protoreflect.MapKey]. *)
Inductive map_key := MKInt (n : Z) | MKUint (n : Z) | MKBool (b : bool) | MKString (s : bytes).

#[global] Instance map_key_eq_dec : EqDecision map_key.
Proof. solve_decision. Defined.

(** A [protoreflect.Value] that is neither a list nor a map. A float is the bits of its float64. *)
Inductive proto_value (M : Type) :=
| PVInt (n : Z) | PVUint (n : Z) | PVFloat (bits : Z) | PVBool (b : bool) | PVString (s : bytes) | PVBytes (s : bytes) | PVEnum (n : Z)
| PVMessage (m : M).
Arguments PVInt {M} n.
Arguments PVUint {M} n.
Arguments PVFloat {M} bits.
Arguments PVBool {M} b.
Arguments PVString {M} s.
Arguments PVBytes {M} s.
Arguments PVEnum {M} n.
Arguments PVMessage {M} m.

(** ** The library

    Messages and what the code calls of them. [New] is an empty message of a type; [List_Append] and [Map_Set] are the
    methods of what [Mutable] returns. [protojson_Unmarshal] reads into a message. *)
Class ProtoLib := {
  message : Type;
  New : bytes → message;
  Has : message → field_descriptor → bool;
  Get : message → field_descriptor → proto_value message;
  Get_list : message → field_descriptor → list (proto_value message);
  Get_map : message → field_descriptor → list (map_key * proto_value message);
  Set_ : field_descriptor → proto_value message → message → message;
  List_Append : field_descriptor → proto_value message → message → message;
  Map_Set : field_descriptor → map_key → proto_value message → message → message;
  protojson_Marshal : message → option bytes;
  protojson_Unmarshal : bytes → message → option message
}.

(** Two fields of one message that a write of one does not touch in the other. *)
Definition apart (f g : field_descriptor) : Prop :=
  fd_Name f ≠ fd_Name g ∧ ∀ name, real_oneof f = Some name → real_oneof g ≠ Some name.

Section Views.
Context {P : ProtoLib}.

(** What the accessors tell of a field. *)
Definition view (m : message) (g : field_descriptor) :=
  (Has m g, Get m g, Get_list m g, Get_map m g).

(** A field that was never written. *)
Definition blank (m : message) (g : field_descriptor) : Prop :=
  Has m g = false ∧ Get_list m g = [] ∧ Get_map m g = [].
End Views.

(** The documented behaviour of [protoreflect.Message]: a write is read back and leaves the other fields alone, but
    setting a member of a oneof clears the other members. *)
Class ProtoLaws (P : ProtoLib) := {
  New_blank full g : blank (New full) g;
  Set_same f v m : Get (Set_ f v m) f = v;
  Set_present f v m : fd_HasPresence f = true → Has (Set_ f v m) f = true;
  Set_apart f v m g : apart f g → view (Set_ f v m) g = view m g;
  Set_clears f v m g name :
    fd_Name f ≠ fd_Name g → real_oneof f = Some name → real_oneof g = Some name → blank (Set_ f v m) g;
  Append_same f v m : Get_list (List_Append f v m) f = Get_list m f ++ [v];
  Append_apart f v m g : fd_Name f ≠ fd_Name g → view (List_Append f v m) g = view m g;
  Map_Set_same f k v m : k ∉ map fst (Get_map m f) → Get_map (Map_Set f k v m) f ≡ₚ (k, v) :: Get_map m f;
  Map_Set_apart f k v m g : fd_Name f ≠ fd_Name g → view (Map_Set f k v m) g = view m g
}.

(** ** An instance

    A message as the list of the fields that were written, with the oneof of each. JSON is left out. *)
Module Demo.

Inductive content (V : Type) := CSingular (v : V) | CItems (vs : list V) | CEntries (es : list (map_key * V)).
Arguments CSingular {V} v.
Arguments CItems {V} vs.
Arguments CEntries {V} es.

Inductive demo := MkDemo (entries : list (bytes * option bytes * content (proto_value demo))).

Abbreviation entry := (bytes * option bytes * content (proto_value demo))%type.

Definition entries_of (m : demo) : list entry := let '(MkDemo entries) := m in entries.

(** A field is found under its name and its oneof. *)
Definition key (f : field_descriptor) : bytes * option bytes := (fd_Name f, real_oneof f).

Fixpoint lookup (entries : list entry) (k : bytes * option bytes) : option (content (proto_value demo)) :=
  match entries with
  | [] => None
  | e :: entries => if decide (e.1 = k) then Some e.2 else lookup entries k
  end.

Definition look (m : demo) (f : field_descriptor) : option (content (proto_value demo)) := lookup (entries_of m) (key f).

Definition get_list (m : demo) (f : field_descriptor) : list (proto_value demo) := match look m f with Some (CItems vs) => vs | _ => [] end.
Definition get_map (m : demo) (f : field_descriptor) : list (map_key * proto_value demo) := match look m f with Some (CEntries es) => es | _ => [] end.

Definition zero (f : field_descriptor) : proto_value demo :=
  match fd_Kind f with
  | DoubleKind | FloatKind => PVFloat 0
  | Int32Kind | Sint32Kind | Sfixed32Kind | Int64Kind | Sint64Kind | Sfixed64Kind => PVInt 0
  | Uint32Kind | Fixed32Kind | Uint64Kind | Fixed64Kind => PVUint 0
  | BoolKind => PVBool false
  | StringKind => PVString []
  | BytesKind => PVBytes []
  | EnumKind => PVEnum match fd_Values f with v :: _ => v.2 | [] => 0 end
  | MessageKind | GroupKind => PVMessage (MkDemo [])
  end.

(** A field that is written replaces what it was, and one that is set the other members of its oneof. *)
Definition replaced (f : field_descriptor) (clears : bool) (e : entry) : bool :=
  bool_decide (e.1 = key f) || (clears && bool_decide (real_oneof f ≠ None ∧ e.1.2 = real_oneof f)).
Definition put (f : field_descriptor) (clears : bool) (c : content (proto_value demo)) (m : demo) : demo :=
  MkDemo ((key f, c) :: List.filter (λ e, negb (replaced f clears e)) (entries_of m)).

#[export] Instance lib : ProtoLib := {|
  message := demo;
  New _ := MkDemo [];
  Has m f := match look m f with Some _ => true | None => false end;
  Get m f := match look m f with Some (CSingular v) => v | _ => zero f end;
  Get_list := get_list;
  Get_map := get_map;
  Set_ f v m := put f true (CSingular v) m;
  List_Append f v m := put f false (CItems (get_list m f ++ [v])) m;
  Map_Set f k v m := put f false (CEntries ((k, v) :: List.filter (λ e, negb (bool_decide (e.1 = k))) (get_map m f))) m;
  protojson_Marshal _ := Some (str "{}");
  protojson_Unmarshal _ m := Some m
|}.

Lemma look_same f clears c m : look (put f clears c m) f = Some c.
Proof. unfold look. cbn. by rewrite decide_True. Qed.

Lemma lookup_filter f clears entries k :
  (∀ e, e.1 = k → replaced f clears e = false) → lookup (List.filter (λ e, negb (replaced f clears e)) entries) k = lookup entries k.
Proof.
  intros H. induction entries as [|e entries IH]; [done|]. cbn [List.filter lookup]. case_decide as He.
  - rewrite (H e He). cbn [negb lookup]. by rewrite decide_True.
  - destruct (replaced f clears e); cbn [negb lookup]; [done|]. by rewrite decide_False.
Qed.

Lemma look_other f clears c m g :
  fd_Name f ≠ fd_Name g → (clears = true → ∀ name, real_oneof f = Some name → real_oneof g ≠ Some name) →
  look (put f clears c m) g = look m g.
Proof.
  intros Hn Ho. unfold look. cbn [put entries_of lookup fst]. rewrite decide_False by (unfold key; congruence). apply lookup_filter.
  intros [k x] [= ->]. unfold replaced. cbn [fst key]. rewrite bool_decide_eq_false_2 by (unfold key; congruence). destruct clears; [|done].
  apply bool_decide_eq_false_2. intros [Hf He]. cbn [snd key] in He. destruct (real_oneof f) as [name|] eqn:Hr; [|done]. by apply (Ho eq_refl name).
Qed.

Lemma lookup_none f entries k : (∀ e, e.1 = k → replaced f true e = true) → lookup (List.filter (λ e, negb (replaced f true e)) entries) k = None.
Proof.
  intros H. induction entries as [|e entries IH]; [done|]. cbn [List.filter]. destruct (replaced f true e) eqn:Hr; cbn [negb lookup]; [done|].
  rewrite decide_False; [done|]. intros He%H. congruence.
Qed.

#[export] Instance laws : ProtoLaws lib.
Proof.
  assert (∀ f clears c m g, look (put f clears c m) g = look m g → view (put f clears c m) g = view m g) as Hview.
  { intros f clears c m g H. unfold view. cbn [Has Get Get_list Get_map lib]. unfold get_list, get_map. by rewrite H. }
  split; cbn [Has Get Get_list Get_map Set_ List_Append Map_Set New lib message].
  - done.
  - intros f v m. by rewrite look_same.
  - intros f v m _. by rewrite look_same.
  - intros f v m g [Hn Ho]. by apply Hview, look_other.
  - intros f v m g name Hn Hf Hg. assert (look (put f true (CSingular v) m) g = None) as Hnone.
    2: { unfold blank. cbn [Has Get_list Get_map lib]. unfold get_list, get_map. by rewrite Hnone. }
    unfold look. cbn [put entries_of lookup fst]. rewrite decide_False by (unfold key; congruence).
    apply lookup_none. intros [k x] [= ->]. unfold replaced. cbn [fst key snd]. rewrite Hf, Hg. apply orb_true_iff. right.
    by apply bool_decide_eq_true_2.
  - intros f v m. unfold get_list. by rewrite look_same.
  - intros f v m g Hn. by apply Hview, look_other.
  - intros f k v m Hk. unfold get_map at 1. rewrite look_same.
    assert (List.filter (λ e, negb (bool_decide (e.1 = k))) (get_map m f) = get_map m f) as ->; [|done].
    induction (get_map m f) as [|e es IH]; [done|]. cbn [map List.filter] in *. apply not_elem_of_cons in Hk as [Hk Hes].
    rewrite bool_decide_eq_false_2 by congruence. cbn [negb]. f_equal. by apply IH.
  - intros f k v m g Hn. by apply Hview, look_other.
Qed.
End Demo.
