(* ===== verification/ProtoPrint.v ===== *)
(** * The Protobuf printer, from schema/protoprint.go

    A file descriptor printed as .proto source, the schema text that the Protobuf serde registers. A descriptor is the content of the
    library's object; the options of a descriptor come in the order in which its [Range] visits them.
    [ProtoParse] reads the whole text back. *)

From S2P Require Import Prelude GoStd GoNet GoText Kafka Nested Proto.

#[local] Open Scope Z_scope.

(** ** Descriptors that are printed *)

Record enum_value_descriptor := MkEV { ev_Name : bytes; ev_Number : Z; ev_Options : list proto_option }.
Record enum_descriptor := MkED { ed_Name : bytes; ed_Options : list proto_option; ed_Values : list enum_value_descriptor }.
Record oneof_descriptor := MkOD { od_Name : bytes; od_IsSynthetic : bool; od_Options : list proto_option; od_Fields : list field_descriptor }.

(** An extension field with the full name of the message that it extends. *)
Record extension_descriptor := MkXD { xd_ContainingMessage : bytes; xd_Field : field_descriptor }.

Inductive message_descriptor := MkMD {
  md_Name : bytes;
  md_FullName : bytes;
  md_IsMapEntry : bool;
  md_Options : list proto_option;
  md_Enums : list enum_descriptor;
  md_Messages : list message_descriptor;
  md_ReservedRange : list (Z * Z);
  md_ReservedName : list bytes;
  md_ExtensionRange : list (Z * Z);
  md_Fields : list field_descriptor;
  md_Oneofs : list oneof_descriptor;
  md_Extensions : list extension_descriptor
}.

Record method_descriptor := MkMethod {
  mt_Name : bytes; mt_StreamingClient : bool; mt_StreamingServer : bool; mt_Input : bytes; mt_Output : bytes; mt_Options : list proto_option
}.
Record service_descriptor := MkService { sv_Name : bytes; sv_Options : list proto_option; sv_Methods : list method_descriptor }.

Inductive proto_syntax := Proto2 | Proto3 | Editions.

#[global] Instance proto_syntax_eq_dec : EqDecision proto_syntax.
Proof. solve_decision. Defined.

Record file_descriptor := MkFile {
  fl_Syntax : proto_syntax;
  fl_Package : bytes;
  fl_Imports : list bytes;
  fl_Options : list proto_option;
  fl_Enums : list enum_descriptor;
  fl_Messages : list message_descriptor;
  fl_Extensions : list extension_descriptor;
  fl_Services : list service_descriptor
}.

(** ** Text *)

Definition nl : bytes := [x0a].
Definition quote : bytes := [x22].

(** [strings.NewReplacer] over single bytes. *)
Definition escape_byte (b : byte) : bytes :=
  match b with
  | x5c => [x5c; x5c] | x22 => [x5c; x22] | x0a => [x5c; ascii_byte "n"] | x0d => [x5c; ascii_byte "r"] | x09 => [x5c; ascii_byte "t"]
  | _ => [b]
  end.
Definition escapeProto (value : bytes) : bytes := concat (map escape_byte value).

(** ** Options *)

Definition protoOptionValue (value : option_value) : bytes :=
  match value with
  | OptString s | OptBytes s => quote ++ escapeProto s ++ quote
  | OptEnum (Some name) _ => name
  | OptEnum None number => FormatInt number
  | OptMessage text => str "{ " ++ TrimSpace text ++ str " }"
  | OptOther text => text
  end.

Definition option_name (o : proto_option) : bytes :=
  match opt_extension o with Some full => str "(" ++ full ++ str ")" | None => opt_Name o end.

(** The names and values that [emit] receives. *)
Definition forEachOption (options : list proto_option) : list (bytes * bytes) :=
  concat (map (λ o, map (λ v, (option_name o, protoOptionValue v)) (opt_values o)) options).

Definition optionCount (options : list proto_option) : nat := length options.

Definition appendProtoOptions (options : list proto_option) (indent prefix : bytes) : bytes :=
  concat (map (λ e, indent ++ prefix ++ e.1 ++ str " = " ++ e.2 ++ str ";" ++ nl) (forEachOption options)).

Definition appendInlineProtoOptions (options : list proto_option) : bytes :=
  match map (λ e, e.1 ++ str " = " ++ e.2) (forEachOption options) with
  | [] => []
  | rendered => str " [" ++ strings_Join rendered (str ", ") ++ str "]"
  end.

(** ** Fields *)

Fixpoint protoTypeName (field : field_descriptor) : bytes :=
  match fd_Map field with
  | Some (key, value) => str "map<" ++ protoTypeName key ++ str ", " ++ protoTypeName value ++ str ">"
  | None =>
      match fd_Kind field with
      | MessageKind | GroupKind | EnumKind => str "." ++ fd_Type field
      | kind => kind_String kind
      end
  end.

Definition field_label (field : field_descriptor) : bytes :=
  match fd_Oneof field with
  | Some (_, true) => str "optional "
  | Some (_, false) => []
  | None =>
      if bool_decide (fd_Cardinality field = Repeated) && negb (IsMap field) then str "repeated "
      else if fd_Proto2 field && bool_decide (fd_Cardinality field = Required) then str "required "
      else if fd_Proto2 field then str "optional " else []
  end.

Fixpoint appendProtoField (field : field_descriptor) (indent : bytes) : bytes :=
  indent ++ field_label field ++
  match fd_Kind field with
  | GroupKind =>
      str "group " ++ fd_TypeName field ++ str " = " ++ FormatInt (fd_Number field) ++ str " {" ++ nl ++
      concat (map (λ f, appendProtoField f (indent ++ str "  ")) (fd_Group field)) ++ indent ++ str "}" ++ nl
  | _ =>
      protoTypeName field ++ str " " ++ fd_Name field ++ str " = " ++ FormatInt (fd_Number field) ++
      appendInlineProtoOptions (fd_Options field) ++ str ";" ++ nl
  end.

Definition appendProtoExtension (x : extension_descriptor) (indent : bytes) : bytes :=
  indent ++ str "extend ." ++ xd_ContainingMessage x ++ str " {" ++ nl ++ appendProtoField (xd_Field x) (indent ++ str "  ") ++
  indent ++ str "}" ++ nl.

Definition appendProtoEnum (enum : enum_descriptor) (indent : bytes) : bytes :=
  nl ++ indent ++ str "enum " ++ ed_Name enum ++ str " {" ++ nl ++
  appendProtoOptions (ed_Options enum) (indent ++ str "  ") (str "option ") ++
  concat (map (λ v, indent ++ str "  " ++ ev_Name v ++ str " = " ++ FormatInt (ev_Number v) ++ appendInlineProtoOptions (ev_Options v) ++ str ";" ++ nl)
    (ed_Values enum)) ++
  indent ++ str "}" ++ nl.

(** ** Messages *)

(** The descriptor of a group's type is that of the nested message; a full name is unique. *)
Definition isGroupType (message nested : message_descriptor) : bool :=
  existsb (λ f, bool_decide (fd_Kind f = GroupKind) && bool_decide (fd_Type f = md_FullName nested)) (md_Fields message).

Definition append_range (word : bytes) (indent : bytes) (r : Z * Z) : bytes :=
  indent ++ word ++ str " " ++ FormatInt r.1 ++ str " to " ++ FormatInt (r.2 - 1) ++ str ";" ++ nl.

Definition append_reserved_names (indent : bytes) (names : list bytes) : bytes :=
  match names with
  | [] => []
  | _ => indent ++ str "reserved " ++ strings_Join (map (λ name, quote ++ escapeProto name ++ quote) names) (str ", ") ++ str ";" ++ nl
  end.

Definition append_oneof (indent : bytes) (oneof : oneof_descriptor) : bytes :=
  if od_IsSynthetic oneof then []
  else
    indent ++ str "oneof " ++ od_Name oneof ++ str " {" ++ nl ++
    appendProtoOptions (od_Options oneof) (indent ++ str "  ") (str "option ") ++
    concat (map (λ f, appendProtoField f (indent ++ str "  ")) (od_Fields oneof)) ++ indent ++ str "}" ++ nl.

Definition outside_oneofs (field : field_descriptor) : bool := match real_oneof field with None => true | Some _ => false end.

Fixpoint appendProtoMessage (message : message_descriptor) (indent : bytes) : bytes :=
  if md_IsMapEntry message then []
  else
    let inner := indent ++ str "  " in
    nl ++ indent ++ str "message " ++ md_Name message ++ str " {" ++ nl ++
    appendProtoOptions (md_Options message) inner (str "option ") ++
    concat (map (λ e, appendProtoEnum e inner) (md_Enums message)) ++
    concat (map (λ nested, if isGroupType message nested then [] else appendProtoMessage nested inner) (md_Messages message)) ++
    concat (map (append_range (str "reserved") inner) (md_ReservedRange message)) ++
    append_reserved_names inner (md_ReservedName message) ++
    concat (map (append_range (str "extensions") inner) (md_ExtensionRange message)) ++
    concat (map (λ f, if outside_oneofs f then appendProtoField f inner else []) (md_Fields message)) ++
    concat (map (append_oneof inner) (md_Oneofs message)) ++
    concat (map (λ x, appendProtoExtension x inner) (md_Extensions message)) ++
    indent ++ str "}" ++ nl.

(** ** Services and files *)

Definition append_method (method : method_descriptor) : bytes :=
  str "  rpc " ++ mt_Name method ++ str " (" ++ (if mt_StreamingClient method then str "stream " else []) ++
  str "." ++ mt_Input method ++ str ") returns (" ++ (if mt_StreamingServer method then str "stream " else []) ++
  str "." ++ mt_Output method ++ str ")" ++
  (if decide (optionCount (mt_Options method) = 0%nat) then str ";" ++ nl
   else str " {" ++ nl ++ appendProtoOptions (mt_Options method) (str "    ") (str "option ") ++ str "  }" ++ nl).

Definition appendProtoService (service : service_descriptor) : bytes :=
  nl ++ str "service " ++ sv_Name service ++ str " {" ++ nl ++
  appendProtoOptions (sv_Options service) (str "  ") (str "option ") ++
  concat (map append_method (sv_Methods service)) ++ str "}" ++ nl.

Definition syntax_text (syntax : proto_syntax) : bytes := match syntax with Proto2 => str "proto2" | _ => str "proto3" end.

Definition PrintProtoFile (file : file_descriptor) : bytes :=
  str "syntax = " ++ quote ++ syntax_text (fl_Syntax file) ++ quote ++ str ";" ++ nl ++
  (if decide (fl_Package file = []) then [] else str "package " ++ fl_Package file ++ str ";" ++ nl) ++
  concat (map (λ path, str "import " ++ quote ++ escapeProto path ++ quote ++ str ";" ++ nl) (fl_Imports file)) ++
  appendProtoOptions (fl_Options file) [] (str "option ") ++
  concat (map (λ e, appendProtoEnum e []) (fl_Enums file)) ++
  concat (map (λ m, appendProtoMessage m []) (fl_Messages file)) ++
  concat (map (λ x, appendProtoExtension x []) (fl_Extensions file)) ++
  concat (map appendProtoService (fl_Services file)).

(** ** A reader of the text

    The braces and the literals of a .proto source: outside of a literal a brace opens or closes a block, inside of one a backslash
    escapes the next byte, and a line does not end. *)

Inductive lex_mode := Plain | Quoted | Escaped.

Definition lex_step (state : option (Z * lex_mode)) (b : byte) : option (Z * lex_mode) :=
  match state with
  | None => None
  | Some (depth, Plain) =>
      match b with
      | x22 => Some (depth, Quoted)
      | x7b => Some (depth + 1, Plain)
      | x7d => if depth <=? 0 then None else Some (depth - 1, Plain)
      | _ => Some (depth, Plain)
      end
  | Some (depth, Quoted) =>
      match b with x22 => Some (depth, Plain) | x5c => Some (depth, Escaped) | x0a => None | _ => Some (depth, Quoted) end
  | Some (depth, Escaped) => Some (depth, Quoted)
  end.

Definition lex (state : option (Z * lex_mode)) (s : bytes) : option (Z * lex_mode) := foldl lex_step state s.

(** The blocks of a text close, and so do its literals. *)
Definition balanced (s : bytes) : bool :=
  match lex (Some (0, Plain)) s with Some (0, Plain) => true | _ => false end.

(** The literal that begins a text, and what follows it. *)
Fixpoint read_literal (s : bytes) : option (bytes * bytes) :=
  match s with
  | [] => None
  | x22 :: rest => Some ([], rest)
  | x5c :: e :: rest =>
      let b := match e with x6e => x0a | x72 => x0d | x74 => x09 | _ => e end in
      match read_literal rest with Some (value, rest) => Some (b :: value, rest) | None => None end
  | b :: rest => match read_literal rest with Some (value, rest) => Some (b :: value, rest) | None => None end
  end.

Lemma read_escaped value rest : read_literal (escapeProto value ++ quote ++ rest) = Some (value, rest).
Proof.
  unfold escapeProto. induction value as [|b value IH]; [done|]. cbn [map concat]. rewrite <- (assoc_L (++)).
  assert (∀ s, read_literal (escape_byte b ++ s) = match read_literal s with Some (v, r) => Some (b :: v, r) | None => None end) as ->
    by (intros s; by destruct b).
  by rewrite IH.
Qed.

(** *** Text that leaves the depth as it was *)

Definition neutral (s : bytes) : Prop := ∀ d, 0 ≤ d → lex (Some (d, Plain)) s = Some (d, Plain).

Lemma lex_app state s t : lex state (s ++ t) = lex (lex state s) t.
Proof. apply foldl_app. Qed.

Lemma neutral_nil : neutral [].
Proof. by intros d _. Qed.

Lemma neutral_app s t : neutral s → neutral t → neutral (s ++ t).
Proof. intros Hs Ht d Hd. by rewrite lex_app, Hs, Ht. Qed.

Lemma neutral_concat ts : Forall neutral ts → neutral (concat ts).
Proof. induction 1; [apply neutral_nil|]. by apply neutral_app. Qed.

Lemma neutral_map {A} (f : A → bytes) l : (∀ x, x ∈ l → neutral (f x)) → neutral (concat (map f l)).
Proof. intros H. apply neutral_concat, Forall_map, Forall_forall, H. Qed.

Lemma neutral_block s : neutral s → neutral (str "{" ++ s ++ str "}").
Proof.
  intros Hs d Hd. rewrite lex_app. change (lex (Some (d, Plain)) (str "{")) with (Some (d + 1, Plain)). rewrite lex_app, Hs by lia.
  cbn. replace (d + 1 <=? 0) with false by lia. do 2 f_equal. lia.
Qed.

(** A byte that neither opens nor closes anything. *)
Definition plain_byte (b : byte) : bool := match b with x22 | x7b | x7d => false | _ => true end.
Definition plain_text (s : bytes) : bool := forallb plain_byte s.

Lemma neutral_plain s : plain_text s = true → neutral s.
Proof.
  intros H d Hd. induction s as [|b s IH]; [done|]. cbn [plain_text forallb] in H. apply andb_true_iff in H as [Hb H].
  change (lex (Some (d, Plain)) (b :: s)) with (lex (lex_step (Some (d, Plain)) b) s).
  assert (lex_step (Some (d, Plain)) b = Some (d, Plain)) as -> by (by destruct b). by apply IH.
Qed.

Lemma lex_literal d value : lex (Some (d, Quoted)) (escapeProto value) = Some (d, Quoted).
Proof.
  unfold escapeProto. induction value as [|b value IH]; [done|]. cbn [map concat]. rewrite lex_app.
  assert (lex (Some (d, Quoted)) (escape_byte b) = Some (d, Quoted)) as -> by (by destruct b). done.
Qed.

Lemma neutral_literal value : neutral (quote ++ escapeProto value ++ quote).
Proof. intros d Hd. rewrite !lex_app. change (lex (Some (d, Plain)) quote) with (Some (d, Quoted)). by rewrite lex_literal. Qed.

Lemma neutral_then_literal value s : neutral s → neutral (quote ++ escapeProto value ++ quote ++ s).
Proof. intros Hs. rewrite (assoc_L (++) (escapeProto value)), (assoc_L (++) quote). apply neutral_app; [apply neutral_literal|done]. Qed.

(** A text that is balanced on its own is neutral at every depth. *)
Lemma lex_shift s a m b m' d : 0 ≤ d → lex (Some (a, m)) s = Some (b, m') → lex (Some (a + d, m)) s = Some (b + d, m').
Proof.
  intros Hd. revert a m. induction s as [|x s IH]; intros a m; [by intros [= -> ->]|].
  change (lex ?st (x :: s)) with (lex (lex_step st x) s). intros H.
  destruct (lex_step (Some (a, m)) x) as [[a1 m1]|] eqn:Hx; [|assert (∀ s, lex None s = None) as Hn by (clear; induction s; done); by rewrite Hn in H].
  assert (lex_step (Some (a + d, m)) x = Some (a1 + d, m1)) as ->; [|by apply IH].
  destruct m; cbn [lex_step] in *.
  - destruct x; try (injection Hx as <- <-; first [done|do 2 f_equal; lia]). destruct (Z.leb_spec a 0); [done|]. injection Hx as <- <-.
    replace (a + d <=? 0) with false by lia. do 2 f_equal. lia.
  - destruct x; try (injection Hx as <- <-; done). done.
  - by injection Hx as <- <-.
Qed.

Lemma neutral_balanced s : balanced s = true → neutral s.
Proof.
  unfold balanced. intros H d Hd. destruct (lex (Some (0, Plain)) s) as [[n m]|] eqn:Hl; [|done].
  apply (lex_shift s 0 Plain n m d Hd) in Hl. rewrite Z.add_0_l in Hl. destruct n, m; done.
Qed.

Lemma neutral_int n : neutral (FormatInt n).
Proof.
  apply neutral_plain. unfold plain_text. apply forallb_forall. intros b Hb%list_elem_of_In. pose proof (FormatInt_bytes n) as Hf. rewrite Forall_forall in Hf.
  destruct (Hf b Hb) as [Hd| ->]; [|done]. revert Hd. by destruct b.
Qed.

Lemma neutral_join texts sep : Forall neutral texts → neutral sep → neutral (strings_Join texts sep).
Proof.
  intros H Hs. induction H as [|t texts Ht _ IH]; [apply neutral_nil|]. destruct texts as [|u texts]; [done|].
  change (strings_Join (t :: u :: texts) sep) with (t ++ sep ++ strings_Join (u :: texts) sep). by repeat apply neutral_app.
Qed.

Create HintDb text.
#[export] Hint Resolve neutral_nil neutral_literal neutral_int : text.
#[export] Hint Extern 1 (neutral (str _)) => apply neutral_plain; vm_compute; reflexivity : text.
#[export] Hint Extern 1 (neutral nl) => apply neutral_plain; reflexivity : text.
#[export] Hint Extern 2 (neutral _) => apply neutral_plain; assumption : text.

(** ** Clean descriptors

    The names are texts without quotes and braces, as identifiers are, and so are the other texts that the library prints, apart
    from a message, whose blocks close. *)

Definition clean_option_value (v : option_value) : bool :=
  match v with
  | OptString _ | OptBytes _ => true
  | OptEnum name _ => match name with Some name => plain_text name | None => true end
  | OptMessage text => balanced (TrimSpace text)
  | OptOther text => plain_text text
  end.

Definition clean_option (o : proto_option) : bool := plain_text (option_name o) && forallb clean_option_value (opt_values o).
Abbreviation clean_options := (forallb clean_option).

Fixpoint clean_field (field : field_descriptor) : bool :=
  plain_text (fd_Name field) && plain_text (fd_Type field) && plain_text (fd_TypeName field) && clean_options (fd_Options field) &&
  match fd_Map field with Some (key, value) => clean_field key && clean_field value | None => true end &&
  forallb clean_field (fd_Group field).

Definition clean_enum (e : enum_descriptor) : bool :=
  plain_text (ed_Name e) && clean_options (ed_Options e) && forallb (λ v, plain_text (ev_Name v) && clean_options (ev_Options v)) (ed_Values e).

Definition clean_oneof (o : oneof_descriptor) : bool :=
  plain_text (od_Name o) && clean_options (od_Options o) && forallb clean_field (od_Fields o).

Definition clean_extension (x : extension_descriptor) : bool := plain_text (xd_ContainingMessage x) && clean_field (xd_Field x).

Fixpoint clean_message (m : message_descriptor) : bool :=
  plain_text (md_Name m) && clean_options (md_Options m) && forallb clean_enum (md_Enums m) && forallb clean_message (md_Messages m) &&
  forallb clean_field (md_Fields m) && forallb clean_oneof (md_Oneofs m) && forallb clean_extension (md_Extensions m).

Definition clean_method (m : method_descriptor) : bool :=
  plain_text (mt_Name m) && plain_text (mt_Input m) && plain_text (mt_Output m) && clean_options (mt_Options m).

Definition clean_service (s : service_descriptor) : bool :=
  plain_text (sv_Name s) && clean_options (sv_Options s) && forallb clean_method (sv_Methods s).

Definition clean_file (f : file_descriptor) : bool :=
  plain_text (fl_Package f) && clean_options (fl_Options f) && forallb clean_enum (fl_Enums f) && forallb clean_message (fl_Messages f) &&
  forallb clean_extension (fl_Extensions f) && forallb clean_service (fl_Services f).

(** ** What is printed of clean descriptors *)

Lemma forallb_in {A} (p : A → bool) l x : forallb p l = true → x ∈ l → p x = true.
Proof. intros H Hx%list_elem_of_In. by eapply (proj1 (forallb_forall p l)). Qed.

(** Clean descriptors are taken apart, and texts into the parts that the hints settle. *)
Ltac parts :=
  repeat match goal with
  | H : _ && _ = true |- _ => apply andb_true_iff in H as [? H]
  end.
Ltac neutrals := repeat first [apply neutral_then_literal | apply neutral_app]; auto with text.

(** A text that takes the reader from [n] open blocks to [m]. *)
Definition opens (n m : nat) (s : bytes) : Prop := ∀ d, 0 ≤ d → lex (Some (d + Z.of_nat n, Plain)) s = Some (d + Z.of_nat m, Plain).

Lemma opens_app n k m s t : opens n k s → opens k m t → opens n m (s ++ t).
Proof. intros Hs Ht d Hd. by rewrite lex_app, Hs, Ht. Qed.

Lemma opens_neutral n s : neutral s → opens n n s.
Proof. intros Hs d Hd. apply Hs. lia. Qed.

Lemma opens_brace n : opens n (S n) (str " {").
Proof. intros d Hd. cbn. do 2 f_equal. lia. Qed.

Lemma closes_brace n : opens (S n) n (str "}").
Proof. intros d Hd. cbn -[Z.add Z.of_nat Z.leb]. destruct (Z.leb_spec (d + Z.of_nat (S n)) 0); [lia|]. do 2 f_equal. lia. Qed.

Lemma neutral_opens s : opens 0 0 s → neutral s.
Proof. intros H d Hd. specialize (H d Hd). by rewrite !Z.add_0_r in H. Qed.

(** A text is read piece by piece, and its braces are counted. *)
Ltac piece := first [apply opens_brace | apply closes_brace | apply opens_neutral; solve [auto with text]].
Ltac blocks := apply neutral_opens; repeat (eapply opens_app; [piece|]); piece.

Section options.

Lemma neutral_option_value v : clean_option_value v = true → neutral (protoOptionValue v).
Proof.
  destruct v as [s|s|[name|] n|text|text]; cbn [clean_option_value protoOptionValue]; intros H; auto with text.
  assert (str "{ " ++ TrimSpace text ++ str " }" = str "{" ++ (str " " ++ TrimSpace text ++ str " ") ++ str "}") as ->
    by (by rewrite <- !(assoc_L (++))).
  apply neutral_block. neutrals. by apply neutral_balanced.
Qed.

Lemma clean_emitted options e :
  clean_options options = true → e ∈ forEachOption options → neutral e.1 ∧ neutral e.2.
Proof.
  intros H (l & (o & <- & Ho%list_elem_of_In)%in_map_iff & He)%list_elem_of_In%in_concat.
  pose proof (forallb_in _ _ _ H Ho) as [Hn Hv]%andb_true_iff.
  apply in_map_iff in He as (v & <- & Hin%list_elem_of_In). split; [by apply neutral_plain|].
  apply neutral_option_value. by apply (forallb_in _ _ _ Hv).
Qed.

Lemma neutral_options options indent prefix :
  clean_options options = true → plain_text indent = true → neutral prefix → neutral (appendProtoOptions options indent prefix).
Proof.
  intros H Hi Hp. apply neutral_map. intros e He. destruct (clean_emitted _ _ H He). neutrals.
Qed.

Lemma neutral_inline options : clean_options options = true → neutral (appendInlineProtoOptions options).
Proof.
  intros H. unfold appendInlineProtoOptions.
  assert (Forall neutral (map (λ e, e.1 ++ str " = " ++ e.2) (forEachOption options))) as Hall.
  { apply Forall_map, Forall_forall. intros e He. destruct (clean_emitted _ _ H He). neutrals. }
  destruct (map _ _); [auto with text|]. neutrals. apply neutral_join; auto with text.
Qed.

End options.

#[export] Hint Resolve neutral_options neutral_inline : text.

Lemma plain_app s t : plain_text s = true → plain_text t = true → plain_text (s ++ t) = true.
Proof. intros Hs Ht. unfold plain_text in *. by rewrite forallb_app, Hs, Ht. Qed.

#[export] Hint Extern 1 (plain_text (str _) = true) => reflexivity : text.
#[export] Hint Resolve plain_app : text.

Lemma clean_field_unfold field :
  clean_field field =
  plain_text (fd_Name field) && plain_text (fd_Type field) && plain_text (fd_TypeName field) && clean_options (fd_Options field) &&
  match fd_Map field with Some (key, value) => clean_field key && clean_field value | None => true end &&
  forallb clean_field (fd_Group field).
Proof. by destruct field. Qed.

Lemma protoTypeName_unfold field :
  protoTypeName field =
  match fd_Map field with
  | Some (key, value) => str "map<" ++ protoTypeName key ++ str ", " ++ protoTypeName value ++ str ">"
  | None =>
      match fd_Kind field with
      | MessageKind | GroupKind | EnumKind => str "." ++ fd_Type field
      | kind => kind_String kind
      end
  end.
Proof. by destruct field as [???????????? ?]. Qed.

Lemma neutral_type_name field : clean_field field = true → neutral (protoTypeName field).
Proof.
  induction field as [field IHm _] using field_descriptor_nested_ind. rewrite clean_field_unfold, protoTypeName_unfold.
  intros H. parts. destruct (fd_Map field) as [[key value]|]; [destruct IHm; parts; neutrals|].
  destruct (fd_Kind field); cbn [kind_String]; neutrals.
Qed.

Lemma neutral_label field : neutral (field_label field).
Proof. unfold field_label. repeat case_match; auto with text. Qed.

#[export] Hint Resolve neutral_type_name neutral_label : text.

Lemma appendProtoField_unfold field indent :
  appendProtoField field indent =
  indent ++ field_label field ++
  match fd_Kind field with
  | GroupKind =>
      str "group " ++ fd_TypeName field ++ str " = " ++ FormatInt (fd_Number field) ++ str " {" ++ nl ++
      concat (map (λ f, appendProtoField f (indent ++ str "  ")) (fd_Group field)) ++ indent ++ str "}" ++ nl
  | _ =>
      protoTypeName field ++ str " " ++ fd_Name field ++ str " = " ++ FormatInt (fd_Number field) ++
      appendInlineProtoOptions (fd_Options field) ++ str ";" ++ nl
  end.
Proof. by destruct field. Qed.

Lemma neutral_field field indent : clean_field field = true → plain_text indent = true → neutral (appendProtoField field indent).
Proof.
  revert indent. induction field as [field _ IH] using field_descriptor_nested_ind. intros indent H Hi.
  pose proof H as Hc. rewrite clean_field_unfold in H. rewrite appendProtoField_unfold. parts.
  assert (neutral (protoTypeName field)) by auto with text.
  destruct (fd_Kind field) eqn:Hk; try solve [neutrals].
  assert (neutral (concat (map (λ f, appendProtoField f (indent ++ str "  ")) (fd_Group field)))) as Hg.
  { apply neutral_map. intros f Hf. rewrite Forall_forall in IH. apply IH; auto with text. by eapply forallb_in. }
  blocks.
Qed.

#[export] Hint Resolve neutral_field : text.

(** Each of the printed parts, by the parts of the descriptor. *)
Lemma neutral_all {A} (clean : A → bool) (f : A → bytes) l :
  forallb clean l = true → (∀ x, clean x = true → neutral (f x)) → neutral (concat (map f l)).
Proof. intros H Hf. apply neutral_map. intros x Hx. apply Hf. by eapply forallb_in. Qed.

Lemma neutral_fields fields indent :
  forallb clean_field fields = true → plain_text indent = true → neutral (concat (map (λ f, appendProtoField f indent) fields)).
Proof. intros H Hi. eapply neutral_all; [done|]. auto with text. Qed.

Lemma neutral_enum enum indent : clean_enum enum = true → plain_text indent = true → neutral (appendProtoEnum enum indent).
Proof.
  unfold clean_enum, appendProtoEnum. intros H Hi. parts.
  assert (neutral (concat (map (λ v, indent ++ str "  " ++ ev_Name v ++ str " = " ++ FormatInt (ev_Number v) ++
    appendInlineProtoOptions (ev_Options v) ++ str ";" ++ nl) (ed_Values enum)))).
  { eapply neutral_all; [done|]. cbn beta. intros v Hv. parts. neutrals. }
  blocks.
Qed.

#[export] Hint Resolve neutral_fields neutral_enum : text.

Lemma neutral_extension x indent : clean_extension x = true → plain_text indent = true → neutral (appendProtoExtension x indent).
Proof. unfold clean_extension, appendProtoExtension. intros H Hi. parts. blocks. Qed.

Lemma neutral_oneof oneof indent : clean_oneof oneof = true → plain_text indent = true → neutral (append_oneof indent oneof).
Proof. unfold clean_oneof, append_oneof. intros H Hi. parts. case_match; [auto with text|]. blocks. Qed.

Lemma neutral_range word indent r : plain_text word = true → plain_text indent = true → neutral (append_range word indent r).
Proof. intros Hw Hi. unfold append_range. neutrals. Qed.

Lemma neutral_reserved indent names : plain_text indent = true → neutral (append_reserved_names indent names).
Proof.
  intros Hi. unfold append_reserved_names. destruct names as [|name names]; [auto with text|].
  assert (neutral (strings_Join (map (λ name, quote ++ escapeProto name ++ quote) (name :: names)) (str ", "))).
  { apply neutral_join; [|auto with text]. apply Forall_map, Forall_forall. auto with text. }
  neutrals.
Qed.

#[export] Hint Resolve neutral_extension neutral_oneof neutral_range neutral_reserved : text.

(** *** Messages *)

Section message_induction.
Context (P : message_descriptor → Prop).
Context (step : ∀ message, Forall P (md_Messages message) → P message).

Fixpoint message_descriptor_nested_ind (message : message_descriptor) : P message :=
  step message
    ((fix messages (l : list message_descriptor) : Forall P l :=
        match l with [] => Forall_nil_2 _ | m :: l => Forall_cons_2 _ _ _ (message_descriptor_nested_ind m) (messages l) end)
       (md_Messages message)).

End message_induction.

Lemma clean_message_unfold m :
  clean_message m =
  plain_text (md_Name m) && clean_options (md_Options m) && forallb clean_enum (md_Enums m) && forallb clean_message (md_Messages m) &&
  forallb clean_field (md_Fields m) && forallb clean_oneof (md_Oneofs m) && forallb clean_extension (md_Extensions m).
Proof. by destruct m. Qed.

Lemma appendProtoMessage_unfold message indent :
  appendProtoMessage message indent =
  if md_IsMapEntry message then []
  else
    let inner := indent ++ str "  " in
    nl ++ indent ++ str "message " ++ md_Name message ++ str " {" ++ nl ++
    appendProtoOptions (md_Options message) inner (str "option ") ++
    concat (map (λ e, appendProtoEnum e inner) (md_Enums message)) ++
    concat (map (λ nested, if isGroupType message nested then [] else appendProtoMessage nested inner) (md_Messages message)) ++
    concat (map (append_range (str "reserved") inner) (md_ReservedRange message)) ++
    append_reserved_names inner (md_ReservedName message) ++
    concat (map (append_range (str "extensions") inner) (md_ExtensionRange message)) ++
    concat (map (λ f, if outside_oneofs f then appendProtoField f inner else []) (md_Fields message)) ++
    concat (map (append_oneof inner) (md_Oneofs message)) ++
    concat (map (λ x, appendProtoExtension x inner) (md_Extensions message)) ++
    indent ++ str "}" ++ nl.
Proof. by destruct message. Qed.

Lemma neutral_message message indent : clean_message message = true → plain_text indent = true → neutral (appendProtoMessage message indent).
Proof.
  revert indent. induction message as [message IH] using message_descriptor_nested_ind. intros indent H Hi.
  rewrite clean_message_unfold in H. rewrite appendProtoMessage_unfold. parts. case_match; [auto with text|].
  cbv zeta. assert (plain_text (indent ++ str "  ") = true) as Hinner by auto with text. generalize dependent (indent ++ str "  "). intros inner Hinner.
  assert (neutral (concat (map (λ e, appendProtoEnum e inner) (md_Enums message)))) by (eapply neutral_all; eauto with text).
  assert (neutral (concat (map (λ x, appendProtoExtension x inner) (md_Extensions message)))) by (eapply neutral_all; eauto with text).
  assert (neutral (concat (map (append_oneof inner) (md_Oneofs message)))) by (eapply neutral_all; eauto with text).
  assert (neutral (concat (map (append_range (str "reserved") inner) (md_ReservedRange message)))) by (apply neutral_map; auto with text).
  assert (neutral (concat (map (append_range (str "extensions") inner) (md_ExtensionRange message)))) by (apply neutral_map; auto with text).
  assert (neutral (concat (map (λ f, if outside_oneofs f then appendProtoField f inner else []) (md_Fields message)))).
  { eapply neutral_all; [done|]. intros f Hf. case_match; auto with text. }
  assert (neutral (concat (map (λ nested, if isGroupType message nested then [] else appendProtoMessage nested inner) (md_Messages message)))).
  { apply neutral_map. intros m Hm. rewrite Forall_forall in IH. case_match; [auto with text|]. apply IH; auto. by eapply forallb_in. }
  blocks.
Qed.

(** *** Services and files *)

Lemma neutral_method m : clean_method m = true → neutral (append_method m).
Proof.
  unfold clean_method, append_method. intros H. parts.
  assert (∀ b : bool, neutral (if b then str "stream " else [])) by (intros []; auto with text).
  case_decide; [neutrals|].
  change (str "  }" ++ nl) with (str "  " ++ str "}" ++ nl). blocks.
Qed.

Lemma neutral_service s : clean_service s = true → neutral (appendProtoService s).
Proof.
  unfold clean_service, appendProtoService. intros H. parts.
  assert (neutral (concat (map append_method (sv_Methods s)))) by (eapply neutral_all; eauto using neutral_method).
  blocks.
Qed.

(** The schema text that is registered cannot be broken by the data it carries. For every descriptor whose names are
    identifiers, whatever its nesting, and whatever the strings that its options, its imports and its reserved names hold,
    the blocks and the literals of the printed file close; and each such string, escaped between quotes, reads back as it was,
    wherever it stands. *)
Theorem proto_text_closes (file : file_descriptor) (clean : clean_file file = true) :
  balanced (PrintProtoFile file) = true ∧
  ∀ value rest, read_literal (escapeProto value ++ quote ++ rest) = Some (value, rest).
Proof.
  split; [|apply read_escaped]. assert (neutral (PrintProtoFile file)) as H; [|unfold balanced; by rewrite H].
  unfold clean_file in clean. unfold PrintProtoFile. parts.
  assert (syntax_text (fl_Syntax file) = escapeProto (syntax_text (fl_Syntax file))) as -> by (by destruct (fl_Syntax file)).
  assert (neutral (concat (map (λ path, str "import " ++ quote ++ escapeProto path ++ quote ++ str ";" ++ nl) (fl_Imports file)))).
  { apply neutral_map. intros path _. neutrals. }
  assert (neutral (if decide (fl_Package file = []) then [] else str "package " ++ fl_Package file ++ str ";" ++ nl)) by (case_decide; neutrals).
  assert (neutral (concat (map (λ e, appendProtoEnum e []) (fl_Enums file)))) by (eapply neutral_all; eauto with text).
  assert (neutral (concat (map (λ m, appendProtoMessage m []) (fl_Messages file)))) by (eapply neutral_all; eauto using neutral_message).
  assert (neutral (concat (map (λ x, appendProtoExtension x []) (fl_Extensions file)))) by (eapply neutral_all; eauto with text).
  assert (neutral (concat (map appendProtoService (fl_Services file)))) by (eapply neutral_all; eauto using neutral_service).
  assert (neutral (appendProtoOptions (fl_Options file) [] (str "option "))) by auto with text.
  neutrals.
Qed.

(** ** Printed files *)

Definition scalar_field (name : bytes) (number : Z) (kind : proto_kind) (cardinality : proto_cardinality) (proto2 : bool) : field_descriptor :=
  MkFD name number kind cardinality proto2 None [] [] [] None [] [] proto2.

Definition message_field (field : field_descriptor) (full name : bytes) : field_descriptor :=
  MkFD (fd_Name field) (fd_Number field) (fd_Kind field) (fd_Cardinality field) true (fd_Oneof field) full name (fd_Values field) (fd_Map field)
    (fd_Group field) (fd_Options field) (fd_Proto2 field).

Definition group_field (field : field_descriptor) (full name : bytes) (fields : list field_descriptor) : field_descriptor :=
  MkFD (fd_Name field) (fd_Number field) GroupKind (fd_Cardinality field) true (fd_Oneof field) full name [] None fields [] true.

Definition map_field (field : field_descriptor) (key value : field_descriptor) : field_descriptor :=
  MkFD (fd_Name field) (fd_Number field) MessageKind Repeated false None [] [] [] (Some (key, value)) [] (fd_Options field) (fd_Proto2 field).

Definition within_oneof (field : field_descriptor) (name : bytes) : field_descriptor :=
  MkFD (fd_Name field) (fd_Number field) (fd_Kind field) (fd_Cardinality field) true (Some (name, false)) (fd_Type field) (fd_TypeName field)
    (fd_Values field) (fd_Map field) (fd_Group field) (fd_Options field) (fd_Proto2 field).

Definition with_options (field : field_descriptor) (options : list proto_option) : field_descriptor :=
  MkFD (fd_Name field) (fd_Number field) (fd_Kind field) (fd_Cardinality field) (fd_HasPresence field) (fd_Oneof field) (fd_Type field)
    (fd_TypeName field) (fd_Values field) (fd_Map field) (fd_Group field) options (fd_Proto2 field).

Definition plain_message (name full : bytes) (nested : list message_descriptor) (fields : list field_descriptor) : message_descriptor :=
  MkMD name full false [] [] nested [] [] [] fields [] [].

Definition unlines (lines : list bytes) : bytes := concat (map (λ l, l ++ nl) lines).

(** A file with an option, a name and an import that hold quotes, braces, backslashes and line ends. *)
Definition wild : bytes := [x22; x7d; x5c; x0a] ++ str "{".

Definition orders_note : field_descriptor :=
  with_options (scalar_field (str "note") 2 StringKind Repeated false)
    [MkOption (str "label") (Some (str "shop.label")) [OptString wild; OptMessage (str " a:{b:1} ")]].

Definition orders_state : field_descriptor :=
  MkFD (str "state") 3 EnumKind Optional true (Some (str "_state", true)) (str "shop.Order.State") (str "State") [(str "NEW", 0)] None [] [] false.

Definition orders_count : field_descriptor :=
  map_field (scalar_field (str "count") 4 MessageKind Repeated false) (scalar_field (str "key") 1 StringKind Optional false)
    (scalar_field (str "value") 2 Sint32Kind Optional false).

Definition orders_pay : list field_descriptor :=
  [within_oneof (scalar_field (str "card") 5 BytesKind Optional false) (str "pay");
   within_oneof (scalar_field (str "cash") 6 BoolKind Optional false) (str "pay")].

Definition orders_file : file_descriptor :=
  MkFile Proto3 (str "shop") [wild] [] []
    [MkMD (str "Order") (str "shop.Order") false [] [MkED (str "State") [] [MkEV (str "NEW") 0 []]] [] [(8, 10)] [wild] []
       ([scalar_field (str "id") 1 Int64Kind Optional false; orders_note; orders_state; orders_count] ++ orders_pay)
       [MkOD (str "pay") false [] orders_pay; MkOD (str "_state") true [] [orders_state]] []] []
    [MkService (str "Orders") [] [MkMethod (str "Watch") false true (str "shop.Order") (str "shop.Order") []]].

(** The literal of [wild], with the escapes of [escapeProto]. *)
Definition wild_literal : bytes := quote ++ [x5c; x22; x7d; x5c; x5c; x5c] ++ str "n{" ++ quote.

Example orders_text : PrintProtoFile orders_file = unlines
  [str "syntax = " ++ quote ++ str "proto3" ++ quote ++ str ";"; str "package shop;"; str "import " ++ wild_literal ++ str ";";
   []; str "message Order {"; []; str "  enum State {"; str "    NEW = 0;"; str "  }";
   str "  reserved 8 to 9;"; str "  reserved " ++ wild_literal ++ str ";";
   str "  int64 id = 1;";
   str "  repeated string note = 2 [(shop.label) = " ++ wild_literal ++ str ", (shop.label) = { a:{b:1} }];";
   str "  optional .shop.Order.State state = 3;"; str "  map<string, sint32> count = 4;";
   str "  oneof pay {"; str "    bytes card = 5;"; str "    bool cash = 6;"; str "  }"; str "}";
   []; str "service Orders {"; str "  rpc Watch (.shop.Order) returns (stream .shop.Order);"; str "}"].
Proof. vm_compute. reflexivity. Qed.

Lemma proto_text_closes_witness :
  clean_file orders_file = true ∧ balanced (PrintProtoFile orders_file) = true ∧
  ∀ value rest, read_literal (escapeProto value ++ quote ++ rest) = Some (value, rest).
Proof. split; [vm_compute; reflexivity|apply (proto_text_closes orders_file); vm_compute; reflexivity]. Defined.

(** *** Texts that the compiler of the language does not accept *)

Definition proto2_file (messages : list message_descriptor) (extensions : list extension_descriptor) : file_descriptor :=
  MkFile Proto2 [] [] [] [] messages extensions [].

Definition proto2_header : bytes := str "syntax = " ++ quote ++ str "proto2" ++ quote ++ str ";".

(** A map field of a proto2 file gets the label that the language forbids for maps. *)
Lemma proto2_map_labelled :
  PrintProtoFile (proto2_file
    [plain_message (str "M") (str "M") []
       [map_field (scalar_field (str "m") 1 MessageKind Repeated true) (scalar_field (str "key") 1 StringKind Optional true)
          (scalar_field (str "value") 2 Int32Kind Optional true)]] []) =
  unlines [proto2_header; []; str "message M {"; str "  optional map<string, int32> m = 1;"; str "}"].
Proof. vm_compute. reflexivity. Qed.

(** The fields of a oneof of a group lose the oneof, and stand in the group without a label. *)
Lemma group_oneof_lost :
  PrintProtoFile (proto2_file
    [plain_message (str "M") (str "M") [plain_message (str "G") (str "M.G") [] []]
       [group_field (scalar_field (str "g") 1 GroupKind Optional true) (str "M.G") (str "G")
          [within_oneof (scalar_field (str "a") 2 Int32Kind Optional true) (str "choice")]]] []) =
  unlines [proto2_header; []; str "message M {"; str "  optional group G = 1 {"; str "    int32 a = 2;"; str "  }"; str "}"].
Proof. vm_compute. reflexivity. Qed.

(** A message nested in a group is not printed, and a field of the group names it. *)
Lemma group_nested_lost :
  PrintProtoFile (proto2_file
    [plain_message (str "M") (str "M")
       [plain_message (str "G") (str "M.G") [plain_message (str "N") (str "M.G.N") [] []] []]
       [group_field (scalar_field (str "g") 1 GroupKind Optional true) (str "M.G") (str "G")
          [message_field (scalar_field (str "n") 2 MessageKind Optional true) (str "M.G.N") (str "N")]]] []) =
  unlines [proto2_header; []; str "message M {"; str "  optional group G = 1 {"; str "    optional .M.G.N n = 2;"; str "  }"; str "}"].
Proof. vm_compute. reflexivity. Qed.

(** The message of a group that is an extension is printed twice, once as a message. *)
Lemma group_extension_twice :
  PrintProtoFile (proto2_file [plain_message (str "G") (str "G") [] [scalar_field (str "a") 2 Int32Kind Optional true]]
    [MkXD (str "M") (group_field (scalar_field (str "g") 100 GroupKind Optional true) (str "G") (str "G")
       [scalar_field (str "a") 2 Int32Kind Optional true])]) =
  unlines [proto2_header; []; str "message G {"; str "  optional int32 a = 2;"; str "}";
    str "extend .M {"; str "  optional group G = 100 {"; str "    optional int32 a = 2;"; str "  }"; str "}"].
Proof. vm_compute. reflexivity. Qed.
