(* ===== verification/ProtoParse.v ===== *)
(** * Reading printed .proto sources

    What a reader of the language makes of the text that schema/protoprint.go prints. A text is split into tokens, tokens are grouped into
    statements and blocks, and statements are understood as declarations. The theorem is that the text of a descriptor declares what
    the descriptor holds: nothing is lost, merged or changed on the way to the registry. *)

From S2P Require Import Prelude GoStd GoNet GoText Kafka Nested Proto ProtoPrint.

#[local] Open Scope Z_scope.

(** ** Tokens *)

(** A name with its dots or a number with its sign, a literal, the message that is the value of an option, and any other byte. *)
Inductive token := Word (w : bytes) | Literal (value : bytes) | Aggregate (text : bytes) | Mark (b : byte).

#[global] Instance token_eq_dec : EqDecision token.
Proof. solve_decision. Defined.

Definition word_byte (b : byte) : bool :=
  in_range b 48 57 || in_range b 65 90 || in_range b 97 122 || bool_decide (b ∈ str "_.+-").

Definition word (w : bytes) : bool := match w with [] => false | _ => forallb word_byte w end.

Definition space_byte (b : byte) : bool := match b with x20 | x0a | x0d | x09 => true | _ => false end.

(** After an equals sign, a brace opens a message and not a block. *)
Inductive reading :=
| Between
| AfterEquals
| InWord (w : bytes)
| InLiteral (value : bytes)
| InEscape (value : bytes)
| InAggregate (text : bytes) (depth : Z) (mode : lex_mode).

Definition open_token (b : byte) : list token * reading :=
  if space_byte b then ([], Between)
  else if word_byte b then ([], InWord [b])
  else match b with x22 => ([], InLiteral []) | x3d => ([Mark b], AfterEquals) | _ => ([Mark b], Between) end.

Definition unescape (b : byte) : byte := match b with x6e => x0a | x72 => x0d | x74 => x09 | _ => b end.

Definition read_byte (state : reading) (b : byte) : option (list token * reading) :=
  match state with
  | Between => Some (open_token b)
  | AfterEquals =>
      if space_byte b then Some ([], AfterEquals)
      else match b with x7b => Some ([], InAggregate [] 1 Plain) | _ => Some (open_token b) end
  | InWord w =>
      if word_byte b then Some ([], InWord (w ++ [b]))
      else let (ts, state) := open_token b in Some (Word w :: ts, state)
  | InLiteral value =>
      match b with
      | x22 => Some ([Literal value], Between)
      | x5c => Some ([], InEscape value)
      | x0a => None
      | _ => Some ([], InLiteral (value ++ [b]))
      end
  | InEscape value => Some ([], InLiteral (value ++ [unescape b]))
  | InAggregate text depth mode =>
      match lex_step (Some (depth, mode)) b with
      | None => None
      | Some (0, _) => Some ([Aggregate text], Between)
      | Some (depth, mode) => Some ([], InAggregate (text ++ [b]) depth mode)
      end
  end.

Fixpoint read (state : reading) (s : bytes) : option (list token * reading) :=
  match s with
  | [] => Some ([], state)
  | b :: s =>
      match read_byte state b with
      | None => None
      | Some (ts, state) => match read state s with None => None | Some (us, state) => Some (ts ++ us, state) end
      end
  end.

Definition tokens_of (s : bytes) : option (list token) :=
  match read Between s with
  | Some (ts, Between) => Some ts
  | Some (ts, InWord w) => Some (ts ++ [Word w])
  | _ => None
  end.

(** ** Statements *)

(** What a semicolon ends, and a block with the tokens before it. *)
Inductive statement := Simple (ts : list token) | Block (head : list token) (body : list statement).

(** The blocks that are open, with what stands before them; the statements of the innermost, and the tokens of the next. *)
Record grouping := MkGrouping { gr_Open : list (list token * list statement); gr_Body : list statement; gr_Pending : list token }.

Definition group_token (g : option grouping) (t : token) : option grouping :=
  match g with
  | None => None
  | Some (MkGrouping opened body pending) =>
      match t with
      | Mark x3b => Some (MkGrouping opened (body ++ [Simple pending]) [])
      | Mark x7b => Some (MkGrouping ((pending, body) :: opened) [] [])
      | Mark x7d =>
          match opened, pending with
          | (head, outer) :: opened, [] => Some (MkGrouping opened (outer ++ [Block head body]) [])
          | _, _ => None
          end
      | _ => Some (MkGrouping opened body (pending ++ [t]))
      end
  end.

Definition statements_of (ts : list token) : option (list statement) :=
  match foldl group_token (Some (MkGrouping [] [] [])) ts with
  | Some (MkGrouping [] body []) => Some body
  | _ => None
  end.

(** ** Declarations *)

Inductive label := LOptional | LRequired | LRepeated.

Inductive declared_type := Named (name : bytes) | MapOf (key value : bytes).

(** An option by its name, that of an extension in parentheses, with one of its values. *)
Record declared_option := MkDeclared { do_Extension : bool; do_Name : bytes; do_Value : token }.

Inductive declaration :=
| DSyntax (value : bytes)
| DPackage (name : bytes)
| DImport (path : bytes)
| DOption (o : declared_option)
| DField (l : option label) (type : declared_type) (name : bytes) (number : Z) (options : list declared_option)
| DGroup (l : option label) (name : bytes) (number : Z) (body : list declaration)
| DEnum (name : bytes) (body : list declaration)
| DEnumValue (name : bytes) (number : Z) (options : list declared_option)
| DMessage (name : bytes) (body : list declaration)
| DOneof (name : bytes) (body : list declaration)
| DExtend (name : bytes) (body : list declaration)
| DReserved (first last : Z)
| DReservedNames (names : list bytes)
| DExtensions (first last : Z)
| DService (name : bytes) (body : list declaration)
| DRpc (name : bytes) (client : bool) (input : bytes) (server : bool) (output : bytes) (body : option (list declaration)).

(** *** Understanding a statement *)

Definition label_word (w : bytes) : option label :=
  if bool_decide (w = str "optional") then Some LOptional
  else if bool_decide (w = str "required") then Some LRequired
  else if bool_decide (w = str "repeated") then Some LRepeated else None.

(** Options between brackets. *)
Fixpoint read_options (ts : list token) : option (list declared_option) :=
  match ts with
  | Word name :: Mark x3d :: v :: rest =>
      match rest with
      | [Mark x5d] => Some [MkDeclared false name v]
      | Mark x2c :: rest => match read_options rest with Some os => Some (MkDeclared false name v :: os) | None => None end
      | _ => None
      end
  | Mark x28 :: Word name :: Mark x29 :: Mark x3d :: v :: rest =>
      match rest with
      | [Mark x5d] => Some [MkDeclared true name v]
      | Mark x2c :: rest => match read_options rest with Some os => Some (MkDeclared true name v :: os) | None => None end
      | _ => None
      end
  | _ => None
  end.

Definition read_inline (ts : list token) : option (list declared_option) :=
  match ts with [] => Some [] | Mark x5b :: ts => read_options ts | _ => None end.

(** The literals between commas. *)
Fixpoint read_names (ts : list token) : option (list bytes) :=
  match ts with
  | [Literal name] => Some [name]
  | Literal name :: Mark x2c :: ts => match read_names ts with Some names => Some (name :: names) | None => None end
  | _ => None
  end.

Inductive keyword :=
| KSyntax | KPackage | KImport | KOption | KReserved | KExtensions | KMessage | KEnum | KOneof | KExtend | KService | KRpc | KGroup
| KMap | KTo | KReturns | KStream | KLabel (l : label).

Definition spelling (k : keyword) : bytes :=
  match k with
  | KSyntax => str "syntax" | KPackage => str "package" | KImport => str "import" | KOption => str "option"
  | KReserved => str "reserved" | KExtensions => str "extensions" | KMessage => str "message" | KEnum => str "enum"
  | KOneof => str "oneof" | KExtend => str "extend" | KService => str "service" | KRpc => str "rpc" | KGroup => str "group"
  | KMap => str "map" | KTo => str "to" | KReturns => str "returns" | KStream => str "stream"
  | KLabel LOptional => str "optional" | KLabel LRequired => str "required" | KLabel LRepeated => str "repeated"
  end.

Definition keywords : list keyword :=
  [KSyntax; KPackage; KImport; KOption; KReserved; KExtensions; KMessage; KEnum; KOneof; KExtend; KService; KRpc; KGroup; KMap; KTo; KReturns; KStream;
   KLabel LOptional; KLabel LRequired; KLabel LRepeated].

Definition keyword_of (w : bytes) : option keyword := List.find (λ k, bool_decide (w = spelling k)) keywords.

(** [rest] after the keyword [k]. *)
Definition expect {A} (k : keyword) (w : bytes) (rest : option A) : option A := if bool_decide (w = spelling k) then rest else None.

Definition read_label (ts : list token) : option label * list token :=
  match ts with
  | Word w :: rest => match keyword_of w with Some (KLabel l) => (Some l, rest) | _ => (None, ts) end
  | _ => (None, ts)
  end.

Definition read_type (ts : list token) : option (declared_type * list token) :=
  match ts with
  | Word w :: Mark x3c :: Word key :: Mark x2c :: Word value :: Mark x3e :: rest => expect KMap w (Some (MapOf key value, rest))
  | Word name :: rest => Some (Named name, rest)
  | _ => None
  end.

Definition read_field (ts : list token) : option declaration :=
  let (l, ts) := read_label ts in
  match read_type ts with
  | Some (type, Word name :: Mark x3d :: Word number :: rest) =>
      number ← ParseInt number 64; options ← read_inline rest; Some (DField l type name number options)
  | _ => None
  end.

Definition read_range (f : Z → Z → declaration) (ts : list token) : option declaration :=
  match ts with
  | [Word first; Word w; Word last] => expect KTo w (first ← ParseInt first 64; last ← ParseInt last 64; Some (f first last))
  | _ => None
  end.

(** The message of a method, after the parenthesis, and whether it is a stream. *)
Definition read_message (ts : list token) : option (bool * bytes * list token) :=
  match ts with
  | Word name :: Mark x29 :: rest => Some (false, name, rest)
  | Word w :: Word name :: Mark x29 :: rest => expect KStream w (Some (true, name, rest))
  | _ => None
  end.

Definition read_rpc (ts : list token) (body : option (list declaration)) : option declaration :=
  match ts with
  | Word name :: Mark x28 :: ts =>
      match read_message ts with
      | Some (client, input, Word w :: Mark x28 :: ts) =>
          match read_message ts with
          | Some (server, output, []) => expect KReturns w (Some (DRpc name client input server output body))
          | _ => None
          end
      | _ => None
      end
  | _ => None
  end.

Definition read_option (ts : list token) : option declaration :=
  match ts with
  | [Word name; Mark x3d; v] => Some (DOption (MkDeclared false name v))
  | [Mark x28; Word name; Mark x29; Mark x3d; v] => Some (DOption (MkDeclared true name v))
  | _ => None
  end.

Definition read_simple (ts : list token) : option declaration :=
  match ts with
  | [Word w; Mark x3d; Literal value] => expect KSyntax w (Some (DSyntax value))
  | Word name :: Mark x3d :: Word number :: rest =>
      number ← ParseInt number 64; options ← read_inline rest; Some (DEnumValue name number options)
  | Word w :: rest =>
      match keyword_of w with
      | Some KPackage => match rest with [Word name] => Some (DPackage name) | _ => None end
      | Some KImport => match rest with [Literal path] => Some (DImport path) | _ => None end
      | Some KOption => read_option rest
      | Some KReserved =>
          match rest with Literal _ :: _ => names ← read_names rest; Some (DReservedNames names) | _ => read_range DReserved rest end
      | Some KExtensions => read_range DExtensions rest
      | Some KRpc => read_rpc rest None
      | _ => read_field ts
      end
  | _ => None
  end.

Definition read_block (head : list token) (body : list declaration) : option declaration :=
  match read_label head with
  | (l, [Word w; Word name; Mark x3d; Word number]) => expect KGroup w (number ← ParseInt number 64; Some (DGroup l name number body))
  | (None, Word w :: rest) =>
      match keyword_of w, rest with
      | Some KMessage, [Word name] => Some (DMessage name body)
      | Some KEnum, [Word name] => Some (DEnum name body)
      | Some KOneof, [Word name] => Some (DOneof name body)
      | Some KExtend, [Word name] => Some (DExtend name body)
      | Some KService, [Word name] => Some (DService name body)
      | Some KRpc, _ => read_rpc rest (Some body)
      | _, _ => None
      end
  | _ => None
  end.

Fixpoint all_some {A} (l : list (option A)) : option (list A) :=
  match l with [] => Some [] | x :: l => match x, all_some l with Some x, Some l => Some (x :: l) | _, _ => None end end.

Fixpoint declare (s : statement) : option declaration :=
  match s with
  | Simple ts => read_simple ts
  | Block head body => match all_some (map declare body) with Some body => read_block head body | None => None end
  end.

(** *** A source *)

Definition read_file (s : bytes) : option (list declaration) :=
  match tokens_of s with
  | Some ts => match statements_of ts with Some statements => all_some (map declare statements) | None => None end
  | None => None
  end.

(** ** The declarations of a descriptor *)

Definition value_token (v : option_value) : token :=
  match v with
  | OptString s | OptBytes s => Literal s
  | OptEnum (Some name) _ => Word name
  | OptEnum None number => Word (FormatInt number)
  | OptMessage text => Aggregate (str " " ++ TrimSpace text ++ str " ")
  | OptOther text => Word text
  end.

(** An option with each of its values: every value of a list is an option of its own. *)
Definition populated (options : list proto_option) : list (proto_option * option_value) :=
  concat (map (λ o, map (pair o) (opt_values o)) options).

Definition declared_of (o : proto_option) (v : option_value) : declared_option :=
  match opt_extension o with
  | Some full => MkDeclared true full (value_token v)
  | None => MkDeclared false (opt_Name o) (value_token v)
  end.

Definition declared_options (options : list proto_option) : list declared_option :=
  map (λ e, declared_of e.1 e.2) (populated options).

(** The label of a field: none within a oneof and for a map, [optional] for an optional field of proto3, and otherwise that of its
    cardinality, which only proto2 spells for a singular field. *)
Definition declared_label (field : field_descriptor) : option label :=
  match fd_Oneof field, fd_Map field with
  | Some (_, synthetic), _ => if synthetic then Some LOptional else None
  | None, Some _ => None
  | None, None =>
      match fd_Cardinality field with
      | Repeated => Some LRepeated
      | Required => if fd_Proto2 field then Some LRequired else None
      | Optional => if fd_Proto2 field then Some LOptional else None
      end
  end.

(** The type of a field that is no map: a word of the language, or the full name of a message or an enum. *)
Definition type_word (field : field_descriptor) : bytes :=
  match fd_Kind field with
  | DoubleKind => str "double" | FloatKind => str "float" | BoolKind => str "bool" | StringKind => str "string" | BytesKind => str "bytes"
  | Int32Kind => str "int32" | Int64Kind => str "int64" | Uint32Kind => str "uint32" | Uint64Kind => str "uint64"
  | Sint32Kind => str "sint32" | Sint64Kind => str "sint64" | Fixed32Kind => str "fixed32" | Fixed64Kind => str "fixed64"
  | Sfixed32Kind => str "sfixed32" | Sfixed64Kind => str "sfixed64"
  | MessageKind | GroupKind | EnumKind => ascii_byte "." :: fd_Type field
  end.

Definition type_of_field (field : field_descriptor) : declared_type :=
  match fd_Map field with
  | Some (key, value) => MapOf (type_word key) (type_word value)
  | None => Named (type_word field)
  end.

Fixpoint declared_field (field : field_descriptor) : declaration :=
  match fd_Kind field with
  | GroupKind => DGroup (declared_label field) (fd_TypeName field) (fd_Number field) (map declared_field (fd_Group field))
  | _ => DField (declared_label field) (type_of_field field) (fd_Name field) (fd_Number field) (declared_options (fd_Options field))
  end.

Definition declared_extension (x : extension_descriptor) : declaration :=
  DExtend (str "." ++ xd_ContainingMessage x) [declared_field (xd_Field x)].

Definition declared_enum (enum : enum_descriptor) : declaration :=
  DEnum (ed_Name enum) (map DOption (declared_options (ed_Options enum)) ++
    map (λ v, DEnumValue (ev_Name v) (ev_Number v) (declared_options (ev_Options v))) (ed_Values enum)).

Definition declared_oneof (oneof : oneof_descriptor) : list declaration :=
  if od_IsSynthetic oneof then []
  else [DOneof (od_Name oneof) (map DOption (declared_options (od_Options oneof)) ++ map declared_field (od_Fields oneof))].

(** The full names of the messages that the groups among the fields of a message declare. *)
Definition group_types (message : message_descriptor) : list bytes :=
  omap (λ f, match fd_Kind f with GroupKind => Some (fd_Type f) | _ => None end) (md_Fields message).

(** The fields that a message declares outside of its oneofs; a synthetic oneof stands for a label. *)
Definition own_fields (message : message_descriptor) : list field_descriptor :=
  List.filter (λ f, match fd_Oneof f with Some (_, false) => false | _ => true end) (md_Fields message).

(** The message of a map entry stands in the type of its field, that of a group in the field. *)
Fixpoint declared_message (message : message_descriptor) : list declaration :=
  if md_IsMapEntry message then []
  else [DMessage (md_Name message) (
    map DOption (declared_options (md_Options message)) ++
    map declared_enum (md_Enums message) ++
    concat (map (λ nested, if decide (md_FullName nested ∈ group_types message) then [] else declared_message nested) (md_Messages message)) ++
    map (λ r, DReserved r.1 (r.2 - 1)) (md_ReservedRange message) ++
    (if decide (md_ReservedName message = []) then [] else [DReservedNames (md_ReservedName message)]) ++
    map (λ r, DExtensions r.1 (r.2 - 1)) (md_ExtensionRange message) ++
    map declared_field (own_fields message) ++
    concat (map declared_oneof (md_Oneofs message)) ++
    map declared_extension (md_Extensions message))].

Definition declared_method (method : method_descriptor) : declaration :=
  DRpc (mt_Name method) (mt_StreamingClient method) (str "." ++ mt_Input method) (mt_StreamingServer method) (str "." ++ mt_Output method)
    (if decide (mt_Options method = []) then None else Some (map DOption (declared_options (mt_Options method)))).

Definition declared_service (service : service_descriptor) : declaration :=
  DService (sv_Name service) (map DOption (declared_options (sv_Options service)) ++ map declared_method (sv_Methods service)).

Definition declared_syntax (syntax : proto_syntax) : bytes :=
  match syntax with Proto2 => str "proto2" | Proto3 => str "proto3" | Editions => str "editions" end.

Definition declared_file (file : file_descriptor) : list declaration :=
  [DSyntax (declared_syntax (fl_Syntax file))] ++
  (if decide (fl_Package file = []) then [] else [DPackage (fl_Package file)]) ++
  map DImport (fl_Imports file) ++
  map DOption (declared_options (fl_Options file)) ++
  map declared_enum (fl_Enums file) ++
  concat (map declared_message (fl_Messages file)) ++
  map declared_extension (fl_Extensions file) ++
  map declared_service (fl_Services file).

Example orders_read : read_file (PrintProtoFile orders_file) = Some (declared_file orders_file).
Proof. vm_compute. reflexivity. Qed.

(** ** Statements read back *)

Section statement_induction.
Context (P : statement → Prop).
Context (simple : ∀ ts, P (Simple ts)) (block : ∀ head body, Forall P body → P (Block head body)).

Fixpoint statement_nested_ind (s : statement) : P s :=
  match s with
  | Simple ts => simple ts
  | Block head body =>
      block head body
        ((fix statements (l : list statement) : Forall P l :=
            match l with [] => Forall_nil_2 _ | s :: l => Forall_cons_2 _ _ _ (statement_nested_ind s) (statements l) end) body)
  end.

End statement_induction.

(** The tokens of a statement. *)
Fixpoint flat (s : statement) : list token :=
  match s with
  | Simple ts => ts ++ [Mark x3b]
  | Block head body => head ++ Mark x7b :: concat (map flat body) ++ [Mark x7d]
  end.

(** A token that ends nothing. *)
Definition inert (t : token) : bool := match t with Mark x3b | Mark x7b | Mark x7d => false | _ => true end.

Fixpoint inert_statement (s : statement) : bool :=
  match s with Simple ts => forallb inert ts | Block head body => forallb inert head && forallb inert_statement body end.

Lemma group_inert opened body pending ts :
  forallb inert ts = true →
  foldl group_token (Some (MkGrouping opened body pending)) ts = Some (MkGrouping opened body (pending ++ ts)).
Proof.
  revert pending. induction ts as [|t ts IH]; intros pending; [by rewrite app_nil_r|]. cbn [forallb foldl]. intros [Ht Hts]%andb_true_iff.
  assert (group_token (Some (MkGrouping opened body pending)) t = Some (MkGrouping opened body (pending ++ [t]))) as ->
    by (destruct t as [| | |b]; [done..|destruct b; done]).
  by rewrite IH, <- (assoc_L (++)).
Qed.

Lemma group_statements l :
  (∀ s, s ∈ l → ∀ opened body,
     foldl group_token (Some (MkGrouping opened body [])) (flat s) = Some (MkGrouping opened (body ++ [s]) [])) →
  ∀ opened body, foldl group_token (Some (MkGrouping opened body [])) (concat (map flat l)) = Some (MkGrouping opened (body ++ l) []).
Proof.
  induction l as [|s l IH]; intros Hl opened body; cbn [map concat]; [by rewrite app_nil_r|].
  rewrite foldl_app, Hl by set_solver. rewrite IH by (intros; apply Hl; set_solver). by rewrite <- (assoc_L (++)).
Qed.

Lemma group_statement s : inert_statement s = true → ∀ opened body,
  foldl group_token (Some (MkGrouping opened body [])) (flat s) = Some (MkGrouping opened (body ++ [s]) []).
Proof.
  induction s as [ts|head inner IH] using statement_nested_ind; cbn [inert_statement flat]; intros H opened body.
  - by rewrite foldl_app, group_inert.
  - apply andb_true_iff in H as [Hh Hi]. rewrite foldl_app, group_inert by done. cbn [foldl group_token app]. rewrite foldl_app.
    rewrite group_statements; [done|]. intros s Hs. rewrite Forall_forall in IH. apply IH; [done|]. by apply (forallb_in _ _ _ Hi).
Qed.

(** Grouping the tokens of statements gives the statements. *)
Lemma statements_flat l : forallb inert_statement l = true → statements_of (concat (map flat l)) = Some l.
Proof.
  intros H. unfold statements_of. rewrite group_statements; [done|]. intros s Hs. by apply group_statement, (forallb_in _ _ _ H).
Qed.

(** ** Declarations read back *)

Definition option_tokens (o : declared_option) : list token :=
  (if do_Extension o then [Mark x28; Word (do_Name o); Mark x29] else [Word (do_Name o)]) ++ [Mark x3d; do_Value o].

Fixpoint options_tokens (os : list declared_option) : list token :=
  match os with [] => [] | [o] => option_tokens o | o :: os => option_tokens o ++ Mark x2c :: options_tokens os end.

Definition inline_tokens (os : list declared_option) : list token :=
  match os with [] => [] | _ => Mark x5b :: options_tokens os ++ [Mark x5d] end.

Definition name_of (k : keyword) : token := Word (spelling k).

Definition type_tokens (t : declared_type) : list token :=
  match t with
  | Named name => [Word name]
  | MapOf key value => [name_of KMap; Mark x3c; Word key; Mark x2c; Word value; Mark x3e]
  end.

Definition label_tokens (l : option label) : list token := match l with Some l => [name_of (KLabel l)] | None => [] end.
Definition number_token (n : Z) : token := Word (FormatInt n).

Fixpoint names_tokens (names : list bytes) : list token :=
  match names with [] => [] | [name] => [Literal name] | name :: names => Literal name :: Mark x2c :: names_tokens names end.

Definition message_tokens (stream : bool) (name : bytes) : list token :=
  Mark x28 :: (if stream then [name_of KStream] else []) ++ [Word name; Mark x29].

Definition range_tokens (first last : Z) : list token := [number_token first; name_of KTo; number_token last].

(** The statement that makes a declaration. *)
Fixpoint render (d : declaration) : statement :=
  match d with
  | DSyntax value => Simple [name_of KSyntax; Mark x3d; Literal value]
  | DPackage name => Simple [name_of KPackage; Word name]
  | DImport path => Simple [name_of KImport; Literal path]
  | DOption o => Simple (name_of KOption :: option_tokens o)
  | DField l t name number os =>
      Simple (label_tokens l ++ type_tokens t ++ [Word name; Mark x3d; number_token number] ++ inline_tokens os)
  | DGroup l name number body => Block (label_tokens l ++ [name_of KGroup; Word name; Mark x3d; number_token number]) (map render body)
  | DEnum name body => Block [name_of KEnum; Word name] (map render body)
  | DEnumValue name number os => Simple ([Word name; Mark x3d; number_token number] ++ inline_tokens os)
  | DMessage name body => Block [name_of KMessage; Word name] (map render body)
  | DOneof name body => Block [name_of KOneof; Word name] (map render body)
  | DExtend name body => Block [name_of KExtend; Word name] (map render body)
  | DReserved first last => Simple (name_of KReserved :: range_tokens first last)
  | DReservedNames names => Simple (name_of KReserved :: names_tokens names)
  | DExtensions first last => Simple (name_of KExtensions :: range_tokens first last)
  | DService name body => Block [name_of KService; Word name] (map render body)
  | DRpc name client input server output body =>
      let head := name_of KRpc :: Word name :: message_tokens client input ++ name_of KReturns :: message_tokens server output in
      match body with None => Simple head | Some body => Block head (map render body) end
  end.

(** Declarations that a statement tells apart: the numbers are 64 bits wide, and the name of a type is no keyword. *)
Definition narrow (n : Z) : bool := (- 2 ^ 63 <=? n) && (n <? 2 ^ 63).
Definition proper_option (o : declared_option) : bool := match do_Value o with Mark _ => false | _ => true end.
Abbreviation proper_options := (forallb proper_option).
Definition proper_type (t : declared_type) : bool :=
  match t with Named name => match keyword_of name with None => true | Some _ => false end | MapOf _ _ => true end.

Fixpoint proper (d : declaration) : bool :=
  match d with
  | DSyntax _ | DPackage _ | DImport _ => true
  | DOption o => proper_option o
  | DField _ t _ number os => proper_type t && narrow number && proper_options os
  | DGroup _ _ number body => narrow number && forallb proper body
  | DEnumValue _ number os => narrow number && proper_options os
  | DEnum _ body | DMessage _ body | DOneof _ body | DExtend _ body | DService _ body => forallb proper body
  | DReserved first last | DExtensions first last => narrow first && narrow last
  | DReservedNames names => match names with [] => false | _ => true end
  | DRpc _ _ _ _ _ body => match body with None => true | Some body => forallb proper body end
  end.

Section declaration_induction.
Context (P : declaration → Prop).
Context (leaf : ∀ d,
  match d with
  | DGroup _ _ _ body | DEnum _ body | DMessage _ body | DOneof _ body | DExtend _ body | DService _ body
  | DRpc _ _ _ _ _ (Some body) => Forall P body
  | _ => True
  end → P d).

Fixpoint declaration_nested_ind (d : declaration) : P d :=
  let all := fix all (l : list declaration) : Forall P l :=
    match l with [] => Forall_nil_2 _ | d :: l => Forall_cons_2 _ _ _ (declaration_nested_ind d) (all l) end in
  leaf d
    match d with
    | DGroup _ _ _ body | DEnum _ body | DMessage _ body | DOneof _ body | DExtend _ body | DService _ body
    | DRpc _ _ _ _ _ (Some body) => all body
    | _ => I
    end.

End declaration_induction.

Lemma keyword_spelling k : keyword_of (spelling k) = Some k.
Proof. destruct k as [ | | | | | | | | | | | | | | | | |[]]; vm_compute; reflexivity. Qed.

Lemma expect_spelling {A} k (rest : option A) : expect k (spelling k) rest = rest.
Proof. unfold expect. by rewrite bool_decide_eq_true_2. Qed.

Lemma narrow_reads n : narrow n = true → ParseInt (FormatInt n) 64 = Some n.
Proof. unfold narrow. intros [H1%Z.leb_le H2%Z.ltb_lt]%andb_true_iff. apply ParseInt_FormatInt_signed. unfold inS. lia. Qed.

Lemma read_options_tokens os : os ≠ [] → read_options (options_tokens os ++ [Mark x5d]) = Some os.
Proof.
  induction os as [|[x name v] os IH]; [done|]. intros _. destruct os as [|o os]; [by destruct x|].
  assert (options_tokens (MkDeclared x name v :: o :: os) ++ [Mark x5d] =
    option_tokens (MkDeclared x name v) ++ Mark x2c :: options_tokens (o :: os) ++ [Mark x5d]) as ->
    by (cbn [options_tokens]; by rewrite <- (assoc_L (++))).
  destruct x; cbn [option_tokens do_Extension do_Name do_Value app read_options]; by rewrite IH.
Qed.

Lemma read_inline_tokens os : read_inline (inline_tokens os) = Some os.
Proof. destruct os as [|o os]; [done|]. unfold inline_tokens, read_inline. by apply read_options_tokens. Qed.

Lemma read_names_tokens names : names ≠ [] → read_names (names_tokens names) = Some names.
Proof. induction names as [|name names IH]; [done|]. intros _. destruct names; [done|]. cbn [names_tokens read_names] in *. by rewrite IH. Qed.

Lemma read_option_tokens o : read_option (option_tokens o) = Some (DOption o).
Proof. by destruct o as [[] name v]. Qed.

Lemma read_label_tokens l ts :
  match ts with Word w :: _ => match keyword_of w with Some (KLabel _) => false | _ => true end | _ => true end = true →
  read_label (label_tokens l ++ ts) = (l, ts).
Proof.
  intros H. destruct l as [l|]; cbn [label_tokens app].
  - unfold name_of. cbn [read_label]. by rewrite keyword_spelling.
  - destruct ts as [|[w| | |] ts]; try done. cbn [read_label]. destruct (keyword_of w) as [[]|]; done.
Qed.

Lemma all_some_map {A B} (f : A → option B) (g : B → A) l : Forall (λ x, f (g x) = Some x) l → all_some (map f (map g l)) = Some l.
Proof. induction 1 as [|x l Hx _ IH]; [done|]. cbn. by rewrite Hx, IH. Qed.

Lemma read_range_tokens f first last : narrow first && narrow last = true → read_range f (range_tokens first last) = Some (f first last).
Proof. intros [H1 H2]%andb_true_iff. unfold range_tokens, number_token, name_of. cbn [read_range]. by rewrite expect_spelling, !narrow_reads. Qed.

Lemma read_message_tokens stream name rest : read_message (tail (message_tokens stream name) ++ rest) = Some (stream, name, rest).
Proof. by destruct stream. Qed.

Lemma read_rpc_tokens name client input server output body :
  read_rpc (Word name :: message_tokens client input ++ name_of KReturns :: message_tokens server output) body =
  Some (DRpc name client input server output body).
Proof.
  assert (∀ stream m, message_tokens stream m = Mark x28 :: tail (message_tokens stream m)) as E by done.
  rewrite (E client), (E server), <- !app_comm_cons. cbn [read_rpc]. rewrite read_message_tokens.
  rewrite <- (app_nil_r (tail (message_tokens server output))). by rewrite read_message_tokens.
Qed.

Lemma read_field_tokens l t name number os :
  proper_type t = true → narrow number = true →
  read_field (label_tokens l ++ type_tokens t ++ [Word name; Mark x3d; number_token number] ++ inline_tokens os) =
  Some (DField l t name number os).
Proof.
  intros Ht Hn. unfold read_field. rewrite read_label_tokens.
  - assert (∀ rest, read_type (type_tokens t ++ Word name :: rest) = Some (t, Word name :: rest)) as E by (by destruct t).
    unfold number_token. cbn [app]. rewrite E, narrow_reads by done. cbn [mbind option_bind]. by rewrite read_inline_tokens.
  - destruct t as [w|key value]; [|done]. cbn [type_tokens app proper_type] in *. destruct (keyword_of w); [done|done].
Qed.

(** A statement of a keyword and of a field is read by what follows. *)
Lemma read_simple_word w ts :
  match ts with Mark x3d :: _ => false | _ => true end = true →
  read_simple (Word w :: ts) =
  match keyword_of w with
  | Some KPackage => match ts with [Word name] => Some (DPackage name) | _ => None end
  | Some KImport => match ts with [Literal path] => Some (DImport path) | _ => None end
  | Some KOption => read_option ts
  | Some KReserved => match ts with Literal _ :: _ => names ← read_names ts; Some (DReservedNames names) | _ => read_range DReserved ts end
  | Some KExtensions => read_range DExtensions ts
  | Some KRpc => read_rpc ts None
  | _ => read_field (Word w :: ts)
  end.
Proof. intros H. destruct ts as [|[| | |b] ts]; [done..|]. by destruct b. Qed.

Lemma proper_type_word t rest :
  proper_type t = true → ∃ w ts, type_tokens t ++ rest = Word w :: ts ∧ (keyword_of w = None ∨ keyword_of w = Some KMap) ∧
    match t with Named _ => ts = rest | MapOf _ _ => match ts with Mark x3c :: _ => True | _ => False end end.
Proof. destruct t as [w|key value]; intros H; do 2 eexists; (split; [done|split]); try done; [left|by right].
  cbn [proper_type] in H. by destruct (keyword_of w).
Qed.

Lemma simple_field l t name number os :
  proper_type t = true → narrow number = true →
  read_simple (label_tokens l ++ type_tokens t ++ [Word name; Mark x3d; number_token number] ++ inline_tokens os) =
  Some (DField l t name number os).
Proof.
  intros Ht Hn. pose proof (read_field_tokens l t name number os Ht Hn) as E. revert E.
  destruct (proper_type_word t ([Word name; Mark x3d; number_token number] ++ inline_tokens os) Ht) as (w & ts & -> & Hw & Hts).
  intros E. destruct l as [l|]; cbn [label_tokens app] in *.
  - unfold name_of in *. rewrite read_simple_word by done. by rewrite keyword_spelling.
  - rewrite read_simple_word; [by destruct Hw as [-> | ->]|]. destruct t; [by subst|]. by destruct ts as [|[| | |[]] ts].
Qed.

(** What is left to read of a block is one of its heads. *)
Lemma declare_block head body :
  forallb proper body = true → Forall (λ d, proper d = true → declare (render d) = Some d) body →
  declare (Block head (map render body)) = read_block head body.
Proof.
  intros H IH. cbn [declare]. rewrite all_some_map; [done|]. apply Forall_forall. intros d Hd. rewrite Forall_forall in IH.
  apply IH; [done|]. by apply (forallb_in _ _ _ H).
Qed.

(** Every declaration is what its statement declares. *)
Lemma declare_render d : proper d = true → declare (render d) = Some d.
Proof.
  assert (∀ k rest, k = KMessage ∨ k = KEnum ∨ k = KOneof ∨ k = KExtend ∨ k = KService ∨ k = KRpc →
    read_label (name_of k :: rest) = (None, name_of k :: rest)) as Hlabel.
  { intros k rest Hk. unfold name_of. cbn [read_label]. rewrite keyword_spelling. naive_solver. }
  induction d as [d IH] using declaration_nested_ind. intros H.
  destruct d; cbn [proper render] in *;
    try (rewrite declare_block by done; unfold read_block; rewrite Hlabel by naive_solver; reflexivity).
  - done.
  - done.
  - done.
  - unfold declare. unfold name_of. rewrite read_simple_word by (by destruct o as [[] ? ?]). rewrite keyword_spelling. apply read_option_tokens.
  - parts. by apply simple_field.
  - parts. rewrite declare_block by done. unfold read_block. rewrite read_label_tokens by done. unfold number_token, name_of.
    destruct l; by rewrite expect_spelling, narrow_reads.
  - parts. cbn. by rewrite narrow_reads, read_inline_tokens.
  - cbn [declare]. unfold name_of. rewrite read_simple_word, keyword_spelling by done. by apply read_range_tokens.
  - destruct names as [|name names]; [done|]. cbn [declare]. unfold name_of. rewrite read_simple_word, keyword_spelling by (by destruct names).
    assert (read_names (names_tokens (name :: names)) = Some (name :: names)) as E by (by apply read_names_tokens).
    destruct names; cbn [names_tokens] in *; by rewrite E.
  - cbn [declare]. unfold name_of. rewrite read_simple_word, keyword_spelling by done. by apply read_range_tokens.
  - cbv zeta. destruct body as [body|].
    + rewrite declare_block by done. unfold read_block. rewrite Hlabel by naive_solver. unfold name_of. rewrite keyword_spelling.
      apply read_rpc_tokens.
    + cbn [declare]. unfold name_of. rewrite read_simple_word, keyword_spelling by done. apply read_rpc_tokens.
Qed.

Lemma inert_options os : proper_options os = true → forallb inert (options_tokens os) = true.
Proof.
  assert (∀ o, proper_option o = true → forallb inert (option_tokens o) = true) as Ho by (by intros [[] ? []]).
  induction os as [|o os IH]; [done|]. cbn [forallb]. intros [H1 H2]%andb_true_iff. destruct os as [|o' os]; [by apply Ho|].
  cbn [options_tokens] in *. rewrite forallb_app, Ho by done. by apply IH.
Qed.

Lemma inert_inline os : proper_options os = true → forallb inert (inline_tokens os) = true.
Proof.
  intros H. destruct os as [|o os]; [done|]. unfold inline_tokens. cbn [forallb inert]. by rewrite forallb_app, inert_options.
Qed.

Lemma inert_names names : forallb inert (names_tokens names) = true.
Proof. induction names as [|name [|name' names] IH]; done. Qed.

Lemma inert_bodies body :
  forallb proper body = true → Forall (λ d, proper d = true → inert_statement (render d) = true) body →
  forallb inert_statement (map render body) = true.
Proof.
  intros H IH. apply forallb_forall. intros s (d & <- & Hd%list_elem_of_In)%in_map_iff. rewrite Forall_forall in IH.
  apply IH; [done|]. by apply (forallb_in _ _ _ H).
Qed.

Lemma inert_render d : proper d = true → inert_statement (render d) = true.
Proof.
  induction d as [d IH] using declaration_nested_ind. intros H.
  destruct d; cbn [proper render inert_statement] in *; try done; try (by apply inert_bodies).
  - by destruct o as [[] ? []].
  - parts. rewrite !forallb_app, inert_inline by done. by destruct l, type.
  - parts. rewrite forallb_app. rewrite inert_bodies by done. by destruct l.
  - parts. rewrite forallb_app. by apply inert_inline.
  - apply inert_names.
  - cbv zeta. assert (forallb inert (name_of KRpc :: Word name :: message_tokens client input ++ name_of KReturns :: message_tokens server output) = true) as E
      by (by destruct client, server).
    destruct body as [body|]; cbn [inert_statement]; rewrite E; [by apply inert_bodies|done].
Qed.

(** The tokens of declarations. *)
Definition tokens (ds : list declaration) : list token := concat (map (λ d, flat (render d)) ds).

Lemma declarations_read ds :
  forallb proper ds = true →
  match statements_of (tokens ds) with Some statements => all_some (map declare statements) | None => None end = Some ds.
Proof.
  intros H. unfold tokens. rewrite <- (map_map render flat), statements_flat.
  - apply all_some_map, Forall_forall. intros d Hd. apply declare_render. by apply (forallb_in _ _ _ H).
  - apply inert_bodies; [done|]. apply Forall_forall. intros d _. apply inert_render.
Qed.

(** ** Tokens read back

    [reads s ts]: the text [s] is the tokens [ts], and leaves nothing unfinished. *)

Definition reads (s : bytes) (ts : list token) : Prop := read Between s = Some (ts, Between).

Lemma read_app state s t :
  read state (s ++ t) =
  match read state s with
  | Some (ts, state) => match read state t with Some (us, state) => Some (ts ++ us, state) | None => None end
  | None => None
  end.
Proof.
  revert state. induction s as [|b s IH]; intros state; cbn [app read]; [by destruct (read state t) as [[]|]|].
  destruct (read_byte state b) as [[ts st]|]; [|done]. rewrite IH. destruct (read st s) as [[us st']|]; [|done].
  destruct (read st' t) as [[]|]; [|done]. by rewrite (assoc_L (++)).
Qed.

Lemma reads_nil : reads [] [].
Proof. done. Qed.

Lemma reads_app s t ts us : reads s ts → reads t us → reads (s ++ t) (ts ++ us).
Proof. unfold reads. intros Hs Ht. by rewrite read_app, Hs, Ht. Qed.

Lemma reads_map {A} (f : A → bytes) (g : A → list token) l :
  (∀ x, x ∈ l → reads (f x) (g x)) → reads (concat (map f l)) (concat (map g l)).
Proof.
  induction l as [|x l IH]; intros H; [apply reads_nil|]. cbn [map concat]. apply reads_app; [apply H; set_solver|]. apply IH. set_solver.
Qed.

(** *** Spaces *)

Definition spaces (s : bytes) : bool := forallb space_byte s.

Lemma reads_spaces s t ts : spaces s = true → reads t ts → reads (s ++ t) ts.
Proof.
  intros Hs Ht. apply (reads_app s t [] ts); [|done]. clear Ht. unfold reads. induction s as [|b s IH]; [done|].
  cbn [spaces forallb] in Hs. apply andb_true_iff in Hs as [Hb Hs]. cbn [read read_byte]. unfold open_token. rewrite Hb. by rewrite IH.
Qed.

(** *** Words *)

(** A text whose first byte ends a word. *)
Definition apart (s : bytes) : bool := match s with [] => false | b :: _ => negb (word_byte b) end.

Lemma read_word w v : forallb word_byte v = true → read (InWord w) v = Some ([], InWord (w ++ v)).
Proof.
  revert w. induction v as [|b v IH]; intros w; cbn [forallb read read_byte]; [by rewrite app_nil_r|].
  intros [-> Hv]%andb_true_iff. by rewrite IH, <- (assoc_L (++)).
Qed.

Lemma word_not_space b : word_byte b = true → space_byte b = false.
Proof. by destruct b. Qed.

Lemma read_apart w s : apart s = true →
  read (InWord w) s = match read Between s with Some (ts, state) => Some (Word w :: ts, state) | None => None end.
Proof.
  destruct s as [|b s]; [done|]. cbn [apart]. intros Hb%negb_true_iff. cbn [read read_byte]. rewrite Hb.
  destruct (open_token b) as [ts st]. by destruct (read st s) as [[us st']|].
Qed.

Lemma reads_word w s ts : word w = true → apart s = true → reads s ts → reads (w ++ s) (Word w :: ts).
Proof.
  intros Hw Hs H. destruct w as [|b w]; [done|]. cbn [word forallb] in Hw. apply andb_true_iff in Hw as [Hb Hw].
  unfold reads. rewrite read_app. cbn [read read_byte]. unfold open_token. rewrite word_not_space, Hb by done.
  rewrite (read_word [b] w) by done. cbn [app]. by rewrite read_apart, H by done.
Qed.

(** *** Literals *)

Lemma read_literal_text v value : read (InLiteral v) (escapeProto value ++ quote) = Some ([Literal (v ++ value)], Between).
Proof.
  revert v. unfold escapeProto. induction value as [|b value IH]; intros v; cbn [map concat app]; [by rewrite app_nil_r|].
  rewrite <- (assoc_L (++)), read_app.
  assert (read (InLiteral v) (escape_byte b) = Some ([], InLiteral (v ++ [b]))) as -> by (by destruct b).
  by rewrite IH, <- (assoc_L (++)).
Qed.

Lemma reads_literal value s ts : reads s ts → reads (quote ++ escapeProto value ++ quote ++ s) (Literal value :: ts).
Proof.
  intros H. rewrite (assoc_L (++) (escapeProto value)), (assoc_L (++) quote). apply (reads_app _ _ [_]); [|done].
  unfold reads. rewrite read_app. change (read Between quote) with (Some ([] : list token, InLiteral [])). cbv beta iota. by rewrite read_literal_text.
Qed.

(** *** Messages as values *)

Lemma lex_none s : lex None s = None.
Proof. by induction s. Qed.

(** The reader of a message follows the reader of blocks, one block deeper. *)
Lemma read_aggregate text s a m b m' :
  0 ≤ a → lex (Some (a, m)) s = Some (b, m') →
  read (InAggregate text (a + 1) m) s = Some ([], InAggregate (text ++ s) (b + 1) m').
Proof.
  revert text a m. induction s as [|x s IH]; intros text a m Ha; [intros [= -> ->]; by rewrite app_nil_r|].
  change (lex ?st (x :: s)) with (lex (lex_step st x) s). intros H.
  destruct (lex_step (Some (a, m)) x) as [[a1 m1]|] eqn:Hx; [|by rewrite lex_none in H].
  assert (0 ≤ a1) as Ha1. { destruct m; cbn [lex_step] in Hx; [destruct x|destruct x|]; try destruct (Z.leb_spec a 0); simplify_eq; lia. }
  pose proof (lex_shift [x] a m a1 m1 1 ltac:(lia) Hx) as Hs. change (lex ?st [x]) with (lex_step st x) in Hs.
  cbn [read read_byte]. rewrite Hs. destruct (a1 + 1) as [|p|p] eqn:E; try lia. rewrite <- E, IH by done. by rewrite <- (assoc_L (++)).
Qed.

Lemma reads_aggregate text s ts :
  balanced text = true → reads s ts →
  reads (str " = " ++ str "{ " ++ text ++ str " }" ++ s) (Mark x3d :: Aggregate (str " " ++ text ++ str " ") :: ts).
Proof.
  intros Hb%neutral_balanced H. unfold reads.
  rewrite (assoc_L (++) text), (assoc_L (++) (str "{ ")), (assoc_L (++) (str " = ")).
  apply (reads_app _ _ [_; _]); [|done]. unfold reads.
  assert (str " = " ++ str "{ " ++ text ++ str " }" = str " = {" ++ (str " " ++ text ++ str " ") ++ str "}") as ->
    by (by rewrite <- !(assoc_L (++))).
  rewrite read_app. change (read Between (str " = {")) with (Some ([Mark x3d], InAggregate [] (0 + 1) Plain)). cbv beta iota.
  rewrite read_app.
  assert (neutral (str " " ++ text ++ str " ")) as Hn by (repeat apply neutral_app; auto with text).
  rewrite (read_aggregate [] (str " " ++ text ++ str " ") 0 Plain 0 Plain); [done|lia|]. by apply Hn.
Qed.

(** *** After an equals sign *)

(** A text that begins neither with a space nor with a brace. *)
Definition at_value (s : bytes) : bool := match s with [] => false | b :: _ => negb (space_byte b) && negb (bool_decide (b = x7b)) end.

Lemma reads_equals s ts : at_value s = true → reads s ts → reads (str " = " ++ s) (Mark x3d :: ts).
Proof.
  intros Hs H. unfold reads. rewrite read_app. change (read Between (str " = ")) with (Some ([Mark x3d], AfterEquals)). cbv beta iota.
  assert (read AfterEquals s = read Between s) as E; [|by rewrite E, H].
  destruct s as [|b s]; [done|]. cbn [at_value] in Hs. apply andb_true_iff in Hs as [Hsp%negb_true_iff Hb]. cbn [read read_byte]. rewrite Hsp.
  assert (b ≠ x7b) by (destruct (bool_decide_reflect (b = x7b)); done).
  assert (match b with x7b => Some ([], InAggregate [] 1 Plain) | _ => Some (open_token b) end = Some (open_token b)) as -> by (by destruct b).
  done.
Qed.

Lemma at_value_word w s : word w = true → at_value (w ++ s) = true.
Proof.
  destruct w as [|b w]; [done|]. cbn [word forallb at_value app]. intros [Hb _]%andb_true_iff. rewrite word_not_space by done.
  apply andb_true_iff. split; [done|]. by destruct b.
Qed.

Lemma word_int n : word (FormatInt n) = true.
Proof.
  pose proof (FormatInt_bytes n) as H. assert (FormatInt n ≠ []) as Hn by (unfold FormatInt; case_match; [done|apply digits_nonempty]).
  destruct (FormatInt n) as [|b s]; [done|]. apply forallb_forall. intros x Hx%list_elem_of_In. rewrite Forall_forall in H.
  unfold word_byte. by destruct (H x Hx) as [-> | ->].
Qed.

(** *** Pieces of a text *)

Lemma reads_as s ts us : reads s ts → ts = us → reads s us.
Proof. by intros H <-. Qed.

Lemma reads_piece c us s ts : read Between c = Some (us, Between) → reads s ts → reads (c ++ s) (us ++ ts).
Proof. apply reads_app. Qed.

Lemma apart_app s t : apart s = true → apart (s ++ t) = true.
Proof. by destruct s. Qed.

Create HintDb source.
#[export] Hint Resolve word_int : source.
#[export] Hint Extern 1 (apart _ = true) => reflexivity : source.

(** A text is read piece by piece; the tokens come out as they are read. *)
Ltac read_step :=
  match goal with
  | |- reads (str _ ++ _) _ => eapply reads_piece; [vm_compute; reflexivity|]
  | |- reads (nl ++ _) _ => apply reads_spaces; [reflexivity|]
  | |- reads nl _ => reflexivity
  | |- reads [] _ => reflexivity
  | |- reads (quote ++ escapeProto _ ++ quote ++ _) _ => apply reads_literal
  | H : reads ?s _ |- reads (?s ++ _) _ => eapply reads_app; [exact H|]
  | H : reads ?s _ |- reads ?s _ => exact H
  | H : spaces ?s = true |- reads (?s ++ _) _ => apply reads_spaces; [exact H|]
  | |- reads (_ ++ _) _ => apply reads_word; [by eauto with source|by eauto with source|]
  end.
Ltac reading := eapply reads_as; [repeat read_step|].

(** ** Spelled descriptors

    The names are words, as identifiers are, the numbers are 64 bits wide, and the texts of the library are words, or messages whose blocks
    close. Left out is what the text cannot say or the printer does not: files of an edition, labels of maps (of a proto2 file), groups that are
    extensions, the options of a group, and whatever the message of a group holds beside fields outside of oneofs. *)

Definition spelled_value (v : option_value) : bool :=
  match v with
  | OptString _ | OptBytes _ => true
  | OptEnum name _ => match name with Some name => word name | None => true end
  | OptMessage text => balanced (TrimSpace text)
  | OptOther text => word text
  end.

Definition spelled_option (o : proto_option) : bool :=
  word (match opt_extension o with Some full => full | None => opt_Name o end) && forallb spelled_value (opt_values o).
Abbreviation spelled_options := (forallb spelled_option).

Definition no_oneof (field : field_descriptor) : bool := match fd_Oneof field with None => true | Some _ => false end.
Definition no_map (field : field_descriptor) : bool := match fd_Map field with None => true | Some _ => false end.
Definition is_group (field : field_descriptor) : bool := match fd_Kind field with GroupKind => true | _ => false end.
Definition empty {A} (l : list A) : bool := match l with [] => true | _ => false end.

Fixpoint spelled_field (field : field_descriptor) : bool :=
  narrow (fd_Number field) &&
  match fd_Kind field with
  | GroupKind =>
      word (fd_TypeName field) && no_map field && empty (fd_Options field) && forallb no_oneof (fd_Group field) &&
      forallb spelled_field (fd_Group field)
  | _ =>
      word (fd_Name field) && spelled_options (fd_Options field) &&
      match fd_Map field with
      | Some (key, value) =>
          no_oneof field && negb (fd_Proto2 field) && no_map key && no_map value && word (type_word key) && word (type_word value)
      | None => word (type_word field)
      end
  end.

Definition spelled_extension (x : extension_descriptor) : bool :=
  word (str "." ++ xd_ContainingMessage x) && negb (is_group (xd_Field x)) && spelled_field (xd_Field x).

Definition spelled_enum (enum : enum_descriptor) : bool :=
  word (ed_Name enum) && spelled_options (ed_Options enum) &&
  forallb (λ v, word (ev_Name v) && narrow (ev_Number v) && spelled_options (ev_Options v)) (ed_Values enum).

Definition spelled_oneof (oneof : oneof_descriptor) : bool :=
  word (od_Name oneof) && spelled_options (od_Options oneof) && forallb spelled_field (od_Fields oneof).

Definition spelled_range (r : Z * Z) : bool := narrow r.1 && narrow (r.2 - 1).

(** A message that holds fields outside of oneofs and nothing else. *)
Definition only_fields (m : message_descriptor) : bool :=
  negb (md_IsMapEntry m) && empty (md_Options m) && empty (md_Enums m) && empty (md_Messages m) && empty (md_ReservedRange m) &&
  empty (md_ReservedName m) && empty (md_ExtensionRange m) && empty (md_Oneofs m) && empty (md_Extensions m).

Fixpoint spelled_message (message : message_descriptor) : bool :=
  word (md_Name message) && spelled_options (md_Options message) && forallb spelled_enum (md_Enums message) &&
  forallb spelled_message (md_Messages message) &&
  forallb (λ nested, bool_decide (md_FullName nested ∉ group_types message) || only_fields nested) (md_Messages message) &&
  forallb spelled_range (md_ReservedRange message) &&
  forallb spelled_range (md_ExtensionRange message) && forallb spelled_field (md_Fields message) &&
  forallb spelled_oneof (md_Oneofs message) && forallb spelled_extension (md_Extensions message).

Definition spelled_method (method : method_descriptor) : bool :=
  word (mt_Name method) && word (str "." ++ mt_Input method) && word (str "." ++ mt_Output method) && spelled_options (mt_Options method).

Definition spelled_service (service : service_descriptor) : bool :=
  word (sv_Name service) && spelled_options (sv_Options service) && forallb spelled_method (sv_Methods service).

Definition spelled_file (file : file_descriptor) : bool :=
  negb (bool_decide (fl_Syntax file = Editions)) && (bool_decide (fl_Package file = []) || word (fl_Package file)) && spelled_options (fl_Options file) && forallb spelled_enum (fl_Enums file) &&
  forallb spelled_message (fl_Messages file) && forallb spelled_extension (fl_Extensions file) && forallb spelled_service (fl_Services file).

(** ** What is read of a spelled descriptor *)

Lemma tokens_app ds es : tokens (ds ++ es) = tokens ds ++ tokens es.
Proof. unfold tokens. by rewrite map_app, concat_app. Qed.

Lemma flat_block head body : flat (Block head (map render body)) = head ++ Mark x7b :: tokens body ++ [Mark x7d].
Proof. cbn [flat]. by rewrite map_map. Qed.

(** *** Options *)

Lemma reads_option o v s ts :
  spelled_option o = true → spelled_value v = true → apart s = true → reads s ts →
  reads (option_name o ++ str " = " ++ protoOptionValue v ++ s) (option_tokens (declared_of o v) ++ ts).
Proof.
  unfold spelled_option. intros [Hn _]%andb_true_iff Hv Hs H.
  assert (reads (str " = " ++ protoOptionValue v ++ s) (Mark x3d :: value_token v :: ts)) as Hvalue.
  { destruct v as [x|x|[name|] n|text|text]; cbn [spelled_value protoOptionValue value_token] in *.
    - rewrite <- !(assoc_L (++)). apply reads_equals; [done|]. by apply reads_literal.
    - rewrite <- !(assoc_L (++)). apply reads_equals; [done|]. by apply reads_literal.
    - apply reads_equals; [by apply at_value_word|]. by apply reads_word.
    - apply reads_equals; [apply at_value_word, word_int|]. apply reads_word; auto with source.
    - rewrite <- !(assoc_L (++)). by apply reads_aggregate.
    - apply reads_equals; [by apply at_value_word|]. by apply reads_word. }
  unfold option_name, declared_of. destruct (opt_extension o) as [full|]; rewrite <- ?(assoc_L (++)); reading; done.
Qed.

Lemma populated_spelled options o v :
  spelled_options options = true → (o, v) ∈ populated options → spelled_option o = true ∧ spelled_value v = true.
Proof.
  intros H (l & (p & <- & Hp%list_elem_of_In)%in_map_iff & (w & [= -> ->] & Hw%list_elem_of_In)%in_map_iff)%list_elem_of_In%in_concat.
  pose proof (forallb_in _ _ _ H Hp) as Ho. split; [done|]. apply andb_true_iff in Ho as [_ Hv]. by apply (forallb_in _ _ _ Hv).
Qed.

Lemma forEachOption_populated options :
  forEachOption options = map (λ e, (option_name e.1, protoOptionValue e.2)) (populated options).
Proof.
  unfold forEachOption, populated. rewrite concat_map, map_map. f_equal. apply map_ext. intros o. by rewrite map_map.
Qed.

Lemma reads_options options indent :
  spelled_options options = true → spaces indent = true →
  reads (appendProtoOptions options indent (str "option ")) (tokens (map DOption (declared_options options))).
Proof.
  intros H Hi. unfold appendProtoOptions, tokens, declared_options. rewrite forEachOption_populated, !map_map. apply reads_map.
  intros [o v] Hin. destruct (populated_spelled _ _ _ H Hin). cbn [fst snd render flat].
  reading; [apply reads_option; [done|done|done|]; reading; reflexivity|]. reflexivity.
Qed.

(** Options between commas, before the bracket that closes them. *)
Lemma reads_joined es s ts :
  es ≠ [] → (∀ o v, (o, v) ∈ es → spelled_option o = true ∧ spelled_value v = true) → apart s = true → reads s ts →
  reads (strings_Join (map (λ e, option_name e.1 ++ str " = " ++ protoOptionValue e.2) es) (str ", ") ++ s)
    (options_tokens (map (λ e, declared_of e.1 e.2) es) ++ ts).
Proof.
  intros Hne H Hs Hts. induction es as [|[o v] es IH]; [done|]. destruct (H o v ltac:(set_solver)) as [Ho Hv]. destruct es as [|e es].
  - cbn [map strings_Join options_tokens fst snd]. rewrite <- !(assoc_L (++)). by apply reads_option.
  - change (strings_Join (map ?f ((o, v) :: e :: es)) ?sep) with (f (o, v) ++ sep ++ strings_Join (map f (e :: es)) sep).
    change (options_tokens (map ?f ((o, v) :: e :: es))) with (option_tokens (f (o, v)) ++ Mark x2c :: options_tokens (map f (e :: es))).
    cbv beta. cbn [fst snd]. rewrite <- !(assoc_L (++)). apply reads_option; [done|done|done|].
    apply (reads_app (str ", ") _ [Mark x2c]); [done|]. apply IH; [done|]. intros o' v' Hin. apply H. set_solver.
Qed.

Lemma reads_inline options s ts :
  spelled_options options = true → apart s = true → reads s ts →
  reads (appendInlineProtoOptions options ++ s) (inline_tokens (declared_options options) ++ ts).
Proof.
  intros H Hs Hts. unfold appendInlineProtoOptions, declared_options. rewrite forEachOption_populated, map_map. cbn [fst snd].
  pose proof (populated_spelled options) as Hp. destruct (populated options) as [|e es]; [done|].
  assert (∀ d ds, inline_tokens (d :: ds) = Mark x5b :: options_tokens (d :: ds) ++ [Mark x5d]) as E by done.
  cbn [map]. rewrite E, <- app_comm_cons, <- !(assoc_L (++)).
  apply (reads_app (str " [") _ [Mark x5b]); [done|].
  apply (reads_joined (e :: es)); [done|eauto|done|]. by apply (reads_app (str "]") _ [Mark x5d]).
Qed.

Lemma apart_inline options s : apart s = true → apart (appendInlineProtoOptions options ++ s) = true.
Proof. intros Hs. unfold appendInlineProtoOptions. by destruct (map _ _). Qed.

#[export] Hint Resolve apart_inline at_value_word : source.

(** A number after an equals sign, with what follows it. *)
Lemma reads_number n s ts : apart s = true → reads s ts → reads (str " = " ++ FormatInt n ++ s) (Mark x3d :: number_token n :: ts).
Proof. intros Hs H. apply reads_equals; [auto with source|]. apply reads_word; auto with source. Qed.

(** The end of a declaration with options. *)
Lemma reads_numbered n options :
  spelled_options options = true →
  reads (str " = " ++ FormatInt n ++ appendInlineProtoOptions options ++ str ";" ++ nl)
    (Mark x3d :: number_token n :: inline_tokens (declared_options options) ++ [Mark x3b]).
Proof. intros H. apply reads_number; [auto with source|]. by apply reads_inline. Qed.

(** *** Fields *)

Lemma spelled_field_unfold field :
  spelled_field field =
  narrow (fd_Number field) &&
  match fd_Kind field with
  | GroupKind =>
      word (fd_TypeName field) && no_map field && empty (fd_Options field) && forallb no_oneof (fd_Group field) &&
      forallb spelled_field (fd_Group field)
  | _ =>
      word (fd_Name field) && spelled_options (fd_Options field) &&
      match fd_Map field with
      | Some (key, value) =>
          no_oneof field && negb (fd_Proto2 field) && no_map key && no_map value && word (type_word key) && word (type_word value)
      | None => word (type_word field)
      end
  end.
Proof. by destruct field. Qed.

(** A map stands outside of oneofs and of proto2. *)
Lemma spelled_map field : spelled_field field = true → no_map field = true ∨ no_oneof field = true ∧ fd_Proto2 field = false.
Proof.
  rewrite spelled_field_unfold. unfold no_map. intros [_ H]%andb_true_iff.
  destruct (fd_Kind field), (fd_Map field) as [[key value]|]; auto; right; parts; split; try done; by apply negb_true_iff.
Qed.

Lemma reads_label field s ts :
  spelled_field field = true → reads s ts → reads (field_label field ++ s) (label_tokens (declared_label field) ++ ts).
Proof.
  intros Hs H. assert (reads (field_label field) (label_tokens (declared_label field))) as Hl; [|by apply reads_app].
  apply spelled_map in Hs. unfold field_label, declared_label, no_map, no_oneof, IsMap in *.
  destruct (fd_Oneof field) as [[? []]|]; [done..|]. destruct (fd_Map field) as [m|].
  - destruct Hs as [?|[_ ->]]; [done|]. rewrite andb_false_r. by destruct (fd_Cardinality field).
  - destruct (fd_Cardinality field), (fd_Proto2 field); done.
Qed.

Lemma type_name_word field : no_map field = true → protoTypeName field = type_word field.
Proof. rewrite protoTypeName_unfold. unfold no_map, type_word. destruct (fd_Map field); [done|]. by destruct (fd_Kind field). Qed.

Lemma reads_type field s ts :
  match fd_Map field with
  | Some (key, value) =>
      no_oneof field && negb (fd_Proto2 field) && no_map key && no_map value && word (type_word key) && word (type_word value)
  | None => word (type_word field)
  end = true →
  apart s = true → reads s ts → reads (protoTypeName field ++ s) (type_tokens (type_of_field field) ++ ts).
Proof.
  intros H Hs Hts. unfold type_of_field. destruct (fd_Map field) as [[key value]|] eqn:E.
  - rewrite protoTypeName_unfold, E. parts. rewrite !type_name_word by done. rewrite <- !(assoc_L (++)). by reading.
  - rewrite type_name_word by (unfold no_map; by rewrite E). by apply reads_word.
Qed.

Lemma proper_field_type field : match fd_Kind field with GroupKind => False | _ => True end → proper_type (type_of_field field) = true.
Proof.
  intros H. unfold type_of_field. destruct (fd_Map field) as [[key value]|]; [done|]. unfold type_word. cbn [proper_type].
  assert (∀ w, keyword_of (ascii_byte "." :: w) = None) as Hdot. { intros w. unfold keyword_of. cbn. by repeat rewrite bool_decide_eq_false_2 by done. }
  destruct (fd_Kind field); try (vm_compute; reflexivity); try done; by rewrite Hdot.
Qed.

Lemma declared_field_unfold field :
  declared_field field =
  match fd_Kind field with
  | GroupKind => DGroup (declared_label field) (fd_TypeName field) (fd_Number field) (map declared_field (fd_Group field))
  | _ => DField (declared_label field) (type_of_field field) (fd_Name field) (fd_Number field) (declared_options (fd_Options field))
  end.
Proof. by destruct field. Qed.

(** A text that is read as declarations that a reader tells apart. *)
Definition tells (s : bytes) (ds : list declaration) : Prop := reads s (tokens ds) ∧ forallb proper ds = true.

Lemma tells_nil : tells [] [].
Proof. done. Qed.

Lemma tells_app s t ds es : tells s ds → tells t es → tells (s ++ t) (ds ++ es).
Proof. intros [Hs Hd] [Ht He]. split; [rewrite tokens_app; by apply reads_app|]. by rewrite forallb_app, Hd, He. Qed.

Lemma tells_concat {A} (spelled : A → bool) (f : A → bytes) (g : A → list declaration) l :
  forallb spelled l = true → (∀ x, x ∈ l → spelled x = true → tells (f x) (g x)) → tells (concat (map f l)) (concat (map g l)).
Proof.
  intros H Hfg. induction l as [|x l IH]; [apply tells_nil|]. cbn [forallb map concat] in *. apply andb_true_iff in H as [Hx Hl].
  apply tells_app; [apply Hfg; set_solver|]. apply IH; [done|]. intros y Hy. apply Hfg. set_solver.
Qed.

Lemma tells_map {A} (spelled : A → bool) (f : A → bytes) (g : A → declaration) l :
  forallb spelled l = true → (∀ x, x ∈ l → spelled x = true → tells (f x) [g x]) → tells (concat (map f l)) (map g l).
Proof.
  intros H Hfg. assert (map g l = concat (map (λ x, [g x]) l)) as -> by (clear; induction l as [|x l IH]; [done|]; cbn; by f_equal).
  by apply (tells_concat spelled).
Qed.

Lemma tells_one s d : reads s (flat (render d)) → proper d = true → tells s [d].
Proof. intros Hs Hd. split; [unfold tokens; cbn; by rewrite app_nil_r|]. cbn. by rewrite Hd. Qed.

Lemma proper_declared_options options : proper_options (declared_options options) = true.
Proof.
  unfold declared_options. apply forallb_forall. intros d ([o v] & <- & _)%in_map_iff. cbn [fst snd]. unfold declared_of.
  destruct (opt_extension o), v as [| |[]| |]; done.
Qed.

#[export] Hint Resolve proper_declared_options : source.

Lemma tells_options options indent :
  spelled_options options = true → spaces indent = true →
  tells (appendProtoOptions options indent (str "option ")) (map DOption (declared_options options)).
Proof.
  intros H Hi. split; [by apply reads_options|]. pose proof (proper_declared_options options) as Hp.
  induction (declared_options options) as [|o os IH]; [done|]. cbn in *. apply andb_true_iff in Hp as [-> Hp]. by apply IH.
Qed.

Lemma spaces_app s t : spaces s = true → spaces t = true → spaces (s ++ t) = true.
Proof. intros Hs Ht. unfold spaces in *. by rewrite forallb_app, Hs, Ht. Qed.

Lemma spaces_inner indent : spaces indent = true → spaces (indent ++ str "  ") = true.
Proof. intros H. by apply spaces_app. Qed.

#[export] Hint Resolve spaces_inner tells_nil : source.

Lemma tells_field field indent : spelled_field field = true → spaces indent = true → tells (appendProtoField field indent) [declared_field field].
Proof.
  revert indent. induction field as [field _ IH] using field_descriptor_nested_ind. intros indent H Hi. pose proof H as Hl.
  rewrite spelled_field_unfold in H. rewrite appendProtoField_unfold, declared_field_unfold. apply andb_true_iff in H as [Hn H].
  pose proof (proper_field_type field) as Ht.
  destruct (fd_Kind field) eqn:Hk;
    try (parts; apply tells_one; [|by cbn [proper]; rewrite Hn, Ht, proper_declared_options];
      apply reads_spaces; [done|]; cbn [render flat]; rewrite <- !(assoc_L (++)); apply reads_label; [done|]; apply reads_type; [done|done|];
      apply (reads_piece (str " ") []); [done|]; apply reads_word; [done|done|]; by apply reads_numbered).
  parts. assert (tells (concat (map (λ f, appendProtoField f (indent ++ str "  ")) (fd_Group field))) (map declared_field (fd_Group field))) as [Hg Hp].
  { apply (tells_map spelled_field); [done|]. intros f Hf Hs. rewrite Forall_forall in IH. apply IH; auto with source. }
  apply tells_one; [|by cbn [proper]; rewrite Hn, Hp]. cbn [render]. rewrite flat_block, <- !(assoc_L (++)).
  apply reads_spaces; [done|]. apply reads_label; [done|]. apply (reads_piece (str "group ") [name_of KGroup]); [done|].
  apply reads_word; [done|done|]. apply reads_number; [done|]. reading. reflexivity.
Qed.

(** *** Blocks *)

(** A block of a keyword, a name and what its body tells. *)
Lemma tells_block d k c name body indent ds :
  render d = Block [name_of k; Word name] (map render ds) → proper d = forallb proper ds → read Between c = Some ([name_of k], Between) →
  word name = true → spaces indent = true → tells body ds →
  tells (indent ++ c ++ name ++ str " {" ++ nl ++ body ++ indent ++ str "}" ++ nl) [d].
Proof.
  intros Hr Hd Hc Hw Hi [Hb Hp]. apply tells_one; [|by rewrite Hd]. rewrite Hr, flat_block. cbn [app].
  apply reads_spaces; [done|]. apply (reads_piece c [name_of k]); [done|]. apply reads_word; [done|done|]. reading. reflexivity.
Qed.

Lemma tells_spaces s t ds : spaces s = true → tells t ds → tells (s ++ t) ds.
Proof. intros Hs [Ht Hd]. split; [by apply reads_spaces|done]. Qed.

(** One statement on a line of its own. *)
Lemma tells_line d indent s ts :
  render d = Simple ts → proper d = true → spaces indent = true → reads s (ts ++ [Mark x3b]) → tells (indent ++ s) [d].
Proof. intros Hr Hd Hi Hs. apply tells_one; [|done]. rewrite Hr. cbn [flat]. by apply reads_spaces. Qed.

Lemma tells_extension x indent :
  spelled_extension x = true → spaces indent = true → tells (appendProtoExtension x indent) [declared_extension x].
Proof.
  unfold spelled_extension, appendProtoExtension, declared_extension. intros H Hi. parts.
  assert (str "extend ." ++ xd_ContainingMessage x = str "extend " ++ str "." ++ xd_ContainingMessage x) as E by done.
  rewrite (assoc_L (++) (str "extend .")), E, <- (assoc_L (++) (str "extend ")).
  apply (tells_block _ KExtend _ _ _ _ [declared_field (xd_Field x)]); [reflexivity|reflexivity|reflexivity|done|done|].
  apply tells_field; auto with source.
Qed.

Lemma tells_enum enum indent : spelled_enum enum = true → spaces indent = true → tells (appendProtoEnum enum indent) [declared_enum enum].
Proof.
  unfold spelled_enum, appendProtoEnum, declared_enum. intros H Hi. parts. apply tells_spaces; [done|]. rewrite (assoc_L (++) (appendProtoOptions _ _ _)).
  eapply (tells_block _ KEnum); [reflexivity|reflexivity|reflexivity|done|done|].
  apply tells_app; [apply tells_options; auto with source|]. eapply tells_map; [done|]. cbn beta. intros v _ [[Hw Hn]%andb_true_iff Hv]%andb_true_iff.
  eapply tells_line; [reflexivity|cbn [proper]; by rewrite Hn, proper_declared_options|done|].
  apply reads_spaces; [done|]. apply reads_word; [done|done|]. by apply reads_numbered.
Qed.

Lemma tells_oneof oneof indent : spelled_oneof oneof = true → spaces indent = true → tells (append_oneof indent oneof) (declared_oneof oneof).
Proof.
  unfold spelled_oneof, append_oneof, declared_oneof. intros H Hi. parts. case_match; [apply tells_nil|]. rewrite (assoc_L (++) (appendProtoOptions _ _ _)).
  eapply (tells_block _ KOneof); [reflexivity|reflexivity|reflexivity|done|done|].
  apply tells_app; [apply tells_options; auto with source|]. apply (tells_map spelled_field); [done|].
  intros f _ Hf. apply tells_field; auto with source.
Qed.

Lemma tells_range d word k indent r :
  (k = KReserved ∧ d = DReserved r.1 (r.2 - 1) ∨ k = KExtensions ∧ d = DExtensions r.1 (r.2 - 1)) → word = spelling k →
  spelled_range r = true → spaces indent = true → tells (append_range word indent r) [d].
Proof.
  intros Hd -> Hr Hi. unfold append_range. eapply (tells_line d _ _ (name_of k :: range_tokens r.1 (r.2 - 1))); [naive_solver|naive_solver|done|].
  rewrite <- app_comm_cons. apply reads_word; [by destruct Hd as [[-> _]|[-> _]]|done|]. reading. reflexivity.
Qed.

Lemma reads_names names s ts :
  names ≠ [] → reads s ts →
  reads (strings_Join (map (λ name, quote ++ escapeProto name ++ quote) names) (str ", ") ++ s) (names_tokens names ++ ts).
Proof.
  intros Hne H. induction names as [|name names IH]; [done|]. destruct names as [|name' names].
  - cbn [map strings_Join names_tokens]. rewrite <- !(assoc_L (++)). by apply reads_literal.
  - change (strings_Join (map ?f (name :: name' :: names)) ?sep) with (f name ++ sep ++ strings_Join (map f (name' :: names)) sep).
    cbv beta. rewrite <- !(assoc_L (++)). change (names_tokens (name :: name' :: names)) with (Literal name :: Mark x2c :: names_tokens (name' :: names)).
    apply reads_literal. apply (reads_app (str ", ") _ [Mark x2c]); [done|]. by apply IH.
Qed.

Lemma tells_reserved_names names indent :
  spaces indent = true → tells (append_reserved_names indent names) (if decide (names = []) then [] else [DReservedNames names]).
Proof.
  intros Hi. destruct names as [|name names]; [apply tells_nil|]. rewrite decide_False by done. unfold append_reserved_names.
  eapply tells_line; [reflexivity|done|done|]. rewrite <- app_comm_cons. apply (reads_piece (str "reserved ") [name_of KReserved]); [done|].
  by apply (reads_names (name :: names)).
Qed.

#[export] Hint Resolve tells_options tells_extension tells_enum tells_oneof tells_reserved_names tells_field tells_app : source.

(** *** Messages *)

Lemma spelled_message_unfold message :
  spelled_message message =
  word (md_Name message) && spelled_options (md_Options message) && forallb spelled_enum (md_Enums message) &&
  forallb spelled_message (md_Messages message) &&
  forallb (λ nested, bool_decide (md_FullName nested ∉ group_types message) || only_fields nested) (md_Messages message) &&
  forallb spelled_range (md_ReservedRange message) &&
  forallb spelled_range (md_ExtensionRange message) && forallb spelled_field (md_Fields message) &&
  forallb spelled_oneof (md_Oneofs message) && forallb spelled_extension (md_Extensions message).
Proof. by destruct message. Qed.

Lemma declared_message_unfold message :
  declared_message message =
  if md_IsMapEntry message then []
  else [DMessage (md_Name message) (
    map DOption (declared_options (md_Options message)) ++
    map declared_enum (md_Enums message) ++
    concat (map (λ nested, if decide (md_FullName nested ∈ group_types message) then [] else declared_message nested) (md_Messages message)) ++
    map (λ r, DReserved r.1 (r.2 - 1)) (md_ReservedRange message) ++
    (if decide (md_ReservedName message = []) then [] else [DReservedNames (md_ReservedName message)]) ++
    map (λ r, DExtensions r.1 (r.2 - 1)) (md_ExtensionRange message) ++
    map declared_field (own_fields message) ++
    concat (map declared_oneof (md_Oneofs message)) ++
    map declared_extension (md_Extensions message))].
Proof. by destruct message. Qed.

Lemma isGroupType_spec message nested : isGroupType message nested = bool_decide (md_FullName nested ∈ group_types message).
Proof.
  unfold isGroupType. apply eq_true_iff_eq. rewrite existsb_exists, bool_decide_eq_true. unfold group_types. rewrite list_elem_of_omap.
  split; (intros (f & Hf & H); exists f; split; [by apply list_elem_of_In|]).
  - apply andb_true_iff in H as [Hk%bool_decide_eq_true Ht%bool_decide_eq_true]. by rewrite Hk, Ht.
  - destruct (fd_Kind f); try done. injection H as ->. by rewrite !bool_decide_eq_true_2.
Qed.

Lemma tells_fields message indent :
  forallb spelled_field (md_Fields message) = true → spaces indent = true →
  tells (concat (map (λ f, if outside_oneofs f then appendProtoField f indent else []) (md_Fields message)))
    (map declared_field (own_fields message)).
Proof.
  intros H Hi. unfold own_fields. induction (md_Fields message) as [|f fields IH]; [apply tells_nil|].
  cbn [forallb map concat List.filter] in *. parts. unfold outside_oneofs at 1, real_oneof at 1.
  destruct (fd_Oneof f) as [[? []]|]; [|by apply IH|]; cbn [map]; apply (tells_app _ _ [_]); auto with source.
Qed.

Lemma tells_message message indent :
  spelled_message message = true → spaces indent = true → tells (appendProtoMessage message indent) (declared_message message).
Proof.
  revert indent. induction message as [message IH] using message_descriptor_nested_ind. intros indent H Hi.
  rewrite spelled_message_unfold in H. rewrite appendProtoMessage_unfold, declared_message_unfold. parts. case_match; [apply tells_nil|].
  cbv zeta. apply tells_spaces; [done|]. pose proof (spaces_inner _ Hi) as Hinner. revert Hinner. generalize (indent ++ str "  "). intros inner Hinner.
  rewrite Forall_forall in IH.
  match goal with |- tells (_ ++ _ ++ _ ++ _ ++ _ ++ ?o ++ ?e ++ ?m ++ ?r ++ ?n ++ ?x ++ ?f ++ ?g ++ ?y ++ _) _ =>
    replace (o ++ e ++ m ++ r ++ n ++ x ++ f ++ g ++ y ++ indent ++ str "}" ++ nl) with ((o ++ e ++ m ++ r ++ n ++ x ++ f ++ g ++ y) ++ indent ++ str "}" ++ nl)
      by (by rewrite <- !(assoc_L (++)))
  end.
  eapply tells_block; [reflexivity|reflexivity|reflexivity|done|done|]. repeat apply tells_app; auto with source.
  - eapply tells_map; [done|]. auto with source.
  - apply (tells_concat spelled_message); [done|]. intros m Hm Hs. rewrite isGroupType_spec.
    destruct (decide _) as [Hg|Hg]; [rewrite bool_decide_eq_true_2 by done; apply tells_nil|].
    rewrite bool_decide_eq_false_2 by done. by apply IH.
  - apply (tells_map spelled_range); [done|]. intros r _ Hr. eapply tells_range; [by left|done..].
  - apply (tells_map spelled_range); [done|]. intros r _ Hr. eapply tells_range; [by right|done..].
  - by apply tells_fields.
  - eapply tells_concat; [done|]. auto with source.
  - eapply tells_map; [done|]. auto with source.
Qed.

(** *** Services and files *)

Lemma reads_message (stream : bool) name s ts :
  word (str "." ++ name) = true → apart s = true → reads s ts →
  reads (str "(" ++ (if stream then str "stream " else []) ++ str "." ++ name ++ str ")" ++ s)
    (message_tokens stream (str "." ++ name) ++ ts).
Proof.
  intros Hw Hs H. unfold message_tokens. rewrite <- app_comm_cons, <- !(assoc_L (++)). apply (reads_piece (str "(") [Mark x28]); [done|].
  apply reads_app; [by destruct stream|]. rewrite (assoc_L (++) (str ".")). apply (reads_word _ _ (Mark x29 :: ts)); [done|done|].
  by apply (reads_piece (str ")") [Mark x29]).
Qed.

Lemma tells_method method : spelled_method method = true → tells (append_method method) [declared_method method].
Proof.
  unfold spelled_method, append_method, declared_method. intros H. parts.
  set (head := name_of KRpc :: Word (mt_Name method) :: message_tokens (mt_StreamingClient method) (str "." ++ mt_Input method) ++
    name_of KReturns :: message_tokens (mt_StreamingServer method) (str "." ++ mt_Output method)).
  assert (∀ s ts, apart s = true → reads s ts →
    reads (str "  rpc " ++ mt_Name method ++ str " (" ++ (if mt_StreamingClient method then str "stream " else []) ++
      str "." ++ mt_Input method ++ str ") returns (" ++ (if mt_StreamingServer method then str "stream " else []) ++
      str "." ++ mt_Output method ++ str ")" ++ s) (head ++ ts)) as Hhead.
  { intros s ts Hs Hts. unfold head. rewrite <- !app_comm_cons, <- (assoc_L (++)), <- app_comm_cons.
    apply (reads_piece (str "  rpc ") [name_of KRpc]); [done|]. apply reads_word; [done|done|].
    apply (reads_spaces (str " ") (str "(" ++ _)); [done|].
    apply (reads_message _ _ (str " returns " ++ str "(" ++ _)); [done|done|].
    apply (reads_piece (str " returns ") [name_of KReturns]); [done|]. by apply reads_message. }
  unfold optionCount. destruct (mt_Options method) as [|o os].
  - rewrite !decide_True by done. apply tells_one; [|done]. by apply Hhead.
  - rewrite !decide_False by done. pose proof (tells_options (o :: os) (str "    ")) as Ho. destruct Ho as [Ho Hp]; [done|done|].
    apply tells_one; [|done]. cbn [declared_method render]. rewrite flat_block. apply Hhead; [done|]. reading. reflexivity.
Qed.

Lemma tells_service service : spelled_service service = true → tells (appendProtoService service) [declared_service service].
Proof.
  unfold spelled_service, appendProtoService, declared_service. intros H. parts. apply tells_spaces; [done|]. rewrite (assoc_L (++) (appendProtoOptions _ _ _)).
  eapply (tells_block _ KService _ _ _ []); [reflexivity|reflexivity|reflexivity|done|done|].
  apply tells_app; [by apply tells_options|]. eapply tells_map; [done|]. intros m _. apply tells_method.
Qed.

Lemma tells_file file : spelled_file file = true → tells (PrintProtoFile file) (declared_file file).
Proof.
  unfold spelled_file, PrintProtoFile, declared_file. intros H. parts.
  match goal with H : negb _ = true |- _ => apply negb_true_iff, bool_decide_eq_false in H as Hed; clear H end.
  assert (∀ ds rest, tells rest ds →
    tells (str "syntax = " ++ quote ++ syntax_text (fl_Syntax file) ++ quote ++ str ";" ++ nl ++ rest)
      ([DSyntax (declared_syntax (fl_Syntax file))] ++ ds)) as Hsyntax.
  { intros ds rest Hrest. assert (∀ s : bytes, str "syntax = " ++ quote ++ s ++ quote ++ str ";" ++ nl ++ rest =
      (str "syntax = " ++ quote ++ s ++ quote ++ str ";" ++ nl) ++ rest) as -> by (intros s; by rewrite <- !(assoc_L (++))).
    apply tells_app; [|done]. by destruct (fl_Syntax file). }
  apply Hsyntax. repeat apply tells_app; auto with source.
  - case_decide; [apply tells_nil|]. apply tells_one; [|done]. cbn [render flat].
    assert (word (fl_Package file) = true) by (by destruct (bool_decide_reflect (fl_Package file = []))).
    apply (reads_piece (str "package ") [name_of KPackage]); [done|]. apply reads_word; [done|done|]. by reading.
  - eapply (tells_map (λ _, true)); [by apply forallb_forall|]. intros path _ _. apply tells_one; [|done]. cbn [render flat]. by reading.
  - eapply tells_map; [done|]. auto with source.
  - eapply tells_concat; [done|]. intros m _ Hm. by apply tells_message.
  - eapply tells_map; [done|]. auto with source.
  - eapply tells_map; [done|]. intros s _. apply tells_service.
Qed.

(** C34: The schema text that is registered says what the descriptor says. Take a proto2 or proto3 file whose names are identifiers, whatever
    its nesting, and whatever the strings that its options, its imports and its reserved names hold. A reader of the language that splits
    the printed file into tokens, groups them into statements and blocks, and understands each one on its own, finds exactly the
    declarations of the descriptor: the syntax, the package and the imports; every enum with the name and number of its values; every message
    with its reserved and extension ranges, and its fields with label, type, name, number and options, those of a oneof and of a
    group within it; extensions and services. The message of a map entry, the message of a group and a synthetic oneof are left to
    the fields that stand for them. So two such descriptors with the same text declare the same. Left out are the files that the printer
    gets wrong: maps in proto2 ([proto2_map_labelled]), a group whose message holds more than fields or whose fields are in oneofs
    ([group_nested_lost], [group_oneof_lost]) or that has options, a group that is an extension ([group_extension_twice]), and files of an
    edition, which are printed as proto3 ([edition_as_proto3]). *)
Theorem proto_text_reads_back (file : file_descriptor) (spelled : spelled_file file = true) :
  read_file (PrintProtoFile file) = Some (declared_file file) ∧
  ∀ other, spelled_file other = true → PrintProtoFile other = PrintProtoFile file → declared_file other = declared_file file.
Proof.
  assert (∀ f, spelled_file f = true → read_file (PrintProtoFile f) = Some (declared_file f)) as Hreads.
  { intros f [Hf Hp]%tells_file. unfold read_file, tokens_of. rewrite Hf. by apply declarations_read. }
  split; [by apply Hreads|]. intros other Ho E. apply Hreads in Ho. apply Hreads in spelled. rewrite E in Ho. congruence.
Qed.

(** A proto2 file with a group and a message beside it. *)
Definition groups_file : file_descriptor :=
  proto2_file
    [plain_message (str "M") (str "M")
       [plain_message (str "G") (str "M.G") [] [scalar_field (str "a") 2 Int32Kind Required true];
        plain_message (str "N") (str "M.N") [] [scalar_field (str "b") 1 StringKind Repeated true]]
       [group_field (scalar_field (str "g") 1 GroupKind Optional true) (str "M.G") (str "G") [scalar_field (str "a") 2 Int32Kind Required true];
        message_field (scalar_field (str "n") 3 MessageKind Optional true) (str "M.N") (str "N")]] [].

Lemma proto_text_reads_back_witness :
  read_file (PrintProtoFile groups_file) = Some (declared_file groups_file) ∧
  spelled_file orders_file = true ∧ read_file (PrintProtoFile orders_file) = Some (declared_file orders_file) ∧
  ∀ other, spelled_file other = true → PrintProtoFile other = PrintProtoFile orders_file → declared_file other = declared_file orders_file.
Proof.
  split; [apply (proto_text_reads_back groups_file); vm_compute; reflexivity|].
  split; [vm_compute; reflexivity|]. apply (proto_text_reads_back orders_file). vm_compute. reflexivity.
Defined.

Example groups_declared : declared_file groups_file =
  [DSyntax (str "proto2");
   DMessage (str "M")
     [DMessage (str "N") [DField (Some LRepeated) (Named (str "string")) (str "b") 1 []];
      DGroup (Some LOptional) (str "G") 1 [DField (Some LRequired) (Named (str "int32")) (str "a") 2 []];
      DField (Some LOptional) (Named (str ".M.N")) (str "n") 3 []]].
Proof. vm_compute. reflexivity. Qed.

(** A file of an edition is printed as proto3. *)
Lemma edition_as_proto3 :
  read_file (PrintProtoFile (MkFile Editions [] [] [] [] [] [] [])) = Some [DSyntax (str "proto3")].
Proof. vm_compute. reflexivity. Qed.

(** What the file declares: the hard texts of its options, its import and its reserved name come out whole. *)
Example orders_declared : declared_file orders_file =
  [DSyntax (str "proto3"); DPackage (str "shop"); DImport wild;
   DMessage (str "Order")
     [DEnum (str "State") [DEnumValue (str "NEW") 0 []]; DReserved 8 9; DReservedNames [wild];
      DField None (Named (str "int64")) (str "id") 1 [];
      DField (Some LRepeated) (Named (str "string")) (str "note") 2
        [MkDeclared true (str "shop.label") (Literal wild); MkDeclared true (str "shop.label") (Aggregate (str " a:{b:1} "))];
      DField (Some LOptional) (Named (str ".shop.Order.State")) (str "state") 3 [];
      DField None (MapOf (str "string") (str "sint32")) (str "count") 4 [];
      DOneof (str "pay") [DField None (Named (str "bytes")) (str "card") 5 []; DField None (Named (str "bool")) (str "cash") 6 []]];
   DService (str "Orders") [DRpc (str "Watch") false (str ".shop.Order") true (str ".shop.Order") None]].
Proof. vm_compute. reflexivity. Qed.
