(* ===== verification/ProtoBridge.v ===== *)
(** * The Protobuf bridge, from columnarschema/protoschema.go, protobridge.go and protocodec.go

    The columns of a message type, and the conversions between messages and columns. The types that can be reached are a list by full name. A
    descent into a message takes fuel: [schema_fuel] is enough, since a type within itself becomes text. The conversions
    are structural in the type of the column. *)

From Stdlib Require Import QArith.QArith.
From S2P Require Import Prelude GoStd GoNet GoFloat Kafka Json Value Cells Frames Codecs Nested Proto.

#[local] Open Scope Z_scope.

(** ** Columns of a message type *)

Definition protoTimestamp := str "google.protobuf.Timestamp".

Definition protoJSONFallback : list bytes :=
  [str "google.protobuf.Struct"; str "google.protobuf.Value"; str "google.protobuf.ListValue"].

Definition protoWrappers : list (bytes * data_type) :=
  [(str "google.protobuf.DoubleValue", TFloat64); (str "google.protobuf.FloatValue", TFloat32);
   (str "google.protobuf.Int64Value", TInt I64); (str "google.protobuf.UInt64Value", TInt U64);
   (str "google.protobuf.Int32Value", TInt I32); (str "google.protobuf.UInt32Value", TInt I64);
   (str "google.protobuf.BoolValue", TBoolean); (str "google.protobuf.StringValue", TString);
   (str "google.protobuf.BytesValue", TBinary)].

Definition wrapped (full : bytes) : option data_type := snd <$> List.find (λ e, bool_decide (e.1 = full)) protoWrappers.

(** The entry of the oneof, unless the pairs have the key. *)
Definition oneofMetadata (field : field_descriptor) (pairs : gmap bytes bytes) : list (bytes * bytes) :=
  match real_oneof field with
  | None => buildMetadata pairs
  | Some name => buildMetadata (pairs ∪ {[MetadataProtoOneof := name]})
  end.

Definition fieldMetadataPairs (f : nested_field) : gmap bytes bytes := fold_left (λ m e, <[e.1 := e.2]> m) (nf_Metadata f) ∅.

Section Fields.
Context (message_column : bytes → bytes → list bytes → option nested_field).

Definition protoElement (name : bytes) (field : field_descriptor) (visiting : list bytes) : option nested_field :=
  match fd_Kind field with
  | DoubleKind => Some (plain name (NScalar TFloat64) false)
  | FloatKind => Some (plain name (NScalar TFloat32) false)
  | Int32Kind | Sint32Kind | Sfixed32Kind => Some (plain name (NScalar (TInt I32)) false)
  | Int64Kind | Sint64Kind | Sfixed64Kind => Some (plain name (NScalar (TInt I64)) false)
  | Uint32Kind | Fixed32Kind => Some (plain name (NScalar (TInt I64)) false)
  | Uint64Kind | Fixed64Kind => Some (plain name (NScalar (TInt U64)) false)
  | BoolKind => Some (plain name (NScalar TBoolean) false)
  | StringKind => Some (plain name (NScalar TString) false)
  | BytesKind => Some (plain name (NScalar TBinary) false)
  | EnumKind => Some (taggedField name (NScalar TString) false {[MetadataProtoEnum := fd_Type field]})
  | MessageKind | GroupKind => message_column name (fd_Type field) visiting
  end.

(** [arrow.MapOf] takes the types of the key and the value. *)
Definition protoMapField (field : field_descriptor) (key value : nested_field) : nested_field :=
  MkNested (fd_Name field) (NMap (erase (nf_Type key)) (nf_Type value)) false (oneofMetadata field ∅).

Fixpoint protoField (field : field_descriptor) (visiting : list bytes) {struct field} : option nested_field :=
  match fd_Map field with
  | Some (key, value) =>
      match protoElement (str "key") key visiting, protoField value visiting with
      | Some key, Some value => Some (protoMapField field key value)
      | _, _ => None
      end
  | None =>
      if IsList field then
        match protoElement (str "item") field visiting with
        | Some element => Some (MkNested (fd_Name field) (NList element) false (oneofMetadata field ∅))
        | None => None
        end
      else
        match protoElement (fd_Name field) field visiting with
        | Some element =>
            Some (MkNested (fd_Name field) (nf_Type element) (fd_HasPresence field) (oneofMetadata field (fieldMetadataPairs element)))
        | None => None
        end
  end.
End Fields.

Section Schema.
Context (env : list (bytes * list field_descriptor)).

Definition json_column (name full : bytes) : nested_field :=
  taggedField name (NScalar TString) false (<[MetadataJSON := str "true"]> {[MetadataProtoMessage := full]}).

Fixpoint protoMessageField (fuel : nat) (name full : bytes) (visiting : list bytes) : option nested_field :=
  if decide (full = protoTimestamp) then Some (plain name (NTimestamp UnitMicrosecond (str "UTC")) false)
  else
    match wrapped full with
    | Some t => Some (taggedField name (NScalar t) false {[MetadataProtoWrapper := full]})
    | None =>
        if decide (full ∈ protoJSONFallback ∨ full ∈ visiting) then Some (json_column name full)
        else
          match fuel with
          | O => None
          | S fuel =>
              match mapM (λ f, protoField (protoMessageField fuel) f (visiting ++ [full])) (message_fields env full) with
              | Some children => Some (plain name (NStruct children) false)
              | None => None
              end
          end
    end.

Definition schema_fuel : nat := S (length env).

Definition protoTopLevelFields (full : bytes) : option (list nested_field) :=
  mapM (λ f, protoField (protoMessageField schema_fuel) f [full]) (message_fields env full).

(** A field of the message [full]. *)
Definition ProtobufArrowField (full : bytes) (field : field_descriptor) : option nested_field :=
  protoField (protoMessageField schema_fuel) field [full].

Definition ProtobufArrowSchema (full : bytes) : option (list field) := map erase_field <$> protoTopLevelFields full.
End Schema.

(** ** Messages to columns *)

(** [Panics] is a failed type assertion, a value of another kind or an index out of range. *)
Inductive proto_error :=
| CannotEncodeJSON (full column : bytes)
| CannotParseJSON (column : bytes)
| JSONNotText (column : bytes)
| TimestampOverflow (column : bytes)
| NotAMap (column : bytes)
| NotAList (column : bytes)
| NotAStruct (column : bytes)
| NotAnInteger
| NotA (kind : proto_kind)
| NoEnumValue (enum symbol : bytes)
| BadMapKey (key : bytes)
| UnsupportedMapKey (kind : proto_kind)
| MissingColumn (column : bytes)
| AppendError (e : cell_error)
| Panics.

Fixpoint fold_results {S A E} (f : A → S → result E S) (l : list A) (s : S) : result E S :=
  match l with [] => Ok s | a :: l => let* s := f a s in fold_results f l s end.

Definition floorDiv (v divisor : Z) : Z :=
  let quotient := int64 (Z.quot v divisor) in
  if negb (Z.rem v divisor =? 0) && negb (eqb (v <? 0) (divisor <? 0)) then int64 (quotient - 1) else quotient.
Definition floorMod (v divisor : Z) : Z := int64 (v - int64 (floorDiv v divisor * divisor)).

Section Bridge.
Context {L : ArrowLib} {P : ProtoLib} (env : list (bytes * list field_descriptor)).

(** The kinds that are not listed in the code are texts: it asks for no message here. *)
Definition protoScalarValue (v : proto_value message) (field : field_descriptor) : result proto_error value :=
  match fd_Kind field, v with
  | (Uint32Kind | Fixed32Kind), PVUint n => Ok (VInt KInt64 (int64 n))
  | (Uint64Kind | Fixed64Kind), PVUint n => Ok (VInt KUint64 n)
  | EnumKind, PVEnum n => Ok (VString (default (FormatInt n) (by_number (fd_Values field) n)))
  | BytesKind, PVBytes s => Ok (VBytes s)
  | (Int32Kind | Sint32Kind | Sfixed32Kind), PVInt n => Ok (VInt KInt32 (int32 n))
  | (Int64Kind | Sint64Kind | Sfixed64Kind), PVInt n => Ok (VInt KInt64 n)
  | FloatKind, PVFloat bits => Ok (VFloat32 (round32 bits))
  | DoubleKind, PVFloat bits => Ok (VFloat64 bits)
  | BoolKind, PVBool b => Ok (VBool b)
  | StringKind, PVString s => Ok (VString s)
  | _, _ => Err Panics
  end.

Definition is_message (field : field_descriptor) : bool := match fd_Kind field with MessageKind | GroupKind => true | _ => false end.

(** [key.Value().String()]. *)
Definition key_String (k : map_key) : bytes :=
  match k with
  | MKInt n | MKUint n => FormatInt n
  | MKBool b => if b then str "true" else str "false"
  | MKString s => s
  end.

(** The item type of a map carries no metadata. *)
Definition mapItemField (item : nested_type) : nested_field := plain (str "value") item true.

Section Descend.
Context (message_value : message → bytes → bytes → list (bytes * bytes) → nested_type → result proto_error value).

Definition protoSingularValue_in (v : proto_value message) (field : field_descriptor) (f : nested_field) : result proto_error value :=
  if is_message field then
    match v with PVMessage m => message_value m (fd_Type field) (nf_Name f) (nf_Metadata f) (nf_Type f) | _ => Err Panics end
  else protoScalarValue v field.

Definition protoColumnValue_in (m : message) (field : field_descriptor) (f : nested_field) : result proto_error value :=
  match fd_Map field with
  | Some (_, value_field) =>
      match nf_Type f with
      | NMap _ item =>
          let* entries := map_results (λ e, let* converted := protoSingularValue_in e.2 value_field (mapItemField item) in
                                            Ok (key_String e.1, converted)) (Get_map m field) in
          Ok (VMap (fold_left (λ r e, map_insert e.1 e.2 r) entries []))
      | _ => Err Panics
      end
  | None =>
      if IsList field then
        match nf_Type f with
        | NList item => let* items := map_results (λ v, protoSingularValue_in v field item) (Get_list m field) in Ok (VList items)
        | _ => Err Panics
        end
      else if fd_HasPresence field && negb (Has m field) then Ok VNil
      else protoSingularValue_in (Get m field) field f
  end.

(** The children of a struct with the fields of the message, in order. *)
Fixpoint child_values (m : message) (fields : list field_descriptor) (children : list nested_field) {struct children} : result proto_error (list (bytes * value)) :=
  match children, fields with
  | [], _ => Ok []
  | child :: children, field :: fields =>
      let* v := protoColumnValue_in m field child in
      let* vs := child_values m fields children in Ok ((nf_Name child, v) :: vs)
  | _ :: _, [] => Err Panics
  end.
End Descend.

Fixpoint protoMessageValue (m : message) (full column : bytes) (metadata : list (bytes * bytes)) (t : nested_type) {struct t} : result proto_error value :=
  if decide (find_key metadata MetadataJSON = str "true") then
    match protojson_Marshal m with Some text => Ok (VString text) | None => Err (CannotEncodeJSON full column) end
  else if decide (find_key metadata MetadataProtoWrapper ≠ []) then
    match by_field_name (message_fields env full) (str "value") with
    | Some value_field => protoScalarValue (Get m value_field) value_field
    | None => Err Panics
    end
  else
    match t with
    | NTimestamp _ _ =>
        match by_field_name (message_fields env full) (str "seconds"), by_field_name (message_fields env full) (str "nanos") with
        | Some s, Some n =>
            match Get m s, Get m n with
            | PVInt seconds, PVInt nanos =>
                if (Z.quot MaxInt64 1000000 <? seconds) || (seconds <? Z.quot MinInt64 1000000) then Err (TimestampOverflow column)
                else Ok (VInt KInt64 (int64 (int64 (seconds * 1000000) + Z.quot nanos 1000)))
            | _, _ => Err Panics
            end
        | _, _ => Err Panics
        end
    | NStruct children =>
        let* values := child_values protoMessageValue m (message_fields env full) children in
        Ok (VMap (fold_left (λ r e, map_insert e.1 e.2 r) values []))
    | _ => Err Panics
    end.

Definition protoSingularValue (v : proto_value message) (field : field_descriptor) (f : nested_field) : result proto_error value :=
  protoSingularValue_in protoMessageValue v field f.
Definition protoColumnValue (m : message) (field : field_descriptor) (f : nested_field) : result proto_error value :=
  protoColumnValue_in protoMessageValue m field f.

(** ** Columns to messages *)

(** The enum of the field. A number that has no name travels as its digits. *)
Definition protoEnumValue (symbol : bytes) (field : field_descriptor) : result proto_error (proto_value message) :=
  let named := match by_name (fd_Values field) symbol with
               | Some number => Ok (PVEnum number)
               | None => Err (NoEnumValue (fd_Type field) symbol)
               end in
  match symbol with
  | b :: _ =>
      if bool_decide (b = ascii_byte "-") || in_range b 48 57 then
        match ParseInt symbol 64 with Some number => Ok (PVEnum (int32 number)) | None => named end
      else named
  | [] => named
  end.

(** [big.Int.Uint64] is documented for a number in range only. *)
Definition protoScalarFromArrow (v : value) (field : field_descriptor) : result proto_error (proto_value message) :=
  let number := match toInt64 v with Some n => Ok n | None => Err NotAnInteger end in
  match fd_Kind field with
  | Int32Kind | Sint32Kind | Sfixed32Kind => let* n := number in Ok (PVInt (int32 n))
  | Uint32Kind | Fixed32Kind => let* n := number in Ok (PVUint (uint32 n))
  | Int64Kind | Sint64Kind | Sfixed64Kind => let* n := number in Ok (PVInt n)
  | Uint64Kind | Fixed64Kind =>
      match v with
      | VInt KUint64 n => Ok (PVUint n)
      | VBigInt n => Ok (PVUint (uint64 n))
      | _ => let* n := number in Ok (PVUint (uint64 n))
      end
  | FloatKind => match v with VFloat32 bits => Ok (PVFloat bits) | VFloat64 bits => Ok (PVFloat (round32 bits)) | _ => Err (NotA FloatKind) end
  | DoubleKind => match v with VFloat32 bits | VFloat64 bits => Ok (PVFloat bits) | _ => Err (NotA DoubleKind) end
  | BoolKind => match v with VBool b => Ok (PVBool b) | _ => Err (NotA BoolKind) end
  | StringKind => Ok (PVString (stringOf v))
  | BytesKind => match v with VBytes s => Ok (PVBytes s) | _ => Err (NotA BytesKind) end
  | EnumKind => protoEnumValue (stringOf v) field
  | kind => Err (NotA kind)
  end.

Definition protoMapKey (key : bytes) (field : field_descriptor) : result proto_error map_key :=
  let parsed make (o : option Z) := match o with Some n => Ok (make n) | None => Err (BadMapKey key) end in
  match fd_Kind field with
  | StringKind => Ok (MKString key)
  | BoolKind => Ok (MKBool (bool_decide (key = str "true")))
  | Int32Kind | Sint32Kind | Sfixed32Kind => parsed MKInt (ParseInt key 32)
  | Int64Kind | Sint64Kind | Sfixed64Kind => parsed MKInt (ParseInt key 64)
  | Uint32Kind | Fixed32Kind => parsed MKUint (ParseUint key 32)
  | Uint64Kind | Fixed64Kind => parsed MKUint (ParseUint key 64)
  | kind => Err (UnsupportedMapKey kind)
  end.

Section Populate.
Context (populate : message → bytes → bytes → list (bytes * bytes) → nested_type → value → result proto_error message).

(** [newValue] makes an empty message of the type of the field. *)
Definition protoSingularFromArrow_in (field : field_descriptor) (f : nested_field) (v : value) : result proto_error (proto_value message) :=
  if is_message field then
    let* m := populate (New (fd_Type field)) (fd_Type field) (nf_Name f) (nf_Metadata f) (nf_Type f) v in Ok (PVMessage m)
  else protoScalarFromArrow v field.

(** The entries of a Go map come in any order. *)
Definition protoSetColumn_in (field : field_descriptor) (f : nested_field) (v : value) (m : message) : result proto_error message :=
  match v with
  | VNil => Ok m
  | _ =>
      match fd_Map field with
      | Some (key_field, value_field) =>
          match v, nf_Type f with
          | VMap entries, NMap _ item =>
              fold_results (λ e m,
                let* k := protoMapKey e.1 key_field in
                let* x := protoSingularFromArrow_in value_field (mapItemField item) e.2 in
                Ok (Map_Set field k x m)) entries m
          | VMap _, _ => Err Panics
          | _, _ => Err (NotAMap (nf_Name f))
          end
      | None =>
          if IsList field then
            match v, nf_Type f with
            | VList items, NList item =>
                fold_results (λ x m,
                  match x with
                  | VNil => Ok m
                  | _ => let* x := protoSingularFromArrow_in field item x in Ok (List_Append field x m)
                  end) items m
            | VList _, _ => Err Panics
            | _, _ => Err (NotAList (nf_Name f))
            end
          else let* x := protoSingularFromArrow_in field f v in Ok (Set_ field x m)
      end
  end.

Fixpoint fill_children (entries : list (bytes * value)) (fields : list field_descriptor) (children : list nested_field) (m : message) {struct children} :
    result proto_error message :=
  match children, fields with
  | [], _ => Ok m
  | child :: children, field :: fields =>
      let* m := protoSetColumn_in field child (map_lookup (nf_Name child) entries) m in fill_children entries fields children m
  | _ :: _, [] => Err Panics
  end.
End Populate.

Fixpoint protoPopulateMessage (m : message) (full column : bytes) (metadata : list (bytes * bytes)) (t : nested_type) (v : value) {struct t} :
    result proto_error message :=
  if decide (find_key metadata MetadataJSON = str "true") then
    match v with
    | VString text => match protojson_Unmarshal text m with Some m => Ok m | None => Err (CannotParseJSON column) end
    | _ => Err (JSONNotText column)
    end
  else if decide (find_key metadata MetadataProtoWrapper ≠ []) then
    match by_field_name (message_fields env full) (str "value") with
    | Some value_field => let* x := protoScalarFromArrow v value_field in Ok (Set_ value_field x m)
    | None => Err Panics
    end
  else
    match t with
    | NTimestamp _ _ =>
        match toInt64 v with
        | None => Err NotAnInteger
        | Some micros =>
            match by_field_name (message_fields env full) (str "seconds"), by_field_name (message_fields env full) (str "nanos") with
            | Some s, Some n =>
                Ok (Set_ n (PVInt (int32 (floorMod micros 1000000 * 1000))) (Set_ s (PVInt (floorDiv micros 1000000)) m))
            | _, _ => Err Panics
            end
        end
    | _ =>
        match v, t with
        | VMap entries, NStruct children => fill_children protoPopulateMessage entries (message_fields env full) children m
        | VMap _, _ => Err Panics
        | _, _ => Err (NotAStruct column)
        end
    end.

Definition protoSingularFromArrow (field : field_descriptor) (f : nested_field) (v : value) : result proto_error (proto_value message) :=
  protoSingularFromArrow_in protoPopulateMessage field f v.
Definition protoSetColumn (field : field_descriptor) (f : nested_field) (v : value) (m : message) : result proto_error message :=
  protoSetColumn_in protoPopulateMessage field f v m.
End Bridge.

(** ** The bridge *)

(** The descriptor is the full name of the message and the types that it reaches. *)
Record ProtobufRowBridge := MkProtoBridge {
  pb_env : list (bytes * list field_descriptor);
  pb_full : bytes;
  pb_fields : list nested_field
}.

Definition NewProtobufRowBridge (env : list (bytes * list field_descriptor)) (full : bytes) : option ProtobufRowBridge :=
  MkProtoBridge env full <$> protoTopLevelFields env full.

Definition bridge_ArrowSchema (b : ProtobufRowBridge) : list field := map erase_field (pb_fields b).

Section Rows.
Context {L : ArrowLib} {P : ProtoLib}.

Definition proto_write_cell (env : list (bytes * list field_descriptor)) (field : field_descriptor) (f : nested_field) (row : message) :
    result proto_error cell :=
  let* converted := protoColumnValue env row field f in
  rmap_err AppendError (appendGoValue (erase (nf_Type f)) converted).

(** The fields of the message and the columns are in the same order. A record without columns has no rows. *)
Definition proto_RowsToBatch (b : ProtobufRowBridge) (rows : list message) : result proto_error frame :=
  let* columns := map_results (λ p, let* cells := map_results (proto_write_cell (pb_env b) p.1 p.2) rows in
                                    Ok (MkColumn (erase (nf_Type p.2)) cells)) (zip (message_fields (pb_env b) (pb_full b)) (pb_fields b)) in
  Ok (MkFrame (bridge_ArrowSchema b) columns (if decide (pb_fields b = []) then 0%nat else length rows)).

Definition proto_column_of (batch : frame) (f : nested_field) : result proto_error column :=
  match FieldIndices batch (nf_Name f) with
  | [] => Err (MissingColumn (nf_Name f))
  | i :: _ => match fr_Columns batch !! i with Some c => Ok c | None => Err Panics end
  end.

Definition proto_read_row (b : ProtobufRowBridge) (columns : list column) (row : nat) : result proto_error message :=
  fold_results (λ p m, protoSetColumn (pb_env b) p.1.1 p.1.2 (arrowValue (col_Type p.2) (cell_at p.2 row)) m)
    (zip (zip (message_fields (pb_env b) (pb_full b)) (pb_fields b)) columns) (New (pb_full b)).

Definition proto_BatchToRows (b : ProtobufRowBridge) (batch : frame) : result proto_error (list message) :=
  let* columns := map_results (proto_column_of batch) (pb_fields b) in
  map_results (proto_read_row b columns) (seq 0 (fr_NumRows batch)).
End Rows.

(** ** The codec *)

(** The serde of the message type, which [Serde] models. *)
Record proto_serde (M E : Type) := MkProtoSerde {
  pserde_Serialize : bytes → M → result E (option bytes);
  pserde_Deserialize : bytes → option bytes → result E M
}.
Arguments MkProtoSerde {M E}.
Arguments pserde_Serialize {M E}.
Arguments pserde_Deserialize {M E}.

Section Codec.
Context {L : ArrowLib} {P : ProtoLib} {E : Type}.

Record ProtobufBatchCodec := MkProtoCodec { pcd_serde : proto_serde message E; pcd_bridge : ProtobufRowBridge; pcd_arrowSchema : list field }.

Definition NewProtobufBatchCodec (serde : proto_serde message E) (env : list (bytes * list field_descriptor)) (full : bytes) : option ProtobufBatchCodec :=
  (λ bridge, MkProtoCodec serde bridge (bridge_ArrowSchema bridge)) <$> NewProtobufRowBridge env full.

Definition ProtobufBatchCodec_Decode (c : ProtobufBatchCodec) (topic : bytes) (records : list ConsumedRecord) :
    result (codec_error (E + proto_error)) frame :=
  RowCodec_Decode (λ topic data, rmap_err inl (pserde_Deserialize (pcd_serde c) topic data))
    (λ rows, rmap_err inr (proto_RowsToBatch (pcd_bridge c) rows)) topic records.

Definition ProtobufBatchCodec_Encode (c : ProtobufBatchCodec) (topic : bytes) (batch : frame) :
    result (codec_error (E + proto_error)) (list ProduceRecord) :=
  RowCodec_Encode (λ topic m, rmap_err inl (pserde_Serialize (pcd_serde c) topic m))
    (λ batch, rmap_err inr (proto_BatchToRows (pcd_bridge c) batch)) topic batch.
End Codec.
