(* ===== verification/ProtoTrip.v ===== *)
(** * Messages that travel through columns

    [fits] says that a value of a message is one that the bridge carries, and [back] what comes back of it: the same value, but
    a timestamp at the precision of its column and a message that travels as JSON. *)

From Stdlib Require Import QArith.QArith.
From S2P Require Import Prelude GoStd GoNet GoFloat Kafka Json Value Cells Frames Codecs Nested Proto ProtoBridge.

#[local] Open Scope Z_scope.

(** ** The schema of every message type *)

Section Total.
Context (env : list (bytes * list field_descriptor)).

(** The types that are not visited. *)
Definition unvisited (visiting : list bytes) : nat := length (List.filter (λ e, negb (bool_decide (e.1 ∈ visiting))) env).

Lemma unvisited_less visiting full :
  full ∉ visiting → message_fields env full ≠ [] → (unvisited (visiting ++ [full]) < unvisited visiting)%nat.
Proof.
  intros Hv. unfold unvisited. assert (∀ l, (length (List.filter (λ e : bytes * list field_descriptor, negb (bool_decide (e.1 ∈ visiting ++ [full]))) l) ≤
    length (List.filter (λ e : bytes * list field_descriptor, negb (bool_decide (e.1 ∈ visiting))) l))%nat) as Hle.
  { induction l as [|e l IH]; [done|]. cbn [List.filter]. destruct (decide (e.1 ∈ visiting)) as [He|He].
    - rewrite !bool_decide_eq_true_2; [done|done|]. apply elem_of_app. by left.
    - rewrite (bool_decide_eq_false_2 _ He). cbn [negb]. case_bool_decide; cbn [negb length]; lia. }
  induction env as [|[name fields] l IH]; [done|]. cbn [message_fields List.filter fst]. case_decide as Hn.
  - intros _. subst. rewrite (bool_decide_eq_false_2 _ Hv), bool_decide_eq_true_2 by (apply elem_of_app; right; apply list_elem_of_here).
    cbn [negb length]. specialize (Hle l). lia.
  - intros H. apply IH in H. specialize (Hle [(name, fields)]). cbn [List.filter fst] in Hle.
    destruct (bool_decide (name ∈ visiting)), (bool_decide (name ∈ visiting ++ [full])); cbn [negb length] in *; lia.
Qed.

Lemma mapM_total {A B} (f : A → option B) l : (∀ x, is_Some (f x)) → ∃ k, mapM f l = Some k ∧ length k = length l.
Proof.
  intros H. induction l as [|x l (k & Hk & Hl)]; [by exists []|]. destruct (H x) as [y Hy]. exists (y :: k). cbn. rewrite Hy. cbn. rewrite Hk.
  split; [done|]. cbn. by rewrite Hl.
Qed.

Lemma protoElement_total call name field visiting :
  (∀ name full, is_Some (call name full visiting)) → is_Some (protoElement call name field visiting).
Proof. intros H. unfold protoElement. destruct (fd_Kind field); by eauto. Qed.

Lemma protoField_unfold call field visiting :
  protoField call field visiting =
  match fd_Map field with
  | Some (key, value) =>
      match protoElement call (str "key") key visiting, protoField call value visiting with
      | Some key, Some value => Some (protoMapField field key value)
      | _, _ => None
      end
  | None =>
      if IsList field then
        match protoElement call (str "item") field visiting with
        | Some element => Some (MkNested (fd_Name field) (NList element) false (oneofMetadata field ∅))
        | None => None
        end
      else
        match protoElement call (fd_Name field) field visiting with
        | Some element =>
            Some (MkNested (fd_Name field) (nf_Type element) (fd_HasPresence field) (oneofMetadata field (fieldMetadataPairs element)))
        | None => None
        end
  end.
Proof. by destruct field. Qed.

Lemma protoField_total call field visiting :
  (∀ name full, is_Some (call name full visiting)) → is_Some (protoField call field visiting).
Proof.
  intros H. induction field as [field IH _] using field_descriptor_nested_ind. rewrite protoField_unfold.
  assert (∀ name field, is_Some (protoElement call name field visiting)) as He by (intros; by apply protoElement_total).
  destruct (fd_Map field) as [[key value]|].
  - destruct IH as [_ [v ->]]. destruct (He (str "key") key) as [k ->]. eauto.
  - destruct (IsList field); [destruct (He (str "item") field) as [e ->]|destruct (He (fd_Name field) field) as [e ->]]; eauto.
Qed.

(** A descent visits one more type, or enters a message without fields. *)
Lemma protoMessageField_total fuel name full visiting :
  (unvisited visiting < fuel)%nat → is_Some (protoMessageField env fuel name full visiting).
Proof.
  revert name full visiting. induction fuel as [|fuel IH]; intros name full visiting Hf; [lia|]. cbn [protoMessageField].
  case_decide; [eauto|]. case_match; [eauto|]. case_decide as Hv; [eauto|].
  destruct (decide (message_fields env full = [])) as [->|Hne]; [cbn; eauto|].
  assert (full ∉ visiting) as Hv' by tauto. pose proof (unvisited_less visiting full Hv' Hne) as Hlt.
  destruct (mapM_total (λ f, protoField (protoMessageField env fuel) f (visiting ++ [full])) (message_fields env full)) as (k & -> & _); [|eauto].
  intros f. apply protoField_total. intros. apply IH. lia.
Qed.

Lemma fuel_enough name full visiting : is_Some (protoMessageField env (schema_fuel env) name full visiting).
Proof.
  apply protoMessageField_total. unfold schema_fuel, unvisited. apply Nat.lt_succ_r.
  clear. induction env as [|e l IH]; [done|]. cbn [List.filter]. case_bool_decide; cbn [negb length]; lia.
Qed.

(** C20: every message type has a schema. The translation ends on recursive types too, whatever the types refer to, and it gives one
    column per field, in the order of the fields. *)
Theorem proto_schema_total full :
  ∃ columns, protoTopLevelFields env full = Some columns ∧ map nf_Name columns = map fd_Name (message_fields env full).
Proof.
  unfold protoTopLevelFields. generalize (message_fields env full) as fields. intros fields.
  destruct (mapM_total (λ f, protoField (protoMessageField env (schema_fuel env)) f [full]) fields) as (columns & Hc & _).
  { intros f. apply protoField_total. intros. apply fuel_enough. }
  exists columns. split; [done|]. apply mapM_Some_1 in Hc. induction Hc as [|f c fields columns Hf _ IH]; [done|]. cbn [map]. rewrite IH. f_equal.
  rewrite protoField_unfold in Hf. repeat case_match; by simplify_eq.
Qed.
End Total.

(** ** Messages that fit *)

Section Fits.
Context {P : ProtoLib} (env : list (bytes * list field_descriptor)).

(** The names of an enum are identifiers, each of one value. *)
Definition starts_plain (name : bytes) : bool :=
  match name with b :: _ => negb (bool_decide (b = ascii_byte "-") || in_range b 48 57) | [] => true end.
Definition enum_ok (values : list (bytes * Z)) : Prop := NoDup (map fst values) ∧ Forall (λ v, starts_plain v.1 = true) values.

Definition scalar_fits (field : field_descriptor) (v : proto_value message) : Prop :=
  match fd_Kind field, v with
  | (Int32Kind | Sint32Kind | Sfixed32Kind), PVInt n => inS 32 n
  | (Int64Kind | Sint64Kind | Sfixed64Kind), PVInt n => inS 64 n
  | (Uint32Kind | Fixed32Kind), PVUint n => inU 32 n
  | (Uint64Kind | Fixed64Kind), PVUint n => inU 64 n
  | EnumKind, PVEnum n => inS 32 n ∧ enum_ok (fd_Values field)
  | FloatKind, PVFloat bits => round32 bits = bits
  | DoubleKind, PVFloat _ | BoolKind, PVBool _ | StringKind, PVString _ | BytesKind, PVBytes _ => True
  | _, _ => False
  end.

(** The keys that their column holds: it takes no boolean key, and of an unsigned one the lower half. *)
Definition key_fits (field : field_descriptor) (k : map_key) : Prop :=
  match fd_Kind field, k with
  | StringKind, MKString _ => True
  | (Int32Kind | Sint32Kind | Sfixed32Kind), MKInt n => inS 32 n
  | (Int64Kind | Sint64Kind | Sfixed64Kind), MKInt n => inS 64 n
  | (Uint32Kind | Fixed32Kind), MKUint n => inU 32 n
  | (Uint64Kind | Fixed64Kind), MKUint n => 0 ≤ n ≤ MaxInt64
  | _, _ => False
  end.

(** The column of a wrapper is that of its value field. *)
Definition scalar_type (kind : proto_kind) : option data_type :=
  match kind with
  | DoubleKind => Some TFloat64 | FloatKind => Some TFloat32
  | Int32Kind | Sint32Kind | Sfixed32Kind => Some (TInt I32)
  | Int64Kind | Sint64Kind | Sfixed64Kind | Uint32Kind | Fixed32Kind => Some (TInt I64)
  | Uint64Kind | Fixed64Kind => Some (TInt U64)
  | BoolKind => Some TBoolean | StringKind | EnumKind => Some TString | BytesKind => Some TBinary
  | MessageKind | GroupKind => None
  end.

(** The fields of a timestamp message. *)
Definition moment_fields (s n : field_descriptor) : Prop :=
  by_field_name (message_fields env protoTimestamp) (str "seconds") = Some s ∧
  by_field_name (message_fields env protoTimestamp) (str "nanos") = Some n ∧ real_oneof s = None ∧ real_oneof n = None.

(** Names are unique, a field of a oneof is singular and has presence, and a message holds one member of a oneof at most. *)
Definition fields_ok (fields : list field_descriptor) : Prop :=
  NoDup (map fd_Name fields) ∧
  Forall (λ f, real_oneof f ≠ None → fd_HasPresence f = true ∧ fd_Map f = None ∧ IsList f = false) fields.
Definition one_member (fields : list field_descriptor) (m : message) : Prop :=
  ∀ f g name, f ∈ fields → g ∈ fields → real_oneof f = Some name → real_oneof g = Some name →
    Has m f = true → Has m g = true → fd_Name f = fd_Name g.

(** A message that travels as text. *)
Definition as_text (visiting : list bytes) (full : bytes) : Prop :=
  full ≠ protoTimestamp ∧ wrapped full = None ∧ (full ∈ protoJSONFallback ∨ full ∈ visiting).
Definition as_struct (visiting : list bytes) (full : bytes) : Prop :=
  full ≠ protoTimestamp ∧ wrapped full = None ∧ ¬ (full ∈ protoJSONFallback ∨ full ∈ visiting).

(** The value column of a map has no tags, so it holds neither wrappers nor texts of messages. *)
Definition map_value_ok (visiting : list bytes) (field : field_descriptor) : Prop :=
  fd_Map field = None ∧ IsList field = false ∧
  (is_message field = true → fd_Type field = protoTimestamp ∨ as_struct visiting (fd_Type field)).

Definition singular (field : field_descriptor) : Prop := fd_Map field = None ∧ IsList field = false.

Inductive fits : list bytes → field_descriptor → proto_value message → Prop :=
| fits_scalar visiting field v : is_message field = false → scalar_fits field v → fits visiting field v
| fits_moment visiting field m s n seconds nanos :
    is_message field = true → fd_Type field = protoTimestamp → moment_fields s n →
    Get m s = PVInt seconds → Get m n = PVInt nanos →
    Z.quot MinInt64 1000000 ≤ seconds ≤ Z.quot MaxInt64 1000000 → 0 ≤ nanos < 1000000000 → inS 64 (seconds * 1000000 + nanos / 1000) →
    fits visiting field (PVMessage m)
| fits_wrapper visiting field m value_field t :
    is_message field = true → fd_Type field ≠ protoTimestamp → wrapped (fd_Type field) = Some t →
    by_field_name (message_fields env (fd_Type field)) (str "value") = Some value_field →
    scalar_type (fd_Kind value_field) = Some t → scalar_fits value_field (Get m value_field) → fits visiting field (PVMessage m)
| fits_text visiting field m text m' :
    is_message field = true → as_text visiting (fd_Type field) →
    protojson_Marshal m = Some text → protojson_Unmarshal text (New (fd_Type field)) = Some m' → fits visiting field (PVMessage m)
| fits_struct visiting field m :
    is_message field = true → as_struct visiting (fd_Type field) →
    fields_ok (message_fields env (fd_Type field)) → one_member (message_fields env (fd_Type field)) m →
    contents_fit (visiting ++ [fd_Type field]) (message_fields env (fd_Type field)) m → fits visiting field (PVMessage m)
with contents_fit : list bytes → list field_descriptor → message → Prop :=
| contents_nil visiting m : contents_fit visiting [] m
| contents_cons visiting field fields m :
    field_fits visiting field m → contents_fit visiting fields m → contents_fit visiting (field :: fields) m
with field_fits : list bytes → field_descriptor → message → Prop :=
| field_absent visiting field m : singular field → fd_HasPresence field = true → Has m field = false → field_fits visiting field m
| field_present visiting field m :
    singular field → (fd_HasPresence field = true → Has m field = true) → fits visiting field (Get m field) → field_fits visiting field m
| field_list visiting field m :
    fd_Map field = None → IsList field = true → items_fit visiting field (Get_list m field) → field_fits visiting field m
| field_map visiting field key value m :
    fd_Map field = Some (key, value) → map_value_ok visiting value → NoDup (map fst (Get_map m field)) →
    Forall (key_fits key) (map fst (Get_map m field)) → items_fit visiting value (map snd (Get_map m field)) → field_fits visiting field m
with items_fit : list bytes → field_descriptor → list (proto_value message) → Prop :=
| items_nil visiting field : items_fit visiting field []
| items_cons visiting field v vs : fits visiting field v → items_fit visiting field vs → items_fit visiting field (v :: vs).

(** ** What comes back *)

Inductive back : list bytes → field_descriptor → proto_value message → proto_value message → Prop :=
| back_scalar visiting field v : is_message field = false → back visiting field v v
| back_moment visiting field m m' s n seconds nanos :
    is_message field = true → fd_Type field = protoTimestamp → moment_fields s n → Get m s = PVInt seconds → Get m n = PVInt nanos →
    Get m' s = PVInt seconds → Get m' n = PVInt (nanos / 1000 * 1000) → back visiting field (PVMessage m) (PVMessage m')
| back_wrapper visiting field m m' value_field t :
    is_message field = true → wrapped (fd_Type field) = Some t →
    by_field_name (message_fields env (fd_Type field)) (str "value") = Some value_field → Get m' value_field = Get m value_field →
    back visiting field (PVMessage m) (PVMessage m')
| back_text visiting field m m' text :
    is_message field = true → as_text visiting (fd_Type field) →
    protojson_Marshal m = Some text → protojson_Unmarshal text (New (fd_Type field)) = Some m' → back visiting field (PVMessage m) (PVMessage m')
| back_struct visiting field m m' :
    is_message field = true → as_struct visiting (fd_Type field) →
    (∀ f, f ∈ message_fields env (fd_Type field) → field_back (visiting ++ [fd_Type field]) f m m') →
    back visiting field (PVMessage m) (PVMessage m')
with field_back : list bytes → field_descriptor → message → message → Prop :=
| back_absent visiting field m m' :
    singular field → fd_HasPresence field = true → Has m field = false → Has m' field = false → field_back visiting field m m'
| back_present visiting field m m' :
    singular field → (fd_HasPresence field = true → Has m field = true ∧ Has m' field = true) →
    back visiting field (Get m field) (Get m' field) → field_back visiting field m m'
| back_list visiting field m m' :
    fd_Map field = None → IsList field = true → items_back visiting field (Get_list m field) (Get_list m' field) → field_back visiting field m m'
| back_map visiting field key value m m' entries entries' :
    fd_Map field = Some (key, value) → entries ≡ₚ Get_map m field → entries' ≡ₚ Get_map m' field → map fst entries' = map fst entries →
    items_back visiting value (map snd entries) (map snd entries') → field_back visiting field m m'
with items_back : list bytes → field_descriptor → list (proto_value message) → list (proto_value message) → Prop :=
| items_back_nil visiting field : items_back visiting field [] []
| items_back_cons visiting field v v' vs vs' :
    back visiting field v v' → items_back visiting field vs vs' → items_back visiting field (v :: vs) (v' :: vs').
End Fits.

Scheme fits_mind := Induction for fits Sort Prop
with contents_fit_mind := Induction for contents_fit Sort Prop
with field_fits_mind := Induction for field_fits Sort Prop
with items_fit_mind := Induction for items_fit Sort Prop.
Combined Scheme fits_mutual from fits_mind, contents_fit_mind, field_fits_mind, items_fit_mind.

(** ** Columns and their tags *)

(** The parts of a column that the conversions of a singular value read. *)
Definition same_tags (e g : nested_field) : Prop :=
  nf_Type g = nf_Type e ∧ find_key (nf_Metadata g) MetadataJSON = find_key (nf_Metadata e) MetadataJSON ∧
  find_key (nf_Metadata g) MetadataProtoWrapper = find_key (nf_Metadata e) MetadataProtoWrapper.

Lemma same_tags_refl e : same_tags e e.
Proof. done. Qed.

Lemma pairs_build (e : nested_field) m : nf_Metadata e = buildMetadata m → fieldMetadataPairs e = m.
Proof. intros He. unfold fieldMetadataPairs. rewrite He. apply fold_entries. Qed.

Lemma build_empty : buildMetadata ∅ = [].
Proof. vm_compute. reflexivity. Qed.

Section Shapes.
Context (env : list (bytes * list field_descriptor)).
Abbreviation message_column fuel := (protoMessageField env fuel).

Lemma message_shape fuel name full visiting e :
  message_column fuel name full visiting = Some e →
  (full = protoTimestamp ∧ e = plain name (NTimestamp UnitMicrosecond (str "UTC")) false) ∨
  (full ≠ protoTimestamp ∧ ∃ t, wrapped full = Some t ∧ e = taggedField name (NScalar t) false {[MetadataProtoWrapper := full]}) ∨
  (as_text visiting full ∧ e = json_column name full) ∨
  (as_struct visiting full ∧ ∃ k children, Forall2 (λ f c, protoField (message_column k) f (visiting ++ [full]) = Some c) (message_fields env full) children ∧
    e = plain name (NStruct children) false).
Proof.
  unfold as_text, as_struct. destruct fuel as [|k]; cbn [protoMessageField]; (case_decide; [intros [= <-]; by left|]);
    (destruct (wrapped full) as [t|] eqn:Hw; [intros [= <-]; right; left; split; [done|by exists t]|]);
    (case_decide; [intros [= <-]; right; right; left; done|]); [done|].
  destruct (mapM _ _) as [children|] eqn:Hm; [|done]. intros [= <-]. right. right. right. split; [done|]. exists k, children. split; [|done].
  by apply mapM_Some_1.
Qed.

Lemma element_built fuel name field visiting e :
  protoElement (message_column fuel) name field visiting = Some e → ∃ m, nf_Metadata e = buildMetadata m ∧ m !! payloadNameMetadata = None.
Proof.
  assert (∀ name t nullable, ∃ m, nf_Metadata (plain name t nullable) = buildMetadata m ∧ m !! payloadNameMetadata = None) as Hplain
    by (intros; exists ∅; by rewrite build_empty).
  assert (∀ name t nullable (m : gmap bytes bytes), m !! payloadNameMetadata = None →
    ∃ built, nf_Metadata (taggedField name t nullable m) = buildMetadata built ∧ built !! payloadNameMetadata = None) as Htagged by (intros; by eexists).
  unfold protoElement. destruct (fd_Kind field); try (intros [= <-]; apply Hplain).
  - intros [= <-]. apply Htagged. by rewrite lookup_singleton_ne by by_decide.
  - intros [(_ & ->)|[(_ & t & _ & ->)|[(_ & ->)|(_ & k & children & _ & ->)]]]%message_shape; try apply Hplain; apply Htagged.
    + by rewrite lookup_singleton_ne by by_decide.
    + by rewrite lookup_insert_ne, lookup_singleton_ne by by_decide.
  - intros [(_ & ->)|[(_ & t & _ & ->)|[(_ & ->)|(_ & k & children & _ & ->)]]]%message_shape; try apply Hplain; apply Htagged.
    + by rewrite lookup_singleton_ne by by_decide.
    + by rewrite lookup_insert_ne, lookup_singleton_ne by by_decide.
Qed.

Lemma column_element fuel field visiting c :
  protoField (message_column fuel) field visiting = Some c → singular field →
  nf_Name c = fd_Name field ∧ ∃ e, protoElement (message_column fuel) (fd_Name field) field visiting = Some e ∧ same_tags e c.
Proof.
  intros Hc [Hm Hl]. rewrite protoField_unfold, Hm, Hl in Hc. destruct (protoElement _ _ _ _) as [e|] eqn:He; [|done]. injection Hc as <-.
  split; [done|]. exists e. split; [done|]. destruct (element_built _ _ _ _ _ He) as (m & Hbuilt & _). cbn [nf_Metadata nf_Type]. unfold same_tags. cbn [nf_Type nf_Metadata].
  rewrite (pairs_build e m Hbuilt), Hbuilt. unfold oneofMetadata. destruct (real_oneof field) as [name|]; [|done].
  rewrite !find_key_build, !lookup_union, !lookup_singleton_ne by by_decide. split_and!; [done|..]; f_equal; by destruct (_ !! _).
Qed.

Lemma scalar_element call name field visiting e :
  is_message field = false → protoElement call name field visiting = Some e → ∃ t, scalar_type (fd_Kind field) = Some t ∧ nf_Type e = NScalar t.
Proof. unfold is_message, protoElement. destruct (fd_Kind field); try done; intros _ [= <-]; by eexists. Qed.
End Shapes.

(** ** Scalars *)

Section Scalars.
Context {L : ArrowLib} {P : ProtoLib}.

Lemma by_name_number values n name : NoDup (map fst values) → by_number values n = Some name → by_name values name = Some n.
Proof.
  induction values as [|v values IH]; [done|]. cbn [map by_number by_name]. intros [Hv Hd]%NoDup_cons. destruct (Z.eqb_spec v.2 n) as [Hn|Hn].
  - intros [= <-]. by rewrite decide_True, Hn.
  - intros H. rewrite decide_False; [by apply IH|]. intros Hname. apply Hv. clear -H Hname. rewrite Hname.
    induction values as [|w values IH]; [done|]. cbn [by_number] in H. cbn [map]. apply elem_of_cons. destruct (w.2 =? n); [left; by injection H|right; by apply IH].
Qed.

Lemma by_number_in values n name : by_number values n = Some name → ∃ m, (name, m) ∈ values.
Proof.
  induction values as [|[x m] values IH]; [done|]. cbn [by_number fst snd]. destruct (m =? n).
  - intros [= <-]. exists m. apply list_elem_of_here.
  - intros (k & Hk)%IH. exists k. by apply list_elem_of_further.
Qed.

Lemma FormatInt_first n : ∃ b rest, FormatInt n = b :: rest ∧ (bool_decide (b = ascii_byte "-") || in_range b 48 57) = true.
Proof.
  unfold FormatInt. destruct (n <? 0); [by exists (ascii_byte "-"), (digits (- n))|].
  pose proof (digits_nonempty n) as Hne. pose proof (digits_Forall n) as Hd. destruct (digits n) as [|b ds]; [done|]. apply Forall_cons in Hd as [Hb _].
  exists b, ds. split; [done|]. rewrite Hb. apply orb_true_r.
Qed.

Lemma enum_trip field n :
  inS 32 n → enum_ok (fd_Values field) →
  protoEnumValue (default (FormatInt n) (by_number (fd_Values field) n)) field = Ok (PVEnum n).
Proof.
  intros Hn [Hd Hs]. destruct (by_number (fd_Values field) n) as [name|] eqn:Hb; cbn [default]; unfold id, protoEnumValue.
  - rewrite (by_name_number _ _ _ Hd Hb). destruct (by_number_in _ _ _ Hb) as [m Hm]. rewrite Forall_forall in Hs. specialize (Hs _ Hm). cbn [fst] in Hs.
    destruct name as [|b rest]; [done|]. unfold starts_plain in Hs. apply negb_true_iff in Hs. by rewrite Hs.
  - destruct (FormatInt_first n) as (b & rest & Hf & Hb'). rewrite Hf, Hb', <- Hf. rewrite ParseInt_FormatInt_signed.
    + by rewrite wrapS_id.
    + unfold inS in *. width_consts. lia.
Qed.

Lemma proto_scalar_trip field v t :
  scalar_fits field v → scalar_type (fd_Kind field) = Some t →
  ∃ w r, protoScalarValue v field = Ok w ∧ settles t w r ∧ r ≠ VNil ∧ protoScalarFromArrow r field = Ok v.
Proof.
  assert (∀ n, inS 32 n → inS 64 n) as H3264 by (unfold inS; width_consts; lia).
  assert (∀ n, inU 32 n → inS 64 n) as Hu by (unfold inS, inU; width_consts; lia).
  unfold scalar_fits, protoScalarValue, protoScalarFromArrow. destruct (fd_Kind field); cbn [scalar_type]; destruct v as [n|n|bits|b|s|s|n|m]; try done; intros Hv [= <-].
  all: try (exists (VInt KInt32 n), (VInt KInt32 n); split_and!; [by rewrite wrapS_id|apply (settles_int I32); naive_solver|done|cbn; by rewrite wrapS_id]).
  all: try (exists (VInt KInt64 n), (VInt KInt64 n); split_and!; [done|apply (settles_int I64); naive_solver|done|done]).
  all: try (exists (VInt KInt64 n), (VInt KInt64 n); split_and!; [by rewrite wrapS_id by first [lia|auto]|apply (settles_int I64); naive_solver|done|cbn; by rewrite wrapU_id]).
  all: try (exists (VInt KUint64 n), (VInt KUint64 n); split_and!; [done|by exists (CInt n)|done|done]).
  - exists (VFloat64 bits), (VFloat64 bits). split_and!; [done|by exists (CFloat bits)|done|done].
  - exists (VFloat32 (round32 bits)), (VFloat32 bits). rewrite Hv. split_and!; [done|exists (CFloat bits); cbn; by rewrite Hv|done|done].
  - exists (VBool b), (VBool b). split_and!; [done|by exists (CBool b)|done|done].
  - exists (VString s), (VString s). split_and!; [done|by exists (CText s)|done|done].
  - exists (VBytes s), (VBytes s). split_and!; [done|by exists (CBin s)|done|done].
  - destruct Hv as [Hn Hv]. eexists (VString _), (VString _). split_and!; [done|by eexists (CText _)|done|]. cbn [stringOf]. by apply enum_trip.
Qed.

(** ** Keys *)

Lemma key_trip call name field visiting e k :
  protoElement call name field visiting = Some e → key_fits field k →
  protoMapKey (key_String k) field = Ok k ∧ key_kept (erase (nf_Type e)) (key_String k).
Proof.
  assert (∀ i n, inS 64 n → int_in (kind_of i) n → i = I32 ∨ i = I64 → key_kept (TInt i) (FormatInt n)) as Hsigned.
  { intros i n H64 Hn Hi. exists (CInt n). destruct Hi as [-> | ->]; cbn -[FormatInt]; unfold appendSigned, exactIntRange; cbn [exactInt64];
      rewrite BigInt_SetString_FormatInt, decide_True by done; cbn in Hn; unfold inS in *; width_consts; cbn [rbind rmap_err];
      replace (_ || _) with false by lia; done. }
  assert (∀ n, inU 32 n → inS 64 n) as Hu by (unfold inS, inU; width_consts; lia).
  assert (∀ n, inS 32 n → inS 64 n) as Hs by (unfold inS; width_consts; lia).
  unfold protoElement, key_fits, protoMapKey. destruct (fd_Kind field), k as [n|n|b|s]; try done; intros [= <-] Hk; cbn [key_String nf_Type plain erase].
  all: try (rewrite ParseInt_FormatInt_signed by done; split; [done|apply Hsigned; auto]).
  all: try (rewrite ParseUint_FormatInt by (unfold inU in *; width_consts; lia); split; [done|]).
  all: try (apply (Hsigned I64); auto; cbn; auto).
  all: try (split; [done|by exists (CText s)]).
  all: exists (CInt n); cbn -[FormatInt]; unfold appendUnsigned, exactUnsigned; cbn [exactInt64]; rewrite BigInt_SetString_FormatInt.
  all: rewrite decide_True by (unfold inS in *; width_consts; lia); cbn [rbind]; replace (n <? 0) with false by lia; done.
Qed.
End Scalars.

(** ** Moments *)

Lemma floorDiv_div v : inS 64 v → floorDiv v 1000000 = v / 1000000.
Proof.
  intros Hv. assert (inS 64 (Z.quot v 1000000) ∧ inS 64 (Z.quot v 1000000 - 1)) as [H1 H2].
  { unfold inS in *. width_consts. split; Z.to_euclidean_division_equations; lia. }
  unfold floorDiv. rewrite (wrapS_id 64 (Z.quot v 1000000)) by first [lia|done]. cbn [eqb Z.ltb Z.compare].
  destruct (Z.eqb_spec (Z.rem v 1000000) 0) as [Hr|Hr]; cbn [negb andb].
  - Z.to_euclidean_division_equations; lia.
  - destruct (Z.ltb_spec v 0) as [Hn|Hn]; cbn [eqb negb].
    + rewrite wrapS_id by first [lia|done]. Z.to_euclidean_division_equations; lia.
    + Z.to_euclidean_division_equations; lia.
Qed.

Lemma moment_parts seconds nanos :
  Z.quot MinInt64 1000000 ≤ seconds ≤ Z.quot MaxInt64 1000000 →
  0 ≤ nanos < 1000000000 → inS 64 (seconds * 1000000 + nanos / 1000) →
  let micros := seconds * 1000000 + nanos / 1000 in
  floorDiv micros 1000000 = seconds ∧ int32 (floorMod micros 1000000 * 1000) = nanos / 1000 * 1000.
Proof.
  intros Hr Hn Hm micros. assert (inS 64 (seconds * 1000000)) as Hw.
  { change (Z.quot MinInt64 1000000) with (-9223372036854) in Hr. change (Z.quot MaxInt64 1000000) with 9223372036854 in Hr. unfold inS. width_consts. lia. }
  assert (floorDiv micros 1000000 = seconds) as Hs.
  { rewrite floorDiv_div by done. subst micros. Z.to_euclidean_division_equations; lia. }
  split; [done|]. unfold floorMod. rewrite Hs. assert (0 ≤ nanos / 1000 < 1000000) by (Z.to_euclidean_division_equations; lia).
  rewrite (wrapS_id 64 (seconds * 1000000)) by first [lia|done]. subst micros.
  replace (seconds * 1000000 + nanos / 1000 - seconds * 1000000) with (nanos / 1000) by lia.
  rewrite (wrapS_id 64 (nanos / 1000)) by (unfold inS; width_consts; lia). apply wrapS_id; [lia|]. unfold inS. width_consts. lia.
Qed.

(** ** The round trip of a value, by induction on its derivation *)

Section Trip.
Context {L : ArrowLib} {P : ProtoLib} `{!ProtoLaws P} (env : list (bytes * list field_descriptor)).
Abbreviation message_column fuel := (protoMessageField env fuel).

(** The cell that the value is written to reads as [r], from which [v'] comes back. *)
Definition value_trips (visiting : list bytes) (field : field_descriptor) (v : proto_value message) : Prop :=
  ∀ fuel name e g, protoElement (message_column fuel) name field visiting = Some e → same_tags e g →
  ∃ w r v', protoSingularValue env v field g = Ok w ∧ settles (erase (nf_Type g)) w r ∧ r ≠ VNil ∧
    protoSingularFromArrow env field g r = Ok v' ∧ back env visiting field v v'.

(** Writing a field that is blank gives back the field of [m], and clears the other members of its oneof only when it holds a value. *)
Definition set_trips (visiting : list bytes) (field : field_descriptor) (m : message) (set : message → result proto_error message) : Prop :=
  ∀ m0, blank m0 field → ∃ m1, set m0 = Ok m1 ∧ field_back env visiting field m m1 ∧
    ∀ g, fd_Name field ≠ fd_Name g → view m1 g = view m0 g ∨
      ((fd_HasPresence field = true → Has m field = true) ∧ blank m1 g ∧ ∃ name, real_oneof field = Some name ∧ real_oneof g = Some name).

Definition field_trips (visiting : list bytes) (field : field_descriptor) (m : message) : Prop :=
  ∀ fuel c, protoField (message_column fuel) field visiting = Some c →
  ∃ w r, protoColumnValue env m field c = Ok w ∧ settles (erase (nf_Type c)) w r ∧
    set_trips visiting field m (protoSetColumn env field c r).

Definition contents_trip (visiting : list bytes) (fields : list field_descriptor) (m : message) : Prop := Forall (λ f, field_trips visiting f m) fields.
Definition items_trip (visiting : list bytes) (field : field_descriptor) (vs : list (proto_value message)) : Prop := Forall (value_trips visiting field) vs.

Lemma message_value_unfold m full column metadata t :
  protoMessageValue env m full column metadata t =
  if decide (find_key metadata MetadataJSON = str "true") then
    match protojson_Marshal m with Some text => Ok (VString text) | None => Err (CannotEncodeJSON full column) end
  else if decide (find_key metadata MetadataProtoWrapper ≠ []) then
    match by_field_name (message_fields env full) (str "value") with
    | Some value_field => protoScalarValue (Get m value_field) value_field
    | None => Err Panics
    end
  else
    match t with
    | NTimestamp _ _ =>
        match by_field_name (message_fields env full) (str "seconds"), by_field_name (message_fields env full) (str "nanos") with
        | Some s, Some n =>
            match Get m s, Get m n with
            | PVInt seconds, PVInt nanos =>
                if (Z.quot MaxInt64 1000000 <? seconds) || (seconds <? Z.quot MinInt64 1000000) then Err (TimestampOverflow column)
                else Ok (VInt KInt64 (int64 (int64 (seconds * 1000000) + Z.quot nanos 1000)))
            | _, _ => Err Panics
            end
        | _, _ => Err Panics
        end
    | NStruct children =>
        let* values := child_values (protoMessageValue env) m (message_fields env full) children in
        Ok (VMap (fold_left (λ r e, map_insert e.1 e.2 r) values []))
    | _ => Err Panics
    end.
Proof. by destruct t. Qed.

Lemma populate_unfold m full column metadata t v :
  protoPopulateMessage env m full column metadata t v =
  if decide (find_key metadata MetadataJSON = str "true") then
    match v with
    | VString text => match protojson_Unmarshal text m with Some m => Ok m | None => Err (CannotParseJSON column) end
    | _ => Err (JSONNotText column)
    end
  else if decide (find_key metadata MetadataProtoWrapper ≠ []) then
    match by_field_name (message_fields env full) (str "value") with
    | Some value_field => let* x := protoScalarFromArrow v value_field in Ok (Set_ value_field x m)
    | None => Err Panics
    end
  else
    match t with
    | NTimestamp _ _ =>
        match toInt64 v with
        | None => Err NotAnInteger
        | Some micros =>
            match by_field_name (message_fields env full) (str "seconds"), by_field_name (message_fields env full) (str "nanos") with
            | Some s, Some n =>
                Ok (Set_ n (PVInt (int32 (floorMod micros 1000000 * 1000))) (Set_ s (PVInt (floorDiv micros 1000000)) m))
            | _, _ => Err Panics
            end
        end
    | _ =>
        match v, t with
        | VMap entries, NStruct children => fill_children (protoPopulateMessage env) entries (message_fields env full) children m
        | VMap _, _ => Err Panics
        | _, _ => Err (NotAStruct column)
        end
    end.
Proof. by destruct t. Qed.

Lemma untagged name t nullable : find_key (nf_Metadata (plain name t nullable)) MetadataJSON ≠ str "true" ∧
  ¬ find_key (nf_Metadata (plain name t nullable)) MetadataProtoWrapper ≠ [].
Proof. split; [by_decide|by_decide]. Qed.

Lemma trip_scalar_value visiting field v : is_message field = false → scalar_fits field v → value_trips visiting field v.
Proof.
  intros Hm Hv fuel name e g He (Ht & _ & _). destruct (scalar_element _ _ _ _ _ Hm He) as (t & Hst & Hty).
  destruct (proto_scalar_trip field v t Hv Hst) as (w & r & Hw & Hs & Hr & Hb). exists w, r, v. unfold protoSingularValue, protoSingularFromArrow.
  unfold protoSingularValue_in, protoSingularFromArrow_in. rewrite Hm, Ht, Hty. split_and!; try done. by apply back_scalar.
Qed.

(** A message in a column: the two conversions at the type and the tags of its element. *)
Lemma message_trips visiting field m w r m' fuel name e g :
  is_message field = true → protoElement (message_column fuel) name field visiting = Some e → same_tags e g →
  (∀ column metadata, find_key metadata MetadataJSON = find_key (nf_Metadata e) MetadataJSON →
     find_key metadata MetadataProtoWrapper = find_key (nf_Metadata e) MetadataProtoWrapper →
     protoMessageValue env m (fd_Type field) column metadata (nf_Type e) = Ok w ∧
     protoPopulateMessage env (New (fd_Type field)) (fd_Type field) column metadata (nf_Type e) r = Ok m') →
  settles (erase (nf_Type e)) w r → r ≠ VNil → back env visiting field (PVMessage m) (PVMessage m') →
  ∃ w r v', protoSingularValue env (PVMessage m) field g = Ok w ∧ settles (erase (nf_Type g)) w r ∧ r ≠ VNil ∧
    protoSingularFromArrow env field g r = Ok v' ∧ back env visiting field (PVMessage m) v'.
Proof.
  intros Hm He (Ht & Hj & Hw) H Hs Hr Hb. destruct (H (nf_Name g) (nf_Metadata g) Hj Hw) as [H1 H2].
  exists w, r, (PVMessage m'). unfold protoSingularValue, protoSingularFromArrow, protoSingularValue_in, protoSingularFromArrow_in.
  rewrite Hm, Ht, H1, H2. done.
Qed.

Lemma message_element fuel name field visiting e :
  is_message field = true → protoElement (message_column fuel) name field visiting = Some e →
  protoMessageField env fuel name (fd_Type field) visiting = Some e.
Proof. unfold is_message, protoElement. by destruct (fd_Kind field). Qed.

Lemma by_field_name_name fields name f : by_field_name fields name = Some f → fd_Name f = name.
Proof. intros [_ H]%List.find_some. by apply bool_decide_eq_true in H. Qed.

Lemma trip_moment visiting field m s n seconds nanos :
  is_message field = true → fd_Type field = protoTimestamp → moment_fields env s n →
  Get m s = PVInt seconds → Get m n = PVInt nanos →
  Z.quot MinInt64 1000000 ≤ seconds ≤ Z.quot MaxInt64 1000000 → 0 ≤ nanos < 1000000000 → inS 64 (seconds * 1000000 + nanos / 1000) →
  value_trips visiting field (PVMessage m).
Proof.
  intros Hm Hfull Hsn Hgs Hgn Hr Hnanos Hmicros fuel name e g He Htags. pose proof (message_element _ _ _ _ _ Hm He) as Hshape.
  apply message_shape in Hshape as [(_ & ->)|[(Hne & _)|[((Hne & _) & _)|((Hne & _) & _)]]]; try done.
  destruct (moment_parts seconds nanos Hr Hnanos Hmicros) as [Hs1 Hs2]. pose proof Hsn as (Hs & Hn & Hos & Hon).
  pose proof (by_field_name_name _ _ _ Hs) as Hns. pose proof (by_field_name_name _ _ _ Hn) as Hnn.
  set (micros := seconds * 1000000 + nanos / 1000) in *.
  eapply (message_trips visiting field m (VInt KInt64 micros) (VInt KInt64 micros)
    (Set_ n (PVInt (nanos / 1000 * 1000)) (Set_ s (PVInt seconds) (New (fd_Type field))))); try done.
  - intros column metadata Hj Hw. destruct (untagged name (NTimestamp UnitMicrosecond (str "UTC")) false) as [Hj' Hw'].
    rewrite message_value_unfold, populate_unfold, Hj, Hw. rewrite !(decide_False (P := _ = str "true")) by exact Hj'.
    rewrite !(decide_False (P := _ ≠ [])) by exact Hw'. cbn [nf_Type plain]. rewrite Hfull, Hs, Hn, Hgs, Hgn.
    replace (_ || _) with false by lia. cbn [toInt64]. rewrite Hs1, Hs2. split; [|done]. do 2 f_equal.
    assert (inS 64 (seconds * 1000000)) as Hw64.
    { change (Z.quot MinInt64 1000000) with (-9223372036854) in Hr. change (Z.quot MaxInt64 1000000) with 9223372036854 in Hr. unfold inS. width_consts. lia. }
    rewrite (wrapS_id 64 (seconds * 1000000)) by first [lia|done]. rewrite Z.quot_div_nonneg by lia. by apply wrapS_id.
  - exists (CInt micros). cbn [erase nf_Type plain appendGoValue time_cell]. unfold appendSigned.
    rewrite exactIntRange_int; [done|done|done|]. unfold inS in Hmicros. width_consts. lia.
  - eapply back_moment; try done.
    + assert (view (Set_ n (PVInt (nanos / 1000 * 1000)) (Set_ s (PVInt seconds) (New (fd_Type field)))) s = view (Set_ s (PVInt seconds) (New (fd_Type field))) s) as Hv.
      { apply Set_apart. split; [rewrite Hns, Hnn; by_decide|]. by rewrite Hon. }
      injection Hv as _ -> _ _. apply Set_same.
    + apply Set_same.
Qed.

Lemma trip_wrapper visiting field m value_field t :
  is_message field = true → fd_Type field ≠ protoTimestamp → wrapped (fd_Type field) = Some t →
  by_field_name (message_fields env (fd_Type field)) (str "value") = Some value_field →
  scalar_type (fd_Kind value_field) = Some t → scalar_fits value_field (Get m value_field) → value_trips visiting field (PVMessage m).
Proof.
  intros Hm Hne Hwr Hvf Ht Hfit fuel name e g He Htags. pose proof (message_element _ _ _ _ _ Hm He) as Hshape.
  apply message_shape in Hshape as [(? & _)|[(_ & t' & Ht' & Heq)|[((_ & ? & _) & _)|((_ & ? & _) & _)]]]; try congruence.
  assert (t' = t) as -> by congruence. destruct (proto_scalar_trip value_field (Get m value_field) t Hfit Ht) as (w & r & Hw & Hs & Hr & Hb).
  assert (nf_Type e = NScalar t ∧ find_key (nf_Metadata e) MetadataJSON = [] ∧ find_key (nf_Metadata e) MetadataProtoWrapper = fd_Type field) as (Hty & Hej & Het).
  { rewrite Heq. unfold taggedField. cbn [nf_Type nf_Metadata]. rewrite !find_key_build, lookup_singleton_ne by by_decide. by rewrite lookup_singleton_eq. }
  clear Heq. apply (message_trips visiting field m w r (Set_ value_field (Get m value_field) (New (fd_Type field))) fuel name e g Hm He Htags).
  - intros column metadata Hj Htag. rewrite Hej in Hj. rewrite Het in Htag.
    assert (fd_Type field ≠ []) as Hnonempty by (intros E; rewrite E in Hwr; done).
    rewrite message_value_unfold, populate_unfold, Hj, Htag. rewrite !(decide_False (P := [] = str "true")) by by_decide.
    rewrite !(decide_True (P := _ ≠ [])) by exact Hnonempty. rewrite Hvf, Hw, Hb. by split.
  - by rewrite Hty.
  - exact Hr.
  - by apply (back_wrapper _ _ _ _ _ value_field t); [..|apply Set_same].
Qed.

Lemma trip_text visiting field m text m' :
  is_message field = true → as_text visiting (fd_Type field) →
  protojson_Marshal m = Some text → protojson_Unmarshal text (New (fd_Type field)) = Some m' → value_trips visiting field (PVMessage m).
Proof.
  intros Hm Hat Hw Hr fuel name e g He Htags. pose proof (message_element _ _ _ _ _ Hm He) as Hshape. pose proof Hat as (Hn1 & Hn2 & Hn3).
  apply message_shape in Hshape as [(? & _)|[(_ & t' & Ht' & _)|[(_ & Heq)|((_ & _ & Hno) & _)]]]; try congruence.
  assert (nf_Type e = NScalar TString ∧ find_key (nf_Metadata e) MetadataJSON = str "true") as (Hty & Hej).
  { rewrite Heq. unfold json_column, taggedField. cbn [nf_Type nf_Metadata]. by rewrite find_key_build, lookup_insert_eq. }
  clear Heq. apply (message_trips visiting field m (VString text) (VString text) m' fuel name e g Hm He Htags).
  - intros column metadata Hj _. rewrite Hej in Hj. rewrite message_value_unfold, populate_unfold, Hj.
    rewrite !(decide_True (P := str "true" = str "true")) by reflexivity. rewrite Hw, Hr. by split.
  - rewrite Hty. by exists (CText text).
  - discriminate.
  - by apply (back_text _ _ _ _ _ text).
Qed.

(** *** The fields of a message *)

Lemma field_back_view visiting f src m0 m1 : view m1 f = view m0 f → field_back env visiting f src m0 → field_back env visiting f src m1.
Proof.
  intros Hv. unfold view in Hv. injection Hv as Hh Hg Hl Hm. intros H. inversion H; subst.
  - by apply back_absent; rewrite ?Hh.
  - apply back_present; [done|by rewrite Hh|by rewrite Hg].
  - by apply back_list; rewrite ?Hl.
  - eapply back_map; rewrite ?Hm; done.
Qed.

Lemma blank_view f m0 m1 : view m1 f = view m0 f → blank m0 f → blank m1 f.
Proof. unfold view, blank. by intros [= -> _ -> ->]. Qed.

(** Each field is written once, on a message that is blank there, so the message holds them all in the end. *)
Lemma sets_all visiting fields src sets m0 :
  fields_ok fields → one_member fields src → Forall2 (λ f set, set_trips visiting f src set) fields sets →
  (∀ f, f ∈ fields → blank m0 f) →
  ∃ m1, fold_results (λ set m, set m) sets m0 = Ok m1 ∧ ∀ f, f ∈ fields → field_back env visiting f src m1.
Proof.
  intros [Hd Hone] Hmember Hsets Hblank. rewrite Forall_forall in Hone.
  assert (∀ rest before sets m0, fields = before ++ rest → Forall2 (λ f set, set_trips visiting f src set) rest sets →
    (∀ f, f ∈ before → field_back env visiting f src m0) → (∀ f, f ∈ rest → blank m0 f) →
    ∃ m1, fold_results (λ set m, set m) sets m0 = Ok m1 ∧ ∀ f, f ∈ fields → field_back env visiting f src m1) as H.
  { clear sets m0 Hsets Hblank. induction rest as [|f rest IH]; intros before sets m0 Hf Hsets Hback Hblank.
    { inversion Hsets; subst. exists m0. split; [done|]. intros f Hin. apply Hback. by rewrite app_nil_r in Hin. }
    inversion Hsets as [|? set ? sets' Hset Hsets']; subst. destruct (Hset m0 (Hblank f (list_elem_of_here _ _))) as (m1 & Hm1 & Hf & Hframe).
    cbn [fold_results]. rewrite Hm1. cbn [rbind].
    assert (∀ g, g ∈ before ∨ g ∈ rest → fd_Name f ≠ fd_Name g) as Hnames.
    { intros g Hg Heq. rewrite map_app in Hd. cbn [map] in Hd. apply NoDup_app in Hd as (_ & Hd1 & Hd2). apply NoDup_cons in Hd2 as [Hd2 _].
      destruct Hg as [Hg|Hg]; [|apply Hd2; rewrite Heq; by apply list_elem_of_fmap_2].
      apply (Hd1 (fd_Name g)); [by apply list_elem_of_fmap_2|]. rewrite <- Heq. apply list_elem_of_here. }
    apply (IH (before ++ [f])); [by rewrite <- (assoc_L (++))|done|..].
    - intros g [Hg|Hg%list_elem_of_singleton]%elem_of_app; [|by subst].
      destruct (Hframe g (Hnames g (or_introl Hg))) as [Hv|(Hhas & Hb & name & Ho1 & Ho2)]; [eapply field_back_view; eauto|].
      assert (g ∈ before ++ f :: rest) as Hin by (apply elem_of_app; by left).
      assert (f ∈ before ++ f :: rest) as Hinf by (apply elem_of_app; right; apply list_elem_of_here).
      destruct (Hone g Hin) as (Hp & Hm & Hl); [congruence|]. apply back_absent; [done|done| |by destruct Hb].
      destruct (Has src g) eqn:Hg'; [|done]. exfalso. apply (Hnames g (or_introl Hg)). eapply (Hmember f g name); try done.
      apply Hhas. apply (Hone f Hinf). congruence.
    - intros g Hg. destruct (Hframe g (Hnames g (or_intror Hg))) as [Hv|(_ & Hb & _)]; [|done]. eapply blank_view; [done|]. by apply Hblank, list_elem_of_further. }
  by apply (H fields [] sets m0); [..|intros f ?%elem_of_nil|].
Qed.

Lemma trip_absent visiting field m : singular field → fd_HasPresence field = true → Has m field = false → field_trips visiting field m.
Proof.
  intros Hsing Hp Hh fuel c Hc. pose proof Hsing as [Hm Hl]. exists VNil, VNil. unfold protoColumnValue, protoColumnValue_in. rewrite Hm, Hl, Hp, Hh. cbn [negb andb].
  split_and!; [done|apply settles_nil|]. intros m0 (Hb & _). exists m0. split_and!; [done|by apply back_absent|]. intros g _. by left.
Qed.

Lemma trip_present visiting field m :
  singular field → (fd_HasPresence field = true → Has m field = true) → value_trips visiting field (Get m field) → field_trips visiting field m.
Proof.
  intros Hsing Hp IH fuel c Hc. pose proof Hsing as [Hm Hl]. destruct (column_element _ _ _ _ _ Hc Hsing) as (_ & e & He & Htags).
  destruct (IH fuel _ e c He Htags) as (w & r & v' & Hw & Hs & Hr & Hv & Hb). exists w, r.
  unfold protoColumnValue, protoColumnValue_in. rewrite Hm, Hl.
  replace (fd_HasPresence field && negb (Has m field)) with false by (destruct (fd_HasPresence field); [by rewrite Hp|done]).
  split_and!; [done|done|]. intros m0 Hblank. exists (Set_ field v' m0). unfold protoSetColumn, protoSetColumn_in. rewrite Hm, Hl. split_and!.
  - unfold protoSingularFromArrow in Hv. rewrite Hv. by destruct r.
  - apply back_present; [done|intros Hpr; split; [by apply Hp|by apply Set_present]|by rewrite Set_same].
  - intros g Hne. destruct (decide (real_oneof field = None)) as [Hnone|Hsome].
    { left. apply Set_apart. split; [done|]. by rewrite Hnone. }
    destruct (real_oneof field) as [name|] eqn:Hf; [|done]. destruct (decide (real_oneof g = Some name)) as [Hg|Hg].
    + right. split_and!; [done|by eapply Set_clears|by exists name].
    + left. apply Set_apart. split; [done|]. intros n. rewrite Hf. by intros [= <-].
Qed.

(** *** Lists and maps *)

(** A value, what is written for it, what the column returns, and what comes back. *)
Record journey := MkJourney { jy_value : proto_value message; jy_written : value; jy_read : value; jy_back : proto_value message }.

Definition travels (visiting : list bytes) (field : field_descriptor) (g : nested_field) (j : journey) : Prop :=
  protoSingularValue env (jy_value j) field g = Ok (jy_written j) ∧ settles (erase (nf_Type g)) (jy_written j) (jy_read j) ∧ jy_read j ≠ VNil ∧
  protoSingularFromArrow env field g (jy_read j) = Ok (jy_back j) ∧ back env visiting field (jy_value j) (jy_back j).

Lemma journeys visiting field vs fuel name e g :
  items_trip visiting field vs → protoElement (message_column fuel) name field visiting = Some e → same_tags e g →
  ∃ js, map jy_value js = vs ∧ Forall (travels visiting field g) js.
Proof.
  intros H He Hg. induction H as [|v vs Hv _ (js & <- & Hjs)]; [by exists []|].
  destruct (Hv fuel name e g He Hg) as (w & r & v' & Hv1 & Hv2). exists (MkJourney v w r v' :: js). split; [done|]. by constructor.
Qed.

Lemma journeys_back visiting field g js :
  Forall (travels visiting field g) js → items_back env visiting field (map jy_value js) (map jy_back js).
Proof. induction 1 as [|j js (_ & _ & _ & _ & Hj) _ IH]; cbn [map]; by constructor. Qed.

Lemma append_all visiting field g js m0 :
  Forall (travels visiting field g) js →
  ∃ m1, fold_results (λ x m, match x with
                             | VNil => Ok m
                             | _ => let* x := protoSingularFromArrow env field g x in Ok (List_Append field x m)
                             end) (map jy_read js) m0 = Ok m1 ∧
    Get_list m1 field = Get_list m0 field ++ map jy_back js ∧ ∀ g, fd_Name field ≠ fd_Name g → view m1 g = view m0 g.
Proof.
  intros H. revert m0. induction H as [|j js (_ & _ & Hr & Hv & _) _ IH]; intros m0; cbn [map fold_results].
  { exists m0. by rewrite app_nil_r. }
  destruct (IH (List_Append field (jy_back j) m0)) as (m1 & Hm1 & Hl & Hframe). exists m1. split_and!.
  - rewrite Hv. cbn [rbind]. destruct (jy_read j); done.
  - rewrite Hl, Append_same, <- (assoc_L (++)). done.
  - intros g' Hg'. rewrite Hframe by done. by apply Append_apart.
Qed.

Lemma trip_list visiting field m :
  fd_Map field = None → IsList field = true → items_trip visiting field (Get_list m field) → field_trips visiting field m.
Proof.
  intros Hm Hl IH fuel c Hc. rewrite protoField_unfold, Hm, Hl in Hc. destruct (protoElement _ _ _ _) as [e|] eqn:He; [|done]. injection Hc as <-.
  destruct (journeys visiting field _ fuel _ e e IH He (same_tags_refl e)) as (js & Hjs & Htr).
  exists (VList (map jy_written js)), (VList (map jy_read js)). cbn [nf_Type]. split_and!.
  - unfold protoColumnValue, protoColumnValue_in. rewrite Hm, Hl. cbn [nf_Type]. rewrite <- Hjs.
    rewrite (map_results_ok _ (map jy_value js) (map jy_written js)); [done|]. apply Forall2_fmap, Forall_Forall2_diag. eapply Forall_impl; [exact Htr|].
    by intros j (Hj & _).
  - apply settles_list. apply Forall2_fmap, Forall_Forall2_diag. eapply Forall_impl; [exact Htr|]. by intros j (_ & Hj & _).
  - intros m0 (_ & Hb & _). destruct (append_all visiting field e js m0 Htr) as (m1 & Hm1 & Hl1 & Hframe). exists m1. split_and!.
    + unfold protoSetColumn, protoSetColumn_in. rewrite Hm, Hl. exact Hm1.
    + apply back_list; [done|done|]. rewrite Hl1, Hb, <- Hjs. by eapply journeys_back.
    + intros g Hg. left. by apply Hframe.
Qed.

(** The element of a map carries no tag that its item would need. *)
Lemma bare_element visiting field fuel name e :
  map_value_ok visiting field → protoElement (message_column fuel) name field visiting = Some e →
  find_key (nf_Metadata e) MetadataJSON = [] ∧ find_key (nf_Metadata e) MetadataProtoWrapper = [].
Proof.
  intros (_ & _ & Hmsg) He. destruct (is_message field) eqn:Hm.
  - pose proof (message_element _ _ _ _ _ Hm He) as Hshape. destruct (Hmsg eq_refl) as [Ht|(Ht & Hw & Hno)];
      apply message_shape in Hshape as [(? & Heq)|[(? & t' & Ht' & _)|[((? & ? & ?) & _)|(_ & k & children & _ & Heq)]]]; try congruence; try done; by rewrite Heq.
  - unfold is_message, protoElement in *. destruct (fd_Kind field); try done; injection He as <-; try done.
Qed.

(** A key and the journey of its value. *)
Abbreviation trip_entry := (map_key * journey)%type.

Lemma put_all visiting field kf vf g (qs : list trip_entry) m0 :
  Forall (λ q, protoMapKey (key_String q.1) kf = Ok q.1 ∧ travels visiting vf g q.2) qs →
  NoDup (map fst qs) → (∀ k, k ∈ map fst qs → k ∉ map fst (Get_map m0 field)) →
  ∃ m1, fold_results (λ e m, let* k := protoMapKey e.1 kf in let* x := protoSingularFromArrow env vf g e.2 in Ok (Map_Set field k x m))
      (map (λ q, (key_String q.1, jy_read q.2)) qs) m0 = Ok m1 ∧
    Get_map m1 field ≡ₚ map (λ q, (q.1, jy_back q.2)) qs ++ Get_map m0 field ∧ ∀ g, fd_Name field ≠ fd_Name g → view m1 g = view m0 g.
Proof.
  intros H. revert m0. induction H as [|q qs (Hk & _ & _ & _ & Hv & _) _ IH]; intros m0 Hd Hm; cbn [map fold_results fst snd].
  { by exists m0. }
  cbn [map] in Hd. apply NoDup_cons in Hd as [Hq Hd]. assert (q.1 ∉ map fst (Get_map m0 field)) as Hfresh by (apply Hm, list_elem_of_here).
  pose proof (Map_Set_same field q.1 (jy_back q.2) m0 Hfresh) as Hset.
  destruct (IH (Map_Set field q.1 (jy_back q.2) m0) Hd) as (m1 & Hm1 & Hl & Hframe).
  { intros k Hin Hk'. rewrite Hset in Hk'. cbn [map fst] in Hk'. apply elem_of_cons in Hk' as [->|Hk']; [done|].
    by apply (Hm k); [apply list_elem_of_further|]. }
  exists m1. rewrite Hk. cbn [rbind]. rewrite Hv. cbn [rbind]. split_and!; [done| |].
  - rewrite Hl, Hset. cbn [app]. by rewrite Permutation_middle.
  - intros g' Hg'. rewrite Hframe by done. by apply Map_Set_apart.
Qed.

Definition entry_travels visiting kf kt vf g (q : trip_entry) : Prop :=
  protoMapKey (key_String q.1) kf = Ok q.1 ∧ key_kept kt (key_String q.1) ∧ travels visiting vf g q.2.

Lemma entries_journeys visiting kf vf fuel e g ke entries :
  Forall (key_fits kf) (map fst entries) → items_trip visiting vf (map snd entries) → NoDup (map fst entries) →
  protoElement (message_column fuel) (str "key") kf visiting = Some ke →
  protoElement (message_column fuel) (fd_Name vf) vf visiting = Some e → same_tags e g →
  ∃ qs : list trip_entry, map (λ q, (q.1, jy_value q.2)) qs = entries ∧ Forall (entry_travels visiting kf (erase (nf_Type ke)) vf g) qs ∧
    NoDup (map fst qs) ∧ NoDup (map (λ q, key_String q.1) qs).
Proof.
  intros Hkeys IH Hd Hke He Hg.
  assert (∃ qs : list trip_entry, map (λ q, (q.1, jy_value q.2)) qs = entries ∧ Forall (entry_travels visiting kf (erase (nf_Type ke)) vf g) qs)
    as (qs & Hqs & Hall).
  { clear Hd. induction entries as [|[k v] entries IHe]; [by exists []|]. cbn [map fst snd] in *. apply Forall_cons in Hkeys as [Hk Hkeys]. apply Forall_cons in IH as [Hv IH].
    destruct (IHe Hkeys IH) as (qs & <- & Hall). destruct (Hv fuel _ e g He Hg) as (w & r & v' & Hv'). destruct (key_trip _ _ _ _ _ _ Hke Hk) as [H1 H2].
    exists ((k, MkJourney v w r v') :: qs). split; [done|]. by constructor. }
  assert (map fst qs = map fst entries) as Hfst by (rewrite <- Hqs, map_map; done).
  exists qs. split_and!; [done|done|by rewrite Hfst|].
  rewrite <- (map_map fst key_String), Hfst. apply NoDup_fmap_2_strong; [|done]. intros k k' Hk Hk' Heq. rewrite Forall_forall in Hkeys.
  destruct (key_trip _ _ _ _ _ _ Hke (Hkeys k Hk)) as [H1 _]. destruct (key_trip _ _ _ _ _ _ Hke (Hkeys k' Hk')) as [H2 _]. congruence.
Qed.

Lemma entries_written visiting kf kt vf g qs :
  Forall (entry_travels visiting kf kt vf g) qs →
  map_results (λ e, let* converted := protoSingularValue env e.2 vf g in Ok (key_String e.1, converted)) (map (λ q : trip_entry, (q.1, jy_value q.2)) qs) =
    Ok (map (λ q : trip_entry, (key_String q.1, jy_written q.2)) qs).
Proof.
  intros H. apply map_results_ok, Forall2_fmap, Forall_Forall2_diag. eapply Forall_impl; [exact H|].
  intros q (_ & _ & Hq & _). cbn [fst snd]. by rewrite Hq.
Qed.

Lemma trip_map_field visiting field kf vf m :
  fd_Map field = Some (kf, vf) → map_value_ok visiting vf → NoDup (map fst (Get_map m field)) →
  Forall (key_fits kf) (map fst (Get_map m field)) → items_trip visiting vf (map snd (Get_map m field)) → field_trips visiting field m.
Proof.
  intros Hm Hok Hd Hkeys IH fuel c Hc. rewrite protoField_unfold, Hm in Hc. destruct (protoElement _ _ kf visiting) as [ke|] eqn:Hke; [|done].
  destruct (protoField _ vf visiting) as [ve|] eqn:Hve; [|done]. injection Hc as <-. pose proof Hok as (Hvm & Hvl & _).
  destruct (column_element _ _ _ _ _ Hve (conj Hvm Hvl)) as (_ & e & He & Hte & _). destruct (bare_element _ _ _ _ _ Hok He) as [Hbj Hbw].
  set (g := mapItemField (nf_Type ve)). assert (same_tags e g) as Hg by (split_and!; [by subst g; cbn; congruence|by rewrite Hbj|by rewrite Hbw]).
  destruct (entries_journeys visiting kf vf fuel e g ke _ Hkeys IH Hd Hke He Hg) as (qs & Hqm & Hall & _ & Htexts).
  set (written (q : trip_entry) := (key_String q.1, jy_written q.2)).
  destruct (map_of_entries (map written qs)) as [Hperm Hsorted]; [by rewrite map_map|].
  destruct (Permutation_map_inv _ _ Hperm) as (qs' & Hqs' & Hp).
  rewrite Hqs' in Hsorted. rewrite (map_map written fst) in Hsorted. pose proof Hall as Hall'. rewrite Hp in Hall'.
  exists (VMap (map written qs')), (VMap (map (λ q, (key_String q.1, jy_read q.2)) qs')). cbn [protoMapField nf_Type erase]. split_and!.
  - unfold protoColumnValue, protoColumnValue_in. rewrite Hm. cbn [protoMapField nf_Type]. change (mapItemField (nf_Type ve)) with g. rewrite <- Hqm.
    pose proof (entries_written _ _ _ _ _ _ Hall) as Hw. unfold protoSingularValue in Hw. rewrite Hw. cbn [rbind]. do 2 f_equal. exact Hqs'.
  - pose proof (settles_keyed (erase (nf_Type ke)) (erase (nf_Type ve)) (map written qs') (map (λ q, jy_read q.2) qs')) as Hs.
    rewrite map_map in Hs. cbn [fst written] in Hs. assert (zip (map (λ q, key_String q.1) qs') (map (λ q, jy_read q.2) qs') =
      map (λ q : trip_entry, (key_String q.1, jy_read q.2)) qs') as Hz by (clear; induction qs' as [|q l IH]; [done|]; cbn [map zip zip_with]; by rewrite <- IH).
    rewrite Hz in Hs. apply Hs; [done|..].
    + apply Forall_map. eapply Forall_impl; [exact Hall'|]. by intros q (_ & Hk & _).
    + apply Forall2_fmap, Forall_Forall2_diag. eapply Forall_impl; [exact Hall'|]. by intros q (_ & _ & _ & Hset & _).
  - intros m0 (_ & _ & Hb). destruct (put_all visiting field kf vf g qs' m0) as (m1 & Hm1 & Hl1 & Hframe).
    + eapply Forall_impl; [exact Hall'|]. by intros q (Hk & _ & Ht).
    + apply (NoDup_fmap_1 key_String). rewrite Hp in Htexts. by rewrite map_map.
    + intros k _. rewrite Hb. apply not_elem_of_nil.
    + exists m1. split_and!; [|eapply (back_map _ _ _ kf vf m m1 (map (λ q, (q.1, jy_value q.2)) qs') (map (λ q, (q.1, jy_back q.2)) qs'))|intros g' Hg'; left; by apply Hframe].
      * unfold protoSetColumn, protoSetColumn_in. rewrite Hm. exact Hm1.
      * done.
      * by rewrite <- Hqm, Hp.
      * by rewrite Hl1, Hb, app_nil_r.
      * by rewrite !map_map.
      * rewrite !map_map. cbn [snd]. rewrite <- (map_map snd jy_value), <- (map_map snd jy_back). eapply journeys_back. apply Forall_map.
        eapply Forall_impl; [exact Hall'|]. by intros q (_ & _ & Ht).
Qed.

(** *** Messages as structs *)

Lemma column_name fuel field visiting c : protoField (message_column fuel) field visiting = Some c → nf_Name c = fd_Name field.
Proof. rewrite protoField_unfold. intros H. repeat case_match; by simplify_eq. Qed.

(** The columns of the fields, what is written to them, what they return, and the writes that bring the message back. *)
Lemma contents_columns fuel visiting fields children m :
  Forall2 (λ f c, protoField (message_column fuel) f visiting = Some c) fields children → contents_trip visiting fields m →
  ∃ wrs, child_values (protoMessageValue env) m fields children = Ok (zip (map nf_Name children) (map fst wrs)) ∧
    Forall2 (λ c wr, settles (erase (nf_Type c)) wr.1 wr.2) children wrs ∧
    ∀ read, Forall2 (λ c wr, map_lookup (nf_Name c) read = wr.2) children wrs →
      ∃ sets, (∀ m0, fill_children (protoPopulateMessage env) read fields children m0 = fold_results (λ set m, set m) sets m0) ∧
        Forall2 (λ f set, set_trips visiting f m set) fields sets.
Proof.
  intros Hc. induction Hc as [|f c fields children Hf _ IH]; intros Ht.
  { exists []. split_and!; [done|constructor|]. intros read _. exists []. split; [done|constructor]. }
  apply Forall_cons in Ht as [Hft Ht]. destruct (IH Ht) as (wrs & Hw & Hs & Hback). destruct (Hft fuel c Hf) as (w & r & Hw1 & Hs1 & Hset).
  exists ((w, r) :: wrs). split_and!.
  - cbn [child_values]. unfold protoColumnValue in Hw1. rewrite Hw1. cbn [rbind]. by rewrite Hw.
  - by constructor.
  - intros read Hread. inversion Hread as [|? ? ? ? Hr Hread']; subst. destruct (Hback read Hread') as (sets & Hsets & Hall).
    exists (protoSetColumn env f c r :: sets). split; [|by constructor]. intros m0. cbn [fill_children fold_results]. cbn [snd] in Hr. rewrite Hr.
    unfold protoSetColumn. destruct (protoSetColumn_in _ _ _ _ _); [|done]. cbn [rbind]. apply Hsets.
Qed.

Lemma children_names fuel visiting fields children :
  Forall2 (λ f c, protoField (message_column fuel) f visiting = Some c) fields children → map nf_Name children = map fd_Name fields.
Proof. induction 1 as [|f c fields children Hf _ IH]; [done|]. cbn [map]. by rewrite (column_name _ _ _ _ Hf), IH. Qed.

Lemma trip_struct visiting field m :
  is_message field = true → as_struct visiting (fd_Type field) →
  fields_ok (message_fields env (fd_Type field)) → one_member (message_fields env (fd_Type field)) m →
  contents_trip (visiting ++ [fd_Type field]) (message_fields env (fd_Type field)) m → value_trips visiting field (PVMessage m).
Proof.
  intros Hm Has Hok Hone IH fuel name e g He Htags. pose proof (message_element _ _ _ _ _ Hm He) as Hshape. pose proof Has as (Hn1 & Hn2 & Hn3).
  apply message_shape in Hshape as [(? & _)|[(_ & t' & Ht' & _)|[((_ & _ & Hyes) & _)|(_ & k & children & Hc & ->)]]]; try congruence.
  destruct (contents_columns _ _ _ _ m Hc IH) as (wrs & Hw & Hs & Hback). pose proof (children_names _ _ _ _ Hc) as Hnames.
  assert (NoDup (map nf_Name children)) as Hd by (rewrite Hnames; apply Hok).
  pose proof (Forall2_length _ _ _ Hs) as Hlen. set (read := fold_left (λ m e, map_insert e.1 e.2 m) (zip (map nf_Name children) (map snd wrs)) []).
  pose proof (map_lookup_zip (map nf_Name children) (map snd wrs) [] Hd ltac:(rewrite !length_map; lia)) as Hread. fold read in Hread. rewrite Forall2_fmap in Hread.
  destruct (Hback read Hread) as (sets & Hfill & Hsets).
  destruct (sets_all _ _ m sets (New (fd_Type field)) Hok Hone Hsets) as (m' & Hm' & Hall); [intros f _; apply New_blank|].
  destruct (untagged name (NStruct children) false) as [Hj' Hw'].
  apply (message_trips visiting field m (VMap (fold_left (λ m e, map_insert e.1 e.2 m) (zip (map nf_Name children) (map fst wrs)) [])) (VMap read) m' fuel name _ g Hm He Htags).
  - intros column metadata Hj Htag. rewrite message_value_unfold, populate_unfold, Hj, Htag. rewrite !(decide_False (P := _ = str "true")) by exact Hj'.
    rewrite !(decide_False (P := _ ≠ [])) by exact Hw'. cbn [nf_Type plain]. rewrite Hw, Hfill, Hm'. by split.
  - cbn [nf_Type plain erase]. pose proof (settles_struct (map (λ c, (nf_Name c, erase (nf_Type c))) children)
      (fold_left (λ m e, map_insert e.1 e.2 m) (zip (map nf_Name children) (map fst wrs)) []) (map snd wrs)) as H.
    rewrite map_map in H. cbn [fst] in H. apply H. clear H. apply Forall2_fmap.
    pose proof (map_lookup_zip (map nf_Name children) (map fst wrs) [] Hd ltac:(rewrite !length_map; lia)) as Hl. rewrite Forall2_fmap in Hl.
    clear -Hs Hl. revert Hl. generalize (fold_left (λ m e, map_insert e.1 e.2 m) (zip (map nf_Name children) (map fst wrs)) []) as entries. intros entries.
    induction Hs as [|c wr children wrs Hc _ IH]; intros Hl; [constructor|]. inversion Hl as [|? ? ? ? H1 H2]; subst. constructor; [|by apply IH].
    cbn [fst snd]. by rewrite H1.
  - done.
  - by apply back_struct.
Qed.

Lemma fits_trip :
  (∀ visiting field v, fits env visiting field v → value_trips visiting field v) ∧
  (∀ visiting fields m, contents_fit env visiting fields m → contents_trip visiting fields m) ∧
  (∀ visiting field m, field_fits env visiting field m → field_trips visiting field m) ∧
  (∀ visiting field vs, items_fit env visiting field vs → items_trip visiting field vs).
Proof.
  apply fits_mutual; intros.
  - by apply trip_scalar_value.
  - by apply (trip_moment _ _ _ s n seconds nanos).
  - by apply (trip_wrapper _ _ _ value_field t).
  - by apply (trip_text _ _ _ text m').
  - by apply trip_struct.
  - constructor.
  - by constructor.
  - by apply trip_absent.
  - by apply trip_present.
  - by apply trip_list.
  - by apply (trip_map_field _ _ key value).
  - constructor.
  - by constructor.
Qed.
End Trip.

(** ** Rows *)

Lemma fold_results_map {S A E} (f : A → S → result E S) l s : fold_results f l s = fold_results (λ set s, set s) (map f l) s.
Proof. revert s. induction l as [|a l IH]; intros s; [done|]. cbn [fold_results map]. destruct (f a s); [apply IH|done]. Qed.

Section BridgeTrip.
Context {L : ArrowLib} {P : ProtoLib} {laws : ProtoLaws P}.

(** A row of the message type, and what comes back of it: every field. *)
Definition row_fits (env : list (bytes * list field_descriptor)) (full : bytes) (m : message) : Prop :=
  one_member (message_fields env full) m ∧ contents_fit env [full] (message_fields env full) m.
Definition row_back (env : list (bytes * list field_descriptor)) (full : bytes) (m m' : message) : Prop :=
  ∀ field, field ∈ message_fields env full → field_back env [full] field m m'.

Lemma proto_column_found fs (columns : list column) n : NoDup (map nf_Name fs) → length fs = length columns →
  map_results (proto_column_of (MkFrame (map erase_field fs) columns n)) fs = Ok columns.
Proof.
  intros Hd Hl. apply map_results_ok. apply Forall2_same_length_lookup_2; [done|]. intros i f c Hf Hc.
  destruct (column_indices fs columns n i f c Hd Hf Hc) as (k & ks & Hk & Hck). unfold proto_column_of. rewrite Hk. cbn [fr_Columns]. by rewrite Hck.
Qed.

Lemma cells_written env full fields children rows :
  Forall2 (λ f c, protoField (protoMessageField env (schema_fuel env)) f [full] = Some c) fields children →
  Forall (λ m, contents_fit env [full] fields m) rows →
  Forall (λ s, Forall (λ row, ∃ x, proto_write_cell env s.1 s.2 row = Ok x ∧
    set_trips env [full] s.1 row (protoSetColumn env s.1 s.2 (arrowValue (erase (nf_Type s.2)) x))) rows) (zip fields children).
Proof.
  intros Hc. induction Hc as [|f c fields children Hf _ IH]; intros Hrows; [constructor|]. cbn [zip zip_with]. constructor.
  - eapply Forall_impl; [exact Hrows|]. intros row Hrow. inversion Hrow as [|? ? ? ? Hfield _]; subst. cbn [fst snd].
    destruct (proj1 (proj2 (proj2 (fits_trip env))) _ _ _ Hfield _ c Hf) as (w & r & Hw & (x & Hx & <-) & Hset). exists x. split; [|done].
    unfold proto_write_cell. rewrite Hw. cbn [rbind]. by rewrite Hx.
  - apply IH. eapply Forall_impl; [exact Hrows|]. intros row Hrow. by inversion Hrow.
Qed.

Lemma sets_of_columns env full row i fields children columns :
  length fields = length children → (length children ≤ length columns)%nat →
  Forall2 (λ s c, set_trips env [full] s.1 row (protoSetColumn env s.1 s.2 (arrowValue (col_Type c) (cell_at c i)))) (zip fields children) columns →
  Forall2 (λ f set, set_trips env [full] f row set) fields
    (map (λ p m, protoSetColumn env p.1.1 p.1.2 (arrowValue (col_Type p.2) (cell_at p.2 i)) m) (zip (zip fields children) columns)).
Proof.
  revert fields children. induction columns as [|c columns IH]; intros [|f fields] [|child children] Hlen Hl H; try done; cbn in Hl; try lia; try constructor.
  - inversion H as [|? ? ? ? H1 H2]; subst. exact H1.
  - inversion H as [|? ? ? ? H1 H2]; subst. apply IH; [by injection Hlen|lia|done].
Qed.

Lemma proto_rows_trip env full b rows :
  NewProtobufRowBridge env full = Some b → fields_ok (message_fields env full) → message_fields env full ≠ [] →
  Forall (row_fits env full) rows →
  ∃ batch rows', proto_RowsToBatch b rows = Ok batch ∧ fr_Fields batch = bridge_ArrowSchema b ∧ fr_NumRows batch = length rows ∧
    proto_BatchToRows b batch = Ok rows' ∧ Forall2 (row_back env full) rows rows'.
Proof.
  intros Hb Hok Hne Hrows. unfold NewProtobufRowBridge in Hb. destruct (protoTopLevelFields env full) as [children|] eqn:Hc; [|done]. injection Hb as <-.
  apply mapM_Some_1 in Hc. set (fields := message_fields env full) in *. pose proof (children_names env _ _ _ _ Hc) as Hnames.
  assert (Forall (λ m, contents_fit env [full] fields m) rows) as Hfit by (eapply Forall_impl; [exact Hrows|by intros m [_ Hm]]).
  destruct (columns_of_rows (λ s : field_descriptor * nested_field, erase (nf_Type s.2)) (λ s, proto_write_cell env s.1 s.2)
    (λ s row r, set_trips env [full] s.1 row (protoSetColumn env s.1 s.2 r)) _ _ (cells_written env full fields children rows Hc Hfit)) as (columns & Hcols & Hread).
  pose proof (Forall2_length _ _ _ Hc) as Hlen. pose proof (Forall2_length _ _ _ (map_results_inv _ _ _ Hcols)) as Hlcol. rewrite length_zip in Hlcol.
  assert (children ≠ []) as Hchildren by (intros ->; by destruct fields).
  assert (∀ i row, rows !! i = Some row → ∃ row', proto_read_row (MkProtoBridge env full children) columns i = Ok row' ∧ row_back env full row row') as Hrow.
  { intros i row Hi. unfold proto_read_row. cbn [pb_env pb_full pb_fields]. fold fields. rewrite fold_results_map.
    destruct (Forall_lookup_1 _ _ _ _ Hrows Hi) as [Hone _]. apply (sets_all env); [done|done| |intros f _; apply New_blank].
    by apply sets_of_columns; [|lia|apply Hread]. }
  assert (∃ rows', map_results (proto_read_row (MkProtoBridge env full children) columns) (seq 0 (length rows)) = Ok rows' ∧ Forall2 (row_back env full) rows rows')
    as (rows' & Hr & Hback).
  { assert (∀ l k, (∀ i row, l !! i = Some row → rows !! (k + i)%nat = Some row) →
      ∃ rows', map_results (proto_read_row (MkProtoBridge env full children) columns) (seq k (length l)) = Ok rows' ∧ Forall2 (row_back env full) l rows') as H.
    { induction l as [|row l IH]; intros k Hl; [by exists []|]. destruct (Hrow k row) as (row' & Hr & Hb); [rewrite <- (Nat.add_0_r k); by apply Hl|].
      destruct (IH (S k)) as (rows' & Hrs & Hbs); [intros i x Hx; rewrite Nat.add_succ_comm; by apply Hl|].
      exists (row' :: rows'). cbn [length seq map_results]. rewrite Hr. cbn [rbind]. rewrite Hrs. split; [done|by constructor]. }
    by apply (H rows 0%nat). }
  exists (MkFrame (map erase_field children) columns (length rows)), rows'. split_and!; try done.
  - unfold proto_RowsToBatch. cbn [pb_env pb_full pb_fields]. fold fields. rewrite Hcols. cbn [rbind]. by rewrite decide_False.
  - unfold proto_BatchToRows. cbn [pb_fields]. rewrite proto_column_found; [|rewrite Hnames; apply Hok|lia]. exact Hr.
Qed.
End BridgeTrip.
