(* ===== verification/ProtoCodec.v ===== *)
(** * The Protobuf bridge and codec: what they promise

    The round trip of rows through a batch and of records through the codec, a message type with every kind of field, and the
    messages that do not travel. *)

From Stdlib Require Import QArith.QArith.
From S2P Require Import Prelude GoStd GoNet GoFloat Kafka Json Value Cells Frames Codecs Nested Proto ProtoBridge ProtoTrip.

#[local] Open Scope Z_scope.

(** ** The bridge *)

(** C18: messages travel through columns. Take a message type with at least one field, whose fields have names of their own, and rows that
    fit it: scalars in the range of their kind, enums with plain distinct names, at most one member of each oneof, timestamps in the
    range of a column of microseconds, wrappers of scalars, messages within themselves that protojson prints and reads, and maps with
    keys that are neither booleans nor above the int64 range and values that are neither wrappers nor printed messages, at every depth. Then
    the bridge makes one batch with the columns of the type and one row per message, and reading the batch gives back as many
    messages, each of which has every field of its row again: absent fields are absent, scalars, enums, lists, maps, members of oneofs
    and nested messages are the same, a timestamp keeps its microseconds, and a message within itself is what its JSON text says.
    (Messages of a type without fields are gone from their batch: [empty_messages_vanish].) *)
Theorem proto_bridge_roundtrip {L : ArrowLib} {P : ProtoLib} {laws : ProtoLaws P} env full b rows :
  NewProtobufRowBridge env full = Some b → fields_ok (message_fields env full) → message_fields env full ≠ [] →
  Forall (row_fits env full) rows →
  ∃ batch rows', proto_RowsToBatch b rows = Ok batch ∧ fr_Fields batch = bridge_ArrowSchema b ∧ fr_NumRows batch = length rows ∧
    proto_BatchToRows b batch = Ok rows' ∧ Forall2 (row_back env full) rows rows'.
Proof. apply proto_rows_trip. Qed.

(** ** The codec *)

Section Codec.
Context {L : ArrowLib} {P : ProtoLib} {laws : ProtoLaws P} {E : Type}.

Lemma column_fits env fuel field visiting c :
  protoField (protoMessageField env fuel) field visiting = Some c → metadata_fits (nf_Metadata c).
Proof.
  assert (∀ m : gmap bytes bytes, m !! payloadNameMetadata = None → metadata_fits (oneofMetadata field m)) as Honeof.
  { intros m Hm. unfold oneofMetadata. destruct (real_oneof field); apply build_fits; [|done].
    rewrite lookup_union, Hm, lookup_singleton_ne by by_decide. done. }
  rewrite protoField_unfold. destruct (fd_Map field) as [[key value]|].
  { repeat case_match; try done. intros [= <-]. by apply Honeof. }
  destruct (IsList field); [case_match; [|done]; intros [= <-]; by apply Honeof|].
  destruct (protoElement _ _ _ _) as [e|] eqn:He; [|done]. intros [= <-]. apply Honeof.
  destruct (element_built _ _ _ _ _ _ He) as (m & Hm & Hno). by rewrite (pairs_build e m Hm).
Qed.

Lemma proto_payload_ok env full b rows batch :
  NewProtobufRowBridge env full = Some b → proto_RowsToBatch b rows = Ok batch → payload_ok batch.
Proof.
  unfold NewProtobufRowBridge. destruct (protoTopLevelFields env full) as [children|] eqn:Hc; [|done]. intros [= <-]. apply mapM_Some_1 in Hc.
  unfold proto_RowsToBatch. cbn [pb_env pb_full pb_fields]. intros (columns & Hcols & [= <-])%rbind_Ok. apply map_results_inv in Hcols.
  split; unfold bridge_ArrowSchema; cbn [fr_Fields fr_Columns pb_fields].
  - apply Forall2_length in Hc, Hcols. rewrite length_zip in Hcols. rewrite length_map. lia.
  - apply Forall_map. clear -Hc. induction Hc as [|f c fields children Hf _ IH]; constructor; [|done]. apply column_fits in Hf as [Hn Hs]. by split.
Qed.

(** The Protobuf codec returns the records that it read. When the values of the records are messages that fit, the records decode to
    one batch, whose schema has the columns of the codec under names that no metadata column has, and encoding the batch writes
    one record per record read, in order: with the key, the timestamp and the headers of that record, and what the serde writes for a
    message with every field of the one that was read. *)
Theorem proto_codec_roundtrip (serde : proto_serde message E) env full c topic topic' records rows :
  NewProtobufBatchCodec serde env full = Some c → fields_ok (message_fields env full) → message_fields env full ≠ [] →
  Forall2 (λ r m, pserde_Deserialize serde topic (con_Value r) = Ok m) records rows → Forall (row_fits env full) rows →
  Forall (λ r, headers_fit (con_Headers r)) records →
  ∃ batch rows', ProtobufBatchCodec_Decode c topic records = Ok batch ∧
    fr_Fields batch = map escapedPayloadField (pcd_arrowSchema c) ++ metadataFields ∧ Forall2 (row_back env full) rows rows' ∧
    ProtobufBatchCodec_Encode c topic' batch =
      rmap_err SerdeError (map_results (encode_row (λ topic m, rmap_err inl (pserde_Serialize serde topic m)) topic') (zip records rows')).
Proof.
  intros Hcodec Hok Hne Hvalues Hrows Hh. unfold NewProtobufBatchCodec in Hcodec. destruct (NewProtobufRowBridge env full) as [b|] eqn:Hb; [|done].
  injection Hcodec as <-. destruct (proto_rows_trip env full b rows Hb Hok Hne Hrows) as (payload & rows' & Hw & Hfields & Hn & Hr & Hback).
  pose proof (proto_payload_ok _ _ _ _ _ Hb Hw) as Hpay. rewrite <- (Forall2_length _ _ _ Hvalues) in Hn.
  assert (∃ batch, withMetadata payload (map record_metadata records) = Ok batch) as [batch Hbatch].
  { unfold withMetadata. rewrite bool_decide_eq_true_2 by by rewrite length_map. by eexists. }
  exists batch, rows'. split_and!; [| |done|].
  - unfold ProtobufBatchCodec_Decode, RowCodec_Decode. cbn [pcd_serde pcd_bridge]. rewrite (map_results_ok _ records rows).
    2: { eapply Forall2_impl; [exact Hvalues|]. cbn. by intros r v ->. }
    cbn [rmap_err rbind]. rewrite Hw. cbn [rmap_err rbind]. by rewrite Hbatch.
  - unfold withMetadata in Hbatch. destruct (bool_decide _) in Hbatch; [|done]. injection Hbatch as <-. cbn [fr_Fields pcd_arrowSchema]. by rewrite Hfields.
  - unfold ProtobufBatchCodec_Encode, RowCodec_Encode. cbn [pcd_serde pcd_bridge]. rewrite (payloadOnly_withMetadata _ _ _ Hpay Hbatch), Hr. cbn [rmap_err rbind].
    f_equal. apply (encode_rows_records _ topic' payload records batch [] records rows' Hpay Hbatch Hh eq_refl).
    by rewrite (Forall2_length _ _ _ Hvalues), (Forall2_length _ _ _ Hback).
Qed.
End Codec.

(** ** An order

    A message type with a field of every kind that the bridge treats differently, over the messages of [Proto.Demo]. *)

#[local] Existing Instance demo_lib.
#[local] Existing Instance Demo.lib.
#[local] Existing Instance Demo.laws.

Definition demo_field (name : bytes) (kind : proto_kind) (full : bytes) (presence : bool) : field_descriptor :=
  MkFD name 1 kind Optional presence None full full [] None [] [] false.
Definition demo_repeated (name : bytes) (kind : proto_kind) (full : bytes) : field_descriptor :=
  MkFD name 1 kind Repeated false None full full [] None [] [] false.
Definition demo_member (name : bytes) (kind : proto_kind) (oneof : bytes) : field_descriptor :=
  MkFD name 1 kind Optional true (Some (oneof, false)) [] [] [] None [] [] false.
Definition demo_enum (name full : bytes) (values : list (bytes * Z)) : field_descriptor :=
  MkFD name 1 EnumKind Optional false None full full values None [] [] false.
Definition demo_map (name : bytes) (key value : field_descriptor) : field_descriptor :=
  MkFD name 1 MessageKind Repeated false None [] [] [] (Some (key, value)) [] [] false.

Definition wrapper_name := str "google.protobuf.UInt64Value".

(** The messages of the library that the demos use. *)
Definition known_types : list (bytes * list field_descriptor) :=
  [(protoTimestamp, [demo_field (str "seconds") Int64Kind [] false; demo_field (str "nanos") Int32Kind [] false]);
   (wrapper_name, [demo_field (str "value") Uint64Kind [] false])].

Definition order := str "shop.Order".
Definition address := str "shop.Address".

Definition f_id := demo_field (str "id") Sint64Kind [] false.
Definition f_tags := demo_repeated (str "tags") StringKind [].
Definition f_state := demo_enum (str "state") (str "shop.State") [(str "NEW", 0); (str "SENT", 1)].
Definition f_at := demo_field (str "at") MessageKind protoTimestamp true.
Definition f_total := demo_field (str "total") MessageKind wrapper_name true.
Definition f_to := demo_field (str "to") MessageKind address true.
Definition f_parent := demo_field (str "parent") MessageKind order true.
Definition f_counts := demo_map (str "counts") (demo_field (str "key") Uint32Kind [] false) (demo_field (str "value") BoolKind [] false).
Definition f_card := demo_member (str "card") BytesKind (str "pay").
Definition f_cash := demo_member (str "cash") DoubleKind (str "pay").
Definition order_fields := [f_id; f_tags; f_state; f_at; f_total; f_to; f_parent; f_counts; f_card; f_cash].

Definition f_city := demo_field (str "city") StringKind [] false.

Definition order_env : list (bytes * list field_descriptor) := (order, order_fields) :: (address, [f_city]) :: known_types.

(** A message that was made by setting its fields. *)
Definition made (writes : list (message → message)) : message := foldr (λ w m, w m) (New []) writes.

Definition moment (seconds nanos : Z) : message :=
  made [Set_ (demo_field (str "seconds") Int64Kind [] false) (PVInt seconds); Set_ (demo_field (str "nanos") Int32Kind [] false) (PVInt nanos)].

Definition order_row : message :=
  made [Set_ f_id (PVInt (-7)); List_Append f_tags (PVString (str "b")); List_Append f_tags (PVString (str "a"));
        Set_ f_state (PVEnum 5); Set_ f_at (PVMessage (moment (-2) 999999999));
        Set_ f_total (PVMessage (made [Set_ (demo_field (str "value") Uint64Kind [] false) (PVUint (2 ^ 64 - 1))]));
        Set_ f_to (PVMessage (made [Set_ f_city (PVString (str "Gent"))])); Set_ f_parent (PVMessage (made [Set_ f_id (PVInt 1)]));
        Map_Set f_counts (MKUint 10) (PVBool true); Map_Set f_counts (MKUint 9) (PVBool false);
        Set_ f_cash (PVFloat 0)].

Lemma order_fits : row_fits order_env order order_row.
Proof.
  split.
  { intros f g name Hf Hg. change (message_fields order_env order) with order_fields in *.
    assert (∀ f, f ∈ order_fields → real_oneof f ≠ None → Has order_row f = true → f = f_cash) as H.
    { apply (proj1 (Forall_forall (λ f, real_oneof f ≠ None → Has order_row f = true → f = f_cash) order_fields)).
      repeat (constructor; [vm_compute; intros; first [done|reflexivity|congruence]|]). constructor. }
    intros H1 H2 H3 H4. rewrite (H f), (H g); [done|done|congruence|done|done|congruence|done]. }
  change (message_fields order_env order) with order_fields.
  repeat (apply contents_cons; [|try apply contents_nil]).
  - apply field_present; [done|done|]. apply fits_scalar; [done|]. by_decide.
  - apply field_list; [done|done|]. repeat (constructor; [by apply fits_scalar|]). constructor.
  - apply field_present; [done|done|]. apply fits_scalar; [done|]. split; [by_decide|]. split; [by_decide|]. by repeat constructor.
  - apply field_present; [done|done|]. by eapply (fits_moment _ _ _ _ _ _ (-2) 999999999).
  - apply field_present; [done|done|]. by eapply fits_wrapper.
  - apply field_present; [done|done|]. apply fits_struct; [done|by_decide|split; [by_decide|repeat constructor; done]|..].
    + intros f g name Hf Hg. by apply list_elem_of_singleton in Hf as ->.
    + apply contents_cons; [|apply contents_nil]. apply field_present; [done|done|]. by apply fits_scalar.
  - apply field_present; [done|done|]. apply (fits_text _ _ _ _ (str "{}") (New order)); [done|by_decide|done|done].
  - eapply field_map; [reflexivity|by_decide|by_decide|repeat constructor; by_decide|].
    repeat (constructor; [by apply fits_scalar|]). constructor.
  - by apply field_absent.
  - apply field_present; [done|done|]. by apply fits_scalar.
Qed.

Lemma order_fields_ok : fields_ok order_fields.
Proof. split; [by_decide|]. repeat constructor; vm_compute; intros; first [done|congruence]. Qed.

Definition order_bridge : ProtobufRowBridge := MkProtoBridge order_env order (default [] (protoTopLevelFields order_env order)).

Lemma proto_bridge_roundtrip_witness :
  ∃ batch rows', NewProtobufRowBridge order_env order = Some order_bridge ∧ proto_RowsToBatch order_bridge [order_row] = Ok batch ∧
    proto_BatchToRows order_bridge batch = Ok rows' ∧ Forall2 (row_back order_env order) [order_row] rows'.
Proof.
  destruct (proto_bridge_roundtrip order_env order order_bridge [order_row] ltac:(vm_compute; reflexivity) order_fields_ok)
    as (batch & rows' & Hw & _ & _ & Hr & Hback); [discriminate|exact (Forall_cons_2 _ _ _ order_fits (Forall_nil_2 _))|].
  exists batch, rows'. split; [vm_compute; reflexivity|]. split; [exact Hw|]. split; [exact Hr|exact Hback].
Defined.

(** A serde that reads every record as the order, and writes the digits of its identifier. *)
Definition order_serde : proto_serde message unit :=
  MkProtoSerde (λ _ m, match Get m f_id with PVInt n => Ok (Some (FormatInt n)) | _ => Err tt end) (λ _ _, Ok order_row).

Definition order_records : list ConsumedRecord :=
  [MkConsumed (Some (str "k")) (Some (str "a")) 10 0 5 [MkHeader (str "h") None]; MkConsumed None None 11 0 6 []].

Definition order_codec : ProtobufBatchCodec := MkProtoCodec order_serde order_bridge (bridge_ArrowSchema order_bridge).

Lemma proto_codec_roundtrip_witness :
  ∃ batch rows', ProtobufBatchCodec_Decode order_codec (str "t") order_records = Ok batch ∧ length rows' = 2%nat ∧
    ProtobufBatchCodec_Encode order_codec (str "t") batch =
      rmap_err SerdeError (map_results (encode_row (λ topic m, rmap_err inl (pserde_Serialize order_serde topic m)) (str "t")) (zip order_records rows')).
Proof.
  destruct (proto_codec_roundtrip order_serde order_env order order_codec (str "t") (str "t")
    order_records [order_row; order_row] ltac:(vm_compute; reflexivity) order_fields_ok) as (batch & rows' & Hd & _ & Hback & He);
    [discriminate|repeat constructor|exact (Forall_cons_2 _ _ _ order_fits (Forall_cons_2 _ _ _ order_fits (Forall_nil_2 _)))|repeat constructor; by_decide|].
  exists batch, rows'. split; [exact Hd|]. split; [by rewrite <- (Forall2_length _ _ _ Hback)|exact He].
Defined.

(** ** Messages that do not travel *)

Definition trip_of (fields : list field_descriptor) (rows : list message) : result proto_error (list message) :=
  match NewProtobufRowBridge ((order, fields) :: known_types) order with
  | Some b => let* batch := proto_RowsToBatch b rows in proto_BatchToRows b batch
  | None => Err Panics
  end.

Definition map_of (kind : proto_kind) (value : field_descriptor) : field_descriptor :=
  demo_map (str "m") (demo_field (str "key") kind [] false) value.
Definition map_row (kind : proto_kind) (value : field_descriptor) (k : map_key) (v : proto_value message) : message :=
  Map_Set (map_of kind value) k v (New order).
Definition map_trip (kind : proto_kind) (value : field_descriptor) (k : map_key) (v : proto_value message) : bool :=
  is_ok (trip_of [map_of kind value] [map_row kind value k v]).

(** The item of a map has no tags: a map of wrappers, of messages that travel as text, or of the message that it is within
    makes the bridge panic on its first entry. *)
Lemma map_of_wrappers_panics :
  let value full := demo_field (str "value") MessageKind full true in
  let trip full := trip_of [map_of StringKind (value full)] [map_row StringKind (value full) (MKString (str "k")) (PVMessage (New full))] in
  trip wrapper_name = Err Panics ∧ trip (str "google.protobuf.Struct") = Err Panics ∧ trip order = Err Panics ∧
  is_ok (trip protoTimestamp) = true.
Proof. split_and!; vm_compute; reflexivity. Qed.

(** A map with a boolean key cannot be written: the key goes to the boolean column as text. *)
Lemma bool_keys_fail :
  trip_of [map_of BoolKind (demo_field (str "value") Int32Kind [] false)]
    [map_row BoolKind (demo_field (str "value") Int32Kind [] false) (MKBool true) (PVInt 1)] = Err (AppendError NotBoolean).
Proof. vm_compute. reflexivity. Qed.

(** Nor can an unsigned key of the upper half. *)
Lemma wide_keys_fail :
  let value := demo_field (str "value") BoolKind [] false in
  map_trip Uint64Kind value (MKUint MaxInt64) (PVBool true) = true ∧
  trip_of [map_of Uint64Kind value] [map_row Uint64Kind value (MKUint (MaxInt64 + 1)) (PVBool true)] = Err (AppendError (ValueError IntegerOverflow)).
Proof. split; vm_compute; reflexivity. Qed.

(** The last second that passes the check of a timestamp overflows with its nanoseconds: a moment of the year 294247 is written as
    one before the common era. *)
Lemma late_moment_wraps :
  let at_ := demo_field (str "at") MessageKind protoTimestamp true in
  let seconds := demo_field (str "seconds") Int64Kind [] false in
  match trip_of [at_] [Set_ at_ (PVMessage (moment 9223372036854 900000000)) (New order)] with
  | Ok [row] => match Get row at_ with PVMessage m => Get m seconds = PVInt (-9223372036855) | _ => False end
  | _ => False
  end.
Proof. vm_compute. reflexivity. Qed.

(** Rows of a message without fields are gone from their batch. *)
Lemma empty_messages_vanish : trip_of [] [New order; New order] = Ok [].
Proof. vm_compute. reflexivity. Qed.

(** A wider column is read into a narrow field without a check, and so are the digits of an enum. *)
Lemma narrow_fields_wrap :
  protoScalarFromArrow (VInt KInt64 (2 ^ 32 + 1)) (demo_field (str "n") Int32Kind [] false) = Ok (PVInt 1) ∧
  protoScalarFromArrow (VInt KInt64 (-1)) (demo_field (str "n") Uint32Kind [] false) = Ok (PVUint (2 ^ 32 - 1)) ∧
  protoScalarFromArrow (VString (str "4294967297")) (demo_enum (str "e") (str "E") []) = Ok (PVEnum 1).
Proof. split_and!; vm_compute; reflexivity. Qed.
