(* ===== verification/Built.v ===== *)
(** * The built topology of columnar/built.go

    One logical partition runs through the nodes in order, with processor instances of its own that
    survive between the runs. The codecs, the processors and the batches are an interface here: columns
    and their values do not matter to the engine, and neither does the memory they live in (the
    reference counts of the batches are not modelled). *)

From S2P Require Import Prelude GoStd Kafka Store Topology.

(** ** The interface to codecs and processors *)

Section Kit.
Context (X E frame codec factory proc : Type).

(** Codecs act on a world [X] (a schema cache, a registry); a processor changes its own state. [Process]
    returns the batches it forwards. *)
Record Kit := MkKit {
  Decode : codec → bytes → list ConsumedRecord → io X E frame;
  Encode : codec → bytes → frame → io X E (list ProduceRecord);
  concatenate : list frame → result E frame;
  new_processor : factory → proc;
  newStatefulJoinProcessor : Join → proc;
  Process : frame → io proc E (list frame);
  processSides : list frame → list frame → io proc E (list frame);
  stateful : proc → bool;
  Snapshot : proc → result E bytes;
  Restore : bytes → io proc E unit
}.
End Kit.
Arguments Decode {X E frame codec factory proc}.
Arguments Encode {X E frame codec factory proc}.
Arguments concatenate {X E frame codec factory proc}.
Arguments new_processor {X E frame codec factory proc}.
Arguments newStatefulJoinProcessor {X E frame codec factory proc}.
Arguments Process {X E frame codec factory proc}.
Arguments processSides {X E frame codec factory proc}.
Arguments stateful {X E frame codec factory proc}.
Arguments Snapshot {X E frame codec factory proc}.
Arguments Restore {X E frame codec factory proc}.

(** [ForeignRecord] is the engine's own error; [Panic] stands for an index out of range, a nil codec or a
    nil processor. *)
Inductive run_error (E : Type) := KitError (e : E) | ForeignRecord | Panic.
Arguments KitError {E}.
Arguments ForeignRecord {E}.
Arguments Panic {E}.

(** The processors of every partition, by node index; the records of one run, by topic; and the batches of
    every node. *)
Abbreviation processors proc := (gmap Z (gmap nat proc)).
Abbreviation inputs := (gmap bytes (list ConsumedRecord)).
Abbreviation frames frame := (gmap Z (list frame)).

Section Built.
Context {X E frame codec factory proc : Type}.
Context (kit : Kit X E frame codec factory proc) (t : Topology codec factory).

Definition fresh_processor (node : nodeDefinition codec factory) : option proc :=
  match nd_kind node with
  | nodeOperator => new_processor kit <$> nd_processor node
  | nodeJoin => Some (newStatefulJoinProcessor kit (nd_join node))
  | _ => None
  end.

Definition fresh_processors : gmap nat proc := omap fresh_processor (map_seq 0 (top_nodes t) : gmap nat _).

(** The processors of a partition, made on the first use. *)
Definition partitionProcessors (partition : Z) (ps : processors proc) : processors proc * gmap nat proc :=
  match ps !! partition with
  | Some existing => (ps, existing)
  | None => (<[partition := fresh_processors]> ps, fresh_processors)
  end.

(** ** One run *)

Definition lift_kit {A} (m : io X E A) : io (processors proc * X) (run_error E) A :=
  λ '(ps, x), let '(r, x) := m x in (rmap_err KitError r, (ps, x)).

Definition panic {A} : io (processors proc * X) (run_error E) A := io_fail Panic.

(** A call on a processor instance changes it in place, also when the call fails. *)
Definition on_processor {A} (partition : Z) (index : nat) (m : io proc E A) : io (processors proc * X) (run_error E) A :=
  λ '(ps, x),
    let '(ps, instances) := partitionProcessors partition ps in
    match instances !! index with
    | None => (Err Panic, (ps, x))
    | Some pr => let '(r, pr) := m pr in
                 (rmap_err KitError r, (<[partition := <[index := pr]> instances]> ps, x))
    end.

Definition frames_at (fs : frames frame) (parent : Node) : list frame := default [] (fs !! node_index parent).

(** Whether any node reads the decoded frames of a source; a pass-through sink does not. *)
Definition needs_decoded_frame (index : Z) : bool :=
  existsb (λ candidate,
    negb (bool_decide (nd_kind candidate = nodeSink) && negb (bool_decide (is_Some (nd_sinkCodec candidate)))) &&
    existsb (λ parent, node_index parent =? index) (nd_parents candidate)) (top_nodes t).

Definition records_of (input : inputs) (topic : bytes) : list ConsumedRecord := default [] (input !! topic).

Fixpoint decode_topics (node : nodeDefinition codec factory) (input : inputs) (topics : list bytes)
    : io (processors proc * X) (run_error E) (list frame) :=
  match topics with
  | [] => io_ret []
  | topic :: topics =>
      let records := records_of input topic in
      if bool_decide (records ≠ []) && bool_decide (topic ∈ nd_sourceTopics node) then
        match nd_sourceCodec node with
        | None => panic
        | Some c =>
            do* batch := lift_kit (Decode kit c topic records) in
            do* decoded := decode_topics node input topics in
            io_ret (batch :: decoded)
        end
      else decode_topics node input topics
  end.

Fixpoint process_each (parents : list frame) : io proc E (list frame) :=
  match parents with
  | [] => io_ret []
  | parent :: parents =>
      do* forwarded := Process kit parent in
      do* outputs := process_each parents in
      io_ret (forwarded ++ outputs)
  end.

(** The instances are made even when there is no batch to process. *)
Definition runOperator (partition : Z) (index : nat) (parents : list frame) : io (processors proc * X) (run_error E) (list frame) :=
  match parents with
  | [] => λ '(ps, x), (Ok [], ((partitionProcessors partition ps).1, x))
  | _ => on_processor partition index (process_each parents)
  end.

Definition merge_frames (node : nodeDefinition codec factory) (fs : frames frame) : result (run_error E) (list frame) :=
  match concat (map (frames_at fs) (nd_parents node)) with
  | [] => Ok []
  | inputs => let* merged := rmap_err KitError (concatenate kit inputs) in Ok [merged]
  end.

Fixpoint encode_each (c : codec) (topic : bytes) (batches : list frame) : io (processors proc * X) (run_error E) (list ProducedToTopic) :=
  match batches with
  | [] => io_ret []
  | batch :: batches =>
      do* records := lift_kit (Encode kit c topic batch) in
      do* produced := encode_each c topic batches in
      io_ret (map (MkProduced topic) records ++ produced)
  end.

(** The source records of a topic, copied byte for byte. *)
Definition pass_record (topic : bytes) (record : ConsumedRecord) : ProducedToTopic :=
  MkProduced topic (NewProduceRecord (con_Key record) (con_Value record) (con_Timestamp record) (con_Headers record)).

Definition pass_through (node parent : nodeDefinition codec factory) (input : inputs) : list ProducedToTopic :=
  concat (map (λ topic, if decide (topic ∈ nd_sourceTopics parent)
                        then map (pass_record (nd_sinkTopic node)) (records_of input topic) else [])
    (sorted_keys input)).

(** What one node adds: its frames, and the records it produces. *)
Definition run_node (partition : Z) (input : inputs) (index : nat) (node : nodeDefinition codec factory) (fs : frames frame)
    : io (processors proc * X) (run_error E) (frames frame * list ProducedToTopic) :=
  let put outputs := io_ret (<[Z.of_nat index := outputs]> fs, []) in
  match nd_kind node, nd_parents node with
  | nodeSource, _ =>
      do* decoded := (if needs_decoded_frame (Z.of_nat index) then decode_topics node input (sorted_keys input)
                      else io_ret []) in
      put decoded
  | nodeOperator, parent :: _ => do* outputs := runOperator partition index (frames_at fs parent) in put outputs
  | nodeMerge, _ => do* outputs := io_lift (merge_frames node fs) in put outputs
  | nodeJoin, lhs :: rhs :: _ =>
      do* outputs := on_processor partition index (processSides kit (frames_at fs lhs) (frames_at fs rhs)) in
      put outputs
  | nodeSink, parent :: _ =>
      match nd_sinkCodec node with
      | None => match top_nodes t !! Z.to_nat (node_index parent) with
                | Some source => io_ret (fs, pass_through node source input)
                | None => panic
                end
      | Some c => do* produced := encode_each c (nd_sinkTopic node) (frames_at fs parent) in io_ret (fs, produced)
      end
  | _, _ => panic
  end.

Fixpoint run_nodes (partition : Z) (input : inputs) (index : nat) (nodes : list (nodeDefinition codec factory))
    (fs : frames frame) : io (processors proc * X) (run_error E) (list ProducedToTopic) :=
  match nodes with
  | [] => io_ret []
  | node :: nodes =>
      do* p := run_node partition input index node fs in
      do* produced := run_nodes partition input (S index) nodes p.1 in
      io_ret (p.2 ++ produced)
  end.

(** Whether every record of the input belongs to the partition. *)
Definition belongs (partition : Z) (input : inputs) : bool :=
  forallb (λ topic, forallb (λ record, con_Partition record =? partition) (records_of input topic)) (sorted_keys input).

Definition runPartition (partition : Z) (input : inputs) : io (processors proc * X) (run_error E) (list ProducedToTopic) :=
  if negb (belongs partition input) then io_fail ForeignRecord
  else run_nodes partition input 0 (top_nodes t) ∅.

(** [RunPartitionBatches] is [runPartition] under the lock. *)
Definition RunPartitionBatches : Z → inputs → io (processors proc * X) (run_error E) (list ProducedToTopic) := runPartition.

(** The input of one partition: every topic keeps its entry. *)
Definition partition_input (partition : Z) (input : inputs) : inputs :=
  (filter (λ record, con_Partition record = partition)) <$> input.

Fixpoint run_each (partitions : list Z) (input : inputs) : io (processors proc * X) (run_error E) (list ProducedToTopic) :=
  match partitions with
  | [] => io_ret []
  | partition :: partitions =>
      do* produced := runPartition partition (partition_input partition input) in
      do* result := run_each partitions input in
      io_ret (produced ++ result)
  end.

Definition RunBatches (input : inputs) : io (processors proc * X) (run_error E) (list ProducedToTopic) :=
  run_each (sorted_ints (concat (map (λ topic, map con_Partition (records_of input topic)) (sorted_keys input)))) input.

Definition RunBatch (topic : bytes) (records : list ConsumedRecord) : io (processors proc * X) (run_error E) (list ProducedToTopic) :=
  RunBatches {[topic := records]}.

(** ** Snapshots *)

Definition name_at (index : nat) : bytes := default [] (nd_name <$> top_nodes t !! index).

Fixpoint snapshot_all (instances : list (nat * proc)) (snapshots : snapshot) : result E snapshot :=
  match instances with
  | [] => Ok snapshots
  | (index, pr) :: instances =>
      if stateful kit pr then
        let* bs := Snapshot kit pr in
        snapshot_all instances (<[name_at index := bs]> snapshots)
      else snapshot_all instances snapshots
  end.

Definition SnapshotPartition (partition : Z) (ps : processors proc) : result E snapshot :=
  match ps !! partition with
  | None => Ok ∅
  | Some instances => snapshot_all (map_to_list instances) ∅
  end.

(** The index of the node with a name, among the nodes that have an instance. *)
Definition by_name (instances : gmap nat proc) : gmap bytes nat :=
  fold_left (λ m p, <[p.1 := p.2]> m) (map (λ p, (name_at p.1, p.1)) (map_to_list instances)) ∅.

Fixpoint restore_all (index_of : gmap bytes nat) (names : list bytes) (snapshots : snapshot)
    : io (gmap nat proc) E unit :=
  match names with
  | [] => io_ret tt
  | name :: names => λ instances,
      match index_of !! name with
      | Some index =>
          match instances !! index with
          | Some pr =>
              if stateful kit pr then
                match Restore kit (default [] (snapshots !! name)) pr with
                | (Ok _, pr) => restore_all index_of names snapshots (<[index := pr]> instances)
                | (Err e, pr) => (Err e, <[index := pr]> instances)
                end
              else restore_all index_of names snapshots instances
          | None => restore_all index_of names snapshots instances
          end
      | None => restore_all index_of names snapshots instances
      end
  end.

Definition RestorePartition (partition : Z) (snapshots : snapshot) : io (processors proc) E unit := λ ps,
  let '(ps, instances) := partitionProcessors partition ps in
  let '(r, instances) := restore_all (by_name instances) (sorted_keys snapshots) snapshots instances in
  (r, <[partition := instances]> ps).

Definition ReleasePartition (partition : Z) (ps : processors proc) : processors proc := delete partition ps.
Definition HasPartition (partition : Z) (ps : processors proc) : bool := bool_decide (is_Some (ps !! partition)).
Definition Close (ps : processors proc) : processors proc := ∅.

(** ** What a processor promises *)

(** The states that an instance of a node goes through. *)
Inductive reachable (node : nodeDefinition codec factory) : proc → Prop :=
| reach_fresh pr : fresh_processor node = Some pr → reachable node pr
| reach_process batch pr r pr' : reachable node pr → Process kit batch pr = (r, pr') → reachable node pr'
| reach_sides ls rs pr r pr' : reachable node pr → processSides kit ls rs pr = (r, pr') → reachable node pr'
| reach_restore bs pr r pr' : reachable node pr → Restore kit bs pr = (r, pr') → reachable node pr'.

(** The contract of [StatefulProcessor]: whether an instance is stateful does not change, a stateless one
    keeps no state, and a fresh instance that restores a snapshot is the one the snapshot was taken of. *)
Class ProcessorLaws : Prop := {
  stateful_fixed : ∀ node pr0 pr, fresh_processor node = Some pr0 → reachable node pr →
    stateful kit pr = stateful kit pr0;
  stateless_fixed : ∀ node pr0 pr, fresh_processor node = Some pr0 → reachable node pr →
    stateful kit pr = false → pr = pr0;
  snapshot_restores : ∀ node pr0 pr bs, fresh_processor node = Some pr0 → reachable node pr →
    stateful kit pr = true → Snapshot kit pr = Ok bs → Restore kit bs pr0 = (Ok tt, pr)
}.

(** A partition has an instance for each operator and join node, and no other. *)
Definition instances_ok (instances : gmap nat proc) : Prop := ∀ index,
  match instances !! index with
  | Some pr => ∃ node pr0, top_nodes t !! index = Some node ∧ fresh_processor node = Some pr0 ∧ reachable node pr
  | None => top_nodes t !! index ≫= fresh_processor = None
  end.

Definition engine_ok (ps : processors proc) : Prop := ∀ partition instances,
  ps !! partition = Some instances → instances_ok instances.

Lemma fresh_processors_lookup index : fresh_processors !! index = top_nodes t !! index ≫= fresh_processor.
Proof. unfold fresh_processors. by rewrite lookup_omap, lookup_map_seq_0. Qed.

Lemma fresh_processors_ok : instances_ok fresh_processors.
Proof.
  intros index. rewrite fresh_processors_lookup. destruct (top_nodes t !! index) as [node|] eqn:Eq; [|done]. cbn.
  destruct (fresh_processor node) as [pr|] eqn:Ef; [|done]. exists node, pr. by auto using reach_fresh.
Qed.

Lemma instances_ok_lookup instances index node :
  instances_ok instances → top_nodes t !! index = Some node → is_Some (fresh_processor node) →
  ∃ pr, instances !! index = Some pr.
Proof.
  intros Hi Hn [pr0 Hf]. specialize (Hi index). destruct (instances !! index); [eauto|].
  rewrite Hn in Hi. cbn in Hi. congruence.
Qed.

Lemma instances_ok_insert instances index pr pr' :
  instances_ok instances → instances !! index = Some pr → (∀ node, reachable node pr → reachable node pr') →
  instances_ok (<[index := pr']> instances).
Proof.
  intros Hi Hl Hr other. specialize (Hi other). destruct (decide (other = index)) as [->|].
  - rewrite lookup_insert_eq. rewrite Hl in Hi. destruct Hi as (node & pr0 & H1 & H2 & H3). eauto 6.
  - by rewrite lookup_insert_ne.
Qed.

Lemma partitionProcessors_ok partition ps ps' instances :
  engine_ok ps → partitionProcessors partition ps = (ps', instances) →
  engine_ok ps' ∧ instances_ok instances ∧ ps' !! partition = Some instances ∧
  ∀ other, other ≠ partition → ps' !! other = ps !! other.
Proof.
  intros Ho. unfold partitionProcessors. destruct (ps !! partition) eqn:Eq; intros [= <- <-].
  - by eauto.
  - split; [|split; [|split]].
    + intros other instances. rewrite lookup_insert_Some. intros [[_ <-]|[_ H]]; [apply fresh_processors_ok|eauto].
    + apply fresh_processors_ok.
    + apply lookup_insert_eq.
    + intros other Hne. by apply lookup_insert_ne.
Qed.

Lemma engine_ok_insert ps partition instances :
  engine_ok ps → instances_ok instances → engine_ok (<[partition := instances]> ps).
Proof. intros Ho Hi other m. rewrite lookup_insert_Some. intros [[_ <-]|[_ H]]; eauto. Qed.

(** ** A run touches one partition and never panics *)

Definition sound {A} (partition : Z) (m : io (processors proc * X) (run_error E) A) : Prop := ∀ ps x r ps' x',
  engine_ok ps → m (ps, x) = (r, (ps', x')) →
  engine_ok ps' ∧ (∀ other, other ≠ partition → ps' !! other = ps !! other) ∧ r ≠ Err Panic.

(** Processor calls keep an instance reachable. *)
Definition proc_op {A} (m : io proc E A) : Prop := ∀ node pr r pr',
  reachable node pr → m pr = (r, pr') → reachable node pr'.

Lemma sound_ret {A} partition (a : A) : sound partition (io_ret a).
Proof. intros ps x r ps' x' Ho [= <- <- <-]. done. Qed.

Lemma sound_bind {A B} partition m (k : A → io (processors proc * X) (run_error E) B) :
  sound partition m → (∀ a, sound partition (k a)) → sound partition (io_bind m k).
Proof.
  intros Hm Hk ps x r ps' x' Ho. unfold io_bind. destruct (m (ps, x)) as [[a|e] [ps1 x1]] eqn:E1.
  - destruct (Hm _ _ _ _ _ Ho E1) as (H1 & H2 & _). intros E2.
    destruct (Hk a _ _ _ _ _ H1 E2) as (H3 & H4 & H5). split_and!; [done| |done].
    intros other Hne. by rewrite H4, H2.
  - intros [= <- <- <-]. destruct (Hm _ _ _ _ _ Ho E1) as (H1 & H2 & H3). split_and!; [done|done|congruence].
Qed.

Lemma sound_lift_kit {A} partition (m : io X E A) : sound partition (lift_kit m).
Proof.
  intros ps x r ps' x' Ho. unfold lift_kit. destruct (m x) as [[a|e] x1]; intros [= <- <- <-]; done.
Qed.

Lemma sound_on_processor {A} partition index node (m : io proc E A) :
  top_nodes t !! index = Some node → is_Some (fresh_processor node) → proc_op m →
  sound partition (on_processor partition index m).
Proof.
  intros Hn Hf Hm ps x r ps' x' Ho. unfold on_processor.
  destruct (partitionProcessors partition ps) as [ps1 instances] eqn:E1.
  apply partitionProcessors_ok in E1 as (H1 & H2 & _ & H4); [|done].
  destruct (instances_ok_lookup _ _ _ H2 Hn Hf) as [pr Hpr]. rewrite Hpr.
  destruct (m pr) as [r1 pr'] eqn:Em. intros [= <- <- <-]. split_and!.
  - apply engine_ok_insert; [done|]. eapply instances_ok_insert; [done..|]. intros node' Hr. by eapply Hm.
  - intros other Hne. rewrite lookup_insert_ne by done. auto.
  - by destruct r1.
Qed.

Lemma proc_op_process_each parents : proc_op (process_each parents).
Proof.
  induction parents as [|parent parents IH]; intros node pr r pr' Hr; cbn; [by intros [= <- <-]|].
  unfold io_bind. destruct (Process kit parent pr) as [r1 pr1] eqn:E1.
  pose proof (reach_process _ _ _ _ _ Hr E1) as H1. destruct r1; [|by intros [= <- <-]].
  destruct (process_each parents pr1) as [r2 pr2] eqn:E2. pose proof (IH _ _ _ _ H1 E2) as H2.
  destruct r2; by intros [= <- <-].
Qed.

Lemma proc_op_sides ls rs : proc_op (processSides kit ls rs).
Proof. intros node pr r pr' Hr H. by eapply reach_sides. Qed.

Lemma sound_decode_topics partition node input topics :
  is_Some (nd_sourceCodec node) → sound partition (decode_topics node input topics).
Proof.
  intros [c Hc]. induction topics as [|topic topics IH]; cbn; [apply sound_ret|]. destruct (_ && _); [|done].
  rewrite Hc. apply sound_bind; [apply sound_lift_kit|]. intros batch. apply sound_bind; [done|].
  intros decoded. apply sound_ret.
Qed.

Lemma sound_encode_each partition c topic batches : sound partition (encode_each c topic batches).
Proof.
  induction batches as [|batch batches IH]; cbn; [apply sound_ret|].
  apply sound_bind; [apply sound_lift_kit|]. intros records. apply sound_bind; [done|]. intros produced. apply sound_ret.
Qed.

Lemma sound_merge_frames partition node fs : sound partition (io_lift (merge_frames node fs)).
Proof.
  intros ps x r ps' x' Ho [= <- <- <-]. split_and!; [done..|]. unfold merge_frames.
  destruct (concat _); [done|]. by destruct (concatenate kit _).
Qed.

Lemma sound_runOperator partition index node parents :
  top_nodes t !! index = Some node → is_Some (fresh_processor node) → sound partition (runOperator partition index parents).
Proof.
  intros Hn Hf. unfold runOperator. destruct parents.
  - intros ps x r ps' x' Ho [= <- <- <-]. destruct (partitionProcessors partition ps) as [ps1 m] eqn:Eq.
    apply partitionProcessors_ok in Eq as (H1 & _ & _ & H4); done.
  - by eapply sound_on_processor, proc_op_process_each.
Qed.

Lemma sound_run_node partition input index node fs :
  topology_ok t → top_nodes t !! index = Some node → sound partition (run_node partition input index node fs).
Proof.
  intros Hok Hn. destruct (Hok index node Hn) as [Hp Hk]. unfold run_node.
  destruct (nd_kind node) eqn:Ekind.
  - destruct Hk as (_ & _ & Hc). apply sound_bind; [|intros; apply sound_ret].
    destruct (needs_decoded_frame _); [by apply sound_decode_topics|apply sound_ret].
  - destruct Hk as [Hl [f Hf]]. destruct (nd_parents node) as [|parent ?]; [done|].
    apply sound_bind; [|intros; apply sound_ret]. eapply sound_runOperator; [exact Hn|].
    unfold fresh_processor. rewrite Ekind, Hf. cbn. eauto.
  - apply sound_bind; [apply sound_merge_frames|intros; apply sound_ret].
  - destruct Hk as ((l & r & -> & _) & _). apply sound_bind; [|intros; apply sound_ret].
    eapply sound_on_processor; [exact Hn| |apply proc_op_sides]. unfold fresh_processor. rewrite Ekind. eauto.
  - destruct Hk as (parent & Hparents & _). rewrite Hparents in *. apply Forall_singleton in Hp as [_ Hi].
    destruct (nd_sinkCodec node); [apply sound_bind; [apply sound_encode_each|intros; apply sound_ret]|].
    destruct (lookup_lt_is_Some_2 (top_nodes t) (Z.to_nat (node_index parent))) as [source ->]; [|apply sound_ret].
    apply lookup_lt_Some in Hn. lia.
Qed.

Lemma sound_run_nodes partition input pre nodes fs :
  topology_ok t → top_nodes t = pre ++ nodes → sound partition (run_nodes partition input (length pre) nodes fs).
Proof.
  intros Hok. revert pre fs. induction nodes as [|node nodes IH]; intros pre fs Ht; cbn; [apply sound_ret|].
  apply sound_bind.
  - apply sound_run_node; [done|]. rewrite Ht, lookup_app_r by lia. by rewrite Nat.sub_diag.
  - intros [fs' made]. apply sound_bind; [|intros; apply sound_ret].
    replace (S (length pre)) with (length (pre ++ [node])) by (rewrite length_app; cbn; lia).
    apply IH. by rewrite <- (assoc_L (++)).
Qed.

Lemma sound_runPartition partition input : topology_ok t → sound partition (runPartition partition input).
Proof.
  intros Hok. unfold runPartition. destruct (belongs partition input); cbn [negb].
  - by apply (sound_run_nodes _ _ []).
  - by intros ps x r ps' x' Ho [= <- <- <-].
Qed.

(** ** A snapshot restores exactly *)

Lemma name_at_inj i j :
  NoDup (map nd_name (top_nodes t)) → is_Some (top_nodes t !! i) → is_Some (top_nodes t !! j) →
  name_at i = name_at j → i = j.
Proof.
  intros Hn [x Hx] [y Hy]. unfold name_at. rewrite Hx, Hy. cbn. intros Heq.
  apply (NoDup_lookup (map nd_name (top_nodes t)) i j (nd_name x)); [done|..];
    change (map ?f ?l) with (f <$> l); rewrite list_lookup_fmap.
  - by rewrite Hx.
  - rewrite Hy. cbn. congruence.
Qed.

Lemma instances_ok_node instances index pr :
  instances_ok instances → instances !! index = Some pr → is_Some (top_nodes t !! index).
Proof. intros Hi Hl. specialize (Hi index). rewrite Hl in Hi. destruct Hi as (node & _ & -> & _). eauto. Qed.

Lemma snapshot_all_Ok l acc snaps :
  snapshot_all l acc = Ok snaps →
  (∀ i pr, (i, pr) ∈ l → stateful kit pr = true → is_Some (snaps !! name_at i)) ∧
  (∀ name, is_Some (acc !! name) → is_Some (snaps !! name)) ∧
  (∀ name bs, snaps !! name = Some bs → acc !! name = Some bs ∨
     ∃ i pr, (i, pr) ∈ l ∧ stateful kit pr = true ∧ name = name_at i ∧ Snapshot kit pr = Ok bs).
Proof.
  revert acc. induction l as [|[i pr] l IH]; intros acc; cbn.
  - intros [= <-]. split_and!; [by intros i pr ?%not_elem_of_nil|done|auto].
  - destruct (stateful kit pr) eqn:Hs.
    + intros (bs & Hb & H)%rbind_Ok. apply IH in H as (H1 & H2 & H3). split_and!.
      * intros j pr' [[= -> ->]|Hin]%elem_of_cons Hst; [|eauto]. apply H2. rewrite lookup_insert_eq. eauto.
      * intros name Hn. apply H2. destruct (decide (name = name_at i)) as [->|]; [rewrite lookup_insert_eq; eauto|].
        by rewrite lookup_insert_ne.
      * intros name bs' [H|(j & pr' & Hin & ?)]%H3.
        -- apply lookup_insert_Some in H as [[<- <-]|[_ H]]; [|auto].
           right. exists i, pr. split; [apply list_elem_of_here|auto].
        -- right. exists j, pr'. split; [by apply list_elem_of_further|auto].
    + intros H. apply IH in H as (H1 & H2 & H3). split_and!; [|done|].
      * intros j pr' [[= -> ->]|Hin]%elem_of_cons Hst; [congruence|eauto].
      * intros name bs' [H|(j & pr' & Hin & ?)]%H3; [auto|].
        right. exists j, pr'. split; [by apply list_elem_of_further|auto].
Qed.

Lemma by_name_lookup instances index pr :
  NoDup (map nd_name (top_nodes t)) → instances_ok instances → instances !! index = Some pr →
  by_name instances !! name_at index = Some index.
Proof.
  intros Hn Hi Hl. unfold by_name.
  assert (NoDup (map fst (map (λ p : nat * proc, (name_at p.1, p.1)) (map_to_list instances)))) as Hd.
  { rewrite map_map. cbn. apply NoDup_fmap_2_strong with (f := λ p : nat * proc, name_at p.1); [|apply NoDup_map_to_list].
    intros [i x] [j y] Hx%elem_of_map_to_list Hy%elem_of_map_to_list Heq. cbn in Heq.
    apply name_at_inj in Heq as <-; [|done|by eapply instances_ok_node..]. congruence. }
  rewrite insert_all_list_to_map by done. apply elem_of_list_to_map_1; [done|].
  change (map ?f ?l) with (f <$> l). apply list_elem_of_fmap. exists (index, pr). split; [done|].
  by apply elem_of_map_to_list.
Qed.

(** Restoring a list of names turns the instances into the target, when each name restores its own. *)
Lemma restore_all_target index_of names snaps instances target :
  NoDup names →
  (∀ name, name ∈ names → ∃ i pr0 pr, index_of !! name = Some i ∧ name_at i = name ∧ instances !! i = Some pr0 ∧
     stateful kit pr0 = true ∧ Restore kit (default [] (snaps !! name)) pr0 = (Ok tt, pr) ∧ target !! i = Some pr) →
  (∀ i, (∀ name, name ∈ names → index_of !! name ≠ Some i) → instances !! i = target !! i) →
  restore_all index_of names snaps instances = (Ok tt, target).
Proof.
  revert instances. induction names as [|name names IH]; intros instances Hn Hr Ho; cbn.
  - unfold io_ret. f_equal. apply map_eq. intros i. apply Ho. by intros name ?%not_elem_of_nil.
  - apply NoDup_cons in Hn as [Hni Hn].
    destruct (Hr name (list_elem_of_here _ _)) as (i & pr0 & pr & Hi & Hname & Hpr0 & Hst & Hre & Ht).
    rewrite Hi, Hpr0, Hst, Hre. apply IH; [done|..].
    + intros name' Hin. destruct (Hr name' (list_elem_of_further _ _ _ Hin)) as (j & pr1 & pr2 & Hj & Hj' & H1 & H2 & H3 & H4).
      exists j, pr1, pr2. split_and!; try done. rewrite lookup_insert_ne; [done|]. congruence.
    + intros j Hj. destruct (decide (i = j)) as [<-|Hne]; [by rewrite lookup_insert_eq|].
      rewrite lookup_insert_ne by done. apply Ho. intros name' [->|Hin]%elem_of_cons; [congruence|auto].
Qed.

Lemma restore_snapshot `{!ProcessorLaws} partition ps ps2 instances snaps :
  NoDup (map nd_name (top_nodes t)) → engine_ok ps → ps !! partition = Some instances →
  SnapshotPartition partition ps = Ok snaps →
  RestorePartition partition snaps (ReleasePartition partition ps2) = (Ok tt, <[partition := instances]> ps2).
Proof.
  intros Hn Ho Hl. pose proof (Ho _ _ Hl) as Hi. unfold SnapshotPartition. rewrite Hl.
  intros (H1 & _ & H3)%snapshot_all_Ok.
  assert (∀ name bs, snaps !! name = Some bs → ∃ i pr0 pr, name = name_at i ∧ instances !! i = Some pr ∧
    fresh_processors !! i = Some pr0 ∧ stateful kit pr0 = true ∧ Restore kit bs pr0 = (Ok tt, pr)) as Hsnap.
  { intros name bs [He|(i & pr & Hin%elem_of_map_to_list & Hst & -> & Hs)]%H3; [by rewrite lookup_empty in He|].
    pose proof (Hi i) as Hi'. rewrite Hin in Hi'. destruct Hi' as (node & pr0 & Hnode & Hf & Hr).
    exists i, pr0, pr. split_and!; [done|done| | |].
    - by rewrite fresh_processors_lookup, Hnode.
    - by rewrite <- (stateful_fixed node pr0 pr).
    - by eapply snapshot_restores. }
  unfold RestorePartition, ReleasePartition, partitionProcessors. rewrite lookup_delete_eq.
  erewrite (restore_all_target _ _ _ _ instances).
  - by rewrite !insert_delete_eq, insert_insert_eq || by rewrite insert_insert_eq, insert_delete_eq.
  - apply NoDup_sorted_keys.
  - intros name [bs Hbs]%elem_of_sorted_keys. destruct (Hsnap name bs Hbs) as (i & pr0 & pr & -> & Hp & Hf & Hst & Hr).
    exists i, pr0, pr. rewrite Hbs. split_and!; try done. by eapply by_name_lookup, Hf; [|apply fresh_processors_ok].
  - intros i Hfree. pose proof (Hi i) as Hi'. destruct (instances !! i) as [pr|] eqn:Hpr.
    + destruct Hi' as (node & pr0 & Hnode & Hf & Hr). rewrite fresh_processors_lookup, Hnode. cbn. rewrite Hf.
      destruct (stateful kit pr) eqn:Hst; [|by rewrite (stateless_fixed node pr0 pr Hf Hr Hst)].
      destruct (H1 i pr) as [bs Hbs]; [by apply elem_of_map_to_list|done|].
      destruct (Hfree (name_at i)); [apply elem_of_sorted_keys; eauto|].
      eapply by_name_lookup; [done|apply fresh_processors_ok|]. by rewrite fresh_processors_lookup, Hnode.
    + by rewrite fresh_processors_lookup, Hi'.
Qed.
(** Partitions are isolated, and a validated graph runs without a panic. A run of one partition, with
    any records, codecs and processors, and also a run that fails half way, leaves the processors of every
    other partition as they were; its own are instances of the nodes of the graph, in states that calls on
    a fresh instance reach; and no index, codec, processor or parent is ever missing. *)
Theorem partitions_isolated partition input ps x r ps' x' :
  topology_ok t → engine_ok ps → runPartition partition input (ps, x) = (r, (ps', x')) →
  r ≠ Err Panic ∧ engine_ok ps' ∧ ∀ other, other ≠ partition → ps' !! other = ps !! other.
Proof. intros Hok Ho H. by destruct (sound_runPartition partition input Hok ps x r ps' x' Ho H) as (? & ? & ?). Qed.

(** ** Pass-through graphs *)

(** What a node copies: the records of the topics of its source. *)
Definition copied (input : inputs) (node : nodeDefinition codec factory) : list ProducedToTopic :=
  match nd_kind node, nd_parents node with
  | nodeSink, parent :: _ =>
      match top_nodes t !! Z.to_nat (node_index parent) with
      | Some source => concat (map (λ topic,
          map (λ record, MkProduced (nd_sinkTopic node) (MkProduce (con_Key record) (Some (default [] (con_Value record)))
                 (con_Timestamp record) (con_Headers record))) (records_of input topic))
          (filter (λ topic, topic ∈ nd_sourceTopics source) (sorted_keys input)))
      | None => []
      end
  | _, _ => []
  end.

Lemma pass_through_copied node parent input :
  pass_through node parent input =
  concat (map (λ topic, map (pass_record (nd_sinkTopic node)) (records_of input topic))
    (filter (λ topic, topic ∈ nd_sourceTopics parent) (sorted_keys input))).
Proof.
  unfold pass_through. induction (sorted_keys input) as [|topic l IH]; [done|]. rewrite filter_cons. cbn [map concat].
  rewrite IH. case_decide; done.
Qed.

(** A node that is a source, or a sink without a codec. *)
Definition plain (node : nodeDefinition codec factory) : Prop :=
  nd_kind node = nodeSource ∨ nd_kind node = nodeSink ∧ nd_sinkCodec node = None.

Lemma plain_not_decoded index : Forall plain (top_nodes t) → topology_ok t →
  needs_decoded_frame (Z.of_nat index) = false.
Proof.
  intros Hp Hok. unfold needs_decoded_frame. apply not_true_is_false. intros He.
  apply existsb_exists in He as (node & Hin%list_elem_of_In & Hb). rewrite Forall_forall in Hp.
  apply andb_prop in Hb as [Hb1 Hb2]. destruct (Hp node Hin) as [Hk|[Hk Hc]].
  - apply list_elem_of_lookup in Hin as [i Hi]. destruct (Hok i node Hi) as [_ Hn]. rewrite Hk in Hn.
    destruct Hn as [Hn _]. by rewrite Hn in Hb2.
  - rewrite bool_decide_eq_true_2 in Hb1 by done. rewrite Hc in Hb1. done.
Qed.

Lemma plain_nodes partition input pre nodes fs s :
  Forall plain (top_nodes t) → topology_ok t → top_nodes t = pre ++ nodes →
  run_nodes partition input (length pre) nodes fs s = (Ok (concat (map (copied input) nodes)), s).
Proof.
  intros Hp Hok. revert pre fs. induction nodes as [|node nodes IH]; intros pre fs Ht; [done|].
  assert (top_nodes t !! length pre = Some node) as Hn.
  { rewrite Ht, lookup_app_r by lia. by rewrite Nat.sub_diag. }
  destruct (Hok _ _ Hn) as [Hpar Hk]. rewrite Forall_forall in Hp.
  assert (∃ fs', run_node partition input (length pre) node fs s = (Ok (fs', copied input node), s)) as [fs' Hrun].
  { unfold run_node, copied. destruct (Hp node (list_elem_of_lookup_2 _ _ _ Hn)) as [Hs|[Hs Hc]]; rewrite Hs in *.
    - rewrite plain_not_decoded by (try apply Forall_forall; done). eexists. reflexivity.
    - destruct Hk as (parent & Hpe & _). rewrite Hpe, Hc in *. apply Forall_singleton in Hpar as [_ Hi].
      destruct (lookup_lt_is_Some_2 (top_nodes t) (Z.to_nat (node_index parent))) as [source ->].
      { apply lookup_lt_Some in Hn. lia. }
      exists fs. unfold io_ret. rewrite pass_through_copied. reflexivity. }
  cbn [run_nodes map concat]. rewrite (io_bind_run _ _ _ _ _ Hrun). cbn [fst snd].
  specialize (IH (pre ++ [node]) fs'). rewrite length_app, Nat.add_1_r in IH.
  rewrite (io_bind_run _ _ _ _ _ (IH ltac:(by rewrite <- (assoc_L (++))))). done.
Qed.

(** A pass-through graph copies. When every sink hangs off a source without a codec, a run returns, for
    every sink in
    the order of the nodes, the key, the value, the timestamp and the headers of the records
    of the topics of its source, the topics in order and the records of a topic in the order they came;
    it calls no codec and changes no state. *)
Theorem pass_through_exact partition input s :
  topology_ok t → Forall plain (top_nodes t) → belongs partition input = true →
  runPartition partition input s = (Ok (concat (map (copied input) (top_nodes t))), s).
Proof.
  intros Hok Hp Hb. unfold runPartition. rewrite Hb. cbn [negb]. by apply (plain_nodes partition input []).
Qed.

(** A snapshot restores the partition exactly. For distinct names and processors that keep their
    contract, restoring the snapshot of a partition into a released one, in any engine state, gives back
    every instance in the state it had, stateful or not, and changes no other partition. *)
Theorem snapshot_roundtrip `{!ProcessorLaws} partition ps ps2 instances snaps :
  NoDup (map nd_name (top_nodes t)) → engine_ok ps → ps !! partition = Some instances →
  SnapshotPartition partition ps = Ok snaps →
  RestorePartition partition snaps (ReleasePartition partition ps2) = (Ok tt, <[partition := instances]> ps2).
Proof. apply restore_snapshot. Qed.
End Built.

(** ** A concrete engine *)

(** Batches are record counts; a processor adds up the counts it sees and forwards the total. *)
Definition demo_kit (X : Type) : Kit X unit Z unit unit Z := {|
  Decode := λ _ _ records, io_ret (zlen records);
  Encode := λ _ _ count, io_ret [NewProduceRecord None (Some (be_encode 8 count)) 0 []];
  concatenate := λ counts, Ok (foldr Z.add 0 counts);
  new_processor := λ _, 0;
  newStatefulJoinProcessor := λ _, 0;
  Process := λ count total, (Ok [int64 (total + count)], int64 (total + count));
  processSides := λ _ _, io_ret [];
  stateful := λ _, true;
  Snapshot := λ total, Ok (be_encode 8 total);
  Restore := λ bs total, match read_int tt 8 bs with Ok (n, []) => (Ok tt, n) | _ => (Err tt, total) end
|}.

Lemma demo_reachable X node total : reachable (demo_kit X) node total → inS 64 total.
Proof.
  induction 1 as [total Hf|batch total r total' _ IH H|ls rs total r total' _ IH H|bs total r total' _ IH H]; cbn in *.
  - unfold fresh_processor in Hf. destruct (nd_kind node); try done; [|by injection Hf as <-].
    destruct (nd_processor node); [|done]. by injection Hf as <-.
  - injection H as _ <-. by apply wrapS_range.
  - by injection H as _ <-.
  - destruct (read_int tt 8 bs) as [[n [|]]|] eqn:Eq; injection H as _ <-; try done.
    by apply (codec_enc (dec := read_int tt 8)) in Eq as [_ Eq].
Qed.

#[export] Instance demo_laws X : ProcessorLaws (demo_kit X).
Proof.
  split; [done|done|]. intros node pr0 pr bs _ Hr%demo_reachable _ Hs.
  change (@Ok unit bytes (be_encode 8 pr) = Ok bs) in Hs. assert (be_encode 8 pr ++ [] = bs) as <-.
  { rewrite app_nil_r. congruence. }
  cbn [Restore demo_kit]. by rewrite (codec_dec (dec := read_int tt 8) (P := inS 64)).
Qed.

Definition demo_graph : Topology unit unit := built demo_topology.

Lemma demo_graph_ok : topology_ok demo_graph.
Proof. exact (builds_ok (λ _ : unit, tt) _ demo_topology_builds). Qed.

(** Partition 1 has counted five records. *)
Definition demo_engine : processors Z := {[1 := {[2%nat := 5]}]}.

Lemma demo_engine_ok X : engine_ok (demo_kit X) demo_graph demo_engine.
Proof.
  intros partition instances H. unfold demo_engine in H. apply (lookup_singleton_Some 1) in H as [<- <-]. intros index.
  destruct (decide (index = 2%nat)) as [->|Hne].
  - rewrite lookup_singleton_eq. eexists. exists 0. split; [reflexivity|]. split; [reflexivity|].
    apply (reach_process _ _ 5 0 (Ok [5])); [by apply reach_fresh|reflexivity].
  - rewrite lookup_singleton_ne by done. by destruct index as [|[|[|[|index]]]].
Qed.

Definition demo_input : inputs :=
  {[str "orders" := [NewConsumedRecord (Some (str "k")) None 7 0 3 []; NewConsumedRecord None (Some (str "v")) 8 0 4 []]]}.

Definition demo_run := runPartition (demo_kit unit) demo_graph 0 demo_input (demo_engine, tt).

Lemma partitions_isolated_witness :
  demo_run.2.1 = <[0 := {[2%nat := 2]}]> demo_engine ∧ demo_run.1 ≠ Err Panic ∧ demo_run.2.1 !! 1 = demo_engine !! 1.
Proof.
  split; [by_decide|]. destruct demo_run as [r [ps' x']] eqn:Hr. unfold demo_run in Hr.
  destruct (partitions_isolated _ _ _ _ _ _ _ _ _ demo_graph_ok (demo_engine_ok unit) Hr) as (H1 & _ & H2).
  split; [exact H1|exact (H2 1 ltac:(discriminate))].
Defined.

(** The same engine after a crash that lost partition 1. *)
Lemma snapshot_roundtrip_witness :
  SnapshotPartition (demo_kit unit) demo_graph 1 demo_engine = Ok {[str "map" := be_encode 8 5]} ∧
  RestorePartition (demo_kit unit) demo_graph 1 {[str "map" := be_encode 8 5]} (ReleasePartition 1 ∅) = (Ok tt, demo_engine).
Proof.
  assert (SnapshotPartition (demo_kit unit) demo_graph 1 demo_engine = Ok {[str "map" := be_encode 8 5]}) as Hs by by_decide.
  split; [exact Hs|].
  refine (snapshot_roundtrip (demo_kit unit) demo_graph 1 demo_engine ∅ {[2%nat := 5]} _ _ (demo_engine_ok unit) _ Hs).
  - by_decide.
  - by_decide.
Defined.

(** A graph of a source and a pass-through sink. *)
Definition demo_copy : Topology unit unit :=
  built (let* p := AddSource (NewTopology 7) (str "in") [str "orders"] (Some tt) in
         let* p := AddPassThroughSink p.2 (str "copy") (str "archive") p.1 in Ok p.2).

Lemma demo_copy_ok : topology_ok demo_copy.
Proof.
  apply (builds_ok (λ _ : unit, tt)). unfold built, demo_copy.
  destruct (AddSource _ _ _ _) as [[source t1]|] eqn:E1; cbn [rbind fst snd]; [|apply builds_new].
  destruct (AddPassThroughSink _ _ _ _) as [[n2 t2]|] eqn:E2; cbn [rbind fst snd]; [|apply builds_new].
  eapply builds_pass, E2. eapply builds_source, E1. apply builds_new.
Qed.

Lemma pass_through_exact_witness :
  runPartition (demo_kit unit) demo_copy 0 demo_input (demo_engine, tt) =
    (Ok [MkProduced (str "archive") (MkProduce (Some (str "k")) (Some []) 7 []);
         MkProduced (str "archive") (MkProduce None (Some (str "v")) 8 [])], (demo_engine, tt)).
Proof.
  rewrite (pass_through_exact (demo_kit unit) demo_copy 0 demo_input (demo_engine, tt) demo_copy_ok).
  - vm_compute. reflexivity.
  - repeat constructor; by right.
  - vm_compute. reflexivity.
Defined.
