(* ===== verification/Driver.v ===== *)
(** * The columnar test driver of krabkatest/testdriver.go

    Records go through a built topology one batch at a time, and what it produces waits in a queue per topic. *)

From S2P Require Import Prelude GoStd Kafka Topology Built.

Section Driver.
Context {X E F frame codec factory proc : Type}.
Context (kit : Kit X E frame codec factory proc) (t : Topology codec factory).

(** A fault may be a nil error. *)
Record ColumnarTestDriver := MkDriver {
  dr_outputs : gmap bytes (list ProduceRecord);
  dr_nextOffsets : gmap (bytes * Z) Z;
  dr_faults : list (option F)
}.

Inductive driver_error := Fault (e : F) | RunError (e : run_error E) | NoOutput (topic : bytes).

Abbreviation step A := (io (ColumnarTestDriver * (processors proc * X)) driver_error A).

Definition NewColumnarTestDriver : ColumnarTestDriver := MkDriver ∅ ∅ [].

Definition queued (topic : bytes) (d : ColumnarTestDriver) : list ProduceRecord := default [] (dr_outputs d !! topic).

Definition enqueue (d : ColumnarTestDriver) (output : ProducedToTopic) : ColumnarTestDriver :=
  let topic := produced_Topic output in
  MkDriver (<[topic := queued topic d ++ [produced_Record output]]> (dr_outputs d)) (dr_nextOffsets d) (dr_faults d).

Definition PipeBatch (topic : bytes) (records : list ConsumedRecord) : step unit := λ '(d, w),
  match dr_faults d with
  | fault :: faults =>
      (match fault with Some e => Err (Fault e) | None => Ok tt end, (MkDriver (dr_outputs d) (dr_nextOffsets d) faults, w))
  | [] =>
      match RunBatch kit t topic records w with
      | (Err e, w) => (Err (RunError e), (d, w))
      | (Ok produced, w) => (Ok tt, (fold_left enqueue produced d, w))
      end
  end.

Definition PipeInput (topic : bytes) (partition : Z) (key value : option bytes) (timestamp : Z) (headers : list RecordHeader) : step unit :=
  λ '(d, w),
    let offset := default 0 (dr_nextOffsets d !! (topic, partition)) in
    match PipeBatch topic [NewConsumedRecord key value timestamp partition offset headers] (d, w) with
    | (Err e, dw) => (Err e, dw)
    | (Ok _, (d, w)) => (Ok tt, (MkDriver (dr_outputs d) (<[(topic, partition) := offset + 1]> (dr_nextOffsets d)) (dr_faults d), w))
    end.

Definition FailNext (fault : option F) (d : ColumnarTestDriver) : ColumnarTestDriver :=
  MkDriver (dr_outputs d) (dr_nextOffsets d) (dr_faults d ++ [fault]).

Definition OutputSize (topic : bytes) (d : ColumnarTestDriver) : nat := length (queued topic d).
Definition IsOutputEmpty (topic : bytes) (d : ColumnarTestDriver) : bool := bool_decide (OutputSize topic d = 0%nat).

Definition ReadOutput (topic : bytes) : io ColumnarTestDriver driver_error ProduceRecord := λ d,
  match queued topic d with
  | [] => (Err (NoOutput topic), d)
  | record :: queue => (Ok record, MkDriver (<[topic := queue]> (dr_outputs d)) (dr_nextOffsets d) (dr_faults d))
  end.

Definition DrainOutput (topic : bytes) (d : ColumnarTestDriver) : list ProduceRecord * ColumnarTestDriver :=
  (queued topic d, MkDriver (delete topic (dr_outputs d)) (dr_nextOffsets d) (dr_faults d)).

(** ** Queues *)

(** The records of a topic among what a run produced. *)
Definition records_to (topic : bytes) (produced : list ProducedToTopic) : list ProduceRecord :=
  map produced_Record (filter (λ output, produced_Topic output = topic) produced).

Lemma enqueue_all topic produced d :
  queued topic (fold_left enqueue produced d) = queued topic d ++ records_to topic produced ∧
  dr_nextOffsets (fold_left enqueue produced d) = dr_nextOffsets d ∧ dr_faults (fold_left enqueue produced d) = dr_faults d.
Proof.
  revert d. induction produced as [|output produced IH]; intros d; cbn [fold_left]; [by rewrite app_nil_r|].
  destruct (IH (enqueue d output)) as (-> & -> & ->). split; [|done]. unfold records_to, queued at 1, enqueue. cbn [dr_outputs].
  rewrite filter_cons. destruct (decide (produced_Topic output = topic)) as [<-|Hne].
  - rewrite lookup_insert_eq. cbn [default]. unfold id. by rewrite <- (assoc_L (++)).
  - by rewrite lookup_insert_ne.
Qed.

(** The steps of a test on one topic, the records that came out so far, and those that the topology produced. *)
Inductive drives (topic : bytes) : ColumnarTestDriver * (processors proc * X) → list ProduceRecord → list ProduceRecord → Prop :=
| drives_new w : drives topic (NewColumnarTestDriver, w) [] []
| drives_batch d w read made input records produced w' :
    drives topic (d, w) read made → dr_faults d = [] → RunBatch kit t input records w = (Ok produced, w') →
    drives topic (PipeBatch input records (d, w)).2 read (made ++ records_to topic produced)
| drives_refused d w read made input records e dw :
    drives topic (d, w) read made → PipeBatch input records (d, w) = (Err e, dw) → drives topic dw read made
| drives_fault d w read made fault : drives topic (d, w) read made → drives topic (FailNext fault d, w) read made
| drives_read d w read made record d' :
    drives topic (d, w) read made → ReadOutput topic d = (Ok record, d') → drives topic (d', w) (read ++ [record]) made
| drives_drain d w read made :
    drives topic (d, w) read made → drives topic ((DrainOutput topic d).2, w) (read ++ (DrainOutput topic d).1) made.

(** A queue is first in, first out, and loses nothing: what was read and what still waits is what the topology produced. *)
Lemma driver_fifo topic dw read made : drives topic dw read made → read ++ queued topic dw.1 = made.
Proof.
  induction 1 as [w|d w read made input records produced w' _ IH Hf Hr|d w read made input records e dw _ IH Hp|d w read made fault _ IH
                 |d w read made record d' _ IH Hr|d w read made _ IH]; cbn [fst snd] in *.
  - done.
  - cbn [PipeBatch]. rewrite Hf, Hr. cbn [snd fst]. rewrite (proj1 (enqueue_all topic produced d)), (assoc_L (++)). by rewrite IH.
  - cbn [PipeBatch] in Hp. destruct (dr_faults d) as [|[f|] faults]; [|by injection Hp as _ <-|done].
    destruct (RunBatch kit t input records w) as [[produced|e'] w']; [done|by injection Hp as _ <-].
  - exact IH.
  - unfold ReadOutput in Hr. destruct (queued topic d) as [|r queue] eqn:Hq; [done|]. injection Hr as -> <-.
    unfold queued. cbn [dr_outputs]. rewrite lookup_insert_eq. cbn. by rewrite <- (assoc_L (++)).
  - unfold DrainOutput. cbn [fst snd]. unfold queued at 2. cbn [dr_outputs]. rewrite lookup_delete_eq. cbn. by rewrite app_nil_r.
Qed.

(** A record that was piped on its own gets the next offset of its partition, and a failed one leaves it free. *)
Lemma PipeInput_offsets topic partition key value timestamp headers d w :
  let '(r, (d', _)) := PipeInput topic partition key value timestamp headers (d, w) in
  dr_nextOffsets d' = if is_ok r then <[(topic, partition) := default 0 (dr_nextOffsets d !! (topic, partition)) + 1]> (dr_nextOffsets d)
                      else dr_nextOffsets d.
Proof.
  unfold PipeInput, PipeBatch. destruct (dr_faults d) as [|[f|] faults]; [|done|done].
  destruct (RunBatch kit t topic _ w) as [[produced|e] w']; [|done]. cbn [is_ok dr_nextOffsets].
  by rewrite (proj1 (proj2 (enqueue_all topic produced d))).
Qed.
End Driver.
