(* ===== verification/Runner.v ===== *)
(** * The runner of columnar/runner.go

    The cycles that poll, process, send and commit: one partition ([RunPartitionOnce]), a subscribed group
    ([RunGroupOnce]), a group with a barrier, and a transaction; the error policy; the rollback of the
    processor state. The clients are interfaces over one world [W], which the codecs share. *)

From S2P Require Import Prelude GoStd Kafka Barrier Aligner Store Topology Built.

(** [Producer]: [Dispatch] hands one record to the client, and [Acks] waits for the acknowledgements of the
    records handed over, in the order they arrive; [None] is a success. *)
Record Producer (W E : Type) := MkProducer {
  Dispatch : ProducedToTopic → W → W;
  Acks : nat → W → list (option E) * W
}.
Arguments Dispatch {W E}.
Arguments Acks {W E}.

Record TransactionalProducer (W E : Type) := MkTransactional {
  tx_producer : Producer W E;
  BeginTransaction : io W E unit;
  SendOffsets : gmap TopicPartition Z → io W E unit;
  CommitTransaction : io W E unit;
  AbortTransaction : io W E unit
}.
Arguments tx_producer {W E}.
Arguments BeginTransaction {W E}.
Arguments SendOffsets {W E}.
Arguments CommitTransaction {W E}.
Arguments AbortTransaction {W E}.

(** [RebalanceListener]: a callback of the client. *)
Inductive rebalance :=
| PartitionsAssigned (partitions : list TopicPartition)
| PartitionsRevoked (partitions : list TopicPartition)
| PartitionsLost (partitions : list TopicPartition).

(** The errors of a cycle: a client or a store call, the topology, the policy, a cut reader, or two of them
    joined. *)
Inductive runner_error (E : Type) :=
| CallError (e : E)
| RunError (e : run_error E)
| SnapshotError (e : E)
| InvalidPolicy
| CutError (e : cut_error E)
| Joined (e : runner_error E) (abort : E)
| NotTransactional
| NoBarrierGroup
| NoCompleteCut
| IncompleteBarrier.
Arguments CallError {E}.
Arguments RunError {E}.
Arguments SnapshotError {E}.
Arguments InvalidPolicy {E}.
Arguments CutError {E}.
Arguments Joined {E}.
Arguments NotTransactional {E}.
Arguments NoBarrierGroup {E}.
Arguments NoCompleteCut {E}.
Arguments IncompleteBarrier {E}.

(** ** The records of a poll *)

Definition normalize_record (record : ConsumedRecord) : ConsumedRecord :=
  MkConsumed (con_Key record) (Some (default [] (con_Value record))) (con_Timestamp record)
    (con_Partition record) (con_Offset record) (con_Headers record).

Definition normalizeRecords (records : list ConsumedRecord) : list ConsumedRecord := map normalize_record records.

Definition normalize_poll (polled : list (TopicPartition * list ConsumedRecord))
    : list (TopicPartition * list ConsumedRecord) := map (λ p, (p.1, normalizeRecords p.2)) polled.

(** The records grouped by logical partition and by topic. *)
Definition by_partition (kept : list (TopicPartition * list ConsumedRecord)) : gmap Z inputs :=
  fold_left (λ m p, <[tp_Partition p.1 := <[tp_Topic p.1 := p.2]> (default ∅ (m !! tp_Partition p.1))]> m) kept ∅.

Definition input_count (input : inputs) : Z := zlen (concat (map snd (map_to_list input))).

Section Runner.
Context {W E frame codec factory proc : Type}.
Context (kit : Kit W E frame codec factory proc) (t : Topology codec factory).
Context (consumer : Consumer W E) (producer : Producer W E) (store : StateStore W E).

(** The nanoseconds that a batch took, the rebalance callbacks that a poll makes, the [Retriable] marker in
    the chain of an error, and the class and the text of an error. *)
Context (since : W → Z * W) (callbacks : W → list rebalance * W).
Context (retriable_error : E → bool) (error_class error_message : run_error E → bytes).

(** [SendAll]: every record is dispatched, whatever the acknowledgements say; the first error that arrives
    is the result. *)
Definition SendAll (producer : Producer W E) (outputs : list ProducedToTopic) : io W E unit := λ w,
  let w := fold_left (λ w output, Dispatch producer output w) outputs w in
  let '(acks, w) := Acks producer (length outputs) w in
  (match omap id acks with [] => Ok tt | e :: _ => Err e end, w).

(** ** The state before a batch *)

Record priorState := MkPrior { prior_existed : bool; prior_snapshot : snapshot }.

Definition priorStateOf (partition : Z) (ps : processors proc) : result E priorState :=
  let* snapshots := SnapshotPartition kit t partition ps in
  Ok (MkPrior (HasPartition partition ps) snapshots).

(** An error of the restore is ignored. *)
Definition restorePrior (partition : Z) (prior : priorState) (ps : processors proc) : processors proc :=
  let ps := ReleasePartition partition ps in
  if prior_existed prior then (RestorePartition kit t partition (prior_snapshot prior) ps).2 else ps.

(** The map iterates in any order; its keys are distinct partitions. *)
Definition rollback (prior : gmap Z priorState) (ps : processors proc) : processors proc :=
  fold_left (λ ps p, restorePrior p.1 p.2 ps) (map_to_list prior) ps.

(** ** One partition *)

Definition partition_state : Type := processors proc * W.

Definition on_world {A} (m : io W E A) : io partition_state (runner_error E) A :=
  λ '(ps, w), let '(r, w) := m w in (rmap_err CallError r, (ps, w)).

(** Run the rest of a cycle, and put the state of the partition back when it fails. *)
Definition or_restore {A} (partition : Z) (prior : priorState) (m : io partition_state (runner_error E) A)
    : io partition_state (runner_error E) A :=
  λ s, match m s with
       | (Ok a, s) => (Ok a, s)
       | (Err e, (ps, w)) => (Err e, (restorePrior partition prior ps, w))
       end.

Definition RunPartitionOnce (topic : bytes) (partition offset pollTimeout : Z)
    : io partition_state (runner_error E) Z :=
  let topicPartition := MkTP topic partition in
  do* _ := on_world (Assign consumer [topicPartition]) in
  do* _ := on_world (Seek consumer topicPartition offset) in
  do* polled := on_world (Poll consumer pollTimeout) in
  let records := normalizeRecords (records_at topicPartition polled) in
  if decide (records = []) then io_ret offset else
  let nextOffset := fold_left (λ next record, Z.max next (con_Offset record + 1)) records offset in
  λ '(ps, w),
  match priorStateOf partition ps with
  | Err e => (Err (SnapshotError e), (ps, w))
  | Ok prior =>
      or_restore partition prior
        (do* produced := io_map_err RunError (RunPartitionBatches kit t partition {[topic := records]}) in
         do* _ := on_world (SendAll producer produced) in
         do* _ := on_world (CommitOffsets consumer {[topicPartition := nextOffset]}) in
         io_ret nextOffset) (ps, w)
  end.

(** ** The state of a group runner *)

Record cycle := MkCycle {
  cy_processors : processors proc;
  cy_metrics : Metrics;
  cy_barrier : option barrierAligner;
  cy_owned : gset TopicPartition;
  cy_reader : option CutReader;
  cy_world : W
}.

Definition set_processors (c : cycle) (ps : processors proc) : cycle :=
  MkCycle ps (cy_metrics c) (cy_barrier c) (cy_owned c) (cy_reader c) (cy_world c).
Definition set_metrics (c : cycle) (m : Metrics) : cycle :=
  MkCycle (cy_processors c) m (cy_barrier c) (cy_owned c) (cy_reader c) (cy_world c).
Definition set_barrier (c : cycle) (b : option barrierAligner) : cycle :=
  MkCycle (cy_processors c) (cy_metrics c) b (cy_owned c) (cy_reader c) (cy_world c).
Definition set_owned (c : cycle) (owned : gset TopicPartition) : cycle :=
  MkCycle (cy_processors c) (cy_metrics c) (cy_barrier c) owned (cy_reader c) (cy_world c).
Definition set_world (c : cycle) (w : W) : cycle :=
  MkCycle (cy_processors c) (cy_metrics c) (cy_barrier c) (cy_owned c) (cy_reader c) w.

Definition call {A} (m : io W E A) : io cycle (runner_error E) A :=
  λ c, let '(r, w) := m (cy_world c) in (rmap_err CallError r, set_world c w).

(** ** The rebalance callbacks *)

(** The logical partitions of a list, each once, in the order they first appear. *)
Definition logical (partitions : list TopicPartition) : list Z :=
  fold_left (λ l p, if decide (tp_Partition p ∈ l) then l else l ++ [tp_Partition p]) partitions [].

Definition owns_logical (owned : gset TopicPartition) (partition : Z) : bool :=
  bool_decide (Exists (λ p, tp_Partition p = partition) (elements owned)).

(** A snapshot that does not load and a restore that fails are ignored. *)
Definition restore_partition (partition epoch : Z) (c : cycle) : cycle :=
  match Load store partition epoch (cy_world c) with
  | (Ok snapshots, w) =>
      set_world (set_processors c (RestorePartition kit t partition snapshots (cy_processors c)).2) w
  | (Err _, w) => set_world c w
  end.

Definition OnPartitionsAssigned (partitions : list TopicPartition) (c : cycle) : cycle :=
  let prior := cy_owned c in
  let c := set_owned c (list_to_set partitions ∪ cy_owned c) in
  fold_left (λ c partition, if owns_logical prior partition then c else restore_partition partition NoEpoch c)
    (logical partitions) c.

(** A snapshot that cannot be taken or saved is ignored. *)
Definition save_partition (partition epoch : Z) (c : cycle) : cycle :=
  match SnapshotPartition kit t partition (cy_processors c) with
  | Ok snapshots => set_world c (Save store partition epoch snapshots (cy_world c)).2
  | Err _ => c
  end.

Definition release (partitions : list TopicPartition) (save : bool) (c : cycle) : cycle :=
  let c := set_owned c (cy_owned c ∖ list_to_set partitions) in
  fold_left (λ c partition,
    if owns_logical (cy_owned c) partition then c
    else let c := if save then save_partition partition NoEpoch c else c in
         set_processors c (ReleasePartition partition (cy_processors c))) (logical partitions) c.

Definition OnPartitionsRevoked (partitions : list TopicPartition) : cycle → cycle := release partitions true.
Definition OnPartitionsLost (partitions : list TopicPartition) : cycle → cycle := release partitions false.

Definition on_rebalance (c : cycle) (event : rebalance) : cycle :=
  match event with
  | PartitionsAssigned partitions => OnPartitionsAssigned partitions c
  | PartitionsRevoked partitions => OnPartitionsRevoked partitions c
  | PartitionsLost partitions => OnPartitionsLost partitions c
  end.

(** [Close] of the group runner. *)
Definition GroupRunner_Close (c : cycle) : cycle :=
  let c := release (elements (cy_owned c)) true c in set_processors c (Close (cy_processors c)).

(** A poll, with the callbacks that the client makes before it returns. *)
Definition poll (pollTimeout : Z) : io cycle (runner_error E) (list (TopicPartition * list ConsumedRecord)) := λ c,
  let '(r, w) := Poll consumer pollTimeout (cy_world c) in
  let '(events, w) := callbacks w in
  (rmap_err CallError r, fold_left on_rebalance events (set_world c w)).

(** ** Processing a poll *)

(** The header texts are byte strings, like the topics. *)
Definition deadLetter (deadLetterTopic sourceTopic : bytes) (record : ConsumedRecord) (cause : run_error E)
    : ProducedToTopic :=
  let headers := con_Headers record ++
    [MkHeader (str "krabka.error.class") (Some (error_class cause));
     MkHeader (str "krabka.error.message") (Some (error_message cause));
     MkHeader (str "krabka.source.topic") (Some sourceTopic);
     MkHeader (str "krabka.source.partition") (Some (FormatInt (con_Partition record)));
     MkHeader (str "krabka.source.offset") (Some (FormatInt (con_Offset record)))] in
  MkProduced deadLetterTopic (NewProduceRecord (con_Key record) (con_Value record) (con_Timestamp record) headers).

Definition dead_letters (deadLetterTopic : bytes) (input : inputs) (cause : run_error E) : list ProducedToTopic :=
  concat (map (λ topic, map (λ record, deadLetter deadLetterTopic topic record cause) (records_of input topic))
    (sorted_keys input)).

Definition retriable (e : run_error E) : bool := match e with KitError e => retriable_error e | _ => false end.

(** The loop over the partitions of a poll, with the outputs and the prior states so far. *)
Fixpoint process_partitions (policy : ErrorPolicy) (byPartition : gmap Z inputs) (partitions : list Z)
    (outputs : list ProducedToTopic) (prior : gmap Z priorState)
    : io cycle (runner_error E) (list ProducedToTopic * gmap Z priorState) :=
  match partitions with
  | [] => io_ret (outputs, prior)
  | partition :: partitions => λ c,
      let input := default ∅ (byPartition !! partition) in
      match priorStateOf partition (cy_processors c) with
      | Err e => (Err (SnapshotError e), set_processors c (rollback prior (cy_processors c)))
      | Ok before =>
          let '(r, (ps, w)) := RunPartitionBatches kit t partition input (cy_processors c, cy_world c) in
          let c := set_world (set_processors c ps) w in
          match r with
          | Ok partitionOutput =>
              let '(nanos, w) := since (cy_world c) in
              let c := set_metrics (set_world c w)
                (recordBatch (cy_metrics c) (input_count input) (zlen partitionOutput) nanos) in
              process_partitions policy byPartition partitions (outputs ++ partitionOutput)
                (<[partition := before]> prior) c
          | Err e =>
              let c := set_processors c (restorePrior partition before (cy_processors c)) in
              if bool_decide (policy_Action policy = ActionFail) || retriable e
              then (Err (RunError e), set_processors c (rollback prior (cy_processors c)))
              else
                let letters := if decide (policy_Action policy = ActionDeadLetter)
                               then dead_letters (policy_DeadLetterTopic policy) input e else [] in
                let '(nanos, w) := since (cy_world c) in
                let c := set_metrics (set_world c w)
                  (recordFailure (cy_metrics c) (input_count input) (zlen letters) nanos) in
                process_partitions policy byPartition partitions (outputs ++ letters) prior c
          end
      end
  end.

Record processedPoll := MkProcessed {
  pp_offsets : gmap TopicPartition Z;
  pp_outputs : list ProducedToTopic;
  pp_prior : gmap Z priorState;
  pp_barrier : option BarrierReached
}.

(** The records of a poll that the round processes: without a barrier all of them, with one the held ones
    and the new ones, each partition truncated at its cut. *)
Definition keep_records (polled : list (TopicPartition * list ConsumedRecord)) (c : cycle)
    : list (TopicPartition * list ConsumedRecord) * cycle :=
  match cy_barrier c with
  | None => (nonempty (normalize_poll polled), c)
  | Some a =>
      let '(a, merged) := merge_held a polled in
      let '(a, kept) := accept_each a (normalize_poll (nonempty merged)) in
      (nonempty kept, set_barrier c (Some a))
  end.

(** The barrier of a round that fires, and the offsets raised to the cut. *)
Definition reach_barrier (offsets : gmap TopicPartition Z) (c : cycle)
    : gmap TopicPartition Z * option BarrierReached :=
  match cy_barrier c with
  | Some a =>
      match al_pending a with
      | Some cut => if fired a then let '(offsets, b) := barrier a cut offsets in (offsets, Some b) else (offsets, None)
      | None => (offsets, None)
      end
  | None => (offsets, None)
  end.

Definition processPoll (policy : ErrorPolicy) (pollTimeout : Z) : io cycle (runner_error E) processedPoll :=
  if negb (validate policy) then io_fail InvalidPolicy else
  do* polled := poll pollTimeout in λ c,
  let '(kept, c) := keep_records polled c in
  let byPartition := by_partition kept in
  (do* p := process_partitions policy byPartition (sorted_ints (map (λ p, tp_Partition p.1) kept)) [] ∅ in λ c,
   let '(offsets, b) := reach_barrier (next_offsets kept) c in
   (Ok (MkProcessed offsets p.1 p.2 b), c)) c.

(** ** A cycle of a group *)

(** Run the rest of a round, and roll the processors back when it fails. *)
Definition or_rollback {A} (processed : processedPoll) (m : io cycle (runner_error E) A) : io cycle (runner_error E) A :=
  λ c, match m c with
       | (Ok a, c) => (Ok a, c)
       | (Err e, c) => (Err e, set_processors c (rollback (pp_prior processed) (cy_processors c)))
       end.

(** [save] of the aligner: the snapshot of every partition of the barrier, under the epoch of the cut. *)
Fixpoint save_each (partitions : list Z) (epoch : Z) : io cycle (runner_error E) unit :=
  match partitions with
  | [] => io_ret tt
  | partition :: partitions => λ c,
      match SnapshotPartition kit t partition (cy_processors c) with
      | Err e => (Err (SnapshotError e), c)
      | Ok snapshots => (do* _ := call (Save store partition epoch snapshots) in save_each partitions epoch) c
      end
  end.

Definition save_barrier (b : option BarrierReached) : io cycle (runner_error E) unit :=
  match b with
  | Some b => save_each (bar_Partitions b) (cut_Epoch (bar_Cut b))
  | None => io_ret tt
  end.

(** [finish], with the listener as a change of the world. *)
Definition finish_barrier (listener : option (BarrierReached → W → W)) (b : option BarrierReached) (c : cycle) : cycle :=
  match b, cy_barrier c with
  | Some b, Some a =>
      let c := set_barrier c (Some (finish a b)) in
      match listener with Some listener => set_world c (listener b (cy_world c)) | None => c end
  | _, _ => c
  end.

Definition commit_offsets (commit : gmap TopicPartition Z → io W E unit) (offsets : gmap TopicPartition Z)
    : io cycle (runner_error E) unit :=
  if decide (offsets = ∅) then io_ret tt else call (commit offsets).

Definition runGroupOnce (policy : ErrorPolicy) (pollTimeout : Z) (listener : option (BarrierReached → W → W))
    : io cycle (runner_error E) (gmap TopicPartition Z) :=
  do* processed := processPoll policy pollTimeout in
  do* _ := or_rollback processed
    (do* _ := call (SendAll producer (pp_outputs processed)) in
     do* _ := save_barrier (pp_barrier processed) in
     commit_offsets (CommitOffsets consumer) (pp_offsets processed)) in
  λ c, (Ok (pp_offsets processed), finish_barrier listener (pp_barrier processed) c).

(** A failed transactional round aborts its transaction, and joins the error of the abort. *)
Definition or_abort {A} (tx : TransactionalProducer W E) (m : io cycle (runner_error E) A)
    : io cycle (runner_error E) A :=
  λ c, match m c with
       | (Ok a, c) => (Ok a, c)
       | (Err e, c) =>
           let '(r, w) := AbortTransaction tx (cy_world c) in
           (Err (match r with Ok _ => e | Err abort => Joined e abort end), set_world c w)
       end.

(** The abort comes before the rollback in the source; the two touch different parts of the state. *)
Definition runGroupOnceTransactional (tx : TransactionalProducer W E) (policy : ErrorPolicy) (pollTimeout : Z)
    (listener : option (BarrierReached → W → W)) : io cycle (runner_error E) (gmap TopicPartition Z) :=
  do* _ := call (BeginTransaction tx) in
  do* processed := or_abort tx (processPoll policy pollTimeout) in
  do* _ := or_abort tx (or_rollback processed
    (do* _ := call (SendAll (tx_producer tx) (pp_outputs processed)) in
     do* _ := save_barrier (pp_barrier processed) in
     do* _ := commit_offsets (SendOffsets tx) (pp_offsets processed) in
     call (CommitTransaction tx))) in
  λ c, (Ok (pp_offsets processed), finish_barrier listener (pp_barrier processed) c).

(** ** The group runner *)

(** [refresh] of the aligner: the cut reader is read only when no cut is pending; the assignment is taken
    first, and stays when the read fails. *)
Definition refresh_barrier (cuts : Consumer W E) (fuel : nat) : io cycle (runner_error E) unit := λ c,
  match cy_barrier c, cy_reader c with
  | Some a, Some reader =>
      match al_pending a with
      | Some _ => (Ok tt, set_barrier c (Some (refresh_with a (cy_owned c) [])))
      | None =>
          let '(r, (reader, w)) :=
            CompleteCutsAfter cuts fuel (al_group a) (al_lastEpoch a) (reader, cy_world c) in
          let c := MkCycle (cy_processors c) (cy_metrics c) (cy_barrier c) (cy_owned c) (Some reader) w in
          match r with
          | Ok found => (Ok tt, set_barrier c (Some (refresh_with a (cy_owned c) found)))
          | Err e => (Err (CutError e), set_barrier c (Some (set_assigned a (cy_owned c))))
          end
      end
  | _, _ => (Ok tt, c)
  end.

(** The positions of the aligned partitions, from a consumer that reports them. *)
Definition observe_positions : io cycle (runner_error E) unit := λ c,
  match cy_barrier c, Positions consumer with
  | Some a, Some positions =>
      if decide (cy_owned c = ∅) then (Ok tt, c) else
      (do* observed := call (positions (alignedPartitions a)) in
       λ c, (Ok tt, set_barrier c (Some (observePositions a observed)))) c
  | _, _ => (Ok tt, c)
  end.

Definition groupRun (cuts : Consumer W E) (fuel : nat) : io cycle (runner_error E) unit :=
  do* _ := refresh_barrier cuts fuel in observe_positions.

Definition RunOnce (cuts : Consumer W E) (fuel : nat) (policy : ErrorPolicy) (pollTimeout : Z)
    (listener : option (BarrierReached → W → W)) : io cycle (runner_error E) (gmap TopicPartition Z) :=
  do* _ := groupRun cuts fuel in runGroupOnce policy pollTimeout listener.

(** [tx] is the producer when it implements the transactional interface. *)
Definition RunOnceTransactional (cuts : Consumer W E) (fuel : nat) (tx : option (TransactionalProducer W E))
    (policy : ErrorPolicy) (pollTimeout : Z) (listener : option (BarrierReached → W → W))
    : io cycle (runner_error E) (gmap TopicPartition Z) :=
  match tx with
  | None => io_fail NotTransactional
  | Some tx => do* _ := groupRun cuts fuel in runGroupOnceTransactional tx policy pollTimeout listener
  end.

(** [RunGroupOnce]: no barrier, no store, no callbacks, and the policy that fails. *)
Definition RunGroupOnce (pollTimeout : Z) : io cycle (runner_error E) (gmap TopicPartition Z) :=
  runGroupOnce FailPolicy pollTimeout None.

(** ** Making a group runner *)

(** What the options set; a barrier needs its name and its reader, and a listener needs a barrier. *)
Record runner_config := MkConfig {
  cf_policy : ErrorPolicy;
  cf_store : StateStore W E;
  cf_metrics : Metrics;
  cf_barrierGroup : bytes;
  cf_barrierReader : option CutReader;
  cf_barrierListener : option (BarrierReached → W → W)
}.

Inductive config_error :=
| BuildFailed (e : topology_error)
| PolicyInvalid
| HalfABarrierGroup
| ListenerWithoutGroup
| SubscribeFailed (e : E).

Definition GroupRunnerOption : Type := runner_config → runner_config.

Definition WithErrorPolicy (policy : ErrorPolicy) : GroupRunnerOption := λ r,
  MkConfig policy (cf_store r) (cf_metrics r) (cf_barrierGroup r) (cf_barrierReader r) (cf_barrierListener r).
Definition WithStateStore (s : StateStore W E) : GroupRunnerOption := λ r,
  MkConfig (cf_policy r) s (cf_metrics r) (cf_barrierGroup r) (cf_barrierReader r) (cf_barrierListener r).
Definition WithMetrics (m : Metrics) : GroupRunnerOption := λ r,
  MkConfig (cf_policy r) (cf_store r) m (cf_barrierGroup r) (cf_barrierReader r) (cf_barrierListener r).
Definition WithBarrierGroup (group : bytes) (reader : option CutReader) : GroupRunnerOption := λ r,
  MkConfig (cf_policy r) (cf_store r) (cf_metrics r) group reader (cf_barrierListener r).
Definition WithBarrierListener (listener : option (BarrierReached → W → W)) : GroupRunnerOption := λ r,
  MkConfig (cf_policy r) (cf_store r) (cf_metrics r) (cf_barrierGroup r) (cf_barrierReader r) listener.

Definition startBarrier (r : runner_config) : result config_error (option barrierAligner) :=
  match cf_barrierReader r with
  | None =>
      if decide (cf_barrierGroup r = []) then
        match cf_barrierListener r with Some _ => Err ListenerWithoutGroup | None => Ok None end
      else Err HalfABarrierGroup
  | Some _ =>
      if decide (cf_barrierGroup r = []) then Err HalfABarrierGroup
      else Ok (Some (newBarrierAligner (cf_barrierGroup r)))
  end.

(** The runner owns nothing before the first callback, which [Subscribe] may not make. *)
Definition NewGroupRunner (options : list GroupRunnerOption) : io W config_error (runner_config * cycle) := λ w,
  match Build t with
  | Err e => (Err (BuildFailed e), w)
  | Ok _ =>
      let r := fold_left (λ r option, option r) options
        (MkConfig FailPolicy NoStateStore NewMetrics [] None None) in
      if negb (validate (cf_policy r)) then (Err PolicyInvalid, w) else
      match startBarrier r with
      | Err e => (Err e, w)
      | Ok b =>
          match Subscribe consumer (SourceTopics t) w with
          | (Err e, w) => (Err (SubscribeFailed e), w)
          | (Ok _, w) => (Ok (r, MkCycle ∅ (cf_metrics r) b ∅ (cf_barrierReader r) w), w)
          end
      end
  end.

(** ** Restoring a cut *)

Definition barrierTargets (cut : BarrierCut) (owned : gset TopicPartition) : list TopicPartition :=
  merge_sort tp_le (filter (λ p, owned = ∅ ∨ p ∈ owned) (map fst (map_to_list (cut_Offsets cut)))).

Fixpoint restore_logical (partitions : list Z) (epoch : Z) : io cycle (runner_error E) unit :=
  match partitions with
  | [] => io_ret tt
  | partition :: partitions =>
      do* snapshots := call (Load store partition epoch) in λ c,
      let ps := ReleasePartition partition (cy_processors c) in
      let '(r, ps) := RestorePartition kit t partition snapshots ps in
      match r with
      | Ok _ => restore_logical partitions epoch (set_processors c ps)
      | Err e => (Err (SnapshotError e), set_processors c ps)
      end
  end.

Fixpoint seek_targets (cut : BarrierCut) (targets : list TopicPartition) : io cycle (runner_error E) unit :=
  match targets with
  | [] => io_ret tt
  | p :: targets => do* _ := call (Seek consumer p (default 0 (cut_Offsets cut !! p))) in seek_targets cut targets
  end.

Definition restoreToCut (cut : BarrierCut) : io cycle (runner_error E) unit := λ c,
  let targets := barrierTargets cut (cy_owned c) in
  (do* _ := restore_logical (sorted_ints (map tp_Partition targets)) (cut_Epoch cut) in
   do* _ := seek_targets cut targets in
   λ c, (Ok tt, set_barrier c ((λ a, restored a cut targets) <$> cy_barrier c))) c.

(** The two entry points: the cut is the complete one at an epoch, or the last one. *)
Definition restore_found (find : Consumer W E → bytes → io (CutReader * W) (cut_error E) (option BarrierCut))
    (cuts : Consumer W E) : io cycle (runner_error E) BarrierCut := λ c,
  match cy_barrier c, cy_reader c with
  | Some a, Some reader =>
      let '(r, (reader, w)) := find cuts (al_group a) (reader, cy_world c) in
      let c := MkCycle (cy_processors c) (cy_metrics c) (cy_barrier c) (cy_owned c) (Some reader) w in
      match r with
      | Err e => (Err (CutError e), c)
      | Ok None => (Err NoCompleteCut, c)
      | Ok (Some cut) => (do* _ := restoreToCut cut in io_ret cut) c
      end
  | _, _ => (Err NoBarrierGroup, c)
  end.

Definition RestoreToEpoch (cuts : Consumer W E) (fuel : nat) (epoch : Z) : io cycle (runner_error E) BarrierCut :=
  restore_found (λ cuts group, completeCutAt cuts fuel group epoch) cuts.

Definition RestoreToLatestCut (cuts : Consumer W E) (fuel : nat) : io cycle (runner_error E) BarrierCut :=
  restore_found (λ cuts group, LatestCompleteCut cuts fuel group) cuts.
End Runner.

(** ** A concrete client *)

(** One partition of the topic [orders] with its records, a consumer that remembers its position as a Kafka
    consumer does (a poll moves it past the records it returns, a seek sets it), the committed offsets, the
    records that were acknowledged, and how many sends the broker refuses. *)
Record broker := MkBroker {
  br_records : list ConsumedRecord;
  br_position : Z;
  br_committed : gmap TopicPartition Z;
  br_pending : list ProducedToTopic;
  br_delivered : list ProducedToTopic;
  br_refusals : nat
}.

Definition demo_tp : TopicPartition := MkTP (str "orders") 0.

Definition br_fetch (b : broker) : list ConsumedRecord := filter (λ r, br_position b ≤ con_Offset r) (br_records b).

Definition br_set (b : broker) (position : Z) (committed : gmap TopicPartition Z)
    (pending delivered : list ProducedToTopic) (refusals : nat) : broker :=
  MkBroker (br_records b) position committed pending delivered refusals.

Definition demo_consumer : Consumer broker unit := {|
  Assign := λ _, io_ret tt;
  Seek := λ _ offset b,
    (Ok tt, br_set b offset (br_committed b) (br_pending b) (br_delivered b) (br_refusals b));
  Poll := λ _ b,
    (Ok [(demo_tp, br_fetch b)],
     br_set b (fold_left (λ p r, Z.max p (con_Offset r + 1)) (br_fetch b) (br_position b)) (br_committed b)
       (br_pending b) (br_delivered b) (br_refusals b));
  CommitOffsets := λ offsets b,
    (Ok tt, br_set b (br_position b) (offsets ∪ br_committed b) (br_pending b) (br_delivered b) (br_refusals b));
  Subscribe := λ _, io_ret tt;
  Positions := None
|}.

(** A refused batch of sends fails as a whole. *)
Definition demo_producer : Producer broker unit := {|
  Dispatch := λ output b,
    br_set b (br_position b) (br_committed b) (br_pending b ++ [output]) (br_delivered b) (br_refusals b);
  Acks := λ n b,
    match br_refusals b with
    | O => (replicate n None, br_set b (br_position b) (br_committed b) [] (br_delivered b ++ br_pending b) 0)
    | S refusals => (replicate n (Some tt), br_set b (br_position b) (br_committed b) [] (br_delivered b) refusals)
    end
|}.

Definition demo_tx : TransactionalProducer broker unit :=
  MkTransactional _ _ demo_producer (io_ret tt) (CommitOffsets demo_consumer) (io_ret tt) (io_ret tt).

Definition demo_order (offset : Z) : ConsumedRecord := NewConsumedRecord None (Some (str "v" ++ FormatInt offset)) 7 0 offset [].

Definition demo_broker (refusals : nat) : broker := MkBroker [demo_order 0; demo_order 1] 0 ∅ [] [] refusals.

Definition no_callbacks (w : broker) : list rebalance * broker := ([], w).
Definition no_time (w : broker) : Z * broker := (0, w).

Definition demo_cycle (ps : processors Z) (b : broker) : cycle := MkCycle ps NewMetrics None ∅ None b.

(** A round of the graph that counts. *)
Definition demo_round (policy : ErrorPolicy) : io cycle (runner_error unit) (gmap TopicPartition Z) :=
  runGroupOnce (demo_kit broker) demo_graph demo_consumer demo_producer NoStateStore no_time no_callbacks
    (λ _, false) (λ _, []) (λ _, []) policy 0 None.
