(* ===== verification/Rollback.v ===== *)
(** * A failed round leaves no trace in the processors

    The rollback of columnar/runner.go is exact, for the three kinds of cycle, and the error policy decides
    what becomes of each batch. *)

From S2P Require Import Prelude GoStd Kafka Barrier Aligner Store Topology Built Runner.

Section Rollback.
Context {W E frame codec factory proc : Type}.
Context (kit : Kit W E frame codec factory proc) (t : Topology codec factory).
Context (consumer : Consumer W E) (producer : Producer W E) (store : StateStore W E).
Context (since : W → Z * W) (callbacks : W → list rebalance * W).
Context (retriable_error : E → bool) (error_class error_message : run_error E → bytes).
Context (Hgraph : topology_ok t) (Hnames : NoDup (map nd_name (top_nodes t))) `{!ProcessorLaws kit}.

(** ** One partition *)

(** A partition set back to what another engine has for it. *)
Definition set_back (partition : Z) (ps ps2 : processors proc) : processors proc :=
  match ps !! partition with Some instances => <[partition := instances]> ps2 | None => delete partition ps2 end.

Lemma set_back_lookup partition ps ps2 other :
  set_back partition ps ps2 !! other = if decide (other = partition) then ps !! other else ps2 !! other.
Proof.
  unfold set_back. case_decide as Hd; subst.
  - destruct (ps !! partition); [apply lookup_insert_eq|apply lookup_delete_eq].
  - destruct (ps !! partition); [by apply lookup_insert_ne|by apply lookup_delete_ne].
Qed.

Lemma restorePrior_exact partition ps prior ps2 :
  engine_ok kit t ps → priorStateOf kit t partition ps = Ok prior →
  restorePrior kit t partition prior ps2 = set_back partition ps ps2.
Proof.
  intros Ho. unfold priorStateOf, restorePrior, set_back, HasPartition. intros (snaps & Hs & [= <-])%rbind_Ok.
  cbn [prior_existed prior_snapshot]. destruct (ps !! partition) as [instances|] eqn:Hl.
  - rewrite bool_decide_eq_true_2 by eauto.
    by rewrite (restore_snapshot kit t partition ps ps2 instances snaps Hnames Ho Hl Hs).
  - rewrite bool_decide_eq_false_2 by (intros [? ?]; congruence). done.
Qed.

Lemma priorStateOf_local partition ps ps2 :
  ps2 !! partition = ps !! partition → priorStateOf kit t partition ps2 = priorStateOf kit t partition ps.
Proof. intros Hl. unfold priorStateOf, SnapshotPartition, HasPartition. by rewrite Hl. Qed.

(** ** The prior states of a round *)

(** [prior] holds the state that [ps0] had for some partitions, and [ps] agrees with [ps0] on all others. *)
Definition round_inv (ps0 : processors proc) (prior : gmap Z priorState) (ps : processors proc) : Prop :=
  engine_ok kit t ps ∧
  (∀ p before, prior !! p = Some before → priorStateOf kit t p ps0 = Ok before) ∧
  (∀ p, prior !! p = None → ps !! p = ps0 !! p).

Lemma rollback_exact ps0 prior ps :
  engine_ok kit t ps0 → round_inv ps0 prior ps → rollback kit t prior ps = ps0.
Proof.
  intros Ho (_ & Hp & Hl). unfold rollback.
  assert (∀ l ps, (∀ p before, (p, before) ∈ l → priorStateOf kit t p ps0 = Ok before) →
    (∀ p, p ∉ map fst l → ps !! p = ps0 !! p) →
    fold_left (λ ps p, restorePrior kit t p.1 p.2 ps) l ps = ps0) as H.
  { intros l. induction l as [|[p before] l IH]; intros ps' Hin Hout; cbn.
    - apply map_eq. intros p. apply Hout. apply not_elem_of_nil.
    - rewrite (restorePrior_exact p ps0) by (done || apply Hin, list_elem_of_here).
      apply IH; [intros q b Hq; by apply Hin, list_elem_of_further|].
      intros q Hq. rewrite set_back_lookup. case_decide; [done|]. apply Hout. cbn. by apply not_elem_of_cons. }
  apply H.
  - intros p before Hin%elem_of_map_to_list. by apply Hp.
  - intros p Hn. apply Hl. destruct (prior !! p) as [b|] eqn:Hb; [|done]. destruct Hn.
    change (map fst ?l) with (fst <$> l). apply list_elem_of_fmap. exists (p, b). split; [done|].
    by apply elem_of_map_to_list.
Qed.

Lemma round_inv_start ps : engine_ok kit t ps → round_inv ps ∅ ps.
Proof. intros Ho. split; [done|]. split; [by intros p before ?%lookup_empty_Some|done]. Qed.

(** A batch of a partition that has no prior state yet. *)
Lemma round_inv_batch ps0 prior ps partition input w r ps' w' before :
  round_inv ps0 prior ps → prior !! partition = None → priorStateOf kit t partition ps = Ok before →
  RunPartitionBatches kit t partition input (ps, w) = (r, (ps', w')) →
  round_inv ps0 (<[partition := before]> prior) ps' ∧ restorePrior kit t partition before ps' = ps.
Proof.
  intros (Ho & Hp & Hl) Hnone Hb Hrun.
  destruct (sound_runPartition kit t partition input Hgraph ps w r ps' w' Ho Hrun) as (Ho' & Hother & _).
  split; [split; [done|split]|].
  - intros p b. rewrite lookup_insert_Some. intros [[<- <-]|[_ Hpb]]; [|by apply Hp].
    rewrite <- Hb. symmetry. by apply priorStateOf_local, Hl.
  - intros p. rewrite lookup_insert_None. intros [Hn Hne]. by rewrite Hother, Hl.
  - rewrite (restorePrior_exact partition ps) by done. apply map_eq. intros p. rewrite set_back_lookup.
    case_decide; [done|]. by apply Hother.
Qed.

Lemma round_inv_same_world ps0 prior ps : round_inv ps0 prior ps → engine_ok kit t ps.
Proof. by intros [? _]. Qed.

Abbreviation process_loop := (process_partitions kit t since retriable_error error_class error_message).

Lemma process_partitions_inv policy by_p partitions ps0 outputs prior c r c' :
  engine_ok kit t ps0 → NoDup partitions → (∀ p, p ∈ partitions → prior !! p = None) →
  round_inv ps0 prior (cy_processors c) →
  process_loop policy by_p partitions outputs prior c = (r, c') →
  match r with
  | Err _ => cy_processors c' = ps0
  | Ok (_, prior') => round_inv ps0 prior' (cy_processors c')
  end.
Proof.
  intros Ho. revert outputs prior c. induction partitions as [|p partitions IH]; intros outputs prior c Hn Hnew Hi; cbn.
  - by intros [= <- <-].
  - apply NoDup_cons in Hn as [Hp Hn]. pose proof (Hnew p (list_elem_of_here _ _)) as Hnone.
    destruct (priorStateOf kit t p (cy_processors c)) as [before|e] eqn:Hb.
    2:{ intros [= <- <-]. cbn. by apply rollback_exact. }
    destruct (RunPartitionBatches _ _ _ _ _) as [r1 [ps w]] eqn:Hrun.
    destruct (round_inv_batch _ _ _ _ _ _ _ _ _ _ Hi Hnone Hb Hrun) as [Hi' Hback].
    destruct r1 as [out|e]; cbn.
    + destruct (since w) as [nanos w']. apply IH; [done| |done].
      intros q Hq. rewrite lookup_insert_ne; [by apply Hnew, list_elem_of_further|congruence].
    + rewrite Hback. destruct (_ || _).
      * intros [= <- <-]. cbn. by apply rollback_exact.
      * destruct (since w) as [nanos w']. apply IH; [done| |done]. intros q Hq. by apply Hnew, list_elem_of_further.
Qed.

(** ** The callbacks keep the engine in order *)

Lemma restore_all_reachable index_of names snaps instances r instances' :
  instances_ok kit t instances → restore_all kit index_of names snaps instances = (r, instances') →
  instances_ok kit t instances'.
Proof.
  revert instances. induction names as [|name names IH]; intros instances Hi; cbn; [by intros [= <- <-]|].
  destruct (index_of !! name) as [index|]; [|by apply IH].
  destruct (instances !! index) as [pr|] eqn:Hpr; [|by apply IH]. destruct (stateful kit pr); [|by apply IH].
  destruct (Restore kit _ pr) as [r1 pr'] eqn:Hr.
  assert (instances_ok kit t (<[index := pr']> instances)) as Hi'.
  { eapply instances_ok_insert; [done..|]. intros node Hnode. by eapply reach_restore. }
  destruct r1; [by apply IH|]. by intros [= <- <-].
Qed.

Lemma RestorePartition_ok partition snaps ps r ps' :
  engine_ok kit t ps → RestorePartition kit t partition snaps ps = (r, ps') → engine_ok kit t ps'.
Proof.
  intros Ho. unfold RestorePartition. destruct (partitionProcessors kit t partition ps) as [ps1 instances] eqn:H1.
  apply partitionProcessors_ok in H1 as (Ho1 & Hi & _ & _); [|done].
  destruct (restore_all _ _ _ _ _) as [r1 instances'] eqn:H2. intros [= _ <-].
  apply engine_ok_insert; [done|]. by eapply restore_all_reachable.
Qed.

Lemma ReleasePartition_ok partition ps : engine_ok kit t ps → engine_ok kit t (ReleasePartition partition ps).
Proof. intros Ho p m H. unfold ReleasePartition in H. apply lookup_delete_Some in H as [_ H]. eauto. Qed.

Lemma fold_left_preserves {A B} (P : B → Prop) (f : B → A → B) l b :
  (∀ b a, P b → P (f b a)) → P b → P (fold_left f l b).
Proof. intros Hf. revert b. induction l; cbn; auto. Qed.

Lemma restore_partition_ok partition epoch c :
  engine_ok kit t (cy_processors c) → engine_ok kit t (cy_processors (restore_partition kit t store partition epoch c)).
Proof.
  intros Ho. unfold restore_partition. destruct (Load _ _ _ _) as [[snaps|] w]; [|done]. cbn.
  destruct (RestorePartition _ _ _ _ _) eqn:Hr. by eapply RestorePartition_ok.
Qed.

Lemma save_partition_processors partition epoch c :
  cy_processors (save_partition kit t store partition epoch c) = cy_processors c.
Proof. unfold save_partition. by destruct (SnapshotPartition _ _ _ _). Qed.

Lemma on_rebalance_ok c event :
  engine_ok kit t (cy_processors c) → engine_ok kit t (cy_processors (on_rebalance kit t store c event)).
Proof.
  assert (∀ ps save c, engine_ok kit t (cy_processors c) → engine_ok kit t (cy_processors (release kit t store ps save c)))
    as Hrelease.
  { intros ps save c0 Ho. unfold release.
    apply (fold_left_preserves (λ c : cycle, engine_ok kit t (cy_processors c))); [|done].
    intros c1 p Hc. destruct (owns_logical _ _); [done|]. cbn. apply ReleasePartition_ok.
    destruct save; [by rewrite save_partition_processors|done]. }
  intros Ho. destruct event; cbn; [|by apply Hrelease..].
  unfold OnPartitionsAssigned. apply (fold_left_preserves (λ c : cycle, engine_ok kit t (cy_processors c))); [|done].
  intros c1 p Hc. destruct (owns_logical _ _); [done|]. by apply restore_partition_ok.
Qed.

Abbreviation polls := (poll kit t consumer store callbacks).

Lemma poll_ok pollTimeout c r c' :
  engine_ok kit t (cy_processors c) → polls pollTimeout c = (r, c') → engine_ok kit t (cy_processors c').
Proof.
  intros Ho. unfold poll. destruct (Poll _ _ _) as [r1 w]. destruct (callbacks w) as [events w1]. intros [= _ <-].
  apply (fold_left_preserves (λ c : cycle, engine_ok kit t (cy_processors c))); [|done].
  intros c1 e Hc. by apply on_rebalance_ok.
Qed.

(** ** The rest of a round leaves the processors alone *)

Definition keeps {A} (m : io cycle (runner_error E) A) : Prop := ∀ c r c',
  m c = (r, c') → cy_processors (proc := proc) (W := W) c' = cy_processors c.

Lemma keeps_ret {A} (a : A) : keeps (io_ret a).
Proof. by intros c r c' [= _ <-]. Qed.

Lemma keeps_call {A} (m : io W E A) : keeps (call m).
Proof. intros c r c'. unfold call. destruct (m _). by intros [= _ <-]. Qed.

Lemma keeps_bind {A B} m (k : A → io cycle (runner_error E) B) : keeps m → (∀ a, keeps (k a)) → keeps (io_bind m k).
Proof.
  intros Hm Hk c r c'. unfold io_bind. destruct (m c) as [[a|e] c1] eqn:H1.
  - intros H2. by rewrite (Hk a _ _ _ H2), (Hm _ _ _ H1).
  - intros [= _ <-]. by apply Hm in H1.
Qed.

Lemma keeps_save_each partitions epoch : keeps (save_each kit t store partitions epoch).
Proof.
  induction partitions as [|p partitions IH]; cbn; [apply keeps_ret|]. intros c r c'.
  destruct (SnapshotPartition _ _ _ _); [|by intros [= _ <-]].
  apply (keeps_bind (call _)); [apply keeps_call|done].
Qed.

Lemma keeps_save_barrier b : keeps (save_barrier kit t store b).
Proof. destruct b; [apply keeps_save_each|apply keeps_ret]. Qed.

Lemma keeps_commit commit offsets : keeps (commit_offsets commit offsets).
Proof. unfold commit_offsets. case_decide; [apply keeps_ret|apply keeps_call]. Qed.

Lemma keep_records_processors polled c kept c' :
  keep_records polled c = (kept, c') → cy_processors (proc := proc) (W := W) c' = cy_processors c.
Proof.
  unfold keep_records. destruct (cy_barrier c); [|by intros [= _ <-]].
  destruct (merge_held _ _). destruct (accept_each _ _). by intros [= _ <-].
Qed.

Abbreviation process := (processPoll kit t consumer store since callbacks retriable_error error_class error_message).

Lemma processPoll_inv policy pollTimeout c r c' :
  engine_ok kit t (cy_processors c) → process policy pollTimeout c = (r, c') →
  let ps0 := cy_processors (polls pollTimeout c).2 in
  match r with
  | Ok processed => engine_ok kit t ps0 ∧ round_inv ps0 (pp_prior processed) (cy_processors c')
  | Err e => e = InvalidPolicy ∧ c' = c ∨ cy_processors c' = ps0
  end.
Proof.
  intros Ho. unfold processPoll. destruct (validate policy); cbn [negb]; [|intros [= <- <-]; by left].
  unfold io_bind at 1. destruct (polls pollTimeout c) as [r1 c1] eqn:Hpoll. pose proof (poll_ok _ _ _ _ Ho Hpoll) as Ho1.
  destruct r1 as [polled|e]; [|intros [= <- <-]; by right]. cbn [snd].
  destruct (keep_records polled c1) as [kept c2] eqn:Hk. apply keep_records_processors in Hk.
  unfold io_bind. destruct (process_partitions _ _ _ _ _ _ _ _ _ _ _ _) as [r2 c3] eqn:Hp.
  rewrite <- Hk in Ho1. apply process_partitions_inv with (ps0 := cy_processors c2) in Hp; [|done| | |by apply round_inv_start].
  - destruct r2 as [[outs prior]|e]; cbn.
    + destruct (reach_barrier _ _). intros [= <- <-]. cbn. by rewrite <- Hk.
    + intros [= <- <-]. right. congruence.
  - unfold sorted_ints. rewrite merge_sort_Permutation. apply NoDup_remove_dups.
  - intros p _. apply lookup_empty.
Qed.

Lemma or_rollback_inv {A} ps0 processed (m : io cycle (runner_error E) A) c r c' :
  engine_ok kit t ps0 → round_inv ps0 (pp_prior processed) (cy_processors c) → keeps m →
  or_rollback kit t processed m c = (r, c') →
  match r with Ok _ => cy_processors c' = cy_processors c | Err _ => cy_processors c' = ps0 end.
Proof.
  intros Ho Hi Hm. unfold or_rollback. destruct (m c) as [[a|e] c1] eqn:H1; intros [= <- <-].
  - by apply Hm in H1.
  - cbn. apply Hm in H1. rewrite H1. by apply rollback_exact.
Qed.

(** What a round in a transaction does between the begin and the end of it. *)
Definition within_transaction tx policy pollTimeout : io cycle (runner_error E) processedPoll :=
  io_bind (process policy pollTimeout) (λ processed,
  io_bind (or_rollback kit t processed
    (io_bind (call (SendAll (tx_producer tx) (pp_outputs processed))) (λ _,
     io_bind (save_barrier kit t store (pp_barrier processed)) (λ _,
     io_bind (commit_offsets (SendOffsets tx) (pp_offsets processed)) (λ _,
     call (CommitTransaction tx)))))) (λ _, io_ret processed)).

(** [c1] failed with [e1], the transaction was aborted there, and [e] reports both. *)
Definition aborted tx (e1 : runner_error E) (c1 : cycle) (e : runner_error E) (c' : cycle (W := W) (proc := proc)) : Prop :=
  c' = set_world c1 (AbortTransaction tx (cy_world c1)).2 ∧
  e = match (AbortTransaction tx (cy_world c1)).1 with Ok _ => e1 | Err a => Joined e1 a end.

Lemma or_abort_exact {A} tx (m : io cycle (runner_error E) A) c r c' :
  or_abort tx m c = (r, c') →
  match r with
  | Ok a => m c = (Ok a, c')
  | Err e => ∃ e1 c1, m c = (Err e1, c1) ∧ aborted tx e1 c1 e c'
  end.
Proof.
  unfold or_abort, aborted. destruct (m c) as [[a|e] c1] eqn:H1; [by intros [= <- <-]|].
  destruct (AbortTransaction tx _) as [r2 w] eqn:Ha. intros [= <- <-]. exists e, c1. by rewrite Ha.
Qed.

Lemma delivery_keeps tx processed :
  keeps (io_bind (call (SendAll (tx_producer tx) (pp_outputs processed))) (λ _,
     io_bind (save_barrier kit t store (pp_barrier processed)) (λ _,
     io_bind (commit_offsets (SendOffsets tx) (pp_offsets processed)) (λ _,
     call (CommitTransaction tx))))).
Proof.
  apply keeps_bind; [apply keeps_call|]. intros _. apply keeps_bind; [apply keeps_save_barrier|].
  intros _. apply keeps_bind; [apply keeps_commit|]. intros _. apply keeps_call.
Qed.

Lemma within_transaction_fails tx policy pollTimeout c e c' :
  engine_ok kit t (cy_processors c) → within_transaction tx policy pollTimeout c = (Err e, c') →
  e = InvalidPolicy ∧ c' = c ∨ cy_processors c' = cy_processors (polls pollTimeout c).2.
Proof.
  intros Ho. unfold within_transaction, io_bind at 1.
  destruct (processPoll _ _ _ _ _ _ _ _ _ _ _ c) as [r1 c1] eqn:Hp.
  pose proof (processPoll_inv _ _ _ _ _ Ho Hp) as Hinv. cbv zeta in Hinv.
  destruct r1 as [processed|e1]; [|by intros [= <- <-]]. destruct Hinv as [Ho1 Hinv].
  unfold io_bind at 1. destruct (or_rollback _ _ _ _ _) as [r2 c2] eqn:Hr.
  apply (or_rollback_inv _ _ _ _ _ _ Ho1 Hinv) in Hr; [|apply delivery_keeps].
  destruct r2; [done|]. intros [= <- <-]. by right.
Qed.

(** C3: a failed round leaves no trace in the processors. Whatever fails after the poll (a batch, a
    retriable error, a send, a snapshot, a save, the commit) and however far the partitions of the round
    got, each of them is back in the exact state it had when the poll returned, and no partition gained or
    lost its processors. A round in a transaction does the same and is aborted: whatever fails once the
    transaction has begun, the transaction included, AbortTransaction is called in the state that the
    failure left, exactly once and last, and its own error is joined to the round's. The failures before
    the poll are an invalid policy, which changes nothing (but the aborted transaction), and a transaction
    that cannot begin, which touches neither the processors nor any other state of the cycle. *)
Theorem failed_round_rolls_back policy pollTimeout listener tx c :
  engine_ok kit t (cy_processors c) →
  (∀ e c', runGroupOnce kit t consumer producer store since callbacks retriable_error error_class error_message
      policy pollTimeout listener c = (Err e, c') →
    e = InvalidPolicy ∧ c' = c ∨ cy_processors c' = cy_processors (polls pollTimeout c).2) ∧
  (∀ e c', runGroupOnceTransactional kit t consumer store since callbacks retriable_error error_class error_message
      tx policy pollTimeout listener c = (Err e, c') →
    (∃ eb w, BeginTransaction tx (cy_world c) = (Err eb, w) ∧ e = CallError eb ∧ c' = set_world c w) ∨
    ∃ w e1 c1, BeginTransaction tx (cy_world c) = (Ok tt, w) ∧
      within_transaction tx policy pollTimeout (set_world c w) = (Err e1, c1) ∧ aborted tx e1 c1 e c' ∧
      (e1 = InvalidPolicy ∧ c1 = set_world c w ∨
       cy_processors c' = cy_processors (polls pollTimeout (set_world c w)).2)).
Proof.
  intros Ho. split; intros e c'.
  - unfold runGroupOnce, io_bind at 1. destruct (processPoll _ _ _ _ _ _ _ _ _ _ _ c) as [r1 c1] eqn:Hp.
    pose proof (processPoll_inv _ _ _ _ _ Ho Hp) as Hinv. cbv zeta in Hinv. destruct r1 as [processed|e1]; [|by intros [= <- <-]].
    destruct Hinv as [Ho1 Hinv]. unfold io_bind at 1. destruct (or_rollback _ _ _ _ _) as [r2 c2] eqn:Hr.
    apply (or_rollback_inv _ _ _ _ _ _ Ho1 Hinv) in Hr; [destruct r2; [done|intros [= <- <-]; by right]|].
    apply keeps_bind; [apply keeps_call|]. intros _. apply keeps_bind; [apply keeps_save_barrier|].
    intros _. apply keeps_commit.
  - unfold runGroupOnceTransactional, io_bind at 1. unfold call at 1.
    destruct (BeginTransaction tx (cy_world c)) as [rb w] eqn:Hb. destruct rb as [[]|eb]; cbn [rmap_err];
      [|intros [= <- <-]; left; eauto].
    intros Hrun. right. exists w.
    cut (∃ e1 c1, within_transaction tx policy pollTimeout (set_world c w) = (Err e1, c1) ∧ aborted tx e1 c1 e c').
    { intros (e1 & c1 & Hw & Habort). exists e1, c1. split_and!; try done.
      destruct (within_transaction_fails _ _ _ (set_world c w) _ _ Ho Hw) as [?|Hproc]; [by left|right].
      destruct Habort as [-> _]. exact Hproc. }
    revert Hrun. unfold within_transaction, io_bind at 1.
    destruct (or_abort tx (processPoll _ _ _ _ _ _ _ _ _ _ _) _) as [r1 c1] eqn:Ha. apply or_abort_exact in Ha.
    destruct r1 as [processed|e1].
    2:{ intros [= <- <-]. destruct Ha as (e2 & c2 & Hp & Habort). exists e2, c2. unfold io_bind at 1. by rewrite Hp. }
    unfold io_bind at 1. destruct (or_abort tx (or_rollback _ _ _ _) _) as [r2 c2] eqn:Ha2. apply or_abort_exact in Ha2.
    destruct r2; [done|]. intros [= <- <-]. destruct Ha2 as (e2 & c3 & Hp & Habort). exists e2, c3.
    unfold io_bind at 1. rewrite Ha. unfold io_bind at 1. by rewrite Hp.
Qed.

(** ** What the policy makes of each batch *)

Abbreviation run := (RunPartitionBatches kit t).

(** What became of the batch of one partition: [made] are the records it added to the outputs, [ps0] and
    [final] the engine before and after the round. *)
Definition batch_outcome (policy : ErrorPolicy) (ps0 final : processors proc) (input : inputs) (p : Z)
    (made : list ProducedToTopic) : Prop :=
  ∃ ps w r ps' w', ps !! p = ps0 !! p ∧ run p input (ps, w) = (r, (ps', w')) ∧
  match r with
  | Ok out => made = out ∧ final !! p = ps' !! p
  | Err e => retriable retriable_error e = false ∧ final !! p = ps0 !! p ∧
      match policy_Action policy with
      | ActionFail => False
      | ActionSkip => made = []
      | ActionDeadLetter => made = dead_letters error_class error_message (policy_DeadLetterTopic policy) input e
      end
  end.

Lemma process_partitions_outcomes policy by_p partitions ps0 outputs prior c outs prior' c' :
  NoDup partitions → (∀ p, p ∈ partitions → prior !! p = None) → round_inv ps0 prior (cy_processors c) →
  process_loop policy by_p partitions outputs prior c = (Ok (outs, prior'), c') →
  (∀ q, q ∉ partitions → cy_processors c' !! q = cy_processors c !! q) ∧
  ∃ per, outs = outputs ++ concat per ∧
    Forall2 (λ p made, batch_outcome policy ps0 (cy_processors c') (default ∅ (by_p !! p)) p made) partitions per.
Proof.
  revert outputs prior c. induction partitions as [|p partitions IH]; intros outputs prior c Hn Hnew Hi; cbn.
  - intros [= <- <- <-]. split; [done|]. exists []. cbn. by rewrite app_nil_r.
  - apply NoDup_cons in Hn as [Hp Hn]. pose proof (Hnew p (list_elem_of_here _ _)) as Hnone.
    destruct (priorStateOf kit t p (cy_processors c)) as [before|e] eqn:Hb; [|done].
    destruct (RunPartitionBatches _ _ _ _ _) as [r1 [ps w]] eqn:Hrun.
    destruct (round_inv_batch _ _ _ _ _ _ _ _ _ _ Hi Hnone Hb Hrun) as [Hi' Hback].
    destruct (sound_runPartition kit t p _ Hgraph _ _ _ _ _ (round_inv_same_world _ _ _ Hi) Hrun) as (_ & Hother & _).
    assert (cy_processors c !! p = ps0 !! p) as Hstart by (by apply Hi).
    destruct r1 as [out|e]; cbn.
    + destruct (since w) as [nanos w']. intros Hrest.
      apply IH in Hrest as (Hq & per & -> & Hper); [|done| |done].
      2:{ intros q Hq. rewrite lookup_insert_ne; [by apply Hnew, list_elem_of_further|congruence]. }
      cbn in Hq. split.
      * intros q [Hne Hq']%not_elem_of_cons. by rewrite Hq, Hother.
      * exists (out :: per). rewrite <- (assoc_L (++)). split; [done|]. constructor; [|done].
        exists (cy_processors c), (cy_world c), (Ok out), ps, w. split_and!; try done. by apply Hq.
    + rewrite Hback. destruct (_ || _) eqn:Hor; [done|]. apply orb_false_iff in Hor as [Ha Hre].
      apply bool_decide_eq_false in Ha. destruct (since w) as [nanos w']. intros Hrest.
      apply IH in Hrest as (Hq & per & -> & Hper); [|done| |done].
      2:{ intros q Hq. by apply Hnew, list_elem_of_further. }
      cbn in Hq. split.
      * intros q [Hne Hq']%not_elem_of_cons. by rewrite Hq.
      * eexists (_ :: per). rewrite <- (assoc_L (++)). split; [done|]. constructor; [|done].
        exists (cy_processors c), (cy_world c), (Err e), ps, w. split_and!; try done.
        -- by rewrite Hq.
        -- by destruct (policy_Action policy).
Qed.

Lemma by_partition_fold (kept : list (TopicPartition * list ConsumedRecord)) (m : gmap Z inputs) p topic :
  NoDup (map fst kept) →
  records_of (default ∅ (fold_left (λ m p, <[tp_Partition p.1 := <[tp_Topic p.1 := p.2]>
    (default ∅ (m !! tp_Partition p.1))]> m) kept m !! p)) topic =
  match (list_to_map kept : gmap TopicPartition _) !! MkTP topic p with
  | Some records => records
  | None => records_of (default ∅ (m !! p)) topic
  end.
Proof.
  revert m. induction kept as [|[[topic' p'] records] kept IH]; intros m; cbn; [done|].
  intros [Hni Hn]%NoDup_cons. rewrite IH by done.
  destruct (decide (MkTP topic' p' = MkTP topic p)) as [[= -> ->]|Hne].
  - rewrite lookup_insert_eq. rewrite not_elem_of_list_to_map_1 by done. rewrite lookup_insert_eq. cbn.
    unfold records_of. by rewrite lookup_insert_eq.
  - rewrite (lookup_insert_ne _ (MkTP topic' p')) by done. destruct (list_to_map kept !! MkTP topic p); [done|].
    destruct (decide (p' = p)) as [->|]; [|by rewrite lookup_insert_ne].
    rewrite lookup_insert_eq. cbn. unfold records_of. rewrite lookup_insert_ne; [done|]. congruence.
Qed.

Lemma by_partition_records kept tp records :
  NoDup (map fst kept) → (tp, records) ∈ kept →
  records_of (default ∅ (by_partition kept !! tp_Partition tp)) (tp_Topic tp) = records.
Proof.
  intros Hn Hin. unfold by_partition. rewrite by_partition_fold by done. destruct tp. cbn.
  by rewrite (elem_of_list_to_map_1 kept _ records Hn Hin).
Qed.

(** C25: no batch is lost in silence. In a round that succeeds, the outputs are, for the partitions in
    ascending order, what each one's batch made; the batch ran on the processors that the partition had
    after the poll, over exactly the records kept for it; it succeeded, and its processors are the ones it
    left; or it failed with an error that no retry mends, its processors are as before, and its records are
    dropped by the policy that skips or dead-lettered one by one by the policy that forwards. The policy
    that fails lets no failed batch through. *)
Theorem policy_decides policy pollTimeout c processed c' :
  engine_ok kit t (cy_processors c) → process policy pollTimeout c = (Ok processed, c') →
  ∃ polled c1 kept c2 per,
    polls pollTimeout c = (Ok polled, c1) ∧ keep_records polled c1 = (kept, c2) ∧
    pp_outputs processed = concat per ∧
    Forall2 (λ p made, batch_outcome policy (cy_processors c1) (cy_processors c')
               (default ∅ (by_partition kept !! p)) p made)
      (sorted_ints (map (λ p, tp_Partition p.1) kept)) per ∧
    ∀ tp records, NoDup (map fst kept) → (tp, records) ∈ kept →
      tp_Partition tp ∈ sorted_ints (map (λ p, tp_Partition p.1) kept) ∧
      records_of (default ∅ (by_partition kept !! tp_Partition tp)) (tp_Topic tp) = records.
Proof.
  intros Ho. unfold processPoll. destruct (validate policy); cbn [negb]; [|done].
  unfold io_bind at 1. destruct (polls pollTimeout c) as [r1 c1] eqn:Hpoll. pose proof (poll_ok _ _ _ _ Ho Hpoll) as Ho1.
  destruct r1 as [polled|e]; [|done]. destruct (keep_records polled c1) as [kept c2] eqn:Hk.
  pose proof (keep_records_processors _ _ _ _ Hk) as Hpk.
  unfold io_bind. destruct (process_partitions _ _ _ _ _ _ _ _ _ _ _ _) as [r2 c3] eqn:Hp.
  destruct r2 as [[outs prior]|e]; [|done]. destruct (reach_barrier _ _) as [offsets b]. intros [= <- <-].
  apply process_partitions_outcomes with (ps0 := cy_processors c1) in Hp as (_ & per & Houts & Hper).
  - exists polled, c1, kept, c2, per. cbn in Houts. split_and!; try done. intros tp records Hn Hin. split.
    + unfold sorted_ints. rewrite merge_sort_Permutation. apply elem_of_remove_dups.
      change (map ?f ?l) with (f <$> l). apply list_elem_of_fmap. by exists (tp, records).
    + by apply by_partition_records.
  - unfold sorted_ints. rewrite merge_sort_Permutation. apply NoDup_remove_dups.
  - intros p _. apply lookup_empty.
  - rewrite Hpk. by apply round_inv_start.
Qed.
End Rollback.

(** ** Concrete rounds *)

Lemma demo_names : NoDup (map nd_name (top_nodes demo_graph)).
Proof. by_decide. Qed.

(** The broker refuses the sends of a round that counted two records in partition 0. *)
Definition demo_refused := demo_round FailPolicy (demo_cycle demo_engine (demo_broker 1)).

Lemma demo_refused_err : demo_refused.1 = Err (CallError tt).
Proof. vm_compute. reflexivity. Qed.

Lemma failed_round_rolls_back_witness :
  br_position (cy_world demo_refused.2) = 2 ∧ cy_processors demo_refused.2 = demo_engine.
Proof.
  split; [vm_compute; reflexivity|].
  destruct (failed_round_rolls_back (demo_kit broker) demo_graph demo_consumer demo_producer NoStateStore no_time
    no_callbacks (λ _, false) (λ _, []) (λ _, []) demo_graph_ok demo_names FailPolicy 0 None demo_tx
    (demo_cycle demo_engine (demo_broker 1)) (demo_engine_ok broker)) as [H _].
  destruct (H (CallError tt) demo_refused.2) as [[? _]| ->]; [|discriminate|reflexivity].
  rewrite <- demo_refused_err. unfold demo_refused, demo_round. by destruct (runGroupOnce _ _ _ _ _ _ _ _ _ _ _ _ _ _).
Defined.

Definition demo_processed := processPoll (demo_kit broker) demo_graph demo_consumer NoStateStore no_time no_callbacks
  (λ _, false) (λ _, []) (λ _, []) FailPolicy 0 (demo_cycle demo_engine (demo_broker 0)).

Lemma policy_decides_witness :
  ∃ processed c' per, demo_processed = (Ok processed, c') ∧ length (pp_outputs processed) = 3%nat ∧
    pp_outputs processed = concat per ∧ length per = 1%nat.
Proof.
  destruct demo_processed as [[processed|e] c'] eqn:Hp.
  - destruct (policy_decides (demo_kit broker) demo_graph demo_consumer NoStateStore no_time no_callbacks
      (λ _, false) (λ _, []) (λ _, []) demo_graph_ok demo_names FailPolicy 0 (demo_cycle demo_engine (demo_broker 0)) processed c' (demo_engine_ok broker) Hp)
      as (polled & c1 & kept & c2 & per & Hpoll & Hk & Ho & Hf & _).
    exists processed, c', per. split; [done|]. split; [|split; [exact Ho|]].
    + assert (match demo_processed.1 with Ok p => length (pp_outputs p) | Err _ => O end = 3%nat) as H
        by (vm_compute; reflexivity). by rewrite Hp in H.
    + apply Forall2_length in Hf. rewrite <- Hf.
      assert (polled = [(demo_tp, br_fetch (demo_broker 0))]) as -> by (by injection Hpoll as <- _).
      injection Hpoll as <-. injection Hk as <- _. vm_compute. reflexivity.
  - exfalso. assert (is_ok demo_processed.1 = true) as H by (vm_compute; reflexivity). by rewrite Hp in H.
Defined.
