(* ===== verification/Delivery.v ===== *)
(** * Offsets move after the outputs are delivered

    The order of the effects of a round of columnar/runner.go, against a broker that keeps a ledger of the
    committed offsets and of the acknowledged records; the one-partition cycle; and what a failed round
    means for a consumer that does not rewind. *)

From S2P Require Import Prelude GoStd Kafka Barrier Aligner Store Topology Built Runner Rollback.

Section Delivery.
Context {W E frame codec factory proc : Type}.
Context (kit : Kit W E frame codec factory proc) (t : Topology codec factory).
Context (consumer : Consumer W E) (producer : Producer W E) (store : StateStore W E).
Context (since : W → Z * W) (callbacks : W → list rebalance * W).
Context (retriable_error : E → bool) (error_class error_message : run_error E → bytes).

(** What the broker has: the committed offsets of the group, and the records it acknowledged. *)
Context (committed : W → gmap TopicPartition Z) (delivered : W → list ProducedToTopic).

(** A change of the world that commits nothing and forgets nothing. *)
Definition still (w w' : W) : Prop := committed w' = committed w ∧ ∀ o, o ∈ delivered w → o ∈ delivered w'.

#[export] Instance still_preorder : PreOrder still.
Proof.
  split; [by intros w|]. intros w1 w2 w3 [H1 H2] [H3 H4]. split; [congruence|auto].
Qed.

Definition quiet {A} (m : io W E A) : Prop := ∀ w r w', m w = (r, w') → still w w'.

(** The documented behaviour of the clients: only a commit moves the committed offsets, by its own offsets
    or (when it fails) perhaps not at all; acknowledged records stay, and a send whose acknowledgements are
    all successes delivered its records. *)
Class Ledger : Prop := {
  ledger_poll : ∀ timeout, quiet (Poll consumer timeout);
  ledger_decode : ∀ c topic records, quiet (Decode kit c topic records);
  ledger_encode : ∀ c topic batch, quiet (Encode kit c topic batch);
  ledger_load : ∀ p e, quiet (Load store p e);
  ledger_save : ∀ p e m, quiet (Save store p e m);
  ledger_since : ∀ w, still w (since w).2;
  ledger_callbacks : ∀ w, still w (callbacks w).2;
  ledger_commit : ∀ offsets w r w', CommitOffsets consumer offsets w = (r, w') →
    (∀ o, o ∈ delivered w → o ∈ delivered w') ∧
    (committed w' = offsets ∪ committed w ∨ is_ok r = false ∧ committed w' = committed w);
  ledger_acks : ∀ outputs w acks w',
    Acks producer (length outputs) (fold_left (λ w o, Dispatch producer o w) outputs w) = (acks, w') →
    still w w' ∧ (omap id acks = [] → ∀ o, o ∈ outputs → o ∈ delivered w')
}.

Context `{!Ledger}.

Definition quiet_engine {A} (m : io (processors proc * W) (run_error E) A) : Prop := ∀ ps x r ps' x',
  m (ps, x) = (r, (ps', x')) → still x x'.

Definition quiet_cycle {A} (m : io cycle (runner_error E) A) : Prop := ∀ c r c',
  m c = (r, c') → still (cy_world (proc := proc) c) (cy_world c').

(** ** A run of the topology is quiet *)

Lemma quiet_engine_ret {A} (a : A) : quiet_engine (io_ret a).
Proof. by intros ps x r ps' x' [= _ _ <-]. Qed.

Lemma quiet_engine_bind {A B} m (k : A → io (processors proc * W) (run_error E) B) :
  quiet_engine m → (∀ a, quiet_engine (k a)) → quiet_engine (io_bind m k).
Proof.
  intros Hm Hk ps x r ps' x'. unfold io_bind. destruct (m (ps, x)) as [[a|e] [ps1 x1]] eqn:H1.
  - intros H2. etrans; [by eapply Hm|by eapply Hk].
  - intros [= _ _ <-]. by eapply Hm.
Qed.

Lemma quiet_lift_kit {A} (m : io W E A) : quiet m → quiet_engine (lift_kit m).
Proof. intros Hm ps x r ps' x'. unfold lift_kit. destruct (m x) eqn:H1. intros [= _ _ <-]. by eapply Hm. Qed.

Lemma quiet_on_processor {A} p i (m : io proc E A) : quiet_engine (on_processor kit t p i m).
Proof.
  intros ps x r ps' x'. unfold on_processor. destruct (partitionProcessors _ _ _ _) as [ps1 m1].
  destruct (m1 !! i) as [pr|]; [destruct (m pr)|]; by intros [= _ _ <-].
Qed.

Lemma quiet_run_node p input i node fs : quiet_engine (run_node kit t p input i node fs).
Proof.
  assert (∀ topics, quiet_engine (decode_topics kit node input topics)) as Hdecode.
  { induction topics as [|topic topics IH]; cbn; [apply quiet_engine_ret|]. destruct (_ && _); [|done].
    destruct (nd_sourceCodec node); [|by intros ps x r ps' x' [= _ _ <-]].
    apply quiet_engine_bind; [apply quiet_lift_kit, ledger_decode|]. intros. apply quiet_engine_bind; [done|].
    intros. apply quiet_engine_ret. }
  assert (∀ c topic batches, quiet_engine (encode_each kit c topic batches)) as Hencode.
  { intros c topic. induction batches as [|batch batches IH]; cbn; [apply quiet_engine_ret|].
    apply quiet_engine_bind; [apply quiet_lift_kit, ledger_encode|]. intros. apply quiet_engine_bind; [done|].
    intros. apply quiet_engine_ret. }
  assert (∀ A, quiet_engine (panic (A := A))) as Hpanic by (by intros A ps x r ps' x' [= _ _ <-]).
  unfold run_node. destruct (nd_kind node), (nd_parents node) as [|p1 [|p2 ps]];
    try apply Hpanic; try (destruct (nd_sinkCodec node); [|destruct (top_nodes t !! _)]);
    try apply Hpanic; try apply quiet_engine_ret;
    apply quiet_engine_bind; try (intros; apply quiet_engine_ret); try apply quiet_on_processor; try apply Hencode.
  1-3: destruct (needs_decoded_frame _ _); [apply Hdecode|apply quiet_engine_ret].
  1-2: unfold runOperator; destruct (frames_at _ _); [by intros ? ? ? ? ? [= _ _ <-]|apply quiet_on_processor].
  all: by intros ? ? ? ? ? [= _ _ <-].
Qed.

Lemma quiet_runPartition p input : quiet_engine (runPartition kit t p input).
Proof.
  unfold runPartition. destruct (negb _); [by intros ? ? ? ? ? [= _ _ <-]|].
  generalize (∅ : frames frame) 0%nat. induction (top_nodes t) as [|node nodes IH]; intros fs i; cbn;
    [apply quiet_engine_ret|].
  apply quiet_engine_bind; [apply quiet_run_node|]. intros q. apply quiet_engine_bind; [done|].
  intros. apply quiet_engine_ret.
Qed.

(** ** A poll and its processing are quiet *)

Lemma quiet_fold {A} (f : cycle (proc := proc) → A → cycle) l c :
  (∀ c a, still (cy_world c) (cy_world (f c a))) → still (cy_world c) (cy_world (fold_left f l c)).
Proof. intros Hf. revert c. induction l as [|a l IH]; intros c; cbn; [done|]. etrans; [apply Hf|apply IH]. Qed.

Lemma quiet_rebalance c event : still (cy_world c) (cy_world (on_rebalance kit t store c event)).
Proof.
  assert (∀ ps save c, still (cy_world c) (cy_world (release kit t store ps save c))) as Hrelease.
  { intros ps save c0. unfold release. etrans; [|apply quiet_fold]; [done|]. intros c1 p.
    destruct (owns_logical _ _); [done|]. destruct save; [|done]. cbn. unfold save_partition.
    destruct (SnapshotPartition _ _ _ _); [|done]. cbn. destruct (Save _ _ _ _ _) eqn:Hs. by eapply ledger_save. }
  destruct event; cbn; [|apply Hrelease..].
  unfold OnPartitionsAssigned. etrans; [|apply quiet_fold]; [done|]. intros c1 p.
  destruct (owns_logical _ _); [done|]. unfold restore_partition.
  destruct (Load _ _ _ _) as [[snaps|] w] eqn:Hl; cbn; by eapply ledger_load.
Qed.

Lemma quiet_poll timeout : quiet_cycle (poll kit t consumer store callbacks timeout).
Proof.
  intros c r c'. unfold poll. destruct (Poll _ _ _) as [r1 w1] eqn:Hp. apply ledger_poll in Hp.
  pose proof (ledger_callbacks w1) as Hc. destruct (callbacks w1) as [events w2]. intros [= _ <-].
  etrans; [exact Hp|]. etrans; [exact Hc|]. apply (quiet_fold _ _ (set_world c w2)). intros; apply quiet_rebalance.
Qed.

Lemma quiet_process_partitions policy by_p partitions outputs prior :
  quiet_cycle (process_partitions kit t since retriable_error error_class error_message policy by_p partitions outputs prior).
Proof.
  revert outputs prior. induction partitions as [|p partitions IH]; intros outputs prior c r c'; cbn; [by intros [= _ <-]|].
  destruct (priorStateOf _ _ _ _); [|by intros [= _ <-]].
  destruct (RunPartitionBatches _ _ _ _ _) as [r1 [ps w]] eqn:Hr. apply quiet_runPartition in Hr.
  pose proof (ledger_since w) as Hs. destruct r1; cbn; [|destruct (_ || _)].
  - destruct (since w) as [nanos w']. intros Hrest%IH. etrans; [exact Hr|]. by etrans.
  - by intros [= _ <-].
  - destruct (since w) as [nanos w']. intros Hrest%IH. etrans; [exact Hr|]. by etrans.
Qed.

Abbreviation process := (processPoll kit t consumer store since callbacks retriable_error error_class error_message).

Lemma quiet_processPoll policy timeout : quiet_cycle (process policy timeout).
Proof.
  intros c r c'. unfold processPoll. destruct (negb _); [by intros [= _ <-]|]. unfold io_bind at 1.
  destruct (poll _ _ _ _ _ _ c) as [r1 c1] eqn:Hp. apply quiet_poll in Hp. destruct r1; [|by intros [= _ <-]].
  destruct (keep_records _ c1) as [kept c2] eqn:Hk. assert (cy_world c2 = cy_world c1) as Hw.
  { unfold keep_records in Hk. destruct (cy_barrier c1); [|by injection Hk as _ <-].
    destruct (merge_held _ _), (accept_each _ _). by injection Hk as _ <-. }
  unfold io_bind. destruct (process_partitions _ _ _ _ _ _ _ _ _ _ _ c2) as [r2 c3] eqn:Hpp.
  apply quiet_process_partitions in Hpp. rewrite Hw in Hpp.
  destruct r2 as [[? ?]|]; [|intros [= _ <-]; by etrans]. destruct (reach_barrier _ _). intros [= _ <-]. by etrans.
Qed.

Lemma quiet_save_barrier b : quiet_cycle (save_barrier kit t store b).
Proof.
  destruct b as [b|]; cbn; [|by intros c r c' [= _ <-]].
  generalize (bar_Partitions b) as l. induction l as [|p l IH]; intros c r c'; cbn; [by intros [= _ <-]|].
  destruct (SnapshotPartition _ _ _ _); [|by intros [= _ <-]]. unfold io_bind, call.
  destruct (Save _ _ _ _ _) as [r1 w] eqn:Hs. apply ledger_save in Hs. destruct r1; cbn; [|by intros [= _ <-]].
  intros Hrest%IH. by etrans.
Qed.

(** ** The round *)

Lemma SendAll_delivers outputs w r w' :
  SendAll producer outputs w = (r, w') →
  still w w' ∧ (is_ok r = true → ∀ o, o ∈ outputs → o ∈ delivered w').
Proof.
  unfold SendAll. destruct (Acks _ _ _) as [acks w1] eqn:Ha. apply ledger_acks in Ha as [Hs Hd].
  destruct (omap id acks); intros [= <- <-]; [auto|done].
Qed.

(** C5: offsets move only after the outputs are delivered, and saved. Whatever a round returns, and
    whatever the clients answer, the committed offsets are what they were, unless every partition of the poll
    was processed, the broker acknowledged every record that this produced, and the snapshots of a barrier
    were saved; then they are advanced by exactly the offsets of the round. A round that returns without an
    error did advance them. *)
Theorem commit_after_delivery policy timeout listener c r c' :
  (∀ b w, match listener with Some listener => still w (listener b w) | None => True end) →
  runGroupOnce kit t consumer producer store since callbacks retriable_error error_class error_message
    policy timeout listener c = (r, c') →
  is_ok r = false ∧ committed (cy_world c') = committed (cy_world c) ∨
  ∃ processed c1 c2 c3, process policy timeout c = (Ok processed, c1) ∧
    call (SendAll producer (pp_outputs processed)) c1 = (Ok tt, c2) ∧
    save_barrier kit t store (pp_barrier processed) c2 = (Ok tt, c3) ∧
    (∀ o, o ∈ pp_outputs processed → o ∈ delivered (cy_world c')) ∧
    committed (cy_world c') = pp_offsets processed ∪ committed (cy_world c) ∧
    (is_ok r = true → r = Ok (pp_offsets processed)).
Proof.
  intros Hlistener. unfold runGroupOnce, io_bind at 1.
  destruct (processPoll _ _ _ _ _ _ _ _ _ _ _ c) as [r1 c1] eqn:Hp. pose proof (quiet_processPoll _ _ _ _ _ Hp) as [Hc1 _].
  destruct r1 as [processed|e]; [|intros [= <- <-]; by left]. unfold io_bind at 1.
  destruct (or_rollback _ _ _ _ _) as [r2 c5] eqn:Hr. unfold or_rollback, io_bind in Hr.
  destruct (call _ c1) as [r3 c2] eqn:Hs.
  assert (still (cy_world c1) (cy_world c2) ∧ (is_ok r3 = true → ∀ o, o ∈ pp_outputs processed → o ∈ delivered (cy_world c2)))
    as [[Hc2 _] Hsent].
  { unfold call in Hs. destruct (SendAll _ _ _) as [rs ws] eqn:Hsa. injection Hs as <- <-. cbn.
    apply SendAll_delivers in Hsa as [? Hd]. split; [done|]. intros Hok. apply Hd. by destruct rs. }
  destruct r3 as [[]|e3]; [|injection Hr as <- <-; intros [= <- <-]; left; cbn; split; [done|congruence]].
  destruct (save_barrier _ _ _ _ c2) as [r4 c3] eqn:Hsave. pose proof (quiet_save_barrier _ _ _ _ Hsave) as [Hc3 Hd3].
  destruct r4 as [[]|e4]; [|injection Hr as <- <-; intros [= <- <-]; left; cbn; split; [done|congruence]].
  destruct (commit_offsets _ _ c3) as [r5 c4] eqn:Hcommit.
  assert ((∀ o, o ∈ delivered (cy_world c3) → o ∈ delivered (cy_world c4)) ∧
    (committed (cy_world c4) = pp_offsets processed ∪ committed (cy_world c3) ∨
     is_ok r5 = false ∧ committed (cy_world c4) = committed (cy_world c3))) as [Hd4 Hc4].
  { unfold commit_offsets in Hcommit. case_decide as Hempty.
    - injection Hcommit as _ <-. rewrite Hempty, (left_id_L ∅ (∪)). auto.
    - unfold call in Hcommit. destruct (CommitOffsets _ _ _) as [rc wc] eqn:Hco. injection Hcommit as <- <-. cbn.
      apply ledger_commit in Hco as [Hd Hor]. split; [done|]. destruct rc; [|naive_solver]. naive_solver. }
  destruct r5 as [[]|e5]; injection Hr as <- <-.
  - intros [= <- <-]. right. exists processed, c1, c2, c3.
    assert (still (cy_world c4) (cy_world (finish_barrier listener (pp_barrier processed) c4))) as [Hf Hfd].
    { unfold finish_barrier. destruct (pp_barrier processed) as [b|], (cy_barrier c4); try done.
      specialize (Hlistener b (cy_world c4)). by destruct listener. }
    split_and!; try done.
    + intros o Ho. apply Hfd, Hd4, Hd3. by apply Hsent.
    + rewrite Hf. destruct Hc4 as [->|[? _]]; [|done]. by rewrite Hc3, Hc2, Hc1.
  - intros [= <- <-]. cbn. destruct Hc4 as [Hc4|[_ Hc4]]; [right|left; split; [done|congruence]].
    exists processed, c1, c2, c3. split_and!; try done.
    + intros o Ho. apply Hd4, Hd3. by apply Hsent.
    + by rewrite Hc4, Hc3, Hc2, Hc1.
Qed.

(** ** One partition *)

Lemma next_offset_fold records offset :
  let next := fold_left (λ next record, Z.max next (con_Offset record + 1)) records offset in
  offset ≤ next ∧ Forall (λ record, con_Offset record < next) records ∧
  (next = offset ∨ ∃ record, record ∈ records ∧ next = con_Offset record + 1).
Proof.
  revert offset. induction records as [|record records IH]; intros offset; cbn; [split; [lia|auto]|].
  destruct (IH (Z.max offset (con_Offset record + 1))) as (H1 & H2 & H3). cbv zeta in *. split_and!.
  - lia.
  - constructor; [lia|done].
  - destruct H3 as [H3|(x & Hx & Heq)]; [|right; exists x; split; [by apply list_elem_of_further|done]].
    destruct (Z.max_spec offset (con_Offset record + 1)) as [[_ Hm]|[_ Hm]]; [right|left; lia].
    exists record. split; [apply list_elem_of_here|lia].
Qed.

(** The one-partition cycle is all or nothing. When it fails, at any call, the processors are as before.
    When it returns an offset, either the poll had no record, the offset is the given one and nothing ran;
    or the batch ran on the processors as they were over exactly the fetched records, its processors
    stay, and the offset is the least one above the given offset or any fetched record. *)
Theorem RunPartitionOnce_atomic topic partition offset timeout ps w r ps' w' :
  topology_ok t → NoDup (map nd_name (top_nodes t)) → ProcessorLaws kit → engine_ok kit t ps →
  RunPartitionOnce kit t consumer producer topic partition offset timeout (ps, w) = (r, (ps', w')) →
  match r with
  | Err _ => ps' = ps
  | Ok next => ∃ polled, let records := normalizeRecords (records_at (MkTP topic partition) polled) in
      records = [] ∧ next = offset ∧ ps' = ps ∨
      records ≠ [] ∧ (∃ w1 out w2,
        RunPartitionBatches kit t partition {[topic := records]} (ps, w1) = (Ok out, (ps', w2))) ∧
      offset ≤ next ∧ Forall (λ record, con_Offset record < next) records ∧
      (next = offset ∨ ∃ record, record ∈ records ∧ next = con_Offset record + 1)
  end.
Proof.
  intros Hgraph Hnames Hlaws Ho. unfold RunPartitionOnce, io_bind at 1, on_world at 1.
  destruct (Assign _ _ w) as [[[]|] wa]; cbn [rmap_err]; [|by intros [= <- <- _]]. unfold io_bind at 1, on_world at 1.
  destruct (Seek _ _ _ wa) as [[[]|] ws]; cbn [rmap_err]; [|by intros [= <- <- _]]. unfold io_bind at 1, on_world at 1.
  destruct (Poll _ _ ws) as [[polled|] wp]; cbn [rmap_err]; [|by intros [= <- <- _]].
  set (records := normalizeRecords (records_at (MkTP topic partition) polled)).
  case_decide as Hempty; [intros [= <- <- _]; exists polled; by left|].
  destruct (priorStateOf kit t partition ps) as [prior|] eqn:Hprior; [|by intros [= <- <- _]].
  unfold or_restore, io_bind at 1, io_map_err.
  destruct (RunPartitionBatches _ _ _ _ _) as [r1 [ps1 w1]] eqn:Hrun.
  pose proof (round_inv_batch kit t Hgraph Hnames ps ∅ ps partition _ _ _ _ _ prior
    (round_inv_start kit t ps Ho) (lookup_empty _) Hprior Hrun) as [_ Hback].
  destruct r1 as [out|e]; cbn [rmap_err]; [|by intros [= <- <- _]].
  unfold io_bind, on_world. destruct (SendAll _ _ w1) as [[[]|] w2]; cbn [rmap_err]; [|by intros [= <- <- _]].
  destruct (CommitOffsets _ _ w2) as [[[]|] w3]; cbn [rmap_err]; [|by intros [= <- <- _]].
  intros [= <- <- _]. exists polled. right. split; [done|]. split; [eauto|]. apply next_offset_fold.
Qed.
End Delivery.

(** ** Concrete rounds *)

Lemma dispatch_all outputs b :
  fold_left (λ b o, Dispatch demo_producer o b) outputs b =
  br_set b (br_position b) (br_committed b) (br_pending b ++ outputs) (br_delivered b) (br_refusals b).
Proof.
  revert b. induction outputs as [|o outputs IH]; intros b; cbn; [by rewrite app_nil_r; destruct b|].
  rewrite IH. cbn. by rewrite <- (assoc_L (++)).
Qed.

#[export] Instance demo_ledger :
  Ledger (demo_kit broker) demo_consumer demo_producer NoStateStore no_time no_callbacks br_committed br_delivered.
Proof.
  split; try (by intros; intros w r w' [= _ <-]); try done.
  - intros offsets w r w' [= <- <-]. cbn. auto.
  - intros outputs w acks w'. rewrite dispatch_all. cbn. destruct (br_refusals w) as [|n].
    + intros [= <- <-]. cbn. split; [split; [done|]|]; [intros o Ho|intros _ o Ho]; cbn; rewrite !elem_of_app; auto.
    + intros [= <- <-]. split; [done|]. destruct outputs; [|done]. intros _ o []%not_elem_of_nil.
Qed.

Definition demo_works := demo_round FailPolicy (demo_cycle ∅ (demo_broker 0)).

Lemma commit_after_delivery_witness :
  br_committed (cy_world demo_works.2) = {[demo_tp := 2]} ∧
  ∃ processed, demo_works.1 = Ok (pp_offsets processed) ∧ length (pp_outputs processed) = 3%nat ∧
    ∀ o, o ∈ pp_outputs processed → o ∈ br_delivered (cy_world demo_works.2).
Proof.
  split; [by_decide|]. destruct demo_works as [r c'] eqn:Hr. unfold demo_works, demo_round in Hr.
  assert (is_ok r = true) as Hok.
  { replace r with demo_works.1 by (unfold demo_works, demo_round; by rewrite Hr). vm_compute. reflexivity. }
  destruct (commit_after_delivery (demo_kit broker) demo_graph demo_consumer demo_producer NoStateStore no_time
    no_callbacks (λ _, false) (λ _, []) (λ _, []) br_committed br_delivered FailPolicy 0 None _ r c' ltac:(done) Hr)
    as [[H _]|(processed & c1 & c2 & c3 & Hp & _ & _ & Hd & _ & Hres)]; [congruence|].
  exists processed. split; [exact (Hres Hok)|]. split; [|exact Hd].
  assert (match (processPoll (demo_kit broker) demo_graph demo_consumer NoStateStore no_time no_callbacks
      (λ _, false) (λ _, []) (λ _, []) FailPolicy 0 (demo_cycle ∅ (demo_broker 0))).1 with
    Ok p => length (pp_outputs p) | Err _ => O end = 3%nat) as H by (vm_compute; reflexivity).
  by rewrite Hp in H.
Defined.

Lemma RunPartitionOnce_atomic_witness :
  ∃ w', RunPartitionOnce (demo_kit broker) demo_graph demo_consumer demo_producer (str "orders") 0 0 0
      (demo_engine, demo_broker 1) = (Err (CallError tt), (demo_engine, w')).
Proof.
  destruct (RunPartitionOnce _ _ _ _ _ _ _ _ _) as [r [ps' w']] eqn:Hr. exists w'.
  pose proof (RunPartitionOnce_atomic (demo_kit broker) demo_graph demo_consumer demo_producer (str "orders") 0 0 0
    demo_engine (demo_broker 1) r ps' w' demo_graph_ok demo_names _ (demo_engine_ok broker) Hr) as H.
  assert (r = Err (CallError tt)) as ->.
  { replace r with (RunPartitionOnce (demo_kit broker) demo_graph demo_consumer demo_producer (str "orders") 0 0 0
      (demo_engine, demo_broker 1)).1 by (by rewrite Hr). vm_compute. reflexivity. }
  by rewrite H.
Defined.

(** ** A failed round and the next one *)

Definition with_seek {X E} (c : Consumer X E) (seek : TopicPartition → Z → io X E unit) : Consumer X E :=
  MkConsumer X E (Assign c) seek (Poll c) (CommitOffsets c) (Subscribe c) (Positions c).

(** A record arrives at the broker. *)
Definition arrives (record : ConsumedRecord) (c : cycle (proc := Z) (W := broker)) : cycle :=
  set_world c (MkBroker (br_records (cy_world c) ++ [record]) (br_position (cy_world c)) (br_committed (cy_world c))
    (br_pending (cy_world c)) (br_delivered (cy_world c)) (br_refusals (cy_world c))).

(** The first round of an empty engine fails at the send of two records; a third one arrives; the second
    round works. *)
Definition demo_first := demo_round FailPolicy (demo_cycle ∅ (demo_broker 1)).
Definition demo_second := demo_round FailPolicy (arrives (demo_order 2) demo_first.2).

(** A failed round is not retried. No cycle of a group seeks, so a Kafka consumer, whose position is
    past the records that a failed round polled, does not return them again: the next round that
    succeeds commits an offset beyond them, and no output of theirs was ever delivered. *)
Theorem failed_round_skips_records :
  (∀ seek policy c, runGroupOnce (demo_kit broker) demo_graph (with_seek demo_consumer seek) demo_producer
      NoStateStore no_time no_callbacks (λ _, false) (λ _, []) (λ _, []) policy 0 None c = demo_round policy c) ∧
  demo_first.1 = Err (CallError tt) ∧ br_committed (cy_world demo_first.2) = ∅ ∧
  is_ok demo_second.1 = true ∧ br_committed (cy_world demo_second.2) = {[demo_tp := 3]} ∧
  map (λ o, pro_Value (produced_Record o)) (br_delivered (cy_world demo_second.2)) =
    [Some (str "v2"); Some (be_encode 8 1)].
Proof.
  split; [reflexivity|]. split; [vm_compute; reflexivity|]. split; [by_decide|]. split; [vm_compute; reflexivity|].
  split; [by_decide|vm_compute; reflexivity].
Qed.
