(* ===== verification/Group.v ===== *)
(** * Rebalances and barriers of a group runner

    What the callbacks of columnar/runner.go do to the partitions, how a partition moves from one runner to
    another, and how a rewind (columnar/barrieralign.go) and a failed barrier round interact with them. *)

From S2P Require Import Prelude GoStd Kafka Barrier Aligner Store Topology Built Runner Rollback.

Section Group.
Context {W E frame codec factory proc : Type}.
Context (kit : Kit W E frame codec factory proc) (t : Topology codec factory) (store : StateStore W E).

(** ** Logical partitions *)

Lemma elem_of_logical partitions q : q ∈ logical partitions ↔ ∃ p, p ∈ partitions ∧ tp_Partition p = q.
Proof.
  unfold logical. assert (∀ l, q ∈ fold_left (λ l p, if decide (tp_Partition p ∈ l) then l else l ++ [tp_Partition p])
    partitions l ↔ q ∈ l ∨ ∃ p, p ∈ partitions ∧ tp_Partition p = q) as H.
  { induction partitions as [|p partitions IH]; intros l; cbn.
    - split; [auto|]. intros [H|(p & []%not_elem_of_nil & _)]. done.
    - rewrite IH. case_decide; rewrite ?elem_of_app, ?list_elem_of_singleton; setoid_rewrite elem_of_cons; naive_solver. }
  rewrite H. split; [intros [[]%not_elem_of_nil|]|]; auto.
Qed.

Lemma NoDup_logical partitions : NoDup (logical partitions).
Proof.
  unfold logical. assert (∀ l, NoDup l →
    NoDup (fold_left (λ l p, if decide (tp_Partition p ∈ l) then l else l ++ [tp_Partition p]) partitions l)) as H.
  { induction partitions as [|p partitions IH]; intros l Hl; cbn; [done|]. apply IH. case_decide as Hin; [done|].
    apply NoDup_app. split; [done|]. split; [|apply NoDup_singleton]. by intros x Hx ->%list_elem_of_singleton. }
  apply H. constructor.
Qed.

Lemma owns_logical_spec owned q : owns_logical owned q = true ↔ ∃ p, p ∈ owned ∧ tp_Partition p = q.
Proof.
  unfold owns_logical. rewrite bool_decide_eq_true, Exists_exists. by setoid_rewrite elem_of_elements.
Qed.

(** ** Losing partitions *)

(** The release of one logical partition, for a runner whose owned set is already the smaller one. *)
Definition release_one (save : bool) (c : cycle) (q : Z) : cycle :=
  if owns_logical (cy_owned c) q then c
  else let c := if save then save_partition kit t store q NoEpoch c else c in
       set_processors c (ReleasePartition q (cy_processors c)).

Lemma save_partition_owned q e c : cy_owned (save_partition kit t store q e c) = cy_owned c.
Proof. unfold save_partition. by destruct (SnapshotPartition _ _ _ _). Qed.

Lemma release_one_effect save c q :
  cy_owned (release_one save c q) = cy_owned c ∧
  (∀ other, cy_processors (release_one save c q) !! other =
     if decide (other = q ∧ owns_logical (cy_owned c) q = false) then None else cy_processors c !! other).
Proof.
  unfold release_one. destruct (owns_logical (cy_owned c) q) eqn:Ho.
  - split; [done|]. intros other. rewrite decide_False; [done|]. by intros [_ ?].
  - cbn. split; [destruct save; [apply save_partition_owned|done]|]. intros other.
    replace (cy_processors (if save then _ else c)) with (cy_processors c)
      by (destruct save; [by rewrite save_partition_processors|done]).
    unfold ReleasePartition. case_decide as Hd.
    + destruct Hd as [-> _]. apply lookup_delete_eq.
    + apply lookup_delete_ne. intros ->. by apply Hd.
Qed.

Lemma release_fold_effect save l c :
  cy_owned (fold_left (release_one save) l c) = cy_owned c ∧
  (∀ other, cy_processors (fold_left (release_one save) l c) !! other =
     if decide (other ∈ l ∧ owns_logical (cy_owned c) other = false) then None else cy_processors c !! other).
Proof.
  revert c. induction l as [|q l IH]; intros c; cbn.
  - split; [done|]. intros other. rewrite decide_False; [done|]. by intros [[]%not_elem_of_nil _].
  - destruct (IH (release_one save c q)) as [H1 H2], (release_one_effect save c q) as [H3 H4].
    split; [by rewrite H1|]. intros other. rewrite H2, H3, H4. pose proof (elem_of_cons l other q).
    repeat case_decide; naive_solver.
Qed.

(** A logical partition that a runner loses with some topic partitions: one of them has its number, and no
    other that the runner owns does. *)
Definition loses (owned : gset TopicPartition) (partitions : list TopicPartition) (q : Z) : Prop :=
  (∃ p, p ∈ partitions ∧ tp_Partition p = q) ∧ ∀ p, p ∈ owned → p ∉ partitions → tp_Partition p ≠ q.

(** A release drops exactly what the runner lost. After a revocation or a loss of any partitions, the
    runner owns none of them, and the processors of a logical partition are gone exactly when one
    of its topic partitions was taken and the runner owns no other; every other partition keeps its
    processors. *)
Theorem release_exact partitions save c q :
  cy_owned (release kit t store partitions save c) = cy_owned c ∖ list_to_set partitions ∧
  (loses (cy_owned c) partitions q → cy_processors (release kit t store partitions save c) !! q = None) ∧
  (¬ loses (cy_owned c) partitions q →
     cy_processors (release kit t store partitions save c) !! q = cy_processors c !! q).
Proof.
  set (c1 := set_owned c (cy_owned c ∖ list_to_set partitions)).
  destruct (release_fold_effect save (logical partitions) c1) as [H1 H2]. specialize (H2 q).
  change (fold_left _ _ c1) with (release kit t store partitions save c) in *. rewrite H2.
  split; [exact H1|].
  assert (owns_logical (cy_owned c1) q = false ↔ ∀ p, p ∈ cy_owned c → p ∉ partitions → tp_Partition p ≠ q) as Hs.
  { rewrite <- not_true_iff_false, owns_logical_spec. cbn. split.
    - intros Hn p Hp Hni Hq. apply Hn. exists p. split; [|done]. set_solver.
    - intros Hn (p & Hp & Hq). apply elem_of_difference in Hp as [Hp Hni]. apply (Hn p Hp); [|done].
      intros Hin. apply Hni. by apply elem_of_list_to_set. }
  unfold loses. rewrite <- Hs, <- elem_of_logical. case_decide as Hd; naive_solver.
Qed.

(** ** Moving a partition *)

Lemma release_single p c :
  release kit t store [p] true c = release_one true (set_owned c (cy_owned c ∖ {[p]})) (tp_Partition p).
Proof.
  unfold release, logical. cbn [fold_left list_to_set]. rewrite decide_False by apply not_elem_of_nil.
  cbn [app fold_left]. by rewrite (right_id_L ∅ (∪)).
Qed.

Context (stored : W → Z → Z → option snapshot) (fits : snapshot → Prop) `{!StoreLaws store stored fits}.

(** C27: a revoked partition moves with its state, if the save and the load go through. A runner that loses
    the last topic partition of a logical partition saves its snapshot, one that the store can hold, and
    drops it; when the save succeeds the store has that snapshot. Another runner that gets the partition,
    while the store still has the snapshot, owns nothing of the partition yet and has no processors for it,
    ends up with the processors in the exact state they had, provided that its load succeeds. When the save fails
    the processors are dropped all the same, and what the store had for the partition stays or, at best, is
    the new snapshot; when the load fails the partition starts without processors: neither loss is reported. *)
Theorem revoked_partition_moves p c cB instances snaps :
  NoDup (map nd_name (top_nodes t)) → ProcessorLaws kit → engine_ok kit t (cy_processors c) →
  cy_processors c !! tp_Partition p = Some instances →
  SnapshotPartition kit t (tp_Partition p) (cy_processors c) = Ok snaps → fits snaps →
  owns_logical (cy_owned c ∖ {[p]}) (tp_Partition p) = false →
  let q := tp_Partition p in
  let cA := OnPartitionsRevoked kit t store [p] c in
  let saved := (Save store q NoEpoch snaps (cy_world c)).1 in
  cy_processors cA = delete q (cy_processors c) ∧
  (saved = Ok tt → stored (cy_world cA) q NoEpoch = Some snaps) ∧
  (stored (cy_world cA) q NoEpoch = Some snaps ∨ stored (cy_world cA) q NoEpoch = stored (cy_world c) q NoEpoch) ∧
  (stored (cy_world cB) q NoEpoch = Some snaps → is_ok (Load store q NoEpoch (cy_world cB)).1 = true →
   owns_logical (cy_owned cB) q = false → cy_processors cB !! q = None →
   cy_processors (OnPartitionsAssigned kit t store [p] cB) = <[q := instances]> (cy_processors cB)) ∧
  (is_ok (Load store q NoEpoch (cy_world cB)).1 = false → owns_logical (cy_owned cB) q = false →
   cy_processors (OnPartitionsAssigned kit t store [p] cB) = cy_processors cB).
Proof.
  intros Hn Hlaws Ho Hl Hs Hf Hown q cA saved.
  assert (cA = set_processors (save_partition kit t store q NoEpoch (set_owned c (cy_owned c ∖ {[p]})))
    (delete q (cy_processors c))) as HcA.
  { unfold cA, OnPartitionsRevoked. rewrite release_single. unfold release_one. cbn [cy_owned set_owned].
    rewrite Hown. fold q. unfold ReleasePartition. by rewrite save_partition_processors. }
  assert (cy_world cA = (Save store q NoEpoch snaps (cy_world c)).2) as Hw.
  { rewrite HcA. cbn. unfold save_partition. cbn. fold q in Hs. by rewrite Hs. }
  destruct (Save store q NoEpoch snaps (cy_world c)) as [r w] eqn:Hsave. subst saved.
  assert (owns_logical (cy_owned cB) q = false → cy_processors (OnPartitionsAssigned kit t store [p] cB) =
    cy_processors (restore_partition kit t store q NoEpoch (set_owned cB (list_to_set [p] ∪ cy_owned cB)))) as Hassign.
  { intros HownB. unfold OnPartitionsAssigned, logical. cbn [fold_left].
    rewrite decide_False by apply not_elem_of_nil. cbn [app fold_left]. fold q. by rewrite HownB. }
  clearbody cA. cbn [fst snd] in *. split; [by rewrite HcA|]. split_and!.
  - intros ->. rewrite Hw. by eapply save_stores.
  - rewrite Hw. destruct (save_atomic _ _ _ _ _ _ Hf Hsave); auto.
  - intros HB Hload HownB HnoneB. rewrite Hassign by done.
    unfold restore_partition. cbn [cy_world set_owned cy_processors].
    destruct (Load store q NoEpoch (cy_world cB)) as [[m|] w'] eqn:HL; [|done].
    apply load_reads in HL. rewrite HB in HL. injection HL as <-. cbn.
    pose proof (restore_snapshot kit t q (cy_processors c) (cy_processors cB) instances snaps Hn Ho Hl Hs) as Hr.
    unfold ReleasePartition in Hr. rewrite delete_id in Hr by done. by rewrite Hr.
  - intros Hload HownB. rewrite Hassign by done. unfold restore_partition. cbn [cy_world set_owned cy_processors].
    by destruct (Load store q NoEpoch (cy_world cB)) as [[m|] w'].
Qed.

(** ** Rewinding to a cut *)

Context (consumer : Consumer W E) (position : W → TopicPartition → option Z).

(** The documented behaviour of a seek, and of a store, which is no consumer. *)
Class Seeks : Prop := {
  seek_position : ∀ p offset w w', Seek consumer p offset w = (Ok tt, w') →
    position w' p = Some offset ∧ ∀ other, other ≠ p → position w' other = position w other
}.

Lemma elem_of_barrierTargets cut owned p :
  p ∈ barrierTargets cut owned ↔ is_Some (cut_Offsets cut !! p) ∧ (owned = ∅ ∨ p ∈ owned).
Proof.
  unfold barrierTargets. rewrite merge_sort_Permutation, list_elem_of_filter.
  change (map fst ?l) with (fst <$> l). rewrite list_elem_of_fmap. split.
  - intros [Ho ([q o] & -> & Hin%elem_of_map_to_list)]. cbn. eauto.
  - intros [[o Ho] Hown]. split; [done|]. exists (p, o). split; [done|]. by apply elem_of_map_to_list.
Qed.

(** The store holds, under an epoch, the snapshots of the partitions of an engine. *)
Definition holds_engine (w : W) (epoch : Z) (ps0 : processors proc) (q : Z) : Prop :=
  ∃ snaps, is_Some (ps0 !! q) ∧ SnapshotPartition kit t q ps0 = Ok snaps ∧ stored w q epoch = Some snaps.

Lemma restore_logical_exact ps0 partitions epoch c c' :
  NoDup (map nd_name (top_nodes t)) → ProcessorLaws kit → engine_ok kit t ps0 →
  (∀ q, q ∈ partitions → holds_engine (cy_world c) epoch ps0 q) →
  restore_logical kit t store partitions epoch c = (Ok tt, c') →
  cy_owned c' = cy_owned c ∧ cy_barrier c' = cy_barrier c ∧
  (∀ q, q ∈ partitions → cy_processors c' !! q = ps0 !! q) ∧
  (∀ q, q ∉ partitions → cy_processors c' !! q = cy_processors c !! q).
Proof.
  intros Hn Hlaws Ho. revert c. induction partitions as [|p partitions IH]; intros c Hst; cbn.
  - intros [= <-]. split_and!; try done. by intros q []%not_elem_of_nil.
  - unfold io_bind, call. destruct (Load store p epoch (cy_world c)) as [[snaps|] w] eqn:Hl; cbn [rmap_err]; [|done].
    destruct (Hst p (list_elem_of_here _ _)) as (snaps' & [instances Hi] & Hs & Hstored).
    pose proof (load_frame _ _ _ _ _ Hl) as Hframe. apply load_reads in Hl. rewrite Hstored in Hl. injection Hl as <-.
    cbn [cy_processors set_world].
    rewrite (restore_snapshot kit t p ps0 (cy_processors c) instances snaps' Hn Ho Hi Hs).
    intros (H1 & H2 & H3 & H4)%IH.
    2:{ intros q Hq. destruct (Hst q (list_elem_of_further _ _ _ Hq)) as (sq & ? & ? & Hq').
        exists sq. split; [done|]. split; [done|]. cbn. by rewrite Hframe. }
    cbn in *. split; [done|]. split; [done|]. split.
    + intros q Hq. destruct (decide (q ∈ partitions)) as [Hin|Hin]; [auto|].
      apply elem_of_cons in Hq as [->|?]; [|done]. rewrite H4 by done. rewrite Hi. apply lookup_insert_eq.
    + intros q [Hne Hq]%not_elem_of_cons. rewrite H4 by done. by apply lookup_insert_ne.
Qed.

Lemma seek_targets_exact `{!Seeks} cut targets c c' :
  seek_targets consumer cut targets c = (Ok tt, c') →
  cy_processors (proc := proc) c' = cy_processors c ∧ cy_owned c' = cy_owned c ∧ cy_barrier c' = cy_barrier c ∧
  ∀ p, (p ∈ targets → position (cy_world c') p = Some (default 0 (cut_Offsets cut !! p))) ∧
       (p ∉ targets → position (cy_world c') p = position (cy_world c) p).
Proof.
  revert c. induction targets as [|p targets IH]; intros c; cbn.
  - intros [= <-]. split_and!; try done. intros p. by split; [intros []%not_elem_of_nil|].
  - unfold io_bind, call. destruct (Seek consumer p _ (cy_world c)) as [[[]|] w] eqn:Hs; cbn [rmap_err]; [|done].
    apply seek_position in Hs as [Hp Hother]. intros (H1 & H2 & H3 & H4)%IH. cbn in *. split_and!; try done.
    intros q. destruct (H4 q) as [H5 H6]. split.
    + intros Hq. destruct (decide (q ∈ targets)) as [Hin|Hin]; [auto|].
      apply elem_of_cons in Hq as [->|?]; [|done]. by rewrite H6.
    + intros [Hne Hni]%not_elem_of_cons. rewrite H6 by done. by apply Hother.
Qed.

(** C28: a rewind puts the runner at the cut. When [restoreToCut] succeeds and the store has, under the epoch
    of the cut, the snapshots of some engine, then every logical partition of the targets has that engine's
    processors, exactly, and every other one its own; every target, a partition of the cut that
    the runner owns, or any partition of the cut when it owns none, is positioned at its cut offset; and
    the aligner is past the epoch, waits for no cut and holds no record. *)
Theorem restoreToCut_exact `{!Seeks} ps0 cut c c' :
  NoDup (map nd_name (top_nodes t)) → ProcessorLaws kit → engine_ok kit t ps0 →
  (∀ q, q ∈ map tp_Partition (barrierTargets cut (cy_owned c)) → holds_engine (cy_world c) (cut_Epoch cut) ps0 q) →
  restoreToCut kit t consumer store cut c = (Ok tt, c') →
  (∀ q, q ∈ map tp_Partition (barrierTargets cut (cy_owned c)) → cy_processors c' !! q = ps0 !! q) ∧
  (∀ q, q ∉ map tp_Partition (barrierTargets cut (cy_owned c)) → cy_processors c' !! q = cy_processors c !! q) ∧
  (∀ p offset, cut_Offsets cut !! p = Some offset → cy_owned c = ∅ ∨ p ∈ cy_owned c →
     position (cy_world c') p = Some offset) ∧
  (∀ a, cy_barrier c = Some a → ∃ a', cy_barrier c' = Some a' ∧ al_lastEpoch a' = cut_Epoch cut ∧
     al_pending a' = None ∧ al_held a' = ∅).
Proof.
  intros Hn Hlaws Ho Hst. unfold restoreToCut, io_bind at 1.
  destruct (restore_logical _ _ _ _ _ c) as [[[]|] c1] eqn:Hr; [|done].
  unfold io_bind at 1. destruct (seek_targets _ _ _ c1) as [[[]|] c2] eqn:Hs; [|done]. intros [= <-].
  assert (∀ q, q ∈ sorted_ints (map tp_Partition (barrierTargets cut (cy_owned c))) ↔
    q ∈ map tp_Partition (barrierTargets cut (cy_owned c))) as Hsorted.
  { intros q. unfold sorted_ints. by rewrite merge_sort_Permutation, elem_of_remove_dups. }
  apply (restore_logical_exact ps0) in Hr as (_ & Hb & H3 & H4); [|done..|by intros q ?%Hsorted; auto].
  apply seek_targets_exact in Hs as (H5 & _ & Hb2 & H6). cbn [cy_processors set_barrier cy_world cy_barrier].
  rewrite H5. split_and!.
  - intros q Hq. by apply H3, Hsorted.
  - intros q Hq. apply H4. by rewrite Hsorted.
  - intros p offset Hp Hown. destruct (H6 p) as [H7 _]. rewrite H7; [by rewrite Hp|].
    apply elem_of_barrierTargets. split; [by rewrite Hp|done].
  - intros a Ha. rewrite Hb2, Hb, Ha. cbn. eauto.
Qed.
End Group.

(** ** A store in memory *)

(** The snapshots by partition and epoch, and the positions of a consumer that only seeks. *)
Record shelf := MkShelf { sh_snapshots : gmap (Z * Z) snapshot; sh_positions : gmap TopicPartition Z }.

Definition shelf_store : StateStore shelf unit := MkStore
  (λ p e s, (Ok (default ∅ (sh_snapshots s !! (p, e))), s))
  (λ p e m s, (Ok tt, MkShelf (<[(p, e) := m]> (sh_snapshots s)) (sh_positions s))).

Definition shelf_stored (s : shelf) (p e : Z) : option snapshot := Some (default ∅ (sh_snapshots s !! (p, e))).

#[export] Instance shelf_laws : StoreLaws shelf_store shelf_stored (λ _, True).
Proof.
  split; cbn.
  - by intros p e w m w' [= <- <-].
  - by intros p e w r w' [= <- <-].
  - intros p e m w r w' [= <- <-] q f Hne. unfold shelf_stored. cbn. rewrite lookup_insert_ne by congruence. done.
  - intros p e m w w' _ [= <-]. unfold shelf_stored. cbn. by rewrite lookup_insert_eq.
  - intros p e m w r w' _ [= <- <-]. right. unfold shelf_stored. cbn. by rewrite lookup_insert_eq.
Qed.

Definition shelf_consumer : Consumer shelf unit := {|
  Assign := λ _, io_ret tt;
  Seek := λ p offset s, (Ok tt, MkShelf (sh_snapshots s) (<[p := offset]> (sh_positions s)));
  Poll := λ _, io_ret [];
  CommitOffsets := λ _, io_ret tt;
  Subscribe := λ _, io_ret tt;
  Positions := None
|}.

Definition shelf_position (s : shelf) (p : TopicPartition) : option Z := sh_positions s !! p.

#[export] Instance shelf_seeks : Seeks shelf_consumer shelf_position.
Proof.
  split. intros p offset w w' [= <-]. unfold shelf_position. cbn. split; [apply lookup_insert_eq|].
  intros other Hne. by rewrite lookup_insert_ne.
Qed.

Definition tp1 : TopicPartition := MkTP (str "orders") 1.
Definition shelf_cycle (ps : processors Z) (b : option barrierAligner) (owned : gset TopicPartition) (s : shelf)
    : cycle (proc := Z) := MkCycle ps NewMetrics b owned None s.

Lemma release_exact_witness :
  let c := shelf_cycle demo_engine None {[tp1]} (MkShelf ∅ ∅) in
  cy_owned (release (demo_kit shelf) demo_graph shelf_store [tp1] false c) = ∅ ∧
  cy_processors (release (demo_kit shelf) demo_graph shelf_store [tp1] false c) !! 1 = None.
Proof.
  intros c. split; [by_decide|].
  destruct (release_exact (demo_kit shelf) demo_graph shelf_store [tp1] false c 1) as (_ & H & _). apply H. split.
  - exists tp1. split; [apply list_elem_of_here|reflexivity].
  - intros p Hp Hni. cbn in Hp. apply elem_of_singleton in Hp as ->. destruct Hni. apply list_elem_of_here.
Defined.

(** The runner of partition 1 hands it to a runner that owns nothing. *)
Lemma revoked_partition_moves_witness :
  let c := shelf_cycle demo_engine None {[tp1]} (MkShelf ∅ ∅) in
  let cA := OnPartitionsRevoked (demo_kit shelf) demo_graph shelf_store [tp1] c in
  let cB := shelf_cycle ∅ None ∅ (cy_world cA) in
  cy_processors cA = ∅ ∧
  cy_processors (OnPartitionsAssigned (demo_kit shelf) demo_graph shelf_store [tp1] cB) = demo_engine.
Proof.
  intros c cA cB.
  destruct (revoked_partition_moves (demo_kit shelf) demo_graph shelf_store shelf_stored (λ _, True) tp1 c cB
    {[2%nat := 5]} {[str "map" := be_encode 8 5]} demo_names _ (demo_engine_ok shelf)) as (H1 & H2 & _ & H4 & _).
  - by_decide.
  - by_decide.
  - exact I.
  - vm_compute. reflexivity.
  - fold cA in H1. split; [rewrite H1; by_decide|]. rewrite H4; [by_decide|by apply H2|reflexivity|reflexivity|reflexivity].
Defined.

Definition demo_cut5 : BarrierCut := MkCut (str "audit") 5 0 0 CutComplete {[tp1 := 20]} [].
Definition demo_shelf : shelf :=
  MkShelf (<[(1, 5) := {[str "map" := be_encode 8 5]}]> {[(1, NoEpoch) := {[str "map" := be_encode 8 9]}]}) ∅.

Lemma restoreToCut_exact_witness :
  let c := shelf_cycle ∅ (Some (newBarrierAligner (str "audit"))) ∅ demo_shelf in
  ∃ c', restoreToCut (demo_kit shelf) demo_graph shelf_consumer shelf_store demo_cut5 c = (Ok tt, c') ∧
    cy_processors c' !! 1 = demo_engine !! 1 ∧ shelf_position (cy_world c') tp1 = Some 20.
Proof.
  intros c. destruct (restoreToCut _ _ _ _ _ c) as [r c'] eqn:Hr. exists c'.
  assert (r = Ok tt) as ->.
  { replace r with (restoreToCut (demo_kit shelf) demo_graph shelf_consumer shelf_store demo_cut5 c).1 by (by rewrite Hr).
    vm_compute. reflexivity. }
  assert (map tp_Partition (barrierTargets demo_cut5 (cy_owned c)) = [1]) as Ht by (vm_compute; reflexivity).
  destruct (restoreToCut_exact (demo_kit shelf) demo_graph shelf_store shelf_stored (λ _, True) shelf_consumer
    shelf_position demo_engine demo_cut5 c c' demo_names _ (demo_engine_ok shelf)) as (H1 & _ & H3 & _); [|exact Hr|].
  - rewrite Ht. intros q ->%list_elem_of_singleton. exists {[str "map" := be_encode 8 5]}.
    split; [by_decide|]. split; by_decide.
  - split; [reflexivity|]. split; [apply H1; rewrite Ht; apply list_elem_of_here|].
    apply (H3 tp1 20); [by_decide|left; reflexivity].
Defined.

(** A rewind before the first assignment does not last. A runner that owns nothing rewinds to a cut and
    restores the partitions of the cut, but the assignment that follows loads the snapshot that the
    last revocation saved over them: the processors are then ahead of the offsets the rewind sought. *)
Theorem assignment_undoes_restore :
  let c := shelf_cycle ∅ (Some (newBarrierAligner (str "audit"))) ∅ demo_shelf in
  let c1 := (restoreToCut (demo_kit shelf) demo_graph shelf_consumer shelf_store demo_cut5 c).2 in
  let c2 := OnPartitionsAssigned (demo_kit shelf) demo_graph shelf_store [tp1] c1 in
  cy_processors c1 = {[1 := {[2%nat := 5]}]} ∧ cy_processors c2 = {[1 := {[2%nat := 9]}]} ∧
  shelf_position (cy_world c2) tp1 = Some 20.
Proof. split_and!; by_decide. Qed.

(** ** A failed barrier round *)

(** A runner that waits for the cut 2 of the one partition of [demo_broker]. *)
Definition demo_cut_at2 : BarrierCut := MkCut (str "audit") 1 0 0 CutComplete {[demo_tp := 2]} [].
Definition demo_waiting : cycle (proc := Z) :=
  MkCycle ∅ NewMetrics (Some (refresh_with (newBarrierAligner (str "audit")) {[demo_tp]} [demo_cut_at2]))
    {[demo_tp]} None (demo_broker 1).

(** The broker refuses the sends of the first round; the second round polls nothing. *)
Definition demo_barrier_first := demo_round FailPolicy demo_waiting.
Definition demo_barrier_second := demo_round FailPolicy demo_barrier_first.2.

(** A failed barrier round leaves its mark in the aligner. The round that reaches the cut fails and is
    rolled back, commits nothing and delivers nothing; but the aligner still counts the partition as being at
    the cut, so the next round, which polls no record at all, fires the barrier and commits the cut, although
    no record below it was ever processed. *)
Theorem failed_barrier_round_fires :
  is_ok demo_barrier_first.1 = false ∧ cy_processors demo_barrier_first.2 = ∅ ∧
  br_committed (cy_world demo_barrier_first.2) = ∅ ∧
  is_ok demo_barrier_second.1 = true ∧ br_committed (cy_world demo_barrier_second.2) = {[demo_tp := 2]} ∧
  al_lastEpoch <$> cy_barrier demo_barrier_second.2 = Some 1 ∧
  br_delivered (cy_world demo_barrier_second.2) = [] ∧ cy_processors demo_barrier_second.2 = ∅.
Proof.
  split; [vm_compute; reflexivity|]. split; [by_decide|]. split; [by_decide|]. split; [vm_compute; reflexivity|].
  split; [by_decide|]. split; [vm_compute; reflexivity|]. split; [vm_compute; reflexivity|by_decide].
Qed.
