(* ===== verification/WireFormat.v ===== *)
(** * The Confluent wire format of schema/wireformat.go

    The five-byte header, the Protobuf message-index list in zigzag varints, and their readers. *)

From S2P Require Import Prelude GoStd.

(** ** The frames *)

Definition Magic : byte := x00.
Definition headerSize : nat := 5.

Record Frame := MkFrame { fr_SchemaID : Z; fr_Body : bytes }.
Record ProtobufFrame := MkProtobufFrame { pf_SchemaID : Z; pf_MessageIndexes : list Z; pf_Body : bytes }.

Inductive frame_error :=
| ShortFrame
| BadMagic (found : byte)
| NoIndexes
| TruncatedVarint
| LongVarint
| BadIndexCount (count : Z)
| IndexOutsideInt32.

(** [uint32(schemaID)], big-endian, after the magic byte. *)
Definition Encode (schemaID : Z) (body : bytes) : bytes := Magic :: be_encode 4 (uint32 schemaID) ++ body.

Definition checkHeader (data : bytes) : result frame_error unit :=
  if decide (length data < headerSize)%nat then Err ShortFrame
  else match data with
       | magic :: _ => if decide (magic ≠ Magic) then Err (BadMagic magic) else Ok tt
       | [] => Err ShortFrame
       end.

(** [int(int32(binary.BigEndian.Uint32(data[1:])))] and [data[headerSize:]]. *)
Definition header_id (data : bytes) : Z := int32 (be_decode (take 4 (drop 1 data))).

Definition Decode (data : bytes) : result frame_error Frame :=
  let* _ := checkHeader data in
  Ok (MkFrame (header_id data) (drop headerSize data)).

(** ** Zigzag varints *)

(** [uint64((value << 1) ^ (value >> 63))], on 64-bit integers. *)
Definition zigzag (value : Z) : Z := uint64 (Z.lxor (int64 (Z.shiftl value 1)) (Z.shiftr value 63)).

(** [int64(result>>1) ^ -int64(result&1)]. *)
Definition unzigzag (n : Z) : Z := Z.lxor (int64 (Z.shiftr n 1)) (- int64 (Z.land n 1)).

(** The loop of [appendZigzag]; a 64-bit value takes at most ten rounds. *)
Fixpoint append_varint (fuel : nat) (buffer : bytes) (encoded : Z) : bytes :=
  match fuel with
  | O => buffer
  | S fuel =>
      if Z.ldiff encoded 127 =? 0 then buffer ++ [z2b encoded]
      else append_varint fuel (buffer ++ [z2b (Z.lor (Z.land encoded 127) 128)]) (Z.shiftr encoded 7)
  end.

Definition appendZigzag (buffer : bytes) (value : Z) : bytes := append_varint 10 buffer (zigzag value).

(** The loop of [readZigzag], whose shift runs through 0, 7, ..., 63. *)
Fixpoint read_varint (rounds : nat) (shift result : Z) : reader frame_error Z := λ data,
  match rounds with
  | O => Err LongVarint
  | S rounds =>
      match data with
      | [] => Err TruncatedVarint
      | current :: data =>
          let result := Z.lor result (uint64 (Z.shiftl (Z.land (b2z current) 127) shift)) in
          if Z.land (b2z current) 128 =? 0 then Ok (unzigzag result, data)
          else read_varint rounds (shift + 7) result data
      end
  end.

Definition readZigzag : reader frame_error Z := read_varint 10 0 0.

(** ** Protobuf frames *)

Definition EncodeProtobuf (schemaID : Z) (messageIndexes : list Z) (body : bytes) : result frame_error bytes :=
  if decide (messageIndexes = []) then Err NoIndexes else
  let header := Magic :: be_encode 4 (uint32 schemaID) in
  let result :=
    if decide (messageIndexes = [0]) then header ++ [x00]
    else fold_left appendZigzag messageIndexes (appendZigzag header (zlen messageIndexes)) in
  Ok (result ++ body).

Definition message_index : reader frame_error Z :=
  read* value := readZigzag in
  if (value <? - 2 ^ 31) || (2 ^ 31 - 1 <? value) then rfail IndexOutsideInt32 else rret value.

(** [int64(^uint32(0)>>1)] is 2^31 - 1. *)
Definition message_indexes : reader frame_error (list Z) :=
  read* count := readZigzag in
  if count =? 0 then rret [0]
  else if (count <? 0) || (2 ^ 31 - 1 <? count) then rfail (BadIndexCount count)
  else read_list (Z.to_nat count) message_index.

Definition DecodeProtobuf (data : bytes) : result frame_error ProtobufFrame :=
  let* _ := checkHeader data in
  let* p := message_indexes (drop headerSize data) in
  let '(indexes, body) := p in
  Ok (MkProtobufFrame (header_id data) indexes body).

(** ** Zigzag is a bijection of the 64-bit integers *)

Lemma lxor_m1 z : Z.lxor z (-1) = - z - 1.
Proof. rewrite Z.lxor_m1_r. unfold Z.lnot. lia. Qed.

Lemma zigzag_value v : inS 64 v → zigzag v = if v <? 0 then - 2 * v - 1 else 2 * v.
Proof.
  intros Hv. unfold zigzag. rewrite Z.shiftl_mul_pow2, Z.pow_1_r, Z.shiftr_div_pow2 by lia.
  unfold inS in Hv. change (2 ^ (64 - 1)) with 9223372036854775808 in Hv.
  change (2 ^ 63) with 9223372036854775808. destruct (Z.ltb_spec v 0).
  - replace (v / 9223372036854775808) with (-1) by (Z.to_euclidean_division_equations; lia).
    rewrite lxor_m1. unfold wrapU, wrapS. width_consts. Z.to_euclidean_division_equations. lia.
  - replace (v / 9223372036854775808) with 0 by (Z.to_euclidean_division_equations; lia).
    rewrite Z.lxor_0_r. unfold wrapU, wrapS. width_consts. Z.to_euclidean_division_equations. lia.
Qed.

Lemma zigzag_range v : inS 64 v → 0 ≤ zigzag v < 2 ^ 64.
Proof. intros Hv. apply (wrapU_range 64). lia. Qed.

Lemma unzigzag_zigzag v : inS 64 v → unzigzag (zigzag v) = v.
Proof.
  intros Hv. rewrite zigzag_value by done. unfold unzigzag.
  unfold inS in Hv. change (2 ^ (64 - 1)) with 9223372036854775808 in Hv.
  rewrite Z.shiftr_div_pow2, Z.pow_1_r by lia.
  assert (∀ n, Z.land n 1 = n mod 2) as -> by (intros n; exact (Z.land_ones n 1 ltac:(lia))).
  destruct (Z.ltb_spec v 0).
  - replace ((- 2 * v - 1) / 2) with (- v - 1) by (Z.to_euclidean_division_equations; lia).
    replace ((- 2 * v - 1) mod 2) with 1 by (Z.to_euclidean_division_equations; lia).
    rewrite !wrapS_id by (try done; unfold inS; width_consts; lia). rewrite lxor_m1. lia.
  - replace (2 * v / 2) with v by (Z.to_euclidean_division_equations; lia).
    replace (2 * v mod 2) with 0 by (Z.to_euclidean_division_equations; lia).
    rewrite !wrapS_id by (try done; unfold inS; width_consts; lia). apply Z.lxor_0_r.
Qed.

(** ** A varint reads back *)

Lemma append_varint_app fuel buffer n : append_varint fuel buffer n = buffer ++ append_varint fuel [] n.
Proof.
  revert buffer n. induction fuel as [|fuel IH]; intros buffer n; cbn [append_varint]; [by rewrite app_nil_r|].
  destruct (_ =? 0); [done|]. rewrite IH, (IH ([] ++ _)). by rewrite <- (assoc_L (++)).
Qed.

Lemma land_127 n : Z.land n 127 = n mod 128.
Proof. change 127 with (Z.ones 7). rewrite Z.land_ones by lia. done. Qed.

Lemma ldiff_127 n : Z.ldiff n 127 = 0 ↔ n / 128 = 0.
Proof.
  change 127 with (Z.ones 7). rewrite Z.ldiff_ones_r by lia. rewrite Z.shiftl_mul_pow2, Z.shiftr_div_pow2 by lia.
  change (2 ^ 7) with 128. lia.
Qed.

Lemma lor_128 n : 0 ≤ n → Z.lor (Z.land n 127) 128 = n mod 128 + 128.
Proof.
  intros Hn. rewrite land_127. symmetry. apply Z.add_nocarry_lor.
  apply Z.bits_inj_0. intros i. rewrite Z.land_spec. change 128 with (2 ^ 7) at 2. rewrite Z.pow2_bits_eqb by lia.
  destruct (Z.eqb_spec 7 i) as [<-|]; [|by rewrite andb_false_r]. rewrite andb_true_r.
  change 128 with (2 ^ 7). by apply Z.mod_pow2_bits_high.
Qed.

Lemma lor_shifted r d s : 0 ≤ r < 2 ^ s → 0 ≤ s → 0 ≤ d → Z.lor r (Z.shiftl d s) = r + d * 2 ^ s.
Proof.
  intros Hr Hs Hd. rewrite <- Z.shiftl_mul_pow2 by done. symmetry. apply Z.add_nocarry_lor.
  apply Z.bits_inj_0. intros i. rewrite Z.land_spec. destruct (Z.lt_ge_cases i s).
  - rewrite Z.shiftl_spec_low by done. apply andb_false_r.
  - rewrite <- (Z.mod_small r (2 ^ s)) by done. by rewrite Z.mod_pow2_bits_high.
Qed.

Lemma read_varint_append rounds n s r rest :
  (0 < rounds)%nat → 0 ≤ s → 0 ≤ r < 2 ^ s → 0 ≤ n → 64 ≤ s + 7 * Z.of_nat rounds → n * 2 ^ s < 2 ^ 64 → r + n * 2 ^ s < 2 ^ 64 →
  read_varint rounds s r (append_varint rounds [] n ++ rest) = Ok (unzigzag (r + n * 2 ^ s), rest).
Proof.
  revert n s r. induction rounds as [|rounds IH]; intros n s r Hpos Hs Hr Hn Hbits Hfit Hsum; [lia|].
  cbn [append_varint]. pose proof (Z.pow_pos_nonneg 2 s ltac:(lia) Hs) as Hp.
  pose proof (Z.mod_pos_bound n 128 ltac:(lia)) as Hm. pose proof (Z.div_mod n 128 ltac:(lia)) as Hdm.
  destruct (Z.eqb_spec (Z.ldiff n 127) 0) as [Hl|Hl].
  - apply ldiff_127 in Hl. assert (n mod 128 = n) as Hnm by lia.
    cbn [app read_varint]. rewrite b2z_z2b, Z.mod_small by lia. rewrite land_127, Hnm.
    replace (Z.land n 128) with 0.
    2:{ symmetry. apply Z.bits_inj_0. intros i. rewrite Z.land_spec. change 128 with (2 ^ 7). rewrite Z.pow2_bits_eqb by lia.
        destruct (Z.eqb_spec 7 i) as [<-|]; [|apply andb_false_r]. rewrite <- Hnm. change 128 with (2 ^ 7).
        by rewrite Z.mod_pow2_bits_high. }
    cbn [Z.eqb]. rewrite wrapU_id by (unfold inU; rewrite Z.shiftl_mul_pow2 by lia; lia).
    by rewrite lor_shifted by lia.
  - rewrite ldiff_127 in Hl. assert (1 ≤ n / 128) as Hq by (pose proof (Z.div_pos n 128 Hn ltac:(lia)); lia).
    assert (2 ^ (s + 7) = 128 * 2 ^ s) as Hp7 by (rewrite Z.pow_add_r by lia; change (2 ^ 7) with 128; lia).
    assert (s + 7 < 64) as Hs7.
    { apply Z.nle_gt. intros Hge. pose proof (Z.pow_le_mono_r 2 64 (s + 7) ltac:(lia) Hge). nia. }
    rewrite append_varint_app. cbn [app read_varint]. rewrite b2z_z2b, lor_128 by done.
    rewrite (Z.mod_small (n mod 128 + 128)) by lia. rewrite land_127.
    replace ((n mod 128 + 128) mod 128) with (n mod 128) by (rewrite <- (Z.mul_1_l 128) at 3; rewrite Z.mod_add, Z.mod_mod by lia; done).
    replace (Z.land (n mod 128 + 128) 128 =? 0) with false.
    2:{ symmetry. apply Z.eqb_neq. intros H0. apply (f_equal (λ z, Z.testbit z 7)) in H0. rewrite Z.land_spec in H0.
        change 128 with (2 ^ 7) in H0 at 3. rewrite Z.pow2_bits_true, andb_true_r, Z.bits_0 in H0 by lia.
        apply Z.testbit_false in H0; [|lia].
        change (2 ^ 7) with 128 in H0. replace ((n mod 128 + 128) / 128) with 1 in H0; [done|].
        Z.to_euclidean_division_equations. lia. }
    rewrite Z.shiftr_div_pow2 by lia. change (2 ^ 7) with 128.
    rewrite wrapU_id by (unfold inU; rewrite Z.shiftl_mul_pow2 by lia; nia).
    rewrite lor_shifted by lia. rewrite IH.
    + rewrite Hp7. do 3 f_equal. rewrite Hdm at 3. ring.
    + destruct rounds; [|lia]. lia.
    + lia.
    + rewrite Hp7. nia.
    + lia.
    + lia.
    + rewrite Hp7. nia.
    + rewrite Hp7. nia.
Qed.

Lemma appendZigzag_app buffer v : appendZigzag buffer v = buffer ++ appendZigzag [] v.
Proof. apply append_varint_app. Qed.

Lemma readZigzag_append v rest : inS 64 v → readZigzag (appendZigzag [] v ++ rest) = Ok (v, rest).
Proof.
  intros Hv. pose proof (zigzag_range v Hv) as Hz. unfold readZigzag, appendZigzag.
  rewrite read_varint_append; try lia; rewrite ?Z.pow_0_r, ?Z.mul_1_r, ?Z.add_0_l; try lia.
  by rewrite unzigzag_zigzag.
Qed.

Lemma append_indexes l buffer : fold_left appendZigzag l buffer = buffer ++ concat (map (appendZigzag []) l).
Proof.
  revert buffer. induction l as [|v l IH]; intros buffer; cbn [fold_left map concat]; [by rewrite app_nil_r|].
  by rewrite IH, appendZigzag_app, <- (assoc_L (++)).
Qed.

Lemma read_indexes l rest :
  Forall (inS 32) l → read_list (length l) message_index (concat (map (appendZigzag []) l) ++ rest) = Ok (l, rest).
Proof.
  induction 1 as [|v l Hv Hl IH]; [done|]. cbn [map concat length read_list]. rewrite <- (assoc_L (++)).
  unfold rseq at 1. unfold message_index at 1, rseq at 1. unfold inS in Hv. change (2 ^ (32 - 1)) with 2147483648 in Hv.
  rewrite readZigzag_append by (unfold inS; width_consts; lia). change (2 ^ 31) with 2147483648.
  replace (v <? - (2147483648)) with false by lia. replace (2147483648 - 1 <? v) with false by lia. cbn [orb].
  unfold rret at 1. unfold rseq. by rewrite IH.
Qed.

Lemma header_app id rest :
  checkHeader ((Magic :: be_encode 4 (uint32 id)) ++ rest) = Ok tt ∧
  header_id ((Magic :: be_encode 4 (uint32 id)) ++ rest) = int32 id ∧
  drop headerSize ((Magic :: be_encode 4 (uint32 id)) ++ rest) = rest.
Proof.
  pose proof (length_be_encode 4 (uint32 id)) as Hl. split; [|split].
  - unfold checkHeader, headerSize. rewrite decide_False by (cbn [app length]; rewrite length_app, Hl; lia). done.
  - unfold header_id. cbn [app drop]. rewrite drop_0, take_app_le by lia. rewrite take_ge by lia.
    rewrite be_decode_encode. change (256 ^ Z.of_nat 4) with (2 ^ 32). change (?a mod 2 ^ ?w) with (wrapU w a).
    rewrite wrapU_id by (by apply wrapU_range). by apply wrapS_wrapU.
  - unfold headerSize. cbn [app drop]. rewrite <- Hl at 1. apply drop_app_length.
Qed.

Lemma Decode_Encode id body : inS 32 id → Decode (Encode id body) = Ok (MkFrame id body).
Proof.
  intros Hid. unfold Encode. rewrite app_comm_cons. destruct (header_app id body) as (H1 & H2 & H3).
  unfold Decode. rewrite H1. cbn [rbind]. by rewrite H2, H3, wrapS_id.
Qed.

Lemma Decode_Ok data f : Decode data = Ok f → inS 32 (fr_SchemaID f) ∧ data = Encode (fr_SchemaID f) (fr_Body f).
Proof.
  unfold Encode. rewrite app_comm_cons.
  unfold Decode. intros ([] & Hc & Hf)%rbind_Ok. unfold checkHeader in Hc. case_decide as Hl; [done|].
  destruct data as [|magic data]; [done|]. case_decide as Hm; [done|]. rewrite Hm in *.
  injection Hf as <-. unfold header_id, headerSize in *. cbn [drop fr_SchemaID fr_Body app length] in *. rewrite drop_0.
  split; [by apply wrapS_range|]. f_equal. rewrite <- (take_drop 4 data) at 1. f_equal.
  rewrite wrapU_wrapS by lia. pose proof (be_encode_decode (take 4 data)) as He.
  rewrite length_take, Nat.min_l in He by lia. rewrite <- He at 1.
  symmetry. unfold wrapU. change (2 ^ 32) with (256 ^ Z.of_nat 4). by rewrite be_encode_mod.
Qed.

Lemma DecodeProtobuf_Encode id indexes body :
  inS 32 id → Forall (inS 32) indexes → zlen indexes < 2 ^ 31 → indexes ≠ [] →
  ∃ data, EncodeProtobuf id indexes body = Ok data ∧ DecodeProtobuf data = Ok (MkProtobufFrame id indexes body).
Proof.
  intros Hid Hi Hl Hne. unfold EncodeProtobuf. rewrite decide_False by done. eexists. split; [done|].
  rewrite append_indexes, appendZigzag_app, <- (assoc_L (++)).
  assert (∀ rest, message_indexes rest = Ok (indexes, body) →
    DecodeProtobuf ((Magic :: be_encode 4 (uint32 id)) ++ rest) = Ok (MkProtobufFrame id indexes body)) as H.
  { intros rest Hr. destruct (header_app id rest) as (H1 & H2 & H3). unfold DecodeProtobuf.
    rewrite H1. cbn [rbind]. rewrite H3, Hr, H2. cbn [rbind]. by rewrite wrapS_id. }
  case_decide as H0.
  - rewrite <- (assoc_L (++)). apply H. subst. done.
  - rewrite <- !(assoc_L (++)). apply H. unfold message_indexes, rseq. pose proof (zlen_nonneg indexes).
    rewrite readZigzag_append by (unfold inS; width_consts; lia). destruct (Z.eqb_spec (zlen indexes) 0) as [Hz|Hz].
    { unfold zlen in Hz. by destruct indexes. }
    replace (zlen indexes <? 0) with false by lia. replace (2 ^ 31 - 1 <? zlen indexes) with false by lia. cbn [orb].
    unfold zlen. rewrite Nat2Z.id. by apply read_indexes.
Qed.

(** The frame format is exact. [Decode] succeeds on exactly the byte strings that [Encode] makes of
    some 32-bit schema ID and body, and returns that ID and body: no frame has two readings, and
    an ID outside of 32 bits comes back as another one. *)
Theorem frame_exact data f :
  Decode data = Ok f ↔ inS 32 (fr_SchemaID f) ∧ data = Encode (fr_SchemaID f) (fr_Body f).
Proof.
  split; [apply Decode_Ok|]. intros [Hid ->]. rewrite Decode_Encode by done. by destruct f.
Qed.

(** A Protobuf frame reads back. For a 32-bit schema ID, a path of at least one and less than 2^31
    message indexes of 32 bits, and any body, the frame that [EncodeProtobuf] makes reads back to the three
    of them, the one-byte form of the path [0] included; an empty path is refused. *)
Theorem protobuf_frame_roundtrip id indexes body :
  inS 32 id → Forall (inS 32) indexes → zlen indexes < 2 ^ 31 →
  match EncodeProtobuf id indexes body with
  | Ok data => indexes ≠ [] ∧ DecodeProtobuf data = Ok (MkProtobufFrame id indexes body)
  | Err e => indexes = [] ∧ e = NoIndexes
  end.
Proof.
  intros Hid Hi Hl. destruct (decide (indexes = [])) as [->|Hne]; [done|].
  destruct (DecodeProtobuf_Encode id indexes body Hid Hi Hl Hne) as (data & -> & Hd). done.
Qed.

Lemma protobuf_frame_roundtrip_witness :
  DecodeProtobuf (match EncodeProtobuf 7 [1; 2147483647] [x01; x02] with Ok data => data | Err _ => [] end) =
    Ok (MkProtobufFrame 7 [1; 2147483647] [x01; x02]).
Proof.
  destruct (EncodeProtobuf 7 [1; 2147483647] [x01; x02]) as [data|e] eqn:He.
  - pose proof (protobuf_frame_roundtrip 7 [1; 2147483647] [x01; x02] ltac:(by_decide) ltac:(repeat constructor; by_decide)
      ltac:(reflexivity)) as H. rewrite He in H. exact (proj2 H).
  - discriminate He.
Defined.

(** An index outside of 32 bits is written, and the frame does not read. *)
Lemma wide_index_unreadable :
  ∃ data, EncodeProtobuf 7 [2 ^ 31] [] = Ok data ∧ DecodeProtobuf data = Err IndexOutsideInt32.
Proof. eexists. split; [reflexivity|]. vm_compute. reflexivity. Qed.
