(* ===== verification/Client.v ===== *)
(** * The registry client of schema/client.go

    Requests with their retry loop, the paths and payloads of every operation, the readers of the
    responses, and the recursive resolution of schema references. The HTTP client and the request context
    are a record of operations over a world [W]; the JSON lexer and printer are parameters. *)

From S2P Require Import Prelude GoStd Json GoNet.
From stdpp Require Import relations.

#[local] Open Scope Z_scope.

(** ** Data of schema/schema.go and schema/errors.go *)

Inductive Kind := KindAvro | KindProtobuf | KindJSON.

#[global] Instance Kind_eq_dec : EqDecision Kind.
Proof. solve_decision. Defined.

Definition wireName (k : Kind) : bytes :=
  match k with KindProtobuf => str "PROTOBUF" | KindJSON => str "JSON" | KindAvro => [] end.

(** What a registry error says; [StatusCode] is -1 unless a status was received. *)
Inductive registry_fault :=
| RequestFailed
| HTTPStatus (body : bytes)
| CannotParse
| NotAnArray
| NoInteger (name : bytes)
| NoText (name : bytes).

#[global] Instance registry_fault_eq_dec : EqDecision registry_fault.
Proof. solve_decision. Defined.

Record RegistryError := MkRegistryError { StatusCode : Z; fault : registry_fault }.

#[global] Instance RegistryError_eq_dec : EqDecision RegistryError.
Proof. solve_decision. Defined.

Definition registryError (f : registry_fault) : RegistryError := MkRegistryError (-1) f.
Definition registryStatusError (statusCode : Z) (body : bytes) : RegistryError :=
  MkRegistryError statusCode (HTTPStatus body).

Record SchemaReference := MkReference { ref_Name : bytes; ref_Subject : bytes; ref_Version : Z }.

Record RegisteredSchema := MkRegistered {
  rs_ID : Z;
  rs_Version : Z;
  rs_Schema : bytes;
  rs_SchemaType : bytes;
  rs_MessageType : bytes;
  rs_References : list SchemaReference
}.

Record FetchedSchema := MkFetched {
  fs_Schema : bytes;
  fs_MessageType : bytes;
  fs_References : list SchemaReference
}.

Record ResolvedSchema := MkResolved {
  res_Schema : bytes;
  res_MessageType : bytes;
  res_References : gmap bytes bytes
}.

#[global] Instance SchemaReference_eq_dec : EqDecision SchemaReference.
Proof. solve_decision. Defined.
#[global] Instance RegisteredSchema_eq_dec : EqDecision RegisteredSchema.
Proof. solve_decision. Defined.
#[global] Instance FetchedSchema_eq_dec : EqDecision FetchedSchema.
Proof. solve_decision. Defined.

(** ** The HTTP client *)

Inductive Method := GET | POST | PUT | DELETE.

Record Request := MkRequest {
  req_Method : Method;
  req_URL : bytes;
  req_Header : list (bytes * bytes);
  req_Body : option bytes
}.

(** A response whose body cannot be read to its end has no body here. *)
Record Response := MkResponse { resp_StatusCode : Z; resp_Body : option bytes }.

(** [Do] fails with [None]; [ctx_Err] says that the context is done; [NewRequest] that the method and the
    URL make a request. *)
Record HTTP (W : Type) := MkHTTP {
  NewRequest : Method → bytes → bool;
  Do : Request → W → option Response * W;
  ctx_Err : W → bool
}.
Arguments NewRequest {W}.
Arguments Do {W}.
Arguments ctx_Err {W}.

Definition contentType : bytes := str "application/vnd.schemaregistry.v1+json".

Record RegistryClient := MkClient { baseURL : bytes; maxRetries : Z; authorization : bytes }.

Definition WithMaxRetries (retries : Z) (c : RegistryClient) : RegistryClient :=
  MkClient (baseURL c) retries (authorization c).

Definition WithBasicAuth (username password : bytes) (c : RegistryClient) : RegistryClient :=
  MkClient (baseURL c) (maxRetries c)
    (str "Basic " ++ base64_StdEncoding (username ++ ascii_byte ":" :: password)).

Inductive client_error := InvalidBaseURL | NoSchemeOrHost | NegativeRetries.

(** The parsed base URL as [url.Parse] returns it: its scheme, its host, and its text. *)
Definition NewRegistryClient (parsed : option (bytes * bytes * bytes)) (options : list (RegistryClient → RegistryClient))
    : result client_error RegistryClient :=
  match parsed with
  | None => Err InvalidBaseURL
  | Some (scheme, host, text) =>
      if decide (scheme = [] ∨ host = []) then Err NoSchemeOrHost else
      let client := fold_left (λ c option, option c) options (MkClient (TrimRight text (ascii_byte "/")) 2 []) in
      if maxRetries client <? 0 then Err NegativeRetries else Ok client
  end.

(** ** The readers of a response *)

Definition objectFields (node : RawMessage) : list (bytes * json) := default [] (into_fields node).

Definition requiredInt (node : RawMessage) (name : bytes) : result RegistryError Z :=
  match member (objectFields node) name with
  | Some value =>
      match into_int (Some value) 0 with
      | Some n => Ok n
      | None => Err (registryError (NoInteger name))
      end
  | None => Err (registryError (NoInteger name))
  end.

Definition optionalText (node : RawMessage) (name : bytes) : bytes :=
  match member (objectFields node) name with
  | Some value => default [] (into_text (Some value) [])
  | None => []
  end.

Definition requiredText (node : RawMessage) (name : bytes) : result RegistryError bytes :=
  let value := optionalText node name in
  if decide (value = []) then Err (registryError (NoText name)) else Ok value.

Definition arrayItems (node : RawMessage) : result RegistryError (list json) :=
  match into_items node with Some items => Ok items | None => Err (registryError NotAnArray) end.

(** [for i, item := range items { json.Unmarshal(item, &result[i]) }] *)
Fixpoint decode_items {A} (into : RawMessage → A → option A) (zero : A) (items : list json)
    : result RegistryError (list A) :=
  match items with
  | [] => Ok []
  | item :: items =>
      match into (Some item) zero with
      | Some a => let* l := decode_items into zero items in Ok (a :: l)
      | None => Err (registryError CannotParse)
      end
  end.

Definition intArray (node : RawMessage) : result RegistryError (list Z) :=
  let* items := arrayItems node in decode_items into_int 0 items.

Definition reference_field (key : bytes) (value : json) (r : SchemaReference) : option SchemaReference :=
  if same_name key (str "name") then
    match into_text (Some value) (ref_Name r) with
    | Some text => Some (MkReference text (ref_Subject r) (ref_Version r))
    | None => None
    end
  else if same_name key (str "subject") then
    match into_text (Some value) (ref_Subject r) with
    | Some text => Some (MkReference (ref_Name r) text (ref_Version r))
    | None => None
    end
  else if same_name key (str "version") then
    match into_int (Some value) (ref_Version r) with
    | Some version => Some (MkReference (ref_Name r) (ref_Subject r) version)
    | None => None
    end
  else Some r.

(** [json.Unmarshal(value, &refs)]: one element of the wrong shape makes it fail. *)
Fixpoint decode_references (items : list json) : option (list SchemaReference) :=
  match items with
  | [] => Some []
  | item :: items =>
      let '(r, fine) := into_struct reference_field (Some item) (MkReference [] [] 0) in
      if fine : bool then
        match decode_references items with Some refs => Some (r :: refs) | None => None end
      else None
  end.

Definition references (node : RawMessage) : result RegistryError (list SchemaReference) :=
  match member (objectFields node) (str "references") with
  | None => Ok []
  | Some value =>
      match match into_items (Some value) with Some items => decode_references items | None => None end with
      | None => Ok []
      | Some refs =>
          if decide (Exists (λ r, ref_Name r = [] ∨ ref_Subject r = []) refs)
          then Err (registryError (NoText (str "name"))) else Ok refs
      end
  end.

(** [struct { Version int; Schema string }], decoded as far as it goes. *)
Definition version_field (key : bytes) (value : json) (s : Z * bytes) : option (Z * bytes) :=
  if same_name key (str "version") then
    match into_int (Some value) s.1 with Some version => Some (version, s.2) | None => None end
  else if same_name key (str "schema") then
    match into_text (Some value) s.2 with Some text => Some (s.1, text) | None => None end
  else Some s.

Definition registeredSchema (node : RawMessage) : result RegistryError RegisteredSchema :=
  let* id := requiredInt node (str "id") in
  let* refs := references node in
  let fields := (into_struct version_field node (0, [])).1 in
  Ok (MkRegistered id fields.1 fields.2 (optionalText node (str "schemaType")) (optionalText node (str "messageType")) refs).

(** ** Payloads and paths *)

Definition json_int (n : Z) : json := JNumber (FormatInt n).

Definition json_reference (r : SchemaReference) : json :=
  JObject [(str "name", JString (ref_Name r)); (str "subject", JString (ref_Subject r));
           (str "version", json_int (ref_Version r))].

(** The map of the request, with its keys in the order that [json.Marshal] writes them. *)
Definition payload (kind : Kind) (schemaText messageType : bytes) (refs : list SchemaReference) : json :=
  JObject ((if decide (messageType = []) then [] else [(str "messageType", JString messageType)]) ++
           (if decide (refs = []) then [] else [(str "references", JArray (map json_reference refs))]) ++
           [(str "schema", JString schemaText)] ++
           (if decide (wireName kind = []) then [] else [(str "schemaType", JString (wireName kind))])).

Definition pathSegment (value : bytes) : bytes := PathEscape value.

Definition subject_path (subject : bytes) : bytes := str "/subjects/" ++ pathSegment subject.
Definition versions_path (subject : bytes) : bytes := subject_path subject ++ str "/versions".
Definition latest_path (subject : bytes) : bytes := versions_path subject ++ str "/latest".
Definition version_path (subject : bytes) (version : Z) : bytes :=
  versions_path subject ++ ascii_byte "/" :: FormatInt version.
Definition id_path (schemaID : Z) : bytes := str "/schemas/ids/" ++ FormatInt (uint32 schemaID).
Definition config_path (subject : bytes) : bytes := str "/config/" ++ pathSegment subject.
Definition with_permanent (permanent : bool) (path : bytes) : bytes :=
  if permanent then path ++ str "?permanent=true" else path.

(** [fmt.Sprintf("%s@%d", subject, version)]. *)
Definition reference_key (r : SchemaReference) : bytes :=
  ref_Subject r ++ ascii_byte "@" :: FormatInt (ref_Version r).

(** ** Requests *)

Section Requests.
Context {W : Type} (http : HTTP W) (Unmarshal : bytes → option json) (Marshal : json → bytes).

(** The result, whether a failure may be retried, and the world after the call. *)
Definition sendOnce (c : RegistryClient) (method : Method) (path : bytes) (body : option bytes) (w : W)
    : result RegistryError RawMessage * bool * W :=
  if negb (NewRequest http method (baseURL c ++ path)) then (Err (registryError RequestFailed), false, w) else
  let headers :=
    [(str "Accept", contentType)] ++
    (match body with Some _ => [(str "Content-Type", contentType)] | None => [] end) ++
    (if decide (authorization c = []) then [] else [(str "Authorization", authorization c)]) in
  let '(response, w) := Do http (MkRequest method (baseURL c ++ path) headers body) w in
  match response with
  | None => (Err (registryError RequestFailed), true, w)
  | Some (MkResponse _ None) => (Err (registryError RequestFailed), true, w)
  | Some (MkResponse status (Some responseBody)) =>
      if (status =? 429) || (500 <=? status) then (Err (registryStatusError status responseBody), true, w)
      else if (status <? 200) || (300 <=? status) then (Err (registryStatusError status responseBody), false, w)
      else match Unmarshal responseBody with
           | None => (Err (registryError CannotParse), false, w)
           | Some node => (Ok (Some node), false, w)
           end
  end.

(** [for attempt := 0; attempt <= c.maxRetries; attempt++], on the number of attempts that are left. *)
Fixpoint send_loop (remaining : nat) (c : RegistryClient) (method : Method) (path : bytes) (encoded : option bytes)
    (lastErr : option RegistryError) (w : W) : result RegistryError RawMessage * W :=
  match remaining with
  | O => (match lastErr with Some e => Err e | None => Ok None end, w)
  | S remaining =>
      let '(node, retriable, w) := sendOnce c method path encoded w in
      match node with
      | Ok node => (Ok node, w)
      | Err e =>
          if negb retriable || ctx_Err http w then (Err e, w)
          else send_loop remaining c method path encoded (Some e) w
      end
  end.

Definition send (c : RegistryClient) (method : Method) (path : bytes) (body : option json)
    : io W RegistryError RawMessage :=
  send_loop (Z.to_nat (maxRetries c + 1)) c method path (Marshal <$> body) None.

Definition get (c : RegistryClient) (path : bytes) : io W RegistryError RawMessage := send c GET path None.
Definition post (c : RegistryClient) (path : bytes) (body : json) : io W RegistryError RawMessage :=
  send c POST path (Some body).
Definition put (c : RegistryClient) (path : bytes) (body : json) : io W RegistryError RawMessage :=
  send c PUT path (Some body).
Definition delete (c : RegistryClient) (path : bytes) : io W RegistryError RawMessage := send c DELETE path None.

Definition Register (c : RegistryClient) (subject : bytes) (kind : Kind) (schemaText messageType : bytes)
    (refs : list SchemaReference) : io W RegistryError Z :=
  do* node := post c (versions_path subject) (payload kind schemaText messageType refs) in
  io_lift (requiredInt node (str "id")).

Definition Lookup (c : RegistryClient) (subject : bytes) (kind : Kind) (schemaText messageType : bytes)
    (refs : list SchemaReference) : io W RegistryError Z :=
  do* node := post c (subject_path subject) (payload kind schemaText messageType refs) in
  io_lift (requiredInt node (str "id")).

Definition Latest (c : RegistryClient) (subject : bytes) : io W RegistryError RegisteredSchema :=
  do* node := get c (latest_path subject) in io_lift (registeredSchema node).

Definition LatestID (c : RegistryClient) (subject : bytes) : io W RegistryError Z :=
  do* latest := Latest c subject in io_ret (rs_ID latest).

Definition SchemaByID (c : RegistryClient) (schemaID : Z) : io W RegistryError FetchedSchema :=
  do* node := get c (id_path schemaID) in
  do* text := io_lift (requiredText node (str "schema")) in
  do* refs := io_lift (references node) in
  io_ret (MkFetched text (optionalText node (str "messageType")) refs).

Definition Version (c : RegistryClient) (subject : bytes) (version : Z) : io W RegistryError RegisteredSchema :=
  do* node := get c (version_path subject version) in io_lift (registeredSchema node).

Definition Subjects (c : RegistryClient) : io W RegistryError (list bytes) :=
  do* node := get c (str "/subjects") in
  do* items := io_lift (arrayItems node) in
  io_lift (decode_items into_text [] items).

Definition Versions (c : RegistryClient) (subject : bytes) : io W RegistryError (list Z) :=
  do* node := get c (versions_path subject) in io_lift (intArray node).

Definition SubjectCompatibility (c : RegistryClient) (subject : bytes) : io W RegistryError bytes :=
  do* node := get c (config_path subject) in io_lift (requiredText node (str "compatibilityLevel")).

Definition Compatibility (c : RegistryClient) : io W RegistryError bytes :=
  do* node := get c (str "/config") in io_lift (requiredText node (str "compatibilityLevel")).

Definition SetSubjectCompatibility (c : RegistryClient) (subject level : bytes) : io W RegistryError bytes :=
  do* node := put c (config_path subject) (JObject [(str "compatibility", JString level)]) in
  io_lift (requiredText node (str "compatibility")).

Definition SetCompatibility (c : RegistryClient) (level : bytes) : io W RegistryError bytes :=
  do* node := put c (str "/config") (JObject [(str "compatibility", JString level)]) in
  io_lift (requiredText node (str "compatibility")).

Definition DeleteSubject (c : RegistryClient) (subject : bytes) (permanent : bool) : io W RegistryError (list Z) :=
  do* node := delete c (with_permanent permanent (subject_path subject)) in io_lift (intArray node).

Definition DeleteVersion (c : RegistryClient) (subject : bytes) (version : Z) (permanent : bool) : io W RegistryError Z :=
  do* node := delete c (with_permanent permanent (version_path subject version)) in
  match into_int node 0 with Some n => io_ret n | None => io_fail (registryError CannotParse) end.

End Requests.

(** ** References *)

(** The fetch of one subject version, over any world. Running out of fuel is told apart from a failed
    fetch; [resolved_references] below bounds the fuel that a registry needs. *)
Inductive resolve_error := Diverged | Failed (e : RegistryError).

Section References.
Context {W : Type} (fetch : bytes → Z → io W RegistryError RegisteredSchema).

(** The loop over the references of one schema, around the recursive call for one of them. *)
Fixpoint resolve_each
    (rec : list SchemaReference → gset bytes → gmap bytes bytes → io W resolve_error (gmap bytes bytes))
    (refs : list SchemaReference) (ancestors : gset bytes) (resolved : gmap bytes bytes)
    : io W resolve_error (gmap bytes bytes) :=
  match refs with
  | [] => io_ret resolved
  | r :: refs =>
      if decide (reference_key r ∈ ancestors) then resolve_each rec refs ancestors resolved else
      do* value := io_map_err Failed (fetch (ref_Subject r) (ref_Version r)) in
      do* resolved := rec (rs_References value) ({[reference_key r]} ∪ ancestors) resolved in
      resolve_each rec refs ancestors (<[ref_Name r := rs_Schema value]> resolved)
  end.

Fixpoint resolveReferences (fuel : nat) (refs : list SchemaReference) (ancestors : gset bytes)
    (resolved : gmap bytes bytes) : io W resolve_error (gmap bytes bytes) :=
  match fuel with
  | O => io_fail Diverged
  | S fuel => resolve_each (resolveReferences fuel) refs ancestors resolved
  end.

End References.

Definition ResolvedSchemaByID {W} (http : HTTP W) (Unmarshal : bytes → option json) (Marshal : json → bytes)
    (c : RegistryClient) (fuel : nat) (schemaID : Z) : io W resolve_error ResolvedSchema :=
  do* fetched := io_map_err Failed (SchemaByID http Unmarshal Marshal c schemaID) in
  do* resolved := resolveReferences (Version http Unmarshal Marshal c) fuel (fs_References fetched) ∅ ∅ in
  io_ret (MkResolved (fs_Schema fetched) (fs_MessageType fetched) resolved).

(** ** The client that is made *)

Lemma NewRegistryClient_ok parsed options c :
  NewRegistryClient parsed options = Ok c → 0 ≤ maxRetries c ∧
  ∃ scheme host text, parsed = Some (scheme, host, text) ∧ scheme ≠ [] ∧ host ≠ [].
Proof.
  unfold NewRegistryClient. destruct parsed as [[[scheme host] text]|]; [|done]. case_decide as Hd; [done|].
  destruct (Z.ltb_spec (maxRetries (fold_left (λ c option, option c) options
    (MkClient (TrimRight text (ascii_byte "/")) 2 []))) 0); intros; simplify_eq. split; [done|]. naive_solver.
Qed.

(** ** Retries *)

Section Retries.
Context {W : Type} (http : HTTP W) (Unmarshal : bytes → option json) (Marshal : json → bytes).
Context (c : RegistryClient) (method : Method) (path : bytes) (encoded : option bytes).

(** An attempt that failed, that may be retried, and that left the context alive. *)
Definition failed_attempt (w w' : W) : Prop :=
  ∃ e, sendOnce http Unmarshal c method path encoded w = (Err e, true, w') ∧ ctx_Err http w' = false.

Lemma send_loop_spec remaining lastErr w r w' :
  (0 < remaining)%nat → send_loop http Unmarshal remaining c method path encoded lastErr w = (r, w') →
  ∃ n w1 retriable, (n < remaining)%nat ∧ nsteps failed_attempt n w w1 ∧
    sendOnce http Unmarshal c method path encoded w1 = (r, retriable, w') ∧
    (is_ok r = true ∨ retriable = false ∨ ctx_Err http w' = true ∨ S n = remaining).
Proof.
  revert lastErr w. induction remaining as [|remaining IH]; intros lastErr w; [lia|]. intros _. cbn [send_loop].
  destruct (sendOnce http Unmarshal c method path encoded w) as [[node retriable] w1] eqn:Hs. destruct node as [j|e].
  - intros [= <- <-]. exists 0%nat, w, retriable. split; [lia|]. split; [constructor|]. auto.
  - destruct (negb retriable || ctx_Err http w1) eqn:Hstop.
    + intros [= <- <-]. exists 0%nat, w, retriable. split; [lia|]. split; [constructor|]. split; [done|].
      apply orb_prop in Hstop as [H%negb_true_iff|H]; auto.
    + apply orb_false_iff in Hstop as [Hr%negb_false_iff Hc]. subst retriable.
      destruct remaining as [|remaining].
      * cbn [send_loop]. intros [= <- <-]. exists 0%nat, w, true. split; [lia|]. split; [constructor|]. auto.
      * intros H. apply IH in H as (n & w2 & retriable & Hn & Hsteps & Hlast & Hwhy); [|lia].
        exists (S n), w2, retriable. split; [lia|]. split; [econstructor; [|done]; by exists e|]. split; [done|].
        destruct Hwhy as [?|[?|[?|?]]]; auto.
Qed.
End Retries.

(** The status of a failure that is retried: none, 429, or 5xx. *)
Lemma sendOnce_retriable {W} (http : HTTP W) Unmarshal c method path encoded w e w' :
  sendOnce http Unmarshal c method path encoded w = (Err e, true, w') →
  fault e = RequestFailed ∨ StatusCode e = 429 ∨ 500 ≤ StatusCode e.
Proof.
  unfold sendOnce. destruct (negb _); [done|]. destruct (Do http _ w) as [[[status [body|]]|] w1].
  - destruct ((status =? 429) || (500 <=? status)) eqn:Hs.
    + intros [= <- <-]. right. cbn. apply orb_prop in Hs as [H%Z.eqb_eq|H%Z.leb_le]; auto.
    + destruct ((status <? 200) || (300 <=? status)); [done|]. by destruct (Unmarshal body).
  - intros [= <- <-]. by left.
  - intros [= <- <-]. by left.
Qed.

Lemma sendOnce_final {W} (http : HTTP W) Unmarshal c method path encoded w e w' :
  sendOnce http Unmarshal c method path encoded w = (Err e, false, w') →
  w' = w ∧ fault e = RequestFailed ∨ fault e = CannotParse ∨
  ((StatusCode e < 200 ∨ 300 ≤ StatusCode e) ∧ StatusCode e ≠ 429 ∧ StatusCode e < 500).
Proof.
  unfold sendOnce. destruct (negb _); [intros [= <- <-]; by left|].
  destruct (Do http _ w) as [[[status [body|]]|] w1]; [|done|done].
  destruct ((status =? 429) || (500 <=? status)) eqn:Hs; [done|].
  apply orb_false_iff in Hs as [H1%Z.eqb_neq H2%Z.leb_gt].
  destruct ((status <? 200) || (300 <=? status)) eqn:Ht.
  - intros [= <- <-]. right. right. cbn. apply orb_prop in Ht as [H%Z.ltb_lt|H%Z.leb_le]; auto.
  - destruct (Unmarshal body); [done|]. intros [= <- <-]. right. by left.
Qed.

(** C22: Requests are retried within bounds. A call ends after at most [maxRetries] + 1 attempts, with the
    outcome of the last of them; every attempt before it failed on the wire, with a status of 429 or of
    500 and above, under a live context; and the last one succeeded, failed in a way that no
    retry mends, ran out of its context, or was the last that is allowed. *)
Theorem send_attempts {W} (http : HTTP W) Unmarshal Marshal c method path body w r w' :
  0 ≤ maxRetries c → send http Unmarshal Marshal c method path body w = (r, w') →
  ∃ n w1 retriable,
    Z.of_nat n ≤ maxRetries c ∧
    nsteps (failed_attempt http Unmarshal c method path (Marshal <$> body)) n w w1 ∧
    sendOnce http Unmarshal c method path (Marshal <$> body) w1 = (r, retriable, w') ∧
    match r with
    | Ok _ => True
    | Err e =>
        if retriable : bool
        then (ctx_Err http w' = true ∨ Z.of_nat n = maxRetries c) ∧
             (fault e = RequestFailed ∨ StatusCode e = 429 ∨ 500 ≤ StatusCode e)
        else w' = w1 ∧ fault e = RequestFailed ∨ fault e = CannotParse ∨
             ((StatusCode e < 200 ∨ 300 ≤ StatusCode e) ∧ StatusCode e ≠ 429 ∧ StatusCode e < 500)
    end.
Proof.
  intros Hm Hs. apply send_loop_spec in Hs as (n & w1 & retriable & Hn & Hsteps & Hlast & Hwhy); [|lia].
  exists n, w1, retriable. split; [lia|]. split; [done|]. split; [done|]. destruct r as [j|e]; [done|].
  destruct retriable.
  - split; [|by eapply sendOnce_retriable]. destruct Hwhy as [?|[?|[?|?]]]; try done; auto. right. lia.
  - by eapply sendOnce_final.
Qed.

(** A registry that answers 503 twice and then 200. *)
Definition flaky_http : HTTP nat :=
  MkHTTP nat (λ _ _, true)
    (λ _ calls, (Some (MkResponse (if (calls <? 2)%nat then 503 else 200) (Some [])), S calls)) (λ _, false).

Definition demo_client : RegistryClient := MkClient (str "http://registry") 2 [].

Lemma send_attempts_witness :
  send flaky_http (λ _, Some JNull) (λ _, []) demo_client GET (str "/subjects") None 0%nat = (Ok (Some JNull), 3%nat) ∧
  ∃ n w1 retriable, Z.of_nat n ≤ 2 ∧
    nsteps (failed_attempt flaky_http (λ _, Some JNull) demo_client GET (str "/subjects") None) n 0%nat w1 ∧
    sendOnce flaky_http (λ _, Some JNull) demo_client GET (str "/subjects") None w1 = (Ok (Some JNull), retriable, 3%nat).
Proof.
  split; [reflexivity|].
  destruct (send_attempts flaky_http (λ _, Some JNull) (λ _, []) demo_client GET (str "/subjects") None 0%nat
    (Ok (Some JNull)) 3%nat) as (n & w1 & retriable & Hn & Hs & Hl & _); [done|reflexivity|].
  by exists n, w1, retriable.
Defined.

(** ** Paths *)

Lemma subject_path_segment s : ascii_byte "/" ∉ pathSegment s.
Proof. apply segment_no_slash. Qed.

Lemma under_subject x y r s :
  subject_path x ++ ascii_byte "/" :: r = subject_path y ++ ascii_byte "/" :: s → x = y ∧ r = s.
Proof.
  unfold subject_path. rewrite <- !(assoc_L (++)). intros H%(inj (app _)).
  apply app_sep_inj in H as [H ->]; [|apply segment_no_slash..]. by apply (inj PathEscape) in H.
Qed.

Lemma FormatInt_not_latest n : FormatInt n ≠ str "latest".
Proof.
  intros H. pose proof (FormatInt_bytes n) as Hf. rewrite H in Hf. apply Forall_cons in Hf as [[Hf|Hf] _]; done.
Qed.

(** No two requests share a path by accident. A subject is recovered from its path whatever bytes it
    holds, slashes and question marks included, and so are a subject and a version from theirs; and the
    paths of a subject, of its version list, of its latest version and of a numbered version are
    four different ones for all subjects and versions. *)
Theorem paths_injective s s' v v' :
  (subject_path s = subject_path s' → s = s') ∧
  (versions_path s = versions_path s' → s = s') ∧
  (latest_path s = latest_path s' → s = s') ∧
  (version_path s v = version_path s' v' → s = s' ∧ v = v') ∧
  subject_path s ≠ versions_path s' ∧ subject_path s ≠ latest_path s' ∧ subject_path s ≠ version_path s' v' ∧
  versions_path s ≠ latest_path s' ∧ versions_path s ≠ version_path s' v' ∧ latest_path s ≠ version_path s' v' ∧
  ascii_byte "?" ∉ version_path s v.
Proof.
  unfold latest_path, version_path, versions_path.
  change (str "/versions") with (ascii_byte "/" :: str "versions"). change (str "/latest") with (ascii_byte "/" :: str "latest").
  rewrite <- !(assoc_L (++)), <- !app_comm_cons.
  assert (∀ x y r, subject_path x ≠ subject_path y ++ ascii_byte "/" :: r) as Hone.
  { intros x y r H. unfold subject_path in H. rewrite <- (assoc_L (++)) in H. apply (inj (app _)) in H.
    revert H. apply app_sep_discr, segment_no_slash. }
  repeat split; intros; try apply Hone.
  - unfold subject_path in *. by apply (inj PathEscape), (inj (app (str "/subjects/"))).
  - by eapply proj1, under_subject.
  - by eapply proj1, under_subject.
  - by eapply proj1, under_subject.
  - apply under_subject in H as [_ H]. apply (inj (app _)) in H. injection H as H. by apply (inj FormatInt) in H.
  - intros [_ H]%under_subject. done.
  - intros [_ H]%under_subject. done.
  - intros [_ H]%under_subject. apply (inj (app _)) in H. injection H as H. by destruct (FormatInt_not_latest v').
  - unfold subject_path. rewrite !elem_of_app, elem_of_cons, elem_of_app, elem_of_cons.
    pose proof (segment_no_question s). pose proof (FormatInt_bytes v) as Hf. rewrite Forall_forall in Hf.
    intros [[H1|H1]|[H1|[H1|[H1|H1]]]]; try done; try (revert H1; by_decide).
    destruct (Hf _ H1); done.
Qed.

(** ** Reference resolution *)

Lemma reference_key_eq r r' :
  reference_key r = reference_key r' ↔ ref_Subject r = ref_Subject r' ∧ ref_Version r = ref_Version r'.
Proof.
  unfold reference_key. split; [|by intros [-> ->]]. intros H. apply (f_equal (@rev byte)) in H.
  rewrite !rev_app_distr in H. cbn [rev] in H. rewrite <- !(assoc_L (++)) in H. cbn [app] in H.
  assert (∀ n, ascii_byte "@" ∉ rev (FormatInt n)) as Hat.
  { intros n Hin. pose proof (FormatInt_bytes n) as Hf. rewrite Forall_forall in Hf.
    apply list_elem_of_In, in_rev, list_elem_of_In in Hin. by destruct (Hf _ Hin). }
  apply app_sep_inj in H as [H1 H2]; [|apply Hat..]. apply (f_equal (@rev byte)) in H1, H2.
  rewrite !rev_involutive in H1, H2.
  by apply (inj FormatInt) in H1.
Qed.

Section Resolution.
Context {W : Type} (fetch : bytes → Z → io W RegistryError RegisteredSchema).
(** The registry: what a fetch of a subject version answers, in every world. *)
Context (catalogue : bytes → Z → result RegistryError RegisteredSchema).

Definition version_of (r : SchemaReference) : result RegistryError RegisteredSchema :=
  catalogue (ref_Subject r) (ref_Version r).

Definition references_of (r : SchemaReference) : list SchemaReference :=
  match version_of r with Ok v => rs_References v | Err _ => [] end.

(** A reference of a schema, or of a schema that it refers to, and so on. *)
Inductive reachable (refs : list SchemaReference) : SchemaReference → Prop :=
| reachable_here r : r ∈ refs → reachable refs r
| reachable_step r r' : reachable refs r → r' ∈ references_of r → reachable refs r'.

(** The references that the search fetches: those at the end of a path that passes no version twice. *)
Inductive visits (refs : list SchemaReference) (ancestors : gset bytes) : SchemaReference → Prop :=
| visits_here r : r ∈ refs → reference_key r ∉ ancestors → visits refs ancestors r
| visits_below r r' :
    r ∈ refs → reference_key r ∉ ancestors → visits (references_of r) ({[reference_key r]} ∪ ancestors) r' →
    visits refs ancestors r'.

Lemma visits_further r refs ancestors x : visits refs ancestors x → visits (r :: refs) ancestors x.
Proof.
  destruct 1 as [x|r' x]; [apply visits_here|apply (visits_below _ _ r')]; try done; by apply list_elem_of_further.
Qed.

Lemma visits_cons r refs ancestors x :
  visits (r :: refs) ancestors x →
  visits refs ancestors x ∨
  (reference_key r ∉ ancestors ∧ (x = r ∨ visits (references_of r) ({[reference_key r]} ∪ ancestors) x)).
Proof.
  destruct 1 as [x [->|Hx]%elem_of_cons Hk|r' x [->|Hr]%elem_of_cons Hk Hv]; auto.
  - left. by apply visits_here.
  - left. by apply (visits_below _ _ r').
Qed.

(** What a finished search has done to the map of resolved schemas. *)
Definition resolves (refs : list SchemaReference) (ancestors : gset bytes) (before after : gmap bytes bytes) : Prop :=
  (∀ r, visits refs ancestors r → is_Some (after !! ref_Name r)) ∧
  (∀ n, is_Some (before !! n) → is_Some (after !! n)) ∧
  (∀ n t, after !! n = Some t →
     before !! n = Some t ∨
     ∃ r v, visits refs ancestors r ∧ ref_Name r = n ∧ version_of r = Ok v ∧ rs_Schema v = t).

(** The outcome of a search: it finishes, or a version that it visits cannot be fetched. *)
Definition search_outcome (refs : list SchemaReference) (ancestors : gset bytes) (before : gmap bytes bytes)
    (r : result resolve_error (gmap bytes bytes)) : Prop :=
  match r with
  | Ok after => resolves refs ancestors before after
  | Err (Failed e) => ∃ r, visits refs ancestors r ∧ version_of r = Err e
  | Err Diverged => False
  end.

Hypothesis answers : ∀ s v w, ∃ w', fetch s v w = (catalogue s v, w').

Lemma resolve_each_outcome rec refs ancestors before w :
  (∀ r before w, r ∈ refs → reference_key r ∉ ancestors →
     search_outcome (references_of r) ({[reference_key r]} ∪ ancestors) before
       (rec (references_of r) ({[reference_key r]} ∪ ancestors) before w).1) →
  search_outcome refs ancestors before (resolve_each fetch rec refs ancestors before w).1.
Proof.
  revert before w. induction refs as [|r refs IH]; intros before w Hrec; cbn [resolve_each].
  { repeat split; [|done|auto]. intros r Hv. inversion Hv as [? Hin|? ? Hin]; by apply not_elem_of_nil in Hin. }
  assert (∀ before w, search_outcome refs ancestors before (resolve_each fetch rec refs ancestors before w).1) as IH'.
  { intros. apply IH. intros. apply Hrec; [by apply list_elem_of_further|done]. }
  case_decide as Hk.
  { specialize (IH' before w). unfold search_outcome in *. destruct (resolve_each _ _ _ _ _ _).1 as [after|[|e]]; [|done|].
    - destruct IH' as (H1 & H2 & H3). repeat split; [|done|].
      + intros x [Hx|[Hn _]]%visits_cons; [auto|done].
      + intros n t Hn. apply H3 in Hn as [Hn|(x & v & Hx & ?)]; [by left|]. right. exists x, v. split; [|done].
        by apply visits_further.
    - destruct IH' as (x & Hx & He). exists x. split; [by apply visits_further|done]. }
  destruct (answers (ref_Subject r) (ref_Version r) w) as [w1 Hf]. unfold io_bind at 1, io_map_err. rewrite Hf.
  change (catalogue _ _) with (version_of r). destruct (version_of r) as [v|e] eqn:Hv; cbn [rmap_err fst search_outcome].
  2:{ exists r. split; [|done]. apply visits_here; [apply list_elem_of_here|done]. }
  assert (references_of r = rs_References v) as Hrefs by (unfold references_of; by rewrite Hv).
  pose proof (Hrec r before w1 ltac:(apply list_elem_of_here) Hk) as Hbelow. rewrite Hrefs in Hbelow. unfold io_bind.
  destruct (rec (rs_References v) _ before w1) as [[mid|e] w2]; cbn [fst] in Hbelow.
  2:{ destruct e as [|e]; [done|]. destruct Hbelow as (x & Hx & He). exists x. split; [|done].
      apply (visits_below _ _ r); [apply list_elem_of_here|done|]. by rewrite Hrefs. }
  specialize (IH' (<[ref_Name r := rs_Schema v]> mid) w2). unfold search_outcome in IH'.
  destruct (resolve_each fetch rec refs ancestors _ w2).1 as [after|[|e]] eqn:Heq; cbn [search_outcome]; [|done|].
  2:{ destruct IH' as (x & Hx & He). exists x. split; [by apply visits_further|done]. }
  destruct Hbelow as (B1 & B2 & B3), IH' as (A1 & A2 & A3).
  assert (∀ n, is_Some (mid !! n) → is_Some (after !! n)) as Hmid.
  { intros n Hn. apply A2, lookup_insert_is_Some'. by right. }
  assert (is_Some (after !! ref_Name r)) as Hname.
  { apply A2. rewrite lookup_insert_eq. eauto. }
  repeat split.
  - intros x [Hx|[_ [->|Hx]]]%visits_cons; [by apply A1|done|]. rewrite Hrefs in Hx. by apply Hmid, B1.
  - intros n Hn. by apply Hmid, B2.
  - intros n t Hn. apply A3 in Hn as [Hn|(x & v' & Hx & ?)].
    + apply lookup_insert_Some in Hn as [[<- <-]|[_ Hn]].
      * right. exists r, v. split; [apply visits_here; [apply list_elem_of_here|done]|done].
      * apply B3 in Hn as [Hn|(x & v' & Hx & ?)]; [by left|]. right. exists x, v'. split; [|done].
        apply (visits_below _ _ r); [apply list_elem_of_here|done|]. by rewrite Hrefs.
    + right. exists x, v'. split; [by apply visits_further|done].
Qed.

(** Every level of the search adds a version to the path, so the versions that are left bound its depth. *)
Lemma resolveReferences_outcome (U : gset bytes) fuel refs ancestors before w :
  (∀ r, visits refs ancestors r → reference_key r ∈ U) → (size (U ∖ ancestors) < fuel)%nat →
  search_outcome refs ancestors before (resolveReferences fetch fuel refs ancestors before w).1.
Proof.
  revert refs ancestors before w. induction fuel as [|fuel IH]; intros refs ancestors before w HU Hf; [lia|].
  cbn [resolveReferences]. apply resolve_each_outcome. intros r before' w' Hr Hk. apply IH.
  - intros x Hx. apply HU. by apply (visits_below _ _ r).
  - assert (reference_key r ∈ U) as Hin by (apply HU; by apply visits_here).
    assert (size (U ∖ ({[reference_key r]} ∪ ancestors)) < size (U ∖ ancestors))%nat; [|lia].
    apply subset_size. set_solver.
Qed.

(** *** Paths without repetition reach everything *)

Fixpoint chain (refs : list SchemaReference) (path : list SchemaReference) : Prop :=
  match path with [] => True | r :: path => r ∈ refs ∧ chain (references_of r) path end.

Lemma version_of_key r r' : reference_key r = reference_key r' → version_of r = version_of r'.
Proof. intros [H1 H2]%reference_key_eq. unfold version_of. by rewrite H1, H2. Qed.

Lemma references_of_key r r' : reference_key r = reference_key r' → references_of r = references_of r'.
Proof. intros [H1 H2]%reference_key_eq. unfold references_of, version_of. by rewrite H1, H2. Qed.

Lemma chain_snoc refs path r r' : chain refs (path ++ [r]) → r' ∈ references_of r → chain refs (path ++ [r; r']).
Proof. revert refs. induction path as [|x path IH]; intros refs; cbn; naive_solver. Qed.

Lemma reachable_chain refs r : reachable refs r → ∃ path, chain refs (path ++ [r]).
Proof.
  induction 1 as [r Hr|r r' _ [path Hp] Hr]; [by exists []|].
  exists (path ++ [r]). rewrite <- (assoc_L (++)). by apply chain_snoc.
Qed.

Lemma chain_drop path r path' refs : chain refs (path ++ r :: path') → chain (references_of r) path'.
Proof. revert refs. induction path as [|x path IH]; intros refs; cbn; [by intros []|]. intros [_ H]. by eapply IH. Qed.

(** Cutting the detour between two visits of one version leaves a path to the same version. *)
Lemma chain_NoDup refs path :
  chain refs path →
  ∃ path', chain refs path' ∧ NoDup (map reference_key path') ∧
    reference_key <$> last path' = reference_key <$> last path.
Proof.
  revert refs. induction path as [|r path IH]; intros refs; cbn [chain].
  { intros _. exists []. split; [done|]. split; [constructor|done]. }
  intros [Hr Hc]. apply IH in Hc as (path' & Hc & Hn & Hl).
  destruct (decide (reference_key r ∈ map reference_key path')) as [Hin|Hin].
  - apply list_elem_of_fmap in Hin as (r' & Hk & Hin). apply list_elem_of_split in Hin as (l1 & l2 & ->).
    exists (r :: l2). rewrite (references_of_key r r') in * by done. pose proof (chain_drop _ _ _ _ Hc) as Hc2.
    split; [cbn; by rewrite (references_of_key r r')|]. rewrite map_app in Hn. apply NoDup_app in Hn as (_ & _ & Hn).
    cbn [map] in *. rewrite Hk. split; [done|]. destruct path as [|y path].
    { rewrite last_app, last_cons in Hl. by destruct (last l2). }
    change (last (r :: y :: path)) with (last (y :: path)). rewrite <- Hl, last_app, !last_cons.
    destruct (last l2); [done|]. cbn. by rewrite Hk.
  - exists (r :: path'). split; [done|]. split; [by constructor|].
    destruct path as [|y path].
    { destruct path' as [|z path']; [done|]. rewrite last_cons in Hl. by destruct (last path'). }
    destruct path' as [|z path'].
    { rewrite (last_cons y) in Hl. by destruct (last path). }
    exact Hl.
Qed.

Lemma chain_visits refs ancestors path r :
  chain refs path → NoDup (map reference_key path) → (∀ x, x ∈ path → reference_key x ∉ ancestors) →
  last path = Some r → visits refs ancestors r.
Proof.
  revert refs ancestors. induction path as [|x path IH]; intros refs ancestors; [done|].
  cbn [chain map]. intros [Hx Hc] [Hk Hn]%NoDup_cons Ha Hl. destruct path as [|y path].
  - cbn in Hl. injection Hl as <-. apply visits_here; [done|]. apply Ha, list_elem_of_here.
  - apply (visits_below _ _ x); [done|apply Ha, list_elem_of_here|]. apply IH; try done.
    intros z Hz. apply not_elem_of_union. split; [|by apply Ha, list_elem_of_further].
    apply not_elem_of_singleton. intros Heq. apply Hk. rewrite <- Heq. by apply list_elem_of_fmap_2.
Qed.

Lemma visits_all refs r :
  reachable refs r → ∃ r', visits refs ∅ r' ∧ reference_key r' = reference_key r.
Proof.
  intros [path Hp]%reachable_chain. apply chain_NoDup in Hp as (path' & Hc & Hn & Hl).
  rewrite last_snoc in Hl. destruct (last path') as [r'|] eqn:Hlast; [|done]. cbn in Hl. injection Hl as Hl.
  exists r'. split; [|done]. eapply chain_visits; done.
Qed.

Lemma reachable_via r refs x : r ∈ refs → reachable (references_of r) x → reachable refs x.
Proof.
  intros Hr. induction 1 as [y Hy|y z _ IH Hz].
  - apply (reachable_step _ r); [by apply reachable_here|done].
  - by apply (reachable_step _ y).
Qed.

Lemma visits_reachable refs ancestors r : visits refs ancestors r → reachable refs r.
Proof.
  induction 1 as [refs ancestors r Hr _|refs ancestors r r' Hr _ _ IH]; [by apply reachable_here|].
  by apply (reachable_via r).
Qed.

End Resolution.

(** C21: Reference resolution ends, and finds everything. Take a registry whose answers do not change while
    the search runs, and with finitely many versions [U] within reach of the schema, whatever the
    references among them, cycles included. With more fuel than versions the search ends; when every version
    within reach can be fetched, each of them has a text under the name of some reference to it, which is its
    own text unless references to two versions share that name (then one of the two texts is under it and the
    other is lost); and every resolved schema is the text of a version within reach, under a name that a
    reference gives it. The search fails only with the failure of a version within reach. *)
Theorem references_resolved {W} (fetch : bytes → Z → io W RegistryError RegisteredSchema)
    (catalogue : bytes → Z → result RegistryError RegisteredSchema) (U : gset bytes) fuel refs w :
  (∀ s v w, ∃ w', fetch s v w = (catalogue s v, w')) →
  (∀ r, reachable catalogue refs r → reference_key r ∈ U) → (size U < fuel)%nat →
  match (resolveReferences fetch fuel refs ∅ ∅ w).1 with
  | Ok resolved =>
      (∀ r, reachable catalogue refs r →
         ∃ r' t, reachable catalogue refs r' ∧ reference_key r' = reference_key r ∧ resolved !! ref_Name r' = Some t ∧
           ((∀ other, reachable catalogue refs other → ref_Name other = ref_Name r' → reference_key other = reference_key r) →
            ∃ v, version_of catalogue r = Ok v ∧ t = rs_Schema v)) ∧
      (∀ n t, resolved !! n = Some t →
         ∃ r v, reachable catalogue refs r ∧ ref_Name r = n ∧ version_of catalogue r = Ok v ∧ rs_Schema v = t)
  | Err (Failed e) => ∃ r, reachable catalogue refs r ∧ version_of catalogue r = Err e
  | Err Diverged => False
  end.
Proof.
  intros Ha HU Hf. pose proof (resolveReferences_outcome fetch catalogue Ha U fuel refs ∅ ∅ w) as H.
  unfold search_outcome in H. destruct (resolveReferences fetch fuel refs ∅ ∅ w).1 as [resolved|[|e]].
  - destruct H as (H1 & _ & H3).
    { intros r Hv. by eapply HU, visits_reachable. }
    { by rewrite difference_empty_L. }
    assert (∀ n t, resolved !! n = Some t →
      ∃ r v, reachable catalogue refs r ∧ ref_Name r = n ∧ version_of catalogue r = Ok v ∧ rs_Schema v = t) as Hfrom.
    { intros n t [Hn|(r & v & Hv & ?)]%H3; [by rewrite lookup_empty in Hn|]. exists r, v.
      split; [by eapply visits_reachable|done]. }
    split; [|done]. intros r (r' & Hv & Hk)%visits_all. destruct (H1 r' Hv) as [t Ht]. exists r', t.
    split; [by eapply visits_reachable|]. split_and!; [done..|]. intros Huniq.
    destruct (Hfrom _ _ Ht) as (other & v & Hr & Hname & Hv' & <-). exists v. split; [|done].
    rewrite <- Hv'. by apply version_of_key, eq_sym, Huniq.
  - apply H; [|by rewrite difference_empty_L]. intros r Hv. by eapply HU, visits_reachable.
  - destruct H as (r & Hv & He).
    { intros r Hv. by eapply HU, visits_reachable. }
    { by rewrite difference_empty_L. }
    exists r. split; [by eapply visits_reachable|done].
Qed.

(** *** Two subjects that refer to each other *)

Definition ref_a : SchemaReference := MkReference (str "a.avsc") (str "a") 1.
Definition ref_b : SchemaReference := MkReference (str "b.avsc") (str "b") 1.

(** The response of the registry to a version path, as a document. *)
Definition cyclic_document (url : bytes) : option json :=
  if decide (url = str "http://registry/subjects/a/versions/1") then
    Some (JObject [(str "id", json_int 1); (str "schema", JString (str "A")); (str "references", JArray [json_reference ref_b])])
  else if decide (url = str "http://registry/subjects/b/versions/1") then
    Some (JObject [(str "id", json_int 2); (str "schema", JString (str "B")); (str "references", JArray [json_reference ref_a])])
  else None.

Definition cyclic_http : HTTP unit :=
  MkHTTP unit (λ _ _, true) (λ req _, (Some (MkResponse 200 (Some (req_URL req))), tt)) (λ _, false).

Definition cyclic_fetch : bytes → Z → io unit RegistryError RegisteredSchema :=
  Version cyclic_http cyclic_document (λ _, []) demo_client.

Definition cyclic_catalogue (subject : bytes) (version : Z) : result RegistryError RegisteredSchema :=
  (cyclic_fetch subject version tt).1.

Definition cyclic_keys : gset bytes := {[reference_key ref_a; reference_key ref_b]}.

Lemma cyclic_a : references_of cyclic_catalogue ref_a = [ref_b].
Proof. reflexivity. Qed.
Lemma cyclic_b : references_of cyclic_catalogue ref_b = [ref_a].
Proof. reflexivity. Qed.

Lemma cyclic_reachable r : reachable cyclic_catalogue [ref_a] r → r = ref_a ∨ r = ref_b.
Proof.
  induction 1 as [r Hr|r r' _ [-> | ->] Hr].
  - apply list_elem_of_singleton in Hr. by left.
  - rewrite cyclic_a in Hr. apply list_elem_of_singleton in Hr. by right.
  - rewrite cyclic_b in Hr. apply list_elem_of_singleton in Hr. by left.
Qed.

Lemma references_resolved_witness :
  match (resolveReferences cyclic_fetch 3 [ref_a] ∅ ∅ tt).1 with
  | Ok resolved =>
      (∀ r, reachable cyclic_catalogue [ref_a] r →
         ∃ r' t, reachable cyclic_catalogue [ref_a] r' ∧ reference_key r' = reference_key r ∧
           resolved !! ref_Name r' = Some t ∧
           ((∀ other, reachable cyclic_catalogue [ref_a] other → ref_Name other = ref_Name r' →
               reference_key other = reference_key r) →
            ∃ v, version_of cyclic_catalogue r = Ok v ∧ t = rs_Schema v)) ∧
      (∀ n t, resolved !! n = Some t →
         ∃ r v, reachable cyclic_catalogue [ref_a] r ∧ ref_Name r = n ∧ version_of cyclic_catalogue r = Ok v ∧
           rs_Schema v = t)
  | Err (Failed e) => ∃ r, reachable cyclic_catalogue [ref_a] r ∧ version_of cyclic_catalogue r = Err e
  | Err Diverged => False
  end.
Proof.
  apply (references_resolved cyclic_fetch cyclic_catalogue cyclic_keys 3).
  - intros s v []. exists tt. unfold cyclic_catalogue. by destruct (cyclic_fetch s v tt) as [r []].
  - intros r [-> | ->]%cyclic_reachable; by_decide.
  - by_decide.
Defined.

(** The search of the cycle ends with both texts. *)
Example cyclic_texts :
  match (resolveReferences cyclic_fetch 3 [ref_a] ∅ ∅ tt).1 with
  | Ok resolved => map (λ n, resolved !! n) [str "a.avsc"; str "b.avsc"] = [Some (str "A"); Some (str "B")]
  | Err _ => False
  end.
Proof. by_decide. Qed.

(** ** What the readers let through *)

(** A JSON null passes for the schema ID, which then is zero. *)
Lemma null_id_accepted : requiredInt (Some (JObject [(str "id", JNull)])) (str "id") = Ok 0.
Proof. reflexivity. Qed.

(** A reference list with one version that is no integer is read as no references at all, where a missing
    name is an error. *)
Lemma malformed_references_dropped :
  references (Some (JObject [(str "references",
    JArray [json_reference ref_a; JObject [(str "name", JString (str "b")); (str "subject", JString (str "b"));
                                            (str "version", JString (str "1"))]])])) = Ok [] ∧
  references (Some (JObject [(str "references", JArray [JObject [(str "subject", JString (str "b"))]])])) =
    Err (registryError (NoText (str "name"))).
Proof. split; reflexivity. Qed.
