(* ===== verification/Cache.v ===== *)
(** * The schema cache of schema/cache.go

    The maps behind the cache's lock, every method as a step on them, the background fetches as the list of
    goroutines in flight, and prewarming over a registry interface. Each method body runs under the lock, so
    it is one step; only [resolve] and [fetchWriterSchema] call the registry outside of it, and their locked
    ends are steps of their own. *)

From S2P Require Import Prelude GoStd Kafka Json GoNet Client.
From stdpp Require Import relations.

#[local] Open Scope Z_scope.

(** ** Roles and strategies of schema/schema.go *)

Inductive Role := RoleKey | RoleValue.

#[global] Instance Role_eq_dec : EqDecision Role.
Proof. solve_decision. Defined.

Definition Role_String (r : Role) : bytes := match r with RoleKey => str "KEY" | RoleValue => str "VALUE" end.

Inductive RegisterMode := AutoRegister | LookupOnly | UseLatest | OtherMode (mode : Z).

Abbreviation SubjectNameStrategy := (bytes → Role → bytes).

Definition TopicNameStrategy (topic : bytes) (role : Role) : bytes :=
  match role with RoleKey => topic ++ str "-key" | RoleValue => topic ++ str "-value" end.

(** ** The cache *)

Record internedSchema := MkInterned { in_kind : Kind; in_schema : bytes; in_messageType : bytes }.

#[global] Instance internedSchema_eq_dec : EqDecision internedSchema.
Proof. solve_decision. Defined.

(** [fetching] holds the IDs whose marker is set. *)
Record SchemaCache := MkCache {
  registerMode : RegisterMode;
  strategy : SubjectNameStrategy;
  interned : gmap bytes internedSchema;
  subjectIDs : gmap bytes Z;
  writerSchemas : gmap Z bytes;
  writerMessageTypes : gmap Z bytes;
  writerReferences : gmap Z (gmap bytes bytes);
  fetching : gset Z
}.

Definition WithRegisterMode (mode : RegisterMode) (c : SchemaCache) : SchemaCache :=
  MkCache mode (strategy c) (interned c) (subjectIDs c) (writerSchemas c) (writerMessageTypes c)
    (writerReferences c) (fetching c).

Definition WithSubjectNameStrategy (s : SubjectNameStrategy) (c : SchemaCache) : SchemaCache :=
  MkCache (registerMode c) s (interned c) (subjectIDs c) (writerSchemas c) (writerMessageTypes c)
    (writerReferences c) (fetching c).

Definition NewSchemaCache (options : list (SchemaCache → SchemaCache)) : SchemaCache :=
  fold_left (λ c option, option c) options (MkCache AutoRegister TopicNameStrategy ∅ ∅ ∅ ∅ ∅ ∅).

Definition Subject (c : SchemaCache) (topic : bytes) (role : Role) : bytes := strategy c topic role.
Definition SubjectWith (c : SchemaCache) (topic : bytes) (role : Role) (s : SubjectNameStrategy) : bytes := s topic role.

Definition Intern (subject : bytes) (kind : Kind) (schemaText messageType : bytes) (c : SchemaCache) : SchemaCache :=
  match interned c !! subject with
  | Some _ => c
  | None =>
      MkCache (registerMode c) (strategy c) (<[subject := MkInterned kind schemaText messageType]> (interned c))
        (subjectIDs c) (writerSchemas c) (writerMessageTypes c) (writerReferences c) (fetching c)
  end.

Definition IDForSubject (subject : bytes) (c : SchemaCache) : option Z := subjectIDs c !! subject.

Definition set_subjectID (subject : bytes) (schemaID : Z) (c : SchemaCache) : SchemaCache :=
  MkCache (registerMode c) (strategy c) (interned c) (<[subject := schemaID]> (subjectIDs c)) (writerSchemas c)
    (writerMessageTypes c) (writerReferences c) (fetching c).

Definition set_writerSchema (schemaID : Z) (schemaText : bytes) (c : SchemaCache) : SchemaCache :=
  MkCache (registerMode c) (strategy c) (interned c) (subjectIDs c) (<[schemaID := schemaText]> (writerSchemas c))
    (writerMessageTypes c) (writerReferences c) (fetching c).

Definition set_messageType (schemaID : Z) (messageType : bytes) (c : SchemaCache) : SchemaCache :=
  MkCache (registerMode c) (strategy c) (interned c) (subjectIDs c) (writerSchemas c)
    (<[schemaID := messageType]> (writerMessageTypes c)) (writerReferences c) (fetching c).

Definition set_references (schemaID : Z) (refs : gmap bytes bytes) (c : SchemaCache) : SchemaCache :=
  MkCache (registerMode c) (strategy c) (interned c) (subjectIDs c) (writerSchemas c) (writerMessageTypes c)
    (<[schemaID := refs]> (writerReferences c)) (fetching c).

Definition set_fetching (marked : gset Z) (c : SchemaCache) : SchemaCache :=
  MkCache (registerMode c) (strategy c) (interned c) (subjectIDs c) (writerSchemas c) (writerMessageTypes c)
    (writerReferences c) marked.

Definition SeedSubjectID (subject : bytes) (schemaID : Z) : SchemaCache → SchemaCache := set_subjectID subject schemaID.
Definition SeedWriterSchema (schemaID : Z) (schemaText : bytes) : SchemaCache → SchemaCache :=
  set_writerSchema schemaID schemaText.
Definition SeedWriterMessageType (schemaID : Z) (messageType : bytes) : SchemaCache → SchemaCache :=
  set_messageType schemaID messageType.

Definition WriterMessageType (schemaID : Z) (c : SchemaCache) : bytes := default [] (writerMessageTypes c !! schemaID).
Definition WriterReferences (schemaID : Z) (c : SchemaCache) : gmap bytes bytes :=
  default ∅ (writerReferences c !! schemaID).

(** ** Background fetches *)

(** The cache, and the IDs of the goroutines that run [fetchWriterSchema]. *)
Record cached := MkCached { cache_of : SchemaCache; fetches : list Z }.

Record FetchPendingError := MkPending { pending_SchemaID : Z }.

#[global] Instance FetchPendingError_eq_dec : EqDecision FetchPendingError.
Proof. solve_decision. Defined.

(** [FetchPendingError.Retriable]. *)
Definition Retriable (e : FetchPendingError) : bool := true.

Definition WriterSchema (schemaID : Z) : io cached FetchPendingError bytes := λ s,
  match writerSchemas (cache_of s) !! schemaID with
  | Some text => (Ok text, s)
  | None =>
      let start := negb (bool_decide (schemaID ∈ fetching (cache_of s))) in
      let s :=
        if start
        then MkCached (set_fetching ({[schemaID]} ∪ fetching (cache_of s)) (cache_of s)) (schemaID :: fetches s)
        else s in
      (Err (MkPending schemaID), s)
  end.

(** The locked end of [fetchWriterSchema], with what [ResolvedSchemaByID] returned. *)
Definition fetchWriterSchema {E} (schemaID : Z) (fetched : result E ResolvedSchema) (c : SchemaCache) : SchemaCache :=
  let c :=
    match fetched with
    | Ok f =>
        let c := set_writerSchema schemaID (res_Schema f) c in
        let c := if decide (res_MessageType f = []) then c else set_messageType schemaID (res_MessageType f) c in
        set_references schemaID (res_References f) c
    | Err _ => c
    end in
  set_fetching (fetching c ∖ {[schemaID]}) c.

(** ** Prewarming *)

(** The client operations that resolving uses. *)
Record Registry (W : Type) := MkRegistry {
  api_Register : bytes → Kind → bytes → bytes → io W RegistryError Z;
  api_Lookup : bytes → Kind → bytes → bytes → io W RegistryError Z;
  api_Latest : bytes → io W RegistryError RegisteredSchema
}.
Arguments api_Register {W}.
Arguments api_Lookup {W}.
Arguments api_Latest {W}.

Inductive resolve_failure := RegistryFailed (e : RegistryError) | UnknownMode (mode : Z).

#[global] Instance resolve_failure_eq_dec : EqDecision resolve_failure.
Proof. solve_decision. Defined.

(** The registry call of [resolve]: the ID and the message type. *)
Definition resolve_call {W} (api : Registry W) (mode : RegisterMode) (subject : bytes) (local : internedSchema)
    : io W resolve_failure (Z * bytes) :=
  match mode with
  | AutoRegister =>
      do* id := io_map_err RegistryFailed (api_Register api subject (in_kind local) (in_schema local) (in_messageType local)) in
      io_ret (id, in_messageType local)
  | LookupOnly =>
      do* id := io_map_err RegistryFailed (api_Lookup api subject (in_kind local) (in_schema local) (in_messageType local)) in
      io_ret (id, in_messageType local)
  | UseLatest =>
      do* latest := io_map_err RegistryFailed (api_Latest api subject) in
      io_ret (rs_ID latest, rs_MessageType latest)
  | OtherMode mode => io_fail (UnknownMode mode)
  end.

(** Its locked end. *)
Definition resolve_commit (subject : bytes) (local : internedSchema) (id : Z) (messageType : bytes) (c : SchemaCache)
    : SchemaCache :=
  let c := set_writerSchema id (in_schema local) (set_subjectID subject id c) in
  if decide (messageType = []) then c else set_messageType id messageType c.

Definition resolve {W} (api : Registry W) (subject : bytes) (local : internedSchema)
    : io (W * SchemaCache) resolve_failure Z := λ wc,
  let '(r, w) := resolve_call api (registerMode wc.2) subject local wc.1 in
  match r with
  | Ok (id, messageType) => (Ok id, (w, resolve_commit subject local id messageType wc.2))
  | Err e => (Err e, (w, wc.2))
  end.

Record PrewarmReport := MkReport { Resolved : gmap bytes Z; Failures : gmap bytes resolve_failure }.

Definition Successful (r : PrewarmReport) : bool := bool_decide (Failures r = ∅).

(** The goroutines of the subjects, in the order in which they get to the registry and the lock. *)
Fixpoint prewarm_each {W} (api : Registry W) (subjects : list (bytes * internedSchema)) (report : PrewarmReport)
    (wc : W * SchemaCache) : PrewarmReport * (W * SchemaCache) :=
  match subjects with
  | [] => (report, wc)
  | (subject, local) :: subjects =>
      let '(r, wc) := resolve api subject local wc in
      let report :=
        match r with
        | Ok id => MkReport (<[subject := id]> (Resolved report)) (Failures report)
        | Err e => MkReport (Resolved report) (<[subject := e]> (Failures report))
        end in
      prewarm_each api subjects report wc
  end.

(** [schedule] orders the interned subjects: the goroutines run in any order. *)
Definition prewarmReport {W} (api : Registry W)
    (schedule : list (bytes * internedSchema) → list (bytes * internedSchema)) (wc : W * SchemaCache)
    : PrewarmReport * (W * SchemaCache) :=
  prewarm_each api (schedule (map_to_list (interned wc.2))) (MkReport ∅ ∅) wc.

(** [errors.Join] of the failures, in any order; nil when there are none. *)
Definition Prewarm {W} (api : Registry W) schedule (wc : W * SchemaCache)
    : result (list (bytes * resolve_failure)) unit * (W * SchemaCache) :=
  let '(report, wc) := prewarmReport api schedule wc in
  (if Successful report then Ok tt else Err (map_to_list (Failures report)), wc).

(** ** The cache as a state machine *)

(** The options that the package exports. *)
Inductive cache_option : (SchemaCache → SchemaCache) → Prop :=
| option_mode mode : cache_option (WithRegisterMode mode)
| option_strategy s : cache_option (WithSubjectNameStrategy s).

(** The steps of any number of goroutines that share one cache. *)
Inductive cache_step : cached → cached → Prop :=
| step_intern subject kind text messageType c running :
    cache_step (MkCached c running) (MkCached (Intern subject kind text messageType c) running)
| step_read id s : cache_step s (WriterSchema id s).2
| step_fetched id (r : result resolve_error ResolvedSchema) c running running' :
    cache_step (MkCached c (running ++ id :: running')) (MkCached (fetchWriterSchema id r c) (running ++ running'))
| step_resolved subject local id messageType c running :
    cache_step (MkCached c running) (MkCached (resolve_commit subject local id messageType c) running)
| step_seed_id subject id c running : cache_step (MkCached c running) (MkCached (SeedSubjectID subject id c) running)
| step_seed_schema id text c running : cache_step (MkCached c running) (MkCached (SeedWriterSchema id text c) running)
| step_seed_type id messageType c running :
    cache_step (MkCached c running) (MkCached (SeedWriterMessageType id messageType c) running).

Definition cache_reachable (s : cached) : Prop :=
  ∃ options, Forall cache_option options ∧ rtc cache_step (MkCached (NewSchemaCache options) []) s.

Lemma Intern_fetching subject kind text messageType c :
  fetching (Intern subject kind text messageType c) = fetching c.
Proof. unfold Intern. by destruct (interned c !! subject). Qed.

Lemma Intern_schemas subject kind text messageType c :
  writerSchemas (Intern subject kind text messageType c) = writerSchemas c.
Proof. unfold Intern. by destruct (interned c !! subject). Qed.

Lemma resolve_commit_fetching subject local id messageType c :
  fetching (resolve_commit subject local id messageType c) = fetching c.
Proof. unfold resolve_commit. by case_decide. Qed.

Lemma fetchWriterSchema_fetching {E} id (r : result E ResolvedSchema) c :
  fetching (fetchWriterSchema id r c) = fetching c ∖ {[id]}.
Proof. unfold fetchWriterSchema. destruct r; [by case_decide|done]. Qed.

Lemma fetchWriterSchema_schemas {E} id (r : result E ResolvedSchema) c :
  writerSchemas (fetchWriterSchema id r c) =
    match r with Ok f => <[id := res_Schema f]> (writerSchemas c) | Err _ => writerSchemas c end.
Proof. unfold fetchWriterSchema. destruct r; [by case_decide|done]. Qed.

#[export] Hint Rewrite Intern_fetching Intern_schemas resolve_commit_fetching @fetchWriterSchema_fetching
  @fetchWriterSchema_schemas : cache.

Lemma NewSchemaCache_fetching options :
  Forall cache_option options → fetching (NewSchemaCache options) = ∅ ∧ interned (NewSchemaCache options) = ∅.
Proof.
  unfold NewSchemaCache. set (c0 := MkCache _ _ _ _ _ _ _ _). intros Ho.
  assert (fetching c0 = ∅ ∧ interned c0 = ∅) as Hc by done. clearbody c0. revert c0 Hc.
  induction Ho as [|o options Ho _ IH]; intros c0 Hc; cbn [fold_left]; [done|]. apply IH. by destruct Ho.
Qed.

(** One fetch for each marked ID. *)
Definition fetch_invariant (s : cached) : Prop :=
  NoDup (fetches s) ∧ ∀ id, id ∈ fetches s ↔ id ∈ fetching (cache_of s).

Lemma WriterSchema_invariant id s : fetch_invariant s → fetch_invariant (WriterSchema id s).2.
Proof.
  intros [Hn Hf]. unfold WriterSchema. destruct (writerSchemas (cache_of s) !! id); [done|].
  case_bool_decide as Hin; [done|]. split; cbn.
  - constructor; [|done]. by rewrite Hf.
  - intros x. rewrite elem_of_cons, Hf. set_solver.
Qed.

Lemma cache_step_invariant s s' : cache_step s s' → fetch_invariant s → fetch_invariant s'.
Proof.
  destruct 1; intros [Hn Hf]; try (split; cbn; autorewrite with cache; done).
  - by apply WriterSchema_invariant.
  - apply NoDup_app in Hn as (Hn1 & Hd & [Hid Hn2]%NoDup_cons). cbn in Hf. split; cbn [fetches cache_of].
    + apply NoDup_app. split; [done|]. split; [|done]. intros x Hx Hx'. apply (Hd x Hx), elem_of_cons. by right.
    + intros x. rewrite fetchWriterSchema_fetching. specialize (Hf x). rewrite elem_of_app, elem_of_cons in Hf.
      rewrite elem_of_app, elem_of_difference, <- Hf, elem_of_singleton.
      assert (x ∈ running → x ≠ id) by (intros Hx ->; apply (Hd id Hx), elem_of_cons; by left).
      assert (x ∈ running' → x ≠ id) by (by intros Hx ->). tauto.
Qed.

Lemma cache_reachable_invariant s : cache_reachable s → fetch_invariant s.
Proof.
  intros (options & Ho & Hs). assert (fetch_invariant (MkCached (NewSchemaCache options) [])) as H0.
  { split; cbn; [constructor|]. destruct (NewSchemaCache_fetching options Ho) as [-> _]. set_solver. }
  revert H0. induction Hs as [|s1 s2 s3 H12 _ IH]; [done|]. intros H1. by eapply IH, cache_step_invariant.
Qed.

(** C15: One fetch for one ID. However goroutines interleave their calls, at most one background fetch per
    schema ID is in flight, and the markers name exactly the IDs that are being fetched. A read never
    blocks and changes nothing when the schema is cached; otherwise it answers with the pending error
    of that ID, and leaves behind exactly one fetch of it, started now or before. *)
Theorem single_flight s id :
  cache_reachable s →
  NoDup (fetches s) ∧ (∀ x, x ∈ fetches s ↔ x ∈ fetching (cache_of s)) ∧
  match WriterSchema id s with
  | (Ok text, s') => s' = s ∧ writerSchemas (cache_of s) !! id = Some text
  | (Err e, s') =>
      e = MkPending id ∧ writerSchemas (cache_of s) !! id = None ∧
      NoDup (fetches s') ∧ id ∈ fetches s' ∧ (if decide (id ∈ fetches s) then s' = s else fetches s' = id :: fetches s)
  end.
Proof.
  intros Hr. apply cache_reachable_invariant in Hr as Hi. pose proof (WriterSchema_invariant id s Hi) as [Hn' _].
  destruct Hi as [Hn Hf]. split; [done|]. split; [done|]. unfold WriterSchema in *.
  destruct (writerSchemas (cache_of s) !! id) as [text|]; [done|]. split; [done|]. split; [done|]. split; [done|].
  destruct (decide (id ∈ fetches s)) as [Hin|Hin].
  - rewrite bool_decide_true by by apply Hf. done.
  - rewrite bool_decide_false by by rewrite <- Hf. cbn. split; [apply list_elem_of_here|done].
Qed.

Lemma single_flight_witness :
  let s := (WriterSchema 7 (WriterSchema 9 (MkCached (NewSchemaCache [WithRegisterMode LookupOnly]) [])).2).2 in
  fetches s = [7; 9] ∧ NoDup (fetches s) ∧ (WriterSchema 7 s).2 = s.
Proof.
  intros s. split; [reflexivity|]. destruct (single_flight s 7) as (Hn & _ & Hw).
  - exists [WithRegisterMode LookupOnly]. split; [repeat constructor|].
    eapply rtc_l; [apply (step_read 9)|]. eapply rtc_l; [apply (step_read 7)|]. apply rtc_refl.
  - split; [exact Hn|]. reflexivity.
Defined.

(** A schema that is cached stays cached. *)
Lemma cache_step_schemas s s' id :
  cache_step s s' → is_Some (writerSchemas (cache_of s) !! id) → is_Some (writerSchemas (cache_of s') !! id).
Proof.
  destruct 1 as [| | |subject local| | |]; cbn [cache_of]; autorewrite with cache; try done.
  - unfold WriterSchema. destruct (writerSchemas (cache_of s) !! id0); [done|]. by destruct (negb _).
  - destruct r; [|done]. intros ?. apply lookup_insert_is_Some'. by right.
  - intros ?. unfold resolve_commit. case_decide; cbn; apply lookup_insert_is_Some'; by right.
  - intros ?. cbn. apply lookup_insert_is_Some'. by right.
Qed.

Lemma cached_forever s s' id :
  rtc cache_step s s' → is_Some (writerSchemas (cache_of s) !! id) → is_Some (writerSchemas (cache_of s') !! id).
Proof. induction 1; [done|]. eauto using cache_step_schemas. Qed.

(** A fetch ends the wait. Once the fetch that a read waits for succeeds, the schema of that ID is
    readable in every later state, whatever else happens, and directly after it reads as what was fetched,
    with its references and its message type if it has one; once the fetch fails, the next
    read starts a fresh one. *)
Theorem fetch_ends_wait c running running' id (r : result resolve_error ResolvedSchema) :
  cache_reachable (MkCached c (running ++ id :: running')) → writerSchemas c !! id = None →
  let s := MkCached (fetchWriterSchema id r c) (running ++ running') in
  match r with
  | Ok f =>
      WriterSchema id s = (Ok (res_Schema f), s) ∧ WriterReferences id (cache_of s) = res_References f ∧
      (res_MessageType f ≠ [] → WriterMessageType id (cache_of s) = res_MessageType f) ∧
      ∀ s', rtc cache_step s s' → ∃ text, WriterSchema id s' = (Ok text, s')
  | Err _ =>
      (WriterSchema id s).1 = Err (MkPending id) ∧ fetches (WriterSchema id s).2 = id :: running ++ running'
  end.
Proof.
  intros Hr Hnone s. assert (cache_step (MkCached c (running ++ id :: running')) s) as Hstep by constructor.
  pose proof (cache_step_invariant _ _ Hstep (cache_reachable_invariant _ Hr)) as [_ Hf].
  destruct r as [f|e].
  - assert (writerSchemas (cache_of s) !! id = Some (res_Schema f)) as Hs.
    { subst s. cbn [cache_of]. rewrite fetchWriterSchema_schemas. apply lookup_insert_eq. }
    split; [unfold WriterSchema; by rewrite Hs|]. split; [|split].
    + subst s. cbn [cache_of]. unfold WriterReferences, fetchWriterSchema. by case_decide; cbn; rewrite lookup_insert_eq.
    + intros Ht. subst s. cbn [cache_of]. unfold WriterMessageType, fetchWriterSchema. rewrite decide_False by done. cbn.
      by rewrite lookup_insert_eq.
    + intros s' Hs'. destruct (cached_forever _ _ id Hs') as [text Htext]; [eauto|]. exists text.
      unfold WriterSchema. by rewrite Htext.
  - specialize (Hf id). subst s. cbn [cache_of fetches] in Hf. rewrite fetchWriterSchema_fetching in Hf.
    unfold WriterSchema. cbn [cache_of fetches].
    rewrite fetchWriterSchema_schemas, Hnone. split; [done|].
    rewrite bool_decide_false; [done|]. rewrite fetchWriterSchema_fetching. set_solver.
Qed.

Lemma fetch_ends_wait_witness :
  let c := cache_of (WriterSchema 7 (MkCached (NewSchemaCache []) [])).2 in
  let s := MkCached (fetchWriterSchema 7 (Err Diverged) c) [] in
  (WriterSchema 7 s).1 = Err (MkPending 7) ∧ fetches (WriterSchema 7 s).2 = [7].
Proof.
  intros c s. refine (fetch_ends_wait c [] [] 7 (Err Diverged) _ _).
  - exists []. split; [constructor|]. eapply rtc_l; [apply (step_read 7)|]. apply rtc_refl.
  - reflexivity.
Defined.

(** ** Prewarming *)

Section Prewarming.
Context {W : Type} (api : Registry W) (c0 : SchemaCache).

(** The cache and the report after the goroutines of the subjects [finished]. *)
Record prewarmed (finished : list (bytes * internedSchema)) (report : PrewarmReport) (c : SchemaCache) : Prop := {
  pw_reported s : s ∈ map fst finished ↔ is_Some (Resolved report !! s) ∨ is_Some (Failures report !! s);
  pw_disjoint s : is_Some (Resolved report !! s) → Failures report !! s = None;
  pw_ids s : IDForSubject s c = match Resolved report !! s with Some id => Some id | None => IDForSubject s c0 end;
  pw_schemas id :
    (∃ s local, (s, local) ∈ finished ∧ Resolved report !! s = Some id ∧ writerSchemas c !! id = Some (in_schema local)) ∨
    ((∀ s, Resolved report !! s ≠ Some id) ∧ writerSchemas c !! id = writerSchemas c0 !! id);
  pw_interned : interned c = interned c0
}.

Lemma resolve_commit_schemas subject local id messageType c :
  writerSchemas (resolve_commit subject local id messageType c) = <[id := in_schema local]> (writerSchemas c).
Proof. unfold resolve_commit. by case_decide. Qed.

Lemma resolve_commit_ids subject local id messageType c :
  subjectIDs (resolve_commit subject local id messageType c) = <[subject := id]> (subjectIDs c).
Proof. unfold resolve_commit. by case_decide. Qed.

Lemma resolve_commit_interned subject local id messageType c :
  interned (resolve_commit subject local id messageType c) = interned c.
Proof. unfold resolve_commit. by case_decide. Qed.

Lemma prewarmed_ok finished report c subject local id messageType :
  prewarmed finished report c → subject ∉ map fst finished →
  prewarmed (finished ++ [(subject, local)]) (MkReport (<[subject := id]> (Resolved report)) (Failures report))
    (resolve_commit subject local id messageType c).
Proof.
  intros [H1 H2 H3 H4 H5] Hs. split; cbn [Resolved Failures].
  - intros s. rewrite map_app, elem_of_app, H1, lookup_insert_is_Some'. cbn [map]. rewrite list_elem_of_singleton.
    cbn. naive_solver.
  - intros s. rewrite lookup_insert_is_Some'. intros [<-|Hr]; [|by apply H2].
    apply eq_None_not_Some. intros Hf. apply Hs, H1. by right.
  - intros s. unfold IDForSubject. rewrite resolve_commit_ids. destruct (decide (subject = s)) as [<-|Hne].
    + by rewrite !lookup_insert_eq.
    + rewrite !lookup_insert_ne by done. apply H3.
  - intros x. rewrite resolve_commit_schemas. destruct (decide (id = x)) as [<-|Hne].
    + left. exists subject, local. rewrite !lookup_insert_eq. split; [|done]. set_solver.
    + rewrite (lookup_insert_ne (writerSchemas c)) by done. destruct (H4 x) as [(s & l & Hin & Hr & Hw)|[Hr Hw]].
      * left. exists s, l. split; [set_solver|]. split; [|done]. rewrite lookup_insert_ne; [done|].
        intros ->. apply Hs. apply list_elem_of_fmap. by exists (s, l).
      * right. split; [|done]. intros s. destruct (decide (subject = s)) as [<-|].
        -- rewrite lookup_insert_eq. congruence.
        -- by rewrite lookup_insert_ne.
  - by rewrite resolve_commit_interned.
Qed.

Lemma prewarmed_err finished report c subject local e :
  prewarmed finished report c → subject ∉ map fst finished →
  prewarmed (finished ++ [(subject, local)]) (MkReport (Resolved report) (<[subject := e]> (Failures report))) c.
Proof.
  intros [H1 H2 H3 H4 H5] Hs. split; cbn [Resolved Failures]; try done.
  - intros s. rewrite map_app, elem_of_app, H1, lookup_insert_is_Some'. cbn [map]. rewrite list_elem_of_singleton.
    cbn. naive_solver.
  - intros s Hr. rewrite lookup_insert_ne; [by apply H2|]. intros ->. apply Hs, H1. by left.
  - intros x. destruct (H4 x) as [(s & l & Hin & ?)|?]; [|by right]. left. exists s, l. split; [set_solver|done].
Qed.

Lemma prewarm_each_spec subjects finished report w c :
  NoDup (map fst (finished ++ subjects)) → prewarmed finished report c →
  let '(report', (_, c')) := prewarm_each api subjects report (w, c) in prewarmed (finished ++ subjects) report' c'.
Proof.
  revert finished report w c. induction subjects as [|[subject local] subjects IH]; intros finished report w c Hn Hp.
  { cbn. by rewrite app_nil_r. }
  cbn [prewarm_each]. unfold resolve. cbn [fst snd].
  assert (subject ∉ map fst finished) as Hs.
  { rewrite map_app in Hn. apply NoDup_app in Hn as (_ & Hd & _). intros Hin. apply (Hd subject Hin). apply list_elem_of_here. }
  destruct (resolve_call api (registerMode c) subject local w) as [[[id messageType]|e] w1].
  - rewrite (cons_middle (subject, local)), (assoc_L (++)) in Hn |- *. apply IH; [done|]. by apply prewarmed_ok.
  - rewrite (cons_middle (subject, local)), (assoc_L (++)) in Hn |- *. apply IH; [done|]. by apply prewarmed_err.
Qed.

End Prewarming.

(** Prewarming is exact in every schedule. In whatever order the subjects' goroutines run, each interned
    subject is reported once, resolved or failed; afterwards a resolved subject has its reported ID and every
    other one the ID it had; the writer schema of a resolved ID is the local schema of a subject that was
    resolved to it, and no other writer schema has changed; and the whole call
    succeeds exactly when every interned subject is resolved. *)
Theorem prewarm_exact {W} (api : Registry W) schedule w c :
  (∀ l, schedule l ≡ₚ l) →
  let '(report, (_, c')) := prewarmReport api schedule (w, c) in
  dom (Resolved report) ∪ dom (Failures report) = dom (interned c) ∧ dom (Resolved report) ## dom (Failures report) ∧
  (∀ s, IDForSubject s c' = match Resolved report !! s with Some id => Some id | None => IDForSubject s c end) ∧
  (∀ id, (∃ s local, interned c !! s = Some local ∧ Resolved report !! s = Some id ∧
            writerSchemas c' !! id = Some (in_schema local)) ∨
         ((∀ s, Resolved report !! s ≠ Some id) ∧ writerSchemas c' !! id = writerSchemas c !! id)) ∧
  ((Prewarm api schedule (w, c)).1 = Ok tt ↔ dom (Resolved report) = dom (interned c)).
Proof.
  intros Hs. unfold Prewarm, prewarmReport. cbn [snd].
  pose proof (prewarm_each_spec api c (schedule (map_to_list (interned c))) [] (MkReport ∅ ∅) w c) as H.
  destruct (prewarm_each api _ (MkReport ∅ ∅) (w, c)) as [report [w' c']]. destruct H as [H1 H2 H3 H4 H5].
  { cbn. rewrite Hs. apply NoDup_fst_map_to_list. }
  { split; cbn [Resolved Failures]; try done.
    - intros s. rewrite lookup_empty. split; [by intros ?%not_elem_of_nil|]. by intros [[? ?]|[? ?]].
    - intros id. right. split; [|done]. intros s. by rewrite lookup_empty. }
  cbn [app] in *.
  assert (∀ s local, (s, local) ∈ schedule (map_to_list (interned c)) ↔ interned c !! s = Some local) as Hin.
  { intros s local. rewrite Hs. apply elem_of_map_to_list. }
  assert (∀ s, s ∈ map fst (schedule (map_to_list (interned c))) ↔ is_Some (interned c !! s)) as Hfst.
  { intros s. change (map fst) with (fmap (M:=list) (@fst bytes internedSchema)). rewrite list_elem_of_fmap. split.
    - intros ([s' local] & -> & Hi%Hin). eauto.
    - intros [local Hl]. exists (s, local). split; [done|by apply Hin]. }
  assert (dom (Resolved report) ∪ dom (Failures report) = dom (interned c)) as Hdom.
  { apply set_eq. intros s. rewrite elem_of_union, !elem_of_dom, <- Hfst. symmetry. apply H1. }
  assert (dom (Resolved report) ## dom (Failures report)) as Hdisj.
  { intros s Hr%elem_of_dom [e He]%elem_of_dom. rewrite H2 in He; done. }
  split; [done|]. split; [done|]. split; [done|]. split.
  { intros id. destruct (H4 id) as [(s & local & Hl & ?)|?]; [|by right]. left. exists s, local. by rewrite <- Hin. }
  cbn [fst]. unfold Successful. case_bool_decide as Hf.
  - split; [|done]. intros _. rewrite <- Hdom, Hf, dom_empty_L. set_solver.
  - split; [done|]. intros Heq. destruct Hf. apply dom_empty_inv_L. set_solver.
Qed.

(** A registry that knows one subject. *)
Definition demo_registry : Registry unit :=
  MkRegistry unit (λ _ _ _ _, io_ret 1)
    (λ subject _ _ _ w,
       ((if decide (subject = str "orders-value") then Ok 4 else Err (registryStatusError 404 [])), w))
    (λ _ w, (Err (registryStatusError 404 []), w)).

Definition demo_cache : SchemaCache :=
  Intern (str "gone-value") KindJSON (str "{}") [] (Intern (str "orders-value") KindAvro (str "long") []
    (NewSchemaCache [WithRegisterMode LookupOnly])).

Lemma prewarm_exact_witness :
  let '(report, (_, c')) := prewarmReport demo_registry (@rev _) (tt, demo_cache) in
  dom (Resolved report) ∪ dom (Failures report) = dom (interned demo_cache) ∧
  IDForSubject (str "orders-value") c' = match Resolved report !! str "orders-value" with Some id => Some id | None => None end.
Proof.
  pose proof (prewarm_exact demo_registry (@rev _) tt demo_cache (λ l, symmetry (Permutation_rev l))) as H.
  destruct (prewarmReport demo_registry (@rev _) (tt, demo_cache)) as [report [w' c']].
  destruct H as (H1 & _ & H3 & _). split; [exact H1|]. exact (H3 (str "orders-value")).
Defined.

Example prewarm_one_fails :
  let '(report, (_, c')) := prewarmReport demo_registry (@rev _) (tt, demo_cache) in
  (IDForSubject (str "orders-value") c', IDForSubject (str "gone-value") c', Successful report) = (Some 4, None, false).
Proof. by_decide. Qed.
