(* ===== verification/Serde.v ===== *)
(** * The serdes of schema/serde.go, schema/avro.go, schema/protobuf.go and schema/jsonschema.go

    The shared lifecycle of [schemaSerde] over the cache, and the three serdes that fill in its body codecs.
    The Avro, Protobuf and JSON Schema libraries are parameters of the sections that use them, and so
    is [encoding/json] on the serde's own type; [JsonSchema] is the validator. *)

From S2P Require Import Prelude GoStd Kafka Json GoNet WireFormat Client Cache.
From stdpp Require Import relations.

#[local] Open Scope Z_scope.

(** ** Nil-like values *)

(** [reflect.Kind], as far as [isNilValue] tells kinds apart. *)
Inductive reflect_kind := Pointer | MapKind | SliceKind | InterfaceKind | Func | Chan | PlainKind.

(** A value as reflection sees it: nothing for a nil interface, else its kind and, for a kind that can be
    nil, whether it is. *)
Definition isNilValue (value : option (reflect_kind * bool)) : bool :=
  match value with
  | None => true
  | Some (PlainKind, _) => false
  | Some (_, is_nil) => is_nil
  end.

(** ** The shared serde *)

(** What decoding a body reports: the pending error of the cache somewhere in its chain, or another one. *)
Inductive body_error (E : Type) := BodyPending (e : FetchPendingError) | BodyFailed (e : E).
Arguments BodyPending {E} e.
Arguments BodyFailed {E} e.

Inductive serde_error (E : Type) :=
| NotResolved (subject : bytes)
| CannotSerialize (e : E)
| BadFrame (e : frame_error)
| Pending (e : FetchPendingError)
| CannotDeserialize (e : E).
Arguments NotResolved {E} subject.
Arguments CannotSerialize {E} e.
Arguments BadFrame {E} e.
Arguments Pending {E} e.
Arguments CannotDeserialize {E} e.

(** [S] holds the shared cache and what the format keeps besides it. *)
Record schemaSerde (S T E : Type) := MkSerde {
  sd_cache : S → cached;
  sd_update : (SchemaCache → SchemaCache) → S → S;
  sd_role : Role;
  sd_kind : Kind;
  sd_schema : bytes;
  sd_messageType : bytes;
  sd_strategy : option SubjectNameStrategy;
  sd_reflect : T → option (reflect_kind * bool);
  sd_zero : T;
  serializeBody : T → result E bytes;
  deserializeBody : Z → bytes → io S (body_error E) T;
  sd_frame : Z → bytes → result frame_error bytes;
  sd_unframe : bytes → result frame_error Frame
}.
Arguments sd_cache {S T E}.
Arguments sd_update {S T E}.
Arguments sd_role {S T E}.
Arguments sd_kind {S T E}.
Arguments sd_schema {S T E}.
Arguments sd_messageType {S T E}.
Arguments sd_strategy {S T E}.
Arguments sd_reflect {S T E}.
Arguments sd_zero {S T E}.
Arguments serializeBody {S T E}.
Arguments deserializeBody {S T E}.
Arguments sd_frame {S T E}.
Arguments sd_unframe {S T E}.

Section Lifecycle.
Context {S T E : Type} (sd : schemaSerde S T E).

Definition subject (s : S) (topic : bytes) : bytes :=
  match sd_strategy sd with
  | Some strategy => SubjectWith (cache_of (sd_cache sd s)) topic (sd_role sd) strategy
  | None => Subject (cache_of (sd_cache sd s)) topic (sd_role sd)
  end.

Definition RegisterSubject (topic : bytes) (s : S) : S :=
  sd_update sd (Intern (subject s topic) (sd_kind sd) (sd_schema sd) (sd_messageType sd)) s.

(** Nil bytes are [None]; serializing reads the cache and changes nothing. *)
Definition Serialize (s : S) (topic : bytes) (value : T) : result (serde_error E) (option bytes) :=
  if isNilValue (sd_reflect sd value) then Ok None else
  match IDForSubject (subject s topic) (cache_of (sd_cache sd s)) with
  | None => Err (NotResolved (subject s topic))
  | Some schemaID =>
      let* body := rmap_err CannotSerialize (serializeBody sd value) in
      let* data := rmap_err BadFrame (sd_frame sd schemaID body) in
      Ok (Some data)
  end.

Definition Deserialize (topic : bytes) (data : option bytes) : io S (serde_error E) T :=
  match data with
  | None => io_ret (sd_zero sd)
  | Some data =>
      do* frame := io_lift (rmap_err BadFrame (sd_unframe sd data)) in
      io_map_err (λ e, match e with BodyPending p => Pending p | BodyFailed e => CannotDeserialize e end)
        (deserializeBody sd (fr_SchemaID frame) (fr_Body frame))
  end.

End Lifecycle.

Definition standardFrame (schemaID : Z) (body : bytes) : result frame_error bytes := Ok (Encode schemaID body).

(** The read of the writer schema inside a body codec. *)
Definition writer_schema {E} (schemaID : Z) : io cached (body_error E) bytes :=
  io_map_err BodyPending (WriterSchema schemaID).

(** ** Avro *)

Section Avro.
(** [avro.Parse], the named schemas that [avro.ParseWithCache] reads and extends, [Resolve], and the
    binary codec. *)
Context {T E Schema ParseCache : Type}.
Context (Parse : bytes → result E Schema) (empty_cache : ParseCache).
Context (ParseWithCache : bytes → ParseCache → result E Schema * ParseCache).
Context (Resolve : Schema → Schema → result E Schema).
Context (avro_Marshal : Schema → T → result E bytes) (avro_Unmarshal : Schema → bytes → result E T).
Context (avro_String : Schema → bytes).

Inductive avro_error :=
| InvalidAvroReference (name : bytes) (e : E)
| InvalidWriterSchema (schemaID : Z) (e : E)
| CannotResolve (schemaID : Z) (e : E)
| AvroCodec (e : E).

Definition canonicalAvro (schema : Schema) : bytes := avro_String schema.

(** [for name, reference := range ...] over the entries in the order in which the iteration yields them. *)
Fixpoint parse_references (entries : list (bytes * bytes)) (cache : ParseCache) : result avro_error ParseCache :=
  match entries with
  | [] => Ok cache
  | (name, reference) :: entries =>
      let '(r, cache) := ParseWithCache reference cache in
      match r with Ok _ => parse_references entries cache | Err e => Err (InvalidAvroReference name e) end
  end.

(** [iteration] is the order of Go's map iteration. *)
Definition avro_writerSchema (iteration : gmap bytes bytes → list (bytes * bytes)) (schemaID : Z)
    : io cached (body_error avro_error) Schema :=
  do* text := writer_schema schemaID in
  λ s,
    ((let* cache := rmap_err BodyFailed (parse_references (iteration (WriterReferences schemaID (cache_of s))) empty_cache) in
      rmap_err (λ e, BodyFailed (InvalidWriterSchema schemaID e)) (ParseWithCache text cache).1), s).

Definition avro_deserializeBody iteration (reader : Schema) (schemaID : Z) (body : bytes)
    : io cached (body_error avro_error) T :=
  do* writer := avro_writerSchema iteration schemaID in
  do* resolved := io_lift (rmap_err (λ e, BodyFailed (CannotResolve schemaID e)) (Resolve reader writer)) in
  io_lift (rmap_err (λ e, BodyFailed (AvroCodec e)) (avro_Unmarshal resolved body)).

Definition newAvroSerde iteration reflect zero (schemaText : bytes) (role : Role) (strategy : option SubjectNameStrategy)
    : result E (schemaSerde cached T avro_error) :=
  let* reader := Parse schemaText in
  Ok (MkSerde cached T avro_error (λ s, s) (λ f s, MkCached (f (cache_of s)) (fetches s)) role KindAvro
        (canonicalAvro reader) [] strategy reflect zero
        (λ value, rmap_err AvroCodec (avro_Marshal reader value)) (avro_deserializeBody iteration reader)
        standardFrame Decode).

End Avro.

(** ** Protobuf *)

(** A message descriptor: its position at its level, and the message that it is nested in. *)
Inductive message_descriptor := MkDescriptor (index : Z) (parent : option message_descriptor).

(** The walk to the top, then reversed into outermost-first order. *)
Fixpoint index_walk (d : message_descriptor) : list Z :=
  match d with
  | MkDescriptor index None => [index]
  | MkDescriptor index (Some parent) => index :: index_walk parent
  end.

Definition messageIndexes (d : message_descriptor) : list Z := rev (index_walk d).

Definition unframeProtobuf (data : bytes) : result frame_error Frame :=
  let* frame := DecodeProtobuf data in Ok (MkFrame (pf_SchemaID frame) (pf_Body frame)).

Section Protobuf.
(** The message's descriptor and full name, the printed file, and the binary codec. *)
Context {T E : Type} (descriptor : message_descriptor) (FullName file_text : bytes).
Context (proto_Marshal : T → result E bytes) (proto_Unmarshal : bytes → result E T).

Inductive protobuf_error := MessageTypeMismatch (writer : bytes) | ProtobufCodec (e : E).

Definition proto_deserializeBody (schemaID : Z) (body : bytes) : io cached (body_error protobuf_error) T :=
  do* _ := writer_schema schemaID in
  λ s,
    let writerMessageType := WriterMessageType schemaID (cache_of s) in
    ((if decide (writerMessageType ≠ [] ∧ writerMessageType ≠ FullName)
      then Err (BodyFailed (MessageTypeMismatch writerMessageType))
      else rmap_err (λ e, BodyFailed (ProtobufCodec e)) (proto_Unmarshal body)), s).

Definition protobufFrame (schemaID : Z) (body : bytes) : result frame_error bytes :=
  EncodeProtobuf schemaID (messageIndexes descriptor) body.

Definition NewProtobufSerde reflect zero (role : Role) (strategy : option SubjectNameStrategy)
    : schemaSerde cached T protobuf_error :=
  MkSerde cached T protobuf_error (λ s, s) (λ f s, MkCached (f (cache_of s)) (fetches s)) role KindProtobuf
    file_text FullName strategy reflect zero
    (λ value, rmap_err ProtobufCodec (proto_Marshal value)) proto_deserializeBody protobufFrame unframeProtobuf.

End Protobuf.

(** ** JSON Schema *)

Section JSONSchema.
(** The compiled validators, [encoding/json] on [T], and [json.Valid]. *)
Context {T E Validator : Type}.
Context (compileJSONSchema : bytes → result E Validator) (validateJSON : Validator → bytes → result E unit).
Context (json_Marshal : T → result E bytes) (json_Unmarshal : bytes → result E T) (json_Valid : bytes → bool).

Inductive json_serde_error := InvalidSchema (e : E) | InvalidSchemaText | JSONCodec (e : E).

(** The cache, and the validators per schema ID. *)
Record json_state := MkJSONState { js_cached : cached; validators : gmap Z Validator }.

Definition validatorFor (schemaID : Z) (writerSchema : bytes) : io json_state json_serde_error Validator := λ s,
  match validators s !! schemaID with
  | Some validator => (Ok validator, s)
  | None =>
      match compileJSONSchema writerSchema with
      | Err e => (Err (InvalidSchema e), s)
      | Ok validator => (Ok validator, MkJSONState (js_cached s) (<[schemaID := validator]> (validators s)))
      end
  end.

Definition json_writer_schema (schemaID : Z) : io json_state (body_error json_serde_error) bytes := λ s,
  let '(r, c) := writer_schema schemaID (js_cached s) in (r, MkJSONState c (validators s)).

Definition json_validate (validate : bool) (schemaID : Z) (writerSchema body : bytes)
    : io json_state (body_error json_serde_error) unit :=
  if validate then
    do* validator := io_map_err BodyFailed (validatorFor schemaID writerSchema) in
    io_lift (rmap_err (λ e, BodyFailed (JSONCodec e)) (validateJSON validator body))
  else io_ret tt.

Definition json_deserializeBody (validate : bool) (schemaID : Z) (body : bytes)
    : io json_state (body_error json_serde_error) T :=
  do* writerSchema := json_writer_schema schemaID in
  do* _ := json_validate validate schemaID writerSchema body in
  io_lift (rmap_err (λ e, BodyFailed (JSONCodec e)) (json_Unmarshal body)).

Definition json_serializeBody (validate : bool) (localValidator : option Validator) (value : T)
    : result json_serde_error bytes :=
  let* body := rmap_err JSONCodec (json_Marshal value) in
  match localValidator with
  | Some validator =>
      if validate then let* _ := rmap_err JSONCodec (validateJSON validator body) in Ok body else Ok body
  | None => Ok body
  end.

Definition NewJSONSchemaSerde reflect zero (schemaText : bytes) (role : Role) (validate : bool)
    (strategy : option SubjectNameStrategy) : result json_serde_error (schemaSerde json_state T json_serde_error) :=
  let* localValidator :=
    if validate then let* validator := rmap_err InvalidSchema (compileJSONSchema schemaText) in Ok (Some validator)
    else if json_Valid schemaText then Ok None else Err InvalidSchemaText in
  Ok (MkSerde json_state T json_serde_error js_cached
        (λ f s, MkJSONState (MkCached (f (cache_of (js_cached s))) (fetches (js_cached s))) (validators s))
        role KindJSON schemaText [] strategy reflect zero
        (json_serializeBody validate localValidator) (json_deserializeBody validate) standardFrame Decode).

End JSONSchema.

(** ** Framing *)

(** What the lifecycle needs of a framing: a frame of a 32-bit ID reads back. *)
Class Framing (frame : Z → bytes → result frame_error bytes) (unframe : bytes → result frame_error Frame) : Prop :=
  framing : ∀ id body, inS 32 id → ∃ data, frame id body = Ok data ∧ unframe data = Ok (MkFrame id body).

#[export] Instance standard_framing : Framing standardFrame Decode.
Proof. intros id body Hid. exists (Encode id body). split; [done|]. by apply Decode_Encode. Qed.

Lemma messageIndexes_nonempty d : messageIndexes d ≠ [].
Proof.
  unfold messageIndexes. intros H. apply (f_equal (@length Z)) in H. rewrite length_rev in H.
  destruct d as [i [p|]]; done.
Qed.

(** A descriptor as Protobuf's own reflection hands it out: 32-bit positions, nesting far below 2^31. *)
Definition descriptor_ok (d : message_descriptor) : Prop :=
  Forall (inS 32) (messageIndexes d) ∧ zlen (messageIndexes d) < 2 ^ 31.

#[export] Instance descriptor_ok_dec d : Decision (descriptor_ok d).
Proof. unfold descriptor_ok. apply _. Defined.

Lemma protobuf_framing d : descriptor_ok d → Framing (protobufFrame d) unframeProtobuf.
Proof.
  intros [Hi Hl] id body Hid.
  destruct (DecodeProtobuf_Encode id (messageIndexes d) body Hid Hi Hl (messageIndexes_nonempty d)) as (data & He & Hd).
  exists data. split; [done|]. unfold unframeProtobuf. by rewrite Hd.
Qed.

Section Roundtrip.
Context {S T E : Type} (sd : schemaSerde S T E) `{HF : !Framing (sd_frame sd) (sd_unframe sd)}.

(** Serializing frames the body under the subject's ID, and deserializing unframes it again. *)
Lemma lifecycle_roundtrip s topic value id body :
  isNilValue (sd_reflect sd value) = false → IDForSubject (subject sd s topic) (cache_of (sd_cache sd s)) = Some id →
  inS 32 id → serializeBody sd value = Ok body →
  ∃ data, Serialize sd s topic value = Ok (Some data) ∧
    ∀ s', Deserialize sd topic (Some data) s' =
      io_map_err (λ e, match e with BodyPending p => Pending p | BodyFailed e => CannotDeserialize e end)
        (deserializeBody sd id body) s'.
Proof.
  intros Hnil Hid Hr Hb. destruct (framing id body Hr) as (data & Hf & Hu). exists data. split.
  - unfold Serialize. rewrite Hnil, Hid, Hb. cbn [rmap_err rbind]. by rewrite Hf.
  - intros s'. unfold Deserialize. rewrite Hu. done.
Qed.

(** The frame of a value that serialized carries the body of the value. *)
Lemma Serialize_Ok s topic value data id :
  isNilValue (sd_reflect sd value) = false → IDForSubject (subject sd s topic) (cache_of (sd_cache sd s)) = Some id →
  Serialize sd s topic value = Ok (Some data) → ∃ body, serializeBody sd value = Ok body ∧ sd_frame sd id body = Ok data.
Proof.
  intros Hnil Hid. unfold Serialize. rewrite Hnil, Hid. intros H. reader_inv. eexists. split; [done|].
  by destruct (sd_frame sd id _) eqn:?; simplify_eq.
Qed.
End Roundtrip.

(** ** Protobuf values *)

(** A Protobuf serde reads what it writes, and refuses what another message type wrote. Under a topic whose
    subject is resolved to a 32-bit ID with a cached writer schema, a value that the library
    marshals and unmarshals is serialized to a frame with the message's index path, and the frame
    deserializes to that value when the cache holds the serde's own message type for the ID or none; when it
    holds another one, deserializing fails and names it. *)
Theorem protobuf_serde_roundtrip {T E} d FullName text (marshal : T → result E bytes) (unmarshal : bytes → result E T)
    reflect zero role strategy s topic value body id :
  descriptor_ok d → isNilValue (reflect value) = false →
  marshal value = Ok body → unmarshal body = Ok value →
  let sd := NewProtobufSerde d FullName text marshal unmarshal reflect zero role strategy in
  IDForSubject (subject sd s topic) (cache_of s) = Some id → inS 32 id →
  is_Some (writerSchemas (cache_of s) !! id) →
  ∃ data, Serialize sd s topic value = Ok (Some data) ∧ unframeProtobuf data = Ok (MkFrame id body) ∧
    Deserialize sd topic (Some data) s =
      ((if decide (WriterMessageType id (cache_of s) = [] ∨ WriterMessageType id (cache_of s) = FullName)
        then Ok value else Err (CannotDeserialize (MessageTypeMismatch (WriterMessageType id (cache_of s))))), s).
Proof.
  intros Hd Hnil Hm Hu sd Hid Hr [w Hw]. pose proof (protobuf_framing d Hd) as HF.
  destruct (framing id body Hr) as (data & Hf & Hun). exists data. split; [|split].
  - unfold Serialize. cbn -[subject protobufFrame]. rewrite Hnil. change (sd_cache sd s) with s. rewrite Hid.
    rewrite Hm. cbn [rmap_err rbind]. by rewrite Hf.
  - done.
  - unfold Deserialize. change (sd_unframe sd) with unframeProtobuf. rewrite Hun. cbn [rmap_err].
    unfold io_bind at 1, io_lift at 1. cbn [fr_SchemaID fr_Body]. change (deserializeBody sd) with
      (proto_deserializeBody FullName unmarshal). unfold proto_deserializeBody, io_map_err, io_bind, writer_schema, io_map_err, WriterSchema.
    rewrite Hw. cbn [rmap_err]. destruct (decide (_ ∧ _)) as [[H1 H2]|Hn].
    + rewrite decide_False by tauto. done.
    + rewrite decide_True. { by rewrite Hu. }
      destruct (decide (WriterMessageType id (cache_of s) = [])); [by left|].
      destruct (decide (WriterMessageType id (cache_of s) = FullName)); [by right|]. tauto.
Qed.

(** A nested message at path [1; 0], with bytes for values. *)
Definition demo_descriptor : message_descriptor := MkDescriptor 0 (Some (MkDescriptor 1 None)).

Definition demo_proto_state : cached :=
  MkCached (SeedWriterMessageType 7 (str "shop.Order") (SeedWriterSchema 7 (str "syntax") (SeedSubjectID (str "orders-value") 7
    (NewSchemaCache [])))) [].

Lemma protobuf_serde_roundtrip_witness :
  let sd := NewProtobufSerde demo_descriptor (str "shop.Order") (str "syntax") (@Ok unit bytes) (@Ok unit bytes)
    (λ _, Some (Pointer, false)) [] RoleValue None in
  ∃ data, Serialize sd demo_proto_state (str "orders") [x2a] = Ok (Some data) ∧
    Deserialize sd (str "orders") (Some data) demo_proto_state = (Ok [x2a], demo_proto_state).
Proof.
  intros sd.
  destruct (protobuf_serde_roundtrip demo_descriptor (str "shop.Order") (str "syntax") (@Ok unit bytes) (@Ok unit bytes)
    (λ _, Some (Pointer, false)) [] RoleValue None demo_proto_state (str "orders") [x2a] [x2a] 7)
    as (data & Hs & _ & Hd); [by_decide|reflexivity|reflexivity|reflexivity|reflexivity|by_decide|by eexists|].
  exists data. split; [exact Hs|]. etransitivity; [exact Hd|]. reflexivity.
Defined.

(** ** JSON values *)

Section JSONRoundtrip.
Context {T E Validator : Type}.
Context (compile : bytes → result E Validator) (check : Validator → bytes → result E unit).
Context (marshal : T → result E bytes) (unmarshal : bytes → result E T) (valid : bytes → bool).

(** Every validator that is kept was compiled from the writer schema that the cache holds. *)
Definition validators_current (s : json_state) : Prop :=
  ∀ id v, validators s !! id = Some v → ∃ text, writerSchemas (cache_of (js_cached s)) !! id = Some text ∧ compile text = Ok v.

Lemma json_writer_schema_cached s id text :
  writerSchemas (cache_of (js_cached s)) !! id = Some text →
  json_writer_schema (E := E) (Validator := Validator) id s = (Ok text, s).
Proof.
  intros H. unfold json_writer_schema, writer_schema, io_map_err, WriterSchema. rewrite H. by destruct s.
Qed.

Lemma validatorFor_current s id text :
  validators_current s → writerSchemas (cache_of (js_cached s)) !! id = Some text →
  (validatorFor compile id text s).1 = rmap_err InvalidSchema (compile text) ∧
  validators_current (validatorFor compile id text s).2 ∧ js_cached (validatorFor compile id text s).2 = js_cached s.
Proof.
  intros Hc Ht. unfold validatorFor. destruct (validators s !! id) as [v|] eqn:Hv.
  - destruct (Hc id v Hv) as (text' & Ht' & Hv'). assert (text' = text) as -> by congruence. by rewrite Hv'.
  - destruct (compile text) as [v|e] eqn:Hcomp; [|done]. split; [done|]. split; [|done]. intros i v'. cbn.
    rewrite lookup_insert_Some. intros [[<- <-]|[_ H]]; [|by apply Hc]. exists text. done.
Qed.

(** The checks of a document against its writer schema. *)
Definition writer_accepts (validate : bool) (text body : bytes) : result (body_error (json_serde_error (E := E))) unit :=
  if validate then
    let* v := rmap_err BodyFailed (rmap_err InvalidSchema (compile text)) in
    rmap_err (λ e, BodyFailed (JSONCodec e)) (check v body)
  else Ok tt.

Lemma json_validate_spec validate s id text body :
  validators_current s → writerSchemas (cache_of (js_cached s)) !! id = Some text →
  (json_validate compile check validate id text body s).1 = writer_accepts validate text body ∧
  validators_current (json_validate compile check validate id text body s).2 ∧
  js_cached (json_validate compile check validate id text body s).2 = js_cached s.
Proof.
  intros Hc Ht. unfold json_validate, writer_accepts. destruct validate; [|done].
  destruct (validatorFor_current s id text Hc Ht) as (Hr & Hc' & Hj). unfold io_bind, io_map_err.
  destruct (validatorFor compile id text s) as [[v|e] s']; cbn [fst snd] in *; rewrite <- Hr; cbn [rmap_err rbind]; done.
Qed.

(** Deserializing a body whose writer schema is cached: validate it, then decode it. *)
Lemma json_deserializeBody_cached validate s id text body :
  validators_current s → writerSchemas (cache_of (js_cached s)) !! id = Some text →
  let '(r, s') := json_deserializeBody compile check unmarshal validate id body s in
  r = (let* _ := writer_accepts validate text body in rmap_err (λ e, BodyFailed (JSONCodec e)) (unmarshal body)) ∧
  validators_current s' ∧ js_cached s' = js_cached s.
Proof.
  intros Hc Ht. unfold json_deserializeBody. rewrite (io_bind_run _ _ _ _ _ (json_writer_schema_cached s id text Ht)).
  destruct (json_validate_spec validate s id text body Hc Ht) as (Hr & Hc' & Hj). unfold io_bind.
  destruct (json_validate compile check validate id text body s) as [[[]|e] s']; cbn [fst snd] in *; rewrite <- Hr; done.
Qed.

End JSONRoundtrip.

Arguments validators_current {E Validator}.

(** Deserializing a frame of the serde decodes its body. *)
Lemma json_Deserialize {T E Validator} (compile : bytes → result E Validator) check (marshal : T → result E bytes)
    unmarshal valid reflect zero schemaText role validate strategy sd s topic id body :
  NewJSONSchemaSerde compile check marshal unmarshal valid reflect zero schemaText role validate strategy = Ok sd →
  inS 32 id →
  Deserialize sd topic (Some (Encode id body)) s =
    io_map_err (λ e, match e with BodyPending p => Pending p | BodyFailed e => CannotDeserialize e end)
      (json_deserializeBody compile check unmarshal validate id body) s.
Proof.
  intros Hsd Hr. unfold NewJSONSchemaSerde in Hsd. apply rbind_Ok in Hsd as (lv & _ & Hsd). injection Hsd as <-.
  unfold Deserialize. cbn [sd_unframe]. by rewrite Decode_Encode.
Qed.

(** A JSON serde reads what it writes. Take a serde made by [NewJSONSchemaSerde], a value that
    [encoding/json] round-trips, and a topic whose subject is resolved to a 32-bit ID with the serde's own schema
    as the writer schema. When the value serializes, that is when its document passes the local
    validator or validation is off, the frame deserializes to the value, for a validator compiled now or
    kept from before; the validators stay those of the cached writer schemas, and the cache is unchanged. *)
Theorem json_serde_roundtrip {T E Validator} (compile : bytes → result E Validator) check (marshal : T → result E bytes)
    unmarshal valid reflect zero schemaText role validate strategy sd s topic value id data :
  NewJSONSchemaSerde compile check marshal unmarshal valid reflect zero schemaText role validate strategy = Ok sd →
  (∀ body, marshal value = Ok body → unmarshal body = Ok value) → isNilValue (reflect value) = false →
  validators_current compile s → IDForSubject (subject sd s topic) (cache_of (js_cached s)) = Some id → inS 32 id →
  writerSchemas (cache_of (js_cached s)) !! id = Some schemaText →
  Serialize sd s topic value = Ok (Some data) →
  ∃ s', Deserialize sd topic (Some data) s = (Ok value, s') ∧ validators_current compile s' ∧ js_cached s' = js_cached s.
Proof.
  intros Hsd Hcodec Hnil Hcur Hid Hr Hw Hser.
  pose proof (λ body, json_Deserialize compile check marshal unmarshal valid reflect zero schemaText role validate
    strategy sd s topic id body Hsd Hr) as Hde. unfold NewJSONSchemaSerde in Hsd.
  apply rbind_Ok in Hsd as (lv & Hlv & Hsd). injection Hsd as <-.
  eapply Serialize_Ok in Hser as (body & Hb & Hf); [|exact Hnil|exact Hid]. cbn in Hf. injection Hf as <-.
  cbn [serializeBody] in Hb. unfold json_serializeBody in Hb. apply rbind_Ok in Hb as (doc & Hm & Hb).
  destruct (marshal value) as [doc'|e] eqn:Hmv; [|done]. injection Hm as ->. specialize (Hcodec doc eq_refl).
  assert (doc = body ∧ writer_accepts compile check validate schemaText doc = Ok tt) as [-> Hacc].
  { unfold writer_accepts. destruct validate.
    - destruct (compile schemaText) as [v|e] eqn:Hc; [|done]. cbn [rmap_err rbind] in Hlv |- *. injection Hlv as <-.
      apply rbind_Ok in Hb as ([] & Hck & Hb). injection Hb as <-. split; [done|].
      destruct (check v doc) as [[]|e]; [done|discriminate Hck].
    - destruct (valid schemaText); [|done]. injection Hlv as <-. by injection Hb as <-. }
  rewrite Hde. unfold io_map_err.
  pose proof (json_deserializeBody_cached compile check unmarshal validate s id schemaText body Hcur Hw) as H.
  destruct (json_deserializeBody compile check unmarshal validate id body s) as [r s']. destruct H as (-> & Hc' & Hj).
  exists s'. rewrite Hacc. cbn [rbind]. rewrite Hcodec. done.
Qed.

(** *** A serde of raw documents whose schema is the list of bytes that a document may not hold *)

Definition demo_compile (text : bytes) : result unit bytes := Ok text.
Definition demo_check (forbidden body : bytes) : result unit unit :=
  if decide (Forall (λ b, b ∉ forbidden) body) then Ok tt else Err tt.

Definition demo_json_serde : result (json_serde_error (E := unit)) (schemaSerde (json_state (Validator := bytes)) bytes (json_serde_error (E := unit))) :=
  NewJSONSchemaSerde demo_compile demo_check (@Ok unit bytes) (@Ok unit bytes) (λ _, true)
    (λ v, Some (SliceKind, bool_decide (v = []))) [] (str "!") RoleValue true None.

Definition demo_json_state : json_state (Validator := bytes) :=
  MkJSONState (MkCached (SeedWriterSchema 7 (str "!") (SeedSubjectID (str "orders-value") 7 (NewSchemaCache []))) []) ∅.

Lemma json_serde_roundtrip_witness :
  match demo_json_serde with
  | Ok sd => ∃ s', Deserialize sd (str "orders") (Some (Encode 7 (str "{}"))) demo_json_state = (Ok (str "{}"), s') ∧
      validators_current demo_compile s' ∧ js_cached s' = js_cached demo_json_state
  | Err _ => False
  end.
Proof.
  destruct demo_json_serde as [sd|e] eqn:Hsd; [|discriminate Hsd]. unfold demo_json_serde in Hsd.
  refine (json_serde_roundtrip demo_compile demo_check (@Ok unit bytes) (@Ok unit bytes) (λ _, true) _ _ _ _ _ _ sd
    demo_json_state (str "orders") (str "{}") 7 (Encode 7 (str "{}")) Hsd _ _ _ _ _ _ _).
  - intros body [= <-]. reflexivity.
  - reflexivity.
  - intros id v. unfold demo_json_state. cbn [validators]. by rewrite lookup_empty.
  - injection Hsd as <-. reflexivity.
  - by_decide.
  - reflexivity.
  - injection Hsd as <-. reflexivity.
Defined.

(** ** A writer schema that is still on its way *)

(** A pending schema is only a delay. Deserializing a frame whose writer schema is not cached fails with
    the pending error of its ID, bare and retriable, and leaves a fetch of that ID in flight and the validators
    alone; when the fetch succeeds, deserializing the same frame validates the body against
    the fetched schema, if validation is on, and decodes it. *)
Theorem pending_then_value {T E Validator} (compile : bytes → result E Validator) check (marshal : T → result E bytes)
    unmarshal valid reflect zero schemaText role validate strategy sd s topic id body :
  NewJSONSchemaSerde compile check marshal unmarshal valid reflect zero schemaText role validate strategy = Ok sd →
  cache_reachable (js_cached s) → validators_current compile s → inS 32 id →
  writerSchemas (cache_of (js_cached s)) !! id = None →
  let '(r, s1) := Deserialize sd topic (Some (Encode id body)) s in
  r = Err (Pending (MkPending id)) ∧ validators s1 = validators s ∧ id ∈ fetches (js_cached s1) ∧
  ∀ running running' f, fetches (js_cached s1) = running ++ id :: running' →
    let s2 := MkJSONState (MkCached (fetchWriterSchema id (@Ok resolve_error _ f) (cache_of (js_cached s1))) (running ++ running'))
      (validators s1) in
    (Deserialize sd topic (Some (Encode id body)) s2).1 =
      rmap_err (λ e, match e with BodyPending p => Pending p | BodyFailed e => CannotDeserialize e end)
        (let* _ := writer_accepts compile check validate (res_Schema f) body in
         rmap_err (λ e, BodyFailed (JSONCodec e)) (unmarshal body)).
Proof.
  intros Hsd Hreach Hcur Hr Hnone. rewrite (json_Deserialize _ _ _ _ _ _ _ _ _ _ _ _ _ _ _ _ Hsd Hr).
  unfold io_map_err at 1, json_deserializeBody at 1, io_bind, json_writer_schema, writer_schema, io_map_err, WriterSchema.
  rewrite Hnone. cbn [rmap_err validators js_cached]. destruct (cache_reachable_invariant _ Hreach) as [_ Hf].
  split; [done|]. split; [done|]. split.
  { case_bool_decide as Hin; cbn; [by apply Hf|apply list_elem_of_here]. }
  intros running running' f Hrun. rewrite (json_Deserialize _ _ _ _ _ _ _ _ _ _ _ _ _ _ _ _ Hsd Hr).
  unfold io_map_err. match goal with |- context [json_deserializeBody _ _ _ _ _ _ ?st] => set (s2 := st) end.
  pose proof (json_deserializeBody_cached compile check unmarshal validate s2 id (res_Schema f) body) as H.
  destruct (json_deserializeBody compile check unmarshal validate id body s2) as [r s3].
  destruct H as (-> & _); [| |done].
  - intros i v Hv. apply Hcur in Hv as (text & Ht & Hv). exists text. split; [|done].
    subst s2. cbn [js_cached cache_of]. rewrite fetchWriterSchema_schemas. rewrite lookup_insert_ne by congruence.
    by destruct (negb _).
  - subst s2. cbn [js_cached cache_of]. rewrite fetchWriterSchema_schemas. apply lookup_insert_eq.
Qed.

Lemma pending_then_value_witness :
  match demo_json_serde with
  | Ok sd =>
      let s := MkJSONState (MkCached (NewSchemaCache []) []) ∅ in
      (Deserialize sd (str "orders") (Some (Encode 7 (str "{}"))) s).1 = Err (Pending (MkPending 7)) ∧
      fetches (js_cached (Deserialize sd (str "orders") (Some (Encode 7 (str "{}"))) s).2) = [7]
  | Err _ => False
  end.
Proof.
  destruct demo_json_serde as [sd|e] eqn:Hsd; [|discriminate Hsd]. unfold demo_json_serde in Hsd. intros s.
  pose proof (pending_then_value demo_compile demo_check (@Ok unit bytes) (@Ok unit bytes) (λ _, true) _ _ _ _ _ _ sd
    s (str "orders") 7 (str "{}") Hsd) as H.
  destruct (Deserialize sd (str "orders") (Some (Encode 7 (str "{}"))) s) as [r s1] eqn:Hd.
  destruct H as (Hr & _).
  - exists []. split; [constructor|apply rtc_refl].
  - intros id v. cbn [validators s]. by rewrite lookup_empty.
  - by_decide.
  - reflexivity.
  - split; [exact Hr|]. injection Hsd as <-. injection Hd as _ <-. reflexivity.
Defined.

(** ** References of an Avro schema *)

(** A schema text of two bytes: the name it defines and the name it uses, which must be defined before,
    unless it is its own. *)
Definition demo_ParseWithCache (text : bytes) (defined : list byte) : result unit bytes * list byte :=
  match text with
  | [name; used] =>
      if decide (used = name ∨ used ∈ defined) then (Ok text, name :: defined) else (Err tt, defined)
  | _ => (Err tt, defined)
  end.

(** The order of Go's map iteration decides whether a writer schema with nested references parses: dependencies
    first it does, the other way round it does not. *)
Lemma reference_order_matters :
  ∃ (s : cached) (order order' : gmap bytes bytes → list (bytes * bytes)),
    (∀ m, order m ≡ₚ map_to_list m) ∧ (∀ m, order' m ≡ₚ map_to_list m) ∧
    (avro_writerSchema (E := unit) [] demo_ParseWithCache order 7 s).1 = Ok (str "cb") ∧
    (avro_writerSchema (E := unit) [] demo_ParseWithCache order' 7 s).1 =
      Err (BodyFailed (InvalidAvroReference (str "b") tt)).
Proof.
  exists (MkCached (fetchWriterSchema 7 (@Ok unit _ (MkResolved (str "cb") []
    (list_to_map [(str "a", str "aa"); (str "b", str "ba")]))) (NewSchemaCache [])) []),
    (λ m, rev (map_to_list m)), map_to_list.
  split; [intros m; symmetry; apply Permutation_rev|]. split; [done|]. split; vm_compute; reflexivity.
Qed.
