(* ===== verification/JsonSchema.v ===== *)
(** * Validation of documents, from schema/jsonschema.go

    The functions of the JSON Schema serde around the validation library, and what validation guards. The library is a
    class of operations: documents, a compiler that is given resources, validators, and the tree of causes of a failed validation. *)

From S2P Require Import Prelude GoStd Kafka Json GoNet WireFormat Client Cache Serde.

#[local] Open Scope Z_scope.

(** [jsonschema.ValidationError]: its message, as [LocalizedString] prints it in English, and its causes. *)
Inductive ValidationError := MkValidationError { ve_Message : bytes; ve_Causes : list ValidationError }.

(** What [Validate] returns besides nil: a validation error, or another one with its text. *)
Inductive validate_error := Invalid (e : ValidationError) | OtherError (text : bytes).

Class JSONSchemaLib := {
  document : Type;
  compiler : Type;
  validator : Type;
  library_error : Type;
  UnmarshalJSON : bytes → result library_error document;
  NewCompiler : compiler;
  DefaultDraft2020 : compiler → compiler;
  AddResource : compiler → bytes → document → result library_error compiler;
  Compile : compiler → bytes → result library_error validator;
  Validate : validator → document → option validate_error;
}.

Section Validation.
Context {L : JSONSchemaLib}.

Inductive json_error := LibraryError (e : library_error) | ValidationFailed (message : bytes).

Definition resource : bytes := str "schema.json".

Definition compileJSONSchema (schemaText : bytes) : result json_error validator :=
  rmap_err LibraryError (
    let* doc := UnmarshalJSON schemaText in
    let* c := AddResource (DefaultDraft2020 NewCompiler) resource doc in
    Compile c resource).

(** The loop follows the first cause while there is one. *)
Fixpoint firstLeafMessage (e : ValidationError) : bytes :=
  match ve_Causes e with [] => ve_Message e | cause :: _ => firstLeafMessage cause end.

Definition asValidationError (e : validate_error) : option ValidationError := match e with Invalid v => Some v | OtherError _ => None end.

(** [Error] is the text of an error. *)
Context (Error : ValidationError → bytes).

Definition error_text (e : validate_error) : bytes := match e with Invalid v => Error v | OtherError text => text end.

Definition validateJSON (v : validator) (body : bytes) : result json_error unit :=
  let* doc := rmap_err LibraryError (UnmarshalJSON body) in
  match Validate v doc with
  | None => Ok tt
  | Some e =>
      let message := match asValidationError e with Some validation => firstLeafMessage validation | None => error_text e end in
      Err (ValidationFailed message)
  end.

(** ** Leaves *)

Inductive leaf_of : ValidationError → ValidationError → Prop :=
| leaf_here e : ve_Causes e = [] → leaf_of e e
| leaf_below e cause leaf : cause ∈ ve_Causes e → leaf_of cause leaf → leaf_of e leaf.

Section causes.
Context (P : ValidationError → Prop) (step : ∀ e, Forall P (ve_Causes e) → P e).
Fixpoint ValidationError_nested_ind (e : ValidationError) : P e :=
  step e ((fix all (l : list ValidationError) : Forall P l :=
    match l with [] => Forall_nil_2 _ | c :: l => Forall_cons_2 _ _ _ (ValidationError_nested_ind c) (all l) end) (ve_Causes e)).
End causes.

Lemma firstLeafMessage_unfold e :
  firstLeafMessage e = match ve_Causes e with [] => ve_Message e | cause :: _ => firstLeafMessage cause end.
Proof. by destruct e. Qed.

(** The message is that of a leaf of the tree. *)
Lemma firstLeafMessage_leaf e : ∃ leaf, leaf_of e leaf ∧ firstLeafMessage e = ve_Message leaf.
Proof.
  induction e as [e IH] using ValidationError_nested_ind. rewrite firstLeafMessage_unfold.
  destruct (ve_Causes e) as [|cause causes] eqn:Hc; [exists e; split; [by constructor|done]|].
  apply Forall_cons in IH as [(leaf & Hl & Hm) _]. exists leaf. split; [|done]. eapply leaf_below; [|done]. rewrite Hc. left.
Qed.

(** ** The serde that validates *)

Section Guard.
Context {T : Type} (marshal : T → result json_error bytes) (unmarshal : bytes → result json_error T) (valid : bytes → bool).
Context (reflect : T → option (reflect_kind * bool)) (zero : T) (role : Role) (strategy : option SubjectNameStrategy).

Definition validating_serde (schemaText : bytes) :=
  NewJSONSchemaSerde compileJSONSchema validateJSON marshal unmarshal valid reflect zero schemaText role true strategy.

(** A body that a validator accepts: a document without a validation error. *)
Definition accepts (v : validator) (body : bytes) : Prop := ∃ doc, UnmarshalJSON body = Ok doc ∧ Validate v doc = None.

Lemma validateJSON_Ok v body : validateJSON v body = Ok tt ↔ accepts v body.
Proof.
  unfold validateJSON, accepts. destruct (UnmarshalJSON body) as [doc|e]; cbn [rmap_err rbind]; [|naive_solver].
  destruct (Validate v doc) eqn:Hv; naive_solver.
Qed.

(** Validation guards both directions. A serde that validates exists only for a schema that compiles. It writes a value that is not nil
    only as a document that the schema accepts. And for a writer schema that is cached, a frame is read as a value only when
    its body is a document that the writer schema accepts; when that schema compiles and the body is a document that it rejects, reading
    fails with the message of a leaf of the validation error. *)
Theorem validation_guards schemaText sd s topic :
  validating_serde schemaText = Ok sd →
  ∃ local, compileJSONSchema schemaText = Ok local ∧
    (∀ value data id, isNilValue (reflect value) = false → IDForSubject (subject sd s topic) (cache_of (js_cached s)) = Some id →
       Serialize sd s topic value = Ok (Some data) → ∃ body, data = Encode id body ∧ marshal value = Ok body ∧ accepts local body) ∧
    (∀ id body writer, inS 32 id → validators_current compileJSONSchema s → writerSchemas (cache_of (js_cached s)) !! id = Some writer →
       (∀ value, (Deserialize sd topic (Some (Encode id body)) s).1 = Ok value →
          ∃ v, compileJSONSchema writer = Ok v ∧ accepts v body ∧ unmarshal body = Ok value) ∧
       (∀ v doc e, compileJSONSchema writer = Ok v → UnmarshalJSON body = Ok doc → Validate v doc = Some (Invalid e) →
          ∃ leaf, leaf_of e leaf ∧ (Deserialize sd topic (Some (Encode id body)) s).1 =
            Err (CannotDeserialize (JSONCodec (ValidationFailed (ve_Message leaf)))))).
Proof.
  intros Hsd. pose proof (λ id body, json_Deserialize compileJSONSchema validateJSON marshal unmarshal valid reflect zero schemaText role true
    strategy sd s topic id body Hsd) as Hde.
  pose proof Hsd as Hsd'. unfold validating_serde, NewJSONSchemaSerde in Hsd'. apply rbind_Ok in Hsd' as (lv & Hlv & Hmk).
  destruct (compileJSONSchema schemaText) as [local|e] eqn:Hc; [|done]. injection Hlv as <-. injection Hmk as Hmk.
  exists local. split; [done|]. split.
  - intros value data id Hnil Hid Hser. rewrite <- Hmk in *.
    eapply Serialize_Ok in Hser as (body & Hb & Hf); [|exact Hnil|exact Hid]. cbn in Hf. injection Hf as <-. exists body. split; [done|].
    cbn [serializeBody] in Hb. unfold json_serializeBody in Hb. apply rbind_Ok in Hb as (doc & Hm & ([] & Hv & [= ->])%rbind_Ok).
    destruct (marshal value); [|done]. injection Hm as ->. split; [done|]. apply validateJSON_Ok. by destruct (validateJSON local body) as [[]|].
  - intros id body writer Hr Hcur Hw. rewrite Hde by done. unfold io_map_err.
    pose proof (json_deserializeBody_cached compileJSONSchema validateJSON unmarshal true s id writer body Hcur Hw) as H.
    destruct (json_deserializeBody _ _ _ _ _ _ _) as [r s']. destruct H as (-> & _). cbn [fst]. unfold writer_accepts. split.
    + intros value Hv. destruct (compileJSONSchema writer) as [v|e]; [|done]. cbn [rmap_err rbind] in Hv. exists v. split; [done|].
      destruct (validateJSON v body) as [[]|e] eqn:Hva; [|done]. cbn [rmap_err rbind] in Hv. split; [by apply validateJSON_Ok|].
      by destruct (unmarshal body); simplify_eq/=.
    + intros v doc e -> Hdoc Hv. cbn [rmap_err rbind]. destruct (firstLeafMessage_leaf e) as (leaf & Hl & Hm). exists leaf. split; [done|].
      unfold validateJSON. rewrite Hdoc. cbn [rmap_err rbind]. rewrite Hv. cbn [asValidationError]. by rewrite Hm.
Qed.

End Guard.

End Validation.

(** ** A small library

    A schema is the text of a byte that a document may not hold; the failed validation has one cause for each such byte, below the
    document. *)
#[local] Instance small_library : JSONSchemaLib := {|
  document := bytes;
  compiler := option bytes;
  validator := byte;
  library_error := unit;
  UnmarshalJSON text := match text with [] => Err tt | _ => Ok text end;
  NewCompiler := None;
  DefaultDraft2020 c := c;
  AddResource _ _ doc := Ok (Some doc);
  Compile c _ := match c with Some [b] => Ok b | _ => Err tt end;
  Validate b doc :=
    if decide (b ∈ doc) then Some (Invalid (MkValidationError (str "invalid") [MkValidationError (str "bad byte") []])) else None;
|}.

Definition small_serde (schemaText : bytes) :=
  validating_serde (λ _, str "invalid") (@Ok json_error bytes) (@Ok json_error bytes) (λ _, true) (λ _, Some (SliceKind, false)) []
    RoleValue None schemaText.

Definition small_state : json_state (Validator := byte) :=
  MkJSONState (MkCached (SeedWriterSchema 7 (str "!") (SeedSubjectID (str "orders-value") 7 (NewSchemaCache []))) []) ∅.

Lemma validation_guards_witness :
  match small_serde (str "!") with
  | Ok sd =>
      ∃ leaf, (Deserialize sd (str "orders") (Some (Encode 7 (str "a!b"))) small_state).1 =
        Err (CannotDeserialize (JSONCodec (ValidationFailed (ve_Message leaf)))) ∧
      (Deserialize sd (str "orders") (Some (Encode 7 (str "a!b"))) small_state).1 =
        Err (CannotDeserialize (JSONCodec (ValidationFailed (str "bad byte"))))
  | Err _ => False
  end.
Proof.
  destruct (small_serde (str "!")) as [sd|e] eqn:Hsd; [|discriminate Hsd].
  destruct (validation_guards (λ _, str "invalid") (@Ok json_error bytes) (@Ok json_error bytes) (λ _, true) (λ _, Some (SliceKind, false)) []
    RoleValue None (str "!") sd small_state (str "orders") Hsd) as (local & _ & _ & Hread).
  destruct (Hread 7 (str "a!b") (str "!")) as [_ Hbad]; [by_decide| |reflexivity|].
  - intros id v. unfold small_state. cbn [validators]. by rewrite lookup_empty.
  - edestruct (Hbad x21 (str "a!b")) as (leaf & _ & Hleaf); [reflexivity|reflexivity|reflexivity|].
    exists leaf. split; [exact Hleaf|]. injection Hsd as <-. by vm_compute.
Defined.
