(* ===== verification/Compat.v ===== *)
(** * Local compatibility checks of schema/compat.go

    The checks of a previous and a candidate schema in one mode, for Avro (over the library's reader check),
    JSON Schema and Protobuf descriptors. A reported incompatibility is a value that holds what its
    message prints. *)

From S2P Require Import Prelude GoStd Kafka Json.

Inductive CompatibilityMode := Backward | Forward | Full.

#[global] Instance CompatibilityMode_eq_dec : EqDecision CompatibilityMode.
Proof. solve_decision. Defined.

Definition CompatibilityMode_String (m : CompatibilityMode) : bytes :=
  match m with Backward => str "BACKWARD" | Forward => str "FORWARD" | Full => str "FULL" end.

Record CompatibilityResult (I : Type) := MkCompatibility { Compatible : bool; Incompatibilities : list I }.
Arguments MkCompatibility {I}.
Arguments Compatible {I}.
Arguments Incompatibilities {I}.

Definition directions (mode : CompatibilityMode) : list CompatibilityMode :=
  match mode with Full => [Backward; Forward] | _ => [mode] end.

(** The loop over the directions, around the check of one reader against one writer. *)
Definition check_directions {S I} (check : S → S → CompatibilityMode → list I) (previous candidate : S)
    (mode : CompatibilityMode) : CompatibilityResult I :=
  let errors :=
    concat (map (λ direction,
      if decide (direction = Backward) then check candidate previous direction
      else check previous candidate direction) (directions mode)) in
  MkCompatibility (bool_decide (length errors = 0%nat)) errors.

(** ** Avro *)

Section AvroCheck.
(** [avro.Parse] and [SchemaCompatibility.Compatible], which returns an error or nil. *)
Context {Schema E : Type} (avro_Parse : bytes → result E Schema) (avro_Compatible : Schema → Schema → option E).

Inductive avro_compat_error := InvalidPrevious (e : E) | InvalidCandidate (e : E).

Definition check_avro (reader writer : Schema) (direction : CompatibilityMode) : list (CompatibilityMode * E) :=
  match avro_Compatible reader writer with Some e => [(direction, e)] | None => [] end.

Definition AvroCompatibility (previousSchema candidateSchema : bytes) (mode : CompatibilityMode)
    : result avro_compat_error (CompatibilityResult (CompatibilityMode * E)) :=
  let* previous := rmap_err InvalidPrevious (avro_Parse previousSchema) in
  let* candidate := rmap_err InvalidCandidate (avro_Parse candidateSchema) in
  Ok (check_directions check_avro previous candidate mode).
End AvroCheck.

(** ** JSON Schema *)

(** A schema node: the members of its object. *)
Abbreviation node := (list (bytes * json)).

Inductive json_incompatibility :=
| NarrowsType (direction : CompatibilityMode) (path : bytes) (writerTypes readerTypes : list bytes)
| BecameRequired (direction : CompatibilityMode) (path : bytes)
| NoLongerAllowed (direction : CompatibilityMode) (path : bytes).

#[global] Instance json_incompatibility_eq_dec : EqDecision json_incompatibility.
Proof. solve_decision. Defined.

Definition json_text (value : json) : option bytes := match value with JString text => Some text | _ => None end.

Definition jsonTypes (schemaNode : node) : list bytes :=
  match member schemaNode (str "type") with
  | Some (JString text) => [text]
  | Some (JArray items) => omap json_text items
  | _ => []
  end.

Definition jsonStrings (value : option json) : list bytes :=
  match value with Some (JArray items) => omap json_text items | _ => [] end.

(** The decoded map: a key that repeats keeps its last value. *)
Definition fields_map (members : node) : gmap bytes json := fold_left (λ m entry, <[entry.1 := entry.2]> m) members ∅.

Definition json_object (value : json) : option node := match value with JObject members => Some members | _ => None end.

Definition jsonProperties (schemaNode : node) : gmap bytes node :=
  match member schemaNode (str "properties") with
  | Some (JObject properties) => omap json_object (fields_map properties)
  | _ => ∅
  end.

Definition containsAll (values targets : list bytes) : bool := forallb (λ target, bool_decide (target ∈ values)) targets.

Definition childPath (path name : bytes) : bytes :=
  if decide (path = []) then name else path ++ ascii_byte "." :: name.

Definition json_false (value : option json) : bool := match value with Some (JBool b) => negb b | _ => false end.

(** One level of the check, around the check of one property. *)
Definition check_properties (rec : node → node → bytes → list json_incompatibility) (reader writer : node) (path : bytes)
    (direction : CompatibilityMode) : list json_incompatibility :=
  concat (map (λ name,
    match jsonProperties reader !! name, jsonProperties writer !! name with
    | Some readerProperty, Some writerProperty => rec readerProperty writerProperty (childPath path name)
    | None, _ =>
        if json_false (member reader (str "additionalProperties")) then [NoLongerAllowed direction (childPath path name)]
        else []
    | _, None => []
    end) (sorted_keys (jsonProperties writer))).

Fixpoint checkJSONReader (fuel : nat) (reader writer : node) (path : bytes) (direction : CompatibilityMode)
    : list json_incompatibility :=
  match fuel with
  | O => []
  | S fuel =>
      let readerTypes := jsonTypes reader in
      let writerTypes := jsonTypes writer in
      if bool_decide (readerTypes ≠ []) && (bool_decide (writerTypes = []) || negb (containsAll readerTypes writerTypes))
      then [NarrowsType direction path writerTypes readerTypes]
      else if negb (bool_decide (str "object" ∈ readerTypes)) && bool_decide (member reader (str "properties") = None)
      then []
      else
        let readerRequired := jsonStrings (member reader (str "required")) in
        let writerRequired := jsonStrings (member writer (str "required")) in
        map (λ required, BecameRequired direction (childPath path required))
          (filter (λ required, required ∉ writerRequired) readerRequired) ++
        check_properties (λ r w p, checkJSONReader fuel r w p direction) reader writer path direction
  end.

(** The nesting of a document, which bounds the recursion. *)
Fixpoint json_height (j : json) : nat :=
  match j with
  | JArray items => S (fold_right Nat.max 0%nat (map json_height items))
  | JObject members => S (fold_right Nat.max 0%nat (map (λ m, json_height m.2) members))
  | _ => 0%nat
  end.

Definition check_json (reader writer : node) (direction : CompatibilityMode) : list json_incompatibility :=
  checkJSONReader (json_height (JObject reader)) reader writer [] direction.

Inductive json_compat_error := InvalidJSONSchema.

(** [Unmarshal] parses a document; the target is a map, so the document is an object or null. *)
Definition JSONCompatibility (Unmarshal : bytes → option json) (previousSchema candidateSchema : bytes)
    (mode : CompatibilityMode) : result json_compat_error (CompatibilityResult json_incompatibility) :=
  match into_fields (Unmarshal previousSchema), into_fields (Unmarshal candidateSchema) with
  | Some previous, Some candidate => Ok (check_directions check_json previous candidate mode)
  | _, _ => Err InvalidJSONSchema
  end.

(** ** Protobuf *)

(** [protoreflect.Kind] and [protoreflect.Cardinality]. *)
Inductive field_kind :=
| BoolKind | EnumKind | Int32Kind | Sint32Kind | Uint32Kind | Int64Kind | Sint64Kind | Uint64Kind
| Sfixed32Kind | Fixed32Kind | FloatKind | Sfixed64Kind | Fixed64Kind | DoubleKind
| StringKind | BytesKind | MessageKind | GroupKind.

Inductive cardinality := OptionalField | RequiredField | RepeatedField.

#[global] Instance field_kind_eq_dec : EqDecision field_kind.
Proof. solve_decision. Defined.
#[global] Instance cardinality_eq_dec : EqDecision cardinality.
Proof. solve_decision. Defined.

Record FieldDescriptor := MkField {
  field_Number : Z;
  field_Name : bytes;
  field_Kind : field_kind;
  field_Cardinality : cardinality;
  field_IsList : bool
}.

Inductive MessageDescriptor := MkMessage (FullName : bytes) (Fields : list FieldDescriptor) (Messages : list MessageDescriptor).

Definition message_FullName (m : MessageDescriptor) : bytes := match m with MkMessage name _ _ => name end.
Definition message_Fields (m : MessageDescriptor) : list FieldDescriptor := match m with MkMessage _ fields _ => fields end.

(** [FieldDescriptors.ByNumber]. *)
Definition ByNumber (fields : list FieldDescriptor) (number : Z) : option FieldDescriptor :=
  find (λ f, field_Number f =? number) fields.

Definition protoWireType (field : FieldDescriptor) : Z :=
  match field_Kind field with
  | Int32Kind | Int64Kind | Uint32Kind | Uint64Kind | Sint32Kind | Sint64Kind | BoolKind | EnumKind => 0
  | Fixed64Kind | Sfixed64Kind | DoubleKind => 1
  | StringKind | BytesKind | MessageKind => 2
  | GroupKind => 3
  | _ => 5
  end.

Fixpoint addProtoMessage (message : MessageDescriptor) (m : gmap bytes MessageDescriptor) : gmap bytes MessageDescriptor :=
  match message with
  | MkMessage name _ nested => fold_left (λ m message, addProtoMessage message m) nested (<[name := message]> m)
  end.

Definition protoMessages (file : list MessageDescriptor) : gmap bytes MessageDescriptor :=
  fold_left (λ m message, addProtoMessage message m) file ∅.

Inductive proto_incompatibility :=
| MessageAbsent (direction : CompatibilityMode) (name : bytes)
| FieldChanged (direction : CompatibilityMode) (name : bytes) (number : Z)
| RequiredAbsent (direction : CompatibilityMode) (name field : bytes).

Definition field_changed (readerMessage : MessageDescriptor) (writerField : FieldDescriptor) : bool :=
  match ByNumber (message_Fields readerMessage) (field_Number writerField) with
  | Some readerField =>
      negb (protoWireType readerField =? protoWireType writerField) ||
      negb (bool_decide (field_IsList readerField = field_IsList writerField))
  | None => false
  end.

Definition required_absent (writerMessage : MessageDescriptor) (readerField : FieldDescriptor) : bool :=
  bool_decide (field_Cardinality readerField = RequiredField) &&
  bool_decide (ByNumber (message_Fields writerMessage) (field_Number readerField) = None).

Definition check_message (direction : CompatibilityMode) (name : bytes) (reader writer : MessageDescriptor)
    : list proto_incompatibility :=
  map (λ f, FieldChanged direction name (field_Number f)) (List.filter (field_changed reader) (message_Fields writer)) ++
  map (λ f, RequiredAbsent direction name (field_Name f)) (List.filter (required_absent writer) (message_Fields reader)).

Definition checkProtobufReader (reader writer : list MessageDescriptor) (direction : CompatibilityMode)
    : list proto_incompatibility :=
  concat (map (λ name,
    match protoMessages writer !! name, protoMessages reader !! name with
    | Some writerMessage, Some readerMessage => check_message direction name readerMessage writerMessage
    | Some _, None => [MessageAbsent direction name]
    | None, _ => []
    end) (sorted_keys (protoMessages writer))).

Definition ProtobufCompatibility (previous candidate : list MessageDescriptor) (mode : CompatibilityMode)
    : CompatibilityResult proto_incompatibility :=
  check_directions checkProtobufReader previous candidate mode.

(** ** Modes *)

Lemma check_directions_Compatible {S I} (check : S → S → CompatibilityMode → list I) previous candidate mode :
  Compatible (check_directions check previous candidate mode) = true ↔
  ∀ d, d ∈ directions mode →
    (if decide (d = Backward) then check candidate previous d else check previous candidate d) = [].
Proof.
  cbn [Compatible check_directions]. rewrite bool_decide_eq_true, length_zero_iff_nil.
  rewrite concat_nil_Forall, Forall_map, Forall_forall. done.
Qed.

Lemma elem_of_directions d mode :
  d ∈ directions mode ↔ d = Backward ∧ mode ≠ Forward ∨ d = Forward ∧ mode ≠ Backward.
Proof. destruct mode, d; cbn [directions]; rewrite list_elem_of_In; cbn; intuition congruence. Qed.

(** Each mode checks its directions: reader and writer swap between them. *)
Lemma check_directions_modes {S I} (check : S → S → CompatibilityMode → list I) previous candidate mode :
  Compatible (check_directions check previous candidate mode) = true ↔
  (mode ≠ Forward → check candidate previous Backward = []) ∧ (mode ≠ Backward → check previous candidate Forward = []).
Proof.
  rewrite check_directions_Compatible. setoid_rewrite elem_of_directions. split.
  - intros H. split; intros Hm; [apply (H Backward)|apply (H Forward)]; auto.
  - intros [H1 H2] d [[-> Hm]|[-> Hm]]; [by apply H1|by apply H2].
Qed.

(** ** Self-compatibility *)

Lemma concat_map_nil {A B} (f : A → list B) l : (∀ x, x ∈ l → f x = []) → concat (map f l) = [].
Proof. intros H. by apply concat_nil_Forall, Forall_map, Forall_forall. Qed.

Lemma containsAll_refl l : containsAll l l = true.
Proof. apply forallb_forall. intros x Hx%list_elem_of_In. by apply bool_decide_eq_true. Qed.

Lemma filter_self (l : list bytes) : filter (λ x, x ∉ l) l = [].
Proof.
  assert (∀ k, (∀ x, x ∈ k → x ∈ l) → filter (λ x, x ∉ l) k = []) as H; [|by apply H].
  induction k as [|a k IH]; intros Hk; [done|]. rewrite filter_cons_False.
  - apply IH. intros x Hx. by apply Hk, list_elem_of_further.
  - intros Hn. apply Hn, Hk, list_elem_of_here.
Qed.

Lemma checkJSONReader_self fuel s path direction : checkJSONReader fuel s s path direction = [].
Proof.
  revert s path. induction fuel as [|fuel IH]; intros s path; cbn [checkJSONReader]; [done|].
  rewrite containsAll_refl. rewrite orb_false_r.
  assert (bool_decide (jsonTypes s ≠ []) && bool_decide (jsonTypes s = []) = false) as ->.
  { apply andb_false_iff. destruct (jsonTypes s); [by left|by right]. }
  destruct (negb _ && _); [done|]. rewrite filter_self. cbn [map app]. apply concat_map_nil.
  intros name [p Hp]%elem_of_sorted_keys. rewrite Hp. apply IH.
Qed.

Lemma ByNumber_Some fields n f : ByNumber fields n = Some f → f ∈ fields ∧ field_Number f = n.
Proof. unfold ByNumber. intros [H1 H2]%find_some. split; [by apply list_elem_of_In|lia]. Qed.

Lemma ByNumber_None fields n : ByNumber fields n = None → ∀ f, f ∈ fields → field_Number f ≠ n.
Proof. unfold ByNumber. intros H f Hf%list_elem_of_In. pose proof (find_none _ _ H f Hf) as Hn. cbn in Hn. lia. Qed.

Lemma ByNumber_unique fields f :
  NoDup (map field_Number fields) → f ∈ fields → ByNumber fields (field_Number f) = Some f.
Proof.
  intros Hn Hf. destruct (ByNumber fields (field_Number f)) as [g|] eqn:Hg.
  - apply ByNumber_Some in Hg as [Hg Hnum]. f_equal. by apply (NoDup_map_inj field_Number fields).
  - by destruct (ByNumber_None _ _ Hg f Hf).
Qed.

(** ** Protobuf *)

(** The wire types of the encoding, and the one of each kind of field. *)
Inductive wire_type := Varint | SixtyFourBit | LengthDelimited | StartGroup | ThirtyTwoBit.

Definition on_wire (kind : field_kind) : wire_type :=
  match kind with
  | BoolKind | EnumKind | Int32Kind | Sint32Kind | Uint32Kind | Int64Kind | Sint64Kind | Uint64Kind => Varint
  | Sfixed64Kind | Fixed64Kind | DoubleKind => SixtyFourBit
  | StringKind | BytesKind | MessageKind => LengthDelimited
  | GroupKind => StartGroup
  | Sfixed32Kind | Fixed32Kind | FloatKind => ThirtyTwoBit
  end.

(** A file declares its messages and, at every depth, the messages within them. *)
Definition message_Messages (m : MessageDescriptor) : list MessageDescriptor := match m with MkMessage _ _ nested => nested end.

Inductive declares (file : list MessageDescriptor) : MessageDescriptor → Prop :=
| declares_top m : m ∈ file → declares file m
| declares_nested m n : declares file m → n ∈ message_Messages m → declares file n.

(** A file that the library accepts: full names tell its messages apart, and numbers the fields of each. *)
Record file_wf (file : list MessageDescriptor) : Prop := {
  wf_names m n : declares file m → declares file n → message_FullName m = message_FullName n → m = n;
  wf_numbers m : declares file m → NoDup (map field_Number (message_Fields m))
}.

(** What a reader message must satisfy for a writer message, and a reader file for a writer file. *)
Definition message_readable (reader writer : MessageDescriptor) : Prop :=
  (∀ f g, f ∈ message_Fields writer → g ∈ message_Fields reader → field_Number g = field_Number f →
     on_wire (field_Kind g) = on_wire (field_Kind f) ∧ field_IsList g = field_IsList f) ∧
  (∀ g, g ∈ message_Fields reader → field_Cardinality g = RequiredField →
     ∃ f, f ∈ message_Fields writer ∧ field_Number f = field_Number g).

Definition file_readable (reader writer : list MessageDescriptor) : Prop :=
  ∀ w, declares writer w → ∃ r, declares reader r ∧ message_FullName r = message_FullName w ∧ message_readable r w.

Section message_nested_ind.
Variable P : MessageDescriptor → Prop.
Hypothesis Hmessage : ∀ name fields nested, Forall P nested → P (MkMessage name fields nested).

Fixpoint message_nested_ind (m : MessageDescriptor) : P m :=
  match m with
  | MkMessage name fields nested =>
      Hmessage name fields nested ((fix go l : Forall P l :=
        match l with [] => Forall_nil_2 _ | x :: l => Forall_cons_2 _ _ _ (message_nested_ind x) (go l) end) nested)
  end.
End message_nested_ind.

Lemma declares_mono l l' x : (∀ m, m ∈ l → declares l' m) → declares l x → declares l' x.
Proof. intros H. induction 1; [auto|]. by eapply declares_nested. Qed.

Lemma declares_nil x : ¬ declares [] x.
Proof. induction 1 as [m Hm|]; [by apply not_elem_of_nil in Hm|done]. Qed.

Lemma declares_cons m l x : declares (m :: l) x ↔ declares [m] x ∨ declares l x.
Proof.
  split.
  - induction 1 as [n [->|Hn]%elem_of_cons|n n' _ IH Hn].
    + left. by apply declares_top, list_elem_of_singleton.
    + right. by apply declares_top.
    + destruct IH; [left|right]; by eapply declares_nested.
  - intros [H|H]; (eapply declares_mono; [|exact H]); intros n Hn; apply declares_top.
    + apply list_elem_of_singleton in Hn as ->. apply list_elem_of_here.
    + by apply list_elem_of_further.
Qed.

Lemma declares_within m x : declares [m] x ↔ x = m ∨ declares (message_Messages m) x.
Proof.
  assert (declares [m] m) as Hm by by apply declares_top, list_elem_of_singleton. split.
  - induction 1 as [n Hn|n n' _ IH Hn]; [left; by apply list_elem_of_singleton in Hn|right].
    destruct IH as [->|IH]; [by apply declares_top|by eapply declares_nested].
  - intros [->|H]; [done|]. eapply declares_mono; [|exact H]. intros n Hn. by eapply declares_nested.
Qed.

(** [add] collects what [has] names, over what was there. *)
Definition collects (has : MessageDescriptor → Prop) (add : gmap bytes MessageDescriptor → gmap bytes MessageDescriptor) : Prop :=
  ∀ m name,
    (∀ x, add m !! name = Some x → has x ∧ message_FullName x = name ∨ m !! name = Some x) ∧
    (is_Some (m !! name) ∨ (∃ x, has x ∧ message_FullName x = name) → is_Some (add m !! name)).

Lemma collects_list l :
  Forall (λ m, collects (declares [m]) (addProtoMessage m)) l →
  collects (declares l) (fold_left (λ m message, addProtoMessage message m) l).
Proof.
  induction 1 as [|a l Ha _ IH]; intros m name; cbn [fold_left].
  - split; [auto|]. intros [H|(x & []%declares_nil & _)]. done.
  - destruct (Ha m name) as [A1 A2], (IH (addProtoMessage a m) name) as [B1 B2]. setoid_rewrite declares_cons. split.
    + intros x [[Hx Hn]|Hx%A1]%B1; [tauto|]. destruct Hx as [[Hx Hn]|]; tauto.
    + intros [H|(x & [H|H] & Hn)]; apply B2; [left; auto|left; apply A2; eauto|eauto].
Qed.

Lemma addProtoMessage_collects m : collects (declares [m]) (addProtoMessage m).
Proof.
  induction m as [name fields nested IH] using message_nested_ind. intros m n. cbn [addProtoMessage].
  destruct (collects_list _ IH (<[name := MkMessage name fields nested]> m) n) as [H1 H2].
  setoid_rewrite declares_within. cbn [message_Messages]. split.
  - intros x [[Hx Hn]|Hx]%H1; [tauto|]. apply lookup_insert_Some in Hx as [[<- <-]|[_ Hx]]; tauto.
  - intros H. apply H2. destruct (decide (n = name)) as [->|Hne]; [left; rewrite lookup_insert_eq; by eexists|].
    rewrite lookup_insert_ne by done. destruct H as [H|(x & [->|H] & Hn)]; [by left| |eauto]. by destruct Hne.
Qed.

(** The table of the messages of a file. *)
Lemma protoMessages_spec file name m :
  file_wf file → protoMessages file !! name = Some m ↔ declares file m ∧ message_FullName m = name.
Proof.
  intros Hwf. destruct (collects_list file (proj2 (Forall_forall _ _) (λ m _, addProtoMessage_collects m)) ∅ name) as [H1 H2].
  fold (protoMessages file) in *. split.
  - intros [H|H]%H1; [done|by rewrite lookup_empty in H].
  - intros [Hm Hn]. destruct H2 as [x Hx]; [eauto|]. rewrite Hx. f_equal.
    apply H1 in Hx as [[Hx Hxn]|Hx]; [|by rewrite lookup_empty in Hx]. apply (wf_names _ Hwf); congruence.
Qed.

Lemma protoWireType_spec f g : protoWireType f = protoWireType g ↔ on_wire (field_Kind f) = on_wire (field_Kind g).
Proof.
  set (number w := match w with Varint => 0 | SixtyFourBit => 1 | LengthDelimited => 2 | StartGroup => 3 | ThirtyTwoBit => 5 end).
  assert (∀ f, protoWireType f = number (on_wire (field_Kind f))) as Hn by (intros h; unfold protoWireType; by destruct (field_Kind h)).
  rewrite !Hn. split; [|by intros ->]. by destruct (on_wire (field_Kind f)), (on_wire (field_Kind g)).
Qed.

Lemma filter_nil_iff {A} (p : A → bool) l : List.filter p l = [] ↔ ∀ x, x ∈ l → p x = false.
Proof.
  induction l as [|a l IH]; cbn; [split; [by intros _ x ?%not_elem_of_nil|done]|]. destruct (p a) eqn:Hp.
  - split; [done|]. intros H. rewrite H in Hp; [done|apply list_elem_of_here].
  - rewrite IH. split; [intros H x [->|Hx]%elem_of_cons; auto|]. intros H x Hx. by apply H, list_elem_of_further.
Qed.

Lemma field_changed_false reader f :
  field_changed reader f = false ↔
  ∀ g, ByNumber (message_Fields reader) (field_Number f) = Some g →
    protoWireType g = protoWireType f ∧ field_IsList g = field_IsList f.
Proof.
  unfold field_changed. destruct (ByNumber _ _) as [g|]; [|naive_solver].
  rewrite orb_false_iff, !negb_false_iff, Z.eqb_eq, bool_decide_eq_true. split; [intros [? ?] g' [= <-]; done|].
  intros H. by apply H.
Qed.

Lemma required_absent_false writer g :
  required_absent writer g = false ↔
  (field_Cardinality g = RequiredField → ∃ f, f ∈ message_Fields writer ∧ field_Number f = field_Number g).
Proof.
  unfold required_absent. rewrite andb_false_iff, !bool_decide_eq_false. split.
  - intros [H|H] Hr; [done|]. destruct (ByNumber (message_Fields writer) (field_Number g)) as [f|] eqn:Hf; [|done].
    exists f. by apply ByNumber_Some.
  - intros H. destruct (decide (field_Cardinality g = RequiredField)) as [Hr|]; [|by left]. right.
    destruct (H Hr) as (f & Hf & Hn). intros Hnone. by apply (ByNumber_None _ _ Hnone f Hf).
Qed.

Lemma map_nil_iff {A B} (f : A → B) l : map f l = [] ↔ l = [].
Proof. by destruct l. Qed.

Lemma check_message_nil direction name reader writer :
  NoDup (map field_Number (message_Fields reader)) →
  check_message direction name reader writer = [] ↔ message_readable reader writer.
Proof.
  intros Hu. unfold check_message, message_readable. rewrite app_nil, !map_nil_iff, !filter_nil_iff.
  setoid_rewrite field_changed_false. setoid_rewrite required_absent_false. setoid_rewrite protoWireType_spec.
  split; (intros [H1 H2]; split; [|by auto]).
  - intros f g Hf Hg Hn. apply (H1 f Hf g). rewrite <- Hn. by apply ByNumber_unique.
  - intros f Hf g [Hg Hn]%ByNumber_Some. auto.
Qed.

Lemma checkProtobufReader_nil reader writer direction :
  file_wf reader → file_wf writer → checkProtobufReader reader writer direction = [] ↔ file_readable reader writer.
Proof.
  intros Hr Hw. unfold checkProtobufReader, file_readable. rewrite concat_nil_Forall, Forall_map, Forall_forall. cbn.
  setoid_rewrite elem_of_sorted_keys. split.
  - intros H w Hd. pose proof (proj2 (protoMessages_spec _ _ _ Hw) (conj Hd eq_refl)) as Hl.
    specialize (H _ (mk_is_Some _ _ Hl)). rewrite Hl in H.
    destruct (protoMessages reader !! message_FullName w) as [r|] eqn:Hlr; [|done].
    apply protoMessages_spec in Hlr as [Hdr Hn]; [|done]. exists r. split_and!; [done|done|].
    apply check_message_nil in H; [done|by apply Hr].
  - intros H name [w Hl]. rewrite Hl. apply protoMessages_spec in Hl as [Hd <-]; [|done].
    destruct (H w Hd) as (r & Hdr & Hn & Hread). rewrite (proj2 (protoMessages_spec _ _ r Hr)) by done.
    apply check_message_nil; [by apply Hr|done].
Qed.

(** C40: The Protobuf check is exact. For files whose messages have full names of their own, at every depth of
    nesting, and whose messages have unique field numbers, a candidate passes in a mode if and only if in each of
    its directions every message that the writer declares, top-level or nested, is declared by the reader under the
    same full name, every field number that both have keeps its wire type (by the table of the encoding: varint,
    64-bit, length-delimited, group or 32-bit) and stays a list or no list, and every required field of
    the reader is in the writer; so [Full] passes exactly when both directions do, and a file passes against
    itself in every mode. *)
Theorem protobuf_check_exact previous candidate :
  file_wf previous → file_wf candidate →
  (∀ mode, Compatible (ProtobufCompatibility previous candidate mode) = true ↔
     (mode ≠ Forward → file_readable candidate previous) ∧ (mode ≠ Backward → file_readable previous candidate)) ∧
  (∀ mode, Compatible (ProtobufCompatibility previous previous mode) = true).
Proof.
  intros Hwp Hwc.
  assert (∀ p c mode, file_wf p → file_wf c → Compatible (ProtobufCompatibility p c mode) = true ↔
     (mode ≠ Forward → file_readable c p) ∧ (mode ≠ Backward → file_readable p c)) as H.
  { intros p c mode Hp Hc. unfold ProtobufCompatibility. rewrite check_directions_modes.
    by rewrite <- (checkProtobufReader_nil c p Backward), <- (checkProtobufReader_nil p c Forward). }
  split; [by intros mode; apply H|]. intros mode. apply H; [done|done|].
  assert (file_readable previous previous) as Hself; [|done].
  intros m Hm. exists m. split_and!; [done|done|]. split; [|by eauto].
  intros f g Hf Hg Hn. by rewrite (NoDup_map_inj field_Number _ g f (wf_numbers _ Hwp m Hm) Hg Hf Hn).
Qed.

(** An order with a line within it. *)
Definition order_line (kind : field_kind) : MessageDescriptor :=
  MkMessage (str "shop.Order.Line") [MkField 1 (str "sku") kind OptionalField false] [].
Definition order_v1 : list MessageDescriptor :=
  [MkMessage (str "shop.Order") [MkField 1 (str "id") Int64Kind OptionalField false] [order_line StringKind]].
Definition order_v2 : list MessageDescriptor :=
  [MkMessage (str "shop.Order") [MkField 1 (str "id") Sint64Kind OptionalField false;
     MkField 2 (str "note") StringKind RequiredField false] [order_line BytesKind]].
Definition order_v3 : list MessageDescriptor :=
  [MkMessage (str "shop.Order") [MkField 1 (str "id") Sint64Kind OptionalField false] [order_line Int64Kind]].

(** The messages of such a file, and that it is well formed. *)
Lemma order_declares fields line m :
  message_Messages line = [] → declares [MkMessage (str "shop.Order") fields [line]] m →
  m = MkMessage (str "shop.Order") fields [line] ∨ m = line.
Proof.
  intros Hl. rewrite declares_within. cbn [message_Messages]. rewrite declares_within, Hl.
  intros [->|[->|[]%declares_nil]]; auto.
Qed.

Lemma order_wf fields kind :
  NoDup (map field_Number fields) → file_wf [MkMessage (str "shop.Order") fields [order_line kind]].
Proof.
  intros Hf. split.
  - intros m n [->| ->]%order_declares [->| ->]%order_declares; done.
  - intros m [->| ->]%order_declares; [done|by_decide|done].
Qed.

(** A file against itself, a file whose new required field breaks one direction only, and a file whose nested
    message changes the wire type of a field. *)
Lemma protobuf_check_exact_witness :
  Compatible (ProtobufCompatibility order_v1 order_v1 Full) = true ∧
  map (λ m, Compatible (ProtobufCompatibility order_v1 order_v2 m)) [Backward; Forward; Full] = [false; true; false] ∧
  ¬ file_readable order_v3 order_v1.
Proof.
  assert (file_wf order_v1) as H1 by (apply order_wf; by_decide).
  assert (file_wf order_v3) as H3 by (apply order_wf; by_decide).
  split; [|split; [by_decide|]].
  - apply (protobuf_check_exact order_v1 order_v1); done.
  - intros H. assert (Compatible (ProtobufCompatibility order_v1 order_v3 Backward) = false) as Hc by by_decide.
    apply not_true_iff_false in Hc. apply Hc. apply (protobuf_check_exact order_v1 order_v3); [done|done|]. by split.
Defined.

(** ** JSON Schema *)

Lemma lookup_fields_map members name : fields_map members !! name = member members name.
Proof.
  unfold fields_map. assert (∀ m : gmap bytes json, fold_left (λ m entry, <[entry.1 := entry.2]> m) members m !! name =
    match member members name with Some v => Some v | None => m !! name end) as H.
  { induction members as [|[k v] members IH]; intros m; cbn [fold_left member]; [done|]. rewrite IH. cbn.
    destruct (member members name); [done|]. case_decide as Hk; [by rewrite Hk, lookup_insert_eq|by rewrite lookup_insert_ne]. }
  rewrite H, lookup_empty. by destruct (member members name).
Qed.

(** The schema of a property, before the check drops those that are no objects. *)
Definition property (schema : node) (name : bytes) : option json :=
  match member schema (str "properties") with Some (JObject properties) => member properties name | _ => None end.

Lemma jsonProperties_property schema name : jsonProperties schema !! name = property schema name ≫= json_object.
Proof.
  unfold jsonProperties, property. destruct (member schema (str "properties")) as [[]|]; rewrite ?lookup_empty; try done.
  by rewrite lookup_omap, lookup_fields_map.
Qed.

Lemma member_height members name v : member members name = Some v → (json_height v < json_height (JObject members))%nat.
Proof.
  cbn. induction members as [|[k x] members IH]; cbn; [done|]. destruct (member members name) as [v'|].
  - intros [= ->]. specialize (IH eq_refl). lia.
  - case_decide; [|done]. intros [= ->]. lia.
Qed.

Lemma property_height schema name p : property schema name = Some p → (json_height p < json_height (JObject schema))%nat.
Proof.
  unfold property. destruct (member schema (str "properties")) as [[]|] eqn:Hm; try done.
  intros Hp. apply member_height in Hm, Hp. lia.
Qed.

Lemma concat_map_ext {A B} (f g : A → list B) l : (∀ x, x ∈ l → f x = g x) → concat (map f l) = concat (map g l).
Proof. intros H. f_equal. apply map_ext_in. intros x Hx%list_elem_of_In. by apply H. Qed.

(** The fuel of [check_json] is enough: more of it changes nothing. *)
Lemma checkJSONReader_fuel fuel fuel' reader writer path direction :
  (json_height (JObject reader) ≤ fuel)%nat → (json_height (JObject reader) ≤ fuel')%nat →
  checkJSONReader fuel reader writer path direction = checkJSONReader fuel' reader writer path direction.
Proof.
  revert fuel' reader writer path. induction fuel as [|fuel IH]; intros [|fuel'] reader writer path Hf Hf';
    try (exfalso; cbn in *; lia).
  cbn [checkJSONReader]. repeat case_match; try done. f_equal. apply concat_map_ext. intros name _.
  destruct (jsonProperties reader !! name) as [r|] eqn:Hr; [|done].
  destruct (jsonProperties writer !! name) as [w|]; [|done]. rewrite jsonProperties_property in Hr.
  apply bind_Some in Hr as (j & Hj & Hr). destruct j; try done. injection Hr as ->. apply property_height in Hj.
  apply IH; lia.
Qed.

(** ** Validity of documents *)

(** The keywords that validate nothing, beside the four that [accepts] spells out. *)
Definition silent_keywords : list bytes :=
  map str ["type"; "properties"; "required"; "additionalProperties";
           "title"; "description"; "default"; "examples"; "deprecated"; "$schema"; "$id"; "$comment"]%string.
Definition silent (schema : node) : Prop := Forall (λ m, m.1 ∈ silent_keywords) schema.

(** JSON Schema validation as the drafts from 2019-09 on document it, where a document is valid if it meets every
    keyword of the schema: which documents a type name admits, what all keywords but the four of [accepts]
    demand of a document, and whether a member that [properties] does not name is admitted beside
    [additionalProperties] and [patternProperties]. An object has the one type ["object"], and of the last two
    only what an absent or boolean [additionalProperties] means is documented here. *)
Class Validation (type_matches : bytes → json → bool) (demands : node → json → bool) (extra : node → bytes → json → bool) := {
  object_type t members : type_matches t (JObject members) = true → t = str "object";
  demands_silent schema doc : silent schema → demands schema doc = true;
  extra_closed schema name v :
    member schema (str "additionalProperties") = Some (JBool false) → member schema (str "patternProperties") = None →
    extra schema name v = false;
  extra_open schema name v :
    member schema (str "additionalProperties") = None ∨ member schema (str "additionalProperties") = Some (JBool true) →
    extra schema name v = true
}.

Section Validity.
Context (type_matches : bytes → json → bool) (demands : node → json → bool) (extra : node → bytes → json → bool).

(** The validity of a document: all keywords, of which [type], [required] and [properties] are spelled out. A property
    schema that is a boolean admits everything or nothing. *)
Fixpoint accepts (doc : json) (schema : node) : bool :=
  (bool_decide (jsonTypes schema = []) || existsb (λ t, type_matches t doc) (jsonTypes schema)) &&
  demands schema doc &&
  match doc with
  | JObject members =>
      forallb (λ name, bool_decide (name ∈ map fst members)) (jsonStrings (member schema (str "required"))) &&
      forallb (λ m,
        match property schema m.1 with
        | Some (JObject p) => accepts m.2 p
        | Some v => negb (json_false (Some v))
        | None => extra schema m.1 m.2
        end) members
  | _ => true
  end.

(** Readers that the check covers, at every depth: no keyword validates but [type], [required], [properties] and a boolean
    [additionalProperties]; properties are given by objects; and the check looks at the object keywords: the
    schema names the object type, or has properties, or does not restrict objects. *)
Inductive covered : node → Prop :=
| covered_intro schema :
    silent schema →
    (∀ v, member schema (str "additionalProperties") = Some v → ∃ b, v = JBool b) →
    (∀ name p, property schema name = Some p → ∃ q, p = JObject q ∧ covered q) →
    (str "object" ∈ jsonTypes schema ∨ member schema (str "properties") ≠ None ∨
     jsonStrings (member schema (str "required")) = [] ∧ json_false (member schema (str "additionalProperties")) = false) →
    covered schema.

(** Writers that admit no property that they do not name, at every depth, whatever other keywords they use. *)
Inductive closed : node → Prop :=
| closed_intro schema :
    (∀ name p, property schema name = Some p → ∃ q, p = JObject q ∧ closed q) →
    (member schema (str "additionalProperties") = Some (JBool false) ∧ member schema (str "patternProperties") = None ∨
     jsonTypes schema ≠ [] ∧ str "object" ∉ jsonTypes schema) →
    closed schema.

Context {laws : Validation type_matches demands extra}.

Lemma types_narrow readerTypes writerTypes doc :
  bool_decide (readerTypes ≠ []) && (bool_decide (writerTypes = []) || negb (containsAll readerTypes writerTypes)) = false →
  bool_decide (writerTypes = []) || existsb (λ t, type_matches t doc) writerTypes = true →
  bool_decide (readerTypes = []) || existsb (λ t, type_matches t doc) readerTypes = true.
Proof.
  destruct (decide (readerTypes = [])) as [->|Hr]; [done|]. rewrite (bool_decide_true (readerTypes ≠ [])) by done.
  cbn [andb]. intros [Hw Hc]%orb_false_iff. rewrite Hw. cbn [orb]. apply negb_false_iff in Hc.
  intros (t & Ht & Hm)%existsb_exists. apply orb_true_intro. right. apply existsb_exists. exists t. split; [|done].
  unfold containsAll in Hc. rewrite forallb_forall in Hc. specialize (Hc t Ht). apply bool_decide_eq_true in Hc.
  by apply list_elem_of_In.
Qed.

(** A property of an accepted object is named by a closed writer, and accepted there. *)
Lemma closed_property writer members name v :
  closed writer → accepts (JObject members) writer = true → (name, v) ∈ members →
  ∃ p, property writer name = Some (JObject p) ∧ closed p ∧ accepts v p = true.
Proof.
  intros Hc Ha Hin. destruct Hc as [writer Hp Hcl]. cbn [accepts] in Ha.
  apply andb_prop in Ha as [[Ht _]%andb_prop [_ Hm]%andb_prop]. rewrite forallb_forall in Hm.
  specialize (Hm (name, v) (proj1 (list_elem_of_In _ _) Hin)). cbn [fst snd] in Hm.
  destruct (property writer name) as [p|] eqn:Hprop; [destruct (Hp name p Hprop) as (q & -> & Hq); by exists q|].
  destruct Hcl as [[Hf Hpat]|[Hne Hno]]; [by rewrite extra_closed in Hm|]. exfalso. rewrite bool_decide_false in Ht by done.
  cbn in Ht. apply existsb_exists in Ht as (t & Ht%list_elem_of_In & Hty). by apply object_type in Hty as ->.
Qed.

(** A covered reader admits the members that it does not name, unless it refuses them all. *)
Lemma covered_extra reader name v :
  covered reader → json_false (member reader (str "additionalProperties")) = false → extra reader name v = true.
Proof.
  intros [schema _ Hb _ _] Hf. apply extra_open. destruct (member schema (str "additionalProperties")) as [w|]; [|by left].
  destruct (Hb w eq_refl) as [[] ->]; [by right|done].
Qed.

Lemma required_kept (readerRequired writerRequired : list bytes) (members : node) :
  filter (λ r, r ∉ writerRequired) readerRequired = [] →
  forallb (λ name, bool_decide (name ∈ map fst members)) writerRequired = true →
  forallb (λ name, bool_decide (name ∈ map fst members)) readerRequired = true.
Proof.
  rewrite !forallb_forall. intros Hf Hw name Hn%list_elem_of_In. apply Hw, list_elem_of_In.
  destruct (decide (name ∈ writerRequired)) as [|Hx]; [done|]. exfalso.
  assert (name ∈ filter (λ r, r ∉ writerRequired) readerRequired) as Hin by by apply list_elem_of_filter.
  rewrite Hf in Hin. by apply not_elem_of_nil in Hin.
Qed.

Lemma checkJSONReader_sound doc fuel reader writer path direction :
  (json_height (JObject reader) ≤ fuel)%nat → covered reader → closed writer →
  checkJSONReader fuel reader writer path direction = [] → accepts doc writer = true → accepts doc reader = true.
Proof.
  revert fuel reader writer path.
  induction doc as [| | | | |members IH] using json_nested_ind; intros fuel reader writer path Hfuel Hr Hc Hcheck Ha;
    (destruct fuel as [|fuel]; [exfalso; cbn in Hfuel; lia|]); cbn [checkJSONReader] in Hcheck;
    (destruct (bool_decide (jsonTypes reader ≠ []) && _) eqn:Ht; [done|]);
    (pose proof Ha as Ha'; cbn [accepts] in Ha'; apply andb_prop in Ha' as [[Hty _]%andb_prop Hrest]);
    pose proof (covered_extra reader) as Hextra; specialize (λ name v, Hextra name v Hr);
    destruct Hr as [reader Hsilent Hbool Hrp Hrk];
    cbn [accepts]; rewrite (types_narrow _ _ _ Ht Hty), demands_silent by done; try done.
  cbn [andb]. apply andb_prop in Hrest as [Hreq _].
  destruct (negb (bool_decide (str "object" ∈ jsonTypes reader)) && bool_decide (member reader (str "properties") = None)) eqn:Hskip.
  - apply andb_prop in Hskip as [Hno%negb_true_iff Hnp]. apply bool_decide_eq_false in Hno. apply bool_decide_eq_true in Hnp.
    destruct Hrk as [Hrk|[Hrk|[Hrk Hadd]]]; [done|done|]. rewrite Hrk. cbn [forallb andb]. apply forallb_forall.
    intros [name v] _. cbn [fst snd]. unfold property. rewrite Hnp. by apply Hextra.
  - apply app_nil in Hcheck as [Hcr Hcp]. apply map_nil_iff in Hcr. rewrite (required_kept _ _ _ Hcr Hreq). cbn [andb].
    apply forallb_forall. intros [name v] Hin%list_elem_of_In. cbn [fst snd].
    destruct (closed_property writer members name v Hc Ha Hin) as (p & Hp & Hpc & Hpa).
    unfold check_properties in Hcp. rewrite concat_nil_Forall, Forall_map, Forall_forall in Hcp.
    assert (jsonProperties writer !! name = Some p) as Hjp by by rewrite jsonProperties_property, Hp.
    specialize (Hcp name). rewrite elem_of_sorted_keys, Hjp in Hcp. specialize (Hcp (mk_is_Some _ _ eq_refl)).
    rewrite jsonProperties_property in Hcp. destruct (property reader name) as [rp|] eqn:Hprop; cbn [mbind option_bind] in Hcp.
    + destruct (Hrp name rp Hprop) as (q & -> & Hq). cbn [json_object] in Hcp. apply property_height in Hprop.
      rewrite Forall_forall in IH. apply (IH (name, v) Hin fuel q p (childPath path name)); try done. lia.
    + apply Hextra. by destruct (json_false (member reader (str "additionalProperties"))).
Qed.

End Validity.


(** *** A schema that gains an optional property *)

Definition types_of_json (t : bytes) (doc : json) : bool :=
  match doc with
  | JObject _ => bool_decide (t = str "object")
  | JString _ => bool_decide (t = str "string")
  | JNumber literal => bool_decide (t = str "number") || (bool_decide (t = str "integer") && forallb (λ b, in_range b 48 57) literal)
  | _ => false
  end.

(** Validation with one more keyword, [const]. *)
Definition const_demands (schema : node) (doc : json) : bool :=
  match member schema (str "const") with Some v => bool_decide (doc = v) | None => true end.
Definition plain_extra (schema : node) (name : bytes) (v : json) : bool :=
  negb (json_false (member schema (str "additionalProperties"))).

#[local] Instance const_validation : Validation types_of_json const_demands plain_extra.
Proof.
  split.
  - intros t members Ht. by apply bool_decide_eq_true in Ht.
  - intros schema doc Hs. unfold const_demands. assert (member schema (str "const") = None) as ->; [|done].
    apply member_None. intros (m & Hm & Hin)%list_elem_of_fmap. specialize (proj1 (Forall_forall _ _) Hs m Hin) as Hk.
    cbn in Hk. rewrite <- Hm in Hk. revert Hk. by_decide.
  - intros schema name v H _. unfold plain_extra. by rewrite H.
  - intros schema name v [H|H]; unfold plain_extra; by rewrite H.
Qed.

Abbreviation valid := (accepts types_of_json const_demands plain_extra).

Definition typed (t : String.string) : json := JObject [(str "type", JString (str t))].

Definition closed_object (properties : node) (required : list bytes) : node :=
  [(str "type", JString (str "object")); (str "properties", JObject properties);
   (str "required", JArray (map JString required)); (str "additionalProperties", JBool false)].

Definition person_v1 : node := closed_object [(str "id", typed "string")] [str "id"].
Definition person_v2 : node := closed_object [(str "id", typed "string"); (str "age", typed "number")] [str "id"].

Definition person_Unmarshal (text : bytes) : option json :=
  if decide (text = str "v1") then Some (JObject person_v1) else Some (JObject person_v2).

Lemma covered_typed t : covered [(str "type", JString (str t))].
Proof. apply covered_intro; [repeat constructor; by_decide|done|intros name p; done|]. right. right. done. Qed.

Lemma closed_string : closed [(str "type", JString (str "string"))].
Proof. apply closed_intro; [intros name p; done|]. right. by_decide. Qed.

Lemma property_closed_object properties required name :
  property (closed_object properties required) name = member properties name.
Proof. done. Qed.


(** ** What the JSON check reports and does not *)

(** Widening an integer to a number is reported as narrowing: the type names are compared as text. *)
Lemma widening_reported :
  check_json [(str "type", JString (str "number"))] [(str "type", JString (str "integer"))] Backward =
    [NarrowsType Backward [] [str "integer"] [str "number"]] ∧
  ∀ doc, valid doc [(str "type", JString (str "integer"))] = true →
         valid doc [(str "type", JString (str "number"))] = true.
Proof. split; [by_decide|]. intros doc. by destruct doc. Qed.

(** A reader that closes its object passes against a writer that leaves it open, and rejects what that
    writer may have written. *)
Lemma closing_passes :
  let reader := [(str "type", JString (str "object")); (str "additionalProperties", JBool false)] in
  let writer := [(str "type", JString (str "object"))] in
  let doc := JObject [(str "x", JNumber (str "1"))] in
  check_json reader writer Backward = [] ∧ valid doc writer = true ∧ valid doc reader = false.
Proof. split; [by_decide|]. split; reflexivity. Qed.

(** A reader that requires a field without naming the object type or any property passes against every
    writer that it does not narrow. *)
Lemma bare_required_passes :
  let reader := [(str "required", JArray [JString (str "id")])] in
  let doc := JObject [] in
  check_json reader [] Backward = [] ∧ valid doc [] = true ∧ valid doc reader = false.
Proof. split; [by_decide|]. split; reflexivity. Qed.

(** The keywords of a reader beside the four are not looked at: it passes, and refuses what the writer may have written. *)
Lemma reader_keywords_unseen :
  let reader := [(str "type", JString (str "string")); (str "const", JString (str "x"))] in
  let writer := [(str "type", JString (str "string"))] in
  check_json reader writer Backward = [] ∧ valid (JString (str "y")) writer = true ∧ valid (JString (str "y")) reader = false.
Proof. split; [by_decide|]. split; reflexivity. Qed.
