(* ===== verification/Stub.v ===== *)
(** * The registry stub of krabkatest/registrystub.go

    The in-memory schema registry that the test helpers serve over HTTP: its state, its request handler with
    every endpoint, and the HTTP client of [Client] connected to it. A handled request answers with a status and
    a JSON document; the socket between the two is not modelled. *)

From stdpp Require Import relations.
From S2P Require Import Prelude GoStd Kafka Json GoNet Client.

Record schemaValue := MkValue { sv_Schema : bytes; sv_SchemaType : bytes; sv_MessageType : bytes }.

#[global] Instance schemaValue_eq_dec : EqDecision schemaValue.
Proof. solve_decision. Defined.

Record schemaKey := MkKey { key_schema : bytes; key_schemaType : bytes; key_messageType : bytes }.

#[global] Instance schemaKey_eq_dec : EqDecision schemaKey.
Proof. solve_decision. Defined.
#[global] Instance schemaKey_countable : Countable schemaKey.
Proof.
  refine (inj_countable' (λ k, (key_schema k, key_schemaType k, key_messageType k)) (λ k, MkKey k.1.1 k.1.2 k.2) _).
  by intros [].
Defined.

Definition key (v : schemaValue) : schemaKey := MkKey (sv_Schema v) (sv_SchemaType v) (sv_MessageType v).

Record SchemaRegistryStub := MkStub {
  nextID : Z;
  idsBySchema : gmap schemaKey Z;
  schemasByID : gmap Z schemaValue;
  subjectVersions : gmap bytes (list Z);
  requestCounts : gmap bytes Z
}.

Definition NewSchemaRegistryStub : SchemaRegistryStub := MkStub 1 ∅ ∅ ∅ ∅.

Definition method_name (m : Method) : bytes :=
  match m with GET => str "GET" | POST => str "POST" | PUT => str "PUT" | DELETE => str "DELETE" end.

Definition request_key (m : Method) (path : bytes) : bytes := method_name m ++ ascii_byte " " :: path.

Definition RequestCount (m : Method) (path : bytes) (s : SchemaRegistryStub) : Z :=
  default 0 (requestCounts s !! request_key m path).

Definition count_request (m : Method) (path : bytes) (s : SchemaRegistryStub) : SchemaRegistryStub :=
  MkStub (nextID s) (idsBySchema s) (schemasByID s) (subjectVersions s)
    (<[request_key m path := RequestCount m path s + 1]> (requestCounts s)).

(** A reply: the status and the document of the body. *)
Abbreviation reply := (Z * json)%type.

(** Map bodies hold their keys in the order that [json.Marshal] writes them. *)
Definition replyError (status code : Z) (message : bytes) : reply :=
  (status, JObject [(str "error_code", json_int code); (str "message", JString message)]).

Definition schemaBody (id : Z) (v : schemaValue) : list (bytes * json) :=
  [(str "id", json_int id)] ++
  (if decide (sv_MessageType v = []) then [] else [(str "messageType", JString (sv_MessageType v))]) ++
  [(str "schema", JString (sv_Schema v))] ++
  (if decide (sv_SchemaType v = []) then [] else [(str "schemaType", JString (sv_SchemaType v))]).

(** [json.Unmarshal(body, &value)]: the tagged fields of the struct. *)
Definition value_field (name : bytes) (value : json) (v : schemaValue) : option schemaValue :=
  if same_name name (str "schema") then
    match into_text (Some value) (sv_Schema v) with
    | Some text => Some (MkValue text (sv_SchemaType v) (sv_MessageType v)) | None => None end
  else if same_name name (str "schemaType") then
    match into_text (Some value) (sv_SchemaType v) with
    | Some text => Some (MkValue (sv_Schema v) text (sv_MessageType v)) | None => None end
  else if same_name name (str "messageType") then
    match into_text (Some value) (sv_MessageType v) with
    | Some text => Some (MkValue (sv_Schema v) (sv_SchemaType v) text) | None => None end
  else Some v.

(** The request's document, nothing when it does not parse. *)
Definition readSchema (body : RawMessage) : option schemaValue :=
  let '(value, fine) := into_struct value_field body (MkValue [] [] []) in
  if (fine : bool) && negb (bool_decide (sv_Schema value = [])) then Some value else None.

Definition bad_request : reply := replyError 422 42201 (str "request has no text schema").

Definition subjectOf (path suffix : bytes) : bytes :=
  let encoded := TrimSuffix (TrimPrefix path (str "/subjects/")) suffix in
  default encoded (PathUnescape encoded).

Definition versions_of (s : SchemaRegistryStub) (subject : bytes) : list Z := default [] (subjectVersions s !! subject).

(** The ID of a schema, assigned now if it is new. *)
Definition assign_id (v : schemaValue) (s : SchemaRegistryStub) : Z * SchemaRegistryStub :=
  match idsBySchema s !! key v with
  | Some id => (id, s)
  | None =>
      (nextID s, MkStub (nextID s + 1) (<[key v := nextID s]> (idsBySchema s)) (<[nextID s := v]> (schemasByID s))
        (subjectVersions s) (requestCounts s))
  end.

Definition add_version (subject : bytes) (id : Z) (s : SchemaRegistryStub) : SchemaRegistryStub :=
  if decide (id ∈ versions_of s subject) then s
  else MkStub (nextID s) (idsBySchema s) (schemasByID s)
         (<[subject := versions_of s subject ++ [id]]> (subjectVersions s)) (requestCounts s).

Definition stub_register (body : RawMessage) (subject : bytes) (s : SchemaRegistryStub) : reply * SchemaRegistryStub :=
  match readSchema body with
  | None => (bad_request, s)
  | Some v =>
      let '(id, s) := assign_id v s in
      ((200, JObject [(str "id", json_int id)]), add_version subject id s)
  end.

(** [slices.Index]. *)
Fixpoint index_of (x : Z) (l : list Z) : Z :=
  match l with
  | [] => -1
  | y :: l => if decide (x = y) then 0 else let i := index_of x l in if i =? -1 then -1 else i + 1
  end.

Definition described (id : Z) (v : schemaValue) (subject : bytes) (version : Z) : json :=
  JObject (schemaBody id v ++ [(str "subject", JString subject); (str "version", json_int version)]).

Definition stub_lookup (body : RawMessage) (subject : bytes) (s : SchemaRegistryStub) : reply :=
  match readSchema body with
  | None => bad_request
  | Some v =>
      match idsBySchema s !! key v with
      | Some id =>
          if decide (id ∈ versions_of s subject)
          then (200, described id v subject (index_of id (versions_of s subject) + 1))
          else replyError 404 40403 (str "schema not found")
      | None => replyError 404 40403 (str "schema not found")
      end
  end.

Definition stub_latest (subject : bytes) (s : SchemaRegistryStub) : reply :=
  match last (versions_of s subject) with
  | None => replyError 404 40401 (str "subject not found")
  | Some id =>
      (200, described id (default (MkValue [] [] []) (schemasByID s !! id)) subject (zlen (versions_of s subject)))
  end.

Definition byID (id : Z) (s : SchemaRegistryStub) : reply :=
  match schemasByID s !! id with
  | None => replyError 404 40403 (str "schema not found")
  | Some v => (200, JObject (schemaBody id v))
  end.

Definition method_is (m m' : Method) : bool :=
  match m, m' with GET, GET | POST, POST | PUT, PUT | DELETE, DELETE => true | _, _ => false end.

(** The routes, in the order of the switch. *)
Definition handle (m : Method) (path : bytes) (body : RawMessage) (s : SchemaRegistryStub) : reply * SchemaRegistryStub :=
  let s := count_request m path s in
  if method_is m POST && HasSuffix path (str "/versions") then stub_register body (subjectOf path (str "/versions")) s
  else if method_is m POST && HasPrefix path (str "/subjects/") then (stub_lookup body (subjectOf path []) s, s)
  else if method_is m GET && HasSuffix path (str "/versions/latest")
  then (stub_latest (subjectOf path (str "/versions/latest")) s, s)
  else if method_is m GET && HasPrefix path (str "/schemas/ids/") then
    match ParseInt (TrimPrefix path (str "/schemas/ids/")) 64 with
    | None => (replyError 422 42201 (str "invalid schema id"), s)
    | Some id => (byID id s, s)
    end
  else (replyError 404 40401 (str "subject or schema not found"), s).

(** ** The client's connection to the stub *)

Section Connected.
Context (Unmarshal : bytes → option json) (Marshal : json → bytes).

(** A base URL without a path, so the request's path is what follows it. *)
Definition stub_http (base : bytes) : HTTP SchemaRegistryStub :=
  MkHTTP SchemaRegistryStub (λ _ _, true)
    (λ req s,
       let '((status, document), s) :=
         handle (req_Method req) (TrimPrefix (req_URL req) base) (req_Body req ≫= Unmarshal) s in
       (Some (MkResponse status (Some (Marshal document))), s))
    (λ _, false).
End Connected.

(** ** The stub's state *)

Record stub_ok (s : SchemaRegistryStub) : Prop := {
  ok_next : 1 ≤ nextID s;
  ok_ids k id : idsBySchema s !! k = Some id ↔ ∃ v, schemasByID s !! id = Some v ∧ key v = k;
  ok_range id v : schemasByID s !! id = Some v → 1 ≤ id < nextID s
}.

Lemma key_inj v v' : key v = key v' → v = v'.
Proof. destruct v, v'. unfold key. cbn. by intros [= -> -> ->]. Qed.

Lemma NewSchemaRegistryStub_ok : stub_ok NewSchemaRegistryStub.
Proof.
  split; cbn; [done| |].
  - intros k id. rewrite lookup_empty. split; [done|]. intros (v & Hv & _). by rewrite lookup_empty in Hv.
  - intros id v Hv. by rewrite lookup_empty in Hv.
Qed.

Lemma count_request_ok m path s : stub_ok s → stub_ok (count_request m path s).
Proof. by intros []. Qed.

Lemma assign_id_ok v s : stub_ok s → stub_ok (assign_id v s).2.
Proof.
  intros [Hn Hi Hr]. unfold assign_id. destruct (idsBySchema s !! key v) as [id|] eqn:Hv; [done|].
  assert (schemasByID s !! nextID s = None) as Hfresh.
  { apply eq_None_not_Some. intros [v' Hv']. apply Hr in Hv'. lia. }
  split; cbn [snd nextID idsBySchema schemasByID]; [lia| |].
  - intros k id. destruct (decide (k = key v)) as [->|Hk].
    + rewrite lookup_insert_eq. split.
      * intros [= <-]. exists v. by rewrite lookup_insert_eq.
      * intros (v' & Hv' & Hkey). apply lookup_insert_Some in Hv' as [[<- _]|[_ Hv']]; [done|].
        assert (idsBySchema s !! key v = Some id) as H by (apply Hi; eauto). congruence.
    + rewrite lookup_insert_ne by done. rewrite Hi. split.
      * intros (v' & Hv' & Hkey). exists v'. rewrite lookup_insert_ne; [done|]. intros <-. congruence.
      * intros (v' & Hv' & Hkey). apply lookup_insert_Some in Hv' as [[_ <-]|[_ Hv']]; [by rewrite Hkey in Hk|eauto].
  - intros id v' H. apply lookup_insert_Some in H as [[<- _]|[_ H]]; [lia|]. apply Hr in H. lia.
Qed.

Lemma assign_id_known v s : stub_ok s →
  idsBySchema (assign_id v s).2 !! key v = Some (assign_id v s).1 ∧
  ∀ k id, idsBySchema s !! k = Some id → idsBySchema (assign_id v s).2 !! k = Some id.
Proof.
  intros _. unfold assign_id. destruct (idsBySchema s !! key v) as [id|] eqn:Hv; [done|]. cbn. split.
  - apply lookup_insert_eq.
  - intros k id Hk. rewrite lookup_insert_ne; [done|]. congruence.
Qed.

Lemma add_version_fields subject id s :
  nextID (add_version subject id s) = nextID s ∧ idsBySchema (add_version subject id s) = idsBySchema s ∧
  schemasByID (add_version subject id s) = schemasByID s ∧ id ∈ versions_of (add_version subject id s) subject.
Proof.
  unfold add_version. case_decide as Hin; [done|]. repeat split.
  unfold versions_of at 1. cbn [subjectVersions]. rewrite lookup_insert_eq. apply elem_of_app. right. by apply list_elem_of_singleton.
Qed.

Lemma add_version_ok subject id s : stub_ok s → stub_ok (add_version subject id s).
Proof.
  intros [Hn Hi Hr]. destruct (add_version_fields subject id s) as (H1 & H2 & H3 & _).
  split; rewrite ?H1, ?H2, ?H3; done.
Qed.

(** ** Documents that survive the wire *)

Fixpoint json_valid (j : json) : bool :=
  match j with
  | JNumber literal => bool_decide (is_Some (ParseInt literal 64))
  | JString text => utf8_valid text
  | JArray items => forallb json_valid items
  | JObject members => forallb (λ m, utf8_valid m.1 && json_valid m.2) members
  | _ => true
  end.

Lemma ParseInt_id n : 0 ≤ n < 2 ^ 32 → ParseInt (FormatInt n) 64 = Some n.
Proof. intros H. apply ParseInt_FormatInt; [lia|]. unfold inS. width_consts. lia. Qed.

Lemma json_valid_int n : 0 ≤ n < 2 ^ 32 → json_valid (json_int n) = true.
Proof. intros H. cbn. rewrite ParseInt_id by done. done. Qed.

Lemma json_valid_body id v :
  0 ≤ id < 2 ^ 32 → utf8_valid (sv_Schema v) = true → utf8_valid (sv_SchemaType v) = true →
  utf8_valid (sv_MessageType v) = true → json_valid (JObject (schemaBody id v)) = true.
Proof.
  intros Hid H1 H2 H3. unfold schemaBody. pose proof (json_valid_int id Hid) as Hn. unfold json_int in *.
  cbn [json_valid] in *. rewrite !forallb_app. cbn [forallb fst snd json_valid].
  change (utf8_valid (str "id")) with true. change (utf8_valid (str "schema")) with true.
  rewrite Hn, H1. cbn [andb]. apply andb_true_intro.
  split; [case_decide; [done|]; cbn [forallb fst snd json_valid]; by rewrite H3|].
  case_decide; [done|]. cbn [forallb fst snd json_valid]. by rewrite H2.
Qed.

Lemma wireName_valid k : utf8_valid (wireName k) = true.
Proof. by destruct k. Qed.

Lemma json_valid_payload kind text messageType :
  utf8_valid text = true → utf8_valid messageType = true → json_valid (payload kind text messageType []) = true.
Proof.
  intros H1 H2. unfold payload. cbn [json_valid]. rewrite !forallb_app. cbn [decide forallb fst snd json_valid].
  change (utf8_valid (str "schema")) with true. rewrite H1. cbn [andb].
  apply andb_true_intro; split; [case_decide; [done|]; cbn [forallb fst snd json_valid]; by rewrite H2|].
  by destruct kind.
Qed.

(** The stub reads from a request what the client wrote. *)
Lemma readSchema_payload kind text messageType :
  text ≠ [] → readSchema (Some (payload kind text messageType [])) = Some (MkValue text (wireName kind) messageType).
Proof.
  intros Ht. destruct text as [|b text]; [done|]. by destruct messageType, kind.
Qed.

(** And the client reads a schema from the answer. *)
Lemma read_schemaBody id v :
  requiredText (Some (JObject (schemaBody id v))) (str "schema") =
    (if decide (sv_Schema v = []) then Err (registryError (NoText (str "schema"))) else Ok (sv_Schema v)) ∧
  references (Some (JObject (schemaBody id v))) = Ok [] ∧
  optionalText (Some (JObject (schemaBody id v))) (str "messageType") = sv_MessageType v.
Proof.
  destruct v as [[|b text] [|t ty] [|m mt]]; done.
Qed.

Lemma requiredInt_id n l :
  str "id" ∉ map fst l → 0 ≤ n < 2 ^ 32 → requiredInt (Some (JObject ((str "id", json_int n) :: l))) (str "id") = Ok n.
Proof.
  intros Hl Hn. unfold requiredInt, objectFields. cbn [into_fields from_option].
  unfold id. cbn [member].
  rewrite member_None, decide_True by done. unfold json_int, into_int. by rewrite ParseInt_id.
Qed.

(** ** Routes *)

Lemma subjectOf_versions subject : subjectOf (versions_path subject) (str "/versions") = subject.
Proof.
  unfold subjectOf, versions_path, subject_path. rewrite <- (assoc_L (++)), TrimPrefix_app, TrimSuffix_app.
  unfold pathSegment. by rewrite PathUnescape_PathEscape.
Qed.

Lemma subjectOf_subject subject : subjectOf (subject_path subject) [] = subject.
Proof.
  unfold subjectOf, subject_path. rewrite TrimPrefix_app. unfold pathSegment.
  rewrite <- (app_nil_r (PathEscape subject)), TrimSuffix_app. by rewrite PathUnescape_PathEscape.
Qed.

(** Only a subject named "versions" is mistaken for a list of versions. *)
Lemma subject_path_suffix subject :
  subject ≠ str "versions" → HasSuffix (subject_path subject) (str "/versions") = false.
Proof.
  intros Hne. apply not_true_iff_false. rewrite HasSuffix_spec. intros [rest H]. apply Hne. unfold subject_path in H.
  change (str "/subjects/") with (str "/subjects" ++ [ascii_byte "/"]) in H.
  change (str "/versions") with (ascii_byte "/" :: str "versions") in H.
  rewrite <- (assoc_L (++)) in H. cbn [app] in H. apply (f_equal (@rev byte)) in H.
  rewrite !rev_app_distr in H. cbn [rev] in H. rewrite <- !(assoc_L (++)) in H. cbn [app] in H.
  change (rev (pathSegment subject) ++ ascii_byte "/" :: rev (str "/subjects") =
    rev (str "versions") ++ ascii_byte "/" :: rev rest) in H.
  apply app_sep_inj in H as [H _].
  - apply (f_equal (@rev byte)) in H. rewrite !rev_involutive in H. by apply (inj PathEscape _ (str "versions")).
  - intros Hin%list_elem_of_In%in_rev%list_elem_of_In. by apply segment_no_slash in Hin.
  - by_decide.
Qed.

Lemma id_path_number id : 0 ≤ id < 2 ^ 32 → TrimPrefix (id_path id) (str "/schemas/ids/") = FormatInt id.
Proof. intros H. unfold id_path. by rewrite TrimPrefix_app, wrapU_id. Qed.

Lemma id_path_routes id :
  HasSuffix (id_path id) (str "/versions/latest") = false ∧ HasPrefix (id_path id) (str "/schemas/ids/") = true.
Proof.
  split; [|apply HasPrefix_app]. apply not_true_iff_false. rewrite HasSuffix_spec. intros [rest H].
  apply (f_equal last) in H. unfold id_path in H. rewrite !last_app in H. cbn in H.
  pose proof (FormatInt_bytes (uint32 id)) as Hf. destruct (last (FormatInt (uint32 id))) as [b|] eqn:Hl.
  - injection H as ->. apply last_Some in Hl as [l Hl]. rewrite Hl in Hf. apply Forall_app in Hf as [_ Hf].
    apply Forall_cons in Hf as [[Hf|Hf] _]; done.
  - done.
Qed.

(** ** The client against the stub *)

Section Wire.
Context (Unmarshal : bytes → option json) (Marshal : json → bytes).
Hypothesis wire : ∀ j, json_valid j = true → Unmarshal (Marshal j) = Some j.
Context (c : RegistryClient) (base : bytes).
Hypothesis base_ok : baseURL c = base.
Hypothesis retries_ok : 0 ≤ maxRetries c.

Lemma send_stub m path body s document s' :
  (∀ j, body = Some j → json_valid j = true) → json_valid document = true →
  handle m path body s = ((200, document), s') →
  send (stub_http Unmarshal Marshal base) Unmarshal Marshal c m path body s = (Ok (Some document), s').
Proof.
  intros Hb Hd Hh. unfold send. replace (Z.to_nat (maxRetries c + 1)) with (S (Z.to_nat (maxRetries c))) by lia.
  cbn [send_loop]. unfold sendOnce, stub_http. cbn [NewRequest Do negb req_URL req_Method req_Body].
  rewrite base_ok, TrimPrefix_app.
  assert ((Marshal <$> body) ≫= Unmarshal = body) as ->.
  { destruct body as [j|]; [|done]. cbn. by rewrite wire by by apply Hb. }
  rewrite Hh. cbn. by rewrite wire.
Qed.

Lemma Register_stub subject kind text messageType s :
  stub_ok s → nextID s < 2 ^ 32 → text ≠ [] → utf8_valid text = true → utf8_valid messageType = true →
  let v := MkValue text (wireName kind) messageType in
  let s1 := count_request POST (versions_path subject) s in
  Register (stub_http Unmarshal Marshal base) Unmarshal Marshal c subject kind text messageType [] s =
    (Ok (assign_id v s1).1, add_version subject (assign_id v s1).1 (assign_id v s1).2).
Proof.
  intros Hok Hn Ht Hu1 Hu2 v s1. unfold Register, post.
  assert (stub_ok s1) as Hok1 by by apply count_request_ok.
  assert (0 ≤ (assign_id v s1).1 < 2 ^ 32) as Hid.
  { unfold assign_id. destruct (idsBySchema s1 !! key v) as [id|] eqn:Hk; cbn.
    - apply Hok1 in Hk as (v' & Hv' & _). apply Hok in Hv'. lia.
    - pose proof (ok_next _ Hok). lia. }
  erewrite io_bind_run; [|apply (send_stub _ _ _ _ (JObject [(str "id", json_int (assign_id v s1).1)])
    (add_version subject (assign_id v s1).1 (assign_id v s1).2))].
  - unfold io_lift. rewrite requiredInt_id; [done|apply not_elem_of_nil|done].
  - intros j [= <-]. by apply json_valid_payload.
  - pose proof (json_valid_int _ Hid) as Hj. cbn [json_valid forallb fst snd]. by rewrite Hj.
  - unfold handle. cbn [method_is]. rewrite (HasSuffix_app (subject_path subject) (str "/versions") : HasSuffix (versions_path subject) _ = _).
    cbn [andb]. unfold stub_register. rewrite readSchema_payload, subjectOf_versions by done. fold v s1.
    by destruct (assign_id v s1).
Qed.

Lemma Lookup_stub subject kind text messageType s id :
  stub_ok s → nextID s ≤ 2 ^ 32 → text ≠ [] → utf8_valid text = true → utf8_valid messageType = true → utf8_valid subject = true →
  subject ≠ str "versions" → zlen (versions_of s subject) < 2 ^ 32 - 1 →
  idsBySchema s !! key (MkValue text (wireName kind) messageType) = Some id → id ∈ versions_of s subject →
  Lookup (stub_http Unmarshal Marshal base) Unmarshal Marshal c subject kind text messageType [] s =
    (Ok id, count_request POST (subject_path subject) s).
Proof.
  intros Hok Hn Ht Hu1 Hu2 Hu3 Hv Hlen Hk Hin. unfold Lookup, post.
  assert (0 ≤ id < 2 ^ 32) as Hid.
  { apply Hok in Hk as (v' & Hv' & _). apply Hok in Hv'. lia. }
  assert (0 ≤ index_of id (versions_of s subject) + 1 < 2 ^ 32) as Hix.
  { assert (∀ l, -1 ≤ index_of id l < zlen l + 1) as H; [|specialize (H (versions_of s subject)); lia].
    induction l as [|x l IH]; cbn [index_of]; [unfold zlen; cbn; lia|]. rewrite zlen_cons. pose proof (zlen_nonneg l).
    case_decide; [lia|]. destruct (Z.eqb_spec (index_of id l) (-1)); lia. }
  set (v := MkValue text (wireName kind) messageType) in *.
  erewrite io_bind_run; [|apply (send_stub _ _ _ _ (described id v subject (index_of id (versions_of s subject) + 1))
    (count_request POST (subject_path subject) s))].
  - unfold io_lift, described, schemaBody. rewrite <- !(assoc_L (++)). cbn [app].
    rewrite requiredInt_id; [done| |done]. clear. destruct (decide (sv_MessageType v = [])), (decide (sv_SchemaType v = [])); by_decide.
  - intros j [= <-]. by apply json_valid_payload.
  - pose proof (json_valid_body id v Hid Hu1 (wireName_valid kind) Hu2) as Hj. pose proof (json_valid_int _ Hix) as Hi.
    unfold described. cbn [json_valid] in Hj |- *. rewrite forallb_app, Hj. cbn [forallb fst snd]. rewrite Hi.
    cbn [json_valid]. by rewrite Hu3.
  - unfold handle. cbn [method_is]. rewrite subject_path_suffix by done.
    rewrite (HasPrefix_app (str "/subjects/") _ : HasPrefix (subject_path subject) _ = true). cbn [andb].
    unfold stub_lookup. rewrite readSchema_payload, subjectOf_subject by done. fold v.
    change (idsBySchema (count_request _ _ s)) with (idsBySchema s). rewrite Hk.
    change (versions_of (count_request _ _ s)) with (versions_of s). by rewrite decide_True.
Qed.

Lemma SchemaByID_stub id v s :
  0 ≤ id < 2 ^ 32 → schemasByID s !! id = Some v → sv_Schema v ≠ [] → utf8_valid (sv_Schema v) = true →
  utf8_valid (sv_SchemaType v) = true → utf8_valid (sv_MessageType v) = true →
  SchemaByID (stub_http Unmarshal Marshal base) Unmarshal Marshal c id s =
    (Ok (MkFetched (sv_Schema v) (sv_MessageType v) []), count_request GET (id_path id) s).
Proof.
  intros Hid Hv Ht H1 H2 H3. unfold SchemaByID, get.
  erewrite io_bind_run; [|apply (send_stub _ _ _ _ (JObject (schemaBody id v)) (count_request GET (id_path id) s))].
  - destruct (read_schemaBody id v) as (R1 & R2 & R3). rewrite R1, R2, R3, decide_False by done. done.
  - done.
  - by apply json_valid_body.
  - unfold handle. cbn [method_is andb]. destruct (id_path_routes id) as [-> ->]. cbn [andb].
    rewrite id_path_number, ParseInt_id by done. unfold byID.
    change (schemasByID (count_request _ _ s)) with (schemasByID s). by rewrite Hv.
Qed.

End Wire.

Lemma assign_id_of_key v s id : idsBySchema s !! key v = Some id → assign_id v s = (id, s).
Proof. intros H. unfold assign_id. by rewrite H. Qed.

(** Two schemas that are known under one ID are one schema. *)
Lemma stub_ids_inj s v v' id :
  stub_ok s → idsBySchema s !! key v = Some id → idsBySchema s !! key v' = Some id → v = v'.
Proof.
  intros Hok H1 H2. apply (ok_ids _ Hok) in H1 as (w & Hw & Hk), H2 as (w' & Hw' & Hk'). rewrite Hw in Hw'.
  injection Hw' as <-. apply key_inj in Hk, Hk'. congruence.
Qed.

(** ** A stub that goes on *)

(** Any request of any client. *)
Definition stub_step (s s' : SchemaRegistryStub) : Prop := ∃ m path body, (handle m path body s).2 = s'.

(** What has an ID or is a version of a subject keeps it. *)
Definition keeps (s s' : SchemaRegistryStub) : Prop :=
  (∀ id v, schemasByID s !! id = Some v → schemasByID s' !! id = Some v) ∧
  ∀ subject id, id ∈ versions_of s subject → id ∈ versions_of s' subject.

#[local] Instance keeps_preorder : PreOrder keeps.
Proof. split; [by intros s|]. intros s1 s2 s3 [H1 H2] [H3 H4]. split; auto. Qed.

Lemma assign_id_keeps v s : stub_ok s → keeps s (assign_id v s).2.
Proof.
  intros Hok. unfold assign_id. destruct (idsBySchema s !! key v); [done|]. split; [|done]. intros id v' Hv.
  cbn. rewrite lookup_insert_ne; [done|]. pose proof (ok_range _ Hok _ _ Hv). lia.
Qed.

Lemma add_version_keeps subject id s : keeps s (add_version subject id s).
Proof.
  split; [intros id' v; by destruct (add_version_fields subject id s) as (_ & _ & -> & _)|]. intros other id' Hin.
  unfold add_version. case_decide; [done|]. unfold versions_of at 1. cbn [subjectVersions].
  destruct (decide (other = subject)) as [->|Hne]; [|by rewrite lookup_insert_ne].
  rewrite lookup_insert_eq. apply elem_of_app. by left.
Qed.

(** A request keeps the state consistent. *)
Lemma stub_step_keeps s s' : stub_step s s' → stub_ok s → stub_ok s' ∧ keeps s s'.
Proof.
  intros (m & path & body & <-) Hok. unfold handle. pose proof (count_request_ok m path s Hok) as Hok1.
  set (s1 := count_request m path s) in *. assert (keeps s s1) as Hk by done.
  destruct (_ && HasSuffix path (str "/versions")).
  { unfold stub_register. destruct (readSchema body) as [v|]; [|done].
    pose proof (assign_id_ok v s1 Hok1) as Hok2. pose proof (assign_id_keeps v s1 Hok1) as Hk2.
    destruct (assign_id v s1) as [id s2]. cbn [snd] in *. split; [by apply add_version_ok|].
    etransitivity; [exact Hk|]. etransitivity; [exact Hk2|apply add_version_keeps]. }
  repeat case_match; done.
Qed.

Lemma stub_steps_keep s s' : rtc stub_step s s' → stub_ok s → stub_ok s' ∧ keeps s s'.
Proof.
  induction 1 as [s|s s1 s' Hs _ IH]; [done|]. intros Hok. destruct (stub_step_keeps _ _ Hs Hok) as [Hok1 Hk1].
  destruct (IH Hok1) as [Hok' Hk']. split; [done|]. by etransitivity.
Qed.

Lemma keeps_ids s s' k id :
  stub_ok s → stub_ok s' → keeps s s' → idsBySchema s !! k = Some id → idsBySchema s' !! k = Some id.
Proof. intros Hok Hok' [Hk _] (v & Hv & Hkey)%Hok. apply Hok'. exists v. auto. Qed.

(** C33: Client and stub make a registry. Over a wire that carries valid documents, and with IDs left below 2^32,
    registering a schema (a text that is not empty, of valid UTF-8 as is its message type, and without references)
    succeeds in every reachable state of the stub. From then on, whatever requests any clients make of the
    stub and as long as IDs are left, the ID fetches the same text and message type, registering the same schema
    under any subject returns the same ID, a schema with another text, type or message type gets another ID, and
    looking the schema up under its subject finds that ID, for a subject of valid UTF-8 other than "versions" (whose
    lookups the stub takes for registrations: [lookup_of_versions_registers]) with less than 2^32 - 1 versions. *)
Theorem stub_serves_client Unmarshal Marshal c subject kind text messageType s :
  (∀ j, json_valid j = true → Unmarshal (Marshal j) = Some j) → 0 ≤ maxRetries c →
  stub_ok s → nextID s + 1 < 2 ^ 32 → text ≠ [] → utf8_valid text = true → utf8_valid messageType = true →
  let http := stub_http Unmarshal Marshal (baseURL c) in
  ∃ id s', Register http Unmarshal Marshal c subject kind text messageType [] s = (Ok id, s') ∧ stub_ok s' ∧
    ∀ s1, rtc stub_step s' s1 → nextID s1 < 2 ^ 32 →
      (SchemaByID http Unmarshal Marshal c id s1).1 = Ok (MkFetched text messageType []) ∧
      (∀ subject', (Register http Unmarshal Marshal c subject' kind text messageType [] s1).1 = Ok id) ∧
      (utf8_valid subject = true → subject ≠ str "versions" → zlen (versions_of s1 subject) < 2 ^ 32 - 1 →
         (Lookup http Unmarshal Marshal c subject kind text messageType [] s1).1 = Ok id) ∧
      (∀ subject' kind' text' messageType', (wireName kind', text', messageType') ≠ (wireName kind, text, messageType) →
         text' ≠ [] → utf8_valid text' = true → utf8_valid messageType' = true →
         ∃ id', (Register http Unmarshal Marshal c subject' kind' text' messageType' [] s1).1 = Ok id' ∧ id' ≠ id).
Proof.
  cbv zeta. intros Hwire Hret Hok Hn Ht Hu1 Hu2. set (v := MkValue text (wireName kind) messageType).
  pose proof (count_request_ok POST (versions_path subject) s Hok) as Hok1. set (s0 := count_request _ _ s) in *.
  pose proof (assign_id_ok v s0 Hok1) as Hok2. destruct (assign_id_known v s0 Hok1) as [Hknown _].
  set (id := (assign_id v s0).1) in *. set (s2 := (assign_id v s0).2) in *.
  destruct (add_version_fields subject id s2) as (_ & F2 & _ & Fin). pose proof (add_version_ok subject id s2 Hok2) as Hok'.
  set (s' := add_version subject id s2) in *. rewrite <- F2 in Hknown.
  exists id, s'. split; [apply (Register_stub _ _ Hwire c _ eq_refl Hret); try done; lia|]. split; [done|].
  intros s1 Hsteps Hn1. destruct (stub_steps_keep _ _ Hsteps Hok') as [Hoks Hkeep].
  pose proof (keeps_ids _ _ _ _ Hok' Hoks Hkeep Hknown) as Hknown1.
  pose proof (proj1 (ok_ids _ Hoks _ _) Hknown1) as (v' & Hv' & Hk%key_inj). subst v'.
  pose proof (ok_range _ Hoks _ _ Hv') as Hid. split_and!.
  - rewrite (SchemaByID_stub _ _ Hwire c _ eq_refl Hret id v s1); try done; [lia|apply wireName_valid].
  - intros subject'. rewrite (Register_stub _ _ Hwire c _ eq_refl Hret) by done. cbn [fst].
    by rewrite (assign_id_of_key v _ id).
  - intros Hus Hv Hlen. rewrite (Lookup_stub _ _ Hwire c _ eq_refl Hret _ _ _ _ _ id); try done; [lia|by apply Hkeep].
  - intros subject' kind' text' messageType' Hne Ht' Hu1' Hu2'. eexists. split.
    { by rewrite (Register_stub _ _ Hwire c _ eq_refl Hret). }
    set (w := MkValue text' (wireName kind') messageType'). set (s3 := count_request _ _ s1).
    assert (stub_ok s3) as Hok3 by by apply count_request_ok. destruct (assign_id_known w s3 Hok3) as [Hw Hold].
    intros Heq. rewrite Heq in Hw. pose proof (stub_ids_inj _ w v id (assign_id_ok w s3 Hok3) Hw (Hold _ _ Hknown1)) as Hwv.
    injection Hwv as H1 H2 H3. by rewrite H1, H2, H3 in Hne.
Qed.

(** A wire that writes a document as the bits of its number. *)
Fixpoint pos_bytes (p : positive) : bytes :=
  match p with xH => [] | xO p => x00 :: pos_bytes p | xI p => x01 :: pos_bytes p end.

Fixpoint bytes_pos (l : bytes) : positive :=
  match l with [] => xH | x00 :: l => xO (bytes_pos l) | _ :: l => xI (bytes_pos l) end.

Lemma bytes_pos_bytes p : bytes_pos (pos_bytes p) = p.
Proof. induction p as [p IH|p IH|]; cbn; by rewrite ?IH. Qed.

Definition bit_Marshal (j : json) : bytes := pos_bytes (encode j).
Definition bit_Unmarshal (l : bytes) : option json := decode (bytes_pos l).

Lemma bit_wire j : json_valid j = true → bit_Unmarshal (bit_Marshal j) = Some j.
Proof. intros _. unfold bit_Unmarshal, bit_Marshal. by rewrite bytes_pos_bytes, decode_encode. Qed.

Lemma stub_serves_client_witness :
  ∃ id s', Register (stub_http bit_Unmarshal bit_Marshal (str "http://registry")) bit_Unmarshal bit_Marshal demo_client
      (str "orders-value") KindAvro (str "long") [] [] NewSchemaRegistryStub = (Ok id, s') ∧
    ∀ s1, rtc stub_step s' s1 → nextID s1 < 2 ^ 32 →
      (SchemaByID (stub_http bit_Unmarshal bit_Marshal (str "http://registry")) bit_Unmarshal bit_Marshal demo_client id s1).1 =
        Ok (MkFetched (str "long") [] []).
Proof.
  destruct (stub_serves_client bit_Unmarshal bit_Marshal demo_client (str "orders-value") KindAvro (str "long") []
    NewSchemaRegistryStub bit_wire) as (id & s' & H1 & _ & H2);
    [discriminate|apply NewSchemaRegistryStub_ok|reflexivity|discriminate|reflexivity|reflexivity|].
  exists id, s'. split; [exact H1|]. intros s1 Hs Hn. by apply (H2 s1 Hs Hn).
Defined.

(** The lookup path of the subject named "versions" is taken for a registration: the schema is registered, and
    the lookup of a schema that nobody registered succeeds. *)
Lemma lookup_of_versions_registers :
  (handle POST (subject_path (str "versions")) (Some (payload KindAvro (str "long") [] [])) NewSchemaRegistryStub).1 =
    (200, JObject [(str "id", json_int 1)]) ∧
  (handle POST (subject_path (str "orders")) (Some (payload KindAvro (str "long") [] [])) NewSchemaRegistryStub).1.1 = 404.
Proof. split; by_decide. Qed.
