(* ===== verification/EndToEnd.v ===== *)
(** * Two processes and one registry

    The cache over the client over the stub, under a Protobuf serde: what one process registers and writes, another process reads with a
    cache that has never heard of the schema. The parts are those of [Serde], [Cache], [Client], [Stub] and [ProtoPrint]. *)

From S2P Require Import Prelude GoStd GoNet Kafka Json WireFormat Client Cache Serde Stub Proto ProtoPrint.
From stdpp Require Import relations.

#[local] Open Scope Z_scope.

(** ** The client as the registry of a cache *)

Section Client.
Context {W : Type} (http : HTTP W) (Unmarshal : bytes → option json) (Marshal : json → bytes) (c : RegistryClient).

(** The calls of [resolve] pass no references. *)
Definition client_registry : Registry W :=
  MkRegistry W
    (λ subject kind text messageType, Register http Unmarshal Marshal c subject kind text messageType [])
    (λ subject kind text messageType, Client.Lookup http Unmarshal Marshal c subject kind text messageType [])
    (Latest http Unmarshal Marshal c).

End Client.

(** ** Registering one schema *)

Section Process.
Context (Unmarshal : bytes → option json) (Marshal : json → bytes).
Context (wire : ∀ j, json_valid j = true → Unmarshal (Marshal j) = Some j).
Context (c : RegistryClient) (retries_ok : 0 ≤ maxRetries c).

Abbreviation http := (stub_http Unmarshal Marshal (baseURL c)).
Abbreviation registry := (client_registry http Unmarshal Marshal c).

(** A prewarm of one subject registers its schema, and knows its ID and its text afterwards. *)
Lemma prewarm_one subject local cache schedule s :
  (∀ l, schedule l ≡ₚ l) → interned cache = {[subject := local]} → registerMode cache = AutoRegister →
  stub_ok s → nextID s + 1 < 2 ^ 32 → in_schema local ≠ [] → utf8_valid (in_schema local) = true →
  utf8_valid (in_messageType local) = true →
  ∃ id s', Prewarm registry schedule (s, cache) = (Ok tt, (s', resolve_commit subject local id (in_messageType local) cache)) ∧
    stub_ok s' ∧ 1 ≤ id < nextID s + 1 ∧
    schemasByID s' !! id = Some (MkValue (in_schema local) (wireName (in_kind local)) (in_messageType local)).
Proof.
  intros Hsched Hint Hmode Hok Hn Ht Hu1 Hu2. set (v := MkValue _ _ _).
  pose proof (Register_stub Unmarshal Marshal wire c _ eq_refl retries_ok subject (in_kind local) (in_schema local) (in_messageType local) s
    Hok ltac:(lia) Ht Hu1 Hu2) as Hreg. cbv zeta in Hreg. fold v in Hreg.
  set (s1 := count_request POST (versions_path subject) s) in *. pose proof (count_request_ok POST (versions_path subject) s Hok : stub_ok s1) as Hok1.
  pose proof (assign_id_ok v s1 Hok1) as Hok2. destruct (assign_id_known v s1 Hok1) as [Hknown _].
  apply (ok_ids _ Hok2) in Hknown as (v' & Hv' & Hk%key_inj). subst v'.
  set (id := (assign_id v s1).1) in *. set (s2 := (assign_id v s1).2) in *.
  destruct (add_version_fields subject id s2) as (F1 & F2 & F3 & _).
  exists id, (add_version subject id s2). split; [|split; [by apply add_version_ok|split; [|by rewrite F3]]].
  - unfold Prewarm, prewarmReport. cbn [snd]. rewrite Hint, map_to_list_singleton.
    pose proof (Hsched [(subject, local)]) as Hs. apply Permutation_sym, Permutation_length_1_inv in Hs. rewrite Hs.
    cbn [prewarm_each]. unfold resolve. cbn [fst snd]. rewrite Hmode. unfold resolve_call. cbn [client_registry api_Register].
    unfold io_bind at 1, io_map_err at 1. rewrite Hreg. cbn. unfold Successful. cbn. by rewrite bool_decide_true.
  - pose proof (ok_range _ Hok2 _ _ Hv') as Hid. assert (nextID s2 ≤ nextID s + 1); [|lia].
    subst s2. unfold assign_id. destruct (idsBySchema s1 !! key v); cbn; lia.
Qed.

(** A schema without references is fetched as it was registered, whatever was asked of the stub since. *)
Lemma resolved_later id v s s' fuel :
  rtc stub_step s s' → stub_ok s → schemasByID s !! id = Some v → 1 ≤ id < 2 ^ 32 →
  sv_Schema v ≠ [] → utf8_valid (sv_Schema v) = true → utf8_valid (sv_SchemaType v) = true → utf8_valid (sv_MessageType v) = true →
  ∃ s'', ResolvedSchemaByID http Unmarshal Marshal c (S fuel) id s' = (Ok (MkResolved (sv_Schema v) (sv_MessageType v) ∅), s'').
Proof.
  intros Hsteps Hok Hv Hid Ht H1 H2 H3. destruct (stub_steps_keep _ _ Hsteps Hok) as [Hok' [Hkeep _]].
  eexists. unfold ResolvedSchemaByID, io_bind at 1, io_map_err at 1.
  rewrite (SchemaByID_stub Unmarshal Marshal wire c _ eq_refl retries_ok id v s') by (try done; auto; lia).
  cbn. done.
Qed.

End Process.

(** ** From one process to another *)

Section Delivery.
Context {T E : Type} (d : Serde.message_descriptor) (file : file_descriptor).
Context (marshal : T → result E bytes) (unmarshal : bytes → result E T).
Context (reflect : T → option (reflect_kind * bool)) (zero : T) (role : Role) (strategy : option SubjectNameStrategy).

(** The serde of a message type: the text that it registers is the printed file. *)
Definition message_serde (FullName : bytes) : schemaSerde cached T (protobuf_error (E := E)) :=
  NewProtobufSerde d FullName (PrintProtoFile file) marshal unmarshal reflect zero role strategy.

(** A new cache in which a serde has interned its schema for one topic. *)
Lemma interned_one FullName options topic :
  Forall cache_option options →
  let cache := cache_of (RegisterSubject (message_serde FullName) topic (MkCached (NewSchemaCache options) [])) in
  interned cache = {[subject (message_serde FullName) (MkCached (NewSchemaCache options) []) topic :=
                       MkInterned KindProtobuf (PrintProtoFile file) FullName]} ∧
  registerMode cache = registerMode (NewSchemaCache options) ∧ Cache.strategy cache = Cache.strategy (NewSchemaCache options).
Proof.
  intros Ho. destruct (NewSchemaCache_fetching options Ho) as [_ Hi]. unfold RegisterSubject. cbn -[subject]. unfold Intern. rewrite Hi.
  by rewrite lookup_empty.
Qed.

(** The frame of a value that was read before its schema arrived, and after. *)
Lemma frame_pending FullName topic id body data k :
  unframeProtobuf data = Ok (MkFrame id body) → writerSchemas (cache_of k) !! id = None →
  Deserialize (message_serde FullName) topic (Some data) k = (Err (Pending (MkPending id)), (WriterSchema id k).2).
Proof.
  intros Hu Hn. unfold Deserialize, message_serde. change (sd_unframe _) with unframeProtobuf. rewrite Hu.
  unfold io_bind, io_lift, io_map_err. cbn [rmap_err fr_SchemaID fr_Body deserializeBody NewProtobufSerde].
  unfold proto_deserializeBody, io_bind, writer_schema, io_map_err, WriterSchema. rewrite Hn. done.
Qed.

Lemma frame_fetched FullName writer topic id body data value ck running :
  unframeProtobuf data = Ok (MkFrame id body) → unmarshal body = Ok value → writer ≠ [] →
  let k := MkCached (fetchWriterSchema id (@Ok resolve_error _ (MkResolved (PrintProtoFile file) writer ∅)) ck) running in
  Deserialize (message_serde FullName) topic (Some data) k =
    (if decide (writer = FullName) then Ok value else Err (CannotDeserialize (MessageTypeMismatch writer)), k).
Proof.
  intros Hu Hun Hw k. unfold Deserialize, message_serde. change (sd_unframe _) with unframeProtobuf. rewrite Hu.
  unfold io_bind, io_lift, io_map_err. cbn [rmap_err fr_SchemaID fr_Body deserializeBody NewProtobufSerde].
  unfold proto_deserializeBody, io_bind, writer_schema, io_map_err, WriterSchema.
  assert (writerSchemas (cache_of k) !! id = Some (PrintProtoFile file)) as ->.
  { subst k. cbn [cache_of]. rewrite fetchWriterSchema_schemas. apply lookup_insert_eq. }
  assert (WriterMessageType id (cache_of k) = writer) as ->.
  { subst k. unfold WriterMessageType, fetchWriterSchema. cbn [cache_of res_MessageType res_Schema res_References].
    rewrite decide_False by done. cbn. by rewrite lookup_insert_eq. }
  cbn [rmap_err]. destruct (decide (writer = FullName)) as [->|Hne].
  - rewrite decide_False by tauto. by rewrite Hun.
  - by rewrite decide_True.
Qed.

Context (Unmarshal : bytes → option json) (Marshal : json → bytes) (c : RegistryClient).
Abbreviation http := (stub_http Unmarshal Marshal (baseURL c)).

(** C7: A message that one process writes reaches another. A process interns the schema of its message type, prewarms a new cache
    through the client, and serializes a value; every step succeeds. Another process, whose cache does not know the ID, gets the
    pending error of that ID at first, and has a fetch of it under way; the fetch, whatever else the registry has been asked in between,
    returns the printed file and the message type; and from then on the frame is read as the value that was written, while a serde of
    another message type refuses it by name. *)
Theorem message_delivered FullName options schedule topic s value body :
  (∀ j, json_valid j = true → Unmarshal (Marshal j) = Some j) → 0 ≤ maxRetries c → (∀ l, schedule l ≡ₚ l) →
  Forall cache_option options → registerMode (NewSchemaCache options) = AutoRegister →
  stub_ok s → nextID s + 1 < 2 ^ 31 → descriptor_ok d →
  FullName ≠ [] → utf8_valid FullName = true → utf8_valid (PrintProtoFile file) = true →
  isNilValue (reflect value) = false → marshal value = Ok body → unmarshal body = Ok value →
  let sd := message_serde FullName in
  let cache := cache_of (RegisterSubject sd topic (MkCached (NewSchemaCache options) [])) in
  ∃ id s' cache' data,
    Prewarm (client_registry http Unmarshal Marshal c) schedule (s, cache) = (Ok tt, (s', cache')) ∧ stub_ok s' ∧
    (∀ running, Serialize sd (MkCached cache' running) topic value = Ok (Some data)) ∧
    (∀ k topic', cache_reachable k → writerSchemas (cache_of k) !! id = None →
       ∃ k', Deserialize sd topic' (Some data) k = (Err (Pending (MkPending id)), k') ∧ id ∈ fetches k') ∧
    (∀ s1 fuel, rtc stub_step s' s1 → ∃ f s2,
       ResolvedSchemaByID http Unmarshal Marshal c (S fuel) id s1 = (Ok f, s2) ∧
       ∀ ck running topic' other, let k := MkCached (fetchWriterSchema id (@Ok resolve_error _ f) ck) running in
         Deserialize sd topic' (Some data) k = (Ok value, k) ∧
         (other ≠ FullName → (Deserialize (message_serde other) topic' (Some data) k).1 =
            Err (CannotDeserialize (MessageTypeMismatch FullName)))).
Proof.
  intros Hwire Hret Hsched Ho Hmode Hok Hn Hd Hname Hu1 Hu2 Hnil Hm Hun sd cache.
  destruct (interned_one FullName options topic Ho) as (Hint & Hmode' & Hstrat).
  destruct (prewarm_one Unmarshal Marshal Hwire c Hret _ _ _ schedule s Hsched Hint) as (id & s' & Hpre & Hok' & Hid & Hv);
    [by rewrite Hmode'|done|lia|done|done|done|]. cbn [in_schema in_messageType in_kind] in *.
  pose proof (protobuf_framing d Hd) as HF. destruct (framing id body) as (data & Hf & Hfr); [unfold inS; width_consts; lia|].
  exists id, s'. eexists _, data. split; [exact Hpre|]. split; [done|]. split; [|split].
  - intros running. set (k := MkCached _ running).
    assert (subject sd k topic = subject sd (MkCached (NewSchemaCache options) []) topic) as Hsub.
    { unfold subject, Subject, SubjectWith. subst k. cbn -[NewSchemaCache Intern]. destruct (strategy); [done|].
      unfold resolve_commit. case_decide; [done|]. cbn [Cache.strategy set_messageType set_writerSchema set_subjectID]. by rewrite <- Hstrat. }
    unfold Serialize. change (sd_reflect sd) with reflect. rewrite Hnil, Hsub.
    assert (IDForSubject (subject sd (MkCached (NewSchemaCache options) []) topic) (cache_of (sd_cache sd k)) = Some id) as ->.
    { subst k. unfold resolve_commit, IDForSubject. rewrite decide_False by done. apply lookup_insert_eq. }
    change (serializeBody sd value) with (rmap_err (@ProtobufCodec E) (marshal value)). rewrite Hm. cbn [rmap_err rbind].
    change (sd_frame sd) with (protobufFrame d). by rewrite Hf.
  - intros k topic' [_ Hfetch]%cache_reachable_invariant Hnone. eexists. split; [by apply (frame_pending _ _ _ body)|].
    unfold WriterSchema. rewrite Hnone. case_bool_decide as Hin; cbn; [by apply Hfetch|apply list_elem_of_here].
  - intros s1 fuel Hsteps.
    destruct (resolved_later Unmarshal Marshal Hwire c Hret id _ s' s1 fuel Hsteps Hok' Hv) as [s2 Hres];
      [lia|done|done|done|done|]. eexists _, s2. split; [exact Hres|]. cbn [sv_Schema sv_MessageType]. intros ck running topic' other.
    split.
    + pose proof (frame_fetched FullName FullName topic' id body data value ck running Hfr Hun Hname) as H. cbv zeta in H.
      by rewrite decide_True in H.
    + intros Hother. pose proof (frame_fetched other FullName topic' id body data value ck running Hfr Hun Hname) as H. cbv zeta in H.
      rewrite decide_False in H by done. by rewrite H.
Qed.

End Delivery.

(** ** A run *)

Definition shop_file : file_descriptor := MkFile Proto3 (str "shop") [] [] [] [MkMD (str "Order") (str "shop.Order") false [] [] [] [] [] [] [] [] []] [] [].

Definition order_serde (FullName : bytes) : schemaSerde cached bytes (protobuf_error (E := unit)) :=
  message_serde demo_descriptor shop_file (@Ok unit bytes) (@Ok unit bytes) (λ _, Some (Pointer, false)) [] RoleValue None FullName.

Lemma message_delivered_witness :
  let sd := order_serde (str "shop.Order") in
  let cache := cache_of (RegisterSubject sd (str "orders") (MkCached (NewSchemaCache []) [])) in
  let http := stub_http bit_Unmarshal bit_Marshal (str "http://registry") in
  ∃ id s' cache' data f s2,
    Prewarm (client_registry http bit_Unmarshal bit_Marshal demo_client) (λ l, l) (NewSchemaRegistryStub, cache) = (Ok tt, (s', cache')) ∧
    Serialize sd (MkCached cache' []) (str "orders") [x2a] = Ok (Some data) ∧
    ResolvedSchemaByID http bit_Unmarshal bit_Marshal demo_client 1 id s' = (Ok f, s2) ∧
    (let k := MkCached (fetchWriterSchema id (@Ok resolve_error _ f) (NewSchemaCache [])) [] in
     Deserialize sd (str "orders") (Some data) k = (Ok [x2a], k)).
Proof.
  intros sd cache http.
  destruct (message_delivered demo_descriptor shop_file (@Ok unit bytes) (@Ok unit bytes) (λ _, Some (Pointer, false)) [] RoleValue None
    bit_Unmarshal bit_Marshal demo_client (str "shop.Order") [] (λ l, l) (str "orders") NewSchemaRegistryStub [x2a] [x2a] bit_wire)
    as (id & s' & cache' & data & Hp & _ & Hs & _ & Hf);
    [discriminate|reflexivity|constructor|reflexivity|apply NewSchemaRegistryStub_ok|reflexivity|by_decide|discriminate|reflexivity
    |by vm_compute|reflexivity|reflexivity|reflexivity|].
  destruct (Hf s' O (rtc_refl _ _)) as (f & s2 & Hr & Hd). exists id, s', cache', data, f, s2.
  split; [exact Hp|]. split; [apply Hs|]. split; [exact Hr|]. apply (Hd (NewSchemaCache []) [] (str "orders") []).
Defined.
