(* ===== verification/StubServer.v ===== *)
(** * The server of the registry stub, from krabkatest/registrystub.go

    The stub of [Stub] behind a listener: it is started on an address, answers while it is open, and stops. A client of an open server
    behaves as the client of the stub, so that the theorems of [Stub] and [EndToEnd] hold for it; a client of a closed one fails. *)

From S2P Require Import Prelude GoStd GoNet Json Client Stub.

#[local] Open Scope Z_scope.

Record server := MkServer { srv_address : bytes; srv_stub : SchemaRegistryStub; srv_closed : bool }.

(** [listen] is what [net.Listen] returns for a free port: the address of the listener, or an error. *)
Inductive start_error (E : Type) := CannotStart (cause : E).
Arguments CannotStart {E}.

Definition StartStub {E} (listen : result E bytes) : result (start_error E) server :=
  let* address := rmap_err CannotStart listen in
  Ok (MkServer address NewSchemaRegistryStub false).

Definition URL (s : server) : bytes := str "http://" ++ srv_address s.

Definition Close (s : server) : server := MkServer (srv_address s) (srv_stub s) true.

Definition with_stub (s : server) (stub : SchemaRegistryStub) : server := MkServer (srv_address s) stub (srv_closed s).

Section Server.
Context (Unmarshal : bytes → option json) (Marshal : json → bytes).

(** A request to a closed server finds nobody that listens. *)
Definition server_http : HTTP server :=
  MkHTTP server (λ _ _, true)
    (λ req s,
       if srv_closed s then (None, s)
       else let '(response, stub) := Do (stub_http Unmarshal Marshal (URL s)) req (srv_stub s) in (response, with_stub s stub))
    (λ _, false).

(** ** An open server is its stub *)

Context (c : RegistryClient).

Lemma sendOnce_open method path body s :
  srv_closed s = false →
  sendOnce server_http Unmarshal c method path body s =
    let '(r, retriable, stub) := sendOnce (stub_http Unmarshal Marshal (URL s)) Unmarshal c method path body (srv_stub s) in
    (r, retriable, with_stub s stub).
Proof.
  intros Ho. unfold sendOnce. cbn [server_http NewRequest Do negb stub_http]. rewrite Ho.
  destruct (handle _ _ _ _) as [[status doc] stub]. repeat case_match; simplify_eq; done.
Qed.

Lemma send_loop_open remaining method path encoded lastErr s :
  srv_closed s = false →
  send_loop server_http Unmarshal remaining c method path encoded lastErr s =
    let '(r, stub) := send_loop (stub_http Unmarshal Marshal (URL s)) Unmarshal remaining c method path encoded lastErr (srv_stub s) in
    (r, with_stub s stub).
Proof.
  intros Ho. revert lastErr s Ho. induction remaining as [|remaining IH]; intros lastErr s Ho; cbn [send_loop]; [by destruct s|].
  rewrite sendOnce_open by done. destruct (sendOnce _ _ _ _ _ _ _) as [[[node|e] retriable] stub]; [done|].
  cbn [server_http stub_http ctx_Err]. destruct (negb retriable || false); [done|]. by rewrite IH.
Qed.

(** Each call of a client to an open server has the result that it has on the stub, and changes the stub alike. *)
Theorem server_open method path body s :
  srv_closed s = false →
  send server_http Unmarshal Marshal c method path body s =
    let '(r, stub) := send (stub_http Unmarshal Marshal (URL s)) Unmarshal Marshal c method path body (srv_stub s) in (r, with_stub s stub).
Proof. intros Ho. by apply send_loop_open. Qed.

(** After [Close] every call fails, with the failure of a request that got no answer, and the stub counts no request. *)
Theorem server_closed method path body s :
  0 ≤ maxRetries c →
  send server_http Unmarshal Marshal c method path body (Close s) = (Err (registryError RequestFailed), Close s).
Proof.
  intros Hr. unfold send. replace (Z.to_nat (maxRetries c + 1)) with (S (Z.to_nat (maxRetries c))) by lia.
  assert (∀ remaining lastErr, remaining ≠ 0%nat ∨ lastErr = Some (registryError RequestFailed) →
    send_loop server_http Unmarshal remaining c method path (Marshal <$> body) lastErr (Close s) = (Err (registryError RequestFailed), Close s)) as H.
  { induction remaining as [|remaining IH]; intros lastErr Hl; [by destruct Hl as [| ->]|]. cbn. apply IH. by right. }
  apply H. by left.
Qed.

End Server.

Lemma server_closed_witness :
  (Register (server_http bit_Unmarshal bit_Marshal) bit_Unmarshal bit_Marshal demo_client (str "orders-value") KindAvro (str "long") [] []
    (Close (MkServer (str "registry") NewSchemaRegistryStub false))).1 = Err (registryError RequestFailed).
Proof.
  unfold Register, post, io_bind.
  rewrite (server_closed bit_Unmarshal bit_Marshal demo_client POST (versions_path (str "orders-value"))); [reflexivity|discriminate].
Defined.
