(* ===== verification/Highlight.v ===== *)
(** * Highlighted Go source, from tools/docsite/highlight.go

    Source text as HTML in which the tokens are wrapped in spans. The scanner is Go's own and is a class of operations with the
    laws that its documentation gives; [Small] is a concrete scanner. *)

From S2P Require Import Prelude GoStd GoNet GoText.

#[local] Open Scope Z_scope.

(** ** Tokens and the scanner *)

(** [token.Token]: the kinds that the code tells apart; the other kinds hold the text of [Token.String]. *)
Inductive token :=
| EOF | COMMENT | IDENT | INT | FLOAT | IMAG | CHAR | STRING | LPAREN | SEMICOLON
| Keyword (text : bytes)
| Operator (text : bytes).

#[global] Instance token_eq_dec : EqDecision token.
Proof. solve_decision. Defined.

Definition token_String (tok : token) : bytes :=
  match tok with
  | EOF => str "EOF" | COMMENT => str "COMMENT" | IDENT => str "IDENT" | INT => str "INT" | FLOAT => str "FLOAT" | IMAG => str "IMAG"
  | CHAR => str "CHAR" | STRING => str "STRING" | LPAREN => str "(" | SEMICOLON => str ";"
  | Keyword text | Operator text => text
  end.

Definition IsKeyword (tok : token) : bool := match tok with Keyword _ => true | _ => false end.

Record item := MkItem { it_offset : Z; it_tok : token; it_lit : bytes }.

(** [go/scanner.Scanner] in the mode [ScanComments]; the handler of errors only counts them. *)
Class Scanner := {
  scanner : Type;
  Init : bytes → scanner;
  Scan : scanner → item * scanner;
  ErrorCount : scanner → Z;
}.

(** A semicolon that the scanner inserts at the end of a line has the literal of a line end. *)
Definition automatic (it : item) : bool := bool_decide (it_tok it = SEMICOLON) && bool_decide (it_lit it = [x0a]).

(** The text of an item: operators have an empty literal. *)
Definition item_text (it : item) : bytes := match it_lit it with [] => token_String (it_tok it) | lit => lit end.

Inductive highlight_fault := ScansForever | SliceOutOfRange.

Definition predeclaredType : list bytes :=
  [str "any"; str "bool"; str "byte"; str "comparable"; str "complex64"; str "complex128"; str "error"; str "float32"; str "float64";
   str "int"; str "int8"; str "int16"; str "int32"; str "int64"; str "rune"; str "string"; str "uint"; str "uint8"; str "uint16";
   str "uint32"; str "uint64"; str "uintptr"].
Definition predeclaredLiteral : list bytes := [str "true"; str "false"; str "nil"; str "iota"].

(** [src[low:high]]. *)
Definition slice (src : bytes) (low high : Z) : result highlight_fault bytes :=
  check! ((0 <=? low) && (low <=? high) && (high <=? zlen src)) else SliceOutOfRange in
  Ok (take (Z.to_nat (high - low)) (drop (Z.to_nat low) src)).

Definition tag_open (class : bytes) : bytes := str "<span class=" ++ [x22] ++ class ++ [x22] ++ str ">".
Definition tag_close : bytes := str "</span>".

(** The class of a token, empty for none; [next] is the token after it. *)
Definition token_class (tok : token) (raw : bytes) (next : option token) : bytes :=
  match tok with
  | COMMENT => str "tk-c"
  | STRING | CHAR => str "tk-s"
  | INT | FLOAT | IMAG => str "tk-n"
  | IDENT =>
      if bool_decide (raw ∈ predeclaredLiteral) then str "tk-l"
      else if bool_decide (raw ∈ predeclaredType) then str "tk-t"
      else if bool_decide (next = Some LPAREN) then str "tk-f"
      else []
  | _ => if IsKeyword tok then str "tk-k" else []
  end.

Definition wrap_token (class raw : bytes) : bytes :=
  match class with [] => EscapeString raw | _ => tag_open class ++ EscapeString raw ++ tag_close end.

(** The loop over the items: what it writes, and where the cursor ends. *)
Fixpoint write_items (src : bytes) (items : list item) (cursor : Z) : result highlight_fault (bytes * Z) :=
  match items with
  | [] => Ok ([], cursor)
  | it :: items =>
      if automatic it then write_items src items cursor
      else
        let* between := (if cursor <? it_offset it then slice src cursor (it_offset it) else Ok []) in
        let end_ := Z.min (it_offset it + zlen (item_text it)) (zlen src) in
        let* raw := slice src (it_offset it) end_ in
        let* rest := write_items src items end_ in
        Ok (EscapeString between ++ wrap_token (token_class (it_tok it) raw (it_tok <$> head items)) raw ++ rest.1, rest.2)
  end.

Section Highlight.
Context {G : Scanner}.

(** The loop that collects the items up to the end of the file. *)
Fixpoint scan_items (fuel : nat) (s : scanner) : result highlight_fault (list item * scanner) :=
  match fuel with
  | O => Err ScansForever
  | S fuel =>
      let '(it, s) := Scan s in
      if decide (it_tok it = EOF) then Ok ([], s)
      else let* scanned := scan_items fuel s in Ok (it :: scanned.1, scanned.2)
  end.

(** A token takes a byte or more of the source, or is a semicolon that is inserted after one. *)
Definition scan_fuel (src : bytes) : nat := 2 * length src + 2.

Definition highlightGo (src : bytes) : result highlight_fault bytes :=
  let* scanned := scan_items (scan_fuel src) (Init src) in
  let '(items, s) := scanned in
  if 0 <? ErrorCount s then Ok (EscapeString src)
  else
    let* written := write_items src items 0 in
    let '(out, cursor) := written in
    if cursor <? zlen src then let* last := slice src cursor (zlen src) in Ok (out ++ EscapeString last)
    else Ok out.

(** What the documentation of the scanner says of its tokens. [scanned src s p] says that [s] has scanned [src] up to [p].
    Tokens come in the order of the source and do not overlap; a literal may be shorter than its token, since
    carriage returns are removed from comments and raw strings. A character that is no UTF-8 is an error, and its literal may be
    longer. *)
Class ScannerLaws := {
  scanned : bytes → scanner → Z → Prop;
  scan_left : scanner → nat;
  scanned_Init src : scanned src (Init src) 0;
  scan_left_Init src : (scan_left (Init src) < scan_fuel src)%nat;
  Scan_less s it s' : Scan s = (it, s') → it_tok it ≠ EOF → (scan_left s' < scan_left s)%nat;
  Scan_errors s it s' : Scan s = (it, s') → ErrorCount s ≤ ErrorCount s';
  Scan_order src s p it s' : scanned src s p → Scan s = (it, s') → it_tok it ≠ EOF → ErrorCount s' ≤ 0 →
    ∃ p', scanned src s' p' ∧ p ≤ p' ≤ zlen src ∧
      (automatic it = false → p ≤ it_offset it ∧ it_offset it + zlen (item_text it) ≤ p');
}.

End Highlight.

Arguments ScannerLaws G : clear implicits.

(** ** Reading a page back *)

Definition token_classes : list bytes := [str "tk-c"; str "tk-s"; str "tk-n"; str "tk-k"; str "tk-l"; str "tk-t"; str "tk-f"].

(** The text of highlighted source: spans of the known classes that are closed before the next one opens are removed, and
    any other tag is refused. [skip] counts the bytes of a tag that are left. *)
Fixpoint read_spans (inside : bool) (skip : nat) (s : bytes) : option bytes :=
  match s, skip with
  | [], _ => if inside then None else Some []
  | _ :: rest, S skip => read_spans inside skip rest
  | b :: rest, O =>
      if decide (b = x3c) then
        if inside then if HasPrefix s tag_close then read_spans false (length tag_close - 1) rest else None
        else
          match List.find (λ class, HasPrefix s (tag_open class)) token_classes with
          | Some class => read_spans true (length (tag_open class) - 1) rest
          | None => None
          end
      else cons b <$> read_spans inside 0 rest
  end.

(** The tags removed and the text unescaped. *)
Definition plain (page : bytes) : option bytes := UnescapeString <$> read_spans false 0 page.

(** ** Lemmas on slices and tags *)

Definition between (src : bytes) (low high : Z) : bytes := take (Z.to_nat (high - low)) (drop (Z.to_nat low) src).

Lemma slice_Ok src low high : 0 ≤ low ≤ high → high ≤ zlen src → slice src low high = Ok (between src low high).
Proof. intros Hl Hh. unfold slice. by rewrite !(proj2 (Z.leb_le _ _)) by lia. Qed.

Lemma between_app src a b c : 0 ≤ a ≤ b → b ≤ c → between src a b ++ between src b c = between src a c.
Proof.
  intros Ha Hb. unfold between. replace (Z.to_nat b) with (Z.to_nat a + Z.to_nat (b - a))%nat by lia.
  rewrite <- drop_drop, take_take_drop. f_equal. lia.
Qed.

Lemma between_nil src a : between src a a = [].
Proof. unfold between. by rewrite Z.sub_diag. Qed.

Lemma between_all src : between src 0 (zlen src) = src.
Proof. unfold between, zlen. rewrite Z.sub_0_r, Nat2Z.id. by rewrite firstn_all. Qed.

Lemma read_text inside t rest :
  Forall (λ b, b ≠ x3c) t → read_spans inside 0 (t ++ rest) = app t <$> read_spans inside 0 rest.
Proof.
  induction 1 as [|b t Hb _ IH]; cbn [app read_spans]; [by destruct (read_spans inside 0 rest)|].
  rewrite decide_False, IH by done. by destruct (read_spans inside 0 rest).
Qed.

Lemma read_plain inside s rest :
  read_spans inside 0 (EscapeString s ++ rest) = app (EscapeString s) <$> read_spans inside 0 rest.
Proof.
  apply read_text. eapply Forall_impl; [apply EscapeString_safe|]. intros b Hb ->. apply Hb. unfold breaks_out. set_solver.
Qed.

Lemma read_open class rest : class ∈ token_classes → read_spans false 0 (tag_open class ++ rest) = read_spans true 0 rest.
Proof. unfold token_classes. rewrite !elem_of_cons, elem_of_nil. by intros [->|[->|[->|[->|[->|[->|[->|[]]]]]]]]. Qed.

Lemma read_close rest : read_spans true 0 (tag_close ++ rest) = read_spans false 0 rest.
Proof. done. Qed.

Lemma token_class_known tok raw next : token_class tok raw next ∈ [] :: token_classes.
Proof.
  unfold token_class. destruct tok; cbn [IsKeyword]; repeat case_bool_decide; apply (bool_decide_unpack _); vm_compute; exact I.
Qed.

Lemma read_wrapped class raw rest :
  class ∈ [] :: token_classes →
  read_spans false 0 (wrap_token class raw ++ rest) = app (EscapeString raw) <$> read_spans false 0 rest.
Proof.
  intros Hc. unfold wrap_token. destruct class as [|b class]; [apply read_plain|].
  apply elem_of_cons in Hc as [|Hc]; [done|].
  rewrite <- !(assoc_L (++)). by rewrite read_open, read_plain, read_close.
Qed.

(** ** Items in order *)

(** The items from the position [p] on lie within the source, one after the other. *)
Fixpoint in_order (src : bytes) (p : Z) (items : list item) : Prop :=
  match items with
  | [] => True
  | it :: items =>
      if automatic it then in_order src p items
      else p ≤ it_offset it ∧ it_offset it + zlen (item_text it) ≤ zlen src ∧ in_order src (it_offset it + zlen (item_text it)) items
  end.

Lemma in_order_weaken src p q items : q ≤ p → in_order src p items → in_order src q items.
Proof.
  intros Hq. induction items as [|it items IH]; [done|]. cbn [in_order]. destruct (automatic it); [done|].
  intros (? & ? & ?). split_and!; [lia|done..].
Qed.

(** The loop over ordered items writes what reads back as the source from the cursor on. *)
Lemma write_items_reads src items cursor :
  0 ≤ cursor ≤ zlen src → in_order src cursor items →
  ∃ out cursor', write_items src items cursor = Ok (out, cursor') ∧ cursor ≤ cursor' ≤ zlen src ∧
    ∀ rest, read_spans false 0 (out ++ rest) = app (EscapeString (between src cursor cursor')) <$> read_spans false 0 rest.
Proof.
  revert cursor. induction items as [|it items IH]; intros cursor Hc Ho; cbn [write_items in_order] in *.
  { exists [], cursor. split_and!; [done|lia..|]. intros rest. rewrite between_nil. cbn [app]. by destruct (read_spans false 0 rest). }
  destruct (automatic it); [by apply IH|]. destruct Ho as (Hp & Hq & Ho). pose proof (zlen_nonneg (item_text it)) as Hn.
  assert ((if cursor <? it_offset it then slice src cursor (it_offset it) else Ok []) = Ok (between src cursor (it_offset it))) as ->.
  { destruct (Z.ltb_spec cursor (it_offset it)); [apply slice_Ok; lia|].
    replace (it_offset it) with cursor by lia. by rewrite between_nil. }
  cbn [rbind]. rewrite Z.min_l by lia. rewrite slice_Ok by lia. cbn [rbind].
  destruct (IH (it_offset it + zlen (item_text it)) ltac:(lia) Ho) as (out & cursor' & -> & Hc' & Hread).
  cbn [rbind fst snd]. eexists _, cursor'. split_and!; [done|lia..|]. intros rest.
  rewrite <- !(assoc_L (++)), read_plain, read_wrapped, Hread by apply token_class_known.
  destruct (read_spans false 0 rest); [|done]. cbn. f_equal. rewrite !(assoc_L (++)), <- !EscapeString_app.
  by rewrite !between_app by lia.
Qed.

Lemma scan_items_ends {G : Scanner} {L : ScannerLaws G} fuel s :
  (scan_left s < fuel)%nat →
  ∃ items s', scan_items fuel s = Ok (items, s') ∧ ErrorCount s ≤ ErrorCount s' ∧
    ∀ src p, scanned src s p → ErrorCount s' ≤ 0 → in_order src p items.
Proof.
  revert s. induction fuel as [|fuel IH]; intros s Hf; [lia|]. cbn [scan_items]. destruct (Scan s) as [it s1] eqn:Hs.
  pose proof (Scan_errors _ _ _ Hs) as He. case_decide as Ht; [by exists [], s1|].
  pose proof (Scan_less _ _ _ Hs Ht). destruct (IH s1 ltac:(lia)) as (items & s2 & -> & He2 & Ho).
  exists (it :: items), s2. split_and!; [done|lia|]. intros src p Hp Hn.
  destruct (Scan_order _ _ _ _ _ Hp Hs Ht ltac:(lia)) as (p' & Hp' & Hb & Hit). specialize (Ho src p' Hp' Hn). cbn [in_order].
  destruct (automatic it); [eapply in_order_weaken; [|done]; lia|]. destruct (Hit eq_refl).
  split_and!; [lia..|]. eapply in_order_weaken; [|done]. lia.
Qed.

(** ** The page *)

Lemma read_all s : read_spans false 0 (EscapeString s) = Some (EscapeString s).
Proof. rewrite <- (app_nil_r (EscapeString s)) at 1. rewrite read_plain. cbn. by rewrite app_nil_r. Qed.

(** What is left of the page without its spans is the escaped source. *)
Lemma highlight_page {G : Scanner} {L : ScannerLaws G} (src : bytes) :
  ∃ page, highlightGo src = Ok page ∧ read_spans false 0 page = Some (EscapeString src).
Proof.
  unfold highlightGo. destruct (scan_items_ends (scan_fuel src) (Init src) (scan_left_Init src)) as (items & s & -> & _ & Ho).
  cbn [rbind]. destruct (Z.ltb_spec 0 (ErrorCount s)) as [He|He]; [eexists; split; [done|apply read_all]|].
  specialize (Ho src 0 (scanned_Init src) He).
  destruct (write_items_reads src items 0) as (out & cursor & -> & Hc & Hread); [pose proof (zlen_nonneg src); lia|done|].
  cbn [rbind]. destruct (Z.ltb_spec cursor (zlen src)) as [Hlt|Hge].
  - rewrite slice_Ok by lia. eexists. split; [done|]. rewrite Hread, read_all. cbn.
    by rewrite <- EscapeString_app, between_app, between_all by lia.
  - eexists. split; [done|]. rewrite <- (app_nil_r out), Hread. cbn.
    replace cursor with (zlen src) by lia. by rewrite app_nil_r, between_all.
Qed.

Lemma highlight_total {G : Scanner} {L : ScannerLaws G} (src : bytes) : ∃ page, highlightGo src = Ok page.
Proof. destruct (highlight_page src) as (page & Hp & _). by exists page. Qed.

(** C39: Highlighted source reads back as the source. For every text, whatever it holds, [highlightGo] ends, does not slice out of range,
    and writes a page from which the text comes back when the tags are removed and the entities read: nothing is dropped, nothing is
    written twice, and no tag but the spans of the token classes, each closed before the next one, gets into the page. *)
Theorem highlight_reads_back {G : Scanner} {L : ScannerLaws G} (src : bytes) :
  ∃ page, highlightGo src = Ok page ∧ plain page = Some src.
Proof.
  destruct (highlight_page src) as (page & Hp & Hr). exists page. split; [done|]. unfold plain. rewrite Hr. cbn.
  by rewrite UnescapeString_EscapeString.
Qed.

(** ** A concrete scanner

    A scanner for a part of Go: names, keywords, decimal numbers, strings without escapes, line comments, operators of one byte, and
    the semicolons that are inserted at line ends. *)
Module Small.

Record state := MkState { sm_rest : bytes; sm_offset : Z; sm_semi : bool; sm_errors : Z }.

Definition is_letter (b : byte) : bool := in_range b 97 122 || in_range b 65 90 || bool_decide (b = ascii_byte "_").
Definition is_digit (b : byte) : bool := in_range b 48 57.
Definition is_blank (semi : bool) (b : byte) : bool :=
  bool_decide (b ∈ [x20; x09; x0d]) || (negb semi && bool_decide (b = x0a)).

Definition keywords : list bytes :=
  [str "break"; str "case"; str "const"; str "else"; str "for"; str "func"; str "if"; str "import"; str "package"; str "range";
   str "return"; str "struct"; str "type"; str "var"].

(** The number of bytes at the start that satisfy [p]. *)
Fixpoint span (p : byte → bool) (s : bytes) : nat := match s with b :: s => if p b then S (span p s) else O | [] => O end.

(** The token that starts with the byte [b]: the bytes that it takes, its kind and literal, whether a line may end after it, and
    the errors that it adds. *)
Definition next_token (semi : bool) (b : byte) (rest : bytes) : nat * token * bytes * bool * Z :=
  if bool_decide (b = x0a) then (1%nat, SEMICOLON, [x0a], false, 0)
  else if is_letter b then
    let n := S (span (λ c, is_letter c || is_digit c) rest) in
    let lit := take n (b :: rest) in
    if bool_decide (lit ∈ keywords) then (n, Keyword lit, lit, bool_decide (lit ∈ [str "break"; str "return"]), 0)
    else (n, IDENT, lit, true, 0)
  else if is_digit b then
    let n := S (span is_digit rest) in (n, INT, take n (b :: rest), true, 0)
  else if bool_decide (b = x22) then
    let n := span (λ c, bool_decide (c ≠ x22)) rest in
    if (n <? length rest)%nat then (S (S n), STRING, take (S (S n)) (b :: rest), true, 0)
    else (S n, STRING, b :: rest, true, 1)
  else if HasPrefix (b :: rest) (str "//") then
    let n := S (span (λ c, bool_decide (c ≠ x0a)) rest) in (n, COMMENT, take n (b :: rest), semi, 0)
  else if bool_decide (b = ascii_byte "(") then (1%nat, LPAREN, [], false, 0)
  else (1%nat, Operator [b], [], bool_decide (b ∈ str ")]}"), 0).

Definition scan (s : state) : item * state :=
  let n := span (is_blank (sm_semi s)) (sm_rest s) in
  let offset := sm_offset s + Z.of_nat n in
  match drop n (sm_rest s) with
  | [] =>
      if sm_semi s then (MkItem offset SEMICOLON [x0a], MkState [] offset false (sm_errors s))
      else (MkItem offset EOF [], MkState [] offset false (sm_errors s))
  | b :: rest =>
      let '(size, tok, lit, semi, errors) := next_token (sm_semi s) b rest in
      (MkItem offset tok lit, MkState (drop size (b :: rest)) (offset + Z.of_nat size) semi (sm_errors s + errors))
  end.

#[global] Instance small_scanner : Scanner := {|
  scanner := state;
  Init src := MkState src 0 false 0;
  Scan := scan;
  ErrorCount := sm_errors;
|}.

Lemma span_le p s : (span p s ≤ length s)%nat.
Proof. induction s as [|b s IH]; cbn; [lia|]. destruct (p b); lia. Qed.

Lemma next_token_size semi b rest size tok lit semi' errors :
  next_token semi b rest = (size, tok, lit, semi', errors) →
  (1 ≤ size ≤ S (length rest))%nat ∧ tok ≠ EOF ∧ 0 ≤ errors ∧ ∀ offset, zlen (item_text (MkItem offset tok lit)) ≤ Z.of_nat size.
Proof.
  assert (Htake : ∀ n tok offset, zlen (item_text (MkItem offset tok (b :: take n rest))) ≤ Z.of_nat (S n)).
  { intros n tok0 offset. change (item_text _) with (b :: take n rest). rewrite zlen_cons. unfold zlen. rewrite length_take. lia. }
  assert (Hspan : ∀ p, (1 ≤ S (span p rest) ≤ S (length rest))%nat) by (intros p; pose proof (span_le p rest); lia).
  unfold next_token. cbv zeta. case_bool_decide; [intros [= <- <- <- <- <-]; split_and!; [lia..|done|lia|done]|].
  destruct (is_letter b); [case_bool_decide; intros [= <- <- <- <- <-]; split_and!; try apply Hspan; try done; intros; apply Htake|].
  destruct (is_digit b); [intros [= <- <- <- <- <-]; split_and!; try apply Hspan; try done; intros; apply Htake|].
  case_bool_decide.
  { destruct (Nat.ltb_spec (span (λ c, bool_decide (c ≠ x22)) rest) (length rest)); intros [= <- <- <- <- <-].
    - split_and!; [lia..|done|lia|]. intros. apply Htake.
    - pose proof (span_le (λ c, bool_decide (c ≠ x22)) rest). split_and!; [lia..|done|lia|]. intros offset.
      change (item_text _) with (b :: rest). rewrite zlen_cons. unfold zlen. lia. }
  destruct (HasPrefix _ _); [intros [= <- <- <- <- <-]; split_and!; try apply Hspan; try done; intros; apply Htake|].
  case_bool_decide; intros [= <- <- <- <- <-]; split_and!; try done; lia.
Qed.

(** What is left counts twice, and a line that may end counts for the semicolon that may be inserted. *)
Definition left_of (s : state) : nat := 2 * length (sm_rest s) + (if sm_semi s then 1 else 0).
Definition scanned_to (src : bytes) (s : state) (p : Z) : Prop := sm_offset s = p ∧ 0 ≤ p ∧ p + zlen (sm_rest s) = zlen src.

#[global, refine] Instance small_laws : ScannerLaws small_scanner := {| scanned := scanned_to; scan_left := left_of |}.
Proof.
  - intros src. by split_and!.
  - intros src. unfold left_of, scan_fuel. cbn. lia.
  - intros s it s'. cbn. unfold scan. pose proof (span_le (is_blank (sm_semi s)) (sm_rest s)) as Hn.
    pose proof (length_drop (sm_rest s) (span (is_blank (sm_semi s)) (sm_rest s))) as Hd. unfold left_of.
    destruct (drop _ (sm_rest s)) as [|b rest]; cbn [length] in Hd.
    + destruct (sm_semi s); intros [= <- <-]; cbn; [lia|done].
    + destruct (next_token _ b rest) as [[[[size tok] lit] semi] errors] eqn:Ht. apply next_token_size in Ht as (Hs & _ & _ & _).
      intros [= <- <-] _. cbn [sm_rest sm_semi]. rewrite length_drop. cbn [length]. destruct semi, (sm_semi s); lia.
  - intros s it s'. cbn. unfold scan. destruct (drop _ (sm_rest s)) as [|b rest].
    + destruct (sm_semi s); intros [= <- <-]; cbn; lia.
    + destruct (next_token _ b rest) as [[[[size tok] lit] semi] errors] eqn:Ht. apply next_token_size in Ht as (_ & _ & He & _).
      intros [= <- <-]. cbn. lia.
  - intros src s p it s' (<- & Hp & Hz). cbn. unfold scan. pose proof (span_le (is_blank (sm_semi s)) (sm_rest s)) as Hn.
    pose proof (length_drop (sm_rest s) (span (is_blank (sm_semi s)) (sm_rest s))) as Hd. unfold zlen in Hz.
    destruct (drop _ (sm_rest s)) as [|b rest]; cbn [length] in Hd.
    + destruct (sm_semi s); intros [= <- <-]; [|done]. intros _ _. exists (sm_offset s + Z.of_nat (span (is_blank true) (sm_rest s))).
      unfold scanned_to, zlen. cbn [sm_offset sm_rest length]. split_and!; try lia; done.
    + destruct (next_token _ b rest) as [[[[size tok] lit] semi] errors] eqn:Ht. apply next_token_size in Ht as (Hs & _ & _ & Hl).
      intros [= <- <-] _ _. eexists. unfold scanned_to. cbn [sm_offset sm_rest]. split_and!; [done|lia| |lia| |].
      * unfold zlen. rewrite length_drop. cbn [length]. lia.
      * unfold zlen. lia.
      * intros _. cbn [it_offset]. specialize (Hl (sm_offset s + Z.of_nat (span (is_blank (sm_semi s)) (sm_rest s)))). lia.
Qed.

End Small.

(** The source of a test of the repository. *)
Definition sample : bytes :=
  str "func Send(n int) error {" ++ [x0a; x09] ++ str "// note <b>" ++ [x0a; x09] ++ str "return fmt.Errorf(" ++ [x22] ++ str "no %d" ++ [x22] ++
  str ", 42)" ++ [x0a] ++ str "}" ++ [x0a] ++ str "var ok = true".

Lemma highlight_reads_back_witness :
  (∃ page, highlightGo sample = Ok page ∧ plain page = Some sample) ∧
  highlightGo (str "Send(int, 42)" ++ [x0a])
  = Ok (tag_open (str "tk-f") ++ str "Send</span>(" ++ tag_open (str "tk-t") ++ str "int</span>, " ++ tag_open (str "tk-n") ++ str "42</span>)" ++ [x0a]).
Proof. split; [apply (highlight_reads_back sample)|by vm_compute]. Defined.

(** The source of a test of the repository that the scanner refuses. *)
Example refused_source_escaped :
  highlightGo (str "s := " ++ [x22] ++ str "<script>") = Ok (str "s := &#34;&lt;script&gt;").
Proof. by vm_compute. Qed.
