(* ===== verification/Docsite.v ===== *)
(** * The API reference site, from tools/docsite/main.go

    The tool groups Go files into packages, lets go/doc read them, and writes an index page and one page per package. The parser, go/doc,
    its comment renderer and the printer are classes of operations; the style sheet and the logo are texts. *)

From S2P Require Import Prelude GoStd GoNet GoText Kafka Highlight.

#[local] Open Scope Z_scope.

Definition nl : bytes := [x0a].

(** A text in double quotes. *)
Definition quoted (s : bytes) : bytes := [x22] ++ s ++ [x22].

(** ** What go/doc says of a package *)

(** The types of go/ast and go/token. *)
Class GoAst := { file_set : Type; ast_file : Type; ast_decl : Type; ast_code : Type; ast_comments : Type; ast_pos : Type }.

Section Documentation.
Context {A : GoAst}.

Record doc_Value := MkValue { dv_Doc : bytes; dv_Decl : ast_decl }.

(** [Play] is nil for an example that is no whole file. *)
Record doc_Example := MkExample {
  ex_Suffix : bytes; ex_Doc : bytes; ex_Code : ast_code; ex_Play : option ast_file; ex_Comments : ast_comments; ex_Output : bytes
}.

Record doc_Func := MkFunc { fn_Doc : bytes; fn_Name : bytes; fn_Decl : ast_decl; fn_Recv : bytes; fn_Examples : list doc_Example }.

Record doc_Type := MkType {
  ty_Doc : bytes; ty_Name : bytes; ty_Decl : ast_decl; ty_Consts : list doc_Value; ty_Vars : list doc_Value;
  ty_Funcs : list doc_Func; ty_Methods : list doc_Func; ty_Examples : list doc_Example
}.

Record doc_Package := MkPackage {
  pk_Doc : bytes; pk_Name : bytes; pk_ImportPath : bytes; pk_Consts : list doc_Value; pk_Types : list doc_Type;
  pk_Vars : list doc_Value; pk_Funcs : list doc_Func; pk_Examples : list doc_Example
}.

(** [comment.DocLink]: the receiver is without a star and type parameters. *)
Record DocLink := MkLink { dl_ImportPath : bytes; dl_Recv : bytes; dl_Name : bytes }.

(** What the printer is given. *)
Inductive printed_node :=
| PrintedDecl (decl : ast_decl) (comments : ast_comments)
| PrintedBlock (code : ast_code) (comments : ast_comments)
| PrintedFile (file : ast_file).

(** [comment.DocLink.DefaultURL] for a base without a slash at its end. *)
Definition DefaultURL (link : DocLink) (base : bytes) : bytes :=
  let name := match dl_Recv link with [] => dl_Name link | recv => recv ++ str "." ++ dl_Name link end in
  match dl_ImportPath link with
  | [] => str "#" ++ name
  | path => base ++ str "/" ++ path ++ match dl_Name link with [] => [] | _ => str "#" ++ name end
  end.

End Documentation.

(** The functions of go/parser, go/doc and go/printer that the tool calls. [ParseFile] reads the file of the name; [NewFromFiles]
    edits the trees that it is given; [Fprint] returns what it has printed, with the text of its error; [HTML] parses a comment
    and renders it with a heading level of 4 and the resolver of links; [quote_wide] is how the verb q writes a text beyond ASCII. *)
Class GoDoc {A : GoAst} := {
  parse_error : Type;
  doc_error : Type;
  NewFileSet : file_set;
  ParseFile : file_set → bytes → result parse_error ast_file * file_set;
  NewFromFiles : file_set → list ast_file → bytes → result doc_error (doc_Package * list ast_file);
  Synopsis : doc_Package → bytes → bytes;
  decl_Pos : ast_decl → ast_pos;
  Position : file_set → ast_pos → bytes * Z;
  file_Comments : ast_file → ast_comments;
  Fprint : file_set → printed_node → bytes * option bytes;
  HTML : doc_Package → (DocLink → bytes) → bytes → bytes;
  quote_wide : bytes → bytes;
}.
Arguments GoDoc A : clear implicits.

(** The two long constants of the source. *)
Class Theme := { style : bytes; logoSVG : bytes }.

Definition logoDataURI {T : Theme} : bytes := str "data:image/svg+xml," ++ PathEscape logoSVG.

(** ** Text of declarations and examples *)

Definition nonblank (line : bytes) : bool := bool_decide (TrimSpace line ≠ []).

Fixpoint nextNonBlank (lines : list bytes) : bytes :=
  match lines with [] => [] | line :: lines => if nonblank line then line else nextNonBlank lines end.

Definition isStdImport (line : bytes) : bool :=
  match last (Fields line) with
  | Some field =>
      HasPrefix field [x22] &&
      let path := Trim field [[x22]] in
      let '(first, _, _) := Cut path slash in
      negb (Contains first (ascii_byte "."))
  | None => false
  end.

(** The loop over the lines; [kept] is the last line that was kept. *)
Fixpoint join_lines (inImports : bool) (kept : option bytes) (lines : list bytes) : list bytes :=
  match lines with
  | [] => []
  | line :: lines =>
      let trimmed := TrimSpace line in
      if bool_decide (trimmed = str "import (") then line :: join_lines true (Some line) lines
      else if bool_decide (trimmed = str ")") then line :: join_lines false (Some line) lines
      else if inImports && bool_decide (trimmed = []) && match kept with Some last => isStdImport last | None => false end
              && isStdImport (nextNonBlank lines)
      then join_lines inImports kept lines
      else line :: join_lines inImports (Some line) lines
  end.

Definition joinStdImports (text : bytes) : bytes := strings_Join (join_lines false None (Split text x0a)) nl.

Definition indent_of (line : bytes) : bytes := take (length line - length (TrimLeft line [[x20]; [x09]])) line.

(** The shortest indent of the lines that are not blank, the first such one; [prefix] is what was found so far. *)
Fixpoint shortest_indent (prefix : option bytes) (lines : list bytes) : option bytes :=
  match lines with
  | [] => prefix
  | line :: lines =>
      if nonblank line then
        let indent := indent_of line in
        shortest_indent
          (match prefix with Some found => if (length indent <? length found)%nat then Some indent else prefix | None => Some indent end) lines
      else shortest_indent prefix lines
  end.

Definition dedent (text : bytes) : bytes :=
  let lines := Split text x0a in
  let prefix := default [] (shortest_indent None lines) in
  TrimSpace (strings_Join (map (λ line, TrimPrefix line prefix) lines) nl).

(** ** The verb q *)

Definition hex2 (b : byte) : bytes :=
  let digit d := if d <? 10 then z2b (48 + d) else z2b (87 + d) in [digit (b2z b / 16); digit (b2z b mod 16)].

Definition quote_ascii (b : byte) : bytes :=
  match b with
  | x22 => [x5c; x22] | x5c => [x5c; x5c]
  | x07 => str "\a" | x08 => str "\b" | x0c => str "\f" | x0a => str "\n" | x0d => str "\r" | x09 => str "\t" | x0b => str "\v"
  | _ => if (b2z b <? 32) || (b2z b =? 127) then str "\x" ++ hex2 b else [b]
  end.

Section Site.
Context {A : GoAst} {D : GoDoc A} {G : Scanner} {T : Theme}.

(** [wide] is the reverse of the bytes beyond ASCII that were just read. *)
Fixpoint quote_from (wide s : bytes) : bytes :=
  let flush := match wide with [] => [] | _ => quote_wide (rev wide) end in
  match s with
  | [] => flush
  | b :: rest => if 128 <=? b2z b then quote_from (b :: wide) rest else flush ++ quote_ascii b ++ quote_from [] rest
  end.
Definition Quote (s : bytes) : bytes := quoted (quote_from [] s).

(** ** The site *)

Record packageDoc := MkPackageDoc {
  pd_doc : doc_Package; pd_fset : file_set; pd_files : gmap bytes ast_file; pd_dir : bytes; pd_page : bytes; pd_synopsis : bytes
}.

Record site := MkSite { st_module : bytes; st_repo : bytes; st_packages : list packageDoc }.

(** A fault stands for a panic: of the highlighter, or of the dereference of a file that is not there. *)
Inductive docsite_fault := HighlightFault (fault : highlight_fault) | NilFile.

Inductive load_error :=
| CannotParse (file : bytes) (cause : parse_error)
| CannotDocument (importPath : bytes) (cause : doc_error).

(** *** Loading *)

Definition dir_of (file : bytes) : bytes := let dir := filepath_Dir file in if bool_decide (dir = dot) then [] else dir.

(** A map of the files by directory. *)
Definition add_file (byDir : gmap bytes (list bytes)) (file : bytes) : gmap bytes (list bytes) :=
  <[dir_of file := default [] (byDir !! dir_of file) ++ [file]]> byDir.
Definition group_files (args : list bytes) : gmap bytes (list bytes) := fold_left add_file args ∅.

Fixpoint parse_files (fset : file_set) (files : list bytes) : result load_error (list (bytes * ast_file) * file_set) :=
  match files with
  | [] => Ok ([], fset)
  | file :: files =>
      let '(parsed, fset) := ParseFile fset file in
      let* tree := rmap_err (CannotParse file) parsed in
      let* rest := parse_files fset files in
      Ok ((file, tree) :: rest.1, rest.2)
  end.

Definition page_name (dir name : bytes) : bytes :=
  match dir with [] => name ++ str ".html" | _ => ReplaceAll dir slash (ascii_byte "-") ++ str ".html" end.

(** The trees of the map are those that go/doc edits; of two arguments with one name the later tree stays. *)
Definition load_package (module : bytes) (dir : bytes) (files : list bytes) : result load_error packageDoc :=
  let importPath := match dir with [] => module | _ => module ++ [slash] ++ dir end in
  let* parsed := parse_files NewFileSet (merge_sort bytes_le files) in
  let '(trees, fset) := parsed in
  let* documented := rmap_err (CannotDocument importPath) (NewFromFiles fset (map snd trees) importPath) in
  let '(package, edited) := documented in
  Ok (MkPackageDoc package fset (fold_left (λ m entry, <[entry.1 := entry.2]> m) (zip (map fst trees) edited) ∅)
        dir (page_name dir (pk_Name package)) (Synopsis package (pk_Doc package))).

Fixpoint load_packages (module : bytes) (byDir : gmap bytes (list bytes)) (dirs : list bytes) : result load_error (list packageDoc) :=
  match dirs with
  | [] => Ok []
  | dir :: dirs =>
      let* package := load_package module dir (default [] (byDir !! dir)) in
      let* packages := load_packages module byDir dirs in
      Ok (package :: packages)
  end.

Definition load (module repo : bytes) (args : list bytes) : result load_error site :=
  let byDir := group_files args in
  let* packages := load_packages module byDir (sorted_keys byDir) in
  Ok (MkSite module repo packages).

(** *** Links *)

Definition pageFor (s : site) (importPath : bytes) : bytes :=
  match List.find (λ package, bool_decide (pk_ImportPath (pd_doc package) = importPath)) (st_packages s) with
  | Some package => pd_page package
  | None => []
  end.

Definition signature (fn : doc_Func) : bytes :=
  match fn_Recv fn with
  | [] => str "func " ++ fn_Name fn
  | recv => str "func (" ++ recv ++ str ") " ++ fn_Name fn
  end.

(** The receiver without its star and type parameters. *)
Definition receiver_name (recv : bytes) : bytes := let '(name, _, _) := Cut (TrimPrefix recv (str "*")) (ascii_byte "[") in name.

Definition anchor (fn : doc_Func) : bytes :=
  match fn_Recv fn with
  | [] => fn_Name fn
  | recv => receiver_name recv ++ str "." ++ fn_Name fn
  end.

Definition sourceLink (s : site) (package : packageDoc) (pos : ast_pos) : bytes :=
  match st_repo s with
  | [] => []
  | repo =>
      let '(filename, line) := Position (pd_fset package) pos in
      let href := repo ++ str "/blob/main/" ++ path_Clean filename ++ str "#L" ++ FormatInt line in
      str "<a class=" ++ quoted (str "source") ++ str " href=" ++ quoted (EscapeString href) ++ str ">source</a>"
  end.

(** The resolver of links that [docHTML] gives to the renderer. *)
Definition docLinkURL (s : site) (package : packageDoc) (link : DocLink) : bytes :=
  let importPath := match dl_ImportPath link with [] => pk_ImportPath (pd_doc package) | path => path end in
  match pageFor s importPath with
  | [] => DefaultURL link (str "https://pkg.go.dev")
  | target =>
      let fragment := match dl_Recv link with [] => dl_Name link | recv => recv ++ str "." ++ dl_Name link end in
      match fragment with [] => target | _ => target ++ str "#" ++ fragment end
  end.

Definition docHTML (s : site) (package : packageDoc) (text : bytes) : bytes :=
  if bool_decide (TrimSpace text = []) then [] else HTML (pd_doc package) (docLinkURL s package) text.

(** *** Pages *)

Definition highlighted (src : bytes) : result docsite_fault bytes := rmap_err HighlightFault (highlightGo src).

(** What is printed, with the text of the error when there is one. *)
Definition printed_text (package : packageDoc) (node : printed_node) : bytes :=
  let '(text, err) := Fprint (pd_fset package) node in text ++ default [] err.

(** The file of a position, nil when the map has none of the name. *)
Definition fileFor (package : packageDoc) (pos : ast_pos) : option ast_file := pd_files package !! (Position (pd_fset package) pos).1.

Definition code (package : packageDoc) (decl : ast_decl) : result docsite_fault bytes :=
  match fileFor package (decl_Pos decl) with
  | None => Err NilFile
  | Some file =>
      let* text := highlighted (printed_text package (PrintedDecl decl (file_Comments file))) in
      Ok (str "<pre class=" ++ quoted (str "decl") ++ str ">" ++ text ++ str "</pre>" ++ nl)
  end.

(** A loop that writes one element after the other. *)
Fixpoint write_each {X} (write : X → result docsite_fault bytes) (l : list X) : result docsite_fault bytes :=
  match l with
  | [] => Ok []
  | x :: l => let* out := write x in let* rest := write_each write l in Ok (out ++ rest)
  end.

Definition example_text (package : packageDoc) (example : doc_Example) : bytes :=
  match ex_Play example with
  | None =>
      TrimSuffix (TrimPrefix (TrimSpace (printed_text package (PrintedBlock (ex_Code example) (ex_Comments example)))) (str "{")) (str "}")
  | Some file => joinStdImports (TrimSpace (printed_text package (PrintedFile file)))
  end.

Definition example_html (s : site) (package : packageDoc) (example : doc_Example) : result docsite_fault bytes :=
  let name := str "Example" ++ match ex_Suffix example with [] => [] | suffix => str " (" ++ suffix ++ str ")" end in
  let* text := highlighted (dedent (example_text package example)) in
  Ok (str "<details class=" ++ quoted (str "example") ++ str "><summary>" ++ EscapeString name ++ str "</summary>" ++ nl ++
      docHTML s package (ex_Doc example) ++
      str "<pre>" ++ text ++ str "</pre>" ++ nl ++
      match ex_Output example with
      | [] => []
      | output => str "<p>Output:</p>" ++ nl ++ str "<pre>" ++ EscapeString (TrimSpace output) ++ str "</pre>" ++ nl
      end ++
      str "</details>" ++ nl).

Definition examples (s : site) (package : packageDoc) (l : list doc_Example) : result docsite_fault bytes :=
  write_each (example_html s package) l.

Definition value (s : site) (package : packageDoc) (v : doc_Value) : result docsite_fault bytes :=
  let* text := code package (dv_Decl v) in
  Ok (text ++ docHTML s package (dv_Doc v)).

Definition function (s : site) (package : packageDoc) (heading : bytes) (fn : doc_Func) : result docsite_fault bytes :=
  let* text := code package (fn_Decl fn) in
  let* shown := examples s package (fn_Examples fn) in
  Ok (str "<" ++ heading ++ str " id=" ++ quoted (anchor fn) ++ str ">" ++ EscapeString (signature fn) ++ str " " ++
      sourceLink s package (decl_Pos (fn_Decl fn)) ++ str "</" ++ heading ++ str ">" ++ nl ++
      text ++ docHTML s package (fn_Doc fn) ++ shown).

(** A link of the index to an element of the page. *)
Definition fragment_link (fragment text : bytes) : bytes :=
  str "<li><a href=" ++ quoted (str "#" ++ fragment) ++ str ">" ++ text ++ str "</a>".

Definition function_link (fragment : doc_Func → bytes) (fn : doc_Func) : bytes :=
  fragment_link (fragment fn) (EscapeString (signature fn)) ++ str "</li>".

Definition type_entry (typ : doc_Type) : bytes :=
  fragment_link (ty_Name typ) (str "type " ++ ty_Name typ) ++ nl ++
  match map (function_link anchor) (ty_Funcs typ ++ ty_Methods typ) with
  | [] => []
  | members => str "<ul>" ++ nl ++ strings_Join members nl ++ nl ++ str "</ul>" ++ nl
  end ++
  str "</li>" ++ nl.

(** [when_any] writes a part of the page when the list has an element. *)
Definition when_any {X Y} (l : list X) (part : list Y) : list Y := match l with [] => [] | _ => part end.

Definition package_index (doc : doc_Package) : bytes :=
  str "<h2>Index</h2>" ++ nl ++ str "<ul class=" ++ quoted (str "index") ++ str ">" ++ nl ++
  when_any (pk_Consts doc) (fragment_link (str "pkg-constants") (str "Constants") ++ str "</li>" ++ nl) ++
  when_any (pk_Vars doc) (fragment_link (str "pkg-variables") (str "Variables") ++ str "</li>" ++ nl) ++
  concat (map (λ fn, function_link fn_Name fn ++ nl) (pk_Funcs doc)) ++
  concat (map type_entry (pk_Types doc)) ++
  str "</ul>" ++ nl.

Definition type_section (s : site) (package : packageDoc) (typ : doc_Type) : result docsite_fault bytes :=
  let* text := code package (ty_Decl typ) in
  let* shown := examples s package (ty_Examples typ) in
  let* values := write_each (value s package) (ty_Consts typ ++ ty_Vars typ) in
  let* funcs := write_each (function s package (str "h4")) (ty_Funcs typ) in
  let* methods := write_each (function s package (str "h4")) (ty_Methods typ) in
  Ok (str "<h3 id=" ++ quoted (ty_Name typ) ++ str ">type " ++ ty_Name typ ++ str " " ++
      sourceLink s package (decl_Pos (ty_Decl typ)) ++ str "</h3>" ++ nl ++
      text ++ docHTML s package (ty_Doc typ) ++ shown ++ values ++ funcs ++ methods).

Definition heading2 (id title : bytes) : bytes := str "<h2" ++ id ++ str ">" ++ title ++ str "</h2>" ++ nl.

Definition layout (s : site) (title body : bytes) : bytes :=
  str "<!DOCTYPE html>" ++ nl ++ str "<html lang=" ++ quoted (str "en") ++ str ">" ++ nl ++ str "<head>" ++ nl ++
  str "<meta charset=" ++ quoted (str "utf-8") ++ str ">" ++ nl ++
  str "<meta name=" ++ quoted (str "viewport") ++ str " content=" ++ quoted (str "width=device-width, initial-scale=1") ++ str ">" ++ nl ++
  str "<meta name=" ++ quoted (str "color-scheme") ++ str " content=" ++ quoted (str "dark") ++ str ">" ++ nl ++
  str "<title>" ++ EscapeString title ++ str "</title>" ++ nl ++
  str "<link rel=" ++ quoted (str "icon") ++ str " type=" ++ quoted (str "image/svg+xml") ++ str " href=" ++ quoted logoDataURI ++ str ">" ++ nl ++
  str "<style>" ++ style ++ str "</style>" ++ nl ++ str "</head>" ++ nl ++ str "<body>" ++ nl ++
  str "<header class=" ++ quoted (str "site-header") ++ str "><nav aria-label=" ++ quoted (str "Packages") ++ str ">" ++
  str "<a class=" ++ quoted (str "brand") ++ str " href=" ++ quoted (str "index.html") ++ str "><img class=" ++ quoted (str "logo") ++
  str " src=" ++ quoted logoDataURI ++ str " alt=" ++ quoted [] ++ str " width=" ++ quoted (str "24") ++ str " height=" ++ quoted (str "24") ++ str ">" ++
  EscapeString (st_module s) ++ str "</a>" ++
  str "<span class=" ++ quoted (str "pkgs") ++ str ">" ++
  concat (map (λ package, str "<a href=" ++ quoted (pd_page package) ++ str ">" ++ EscapeString (pk_Name (pd_doc package)) ++ str "</a>") (st_packages s)) ++
  str "</span></nav></header>" ++ nl ++ str "<main>" ++ nl ++ body ++ nl ++ str "</main>" ++ nl ++
  str "<footer class=" ++ quoted (str "site-footer") ++ str ">API reference for " ++ EscapeString (st_module s) ++
  str ", generated from godoc comments.</footer>" ++ nl ++ str "</body>" ++ nl ++ str "</html>" ++ nl.

(** A break may follow each slash of the import path. *)
Definition breakable (importPath : bytes) : bytes :=
  strings_Join (map (λ element, str "<span>" ++ EscapeString element ++ str "</span>") (Split importPath slash)) (str "/<wbr>").

Definition index_row (package : packageDoc) : bytes :=
  str "<tr><td><a href=" ++ quoted (pd_page package) ++ str ">" ++ breakable (pk_ImportPath (pd_doc package)) ++ str "</a></td><td>" ++
  EscapeString (pd_synopsis package) ++ str "</td></tr>" ++ nl.

Definition indexPage (s : site) : bytes :=
  layout s (st_module s)
    (str "<h1>" ++ EscapeString (st_module s) ++ str "</h1>" ++ nl ++
     str "<p>API reference, generated from the package documentation. " ++
     str "See the <a href=" ++ quoted (EscapeString (st_repo s)) ++ str ">repository</a> for guides and examples.</p>" ++
     nl ++ str "<table class=" ++ quoted (str "packages") ++ str ">" ++ nl ++ str "<tr><th>Package</th><th>Synopsis</th></tr>" ++ nl ++
     concat (map index_row (st_packages s)) ++ str "</table>" ++ nl).

Definition package_body (s : site) (package : packageDoc) : result docsite_fault bytes :=
  let doc := pd_doc package in
  let* shown := examples s package (pk_Examples doc) in
  let* consts := write_each (value s package) (pk_Consts doc) in
  let* vars := write_each (value s package) (pk_Vars doc) in
  let* funcs := write_each (function s package (str "h3")) (pk_Funcs doc) in
  let* types := write_each (type_section s package) (pk_Types doc) in
  Ok (str "<h1>package " ++ EscapeString (pk_Name doc) ++ str "</h1>" ++ nl ++
      str "<p class=" ++ quoted (str "import") ++ str "><code>import " ++ Quote (pk_ImportPath doc) ++ str "</code></p>" ++ nl ++
      docHTML s package (pk_Doc doc) ++ shown ++ package_index doc ++
      when_any (pk_Consts doc) (heading2 (str " id=" ++ quoted (str "pkg-constants")) (str "Constants")) ++ consts ++
      when_any (pk_Vars doc) (heading2 (str " id=" ++ quoted (str "pkg-variables")) (str "Variables")) ++ vars ++
      when_any (pk_Funcs doc) (heading2 [] (str "Functions")) ++ funcs ++
      when_any (pk_Types doc) (heading2 [] (str "Types")) ++ types).

Definition packagePage (s : site) (package : packageDoc) : result docsite_fault bytes :=
  let* body := package_body s package in
  Ok (layout s (str "package " ++ pk_Name (pd_doc package) ++ str " - " ++ st_module s) body).

(** *** Writing the site *)

(** The output directory: the files by path, and the writes that the system refuses, each with what it leaves of the file. *)
Record output (E : Type) := MkOutput { out_files : gmap bytes bytes; out_refused : bytes → option (E * option bytes) }.
Arguments MkOutput {E}.
Arguments out_files {E}.
Arguments out_refused {E}.

Inductive render_error (E : Type) := WriteError (cause : E) | Panicked (fault : docsite_fault).
Arguments WriteError {E}.
Arguments Panicked {E}.

Definition WriteFile {E} (path data : bytes) : io (output E) (render_error E) unit := λ o,
  match out_refused o path with
  | Some (e, kept) =>
      (Err (WriteError e), MkOutput (match kept with Some part => <[path := part]> (out_files o) | None => out_files o end) (out_refused o))
  | None => (Ok tt, MkOutput (<[path := data]> (out_files o)) (out_refused o))
  end.

(** [filepath.Join] of a directory and a name. *)
Definition Join (out name : bytes) : bytes := path_Clean (out ++ [slash] ++ name).

Fixpoint write_packages {E} (s : site) (out : bytes) (packages : list packageDoc) : io (output E) (render_error E) unit :=
  match packages with
  | [] => io_ret tt
  | package :: packages =>
      do* page := io_lift (rmap_err Panicked (packagePage s package)) in
      do* _ := WriteFile (Join out (pd_page package)) page in
      write_packages s out packages
  end.

(** [mkdir] is [os.MkdirAll]. *)
Definition render {E} (mkdir : bytes → io (output E) (render_error E) unit) (s : site) (out : bytes) : io (output E) (render_error E) unit :=
  do* _ := mkdir out in
  do* _ := WriteFile (Join out (str "index.html")) (indexPage s) in
  write_packages s out (st_packages s).

Inductive main_error (E : Type) := Usage | LoadError (cause : load_error) | RenderError (cause : render_error E).
Arguments Usage {E}.
Arguments LoadError {E}.
Arguments RenderError {E}.

(** The command after its flags are parsed; every error ends the process. *)
Definition main {E} (mkdir : bytes → io (output E) (render_error E) unit) (module repo out : bytes) (args : list bytes) :
  io (output E) (main_error E) unit :=
  if bool_decide (module = [] ∨ out = [] ∨ args = []) then io_fail Usage
  else
    do* s := io_lift (rmap_err LoadError (load module repo args)) in
    io_map_err RenderError (render mkdir s out).

End Site.

Arguments MkOutput {E}.
Arguments out_files {E}.
Arguments out_refused {E}.
