(* ===== verification/DocsitePages.v ===== *)
(** * The pages of the API reference, theorems about [Docsite]

    A page of a package is complete and its index links to elements that are there, loading puts every file into the package of its
    directory, and rendering writes every page that a link of the site leads to. [Demo] is a small go/doc, with which the
    surprises of the last section run. *)

From S2P Require Import Prelude GoStd GoNet GoText Kafka Highlight Docsite.

#[local] Open Scope Z_scope.

(** ** Texts within texts *)

Definition occurs (x s : bytes) : Prop := ∃ pre post, s = pre ++ x ++ post.

Create HintDb occurs.

Lemma occurs_refl x : occurs x x.
Proof. exists [], []. by rewrite app_nil_r. Qed.

Lemma occurs_l x s t : occurs x s → occurs x (s ++ t).
Proof. intros (pre & post & ->). exists pre, (post ++ t). by rewrite !(assoc_L (++)). Qed.

Lemma occurs_r x s t : occurs x t → occurs x (s ++ t).
Proof. intros (pre & post & ->). exists (s ++ pre), post. by rewrite (assoc_L (++)). Qed.

Lemma occurs_here x s t : s = x → occurs x (s ++ t).
Proof. intros ->. apply occurs_l, occurs_refl. Qed.

Lemma occurs_concat {X} (f : X → bytes) (l : list X) x y : y ∈ l → occurs x (f y) → occurs x (concat (map f l)).
Proof.
  intros Hy Ho. induction l as [|z l IH]; [by apply elem_of_nil in Hy|].
  cbn [map concat]. apply elem_of_cons in Hy as [->|Hy].
  - by apply occurs_l.
  - by apply occurs_r, IH.
Qed.

Lemma occurs_join (l : list bytes) sep x y : y ∈ l → occurs x y → occurs x (strings_Join l sep).
Proof.
  intros Hy Ho. induction l as [|z l IH]; [by apply elem_of_nil in Hy|]. apply elem_of_cons in Hy as [->|Hy].
  - destruct l as [|w l]; [done|]. rewrite strings_Join_cons by done. by apply occurs_l.
  - destruct l as [|w l]; [by apply elem_of_nil in Hy|]. rewrite strings_Join_cons by done. by apply occurs_r, occurs_r, IH.
Qed.

#[export] Hint Resolve occurs_refl occurs_here occurs_l occurs_r : occurs.

Ltac occurs := eauto 30 with occurs.

(** Equal results have equal values; unlike [injection], the lemma leaves their form as it is. *)
Lemma Ok_inj {E X} (x y : X) : @Ok E X x = Ok y → x = y.
Proof. by intros [=]. Qed.

Section Pages.
Context {A : GoAst} {D : GoDoc A} {G : Scanner} {T : Theme}.

Lemma write_each_occurs {X} (write : X → result docsite_fault bytes) l out x y :
  write_each write l = Ok out → y ∈ l → (∀ o, write y = Ok o → occurs x o) → occurs x out.
Proof.
  intros Hw Hy Ho. revert out Hw. induction l as [|z l IH]; intros out; [by apply elem_of_nil in Hy|]. cbn [write_each].
  intros (o & Hz & (rest & Hrest & <-%Ok_inj)%rbind_Ok)%rbind_Ok. apply elem_of_cons in Hy as [->|Hy].
  - by apply occurs_l, Ho.
  - apply occurs_r. by apply IH.
Qed.

Lemma write_each_total {X} (write : X → result docsite_fault bytes) l :
  (∀ x, x ∈ l → ∃ o, write x = Ok o) → ∃ out, write_each write l = Ok out.
Proof.
  induction l as [|x l IH]; intros Hl; cbn [write_each]; [by eexists|].
  destruct (Hl x) as [o ->]; [set_solver|]. cbn [rbind]. destruct IH as [rest ->]; [set_solver|]. by eexists.
Qed.

(** ** Links of the index *)

Definition id_of (fragment : bytes) : bytes := str " id=" ++ quoted fragment.
Definition link_to (fragment : bytes) : bytes := str "<li><a href=" ++ quoted (str "#" ++ fragment).

(** The fragments that the index of a package links to. *)
Definition type_targets (typ : doc_Type) : list bytes := ty_Name typ :: map anchor (ty_Funcs typ ++ ty_Methods typ).
Definition index_targets (doc : doc_Package) : list bytes :=
  when_any (pk_Consts doc) [str "pkg-constants"] ++ when_any (pk_Vars doc) [str "pkg-variables"] ++
  map fn_Name (pk_Funcs doc) ++ concat (map type_targets (pk_Types doc)).

Lemma function_has_id s package heading fn out : function s package heading fn = Ok out → occurs (id_of (anchor fn)) out.
Proof.
  unfold function. intros (text & _ & (shown & _ & <-%Ok_inj)%rbind_Ok)%rbind_Ok. unfold id_of.
  apply occurs_r, occurs_r. rewrite (assoc_L (++) (str " id=")). occurs.
Qed.

Lemma type_section_ids s package typ out fragment :
  type_section s package typ = Ok out → fragment ∈ type_targets typ → occurs (id_of fragment) out.
Proof.
  unfold type_section, type_targets.
  intros (text & _ & (shown & _ & (values & _ & (funcs & Hf & (methods & Hm & <-%Ok_inj)%rbind_Ok)%rbind_Ok)%rbind_Ok)%rbind_Ok)%rbind_Ok.
  rewrite map_app. intros [->|[(fn & -> & Hfn)%list_elem_of_fmap|(fn & -> & Hfn)%list_elem_of_fmap]%elem_of_app]%elem_of_cons.
  - change (str "<h3 id=" ++ ?rest) with (str "<h3" ++ str " id=" ++ rest). unfold id_of. rewrite (assoc_L (++) (str " id=")). occurs.
  - assert (occurs (id_of (anchor fn)) funcs) by (eapply write_each_occurs; [done..|]; apply function_has_id). occurs.
  - assert (occurs (id_of (anchor fn)) methods) by (eapply write_each_occurs; [done..|]; apply function_has_id). occurs.
Qed.

Lemma link_occurs fragment text : occurs (link_to fragment) (fragment_link fragment text).
Proof. unfold link_to, fragment_link. rewrite (assoc_L (++) (str "<li><a href=")). occurs. Qed.

Lemma type_entry_links typ fragment : fragment ∈ type_targets typ → occurs (link_to fragment) (type_entry typ).
Proof.
  unfold type_entry, type_targets. pose proof link_occurs as Hl.
  intros [->|(fn & -> & Hfn)%list_elem_of_fmap]%elem_of_cons; [occurs|].
  assert (function_link anchor fn ∈ map (function_link anchor) (ty_Funcs typ ++ ty_Methods typ)) as Hin by by apply list_elem_of_fmap_2.
  destruct (map (function_link anchor) _) as [|member members]; [by apply elem_of_nil in Hin|].
  apply occurs_r, occurs_r, occurs_l, occurs_r, occurs_r, occurs_l. eapply occurs_join; [done|]. unfold function_link. occurs.
Qed.

Lemma index_links doc fragment : fragment ∈ index_targets doc → occurs (link_to fragment) (package_index doc).
Proof.
  unfold index_targets, package_index. pose proof link_occurs as Hl. rewrite !elem_of_app.
  intros [Hc|[Hv|[(fn & -> & Hfn)%list_elem_of_fmap|(typ & Htyp & Ht)%elem_of_concat_map]]].
  - destruct (pk_Consts doc); [by apply elem_of_nil in Hc|]. apply list_elem_of_singleton in Hc as ->. unfold when_any. occurs.
  - destruct (pk_Vars doc); [by apply elem_of_nil in Hv|]. apply list_elem_of_singleton in Hv as ->. unfold when_any at 2. occurs.
  - assert (occurs (link_to (fn_Name fn)) (concat (map (λ fn, function_link fn_Name fn ++ nl) (pk_Funcs doc)))); [|occurs].
    eapply occurs_concat; [done|]. unfold function_link. occurs.
  - assert (occurs (link_to fragment) (concat (map type_entry (pk_Types doc)))); [|occurs].
    eapply occurs_concat; [done|]. by apply type_entry_links.
Qed.

Lemma body_ids s package out fragment :
  Forall (λ fn, fn_Recv fn = []) (pk_Funcs (pd_doc package)) → package_body s package = Ok out →
  fragment ∈ index_targets (pd_doc package) → occurs (id_of fragment) out.
Proof.
  unfold package_body, index_targets. intros Hr.
  intros (shown & _ & (consts & _ & (vars & _ & (funcs & Hf & (types & Ht & <-%Ok_inj)%rbind_Ok)%rbind_Ok)%rbind_Ok)%rbind_Ok)%rbind_Ok.
  rewrite !elem_of_app.
  intros [Hc|[Hv|[(fn & -> & Hfn)%list_elem_of_fmap|(typ & Htyp & Hin)%elem_of_concat_map]]].
  - destruct (pk_Consts _); [by apply elem_of_nil in Hc|]. apply list_elem_of_singleton in Hc as ->. unfold when_any at 1, heading2 at 1.
    fold (id_of (str "pkg-constants")). occurs.
  - destruct (pk_Vars _); [by apply elem_of_nil in Hv|]. apply list_elem_of_singleton in Hv as ->. unfold when_any at 2, heading2 at 2.
    fold (id_of (str "pkg-variables")). occurs.
  - assert (occurs (id_of (fn_Name fn)) funcs); [|occurs]. eapply write_each_occurs; [done..|]. intros o Ho%function_has_id.
    unfold anchor in Ho. rewrite Forall_forall in Hr. by rewrite (Hr fn Hfn) in Ho.
  - assert (occurs (id_of fragment) types); [|occurs]. eapply write_each_occurs; [done..|]. intros o Ho. by eapply type_section_ids.
Qed.

Lemma occurs_layout s title body x : occurs x body → occurs x (layout s title body).
Proof.
  intros Hx. unfold layout.
  repeat lazymatch goal with |- occurs _ (body ++ _) => fail | |- occurs _ (_ ++ _) => apply occurs_r end. by apply occurs_l.
Qed.

(** The page of a package links to its own elements: every fragment of the index is the id of an element of the page. *)
Theorem index_links_resolve (s : site) (package : packageDoc) (page : bytes) :
  Forall (λ fn, fn_Recv fn = []) (pk_Funcs (pd_doc package)) → packagePage s package = Ok page →
  ∀ fragment, fragment ∈ index_targets (pd_doc package) → occurs (link_to fragment) page ∧ occurs (id_of fragment) page.
Proof.
  unfold packagePage. intros Hr (body & Hb & <-%Ok_inj)%rbind_Ok fragment Hf. split; apply occurs_layout; [|by eapply body_ids].
  pose proof (index_links _ _ Hf). unfold package_body in Hb. revert Hb.
  intros (shown & _ & (consts & _ & (vars & _ & (funcs & _ & (types & _ & <-%Ok_inj)%rbind_Ok)%rbind_Ok)%rbind_Ok)%rbind_Ok)%rbind_Ok.
  occurs.
Qed.

(** ** Links of comments *)

(** A link of a comment to a function or method of a package of the site leads to its anchor. *)
Theorem doc_link_anchors (s : site) (package target : packageDoc) (fn : doc_Func) (link : DocLink) :
  List.find (λ p, bool_decide (pk_ImportPath (pd_doc p) = dl_ImportPath link)) (st_packages s) = Some target →
  dl_ImportPath link ≠ [] → pd_page target ≠ [] → fn_Name fn ≠ [] →
  dl_Name link = fn_Name fn → dl_Recv link = receiver_name (fn_Recv fn) → (fn_Recv fn ≠ [] → receiver_name (fn_Recv fn) ≠ []) →
  docLinkURL s package link = pd_page target ++ str "#" ++ anchor fn.
Proof.
  intros Hf Hp Hpage Hname Hln Hlr Hne. unfold docLinkURL, pageFor. destruct (dl_ImportPath link) as [|b path]; [done|].
  rewrite Hf. destruct (pd_page target) as [|c page]; [done|]. unfold anchor. rewrite Hlr, Hln.
  destruct (fn_Recv fn) as [|r recv]; [cbn; by destruct (fn_Name fn)|].
  destruct (receiver_name (r :: recv)) as [|d name]; [by destruct Hne|]. done.
Qed.

(** ** A page is complete *)

(** The declarations that a page prints. *)
Definition package_decls (doc : doc_Package) : list ast_decl :=
  map dv_Decl (pk_Consts doc ++ pk_Vars doc) ++ map fn_Decl (pk_Funcs doc) ++
  concat (map (λ typ, ty_Decl typ :: map dv_Decl (ty_Consts typ ++ ty_Vars typ) ++ map fn_Decl (ty_Funcs typ ++ ty_Methods typ)) (pk_Types doc)).

Section Total.
Context {L : ScannerLaws G} (s : site) (package : packageDoc).

Definition in_a_file (decl : ast_decl) : Prop := is_Some (fileFor package (decl_Pos decl)).

Lemma highlighted_total src : ∃ out, highlighted src = Ok out.
Proof. unfold highlighted. destruct (highlight_total src) as [page ->]. by eexists. Qed.

Lemma code_total decl : in_a_file decl → ∃ out, code package decl = Ok out.
Proof.
  intros [file Hfile]. unfold code. rewrite Hfile.
  destruct (highlighted_total (printed_text package (PrintedDecl decl (file_Comments file)))) as [out ->]. by eexists.
Qed.

Lemma examples_total l : ∃ out, examples s package l = Ok out.
Proof.
  apply write_each_total. intros example _. unfold example_html.
  destruct (highlighted_total (dedent (example_text package example))) as [out ->]. by eexists.
Qed.

Lemma values_total l : Forall in_a_file (map dv_Decl l) → ∃ out, write_each (value s package) l = Ok out.
Proof.
  rewrite Forall_forall. intros Hl. apply write_each_total. intros v Hv. unfold value.
  destruct (code_total (dv_Decl v)) as [out ->]; [by apply Hl, list_elem_of_fmap_2|]. by eexists.
Qed.

Lemma functions_total heading l : Forall in_a_file (map fn_Decl l) → ∃ out, write_each (function s package heading) l = Ok out.
Proof.
  rewrite Forall_forall. intros Hl. apply write_each_total. intros fn Hfn. unfold function.
  destruct (code_total (fn_Decl fn)) as [out ->]; [by apply Hl, list_elem_of_fmap_2|]. cbn [rbind].
  destruct (examples_total (fn_Examples fn)) as [shown ->]. by eexists.
Qed.

(** A package whose declarations lie in the files that were parsed has a page. *)
Theorem packagePage_total : Forall in_a_file (package_decls (pd_doc package)) → ∃ page, packagePage s package = Ok page.
Proof.
  unfold package_decls. rewrite map_app, !Forall_app, !Forall_forall. intros ([Hc Hv] & Hf & Ht). unfold packagePage, package_body.
  destruct (examples_total (pk_Examples (pd_doc package))) as [shown ->]. cbn [rbind].
  destruct (values_total (pk_Consts (pd_doc package))) as [consts ->]; [by apply Forall_forall|]. cbn [rbind].
  destruct (values_total (pk_Vars (pd_doc package))) as [vars ->]; [by apply Forall_forall|]. cbn [rbind].
  destruct (functions_total (str "h3") (pk_Funcs (pd_doc package))) as [funcs ->]; [by apply Forall_forall|]. cbn [rbind].
  edestruct (write_each_total (type_section s package) (pk_Types (pd_doc package))) as [types ->]; [|by eexists].
  intros typ Htyp. unfold type_section.
  assert (Forall in_a_file (ty_Decl typ :: map dv_Decl (ty_Consts typ ++ ty_Vars typ) ++ map fn_Decl (ty_Funcs typ ++ ty_Methods typ)))
    as [Hd [Hcv Hfm]%Forall_app]%Forall_cons.
  { apply Forall_forall. intros decl Hd. apply Ht. apply elem_of_concat_map. by exists typ. }
  rewrite map_app in Hfm. apply Forall_app in Hfm as [Htf Htm].
  destruct (code_total (ty_Decl typ) Hd) as [text ->]. cbn [rbind]. destruct (examples_total (ty_Examples typ)) as [shown' ->]. cbn [rbind].
  destruct (values_total _ Hcv) as [values ->]. cbn [rbind]. destruct (functions_total (str "h4") _ Htf) as [fs ->]. cbn [rbind].
  destruct (functions_total (str "h4") _ Htm) as [ms ->]. by eexists.
Qed.

End Total.

(** ** Loading *)

Lemma group_files_snoc args file : group_files (args ++ [file]) = add_file (group_files args) file.
Proof. unfold group_files. by rewrite fold_left_app. Qed.

(** The files of a directory, in the order of the arguments. *)
Lemma group_files_lookup args dir :
  group_files args !! dir = match filter (λ file, dir_of file = dir) args with [] => None | files => Some files end.
Proof.
  induction args as [|file args IH] using rev_ind; [done|]. rewrite group_files_snoc, filter_app. unfold add_file.
  destruct (decide (dir_of file = dir)) as [<-|Hd].
  - rewrite lookup_insert_eq, IH, filter_cons_True, filter_nil by done. by destruct (filter _ args).
  - rewrite lookup_insert_ne, IH, filter_cons_False, filter_nil, app_nil_r by done. done.
Qed.

Lemma group_files_default args dir : default [] (group_files args !! dir) = filter (λ file, dir_of file = dir) args.
Proof. rewrite group_files_lookup. by destruct (filter _ args). Qed.

Lemma parse_files_names fset files trees fset' : parse_files fset files = Ok (trees, fset') → map fst trees = files.
Proof.
  revert fset trees fset'. induction files as [|file files IH]; intros fset trees fset'; cbn [parse_files]; [by intros [= <- <-]|].
  destruct (ParseFile fset file) as [parsed fset1]. intros (tree & _ & ([rest fset2] & Hr & [= <- <-])%rbind_Ok)%rbind_Ok.
  cbn. f_equal. by eapply IH.
Qed.

Lemma fold_insert_keys {V} (entries : list (bytes * V)) (m : gmap bytes V) k :
  is_Some (fold_left (λ m entry, <[entry.1 := entry.2]> m) entries m !! k) ↔ k ∈ map fst entries ∨ is_Some (m !! k).
Proof.
  revert m. induction entries as [|[k' v] entries IH]; intros m; cbn [fold_left map fst snd]; [set_solver|].
  rewrite IH, lookup_insert_is_Some', elem_of_cons. naive_solver.
Qed.

(** [NewFromFiles] edits the trees in place. *)
Class GoDocLaws : Prop := {
  NewFromFiles_trees fset trees path package edited : NewFromFiles fset trees path = Ok (package, edited) → length edited = length trees;
}.

Lemma load_package_spec `{!GoDocLaws} module dir files package :
  load_package module dir files = Ok package →
  pd_dir package = dir ∧ pd_page package = page_name dir (pk_Name (pd_doc package)) ∧
  ∀ file, is_Some (pd_files package !! file) ↔ file ∈ files.
Proof.
  unfold load_package. intros ([trees fset] & Hp & ([doc edited] & Hd & [= <-])%rbind_Ok)%rbind_Ok.
  destruct (NewFromFiles _ _ _) as [[doc' edited']|] eqn:Hn; [|done]. injection Hd as -> ->.
  apply NewFromFiles_trees in Hn. rewrite length_map in Hn. cbn [pd_dir pd_page pd_doc pd_files]. split_and!; [done..|].
  intros file. rewrite fold_insert_keys, lookup_empty, fst_zip by (rewrite length_map; lia).
  rewrite (parse_files_names _ _ _ _ Hp), merge_sort_Permutation. split; [intros [?|[? ?]]; done|by left].
Qed.

Lemma load_packages_spec `{!GoDocLaws} module byDir dirs packages :
  load_packages module byDir dirs = Ok packages →
  map pd_dir packages = dirs ∧
  ∀ package, package ∈ packages → pd_page package = page_name (pd_dir package) (pk_Name (pd_doc package)) ∧
    ∀ file, is_Some (pd_files package !! file) ↔ file ∈ default [] (byDir !! pd_dir package).
Proof.
  revert packages. induction dirs as [|dir dirs IH]; intros packages; cbn [load_packages].
  { intros [= <-]. split; [done|]. by intros package ?%elem_of_nil. }
  intros (package & (Hdir & Hpage & Hfiles)%load_package_spec & (rest & [Hdirs Hrest]%IH & [= <-])%rbind_Ok)%rbind_Ok.
  split; [cbn; congruence|]. intros package' [->|Hin]%elem_of_cons; [|by apply Hrest]. by rewrite Hdir.
Qed.

(** Loading puts every file into exactly one package, that of its directory, and the packages come in the order of their
    directories, each once. *)
Theorem load_exact `{!GoDocLaws} (module repo : bytes) (args : list bytes) (s : site) :
  load module repo args = Ok s →
  let dirs := map pd_dir (st_packages s) in
  dirs = sorted_keys (group_files args) ∧ NoDup dirs ∧ (∀ dir, dir ∈ dirs ↔ dir ∈ map dir_of args) ∧
  ∀ package, package ∈ st_packages s → pd_page package = page_name (pd_dir package) (pk_Name (pd_doc package)) ∧
    ∀ file, is_Some (pd_files package !! file) ↔ file ∈ args ∧ dir_of file = pd_dir package.
Proof.
  unfold load. intros (packages & [Hdirs Hp]%load_packages_spec & [= <-])%rbind_Ok. cbn [st_packages].
  rewrite Hdirs. split_and!; [done|apply NoDup_sorted_keys| |].
  - intros dir. rewrite elem_of_sorted_keys, group_files_lookup. unfold is_Some.
    assert (dir ∈ map dir_of args ↔ filter (λ file, dir_of file = dir) args ≠ []) as ->; [|by destruct (filter _ args); naive_solver].
    rewrite list_elem_of_fmap. split.
    + intros (file & -> & Hf) Hn. apply (not_elem_of_nil file). rewrite <- Hn. by apply list_elem_of_filter.
    + destruct (filter _ args) as [|file files] eqn:E; [done|]. intros _.
      assert (file ∈ filter (λ file, dir_of file = dir) args) as [Hd Hf]%list_elem_of_filter by (rewrite E; left).
      by exists file.
  - intros package Hin. destruct (Hp package Hin) as [Hpage Hfiles]. split; [done|]. intros file.
    rewrite Hfiles, group_files_default, list_elem_of_filter. tauto.
Qed.

(** ** Rendering *)

Lemma page_name_file dir name : dir ≠ [] → file_name (page_name dir name).
Proof.
  intros Hdir. unfold page_name. destruct dir as [|b dir]; [done|]. set (text := ReplaceAll (b :: dir) slash (ascii_byte "-")).
  assert (length (text ++ str ".html") > 2)%nat as Hlen by (rewrite length_app; cbn; lia).
  change (file_name (text ++ str ".html")).
  split; [|split_and!; intros H; rewrite H in Hlen; cbn in Hlen; lia].
  intros [(c & Hc & _)%list_elem_of_fmap|Hin]%elem_of_app; [by case_decide|].
  revert Hin. apply (bool_decide_unpack _). by vm_compute.
Qed.

Lemma WriteFile_Ok {E} path data (o o' : output E) :
  WriteFile path data o = (Ok tt, o') → out_files o' = <[path := data]> (out_files o).
Proof. unfold WriteFile. destruct (out_refused o path) as [[e kept]|]; [done|]. by intros [= <-]. Qed.

Lemma write_packages_spec {E} (s : site) out packages (o o' : output E) :
  write_packages s out packages o = (Ok tt, o') →
  (∀ path, path ∉ map (λ p, Join out (pd_page p)) packages → out_files o' !! path = out_files o !! path) ∧
  (NoDup (map (λ p, Join out (pd_page p)) packages) → ∀ package, package ∈ packages →
     ∃ page, packagePage s package = Ok page ∧ out_files o' !! Join out (pd_page package) = Some page).
Proof.
  revert o. induction packages as [|package packages IH]; intros o; cbn [write_packages].
  { intros [= <-]. split; [done|]. by intros _ package ?%elem_of_nil. }
  intros (page & o1 & Hpage & ([] & o2 & Hw%WriteFile_Ok & [Hkeep Hall]%IH)%io_bind_Ok)%io_bind_Ok.
  apply io_lift_Ok in Hpage as [Hpage ->]. destruct (packagePage s package) as [page'|] eqn:Hp; [|done]. injection Hpage as ->.
  cbn [map]. split.
  - intros path [Hne Hn]%not_elem_of_cons. by rewrite Hkeep, Hw, lookup_insert_ne by done.
  - intros [Hn Hnd]%NoDup_cons package' [->|Hin]%elem_of_cons; [|by apply Hall]. exists page. split; [done|].
    by rewrite Hkeep, Hw, lookup_insert_eq.
Qed.

(** A rendered site is complete: when the names of the pages differ from each other and from the index, the index and the page of every package
    are in the directory, so that every link of a header and of the index leads to the page of its package. *)
Theorem render_exact {E} (mkdir : bytes → io (output E) (render_error E) unit) (s : site) (out : bytes) (o o' : output E) :
  mkdir out o = (Ok tt, o) → out ≠ [] →
  Forall file_name (map pd_page (st_packages s)) → NoDup (str "index.html" :: map pd_page (st_packages s)) →
  render mkdir s out o = (Ok tt, o') →
  out_files o' !! Join out (str "index.html") = Some (indexPage s) ∧
  ∀ package, package ∈ st_packages s →
    ∃ page, packagePage s package = Ok page ∧ out_files o' !! Join out (pd_page package) = Some page.
Proof.
  intros Hmk Hout Hnames Hnd. unfold render.
  intros ([] & o1 & Hm & ([] & o2 & Hw%WriteFile_Ok & [Hkeep Hall]%write_packages_spec)%io_bind_Ok)%io_bind_Ok.
  rewrite Hmk in Hm. injection Hm as <-. destruct (Clean_join out Hout) as [prefix Hjoin].
  assert (Hpaths : NoDup (map (Join out) (str "index.html" :: map pd_page (st_packages s)))).
  { apply NoDup_fmap_2_strong; [|done]. rewrite Forall_forall in Hnames.
    assert (Hidx : file_name (str "index.html")) by (split_and!; apply (bool_decide_unpack _); by vm_compute).
    assert (∀ name, name ∈ str "index.html" :: map pd_page (st_packages s) → file_name name) as Hfn
      by (intros name [->|Hn]%elem_of_cons; [done|by apply Hnames]).
    intros x y Hx Hy. unfold Join. rewrite !Hjoin by auto. apply app_inv_head. }
  cbn [map] in Hpaths. rewrite map_map in Hpaths. apply NoDup_cons in Hpaths as [Hn Hpaths]. split; [|by apply Hall].
  by rewrite Hkeep, Hw, lookup_insert_eq.
Qed.

End Pages.

(** ** Imports of an example *)

Lemma join_lines_nonblank inImports kept lines :
  List.filter nonblank (join_lines inImports kept lines) = List.filter nonblank lines.
Proof.
  revert inImports kept. induction lines as [|line lines IH]; intros inImports kept; [done|]. cbn [join_lines List.filter].
  case_bool_decide; [cbn [List.filter]; by rewrite IH|]. case_bool_decide; [cbn [List.filter]; by rewrite IH|].
  destruct (inImports && _ && _ && _) eqn:E; [|cbn [List.filter]; by rewrite IH]. rewrite IH.
  destruct (bool_decide (TrimSpace line = [])) eqn:Ht; [|by rewrite andb_false_r in E].
  apply bool_decide_eq_true in Ht. assert (nonblank line = false) as -> by (unfold nonblank; by rewrite Ht). done.
Qed.

Lemma join_lines_Forall (P : bytes → Prop) inImports kept lines : Forall P lines → Forall P (join_lines inImports kept lines).
Proof.
  intros H. revert inImports kept. induction H as [|line lines Hl _ IH]; intros inImports kept; [done|]. cbn [join_lines].
  repeat case_bool_decide; repeat case_match; auto.
Qed.

Lemma join_lines_outside kept lines :
  Forall (λ line, TrimSpace line ≠ str "import (") lines → join_lines false kept lines = lines.
Proof.
  intros H. revert kept. induction H as [|line lines Hl _ IH]; intros kept; [done|]. cbn [join_lines andb].
  rewrite bool_decide_false by done. case_bool_decide; by rewrite IH.
Qed.

(** Joining the imports drops blank lines only, and changes nothing in a text without an import block. *)
Theorem joinStdImports_keeps (text : bytes) :
  List.filter nonblank (Split (joinStdImports text) x0a) = List.filter nonblank (Split text x0a) ∧
  (Forall (λ line, TrimSpace line ≠ str "import (") (Split text x0a) → joinStdImports text = text).
Proof.
  unfold joinStdImports, nl. split; [|intros H; by rewrite join_lines_outside, Join_Split].
  rewrite Split_Join, join_lines_nonblank; [done| |apply join_lines_Forall, Split_parts].
  pose proof (Split_nonempty text x0a) as Hn. destruct (Split text x0a) as [|line lines]; [done|]. cbn [join_lines].
  by repeat case_bool_decide.
Qed.

(** ** A small go/doc

    A position is a file and a line, a declaration is its text, and a package is called pkg and declares nothing. *)
Module Demo.

Record declaration := MkDecl { dc_text : bytes; dc_file : bytes; dc_line : Z }.

#[global] Instance demo_ast : GoAst :=
  {| file_set := unit; ast_file := unit; ast_decl := declaration; ast_code := bytes; ast_comments := unit; ast_pos := bytes * Z |}.

Definition package_of (importPath : bytes) : doc_Package := MkPackage [] (str "pkg") importPath [] [] [] [] [].

#[global] Instance demo_doc : GoDoc demo_ast := {|
  parse_error := Empty_set;
  doc_error := Empty_set;
  NewFileSet := tt;
  ParseFile _ _ := (Ok tt, tt);
  NewFromFiles _ trees path := Ok (package_of path, trees);
  Synopsis _ _ := [];
  decl_Pos d := (dc_file d, dc_line d);
  Position _ pos := pos;
  file_Comments _ := tt;
  Fprint _ node := (match node with PrintedDecl d _ => dc_text d | PrintedBlock block _ => block | PrintedFile _ => [] end, None);
  HTML _ _ text := EscapeString text;
  quote_wide text := text;
|}.

#[global] Instance demo_laws : GoDocLaws.
Proof. constructor. by intros fset trees path package edited [= <- <-]. Qed.

#[global] Instance demo_theme : Theme := {| style := str "body{}"; logoSVG := str "<svg/>" |}.

Definition empty_directory : output Empty_set := MkOutput ∅ (λ _, None).
Definition make_directory (path : bytes) : io (output Empty_set) (render_error Empty_set) unit := io_ret tt.

(** A package in one file with a function, a method and a constant. *)
Definition shop : doc_Package :=
  MkPackage (str "Package shop sells.") (str "shop") (str "m/shop")
    [MkValue (str "Limit bounds a basket.") (MkDecl (str "const Limit = 3") (str "shop/a.go") 3)]
    [MkType [] (str "Cart") (MkDecl (str "type Cart struct{}") (str "shop/a.go") 5) [] []
       [] [MkFunc [] (str "Add") (MkDecl (str "func (c *Cart) Add(n int)") (str "shop/a.go") 7) (str "*Cart") []] []]
    [] [MkFunc [] (str "Open") (MkDecl (str "func Open() error") (str "shop/a.go") 9) [] []] [].
Definition shop_page : packageDoc := MkPackageDoc shop tt {[str "shop/a.go" := tt]} (str "shop") (str "shop.html") [].
Definition shop_site : site := MkSite (str "m") (str "https://h/m") [shop_page].

End Demo.

Import Demo.

Definition shop_html : bytes := match packagePage shop_site shop_page with Ok page => page | Err _ => [] end.

Lemma shop_html_Ok : packagePage shop_site shop_page = Ok shop_html.
Proof. by vm_compute. Qed.

Lemma index_links_resolve_witness :
  index_targets shop = [str "pkg-constants"; str "Open"; str "Cart"; str "Cart.Add"] ∧
  ∀ fragment, fragment ∈ index_targets shop → occurs (link_to fragment) shop_html ∧ occurs (id_of fragment) shop_html.
Proof.
  split; [by vm_compute|]. apply (index_links_resolve shop_site shop_page); [|exact shop_html_Ok]. by repeat constructor.
Defined.

Lemma packagePage_total_witness : ∃ page, packagePage shop_site shop_page = Ok page.
Proof. apply (packagePage_total shop_site shop_page). repeat constructor; by eexists. Defined.

Definition two_files : list bytes := [str "b/x.go"; str "main.go"; str "./b/a.go"].

Definition two_site : site := match load (str "m") [] two_files with Ok s => s | Err _ => MkSite [] [] [] end.

Lemma load_exact_witness :
  map pd_dir (st_packages two_site) = [[]; str "b"] ∧ map pd_page (st_packages two_site) = [str "pkg.html"; str "b.html"] ∧
  ∀ dir, dir ∈ map pd_dir (st_packages two_site) ↔ dir ∈ map dir_of two_files.
Proof.
  split_and!; [by vm_compute..|]. assert (load (str "m") [] two_files = Ok two_site) as Hl by by vm_compute.
  apply (load_exact (str "m") [] two_files two_site Hl).
Defined.

Definition rendered_two : output Empty_set := (render make_directory two_site (str "out/") empty_directory).2.

Lemma render_exact_witness :
  out_files rendered_two !! str "out/index.html" = Some (indexPage two_site) ∧
  size (out_files rendered_two) = 3%nat.
Proof.
  split; [|by vm_compute].
  apply (render_exact make_directory two_site (str "out/") empty_directory rendered_two); [done|done| |by_decide|by vm_compute].
  repeat constructor; by_decide.
Defined.

(** ** Surprises *)

(** Directories whose names differ in a slash and a hyphen have one page, and the first of the two packages has none. *)
Lemma pages_collide :
  match load (str "m") [] [str "a/b/x.go"; str "a-b/y.go"] with
  | Ok s =>
      map pd_page (st_packages s) = [str "a-b.html"; str "a-b.html"] ∧
      size (out_files (render make_directory s (str "out") empty_directory).2) = 2%nat
  | Err _ => False
  end.
Proof. by vm_compute. Qed.

(** The page of a directory called index takes the place of the index. *)
Definition index_of_index : option bool :=
  match load (str "m") [] [str "index/x.go"] with
  | Ok s =>
      let files := out_files (render make_directory s (str "out") empty_directory).2 in
      match packagePage s <$> head (st_packages s), files !! str "out/index.html" with
      | Some (Ok page), Some data => Some (bool_decide (data = page) && bool_decide (size files = 1%nat))
      | _, _ => None
      end
  | Err _ => None
  end.

Lemma index_overwritten : index_of_index = Some true.
Proof. by vm_compute. Qed.

(** A comment that names a constant links to a fragment that the page does not have. *)
Fixpoint contains (x s : bytes) : bool := HasPrefix s x || match s with [] => false | _ :: s => contains x s end.

Lemma occurs_contains x s : occurs x s → contains x s = true.
Proof.
  intros (pre & post & ->). induction pre as [|b pre IH]; cbn [app].
  - destruct (x ++ post) eqn:E; cbn [contains]; rewrite <- ?E, HasPrefix_app; done.
  - cbn [contains]. by rewrite IH, orb_true_r.
Qed.

Lemma value_link_dangles :
  docLinkURL shop_site shop_page (MkLink [] [] (str "Limit")) = str "shop.html#Limit" ∧ ¬ occurs (id_of (str "Limit")) shop_html.
Proof. split; [done|]. intros H%occurs_contains. revert H. by vm_compute. Qed.

(** A line directive gives a position a file name that the map does not have: the tool panics. *)
Lemma line_directive_panics :
  let decl := MkDecl (str "var x = 1") (str "grammar.y") 12 in
  let doc := MkPackage [] (str "p") (str "m/p") [] [] [MkValue [] decl] [] [] in
  let package := MkPackageDoc doc tt {[str "p/gen.go" := tt]} (str "p") (str "p.html") [] in
  packagePage (MkSite (str "m") [] [package]) package = Err NilFile.
Proof. by vm_compute. Qed.

(** The import line of a page is quoted as a Go string, not escaped as HTML. *)
Lemma import_path_unescaped :
  Quote (str "m/<b>&amp;") = quoted (str "m/<b>&amp;").
Proof. by vm_compute. Qed.

(** A raw string loses the indent of the code around it, and one with a line at the margin keeps that code in its place. *)
Lemma raw_string_dedented :
  dedent (strings_Join [str "    s := `"; str "      text`"; str "    f(s)"] nl) = strings_Join [str "s := `"; str "  text`"; str "f(s)"] nl ∧
  dedent (strings_Join [str "    s := `"; str "text`"; str "    f(s)"] nl) = strings_Join [str "s := `"; str "text`"; str "    f(s)"] nl.
Proof. by vm_compute. Qed.

(** A blank line between quoted lines of a raw string that looks like an import block is dropped. *)
Lemma import_in_raw_string_joined :
  joinStdImports (strings_Join [str "s := `import ("; str "import ("; quoted (str "a"); []; quoted (str "b"); str ")`"] nl)
  = strings_Join [str "s := `import ("; str "import ("; quoted (str "a"); quoted (str "b"); str ")`"] nl.
Proof. by vm_compute. Qed.
